(* ===== verification/_CoqProject ===== *)
-Q . S2P
Tunix.v
Prelude.v
Pmm.v
Heap.v
HeapBins.v
HeapRow.v
HeapOps.v
HeapSpec.v
Pipe.v
PosixLock.v
Seccomp.v
Acl.v
Cred.v
SysvSem.v
HeldArray.v
Lock.v
Mutex.v
Crc.v
Block.v
BlockIo.v
BlockReg.v
Partition.v
PartitionSpec.v
DiskNode.v
BlockSpec.v
Inotify.v
InotifyQueue.v
InotifySpec.v
RustStd.v
Lz4.v
Lz4Format.v
Lz4Compress.v
Lz4Spec.v
Zram.v
ZramAttr.v
ZramOk.v
ZramSpec.v
ZramDriver.v
Elf.v
ElfSpec.v
ElfImage.v
VmmSpaces.v
Pte.v
