(* ===== verification/Tunix.v ===== *)
(** * A verification development for the Tunix kernel

    Tunix is a monolithic kernel in C, with two crates in Rust, for x86-64 and
    AArch64.  This library translates part of it into Rocq definitions, keeps
    them executable, and proves what makes each part correct.  File names below
    are relative to src/.

    ** Conventions

    Prelude.v has the vocabulary.  A machine word is a [Z] with its wrap-around
    written out ([u8] to [u64], [i32], [i64]); a buffer is a list; a C function
    returns a [res]: [Ret] a value, [Panic] where the code calls panic, [Fault]
    where it would read or write outside an object or follow a stale pointer.
    "The operation returns" ([returns r P]) excludes the last two.  Counted loops
    are [for_range], with the invariant rule [for_range_rule].  RustStd.v does
    the same for Rust: [outcome] is [Option] and [Result], [x <-? m;; k] is [?],
    and the checked and saturating operations are those of the language.

    A function that runs under a lock is one atomic step; that this is sound is
    the subject of Lock.v and Mutex.v.  What the code asks of its surroundings,
    such as whether kmalloc finds memory, what the clock says, what user memory
    holds or which process runs next, is an argument of the definitions, and the
    theorems hold for every answer.  A shared structure reached through pointers
    (heap blocks, seccomp filters, inotify watches) is a store indexed by
    address or by number of allocation, so that aliasing, leaks and early frees
    are states of the model.  A theorem about every use of a component runs over
    sequences of its operations, or over the reachable states of a step relation
    where threads interleave.

    ** Memory

    Pmm.v is mm/pmm.c, the page allocator: a bitmap and reference counts.  From
    boot on, every sequence of operations keeps the two consistent, hands out no
    page twice and never a reserved one, and each operation has the effect its
    name says.

    Heap.v is mm/heap.c: headers in memory with two kinds of links, the size
    classes, growth and the return of pages.  HeapBins.v shows that the size
    classes are an index of the free blocks, HeapRow.v that the headers form a
    row of blocks without gaps, HeapOps.v that the operations keep both, and
    HeapSpec.v what callers see: [kmalloc] returns memory that no other block in
    use overlaps, or NULL and an unchanged heap; [kfree] takes exactly its block
    out of use; and this holds in every reachable heap.

    Pte.v is include/tunix/vmm_arch.h, the page table entries of the two
    architectures: one interface, the class [Pte] with its laws [PteLaws], and an
    instance for each; entries decode to what they were made from.  VmmSpaces.v is
    the part of mm/vmm.c that finds the record of an address space, a hash table
    with linear probing that grows into pages of Pmm.v: it refines a finite map,
    over every sequence of operations, and never reads a freed record.

    ** Locks

    Lock.v is locking/lock.c, the ticket spinlock, cut at every access of shared
    memory and interleaved over any number of processors: mutual exclusion, and
    first come, first served.  Mutex.v is locking/mutex.c, the sleeping mutex:
    mutual exclusion, and no waiter stays asleep while the mutex is free.
    HeldArray.v is the record of held locks both of them keep.

    ** Files and processes

    Pipe.v is ipc/pipe.c: the bytes read are the bytes written, in order, over
    every sequence of operations, and writes of up to PIPE_BUF are atomic.
    PosixLock.v is fs/posix_lock.c with the fcntl front end of core/syscall.c:
    it refines a relation between owners and bytes, no two owners conflict, and
    the deadlock search is exact up to its ten hops.  SysvSem.v is ipc/sysvsem.c:
    [semop] takes effect wholly or not at all, values stay in range, and the
    adjustments of an exiting process are undone.  Inotify.v is fs/inotify.c;
    InotifyQueue.v and InotifySpec.v show that its byte ring is a queue of whole
    events, that a notification reaches exactly the contexts that watch the node,
    and that no watch outlives its node or its context.

    ** Security

    Seccomp.v is core/seccomp.c: a filter the verifier accepts terminates without
    leaving its program or its data, filters can only be added, and a child has
    at least its parent's.  Acl.v is fs/acl.c: what is set is what is read, and
    the check is that of the specification.  Cred.v is core/cred.c: no call gives
    an unprivileged process an identity it did not have, and the permission check
    on a node refines a declarative one.

    ** Storage

    Block.v is block/block.c.  A driver is an interface, the class [DriverOps]
    with its laws [Driver]; the layer is proved for every driver.  BlockIo.v has
    the requests, BlockReg.v the registry, Partition.v and PartitionSpec.v
    fs/partition.c, DiskNode.v the disk nodes of fs/devfs.c, and BlockSpec.v the
    theorems: a device is an array of bytes, requests stay inside their device, a
    scan registers what the tables list, every reachable registry is in order.

    Lz4.v is the crate rust/lz4.  Lz4Format.v says what a block is and shows that
    the decompressor accepts exactly the blocks that fill its output;
    Lz4Compress.v that the compressor writes such blocks and terminates;
    Lz4Spec.v that one undoes the other.  Zram.v and ZramAttr.v are
    drivers/storage/zram.c, the compressed memory disk, over Lz4.v.  ZramOk.v has
    its invariant and ZramSpec.v the refinement: it behaves as an array of bytes.
    ZramDriver.v shows that it keeps the contract of Block.v and composes the
    three: sectors written through a device or partition are read back.

    Crc.v is lib/crc.c: the table-driven checksums equal the bit-by-bit ones.

    ** Programs

    Elf.v is the crate rust/elf, which plans the image of a program.  ElfSpec.v
    shows that a plan it accepts is safe to carry out.  ElfImage.v is the part of
    core/elf.c that reads the headers and asks for the plan: a prefix of the file
    is enough, and the second request cannot fail.

    ** Fuel

    Loops that are not counted are [Fixpoint]s over a number of turns.  The number
    is always computed from the state by the caller, as the length of a list, a
    size in bytes or sectors, the length of a chain of filters, the number of
    heap blocks plus one.  Running out is not a value the code can return: it is
    [Fault], or [Unfinished] for Rust, and the theorems that an operation
    returns show that it does not happen.

    ** Not modelled

    Everything that talks to hardware: the code of the two architectures, the
    drivers, interrupts, clocks, the display.  The scheduler, signals and process
    creation (core/process.c), which save and restore machine state; where a
    component sleeps or wakes, the scheduler is the choice of the next step.  The
    walks over page tables, copy on write and swap (the rest of mm/vmm.c and
    mm/swap.c): the heap takes the mapping of its pages as an answer.  The dispatch and copying of system calls (core/syscall.c)
    beyond the calls named above.  The virtual file system and the file systems
    proper (fs/vfs.c, fs/ext4, fs/jbd2.c, fs/fatfs.c) and the synthetic ones
    (procfs, sysfs, cgroupfs): components model what they read of a node.
    Networking, terminals, sockets, epoll, io_uring, timers and modules: parts
    of their own that nothing modelled here depends on.  In the modelled parts,
    messages to the console are left out, and memory is sequentially consistent.
    zram_init and the mapping of an ELF image into a process are left out because
    they are calls into the parts above. *)
From Stdlib Require Import ZArith.
