(* ===== verification/Prelude.v ===== *)
(** * Prelude: the vocabulary shared by every component

    Machine words, byte buffers, the outcome type of kernel code, counted
    loops with their invariant rule, and the small automation the component
    files use. *)

From stdpp Require Export base numbers list strings gmap option.
From Stdlib Require Export ZArith Lia.

#[global] Open Scope Z_scope.

(** ** Machine words

    A [w]-bit unsigned integer is a [Z] in [0, 2^w); the arithmetic of the
    source is written out as [u64 (a + b)] and the like.  Signed values are
    two's complement. *)

Definition u8 (z : Z) : Z := z mod 2 ^ 8.
Definition u16 (z : Z) : Z := z mod 2 ^ 16.
Definition u32 (z : Z) : Z := z mod 2 ^ 32.
Definition u64 (z : Z) : Z := z mod 2 ^ 64.
Definition i16 (z : Z) : Z := (z + 2 ^ 15) mod 2 ^ 16 - 2 ^ 15.
Definition i32 (z : Z) : Z := (z + 2 ^ 31) mod 2 ^ 32 - 2 ^ 31.
Definition i64 (z : Z) : Z := (z + 2 ^ 63) mod 2 ^ 64 - 2 ^ 63.

Definition UINT32_MAX : Z := 2 ^ 32 - 1.
Definition UINT64_MAX : Z := 2 ^ 64 - 1.

(** ** Errno values (include/tunix/errno.h) *)

Definition EPERM : Z := 1.
Definition ENOENT : Z := 2.
Definition EINTR : Z := 4.
Definition EIO : Z := 5.
Definition EBADF : Z := 9.
Definition E2BIG : Z := 7.
Definition EAGAIN : Z := 11.
Definition ENOMEM : Z := 12.
Definition EACCES : Z := 13.
Definition EFAULT : Z := 14.
Definition EBUSY : Z := 16.
Definition EEXIST : Z := 17.
Definition ENODEV : Z := 19.
Definition ENOTDIR : Z := 20.
Definition EINVAL : Z := 22.
Definition ENOTTY : Z := 25.
Definition EFBIG : Z := 27.
Definition ENOSPC : Z := 28.
Definition EROFS : Z := 30.
Definition ERANGE : Z := 34.
Definition EDEADLK : Z := 35.
Definition ENAMETOOLONG : Z := 36.
Definition ENOLCK : Z := 37.
Definition EIDRM : Z := 43.
Definition ENODATA : Z := 61.
Definition EOVERFLOW : Z := 75.
Definition EOPNOTSUPP : Z := 95.
Definition ERESTARTSYS : Z := 512.

(** ** Outcomes of kernel code

    [Ret] is a normal return, [Panic] a call of [panic] (which never returns),
    [Fault] an access the C abstract machine does not define: an index outside
    its array or a dereferenced NULL pointer. *)

Inductive res (A : Type) : Type :=
  | Ret (a : A)
  | Panic (why : string)
  | Fault.
Arguments Ret {A} _.
Arguments Panic {A} _.
Arguments Fault {A}.

#[global] Instance res_ret : MRet res := fun A a => Ret a.
#[global] Instance res_bind : MBind res := fun A B f r =>
  match r with
  | Ret a => f a
  | Panic why => Panic why
  | Fault => Fault
  end.

(** [returns r P]: the computation returns, with a result that satisfies [P]. *)
Definition returns {A} (r : res A) (P : A -> Prop) : Prop :=
  match r with
  | Ret a => P a
  | _ => False
  end.

(** ** Arrays *)

Definition rd {A} (l : list A) (i : Z) : res A :=
  if decide (0 <= i) then
    match l !! Z.to_nat i with
    | Some x => Ret x
    | None => Fault
    end
  else Fault.

Definition wr {A} (l : list A) (i : Z) (x : A) : res (list A) :=
  if decide (0 <= i < Z.of_nat (length l)) then Ret (<[Z.to_nat i := x]> l)
  else Fault.

(** The [n] elements of [l] from index [i] on, and [l] with [m] written over
    the elements from index [i] on: what [memcpy] reads and writes. *)
Definition slice {A} (l : list A) (i n : Z) : list A :=
  take (Z.to_nat n) (drop (Z.to_nat i) l).

Definition splice {A} (l : list A) (i : Z) (m : list A) : list A :=
  take (Z.to_nat i) l ++ m ++ drop (Z.to_nat i + length m) l.

(** [memcpy] out of and into an array: undefined outside its bounds. *)
Definition copy_out {A} (l : list A) (i n : Z) : res (list A) :=
  if decide (0 <= i /\ 0 <= n /\ i + n <= Z.of_nat (length l)) then Ret (slice l i n) else Fault.

Definition copy_in {A} (l : list A) (i : Z) (m : list A) : res (list A) :=
  if decide (0 <= i /\ i + Z.of_nat (length m) <= Z.of_nat (length l)) then Ret (splice l i m)
  else Fault.

(** ** Counted loops

    [for_steps n i step body s] runs [body i], [body (i + step)], ... [n]
    times, threading the state; [for_range lo hi step body s] is the loop
    [for (i = lo; i < hi; i += step)]. *)

Fixpoint for_steps {S} (n : nat) (i step : Z) (body : Z -> S -> res S) (s : S) : res S :=
  match n with
  | O => Ret s
  | Datatypes.S n => s' ← body i s; for_steps n (i + step) step body s'
  end.

Definition for_range {S} (lo hi step : Z) (body : Z -> S -> res S) (s : S) : res S :=
  for_steps (Z.to_nat ((hi - lo + step - 1) / step)) lo step body s.

(** The number of [i] in [0, n) with [f i]. *)
Fixpoint countb (f : Z -> bool) (n : nat) : Z :=
  match n with
  | O => 0
  | Datatypes.S n => countb f n + (if f (Z.of_nat n) then 1 else 0)
  end.

(** ** Lemmas *)

Lemma u8_small z : 0 <= z < 2 ^ 8 -> u8 z = z.
Proof. intros. by apply Z.mod_small. Qed.
Lemma u16_small z : 0 <= z < 2 ^ 16 -> u16 z = z.
Proof. intros. by apply Z.mod_small. Qed.
Lemma u32_small z : 0 <= z < 2 ^ 32 -> u32 z = z.
Proof. intros. by apply Z.mod_small. Qed.
Lemma u64_small z : 0 <= z < 2 ^ 64 -> u64 z = z.
Proof. intros. by apply Z.mod_small. Qed.
Lemma u8_bound z : 0 <= u8 z < 2 ^ 8.
Proof. by apply Z.mod_pos_bound. Qed.
Lemma u16_bound z : 0 <= u16 z < 2 ^ 16.
Proof. by apply Z.mod_pos_bound. Qed.
Lemma u32_bound z : 0 <= u32 z < 2 ^ 32.
Proof. by apply Z.mod_pos_bound. Qed.
Lemma u64_bound z : 0 <= u64 z < 2 ^ 64.
Proof. by apply Z.mod_pos_bound. Qed.
Lemma i16_small z : - 2 ^ 15 <= z < 2 ^ 15 -> i16 z = z.
Proof. intros. unfold i16. rewrite Z.mod_small; lia. Qed.
Lemma i32_small z : - 2 ^ 31 <= z < 2 ^ 31 -> i32 z = z.
Proof. intros. unfold i32. rewrite Z.mod_small; lia. Qed.
Lemma i64_small z : - 2 ^ 63 <= z < 2 ^ 63 -> i64 z = z.
Proof. intros. unfold i64. rewrite Z.mod_small; lia. Qed.

(** [words] removes every wrap-around that the context bounds away. *)
Ltac words :=
  repeat match goal with
  | |- context [u8 ?z] => rewrite (u8_small z) by lia
  | |- context [u16 ?z] => rewrite (u16_small z) by lia
  | |- context [u32 ?z] => rewrite (u32_small z) by lia
  | |- context [u64 ?z] => rewrite (u64_small z) by lia
  | |- context [i16 ?z] => rewrite (i16_small z) by lia
  | |- context [i32 ?z] => rewrite (i32_small z) by lia
  | |- context [i64 ?z] => rewrite (i64_small z) by lia
  end.

(** [lia] with the defining equations of the divisions and remainders. *)
Ltac dlia := Z.to_euclidean_division_equations; lia.

(** [case_cmp] splits on the comparisons a goal branches on. *)
Ltac case_cmp :=
  match goal with
  | |- context [Z.eqb ?a ?b] => destruct (Z.eqb_spec a b)
  | |- context [Z.ltb ?a ?b] => destruct (Z.ltb_spec a b)
  | |- context [Z.leb ?a ?b] => destruct (Z.leb_spec a b)
  end.

(** [branch H] splits on the first test of the goal and records its value. *)
Ltac branch H :=
  match goal with
  | |- context [if ?b then _ else _] => destruct b eqn:H
  end.

Create HintDb tunix.
#[export] Hint Resolve u8_bound u16_bound u32_bound u64_bound : tunix.

(** *** Bits of bounded words *)

Lemma testbit_above w z n : 0 <= z < 2 ^ w -> w <= n -> Z.testbit z n = false.
Proof.
  intros Hz Hn. destruct (Z.ltb_spec w 0).
  - rewrite Z.pow_neg_r in Hz by lia. lia.
  - apply (proj1 (Z.bounded_iff_bits_nonneg' w z ltac:(lia) ltac:(lia))); lia.
Qed.

Lemma lor_bound w a b :
  0 <= w -> 0 <= a < 2 ^ w -> 0 <= b < 2 ^ w -> 0 <= Z.lor a b < 2 ^ w.
Proof.
  intros. assert (0 <= Z.lor a b) by (apply Z.lor_nonneg; lia).
  apply Z.bounded_iff_bits_nonneg'; [done..|]. intros.
  by rewrite Z.lor_spec, !(testbit_above w) by lia.
Qed.

Lemma land_bound w a b : 0 <= w -> 0 <= a < 2 ^ w -> 0 <= Z.land a b < 2 ^ w.
Proof.
  intros. assert (0 <= Z.land a b) by (apply Z.land_nonneg; lia).
  apply Z.bounded_iff_bits_nonneg'; [done..|]. intros.
  by rewrite Z.land_spec, (testbit_above w a) by lia.
Qed.

Lemma lxor_bound w a b :
  0 <= w -> 0 <= a < 2 ^ w -> 0 <= b < 2 ^ w -> 0 <= Z.lxor a b < 2 ^ w.
Proof.
  intros. assert (0 <= Z.lxor a b) by (apply Z.lxor_nonneg; lia).
  apply Z.bounded_iff_bits_nonneg'; [done..|]. intros.
  by rewrite Z.lxor_spec, !(testbit_above w) by lia.
Qed.

(** Bits put side by side. *)
Lemma land_shifted a b k : 0 <= k -> 0 <= a < 2 ^ k -> 0 <= b -> Z.land a (Z.shiftl b k) = 0.
Proof.
  intros Hk Ha Hb. apply Z.bits_inj'. intros n Hn. rewrite Z.land_spec, Z.bits_0.
  destruct (Z.lt_ge_cases n k).
  - rewrite Z.shiftl_spec_low by lia. apply andb_false_r.
  - destruct (decide (a = 0)) as [->|]; [by rewrite Z.bits_0|].
    rewrite Z.bits_above_log2; [done|lia|]. apply Z.lt_le_trans with k; [|done]. apply Z.log2_lt_pow2; lia.
Qed.

Lemma lor_shifted a b k : 0 <= k -> 0 <= a < 2 ^ k -> 0 <= b -> Z.lor a (Z.shiftl b k) = Z.lxor a (Z.shiftl b k).
Proof. intros. symmetry. apply Z.lxor_lor. by apply land_shifted. Qed.

Lemma lor_shifted_add a b k : 0 <= k -> 0 <= a < 2 ^ k -> 0 <= b -> Z.lor a (Z.shiftl b k) = a + 2 ^ k * b.
Proof.
  intros Hk Ha Hb. rewrite lor_shifted, <- Z.add_nocarry_lxor, Z.shiftl_mul_pow2 by (done || by apply land_shifted). ring.
Qed.

(** Masking with [2^k - 1] is the remainder, masking it away rounds down. *)
Lemma land_low k a : 0 <= k -> Z.land a (2 ^ k - 1) = a mod 2 ^ k.
Proof. intros. rewrite <- Z.land_ones, Z.ones_equiv by lia. f_equal. Qed.

Lemma land_high k a : 0 <= k <= 64 -> 0 <= a < 2 ^ 64 ->
  Z.land a (u64 (Z.lnot (2 ^ k - 1))) = a - a mod 2 ^ k.
Proof.
  intros Hk Ha. replace (2 ^ k - 1) with (Z.ones k) by (rewrite Z.ones_equiv; lia).
  assert (Z.land a (u64 (Z.lnot (Z.ones k))) = Z.ldiff a (Z.ones k)) as ->.
  { apply Z.bits_inj'. intros n Hn. unfold u64.
    rewrite Z.land_spec, Z.ldiff_spec, Z.testbit_mod_pow2, Z.lnot_spec by lia.
    destruct (Z.ltb_spec n 64); [done|]. by rewrite (testbit_above 64) by lia. }
  rewrite Z.ldiff_ones_r, Z.shiftl_mul_pow2, Z.shiftr_div_pow2 by lia.
  pose proof (Z.div_mod a (2 ^ k)). lia.
Qed.

(** The test [(a & (a - 1)) == 0] recognises powers of two. *)
Lemma pow2_of_land a : 0 < a -> Z.land a (a - 1) = 0 -> a = 2 ^ Z.log2 a.
Proof.
  intros Ha Hl. pose proof (Z.log2_spec a Ha) as [H1 H2]. pose proof (Z.log2_nonneg a).
  destruct (Z.eq_dec a (2 ^ Z.log2 a)) as [|Hne]; [done|].
  assert (Z.log2 (a - 1) = Z.log2 a) as El by (apply Z.log2_unique; lia).
  assert (Z.testbit (Z.land a (a - 1)) (Z.log2 a) = true) as Hb.
  { rewrite Z.land_spec, Z.bit_log2 by lia. rewrite <- El, Z.bit_log2; [done|].
    assert (0 < 2 ^ Z.log2 a) by (apply Z.pow_pos_nonneg; lia). lia. }
  by rewrite Hl, Z.bits_0 in Hb.
Qed.

Lemma pow2_divide i j : 0 <= i <= j -> (2 ^ i | 2 ^ j).
Proof.
  intros. exists (2 ^ (j - i)). rewrite <- Z.pow_add_r by lia. f_equal. lia.
Qed.

(** *** Outcomes *)

Lemma bind_ret {A B} (a : A) (f : A -> res B) : (Ret a ≫= f) = f a.
Proof. done. Qed.

Lemma returns_bind {A B} (r : res A) (f : A -> res B) (P : A -> Prop) (Q : B -> Prop) :
  returns r P -> (forall a, P a -> returns (f a) Q) -> returns (r ≫= f) Q.
Proof. destruct r; simpl; naive_solver. Qed.

Lemma returns_mono {A} (r : res A) (P Q : A -> Prop) :
  returns r P -> (forall a, P a -> Q a) -> returns r Q.
Proof. destruct r; simpl; naive_solver. Qed.

Lemma returns_exists {A} (r : res A) (P : A -> Prop) :
  returns r P <-> exists a, r = Ret a /\ P a.
Proof. destruct r; simpl; split; naive_solver. Qed.

(** *** Arrays *)

Lemma rd_lookup {A} (l : list A) i x :
  0 <= i -> l !! Z.to_nat i = Some x -> rd l i = Ret x.
Proof. intros ? E. unfold rd. by rewrite decide_True, E. Qed.

Lemma rd_total `{Inhabited A} (l : list A) i :
  0 <= i < Z.of_nat (length l) -> rd l i = Ret (l !!! Z.to_nat i).
Proof.
  intros. apply rd_lookup; [lia|]. apply list_lookup_lookup_total_lt. lia.
Qed.

Lemma rd_inv {A} (l : list A) i x :
  rd l i = Ret x -> 0 <= i /\ l !! Z.to_nat i = Some x.
Proof. unfold rd. case_decide; [|done]. destruct (l !! _); naive_solver. Qed.

Lemma wr_in {A} (l : list A) i x :
  0 <= i < Z.of_nat (length l) -> wr l i x = Ret (<[Z.to_nat i := x]> l).
Proof. intros. unfold wr. by rewrite decide_True. Qed.

Lemma copy_out_in {A} (l : list A) i n :
  0 <= i -> 0 <= n -> i + n <= Z.of_nat (length l) -> copy_out l i n = Ret (slice l i n).
Proof. intros. unfold copy_out. by rewrite decide_True. Qed.

Lemma copy_in_in {A} (l : list A) i (m : list A) :
  0 <= i -> i + Z.of_nat (length m) <= Z.of_nat (length l) -> copy_in l i m = Ret (splice l i m).
Proof. intros. unfold copy_in. by rewrite decide_True. Qed.

Lemma length_slice {A} (l : list A) i n :
  0 <= i -> 0 <= n -> i + n <= Z.of_nat (length l) ->
  Z.of_nat (length (slice l i n)) = n.
Proof. intros. unfold slice. rewrite length_take, length_drop. lia. Qed.

Lemma length_splice {A} (l : list A) i (m : list A) :
  0 <= i -> i + Z.of_nat (length m) <= Z.of_nat (length l) ->
  length (splice l i m) = length l.
Proof.
  intros. unfold splice. rewrite !length_app, length_take, length_drop. lia.
Qed.

Lemma lookup_slice {A} (l : list A) i n k :
  0 <= i -> (k < Z.to_nat n)%nat ->
  slice l i n !! k = l !! (Z.to_nat i + k)%nat.
Proof. intros. unfold slice. by rewrite lookup_take_lt, lookup_drop. Qed.

Lemma lookup_splice {A} (l : list A) i (m : list A) k :
  0 <= i -> i + Z.of_nat (length m) <= Z.of_nat (length l) ->
  splice l i m !! k =
    if decide (Z.to_nat i <= k < Z.to_nat i + length m)%nat
    then m !! (k - Z.to_nat i)%nat else l !! k.
Proof.
  intros Hi Hm. unfold splice.
  assert (length (take (Z.to_nat i) l) = Z.to_nat i) as Ht
    by (rewrite length_take; lia).
  case_decide as Hk.
  - rewrite lookup_app_r, Ht by lia. rewrite lookup_app_l by lia. done.
  - destruct (decide (k < Z.to_nat i)%nat).
    + rewrite lookup_app_l, lookup_take_lt by lia. done.
    + rewrite lookup_app_r, Ht, lookup_app_r, lookup_drop by lia. f_equal. lia.
Qed.

(** *** Loops *)

(** The invariant rule of [for_steps]: [P] is indexed by the loop variable. *)
Lemma for_steps_rule {S} (P : Z -> S -> Prop) n i step body (s : S) :
  P i s ->
  (forall k s, (0 <= k < Z.of_nat n) -> P (i + k * step) s ->
     returns (body (i + k * step) s) (P (i + (k + 1) * step))) ->
  returns (for_steps n i step body s) (P (i + Z.of_nat n * step)).
Proof.
  revert i s. induction n as [|n IH]; intros i s HP Hstep; simpl for_steps.
  - simpl. by replace (i + Z.of_nat 0 * step) with i by lia.
  - eapply returns_bind.
    { specialize (Hstep 0 s). replace (i + 0 * step) with i in Hstep by lia.
      apply Hstep; [lia|done]. }
    intros s' HP'. replace (i + Z.of_nat (Datatypes.S n) * step)
      with ((i + step) + Z.of_nat n * step) by lia.
    apply IH.
    + by replace (i + step) with (i + (0 + 1) * step) by lia.
    + intros k s'' Hk HPk. replace (i + step + (k + 1) * step)
        with (i + ((k + 1) + 1) * step) by lia.
      replace (i + step + k * step) with (i + (k + 1) * step) in * by lia.
      apply Hstep; [lia|done].
Qed.

(** The rule of an increment-by-one [for_range]. *)
Lemma for_range_rule {S} (P : Z -> S -> Prop) lo hi body (s : S) :
  lo <= hi ->
  P lo s ->
  (forall i s, lo <= i < hi -> P i s -> returns (body i s) (P (i + 1))) ->
  returns (for_range lo hi 1 body s) (P hi).
Proof.
  intros Hle HP Hstep. unfold for_range.
  replace ((hi - lo + 1 - 1) / 1) with (hi - lo) by (rewrite Z.div_1_r; lia).
  assert (hi = lo + Z.of_nat (Z.to_nat (hi - lo)) * 1) as E by lia.
  rewrite E at 2. apply for_steps_rule; [done|].
  intros k s' Hk HPk. replace (lo + (k + 1) * 1) with (lo + k * 1 + 1) by lia.
  apply Hstep; [lia|done].
Qed.

(** The rule of a [for_range] between two multiples of the step. *)
Lemma for_range_rule_mul {S} (P : Z -> S -> Prop) lo hi step body (s : S) :
  0 < step -> (step | lo) -> (step | hi) -> P lo s ->
  (forall i s, lo <= i < hi -> (step | i) -> P i s -> returns (body i s) (P (i + step))) ->
  returns (for_range lo hi step body s) (P (Z.max lo hi)).
Proof.
  intros Hst [a ->] [b ->] HP Hstep. unfold for_range.
  assert ((b * step - a * step + step - 1) / step = b - a) as ->.
  { replace (b * step - a * step + step - 1) with ((b - a) * step + (step - 1)) by lia.
    rewrite Z.div_add_l, Z.div_small by lia. lia. }
  replace (Z.max (a * step) (b * step)) with (a * step + Z.of_nat (Z.to_nat (b - a)) * step) by nia.
  apply for_steps_rule; [done|].
  intros k s' Hk HPk. replace (a * step + (k + 1) * step) with (a * step + k * step + step) by lia.
  apply Hstep; [nia| |done]. exists (a + k). lia.
Qed.

(** *** Counting *)

Lemma countb_ext f g n :
  (forall i, 0 <= i < Z.of_nat n -> f i = g i) -> countb f n = countb g n.
Proof.
  induction n as [|n IH]; intros H; simpl; [done|].
  rewrite IH by (intros; apply H; lia). by rewrite H by lia.
Qed.

Lemma countb_bound f n : 0 <= countb f n <= Z.of_nat n.
Proof. induction n; simpl; [lia|]. destruct (f _); lia. Qed.

(** Flipping one position from [false] to [true] adds one. *)
Lemma countb_flip f g n p :
  0 <= p < Z.of_nat n -> f p = false -> g p = true ->
  (forall i, 0 <= i < Z.of_nat n -> i <> p -> f i = g i) ->
  countb g n = countb f n + 1.
Proof.
  induction n as [|n IH]; intros Hp Hf Hg Hfg; [lia|]; simpl.
  destruct (decide (p = Z.of_nat n)) as [->|].
  - rewrite Hf, Hg, (countb_ext f g); [lia|]. intros; apply Hfg; lia.
  - rewrite IH by (done || lia || (intros; apply Hfg; lia)).
    rewrite (Hfg (Z.of_nat n)) by lia. lia.
Qed.

Lemma countb_pos f n : 0 < countb f n -> exists i, 0 <= i < Z.of_nat n /\ f i = true.
Proof.
  induction n as [|n IH]; simpl; [lia|]. destruct (f _) eqn:E.
  - exists (Z.of_nat n). split; [lia|done].
  - intros Hc. destruct IH as (i & ? & ?); [lia|]. exists i. split; [lia|done].
Qed.

(** *** Pairwise related lists *)

Lemma ordpairs_app {A} (R : A -> A -> Prop) (l k : list A) :
  ForallOrdPairs R l -> ForallOrdPairs R k -> (forall x y, x ∈ l -> y ∈ k -> R x y) ->
  ForallOrdPairs R (l ++ k).
Proof.
  intros Hl Hk Hx. induction Hl as [|a l Ha Hl IH]; [done|]. cbn. constructor.
  - apply Forall_app. split; [done|]. apply Forall_forall. intros y Hy%list_elem_of_In.
    apply Hx; [by left|done].
  - apply IH. intros. apply Hx; [by right|done].
Qed.

(** *** Little-endian integers *)

Fixpoint le_bytes (n : nat) (v : Z) : list Z :=
  match n with
  | O => []
  | S n => v mod 256 :: le_bytes n (v / 256)
  end.

Fixpoint le_join (l : list Z) : Z :=
  match l with
  | [] => 0
  | b :: l => b + 256 * le_join l
  end.

Lemma length_le_bytes n v : length (le_bytes n v) = n.
Proof. revert v. induction n; intros; cbn; auto. Qed.

Lemma le_bytes_byte n v : Forall (fun b => 0 <= b < 256) (le_bytes n v).
Proof.
  revert v. induction n; intros; cbn; constructor; [apply Z.mod_pos_bound; lia|auto].
Qed.

Lemma le_join_bytes n v : le_join (le_bytes n v) = v mod 2 ^ (8 * Z.of_nat n).
Proof.
  revert v. induction n as [|n IH]; intros v; cbn [le_bytes le_join].
  - by rewrite Z.mod_1_r.
  - rewrite IH. replace (8 * Z.of_nat (S n)) with (8 + 8 * Z.of_nat n) by lia.
    rewrite Z.pow_add_r by lia. change (2 ^ 8) with 256.
    rewrite Z.rem_mul_r by (try apply Z.pow_pos_nonneg; lia). done.
Qed.

Lemma le_bytes_join l : Forall (fun b => 0 <= b < 256) l -> le_bytes (length l) (le_join l) = l.
Proof.
  induction 1 as [|b l Hb _ IH]; [done|]. cbn [le_join length le_bytes].
  rewrite (Z.mul_comm 256), Z.mod_add, Z.mod_small by lia.
  by rewrite Z.div_add, Z.div_small, Z.add_0_l, IH by lia.
Qed.

Lemma le_join_bound l : Forall (fun b => 0 <= b < 256) l ->
  0 <= le_join l < 2 ^ (8 * Z.of_nat (length l)).
Proof.
  induction 1 as [|b l Hb _ IH]; [done|]. cbn [le_join length].
  replace (8 * Z.of_nat (S (length l))) with (8 + 8 * Z.of_nat (length l)) by lia.
  rewrite Z.pow_add_r by lia. change (2 ^ 8) with 256. lia.
Qed.
