(* ===== verification/Pmm.v ===== *)
(** * The physical page allocator (kernel/mm/pmm.c)

    One bit per page in [bitmap] (set means not free), one reference count per
    page in [refcounts].  Each operation of the file runs under [pages_lock],
    so an operation is one atomic step of the state [pmm].  The bitmap and the
    counters live in physical memory; [tracking_base] is the virtual base their
    pointers are formed with ([point_tracking]), the lists are the contents. *)

From S2P Require Import Prelude.

Definition PMM_PAGE_SIZE : Z := 4096.
Definition PMM_LOW_MEMORY_RESERVE : Z := 0x100000.
Definition DIRECT_MAP_BYTES : Z := 0xFFFFFE8000000000 - 0xFFFFC00000000000.

Record boot_memory_region := Region {
  region_base : Z;
  region_length : Z;
  region_usable : Z
}.

Record pmm := Pmm {
  bitmap : list Z;
  refcounts : list Z;
  total_pages : Z;
  usable_pages : Z;
  free_pages : Z;
  next_hint : Z;
  tracking_physical : Z;
  tracking_bytes : Z;
  refcount_offset : Z;
  tracking_base : Z
}.

(** Assignments to one static variable. *)
Definition set_bitmap (s : pmm) (x : list Z) : pmm :=
  Pmm x (refcounts s) (total_pages s) (usable_pages s) (free_pages s) (next_hint s)
    (tracking_physical s) (tracking_bytes s) (refcount_offset s) (tracking_base s).
Definition set_refcounts (s : pmm) (x : list Z) : pmm :=
  Pmm (bitmap s) x (total_pages s) (usable_pages s) (free_pages s) (next_hint s)
    (tracking_physical s) (tracking_bytes s) (refcount_offset s) (tracking_base s).
Definition set_usable_pages (s : pmm) (x : Z) : pmm :=
  Pmm (bitmap s) (refcounts s) (total_pages s) x (free_pages s) (next_hint s)
    (tracking_physical s) (tracking_bytes s) (refcount_offset s) (tracking_base s).
Definition set_free_pages (s : pmm) (x : Z) : pmm :=
  Pmm (bitmap s) (refcounts s) (total_pages s) (usable_pages s) x (next_hint s)
    (tracking_physical s) (tracking_bytes s) (refcount_offset s) (tracking_base s).
Definition set_next_hint (s : pmm) (x : Z) : pmm :=
  Pmm (bitmap s) (refcounts s) (total_pages s) (usable_pages s) (free_pages s) x
    (tracking_physical s) (tracking_bytes s) (refcount_offset s) (tracking_base s).
Definition set_tracking_base (s : pmm) (x : Z) : pmm :=
  Pmm (bitmap s) (refcounts s) (total_pages s) (usable_pages s) (free_pages s) (next_hint s)
    (tracking_physical s) (tracking_bytes s) (refcount_offset s) x.

(** ** Bits *)

Definition bit_mask (page : Z) : Z := u8 (Z.shiftl 1 (Z.land page 7)).

Definition bit_set (s : pmm) (page : Z) : res pmm :=
  b ← rd (bitmap s) (Z.shiftr page 3);
  bm ← wr (bitmap s) (Z.shiftr page 3) (u8 (Z.lor b (bit_mask page)));
  Ret (set_bitmap s bm).

Definition bit_clear (s : pmm) (page : Z) : res pmm :=
  b ← rd (bitmap s) (Z.shiftr page 3);
  bm ← wr (bitmap s) (Z.shiftr page 3)
         (u8 (Z.land b (u8 (Z.lnot (Z.shiftl 1 (Z.land page 7))))));
  Ret (set_bitmap s bm).

Definition bit_test (s : pmm) (page : Z) : res bool :=
  b ← rd (bitmap s) (Z.shiftr page 3);
  Ret (negb (Z.land b (bit_mask page) =? 0)).

Definition write_refcount (s : pmm) (page value : Z) : res pmm :=
  rc ← wr (refcounts s) page value;
  Ret (set_refcounts s rc).

(** ** Initialisation *)

Definition page_up (a : Z) : Z :=
  Z.land (u64 (a + PMM_PAGE_SIZE - 1)) (u64 (Z.lnot (PMM_PAGE_SIZE - 1))).
Definition page_down (a : Z) : Z := Z.land a (u64 (Z.lnot (PMM_PAGE_SIZE - 1))).

Definition reserve_page (page : Z) (s : pmm) : res pmm :=
  if page <? total_pages s then
    busy ← bit_test s page;
    if (busy : bool) then Ret s
    else s1 ← bit_set s page; Ret (set_free_pages s1 (u64 (free_pages s1 - 1)))
  else Ret s.

Definition point_tracking (virtual_base : Z) (s : pmm) : pmm :=
  set_tracking_base s virtual_base.

Definition place_tracking (total tbytes : Z) (regions : list boot_memory_region) : Z :=
  fold_left (fun best r =>
    if region_usable r =? 0 then best else
    let start := page_up (region_base r) in
    let end_ := page_down (u64 (region_base r + region_length r)) in
    let start := if start <? PMM_LOW_MEMORY_RESERVE then PMM_LOW_MEMORY_RESERVE else start in
    let end_ := if u64 (total * PMM_PAGE_SIZE) <? end_ then u64 (total * PMM_PAGE_SIZE)
                else end_ in
    if (end_ <=? start) || (u64 (end_ - start) <? tbytes) then best
    else if best <? u64 (end_ - tbytes) then u64 (end_ - tbytes) else best)
  regions 0.

(** The first loop of [pmm_init]: the highest managed address and the usable
    bytes below it. *)
Definition survey_region (acc : Z * Z) (r : boot_memory_region) : Z * Z :=
  let '(highest, usable_bytes) := acc in
  let end_ := u64 (region_base r + region_length r) in
  if end_ <? region_base r then acc else
  let end_ := if DIRECT_MAP_BYTES <? end_ then DIRECT_MAP_BYTES else end_ in
  if end_ <=? region_base r then acc else
  ( if highest <? end_ then end_ else highest,
    if region_usable r =? 0 then usable_bytes else u64 (usable_bytes + (end_ - region_base r)) ).

Definition survey (regions : list boot_memory_region) : Z * Z :=
  fold_left survey_region regions (0, 0).

(** The loop body that frees the pages of one region. *)
Definition release_boot_page (address : Z) (s : pmm) : res pmm :=
  let page := address / PMM_PAGE_SIZE in
  if page <? total_pages s then
    busy ← bit_test s page;
    if (busy : bool) then
      s1 ← bit_clear s page; Ret (set_free_pages s1 (u64 (free_pages s1 + 1)))
    else Ret s
  else Ret s.

Definition release_region (highest : Z) (r : boot_memory_region) (s : pmm) : res pmm :=
  if region_usable r =? 0 then Ret s else
  let start := page_up (region_base r) in
  let end_ := page_down (u64 (region_base r + region_length r)) in
  let end_ := if highest <? end_ then page_down highest else end_ in
  for_range start end_ PMM_PAGE_SIZE release_boot_page s.

Fixpoint release_regions (highest : Z) (regions : list boot_memory_region) (s : pmm) : res pmm :=
  match regions with
  | [] => Ret s
  | r :: rest => s1 ← release_region highest r s; release_regions highest rest s1
  end.

Definition pmm_init (regions : list boot_memory_region) (hhdm_offset : Z) : res pmm :=
  let '(highest, usable_bytes) := survey regions in
  if usable_bytes <? 2 * 1024 * 1024 then Panic "PMM: insufficient usable memory" else
  let total := u64 (highest + PMM_PAGE_SIZE - 1) / PMM_PAGE_SIZE in
  let bitmap_bytes := u64 (total + 7) / 8 in
  let rc_offset := Z.land (u64 (bitmap_bytes + 63)) (u64 (Z.lnot 63)) in
  let tbytes := page_up (u64 (rc_offset + u64 (total * 4))) in
  let tphys := place_tracking total tbytes regions in
  if tphys =? 0 then Panic "PMM: no room for page tracking" else
  let s0 := Pmm (replicate (Z.to_nat bitmap_bytes) 0xFF) (replicate (Z.to_nat total) 0)
              total 0 0 0 tphys tbytes rc_offset hhdm_offset in
  s1 ← release_regions highest regions s0;
  let s2 := set_usable_pages s1 (free_pages s1) in
  s3 ← for_range 0 (PMM_LOW_MEMORY_RESERVE / PMM_PAGE_SIZE) 1 reserve_page s2;
  s4 ← for_range (tphys / PMM_PAGE_SIZE) (u64 (tphys + tbytes) / PMM_PAGE_SIZE) 1
         (fun page s => s' ← reserve_page page s; write_refcount s' page 1) s3;
  Ret (set_next_hint s4 (PMM_LOW_MEMORY_RESERVE / PMM_PAGE_SIZE)).

Definition pmm_use_direct_map (virtual_base : Z) (s : pmm) : pmm :=
  point_tracking virtual_base s.

(** ** Single pages *)

(** [for (page = begin; page < end; page++) if (!bit_test(page)) ...]: the
    first clear bit of the [n] pages from [page] on. *)
Fixpoint scan_clear (s : pmm) (n : nat) (page : Z) : res (option Z) :=
  match n with
  | O => Ret None
  | S n =>
      busy ← bit_test s page;
      if (busy : bool) then scan_clear s n (page + 1) else Ret (Some page)
  end.

Definition take_page (page : Z) (s : pmm) : res (Z * pmm) :=
  s1 ← bit_set s page;
  s2 ← write_refcount s1 page 1;
  let s3 := set_free_pages s2 (u64 (free_pages s2 - 1)) in
  let s4 := set_next_hint s3 (u64 (page + 1)) in
  let s5 := if total_pages s4 <=? next_hint s4 then set_next_hint s4 0 else s4 in
  Ret (u64 (page * PMM_PAGE_SIZE), s5).

Definition pmm_alloc_page_locked (s : pmm) : res (Z * pmm) :=
  if free_pages s =? 0 then Ret (0, s) else
  pass0 ← scan_clear s (Z.to_nat (total_pages s - next_hint s)) (next_hint s);
  match pass0 with
  | Some page => take_page page s
  | None =>
      pass1 ← scan_clear s (Z.to_nat (next_hint s)) 0;
      match pass1 with
      | Some page => take_page page s
      | None => Panic "PMM: bitmap/free-page invariant broken"
      end
  end.

Definition pmm_alloc_page (s : pmm) : res (Z * pmm) := pmm_alloc_page_locked s.

(** ** Runs of pages *)

(** [while (page < first + count && !bit_test(page)) page++;] with [n] the
    pages left before [first + count]. *)
Fixpoint scan_busy (s : pmm) (n : nat) (page : Z) : res Z :=
  match n with
  | O => Ret page
  | S n =>
      busy ← bit_test s page;
      if (busy : bool) then Ret page else scan_busy s n (page + 1)
  end.

Definition claim_page (page : Z) (s : pmm) : res pmm :=
  s1 ← bit_set s page; write_refcount s1 page 1.

(** The search loop.  [first] grows by at least [stride] in every round, so
    [fuel] rounds are enough when [last <= fuel]. *)
Fixpoint below_loop (fuel : nat) (first stride count last : Z) (s : pmm) : res (Z * pmm) :=
  match fuel with
  | O => Fault
  | S fuel =>
      if u64 (first + count) <=? last then
        page ← scan_busy s (Z.to_nat (u64 (first + count) - first)) first;
        if page <? u64 (first + count) then
          below_loop fuel (u64 (page - page mod stride + stride)) stride count last s
        else
          s1 ← for_range first (u64 (first + count)) 1 claim_page s;
          Ret (u64 (first * PMM_PAGE_SIZE), set_free_pages s1 (u64 (free_pages s1 - count)))
      else Ret (0, s)
  end.

Definition pmm_alloc_pages_below (count alignment_bytes limit : Z) (s : pmm) : res (Z * pmm) :=
  if count =? 0 then Ret (0, s) else
  let stride := if PMM_PAGE_SIZE <? alignment_bytes then alignment_bytes / PMM_PAGE_SIZE else 1 in
  if negb (Z.land alignment_bytes (u64 (alignment_bytes - 1)) =? 0) then Ret (0, s) else
  let last := if limit =? 0 then total_pages s else limit / PMM_PAGE_SIZE in
  let last := if total_pages s <? last then total_pages s else last in
  if count <=? free_pages s then
    below_loop (S (Z.to_nat last)) stride stride count last s
  else Ret (0, s).

Definition pmm_alloc_pages (count alignment_bytes : Z) (s : pmm) : res (Z * pmm) :=
  pmm_alloc_pages_below count alignment_bytes 0 s.

(** ** Freeing and sharing *)

Definition pmm_free_page_locked (address : Z) (s : pmm) : res pmm :=
  if address =? 0 then Ret s else
  if negb (Z.land address (PMM_PAGE_SIZE - 1) =? 0)
     || (u64 (total_pages s * PMM_PAGE_SIZE) <=? address)
  then Panic "PMM: invalid free" else
  let page := address / PMM_PAGE_SIZE in
  busy ← bit_test s page;
  if negb busy then Panic "PMM: double free" else
  count ← rd (refcounts s) page;
  if 1 <? count then write_refcount s page (u32 (count - 1)) else
  s1 ← write_refcount s page 0;
  s2 ← bit_clear s1 page;
  let s3 := set_free_pages s2 (u64 (free_pages s2 + 1)) in
  Ret (if page <? next_hint s3 then set_next_hint s3 page else s3).

Definition pmm_free_page (address : Z) (s : pmm) : res pmm := pmm_free_page_locked address s.

Definition pmm_free_pages (physical count : Z) (s : pmm) : res pmm :=
  if (physical =? 0) || (count =? 0) then Ret s else
  for_range 0 count 1
    (fun index s => pmm_free_page_locked (u64 (physical + u64 (index * PMM_PAGE_SIZE))) s) s.

Definition pmm_managed_limit (s : pmm) : Z := u64 (total_pages s * PMM_PAGE_SIZE).

Definition pmm_page_is_allocated (physical : Z) (s : pmm) : res bool :=
  if negb (Z.land physical (PMM_PAGE_SIZE - 1) =? 0) || (pmm_managed_limit s <=? physical)
  then Ret false
  else bit_test s (physical / PMM_PAGE_SIZE).

Definition pmm_page_ref (physical : Z) (s : pmm) : res (Z * pmm) :=
  let page := physical / PMM_PAGE_SIZE in
  allocated ← pmm_page_is_allocated physical s;
  if (allocated : bool) then
    count ← rd (refcounts s) page;
    if count =? UINT32_MAX then Ret (-1, s)
    else s1 ← write_refcount s page (u32 (count + 1)); Ret (0, s1)
  else Ret (-1, s).

Definition pmm_page_refcount (physical : Z) (s : pmm) : res Z :=
  allocated ← pmm_page_is_allocated physical s;
  if (allocated : bool) then rd (refcounts s) (physical / PMM_PAGE_SIZE) else Ret 0.

Definition pmm_physical_range_managed (physical len : Z) (s : pmm) : Z :=
  let limit := pmm_managed_limit s in
  if len =? 0 then Z.b2z (physical <=? limit)
  else if (limit <=? physical) || (u64 (limit - physical) <? len) then 0 else 1.

Definition release_reserved_page (page : Z) (acc : pmm * Z) : res (pmm * Z) :=
  let '(s, released) := acc in
  busy ← bit_test s page;
  if negb busy then Ret (s, released) else
  count ← rd (refcounts s) page;
  if negb (count =? 0) then Ret (s, released) else
  s1 ← bit_clear s page;
  let s2 := set_free_pages s1 (u64 (free_pages s1 + 1)) in
  let s3 := if page <? next_hint s2 then set_next_hint s2 page else s2 in
  Ret (s3, u64 (released + 1)).

Definition pmm_release_reserved (physical len : Z) (s : pmm) : res (Z * pmm) :=
  if len =? 0 then Ret (0, s) else
  let first := physical / PMM_PAGE_SIZE in
  let last := u64 (physical + len + PMM_PAGE_SIZE - 1) / PMM_PAGE_SIZE in
  let last := if total_pages s <? last then total_pages s else last in
  '(s1, released) ← for_range first last 1 release_reserved_page (s, 0);
  Ret (released, s1).

(** ** The abstract view

    [page_state s p] is what the allocator promises about page [p]: [None]
    when the page is free, [Some n] when it is in use with [n] references
    ([Some 0] for memory that was reserved at boot and never handed out). *)

Definition bitat (bm : list Z) (p : Z) : bool :=
  Z.testbit (bm !!! Z.to_nat (p / 8)) (p mod 8).
Definition busy (s : pmm) (p : Z) : bool := bitat (bitmap s) p.
Definition refc (s : pmm) (p : Z) : Z := refcounts s !!! Z.to_nat p.
Definition page_state (s : pmm) (p : Z) : option Z :=
  if busy s p then Some (refc s p) else None.

(** The writes of the operations as total updates. *)
Definition bm_put (bm : list Z) (p : Z) (b : bool) : list Z :=
  let i := Z.to_nat (p / 8) in
  <[i := if b then Z.setbit (bm !!! i) (p mod 8) else Z.clearbit (bm !!! i) (p mod 8)]> bm.
Definition put_bit (s : pmm) (p : Z) (b : bool) : pmm := set_bitmap s (bm_put (bitmap s) p b).
Definition put_ref (s : pmm) (p v : Z) : pmm :=
  set_refcounts s (<[Z.to_nat p := v]> (refcounts s)).

(** Sizes and ranges that no operation changes. *)
Record shape (s : pmm) : Prop := {
  shape_total : 0 < total_pages s <= DIRECT_MAP_BYTES / PMM_PAGE_SIZE;
  shape_bitmap : Z.of_nat (length (bitmap s)) = (total_pages s + 7) / 8;
  shape_bytes : Forall (fun b => 0 <= b < 2 ^ 8) (bitmap s);
  shape_refs : Z.of_nat (length (refcounts s)) = total_pages s
}.

Record pmm_inv (s : pmm) : Prop := {
  inv_shape : shape s;
  inv_hint : 0 <= next_hint s <= total_pages s;
  inv_free : free_pages s = countb (fun p => negb (busy s p)) (Z.to_nat (total_pages s));
  inv_refs : forall p, 0 <= p < total_pages s -> 0 <= refc s p < 2 ^ 32;
  inv_free_refs : forall p, 0 <= p < total_pages s -> busy s p = false -> refc s p = 0;
  inv_zero : busy s 0 = true
}.

(** ** Lemmas: bits *)

Lemma byte_setbit b k : 0 <= b < 2 ^ 8 -> 0 <= k < 8 ->
  u8 (Z.lor b (u8 (Z.shiftl 1 k))) = Z.setbit b k /\ 0 <= Z.setbit b k < 2 ^ 8.
Proof.
  intros Hb Hk.
  assert (0 <= Z.shiftl 1 k < 2 ^ 8) as Hs.
  { rewrite Z.shiftl_1_l. split; [apply Z.pow_nonneg; lia|apply Z.pow_lt_mono_r; lia]. }
  pose proof (lor_bound 8 b (Z.shiftl 1 k) ltac:(lia) Hb Hs).
  rewrite (u8_small (Z.shiftl 1 k)), u8_small by done.
  unfold Z.setbit. done.
Qed.

Lemma byte_clearbit b k : 0 <= b < 2 ^ 8 -> 0 <= k < 8 ->
  u8 (Z.land b (u8 (Z.lnot (Z.shiftl 1 k)))) = Z.clearbit b k /\
  0 <= Z.clearbit b k < 2 ^ 8.
Proof.
  intros Hb Hk.
  assert (Z.land b (u8 (Z.lnot (Z.shiftl 1 k))) = Z.clearbit b k) as E.
  { apply Z.bits_inj'. intros n Hn. unfold u8.
    rewrite Z.land_spec, Z.clearbit_eqb by lia.
    destruct (Z.ltb_spec n 8).
    - rewrite Z.mod_pow2_bits_low, Z.lnot_spec, Z.shiftl_spec by lia.
      f_equal. f_equal. destruct (Z.eqb_spec k n) as [->|].
      + by replace (n - n) with 0 by lia.
      + destruct (Z.ltb_spec n k); [by rewrite Z.testbit_neg_r by lia|].
        rewrite (Z.bits_above_log2 1); [done|lia|simpl; lia].
    - by rewrite (testbit_above 8 b) by lia. }
  pose proof (land_bound 8 b (u8 (Z.lnot (Z.shiftl 1 k))) ltac:(lia) Hb) as Hl.
  rewrite E in Hl |- *. by rewrite u8_small.
Qed.

Lemma land7 p : Z.land p 7 = p mod 8.
Proof. exact (land_low 3 p ltac:(lia)). Qed.

Lemma shiftr3 p : Z.shiftr p 3 = p / 8.
Proof. exact (Z.shiftr_div_pow2 p 3 ltac:(lia)). Qed.

Lemma bm_put_length bm p b : length (bm_put bm p b) = length bm.
Proof. apply length_insert. Qed.

Lemma bm_put_bytes bm p b :
  Forall (fun x => 0 <= x < 2 ^ 8) bm -> Forall (fun x => 0 <= x < 2 ^ 8) (bm_put bm p b).
Proof.
  intros H. pose proof (Z.mod_pos_bound p 8 ltac:(lia)).
  destruct (decide (Z.to_nat (p / 8) < length bm)%nat) as [Hl|Hl].
  - apply Forall_insert; [done|].
    pose proof (Forall_lookup_total_1 _ _ _ H Hl). simpl in *.
    destruct b; [apply byte_setbit|apply byte_clearbit]; lia.
  - unfold bm_put. by rewrite list_insert_ge by lia.
Qed.

Lemma bitat_put bm p q b :
  0 <= p < 8 * Z.of_nat (length bm) -> 0 <= q ->
  bitat (bm_put bm p b) q = if decide (q = p) then b else bitat bm q.
Proof.
  intros Hp Hq. unfold bitat, bm_put.
  pose proof (Z.div_mod p 8 ltac:(lia)). pose proof (Z.mod_pos_bound p 8 ltac:(lia)).
  pose proof (Z.div_mod q 8 ltac:(lia)). pose proof (Z.mod_pos_bound q 8 ltac:(lia)).
  assert (Z.to_nat (p / 8) < length bm)%nat by lia.
  destruct (decide (Z.to_nat (q / 8) = Z.to_nat (p / 8))) as [E|E].
  - rewrite E, list_lookup_total_insert_eq by done. case_decide as Hd.
    + subst q. destruct b; [apply Z.setbit_eq|apply Z.clearbit_eq]; lia.
    + destruct b; [rewrite Z.setbit_neq|rewrite Z.clearbit_neq]; done || lia.
  - rewrite list_lookup_total_insert_ne by done. rewrite decide_False; [done|congruence].
Qed.

Section bits.
Context (s : pmm) (Hs : shape s).

Lemma bitmap_covers p : 0 <= p < total_pages s -> 0 <= p / 8 < Z.of_nat (length (bitmap s)).
Proof.
  intros. rewrite (shape_bitmap _ Hs). split; [apply Z.div_pos; lia|].
  assert (p / 8 < (total_pages s + 7) / 8); [|lia].
  apply Z.div_lt_upper_bound; [lia|].
  pose proof (Z.div_mod (total_pages s + 7) 8 ltac:(lia)).
  pose proof (Z.mod_pos_bound (total_pages s + 7) 8 ltac:(lia)). lia.
Qed.

Lemma byte_in p : 0 <= p < total_pages s -> 0 <= bitmap s !!! Z.to_nat (p / 8) < 2 ^ 8.
Proof.
  intros Hp. pose proof (bitmap_covers p Hp).
  apply (Forall_lookup_total_1 _ _ _ (shape_bytes _ Hs)). lia.
Qed.

Lemma bit_test_ok p : 0 <= p < total_pages s -> bit_test s p = Ret (busy s p).
Proof.
  intros Hp. pose proof (bitmap_covers p Hp). unfold bit_test, busy, bitat, bit_mask.
  rewrite shiftr3, land7, rd_total by done. simpl. f_equal.
  pose proof (Z.mod_pos_bound p 8 ltac:(lia)).
  set (b := bitmap s !!! _). set (k := p mod 8) in *.
  assert (0 <= Z.shiftl 1 k < 2 ^ 8).
  { rewrite Z.shiftl_1_l. split; [apply Z.pow_nonneg; lia|apply Z.pow_lt_mono_r; lia]. }
  rewrite u8_small by done. rewrite Z.shiftl_1_l.
  destruct (Z.testbit b k) eqn:E.
  - destruct (Z.eqb_spec (Z.land b (2 ^ k)) 0) as [E0|]; [|done].
    assert (Z.testbit (Z.land b (2 ^ k)) k = true) as Ht
      by (rewrite Z.land_spec, E, Z.pow2_bits_true; [done|lia]).
    by rewrite E0, Z.bits_0 in Ht.
  - assert (Z.land b (2 ^ k) = 0) as ->; [|done].
    apply Z.bits_inj'. intros n Hn. rewrite Z.land_spec, Z.bits_0, Z.pow2_bits_eqb by lia.
    destruct (Z.eqb_spec k n) as [<-|]; [by rewrite E|apply andb_false_r].
Qed.

Lemma bit_set_ok p : 0 <= p < total_pages s -> bit_set s p = Ret (put_bit s p true).
Proof.
  intros Hp. pose proof (bitmap_covers p Hp). unfold bit_set, bit_mask, put_bit, bm_put.
  rewrite shiftr3, land7, rd_total by done. simpl. rewrite wr_in by done. simpl.
  rewrite (proj1 (byte_setbit _ _ (byte_in p Hp) (Z.mod_pos_bound p 8 ltac:(lia)))). done.
Qed.

Lemma bit_clear_ok p : 0 <= p < total_pages s -> bit_clear s p = Ret (put_bit s p false).
Proof.
  intros Hp. pose proof (bitmap_covers p Hp). unfold bit_clear, put_bit, bm_put.
  rewrite shiftr3, land7, rd_total by done. simpl. rewrite wr_in by done. simpl.
  rewrite (proj1 (byte_clearbit _ _ (byte_in p Hp) (Z.mod_pos_bound p 8 ltac:(lia)))). done.
Qed.

Lemma write_refcount_ok p v : 0 <= p < total_pages s -> write_refcount s p v = Ret (put_ref s p v).
Proof.
  intros. unfold write_refcount. rewrite wr_in by (rewrite (shape_refs _ Hs); done). done.
Qed.

Lemma rd_refcount_ok p : 0 <= p < total_pages s -> rd (refcounts s) p = Ret (refc s p).
Proof. intros. apply rd_total. by rewrite (shape_refs _ Hs). Qed.

Lemma shape_put_bit p b : shape (put_bit s p b).
Proof.
  destruct Hs. split; simpl; try done.
  - by rewrite bm_put_length.
  - by apply bm_put_bytes.
Qed.

Lemma shape_put_ref p v : shape (put_ref s p v).
Proof. destruct Hs. split; simpl; try done. by rewrite length_insert. Qed.

Lemma busy_put_bit p b q : 0 <= p < total_pages s -> 0 <= q ->
  busy (put_bit s p b) q = if decide (q = p) then b else busy s q.
Proof.
  intros Hp Hq. apply bitat_put; [|done]. pose proof (bitmap_covers p Hp).
  pose proof (Z.div_mod p 8 ltac:(lia)). pose proof (Z.mod_pos_bound p 8 ltac:(lia)). lia.
Qed.

Lemma refc_put_ref p v q : 0 <= p < total_pages s -> 0 <= q ->
  refc (put_ref s p v) q = if decide (q = p) then v else refc s q.
Proof.
  intros Hp Hq. unfold refc, put_ref. simpl.
  pose proof (shape_refs _ Hs). case_decide as Hd.
  - subst. apply list_lookup_total_insert_eq. lia.
  - apply list_lookup_total_insert_ne. lia.
Qed.
End bits.

(** ** Lemmas: invariant transitions *)

Lemma shape_same s t :
  shape s -> bitmap t = bitmap s -> refcounts t = refcounts s ->
  total_pages t = total_pages s -> shape t.
Proof. intros [] E1 E2 E3. split; rewrite ?E1, ?E2, ?E3; done. Qed.

Lemma max_pages : DIRECT_MAP_BYTES / PMM_PAGE_SIZE = 1000 * 2 ^ 24.
Proof. reflexivity. Qed.

Lemma page_number_bound s p : shape s -> 0 <= p < total_pages s -> 0 <= p * PMM_PAGE_SIZE < 2 ^ 63.
Proof.
  intros [Ht _ _ _] ?. rewrite max_pages in Ht. unfold PMM_PAGE_SIZE. lia.
Qed.

Lemma free_pages_bound s : pmm_inv s -> 0 <= free_pages s <= total_pages s.
Proof.
  intros H. rewrite (inv_free _ H). pose proof (shape_total _ (inv_shape _ H)).
  pose proof (countb_bound (fun p => negb (busy s p)) (Z.to_nat (total_pages s))). lia.
Qed.

(** A free page is taken. *)
Lemma inv_take s p h :
  pmm_inv s -> 0 <= p < total_pages s -> busy s p = false -> 0 <= h <= total_pages s ->
  0 < free_pages s /\
  pmm_inv (set_next_hint (set_free_pages (put_ref (put_bit s p true) p 1) (free_pages s - 1)) h).
Proof.
  intros Hi Hp Hb Hh. destruct Hi as [Hs Hhint Hf Hr Hfr Hz].
  pose proof (shape_put_bit s Hs p true) as Hs1.
  assert (countb (fun q => negb (busy s q)) (Z.to_nat (total_pages s)) =
    countb (fun q => negb (busy (put_bit s p true) q)) (Z.to_nat (total_pages s)) + 1) as Hc.
  { apply (countb_flip _ _ _ p); [lia|..].
    - by rewrite busy_put_bit, decide_True by (done || lia).
    - by rewrite Hb.
    - intros i ??. by rewrite busy_put_bit, decide_False by (done || lia). }
  pose proof (countb_bound (fun q => negb (busy (put_bit s p true) q)) (Z.to_nat (total_pages s))).
  split; [lia|]. split; simpl; try done.
  - eapply shape_same; [apply (shape_put_ref _ Hs1 p 1)|done..].
  - change (free_pages s - 1 = countb (fun q => negb (busy (put_bit s p true) q))
      (Z.to_nat (total_pages s))). lia.
  - intros q Hq. change (0 <= refc (put_ref (put_bit s p true) p 1) q < 2 ^ 32).
    rewrite (refc_put_ref _ Hs1) by (done || lia). case_decide; [lia|]. by apply Hr.
  - intros q Hq. change (busy (put_bit s p true) q = false ->
      refc (put_ref (put_bit s p true) p 1) q = 0).
    rewrite (busy_put_bit _ Hs), (refc_put_ref _ Hs1) by (done || lia).
    case_decide; [done|]. by apply Hfr.
  - change (busy (put_bit s p true) 0 = true).
    rewrite (busy_put_bit _ Hs) by (done || lia). by case_decide.
Qed.

(** A busy page other than page 0 is given back. *)
Lemma inv_give s p h :
  pmm_inv s -> 0 < p < total_pages s -> busy s p = true -> 0 <= h <= total_pages s ->
  pmm_inv (set_next_hint (set_free_pages (put_bit (put_ref s p 0) p false) (free_pages s + 1)) h).
Proof.
  intros Hi Hp Hb Hh. destruct Hi as [Hs Hhint Hf Hr Hfr Hz].
  pose proof (shape_put_ref s Hs p 0) as Hs1.
  assert (countb (fun q => negb (busy (put_bit s p false) q)) (Z.to_nat (total_pages s)) =
    countb (fun q => negb (busy s q)) (Z.to_nat (total_pages s)) + 1) as Hc.
  { apply (countb_flip _ _ _ p); [lia|..].
    - by rewrite Hb.
    - by rewrite busy_put_bit, decide_True by (done || lia).
    - intros i ??. by rewrite busy_put_bit, decide_False by (done || lia). }
  split; simpl; try done.
  - eapply shape_same; [apply (shape_put_bit _ Hs1 p false)|done..].
  - change (free_pages s + 1 = countb (fun q => negb (busy (put_bit s p false) q))
      (Z.to_nat (total_pages s))). lia.
  - intros q Hq. change (0 <= refc (put_ref s p 0) q < 2 ^ 32).
    rewrite (refc_put_ref _ Hs) by (done || lia). case_decide; [lia|]. by apply Hr.
  - intros q Hq. change (busy (put_bit s p false) q = false -> refc (put_ref s p 0) q = 0).
    rewrite (busy_put_bit _ Hs), (refc_put_ref _ Hs) by (done || lia).
    case_decide; [done|]. by apply Hfr.
  - change (busy (put_bit s p false) 0 = true).
    rewrite (busy_put_bit _ Hs), decide_False by (done || lia). done.
Qed.

(** The count of a busy page changes. *)
Lemma inv_put_ref s p v :
  pmm_inv s -> 0 <= p < total_pages s -> busy s p = true -> 0 <= v < 2 ^ 32 ->
  pmm_inv (put_ref s p v).
Proof.
  intros Hi Hp Hb Hv. destruct Hi as [Hs Hhint Hf Hr Hfr Hz]. split; try done.
  - by apply shape_put_ref.
  - intros q Hq. rewrite refc_put_ref by (done || lia). case_decide; [lia|]. by apply Hr.
  - intros q Hq Hbq. rewrite refc_put_ref by (done || lia).
    case_decide; [|by apply Hfr]. subst. change (busy (put_ref s p v) p) with (busy s p) in Hbq.
    congruence.
Qed.

(** ** Lemmas: scans *)

Lemma scan_clear_spec s n page :
  shape s -> 0 <= page -> page + Z.of_nat n <= total_pages s ->
  returns (scan_clear s n page) (fun r =>
    match r with
    | Some p => page <= p < page + Z.of_nat n /\ busy s p = false
    | None => forall q, page <= q < page + Z.of_nat n -> busy s q = true
    end).
Proof.
  intros Hs. revert page. induction n as [|n IH]; intros page H0 Hn; [simpl; lia|].
  cbn [scan_clear]. rewrite (bit_test_ok _ Hs) by lia. rewrite bind_ret.
  destruct (busy s page) eqn:E.
  - eapply returns_mono; [apply IH; lia|]. intros [p|] H; [destruct H; split; [lia|done]|].
    intros q Hq. destruct (decide (q = page)) as [->|]; [done|]. apply H. lia.
  - simpl. split; [lia|done].
Qed.

Lemma scan_busy_spec s n page :
  shape s -> 0 <= page -> page + Z.of_nat n <= total_pages s ->
  returns (scan_busy s n page) (fun p =>
    page <= p <= page + Z.of_nat n /\
    (forall q, page <= q < p -> busy s q = false) /\
    (p < page + Z.of_nat n -> busy s p = true)).
Proof.
  intros Hs. revert page. induction n as [|n IH]; intros page H0 Hn; [simpl; repeat split; lia|].
  cbn [scan_busy]. rewrite (bit_test_ok _ Hs) by lia. rewrite bind_ret.
  destruct (busy s page) eqn:E.
  - simpl. repeat split; try lia. done.
  - eapply returns_mono; [apply IH; lia|]. intros p (Hp & Hfree & Hbusy). split; [lia|]. split.
    + intros q Hq. destruct (decide (q = page)) as [->|]; [done|]. apply Hfree. lia.
    + intros. apply Hbusy. lia.
Qed.

(** Taking a free page: the address, and the state of every page afterwards. *)
Lemma take_page_ok s p :
  pmm_inv s -> 0 <= p < total_pages s -> busy s p = false ->
  returns (take_page p s) (fun '(r, s') =>
    pmm_inv s' /\ total_pages s' = total_pages s /\ r = p * PMM_PAGE_SIZE /\
    forall q, 0 <= q < total_pages s ->
      page_state s' q = if decide (q = p) then Some 1 else page_state s q).
Proof.
  intros Hi Hp Hb. pose proof (inv_shape _ Hi) as Hs. unfold take_page.
  pose proof (shape_total _ Hs) as Ht. rewrite max_pages in Ht.
  rewrite (bit_set_ok _ Hs), bind_ret by done.
  pose proof (shape_put_bit s Hs p true) as Hs1.
  rewrite (write_refcount_ok _ Hs1), bind_ret by done.
  pose proof (page_number_bound _ _ Hs Hp).
  assert (0 <= p + 1 < 2 ^ 64) by lia.
  rewrite (u64_small (p * _)), (u64_small (p + 1)) by lia. cbn [free_pages put_ref put_bit set_refcounts set_bitmap].
  destruct (inv_take s p (if total_pages s <=? p + 1 then 0 else p + 1)) as [Hpos Hi'];
    [done..|case_cmp; lia|].
  pose proof (free_pages_bound _ Hi). rewrite (u64_small (free_pages s - 1)) by lia.
  simpl. split_and!.
  - destruct (total_pages s <=? p + 1); exact Hi'.
  - by destruct (total_pages s <=? p + 1).
  - done.
  - intros q Hq. transitivity (page_state (put_ref (put_bit s p true) p 1) q).
    { by destruct (total_pages s <=? p + 1). }
    unfold page_state. change (busy (put_ref (put_bit s p true) p 1) q)
      with (busy (put_bit s p true) q).
    rewrite (busy_put_bit _ Hs), (refc_put_ref _ Hs1) by (done || lia). by case_decide.
Qed.

Lemma some_page_free s : pmm_inv s -> free_pages s <> 0 ->
  exists p, 0 <= p < total_pages s /\ busy s p = false.
Proof.
  intros Hi Hf. pose proof (free_pages_bound _ Hi). rewrite (inv_free _ Hi) in *.
  destruct (countb_pos (fun p => negb (busy s p)) (Z.to_nat (total_pages s))) as (p & Hp & Hb);
    [lia|]. exists p. split; [lia|]. by destruct (busy s p).
Qed.

(** What a successful or a refused allocation of one page looks like. *)
Definition alloc_page_post (s : pmm) (out : Z * pmm) : Prop :=
  let '(r, s') := out in
  pmm_inv s' /\ total_pages s' = total_pages s /\
  ( (free_pages s = 0 /\ r = 0 /\ s' = s) \/
    exists p, 0 < p < total_pages s /\ r = p * PMM_PAGE_SIZE /\ page_state s p = None /\
      forall q, 0 <= q < total_pages s ->
        page_state s' q = if decide (q = p) then Some 1 else page_state s q ).

Lemma busy_positive s p : pmm_inv s -> 0 <= p -> busy s p = false -> 0 < p.
Proof.
  intros Hi Hp Hb. destruct (decide (p = 0)) as [->|]; [|lia].
  by rewrite (inv_zero _ Hi) in Hb.
Qed.

Lemma take_page_post s p :
  pmm_inv s -> 0 <= p < total_pages s -> busy s p = false ->
  returns (take_page p s) (alloc_page_post s).
Proof.
  intros Hi Hp Hb. eapply returns_mono; [by apply take_page_ok|].
  intros [r s'] (Hi' & Ht & Hr & Hq). split; [done|]. split; [done|]. right.
  pose proof (busy_positive _ _ Hi (proj1 Hp) Hb).
  exists p. split; [lia|]. split; [done|]. split; [|done]. unfold page_state. by rewrite Hb.
Qed.

Lemma alloc_page_post_ok s : pmm_inv s -> returns (pmm_alloc_page s) (alloc_page_post s).
Proof.
  intros Hi. pose proof (inv_shape _ Hi) as Hs. pose proof (inv_hint _ Hi).
  pose proof (shape_total _ Hs).
  unfold pmm_alloc_page, pmm_alloc_page_locked. destruct (Z.eqb_spec (free_pages s) 0) as [Hf|Hf].
  { simpl. split; [done|]. split; [done|]. by left. }
  eapply returns_bind; [apply scan_clear_spec; [done|lia|lia]|].
  intros [p|] H1; [apply take_page_post; [done|lia|by destruct H1]|].
  eapply returns_bind; [apply scan_clear_spec; [done|lia|lia]|].
  intros [p|] H2; [apply take_page_post; [done|lia|by destruct H2]|].
  destruct (some_page_free s Hi Hf) as (p & Hp & Hb).
  destruct (Z.ltb_spec p (next_hint s)).
  - rewrite H2 in Hb by lia. done.
  - rewrite H1 in Hb by lia. done.
Qed.

(** ** Lemmas: runs of pages *)

(** [claimed s lo hi t]: [t] is [s] with the free pages [lo, hi) taken, the
    free-page counter not yet updated. *)
Record claimed (s : pmm) (lo hi : Z) (t : pmm) : Prop := {
  cl_shape : shape t;
  cl_total : total_pages t = total_pages s;
  cl_free : free_pages t = free_pages s;
  cl_hint : next_hint t = next_hint s;
  cl_busy : forall q, 0 <= q -> busy t q = if decide (lo <= q < hi) then true else busy s q;
  cl_refc : forall q, 0 <= q -> refc t q = if decide (lo <= q < hi) then 1 else refc s q;
  cl_count : countb (fun q => negb (busy t q)) (Z.to_nat (total_pages s)) =
             countb (fun q => negb (busy s q)) (Z.to_nat (total_pages s)) - (hi - lo)
}.

Lemma claimed_refl s lo : shape s -> claimed s lo lo s.
Proof. intros. split; try done; try lia; intros; by rewrite decide_False by lia. Qed.

Lemma claim_page_ok s lo hi t :
  0 <= lo <= hi -> hi < total_pages s -> busy s hi = false -> claimed s lo hi t ->
  returns (claim_page hi t) (claimed s lo (hi + 1)).
Proof.
  intros Hlo Hhi Hb [Hs Ht Hf Hh Hbu Hre Hc]. unfold claim_page.
  rewrite (bit_set_ok _ Hs), bind_ret by lia.
  pose proof (shape_put_bit t Hs hi true) as Hs1.
  rewrite (write_refcount_ok _ Hs1) by (simpl; lia). simpl.
  assert (forall q, 0 <= q -> busy (put_bit t hi true) q =
    if decide (lo <= q < hi + 1) then true else busy s q) as Hbusy.
  { intros q Hq. rewrite (busy_put_bit _ Hs), Hbu by lia. repeat case_decide; done || lia. }
  split; simpl; try done.
  - by apply shape_put_ref.
  - intros q Hq. rewrite (refc_put_ref _ Hs1) by (simpl; lia).
    change (refc (put_bit t hi true) q) with (refc t q). rewrite Hre by done.
    repeat case_decide; done || lia.
  - assert (countb (fun q => negb (busy t q)) (Z.to_nat (total_pages s)) =
      countb (fun q => negb (busy (put_bit t hi true) q)) (Z.to_nat (total_pages s)) + 1) as Hfl.
    { apply (countb_flip _ _ _ hi); [lia|..].
      - by rewrite Hbusy, decide_True by lia.
      - by rewrite Hbu, decide_False, Hb by lia.
      - intros i ??. rewrite Hbusy, Hbu by lia. repeat case_decide; done || lia. }
    change (countb (fun q => negb (busy (put_bit t hi true) q)) (Z.to_nat (total_pages s)) =
      countb (fun q => negb (busy s q)) (Z.to_nat (total_pages s)) - (hi + 1 - lo)). lia.
Qed.

Lemma claim_loop_ok s lo hi :
  shape s -> 0 <= lo <= hi -> hi <= total_pages s ->
  (forall q, lo <= q < hi -> busy s q = false) ->
  returns (for_range lo hi 1 claim_page s) (claimed s lo hi).
Proof.
  intros Hs Hlo Hhi Hb. apply (for_range_rule (fun i t => claimed s lo i t)); [lia|by apply claimed_refl|].
  intros i t Hi Ht. apply claim_page_ok; [lia|lia|apply Hb; lia|done].
Qed.

Lemma claimed_inv s lo hi t :
  pmm_inv s -> 0 < lo <= hi -> hi <= total_pages s -> claimed s lo hi t ->
  hi - lo <= free_pages s /\ pmm_inv (set_free_pages t (free_pages s - (hi - lo))).
Proof.
  intros Hi Hlo Hhi [Hs Ht Hf Hh Hbu Hre Hc]. destruct Hi as [Hs0 Hhint Hf0 Hr Hfr Hz].
  pose proof (countb_bound (fun q => negb (busy t q)) (Z.to_nat (total_pages s))).
  split; [lia|]. split; simpl; try done.
  - by eapply shape_same.
  - by rewrite Hh, Ht.
  - rewrite Ht. change (free_pages s - (hi - lo) =
      countb (fun q => negb (busy t q)) (Z.to_nat (total_pages s))). lia.
  - rewrite Ht. intros q Hq. change (0 <= refc t q < 2 ^ 32). rewrite Hre by lia.
    case_decide; [lia|]. by apply Hr.
  - rewrite Ht. intros q Hq. change (busy t q = false -> refc t q = 0).
    rewrite Hre, Hbu by lia. case_decide; [done|]. by apply Hfr.
  - change (busy t 0 = true). by rewrite Hbu, decide_False by lia.
Qed.

(** The pages [first, first + count) are free and end at or below [last]. *)
Definition free_run (s : pmm) (first count last : Z) : Prop :=
  first + count <= last /\ forall q, first <= q < first + count -> page_state s q = None.

Definition run_post (s : pmm) (stride count last : Z) (lowest : Z) (out : Z * pmm) : Prop :=
  let '(r, s') := out in
  pmm_inv s' /\ total_pages s' = total_pages s /\
  ( (r = 0 /\ s' = s /\
     forall first, lowest <= first -> first mod stride = 0 -> ~ free_run s first count last) \/
    exists first, 0 < first /\ first mod stride = 0 /\ r = first * PMM_PAGE_SIZE /\
      free_run s first count last /\
      forall q, 0 <= q < total_pages s ->
        page_state s' q = if decide (first <= q < first + count) then Some 1
                          else page_state s q ).

Lemma busy_no_run s p first count last :
  first <= p < first + count -> busy s p = true -> ~ free_run s first count last.
Proof. intros Hp Hb [_ Hq]. specialize (Hq p Hp). unfold page_state in Hq. by rewrite Hb in Hq. Qed.

Lemma run_found s stride count last lowest first :
  pmm_inv s -> 0 < first -> 0 < count -> first mod stride = 0 ->
  first + count <= last -> last <= total_pages s ->
  (forall q, first <= q < first + count -> busy s q = false) ->
  returns (s1 ← for_range first (first + count) 1 claim_page s;
           Ret (u64 (first * PMM_PAGE_SIZE), set_free_pages s1 (u64 (free_pages s1 - count))))
    (run_post s stride count last lowest).
Proof.
  intros Hi Hf Hc Hm Hl Ht Hb. pose proof (inv_shape _ Hi) as Hs.
  eapply returns_bind; [by apply claim_loop_ok; [done|lia|lia|]|]. intros t Hcl.
  destruct (claimed_inv s first (first + count) t) as [Hle Hinv]; [done|lia|lia|done|].
  replace (first + count - first) with count in * by lia.
  pose proof (free_pages_bound _ Hi). pose proof (page_number_bound s first Hs ltac:(lia)).
  pose proof (shape_total _ Hs) as Htot. rewrite max_pages in Htot.
  rewrite (cl_free _ _ _ _ Hcl). simpl. words.
  split; [done|]. split; [apply (cl_total _ _ _ _ Hcl)|]. right. exists first.
  split_and!; try done.
  - split; [lia|]. intros q Hq. unfold page_state. by rewrite Hb.
  - intros q Hq. transitivity (page_state t q); [done|]. unfold page_state.
    rewrite (cl_busy _ _ _ _ Hcl), (cl_refc _ _ _ _ Hcl) by lia. by case_decide.
Qed.

Lemma multiples_between a b m : 0 < m -> a mod m = 0 -> b mod m = 0 -> a < b -> a + m <= b.
Proof.
  intros Hm Ha Hb Hlt. pose proof (Z.div_mod a m ltac:(lia)). pose proof (Z.div_mod b m ltac:(lia)).
  assert (a / m < b / m) by nia. nia.
Qed.

Lemma round_down_mod p m : 0 < m -> (p - p mod m) mod m = 0.
Proof.
  intros. pose proof (Z.div_mod p m ltac:(lia)).
  replace (p - p mod m) with (p / m * m) by lia. by apply Z.mod_mul; lia.
Qed.

(** The search finds the lowest aligned run, or there is none; [last - first]
    rounds are enough. *)
Lemma below_loop_ok fuel first stride count last s :
  pmm_inv s -> 0 < stride <= 2 ^ 52 -> 0 < count -> count <= free_pages s ->
  0 < first < 2 ^ 53 -> first mod stride = 0 -> last <= total_pages s ->
  last - first < Z.of_nat fuel -> (0 < fuel)%nat ->
  returns (below_loop fuel first stride count last s) (run_post s stride count last first).
Proof.
  intros Hi Hst Hc Hcf. pose proof (inv_shape _ Hi) as Hs. pose proof (free_pages_bound _ Hi).
  pose proof (shape_total _ Hs) as Htot. rewrite max_pages in Htot.
  revert first. induction fuel as [|fuel IH]; intros first Hf Hm Hl Hfuel Hpos; [lia|].
  cbn [below_loop]. rewrite (u64_small (first + count)) by lia.
  destruct (Z.leb_spec (first + count) last) as [Hle|Hgt].
  2:{ simpl. split; [done|]. split; [done|]. left. split; [done|]. split; [done|].
      intros f Hf1 _ [? _]. lia. }
  eapply returns_bind; [apply scan_busy_spec; [done|lia|lia]|].
  intros page (Hp & Hfree & Hbusy). replace (Z.of_nat (Z.to_nat (first + count - first)))
    with count in * by lia.
  destruct (Z.ltb_spec page (first + count)) as [Hlt|Hge].
  2:{ apply run_found; try done; try lia. intros q Hq. apply Hfree. lia. }
  pose proof (Z.mod_pos_bound page stride ltac:(lia)).
  pose proof (Z.mod_le page stride ltac:(lia) ltac:(lia)).
  pose proof (round_down_mod page stride ltac:(lia)) as Hrd.
  assert (first <= page - page mod stride) as Hfp.
  { destruct (Z.leb_spec first (page - page mod stride)); [done|].
    pose proof (multiples_between _ _ stride ltac:(lia) Hrd Hm ltac:(lia)). lia. }
  rewrite (u64_small (page - _ + _)) by lia.
  assert ((page - page mod stride + stride) mod stride = 0) as Hnm.
  { replace (page - page mod stride + stride) with (page - page mod stride + 1 * stride) by lia.
    by rewrite Z.mod_add by lia. }
  eapply returns_mono; [apply IH; try done; lia|].
  intros [r s'] (? & ? & [(Hr & Hs' & Hno)|Hrun]); (split; [done|]; split; [done|]); [left|by right].
  split; [done|]. split; [done|]. intros f Hf1 Hf2.
  destruct (Z.leb_spec (page - page mod stride + stride) f); [by apply Hno|].
  apply (busy_no_run s page); [|by apply Hbusy; lia]. split; [|lia].
  destruct (Z.leb_spec f page); [done|].
  pose proof (multiples_between (page - page mod stride) f stride ltac:(lia) Hrd Hf2 ltac:(lia)). lia.
Qed.

(** The alignment of a run: a stride of whole pages, and the byte alignment
    divides every multiple of it. *)
Lemma stride_ok alignment : 0 <= alignment < 2 ^ 64 ->
  Z.land alignment (u64 (alignment - 1)) = 0 ->
  let stride := if PMM_PAGE_SIZE <? alignment then alignment / PMM_PAGE_SIZE else 1 in
  0 < stride <= 2 ^ 52 /\
  forall first, first mod stride = 0 -> alignment = 0 \/ (alignment | first * PMM_PAGE_SIZE).
Proof.
  intros Ha Hl stride. destruct (decide (alignment = 0)) as [->|Hne].
  { split; [unfold stride; simpl; lia|]. by left. }
  rewrite u64_small in Hl by lia. pose proof (pow2_of_land alignment ltac:(lia) Hl) as Hpow.
  pose proof (Z.log2_nonneg alignment). set (k := Z.log2 alignment) in *.
  change PMM_PAGE_SIZE with (2 ^ 12) in *. unfold stride.
  destruct (Z.ltb_spec (2 ^ 12) alignment) as [Hlt|Hge].
  - assert (12 < k) by (apply (Z.pow_lt_mono_r_iff 2); lia).
    assert (alignment / 2 ^ 12 = 2 ^ (k - 12)) as Ed.
    { rewrite Hpow at 1. replace k with (k - 12 + 12) at 1 by lia.
      rewrite Z.pow_add_r by lia. apply Z.div_mul. lia. }
    assert (alignment / 2 ^ 12 < 2 ^ 52) by (apply Z.div_lt_upper_bound; lia).
    split; [rewrite Ed in *; split; [apply Z.pow_pos_nonneg; lia|lia]|].
    intros first Hm. right. rewrite Ed in Hm. apply Z.mod_divide in Hm as [c Hc];
      [|apply Z.pow_nonzero; lia].
    exists c. rewrite Hc, <- Z.mul_assoc, <- Z.pow_add_r by lia.
    rewrite Hpow at 1. f_equal. f_equal. lia.
  - split; [lia|]. intros first _. right. apply Z.divide_mul_r. rewrite Hpow.
    apply pow2_divide. split; [done|]. apply (Z.pow_le_mono_r_iff 2); lia.
Qed.

Definition run_limit (limit : Z) (s : pmm) : Z :=
  Z.min (total_pages s) (if limit =? 0 then total_pages s else limit / PMM_PAGE_SIZE).
Definition run_stride (alignment : Z) : Z :=
  if PMM_PAGE_SIZE <? alignment then alignment / PMM_PAGE_SIZE else 1.

(** The contract of [pmm_alloc_pages_below]: the run it returns was free, is
    aligned, ends at or below the limit and is now held once; it returns NULL
    only for a zero count, an alignment that is no power of two, or when no
    aligned run above the first stride is free. *)
Definition alloc_pages_post (s : pmm) (count alignment limit : Z) (out : Z * pmm) : Prop :=
  let '(r, s') := out in
  pmm_inv s' /\ total_pages s' = total_pages s /\
  ( (r = 0 /\ s' = s /\
     (count = 0 \/ Z.land alignment (u64 (alignment - 1)) <> 0 \/
      forall first, run_stride alignment <= first -> first mod run_stride alignment = 0 ->
        ~ free_run s first count (run_limit limit s))) \/
    exists first, 0 < first /\ r = first * PMM_PAGE_SIZE /\
      (alignment = 0 \/ (alignment | r)) /\
      (limit = 0 \/ r + count * PMM_PAGE_SIZE <= limit) /\
      free_run s first count (total_pages s) /\
      forall q, 0 <= q < total_pages s ->
        page_state s' q = if decide (first <= q < first + count) then Some 1
                          else page_state s q ).

Lemma free_run_count s first count last :
  pmm_inv s -> 0 <= first -> 0 <= count -> last <= total_pages s ->
  free_run s first count last -> count <= free_pages s.
Proof.
  intros Hi Hf Hc Hl [Hle Hq]. rewrite (inv_free _ Hi).
  pose proof (claim_loop_ok s first (first + count) (inv_shape _ Hi) ltac:(lia) ltac:(lia)) as H.
  apply returns_exists in H as (t & _ & Hcl).
  - pose proof (cl_count _ _ _ _ Hcl).
    pose proof (countb_bound (fun q => negb (busy t q)) (Z.to_nat (total_pages s))). lia.
  - intros q Hin. specialize (Hq q Hin). unfold page_state in Hq. by destruct (busy s q).
Qed.

Lemma alloc_pages_post_ok s count alignment limit :
  pmm_inv s -> 0 <= count < 2 ^ 64 -> 0 <= alignment < 2 ^ 64 -> 0 <= limit < 2 ^ 64 ->
  returns (pmm_alloc_pages_below count alignment limit s) (alloc_pages_post s count alignment limit).
Proof.
  intros Hi Hc Ha Hlim. unfold pmm_alloc_pages_below.
  destruct (Z.eqb_spec count 0) as [->|]; [simpl; split; [done|]; split; [done|]; left; auto|].
  destruct (Z.eqb_spec (Z.land alignment (u64 (alignment - 1))) 0) as [Hl|Hl];
    [|simpl; split; [done|]; split; [done|]; left; auto].
  cbn [negb]. destruct (stride_ok alignment Ha Hl) as [Hst Hdiv]. fold (run_stride alignment) in *.
  set (last := if limit =? 0 then total_pages s else limit / PMM_PAGE_SIZE).
  assert ((if total_pages s <? last then total_pages s else last) = run_limit limit s) as ->
    by (unfold run_limit; fold last; case_cmp; lia).
  pose proof (shape_total _ (inv_shape _ Hi)).
  assert (0 <= run_limit limit s <= total_pages s) as Hrl.
  { unfold run_limit. case_cmp; [lia|]. pose proof (Z.div_pos limit PMM_PAGE_SIZE).
    unfold PMM_PAGE_SIZE in *. lia. }
  destruct (Z.leb_spec count (free_pages s)) as [Hle|Hgt].
  - eapply returns_mono;
      [apply below_loop_ok; try done; try lia; by rewrite Z.mod_same by lia|].
    intros [r s'] (? & ? & [(? & ? & Hno)|(f & Hf & Hm & -> & Hrun & Hq)]);
      (split; [done|]; split; [done|]); [left; by auto|right].
    exists f. split_and!; try done.
    + by apply Hdiv.
    + destruct (Z.eqb_spec limit 0) as [|Hlz]; [by left|right]. destruct Hrun as [Hrun _].
      unfold run_limit in Hrun. destruct (Z.eqb_spec limit 0); [done|].
      pose proof (Z.mul_div_le limit PMM_PAGE_SIZE). unfold PMM_PAGE_SIZE in *. lia.
    + destruct Hrun. split; [lia|done].
  - simpl. split; [done|]. split; [done|]. left. split; [done|]. split; [done|]. right. right.
    intros f Hf _ Hrun. apply free_run_count in Hrun; [lia|done|lia|lia|lia].
Qed.

(** ** Lemmas: freeing and sharing *)

Definition free_page_post (s : pmm) (address : Z) (out : res pmm) : Prop :=
  match out with
  | Ret s' => pmm_inv s' /\ total_pages s' = total_pages s /\
      ( (address = 0 /\ s' = s) \/
        exists p n, address = p * PMM_PAGE_SIZE /\ 0 < p < total_pages s /\
          page_state s p = Some n /\
          forall q, 0 <= q < total_pages s ->
            page_state s' q = if decide (q = p) then (if 1 <? n then Some (n - 1) else None)
                              else page_state s q )
  | Panic why =>
      (why = "PMM: invalid free"%string /\
       (~ (PMM_PAGE_SIZE | address) \/ pmm_managed_limit s <= address)) \/
      (why = "PMM: double free"%string /\ page_state s (address / PMM_PAGE_SIZE) = None)
  | Fault => False
  end.

Lemma page_aligned a : Z.land a (PMM_PAGE_SIZE - 1) = 0 <-> (PMM_PAGE_SIZE | a).
Proof.
  unfold PMM_PAGE_SIZE. change 4096 with (2 ^ 12). rewrite land_low by lia.
  apply Z.mod_divide. lia.
Qed.

Lemma page_of_address s a : shape s -> 0 <= a -> (PMM_PAGE_SIZE | a) ->
  a < pmm_managed_limit s ->
  a = a / PMM_PAGE_SIZE * PMM_PAGE_SIZE /\ 0 <= a / PMM_PAGE_SIZE < total_pages s.
Proof.
  intros Hs Ha [c Hc] Hl. pose proof (shape_total _ Hs) as Ht. rewrite max_pages in Ht.
  unfold pmm_managed_limit, PMM_PAGE_SIZE in *. rewrite u64_small in Hl by lia.
  subst a. rewrite Z.div_mul by lia. lia.
Qed.

Lemma free_page_post_ok s address :
  pmm_inv s -> 0 <= address < 2 ^ 64 -> free_page_post s address (pmm_free_page address s).
Proof.
  intros Hi Ha. pose proof (inv_shape _ Hi) as Hs. unfold pmm_free_page, pmm_free_page_locked.
  destruct (Z.eqb_spec address 0) as [->|Hne]; [simpl; split; [done|]; split; [done|]; by left|].
  destruct (Z.eqb_spec (Z.land address (PMM_PAGE_SIZE - 1)) 0) as [Hal|Hal].
  2:{ simpl. left. split; [done|]. left. by rewrite <- page_aligned. }
  fold (pmm_managed_limit s). cbn [negb orb].
  destruct (Z.leb_spec (pmm_managed_limit s) address) as [Hlim|Hlim].
  { simpl. left. split; [done|]. by right. }
  destruct (page_of_address s address Hs) as [He Hp]; [lia|by apply page_aligned|done|].
  set (p := address / PMM_PAGE_SIZE) in *.
  rewrite (bit_test_ok _ Hs), bind_ret by done. destruct (busy s p) eqn:Hb.
  2:{ cbn [negb free_page_post]. right. split; [done|]. fold p. unfold page_state.
      by rewrite Hb. }
  cbn [negb]. rewrite (rd_refcount_ok _ Hs), bind_ret by done.
  pose proof (inv_refs _ Hi p Hp). assert (0 < p) by (unfold PMM_PAGE_SIZE in *; lia).
  assert (page_state s p = Some (refc s p)) as Hps by (unfold page_state; by rewrite Hb).
  destruct (Z.ltb_spec 1 (refc s p)) as [H1|H1].
  - rewrite (write_refcount_ok _ Hs) by done. rewrite (u32_small (refc s p - 1)) by lia.
    simpl. split; [apply inv_put_ref; done || lia|]. split; [done|]. right.
    exists p, (refc s p). split_and!; try done || lia. intros q Hq. unfold page_state.
    change (busy (put_ref s p (refc s p - 1)) q) with (busy s q).
    rewrite (refc_put_ref _ Hs) by (done || lia).
    rewrite (proj2 (Z.ltb_lt 1 (refc s p))) by lia. case_decide as Hd; [by rewrite Hd, Hb|done].
  - rewrite (write_refcount_ok _ Hs), bind_ret by done.
    pose proof (shape_put_ref s Hs p 0) as Hs1. rewrite (bit_clear_ok _ Hs1), bind_ret by done.
    pose proof (free_pages_bound _ Hi). pose proof (shape_total _ Hs) as Ht. rewrite max_pages in Ht.
    cbn [free_pages put_bit put_ref set_bitmap set_refcounts]. rewrite (u64_small (_ + 1)) by lia.
    pose proof (inv_hint _ Hi). cbn [free_page_post]. split_and!.
    + cbn [next_hint set_free_pages put_bit put_ref set_bitmap set_refcounts].
      destruct (Z.ltb_spec p (next_hint s)); [by apply (inv_give s p p); done || lia|].
      by apply (inv_give s p (next_hint s)); done || lia.
    + by destruct (p <? _).
    + right. exists p, (refc s p). split_and!; try done || lia. intros q Hq.
      transitivity (page_state (put_bit (put_ref s p 0) p false) q); [by destruct (p <? _)|].
      unfold page_state. rewrite (busy_put_bit _ Hs1) by (done || lia).
      change (busy (put_ref s p 0) q) with (busy s q).
      change (refc (put_bit (put_ref s p 0) p false) q) with (refc (put_ref s p 0) q).
      rewrite (refc_put_ref _ Hs), (proj2 (Z.ltb_ge 1 (refc s p))) by (done || lia).
      by case_decide.
Qed.

(** One reference less. *)
Definition drop_ref (st : option Z) : option Z :=
  match st with
  | Some n => if 1 <? n then Some (n - 1) else None
  | None => None
  end.

Lemma free_pages_ok s p count :
  pmm_inv s -> 0 < p -> 0 <= count -> p + count <= total_pages s ->
  (forall q, p <= q < p + count -> page_state s q <> None) ->
  returns (pmm_free_pages (p * PMM_PAGE_SIZE) count s) (fun s' =>
    pmm_inv s' /\ total_pages s' = total_pages s /\
    forall q, 0 <= q < total_pages s ->
      page_state s' q = if decide (p <= q < p + count) then drop_ref (page_state s q)
                        else page_state s q).
Proof.
  intros Hi Hp Hc Hle Hst. unfold pmm_free_pages.
  destruct (Z.eqb_spec (p * PMM_PAGE_SIZE) 0) as [E|_]; [unfold PMM_PAGE_SIZE in *; lia|].
  destruct (Z.eqb_spec count 0) as [->|Hne].
  { simpl. split_and!; [done..|]. intros. by rewrite decide_False by lia. }
  pose proof (shape_total _ (inv_shape _ Hi)) as Ht. rewrite max_pages in Ht. cbn [orb].
  apply (for_range_rule (fun i t => pmm_inv t /\ total_pages t = total_pages s /\
    forall q, 0 <= q < total_pages s ->
      page_state t q = if decide (p <= q < p + i) then drop_ref (page_state s q)
                       else page_state s q) 0 count); [lia|..].
  { split_and!; [done..|]. intros. by rewrite decide_False by lia. }
  intros i t Hin (Hit & Htt & Hq). unfold PMM_PAGE_SIZE. words.
  replace (p * 4096 + i * 4096) with ((p + i) * PMM_PAGE_SIZE) by (unfold PMM_PAGE_SIZE; lia).
  pose proof (free_page_post_ok t ((p + i) * PMM_PAGE_SIZE) Hit) as Hpost.
  unfold pmm_free_page in Hpost. specialize (Hpost ltac:(unfold PMM_PAGE_SIZE; lia)).
  assert (page_state t (p + i) = page_state s (p + i)) as Hcur
    by (rewrite Hq, decide_False by lia; done).
  destruct (pmm_free_page_locked _ t) as [t'|why|]; cbn [free_page_post returns] in *; [|..|done].
  - destruct Hpost as (? & Htt' & [[E _]|(p' & n & E & Hp' & Hn & Hq')]);
      [unfold PMM_PAGE_SIZE in *; lia|].
    assert (p' = p + i) by (unfold PMM_PAGE_SIZE in *; lia). subst p'. rewrite Hcur in Hn.
    split; [done|]. split; [congruence|]. intros q Hqr. rewrite Hq', Hq by lia.
    repeat case_decide; try lia; try done. subst q. by rewrite Hn.
  - destruct Hpost as [[_ [Hnd|Hge]]|[_ Hnone]].
    + destruct Hnd. by exists (p + i).
    + unfold pmm_managed_limit, PMM_PAGE_SIZE in *. rewrite Htt, u64_small in Hge by lia. lia.
    + rewrite Z.div_mul in Hnone by done. rewrite Hcur in Hnone.
      destruct (Hst (p + i)); [lia|done].
Qed.

(** Two states with the same page states have the same number of free pages. *)
Lemma free_pages_of_states s t :
  pmm_inv s -> pmm_inv t -> total_pages t = total_pages s ->
  (forall q, 0 <= q < total_pages s -> page_state t q = page_state s q) ->
  free_pages t = free_pages s.
Proof.
  intros Hs Ht E Hq. rewrite (inv_free _ Hs), (inv_free _ Ht), E.
  pose proof (shape_total _ (inv_shape _ Hs)).
  apply countb_ext. intros i Hi. specialize (Hq i ltac:(lia)). unfold page_state in Hq.
  by destruct (busy t i), (busy s i).
Qed.

Lemma is_allocated_ok s physical :
  pmm_inv s -> 0 <= physical < 2 ^ 64 ->
  returns (pmm_page_is_allocated physical s) (fun b =>
    if (b : bool)
    then physical = physical / PMM_PAGE_SIZE * PMM_PAGE_SIZE /\
         0 <= physical / PMM_PAGE_SIZE < total_pages s /\
         page_state s (physical / PMM_PAGE_SIZE) = Some (refc s (physical / PMM_PAGE_SIZE))
    else ~ (PMM_PAGE_SIZE | physical) \/ pmm_managed_limit s <= physical \/
         page_state s (physical / PMM_PAGE_SIZE) = None).
Proof.
  intros Hi Ha. pose proof (inv_shape _ Hi) as Hs. unfold pmm_page_is_allocated.
  destruct (Z.eqb_spec (Z.land physical (PMM_PAGE_SIZE - 1)) 0) as [Hal|Hal]; cbn [negb orb].
  2:{ left. by rewrite <- page_aligned. }
  destruct (Z.leb_spec (pmm_managed_limit s) physical) as [Hl|Hl]; [simpl; auto|].
  apply page_aligned in Hal. destruct (page_of_address s physical Hs) as [He Hp]; [lia|done|done|].
  rewrite (bit_test_ok _ Hs) by done. cbn [returns]. unfold page_state.
  destruct (busy s (physical / PMM_PAGE_SIZE)); [done|auto].
Qed.

Definition page_ref_post (s : pmm) (physical : Z) (out : Z * pmm) : Prop :=
  let '(status, s') := out in
  let p := physical / PMM_PAGE_SIZE in
  pmm_inv s' /\ total_pages s' = total_pages s /\
  ( (status = -1 /\ s' = s /\
     (~ (PMM_PAGE_SIZE | physical) \/ pmm_managed_limit s <= physical \/
      page_state s p = None \/ page_state s p = Some UINT32_MAX)) \/
    (status = 0 /\ physical = p * PMM_PAGE_SIZE /\ exists n, page_state s p = Some n /\
      forall q, 0 <= q < total_pages s ->
        page_state s' q = if decide (q = p) then Some (n + 1) else page_state s q) ).

Lemma page_ref_post_ok s physical :
  pmm_inv s -> 0 <= physical < 2 ^ 64 -> returns (pmm_page_ref physical s) (page_ref_post s physical).
Proof.
  intros Hi Ha. pose proof (inv_shape _ Hi) as Hs. unfold pmm_page_ref.
  eapply returns_bind; [by apply is_allocated_ok|]. intros [] Hb.
  2:{ simpl. split; [done|]. split; [done|]. left. naive_solver. }
  destruct Hb as (He & Hp & Hst). set (p := physical / PMM_PAGE_SIZE) in *.
  rewrite (rd_refcount_ok _ Hs), bind_ret by done.
  destruct (Z.eqb_spec (refc s p) UINT32_MAX) as [E|E].
  { cbn. split; [done|]. split; [done|]. left. fold p. rewrite Hst, E. split_and!; auto 10. }
  rewrite (write_refcount_ok _ Hs), bind_ret by done. unfold page_state in Hst.
  destruct (busy s p) eqn:Hbusy; [|done]. pose proof (inv_refs _ Hi p Hp).
  unfold UINT32_MAX in E. rewrite u32_small by lia. cbn [returns page_ref_post].
  split; [apply inv_put_ref; done || lia|]. split; [done|]. right. fold p.
  split; [done|]. split; [done|]. exists (refc s p). unfold page_state. rewrite Hbusy.
  split; [done|]. intros q Hq. change (busy (put_ref s p (refc s p + 1)) q) with (busy s q).
  rewrite (refc_put_ref _ Hs) by (done || lia). case_decide as Hd; [by rewrite Hd, Hbusy|done].
Qed.

(** [release_reserved_page] gives back exactly the reserved pages. *)
Definition reserved_to_free (st : option Z) : option Z :=
  if decide (st = Some 0) then None else st.

Lemma release_page_ok s page released :
  pmm_inv s -> 0 < page < total_pages s -> 0 <= released < 2 ^ 63 ->
  returns (release_reserved_page page (s, released)) (fun '(s', released') =>
    pmm_inv s' /\ total_pages s' = total_pages s /\
    released' - released = free_pages s' - free_pages s /\ released <= released' <= released + 1 /\
    forall q, 0 <= q < total_pages s ->
      page_state s' q = if decide (q = page) then reserved_to_free (page_state s q)
                        else page_state s q).
Proof.
  intros Hi Hp Hrel. pose proof (inv_shape _ Hi) as Hs. unfold release_reserved_page.
  rewrite (bit_test_ok _ Hs), bind_ret by lia. destruct (busy s page) eqn:Hb; cbn [negb].
  2:{ simpl. split_and!; try done || lia. intros q Hq. case_decide as Hd; [|done].
      subst. unfold page_state. by rewrite Hb. }
  rewrite (rd_refcount_ok _ Hs), bind_ret by lia.
  destruct (Z.eqb_spec (refc s page) 0) as [E|E]; cbn [negb].
  2:{ simpl. split_and!; try done || lia. intros q Hq. case_decide as Hd; [|done].
      subst. unfold page_state, reserved_to_free. rewrite Hb, decide_False; [done|congruence]. }
  assert (put_ref s page 0 = s) as Hid.
  { unfold put_ref. rewrite list_insert_id; [by destruct s|]. pose proof (shape_refs _ Hs).
    unfold refc in E. rewrite <- E. apply list_lookup_lookup_total_lt. lia. }
  rewrite (bit_clear_ok _ Hs), bind_ret by lia.
  pose proof (free_pages_bound _ Hi). pose proof (shape_total _ Hs) as Ht. rewrite max_pages in Ht.
  cbn [free_pages put_bit set_bitmap]. rewrite (u64_small (free_pages s + 1)),
    (u64_small (released + 1)) by lia.
  pose proof (inv_hint _ Hi).
  pose proof (inv_give s page page Hi Hp Hb ltac:(lia)) as G1.
  pose proof (inv_give s page (next_hint s) Hi Hp Hb ltac:(lia)) as G2. rewrite Hid in G1, G2.
  cbn [returns next_hint set_free_pages put_bit set_bitmap]. split_and!.
  - by destruct (page <? next_hint s).
  - by destruct (page <? next_hint s).
  - destruct (page <? next_hint s); simpl; lia.
  - lia.
  - lia.
  - intros q Hq. transitivity (page_state (put_bit s page false) q); [by destruct (page <? _)|].
    unfold page_state. rewrite (busy_put_bit _ Hs) by lia.
    change (refc (put_bit s page false) q) with (refc s q). case_decide as Hd; [|done].
    subst. by rewrite Hb, E.
Qed.

Lemma release_reserved_ok s physical len :
  pmm_inv s -> PMM_PAGE_SIZE <= physical -> 0 < len -> physical + len + PMM_PAGE_SIZE <= 2 ^ 64 ->
  returns (pmm_release_reserved physical len s) (fun '(released, s') =>
    pmm_inv s' /\ total_pages s' = total_pages s /\
    released = free_pages s' - free_pages s /\
    forall q, 0 <= q < total_pages s ->
      page_state s' q =
        if decide (physical / PMM_PAGE_SIZE <= q < (physical + len + PMM_PAGE_SIZE - 1) / PMM_PAGE_SIZE)
        then reserved_to_free (page_state s q) else page_state s q).
Proof.
  intros Hi Hph Hl Hw. unfold pmm_release_reserved.
  destruct (Z.eqb_spec len 0) as [|_]; [lia|]. unfold PMM_PAGE_SIZE in *.
  rewrite (u64_small (physical + len + 4096 - 1)) by lia.
  set (first := physical / 4096). set (last0 := (physical + len + 4096 - 1) / 4096).
  assert (0 < first) by (apply Z.div_str_pos; lia).
  set (last := if total_pages s <? last0 then total_pages s else last0).
  assert (last = Z.min (total_pages s) last0) as Elast by (unfold last; case_cmp; lia).
  pose proof (shape_total _ (inv_shape _ Hi)) as Ht. rewrite max_pages in Ht.
  assert (returns (for_range first last 1 release_reserved_page (s, 0)) (fun '(s', released) =>
    pmm_inv s' /\ total_pages s' = total_pages s /\ released = free_pages s' - free_pages s /\
    forall q, 0 <= q < total_pages s ->
      page_state s' q = if decide (first <= q < last) then reserved_to_free (page_state s q)
                        else page_state s q)) as Hloop.
  { destruct (Z.leb_spec first last) as [Hle|Hgt].
    2:{ unfold for_range. replace (Z.to_nat ((last - first + 1 - 1) / 1)) with 0%nat.
        - simpl. split_and!; try done || lia. intros. by rewrite decide_False by lia.
        - rewrite Z.div_1_r. lia. }
    eapply returns_mono; [apply (for_range_rule (fun i '(t, released) =>
      pmm_inv t /\ total_pages t = total_pages s /\ released = free_pages t - free_pages s /\
      0 <= released <= i - first /\
      forall q, 0 <= q < total_pages s ->
        page_state t q = if decide (first <= q < i) then reserved_to_free (page_state s q)
                         else page_state s q) first last); [done|..]|].
    - split_and!; try done || lia. intros. by rewrite decide_False by lia.
    - intros i [t released] Hin (Hit & Htt & Hr & Hrb & Hq).
      eapply returns_mono; [apply release_page_ok; try done; lia|].
      intros [t' released'] (? & Htt' & Hr' & Hrb' & Hq').
      split; [done|]. split; [congruence|]. split; [lia|]. split; [lia|].
      intros q Hqr. rewrite Hq', Hq by lia. repeat case_decide; try lia; done.
    - intros [t released] (? & ? & ? & _ & Hq). done. }
  eapply returns_bind; [exact Hloop|]. intros [t released] (? & ? & ? & Hq). simpl.
  split_and!; try done. intros q Hqr. rewrite Hq by done. rewrite Elast.
  repeat case_decide; try lia; done.
Qed.

(** ** Lemmas: initialisation *)

Lemma page_up_ok a : 0 <= a <= 2 ^ 64 - PMM_PAGE_SIZE ->
  (PMM_PAGE_SIZE | page_up a) /\ a <= page_up a < a + PMM_PAGE_SIZE.
Proof.
  intros Ha. unfold page_up, PMM_PAGE_SIZE in *. rewrite (u64_small (a + 4096 - 1)) by lia.
  change 4096 with (2 ^ 12). rewrite land_high by lia.
  pose proof (Z.div_mod (a + 2 ^ 12 - 1) (2 ^ 12) ltac:(lia)).
  pose proof (Z.mod_pos_bound (a + 2 ^ 12 - 1) (2 ^ 12) ltac:(lia)).
  split; [|lia]. exists ((a + 2 ^ 12 - 1) / 2 ^ 12). lia.
Qed.

Lemma page_down_ok a : 0 <= a < 2 ^ 64 ->
  (PMM_PAGE_SIZE | page_down a) /\ page_down a <= a < page_down a + PMM_PAGE_SIZE.
Proof.
  intros Ha. unfold page_down, PMM_PAGE_SIZE in *. change 4096 with (2 ^ 12).
  rewrite land_high by lia. pose proof (Z.div_mod a (2 ^ 12) ltac:(lia)).
  pose proof (Z.mod_pos_bound a (2 ^ 12) ltac:(lia)). split; [|lia]. exists (a / 2 ^ 12). lia.
Qed.

(** A memory map as a boot loader passes it: every region ends below the last
    page of the 64-bit address space. *)
Definition region_ok (r : boot_memory_region) : Prop :=
  0 <= region_base r /\ 0 <= region_length r /\
  region_base r + region_length r <= 2 ^ 64 - PMM_PAGE_SIZE.

Definition region_top (r : boot_memory_region) : Z :=
  Z.min (region_base r + region_length r) DIRECT_MAP_BYTES.

(** Page [p] lies inside a usable region and inside the direct map window. *)
Definition usable_page (regions : list boot_memory_region) (p : Z) : Prop :=
  exists r, r ∈ regions /\ region_usable r <> 0 /\
    region_base r <= p * PMM_PAGE_SIZE /\ (p + 1) * PMM_PAGE_SIZE <= region_top r.

Lemma survey_ok regions : Forall region_ok regions ->
  0 <= (survey regions).1 <= DIRECT_MAP_BYTES /\
  forall r, r ∈ regions -> region_base r < region_top r -> region_top r <= (survey regions).1.
Proof.
  unfold survey. intros Hok.
  assert (forall acc : Z * Z, 0 <= acc.1 <= DIRECT_MAP_BYTES ->
    acc.1 <= (fold_left survey_region regions acc).1 <= DIRECT_MAP_BYTES /\
    forall r, r ∈ regions -> region_base r < region_top r ->
      region_top r <= (fold_left survey_region regions acc).1) as H.
  { induction Hok as [|r rest [Hb [Hl Hw]] Hrest IH]; intros acc Hacc; simpl.
    { split; [lia|]. intros r Hr. by apply elem_of_nil in Hr. }
    assert (acc.1 <= (survey_region acc r).1 <= DIRECT_MAP_BYTES /\
      (region_base r < region_top r -> region_top r <= (survey_region acc r).1)) as [H1 H2].
    { unfold survey_region, region_top in *. destruct acc as [h u]. simpl in *.
      unfold PMM_PAGE_SIZE in *. rewrite (u64_small (_ + _)) by lia.
      repeat (case_cmp; simpl; try lia). }
    destruct (IH (survey_region acc r)) as [H3 H4]; [lia|].
    split; [lia|]. intros r' Hr' Hlt. apply elem_of_cons in Hr' as [->|Hr']; [|by apply H4].
    specialize (H2 Hlt). lia. }
  specialize (H (0, 0)). cbn [fst] in H. apply H. unfold DIRECT_MAP_BYTES. lia.
Qed.

Lemma survey_pos regions : Forall region_ok regions ->
  (survey regions).2 <> 0 -> 0 < (survey regions).1.
Proof.
  unfold survey. intros Hok.
  assert (forall acc : Z * Z, 0 <= acc.1 -> (acc.2 <> 0 -> 0 < acc.1) ->
    (fold_left survey_region regions acc).2 <> 0 ->
    0 < (fold_left survey_region regions acc).1) as H.
  { induction Hok as [|r rest (Hb & Hl & Hw) Hrest IH]; intros [h u] H0 Hacc; simpl in *; [done|].
    apply IH; unfold survey_region; unfold DIRECT_MAP_BYTES; repeat (case_cmp; simpl; try done; try lia). }
  by apply (H (0, 0)).
Qed.

(** A usable region has [tbytes] bytes of whole pages above the low reserve. *)
Definition fits (total tbytes : Z) (r : boot_memory_region) : Prop :=
  region_usable r <> 0 /\
  Z.max (page_up (region_base r)) PMM_LOW_MEMORY_RESERVE + tbytes <=
  Z.min (page_down (region_base r + region_length r)) (total * PMM_PAGE_SIZE).

Lemma place_tracking_ok total tbytes regions :
  Forall region_ok regions -> 0 < total <= DIRECT_MAP_BYTES / PMM_PAGE_SIZE ->
  0 < tbytes < 2 ^ 62 -> (PMM_PAGE_SIZE | tbytes) ->
  let r := place_tracking total tbytes regions in
  (r = 0 /\ forall g, g ∈ regions -> ~ fits total tbytes g) \/
  (PMM_LOW_MEMORY_RESERVE <= r /\ r + tbytes <= total * PMM_PAGE_SIZE /\ (PMM_PAGE_SIZE | r) /\
   exists g, g ∈ regions /\ region_usable g <> 0 /\
     region_base g <= r /\ r + tbytes <= region_base g + region_length g).
Proof.
  rewrite max_pages. intros Hok Ht Htb Hdiv. unfold place_tracking.
  match goal with |- context [fold_left ?f regions 0] => set (F := f) end.
  set (Good := fun (gs : list boot_memory_region) r =>
    PMM_LOW_MEMORY_RESERVE <= r /\ r + tbytes <= total * PMM_PAGE_SIZE /\ (PMM_PAGE_SIZE | r) /\
    exists g, g ∈ gs /\ region_usable g <> 0 /\
      region_base g <= r /\ r + tbytes <= region_base g + region_length g).
  assert (forall gs best seen, Forall region_ok gs ->
    (best = 0 /\ (forall g, g ∈ seen -> ~ fits total tbytes g)) \/ Good seen best ->
    (fold_left F gs best = 0 /\ (forall g, g ∈ seen ++ gs -> ~ fits total tbytes g)) \/
    Good (seen ++ gs) (fold_left F gs best)) as H.
  2:{ apply (H regions 0 []); [done|]. left. split; [done|]. intros g Hg. by apply elem_of_nil in Hg. }
  induction gs as [|g gs IH]; intros best seen Hgs Hb; simpl.
  { by rewrite app_nil_r. }
  apply Forall_cons_1 in Hgs as [(Hg1 & Hg2 & Hg3) Hgs].
  replace (seen ++ g :: gs) with ((seen ++ [g]) ++ gs) by (rewrite <- app_assoc; done).
  apply IH; [done|]. clear IH.
  destruct (page_up_ok (region_base g)) as [Hu1 Hu2]; [lia|].
  destruct (page_down_ok (region_base g + region_length g)) as [Hd1 Hd2]; [unfold PMM_PAGE_SIZE in *; lia|].
  assert (Good seen best -> Good (seen ++ [g]) best) as Hmono.
  { intros (? & ? & ? & g' & ? & ?). split_and!; try done. exists g'.
    split; [apply elem_of_app; by left|done]. }
  unfold F. unfold PMM_PAGE_SIZE, PMM_LOW_MEMORY_RESERVE in *.
  rewrite (u64_small (region_base g + _)), (u64_small (total * _)) by lia.
  set (st := page_up (region_base g)) in *.
  set (en := page_down (region_base g + region_length g)) in *.
  destruct (Z.eqb_spec (region_usable g) 0) as [E|E].
  { destruct Hb as [[-> Hno]|Hb]; [left|right; by apply Hmono]. split; [done|].
    intros g' Hg'. apply elem_of_app in Hg' as [?|Hg']; [by apply Hno|].
    apply list_elem_of_singleton in Hg' as ->. by intros [? _]. }
  set (start := if st <? 0x100000 then 0x100000 else st).
  set (end_ := if total * 4096 <? en then total * 4096 else en).
  assert (start = Z.max st 0x100000) as Es by (unfold start; case_cmp; lia).
  assert (end_ = Z.min en (total * 4096)) as Ee by (unfold end_; case_cmp; lia).
  assert ((4096 | end_)) as Hed by (unfold end_; case_cmp; [by exists total|done]).
  destruct ((end_ <=? start) || (u64 (end_ - start) <? tbytes)) eqn:Ec.
  - assert (~ fits total tbytes g) as Hnf.
    { intros [_ Hf]. unfold PMM_PAGE_SIZE, PMM_LOW_MEMORY_RESERVE in Hf. fold st en in Hf.
      rewrite <- Es, <- Ee in Hf. rewrite u64_small in Ec by lia. lia. }
    destruct Hb as [[-> Hno]|Hb]; [left|right; by apply Hmono]. split; [done|].
    intros g' Hg'. apply elem_of_app in Hg' as [?|Hg']; [by apply Hno|].
    by apply list_elem_of_singleton in Hg' as ->.
  - destruct (Z.ltb_spec end_ start); [lia|]. rewrite (u64_small (end_ - start)) in Ec by lia.
    rewrite (u64_small (end_ - tbytes)) by lia. right.
    assert (Good (seen ++ [g]) (end_ - tbytes)) as Hnew.
    { unfold Good, PMM_PAGE_SIZE, PMM_LOW_MEMORY_RESERVE. split_and!; try lia.
      - by apply Z.divide_sub_r.
      - exists g. split; [apply elem_of_app; right; by apply list_elem_of_singleton|].
        split; [done|]. lia. }
    destruct Hb as [[-> Hno]|Hb]; [rewrite (proj2 (Z.ltb_lt 0 _)) by lia; done|].
    case_cmp; [done|by apply Hmono].
Qed.

Section boot.
Context (tp tb : Z).

(** [boot T f g t]: during initialisation [t] tracks [T] pages with the arrays
    at [tp], [f] says which are set in the bitmap, [g] is the counters, and the
    counter of free pages is exact. *)
Record boot (T : Z) (f : Z -> bool) (g : Z -> Z) (t : pmm) : Prop := {
  boot_shape : shape t;
  boot_total : total_pages t = T;
  boot_busy : forall q, 0 <= q < T -> busy t q = f q;
  boot_refc : forall q, 0 <= q < T -> refc t q = g q;
  boot_free : free_pages t = countb (fun q => negb (f q)) (Z.to_nat T);
  boot_tracking : tracking_physical t = tp /\ tracking_bytes t = tb
}.

Lemma boot_ext T f f' g g' t :
  (forall q, 0 <= q < T -> f q = f' q) -> (forall q, 0 <= q < T -> g q = g' q) ->
  boot T f g t -> boot T f' g' t.
Proof.
  intros Hf Hg [Hs Ht Hb Hr Hc Htr]. pose proof (shape_total _ Hs).
  split; try done; intros.
  - by rewrite Hb, Hf.
  - by rewrite Hr, Hg.
  - rewrite Hc. apply countb_ext. intros. by rewrite Hf by lia.
Qed.

(** Setting or clearing one bit together with the free-page counter. *)
Lemma boot_put T f g t p b :
  boot T f g t -> 0 <= p < T -> f p = negb b ->
  boot T (fun q => if decide (q = p) then b else f q) g
    (set_free_pages (put_bit t p b) (u64 (free_pages t + (if b then -1 else 1)))).
Proof.
  intros [Hs Ht Hb Hr Hc Htr] Hp Hf. pose proof (shape_total _ Hs) as Htot. rewrite max_pages in Htot.
  assert (free_pages t + (if b then -1 else 1) =
    countb (fun q => negb (if decide (q = p) then b else f q)) (Z.to_nat T)) as Hcount.
  { rewrite Hc. destruct b.
    - rewrite (countb_flip (fun q => negb (if decide (q = p) then true else f q))
        (fun q => negb (f q)) _ p); [lia|lia|..].
      + by rewrite decide_True.
      + by rewrite Hf.
      + intros. by rewrite decide_False.
    - symmetry. apply (countb_flip _ _ _ p); [lia|..].
      + by rewrite Hf.
      + by rewrite decide_True.
      + intros. by rewrite decide_False. }
  pose proof (countb_bound (fun q => negb (if decide (q = p) then b else f q)) (Z.to_nat T)).
  rewrite u64_small by lia. split; simpl; try done.
  - eapply shape_same; [by apply (shape_put_bit t Hs p b)|done..].
  - intros q Hq. change (busy (put_bit t p b) q = if decide (q = p) then b else f q).
    rewrite (busy_put_bit _ Hs) by lia. case_decide; [done|by apply Hb].
Qed.

Lemma boot_put_same T f g t p b :
  boot T f g t -> f p = b -> boot T (fun q => if decide (q = p) then b else f q) g t.
Proof. intros Ht Hf. eapply boot_ext; [..|done]; [|done]. intros. by case_decide; subst. Qed.

Lemma reserve_page_ok T f g t p :
  boot T f g t -> 0 <= p < T ->
  returns (reserve_page p t) (boot T (fun q => if decide (q = p) then true else f q) g).
Proof.
  intros Hb Hp. pose proof Hb as [Hs Ht Hbu _ _ _]. unfold reserve_page.
  rewrite Ht, (proj2 (Z.ltb_lt _ _)) by lia. rewrite (bit_test_ok _ Hs), bind_ret by lia.
  rewrite Hbu by done. destruct (f p) eqn:Hf; [by apply boot_put_same|].
  rewrite (bit_set_ok _ Hs), bind_ret by lia. by apply (boot_put T f g t p true).
Qed.

Lemma release_boot_page_ok T f g t p :
  boot T f g t -> 0 <= p < T ->
  returns (release_boot_page (p * PMM_PAGE_SIZE) t)
    (boot T (fun q => if decide (q = p) then false else f q) g).
Proof.
  intros Hb Hp. pose proof Hb as [Hs Ht Hbu _ _ _]. unfold release_boot_page.
  rewrite Z.div_mul by done. rewrite Ht, (proj2 (Z.ltb_lt _ _)) by lia.
  rewrite (bit_test_ok _ Hs), bind_ret by lia. rewrite Hbu by done.
  destruct (f p) eqn:Hf; [|by apply boot_put_same].
  rewrite (bit_clear_ok _ Hs), bind_ret by lia. by apply (boot_put T f g t p false).
Qed.

(** The pages [release_region] frees. *)
Definition region_end (highest : Z) (r : boot_memory_region) : Z :=
  let e := page_down (u64 (region_base r + region_length r)) in
  if highest <? e then page_down highest else e.
Definition region_pages (highest : Z) (r : boot_memory_region) (p : Z) : bool :=
  negb (region_usable r =? 0) && (page_up (region_base r) <=? p * PMM_PAGE_SIZE)
  && (p * PMM_PAGE_SIZE <? region_end highest r).

Lemma release_region_ok highest r T f g t :
  region_ok r -> 0 <= highest < 2 ^ 63 -> T = (highest + PMM_PAGE_SIZE - 1) / PMM_PAGE_SIZE ->
  boot T f g t ->
  returns (release_region highest r t) (boot T (fun q => f q && negb (region_pages highest r q)) g).
Proof.
  intros (Hr1 & Hr2 & Hr3) Hh HT Hb. unfold release_region, region_pages.
  destruct (Z.eqb_spec (region_usable r) 0) as [E|E]; cbn [negb andb].
  { eapply boot_ext; [..|done]; [|done]. intros. by rewrite andb_true_r. }
  fold (region_end highest r).
  destruct (page_up_ok (region_base r)) as [Hu1 Hu2]; [lia|].
  assert ((PMM_PAGE_SIZE | region_end highest r) /\ region_end highest r <= highest) as [Hd1 Hd2].
  { unfold region_end. pose proof (page_down_ok highest ltac:(lia)).
    pose proof (page_down_ok (u64 (region_base r + region_length r)) (u64_bound _)). case_cmp; lia || tauto. }
  eapply returns_mono.
  { apply (for_range_rule_mul (fun i => boot T (fun q => f q &&
      negb ((page_up (region_base r) <=? q * PMM_PAGE_SIZE) && (q * PMM_PAGE_SIZE <? i))) g)
      (page_up (region_base r)) (region_end highest r)); [done|done|done|..].
    - eapply boot_ext; [..|done]; [|done]. intros q Hq. cbn beta.
      destruct (Z.leb_spec (page_up (region_base r)) (q * PMM_PAGE_SIZE)),
        (Z.ltb_spec (q * PMM_PAGE_SIZE) (page_up (region_base r))); simpl; rewrite ?andb_true_r; done || lia.
    - intros i t' Hi [p ->] Ht'. unfold PMM_PAGE_SIZE in *.
      assert (0 <= p < T).
      { split; [lia|]. subst T.
        pose proof (Z.div_mod (highest + 4096 - 1) 4096 ltac:(lia)).
        pose proof (Z.mod_pos_bound (highest + 4096 - 1) 4096 ltac:(lia)). lia. }
      eapply returns_mono; [exact (release_boot_page_ok T _ g t' p Ht' ltac:(done))|].
      intros t'' Ht''. eapply boot_ext; [..|exact Ht'']; [|done]. intros q Hq. cbn beta.
      case_decide as Hd; [subst q|].
      + rewrite (proj2 (Z.leb_le _ _)), (proj2 (Z.ltb_lt _ _)) by lia. simpl. by rewrite andb_false_r.
      + f_equal. f_equal. f_equal. destruct (Z.ltb_spec (q * 4096) (p * 4096)),
          (Z.ltb_spec (q * 4096) (p * 4096 + 4096)); done || lia. }
  intros t' Ht'. eapply boot_ext; [..|exact Ht']; [|done]. intros q Hq. cbn beta.
  f_equal. f_equal. destruct (Z.leb_spec (page_up (region_base r)) (q * PMM_PAGE_SIZE)); [|done].
  simpl. destruct (Z.ltb_spec (q * PMM_PAGE_SIZE) (region_end highest r)),
    (Z.ltb_spec (q * PMM_PAGE_SIZE) (Z.max (page_up (region_base r)) (region_end highest r))); done || lia.
Qed.

Lemma release_regions_ok highest regions T f g t :
  Forall region_ok regions -> 0 <= highest < 2 ^ 63 ->
  T = (highest + PMM_PAGE_SIZE - 1) / PMM_PAGE_SIZE -> boot T f g t ->
  returns (release_regions highest regions t)
    (boot T (fun q => f q && negb (existsb (fun r => region_pages highest r q) regions)) g).
Proof.
  intros Hok Hh HT. revert f t. induction Hok as [|r rest Hr Hrest IH]; intros f t Hb; simpl.
  { eapply boot_ext; [..|done]; [|done]. intros. by rewrite andb_true_r. }
  eapply returns_bind; [by apply release_region_ok|]. intros t1 Ht1.
  eapply returns_mono; [by apply IH|]. intros t2 Ht2. eapply boot_ext; [..|exact Ht2]; [|done].
  intros q Hq. cbn beta. by rewrite negb_orb, andb_assoc.
Qed.

Lemma region_pages_usable regions p :
  Forall region_ok regions -> 0 <= p ->
  existsb (fun r => region_pages (survey regions).1 r p) regions = true <-> usable_page regions p.
Proof.
  intros Hok Hp. destruct (survey_ok regions Hok) as [Hsb Hsm]. set (h := (survey regions).1) in *.
  assert (DIRECT_MAP_BYTES < 2 ^ 63) as Hdm by (unfold DIRECT_MAP_BYTES; lia).
  rewrite existsb_exists. unfold usable_page.
  assert (forall r, r ∈ regions -> region_pages h r p = true <->
    region_usable r <> 0 /\ region_base r <= p * PMM_PAGE_SIZE /\
    (p + 1) * PMM_PAGE_SIZE <= region_top r) as Hiff.
  { intros r Hr. pose proof (proj1 (Forall_forall _ _) Hok r) as Hrk.
    destruct Hrk as (H1 & H2 & H3); [by apply list_elem_of_In|].
    specialize (Hsm r Hr). unfold region_pages, region_end, region_top in *.
    destruct (page_up_ok (region_base r)) as [[a Ha] Hu]; [lia|].
    assert (0 <= region_base r + region_length r < 2 ^ 64) by (unfold PMM_PAGE_SIZE in *; lia).
    rewrite (u64_small (_ + _)) by lia.
    destruct (page_down_ok (region_base r + region_length r)) as [[b Hbb] Hd]; [lia|].
    destruct (page_down_ok h) as [[c Hcc] Hdh]; [lia|].
    unfold PMM_PAGE_SIZE in *. rewrite Ha, Hbb, Hcc in *.
    destruct (Z.eqb_spec (region_usable r) 0); cbn [negb andb]; [naive_solver|].
    destruct (Z.ltb_spec h (b * 4096)); rewrite andb_true_iff, Z.leb_le, Z.ltb_lt;
      (split; [intros [? ?]; split_and!; [done|lia|lia]|intros (? & ? & ?)]).
    - specialize (Hsm ltac:(lia)). lia.
    - lia. }
  split.
  - intros (r & Hr & Hrp). apply list_elem_of_In in Hr. exists r. split; [done|]. by apply Hiff.
  - intros (r & Hr & Hrp). exists r. split; [by apply list_elem_of_In|]. by apply Hiff.
Qed.

Definition tracking_page (s : pmm) (p : Z) : bool :=
  (tracking_physical s / PMM_PAGE_SIZE <=? p)
  && (p <? (tracking_physical s + tracking_bytes s) / PMM_PAGE_SIZE).

Lemma tracking_size T : 0 < T <= DIRECT_MAP_BYTES / PMM_PAGE_SIZE ->
  let bb := u64 (T + 7) / 8 in
  let ro := Z.land (u64 (bb + 63)) (u64 (Z.lnot 63)) in
  let tbytes := page_up (u64 (ro + u64 (T * 4))) in
  bb = (T + 7) / 8 /\ 0 < tbytes < 2 ^ 62 /\ (PMM_PAGE_SIZE | tbytes).
Proof.
  rewrite max_pages. intros HT. cbv zeta. rewrite (u64_small (T + 7)) by lia.
  assert (0 <= (T + 7) / 8 < 2 ^ 40) as Hbb.
  { split; [apply Z.div_pos; lia|apply Z.div_lt_upper_bound; lia]. }
  split; [done|]. set (ro := Z.land (u64 ((T + 7) / 8 + 63)) (u64 (Z.lnot 63))).
  assert (0 <= ro < 2 ^ 41) as Hro.
  { unfold ro. rewrite (u64_small (_ + 63)) by lia. apply land_bound; lia. }
  rewrite (u64_small (T * 4)), (u64_small (ro + T * 4)) by lia.
  destruct (page_up_ok (ro + T * 4)) as [? ?]; unfold PMM_PAGE_SIZE in *; [lia|]. split; [lia|done].
Qed.

Lemma boot_start T f g :
  0 < T <= DIRECT_MAP_BYTES / PMM_PAGE_SIZE ->
  (forall q, f q = true) -> (forall q, g q = 0) -> forall up ro bse,
  boot T f g (Pmm (replicate (Z.to_nat ((T + 7) / 8)) 0xFF) (replicate (Z.to_nat T) 0)
                T up 0 0 tp tb ro bse).
Proof.
  intros HT Hf Hg up ro bse. pose proof (Z.div_pos (T + 7) 8 ltac:(lia) ltac:(lia)).
  split; simpl; try done.
  - split; simpl; try done; rewrite ?length_replicate; try lia.
    apply Forall_replicate. lia.
  - intros q Hq. rewrite Hf. unfold busy, bitat. simpl.
    rewrite lookup_total_replicate_2.
    + pose proof (Z.mod_pos_bound q 8 ltac:(lia)) as Hm. set (m := q mod 8) in *.
      change 0xFF with (Z.ones 8). apply Z.ones_spec_low. lia.
    + pose proof (Z.div_mod (T + 7) 8 ltac:(lia)). pose proof (Z.mod_pos_bound (T + 7) 8 ltac:(lia)).
      pose proof (Z.div_mod q 8 ltac:(lia)). pose proof (Z.mod_pos_bound q 8 ltac:(lia)). lia.
  - intros q Hq. rewrite Hg. unfold refc. simpl. apply lookup_total_replicate_2. lia.
  - assert (forall n, countb (fun q => negb (f q)) n = 0) as ->; [|done].
    intros n. induction n; simpl; [done|]. rewrite Hf. simpl. lia.
Qed.

(** What [pmm_init] leaves behind: the pages of the tracking arrays are held
    once, memory below 1 MiB and memory outside every usable region is
    reserved, every other page is free. *)
Definition init_post (regions : list boot_memory_region) (out : res pmm) : Prop :=
  match out with
  | Ret s => pmm_inv s /\
      (exists g, g ∈ regions /\ region_usable g <> 0 /\ region_base g <= tracking_physical s /\
         tracking_physical s + tracking_bytes s <= region_base g + region_length g) /\
      (forall p, 0 <= p < total_pages s ->
         (tracking_page s p = true -> page_state s p = Some 1) /\
         (tracking_page s p = false ->
            (page_state s p = None <->
               PMM_LOW_MEMORY_RESERVE <= p * PMM_PAGE_SIZE /\ usable_page regions p) /\
            (page_state s p <> None -> page_state s p = Some 0))) /\
      forall p, usable_page regions p -> p < total_pages s
  | Panic why =>
      (why = "PMM: insufficient usable memory"%string /\ (survey regions).2 < 2 * 1024 * 1024) \/
      (why = "PMM: no room for page tracking"%string /\
       exists total tbytes, forall g, g ∈ regions -> ~ fits total tbytes g)
  | Fault => False
  end.

Lemma usable_page_bound regions p :
  Forall region_ok regions -> 0 <= p -> usable_page regions p ->
  p < ((survey regions).1 + PMM_PAGE_SIZE - 1) / PMM_PAGE_SIZE.
Proof.
  intros Hok Hp (r & Hr & _ & Hb & Ht). destruct (survey_ok regions Hok) as [_ Hm].
  specialize (Hm r Hr). unfold PMM_PAGE_SIZE in *.
  pose proof (Z.div_mod ((survey regions).1 + 4096 - 1) 4096 ltac:(lia)).
  pose proof (Z.mod_pos_bound ((survey regions).1 + 4096 - 1) 4096 ltac:(lia)). lia.
Qed.

Lemma reserve_low_ok T f g t : boot T f g t -> PMM_LOW_MEMORY_RESERVE / PMM_PAGE_SIZE <= T ->
  returns (for_range 0 (PMM_LOW_MEMORY_RESERVE / PMM_PAGE_SIZE) 1 reserve_page t)
    (boot T (fun q => (q <? PMM_LOW_MEMORY_RESERVE / PMM_PAGE_SIZE) || f q) g).
Proof.
  intros Hb HT. set (L := PMM_LOW_MEMORY_RESERVE / PMM_PAGE_SIZE) in *.
  apply (for_range_rule (fun i => boot T (fun q => (q <? i) || f q) g) 0 L);
    [by vm_compute|..].
  - eapply boot_ext; [..|done]; [|done]. intros q Hq. cbn beta.
    by rewrite (proj2 (Z.ltb_ge _ _)) by lia.
  - intros i t' Hi Ht'. eapply returns_mono; [exact (reserve_page_ok T _ g t' i Ht' ltac:(lia))|].
    intros t'' Ht''. eapply boot_ext; [..|exact Ht'']; [|done]. intros q Hq. cbn beta.
    case_decide; [subst; by rewrite (proj2 (Z.ltb_lt _ _)) by lia|].
    f_equal. repeat case_cmp; done || lia.
Qed.

Lemma reserve_tracking_ok T f t lo hi : 0 <= lo <= hi -> hi <= T ->
  boot T f (fun _ => 0) t ->
  returns (for_range lo hi 1 (fun page s => s' ← reserve_page page s; write_refcount s' page 1) t)
    (boot T (fun q => ((lo <=? q) && (q <? hi)) || f q)
            (fun q => if (lo <=? q) && (q <? hi) then 1 else 0)).
Proof.
  intros Hlo Hhi Hb.
  apply (for_range_rule (fun i => boot T (fun q => ((lo <=? q) && (q <? i)) || f q)
            (fun q => if (lo <=? q) && (q <? i) then 1 else 0)) lo hi); [lia|..].
  - eapply boot_ext; [..|done]; intros q Hq; cbn beta; repeat case_cmp; done || lia.
  - intros i t' Hi Ht'. eapply returns_bind;
      [exact (reserve_page_ok T _ _ t' i Ht' ltac:(lia))|].
    intros t'' [Hs Htt Hbu Hre Hfr Htr]. rewrite (write_refcount_ok _ Hs) by lia. cbn [returns].
    assert (forall q, 0 <= q < T ->
      (if decide (q = i) then true else (lo <=? q) && (q <? i) || f q) =
      (lo <=? q) && (q <? i + 1) || f q) as Hfun.
    { intros q Hq. case_decide; [subst|]; repeat case_cmp; done || lia. }
    split.
    + by apply shape_put_ref.
    + done.
    + intros q Hq. change (busy (put_ref t'' i 1) q) with (busy t'' q). by rewrite Hbu, Hfun.
    + intros q Hq. rewrite (refc_put_ref _ Hs), Hre by lia.
      case_decide; [subst|]; repeat case_cmp; done || lia.
    + simpl. rewrite Hfr. apply countb_ext. intros. by rewrite Hfun by lia.
    + done.
Qed.

End boot.

Lemma init_post_ok regions hhdm : Forall region_ok regions ->
  init_post regions (pmm_init regions hhdm).
Proof.
  intros Hok. destruct (survey_ok regions Hok) as [Hh _]. unfold pmm_init.
  pose proof (region_pages_usable regions) as Hrp. pose proof (usable_page_bound regions) as Hub.
  destruct (survey regions) as [highest ub] eqn:Esv. cbn [fst] in *.
  destruct (Z.ltb_spec ub (2 * 1024 * 1024)) as [Hlt|Hge]; [cbn [init_post]; left; by rewrite Esv|].
  assert (DIRECT_MAP_BYTES < 2 ^ 46) as Hdm by (unfold DIRECT_MAP_BYTES; lia).
  rewrite (u64_small (highest + _ - 1)) by (unfold PMM_PAGE_SIZE; lia).
  set (T := (highest + PMM_PAGE_SIZE - 1) / PMM_PAGE_SIZE) in *.
  assert (0 < highest) as Hpos by (pose proof (survey_pos regions Hok) as H; rewrite Esv in H; apply H; simpl; lia).
  assert (0 < T <= DIRECT_MAP_BYTES / PMM_PAGE_SIZE) as HT.
  { rewrite max_pages. unfold T, DIRECT_MAP_BYTES, PMM_PAGE_SIZE in *. dlia. }
  destruct (tracking_size T HT) as (Ebb & Htb & Hdiv). rewrite Ebb in *.
  set (ro := Z.land _ _) in *. set (tb := page_up _) in *.
  destruct (place_tracking_ok T tb regions Hok HT Htb Hdiv) as [[-> Hno]|(Hlow & Hend & Htd & g & Hg)].
  { simpl. right. split; [done|]. by exists T, tb. }
  set (tp := place_tracking T tb regions) in *.
  destruct (Z.eqb_spec tp 0) as [E0|_]; [unfold PMM_LOW_MEMORY_RESERVE in *; lia|].
  pose proof max_pages as Hmax. rewrite Hmax in HT.
  pose proof (boot_start tp tb T (fun _ => true) (fun _ => 0) ltac:(lia)
    (fun _ => eq_refl) (fun _ => eq_refl) 0 ro hhdm) as Hb0.
  match goal with |- context [release_regions _ _ ?s0] => set (s00 := s0) in * end.
  pose proof (release_regions_ok tp tb highest regions T _ _ s00 Hok ltac:(lia) eq_refl Hb0) as H1.
  apply returns_exists in H1 as (s1 & -> & Hb1). rewrite bind_ret.
  set (s2 := set_usable_pages s1 (free_pages s1)).
  assert (boot tp tb T (fun q => true && negb (existsb (fun r => region_pages highest r q) regions))
    (fun _ => 0) s2) as Hb2.
  { destruct Hb1 as [Hs ? ? ? ? ?]. split; try done. by eapply shape_same. }
  unfold PMM_LOW_MEMORY_RESERVE, PMM_PAGE_SIZE in Hlow, Hend.
  assert (PMM_LOW_MEMORY_RESERVE / PMM_PAGE_SIZE <= T) as HL
    by (change (PMM_LOW_MEMORY_RESERVE / PMM_PAGE_SIZE) with 256; lia).
  apply (reserve_low_ok tp tb) in Hb2; [|done].
  apply returns_exists in Hb2 as (s3 & -> & Hb3). rewrite bind_ret.
  rewrite (u64_small (tp + tb)) by lia.
  apply (reserve_tracking_ok tp tb T _ _ (tp / PMM_PAGE_SIZE) ((tp + tb) / PMM_PAGE_SIZE)) in Hb3;
    [|unfold PMM_PAGE_SIZE; dlia..].
  apply returns_exists in Hb3 as (s4 & -> & [Hs4 Ht4 Hbu Hre Hfr [Hp4 Hby4]]). rewrite bind_ret.
  cbn [init_post]. set (sF := set_next_hint s4 _).
  assert (forall q, busy sF q = busy s4 q) as Hbf by done.
  assert (forall q, refc sF q = refc s4 q) as Hrf by done.
  assert (forall q, tracking_page sF q =
    ((tp / PMM_PAGE_SIZE <=? q) && (q <? (tp + tb) / PMM_PAGE_SIZE))) as Htp.
  { intros q. unfold tracking_page. cbn [sF set_next_hint tracking_physical tracking_bytes].
    by rewrite Hp4, Hby4. }
  assert (total_pages sF = T) as HtF by done.
  split; [split|].
  - by eapply shape_same.
  - rewrite HtF. simpl. change (0 <= 256 <= T). change (256 <= T) in HL. lia.
  - rewrite HtF. simpl. rewrite Hfr. apply countb_ext. intros q Hq. rewrite Hbf, Hbu by lia. done.
  - rewrite HtF. intros q Hq. rewrite Hrf, Hre by lia. case_match; lia.
  - rewrite HtF. intros q Hq. rewrite Hbf, Hbu, Hrf, Hre by lia. by case_match.
  - rewrite Hbf, Hbu by lia. cbn beta. change (0 <? PMM_LOW_MEMORY_RESERVE / PMM_PAGE_SIZE) with true.
    cbn [orb]. by rewrite orb_true_r.
  - split; [|split].
    + exists g. simpl. rewrite Hp4, Hby4. tauto.
    + rewrite HtF. intros q Hq. rewrite Htp. unfold page_state.
      rewrite Hbf, Hbu, Hrf, Hre by lia. cbn beta.
      destruct ((tp / PMM_PAGE_SIZE <=? q) && (q <? (tp + tb) / PMM_PAGE_SIZE)); [done|].
      split; [done|]. intros _. change (PMM_LOW_MEMORY_RESERVE / PMM_PAGE_SIZE) with 256.
      specialize (Hrp q Hok ltac:(lia)).
      destruct (existsb (fun r => region_pages highest r q) regions) eqn:Ex; simpl.
      * destruct (Z.ltb_spec q 256); simpl;
          (split; [split; [intros ?|intros [? ?]]|]; try done).
        -- unfold PMM_LOW_MEMORY_RESERVE, PMM_PAGE_SIZE in *. lia.
        -- split; [unfold PMM_LOW_MEMORY_RESERVE, PMM_PAGE_SIZE; lia|]. by apply Hrp.
      * rewrite orb_true_r. split; [split; [done|]|done]. intros [_ Hu]. by apply Hrp in Hu.
    + rewrite HtF. intros q Hu. destruct (Z.ltb_spec q 0); [lia|]. by apply Hub.
Qed.

(** ** Reachable states *)

Inductive pmm_step (s : pmm) : pmm -> Prop :=
  | step_alloc r s' : pmm_alloc_page s = Ret (r, s') -> pmm_step s s'
  | step_alloc_run count alignment limit r s' :
      0 <= count < 2 ^ 64 -> 0 <= alignment < 2 ^ 64 -> 0 <= limit < 2 ^ 64 ->
      pmm_alloc_pages_below count alignment limit s = Ret (r, s') -> pmm_step s s'
  | step_free address s' :
      0 <= address < 2 ^ 64 -> pmm_free_page address s = Ret s' -> pmm_step s s'
  | step_free_run physical count s' :
      pmm_free_pages physical count s = Ret s' -> pmm_step s s'
  | step_ref physical r s' :
      0 <= physical < 2 ^ 64 -> pmm_page_ref physical s = Ret (r, s') -> pmm_step s s'
  | step_release physical len r s' :
      PMM_PAGE_SIZE <= physical -> 0 < len -> physical + len + PMM_PAGE_SIZE <= 2 ^ 64 ->
      pmm_release_reserved physical len s = Ret (r, s') -> pmm_step s s'
  | step_direct_map virtual_base : pmm_step s (pmm_use_direct_map virtual_base s).

Lemma for_steps_ret {S} (P : S -> Prop) n i step body (s s' : S) :
  (forall k s s', P s -> body k s = Ret s' -> P s') -> P s ->
  for_steps n i step body s = Ret s' -> P s'.
Proof.
  intros Hb. revert i s. induction n as [|n IH]; intros i s HP; cbn [for_steps]; [congruence|].
  destruct (body i s) as [s1|why|] eqn:E; cbn; try done. eauto.
Qed.

Lemma returns_ret {A} (r : res A) (P : A -> Prop) a : returns r P -> r = Ret a -> P a.
Proof. by intros H ->. Qed.

Lemma inv_direct_map s b : pmm_inv s -> pmm_inv (pmm_use_direct_map b s).
Proof. intros [Hs ? ? ? ? ?]. split; try done. by eapply shape_same. Qed.

Lemma pmm_step_inv s s' : pmm_inv s -> pmm_step s s' -> pmm_inv s'.
Proof.
  intros Hi Hst.
  destruct Hst as [r s' E|c a l r s' Hc Ha Hl E|a s' Ha E|ph c s' E|ph r s' Hp E|ph l r s' H1 H2 H3 E|b].
  - by apply (returns_ret _ _ _ (alloc_page_post_ok s Hi)) in E as [? _].
  - by apply (returns_ret _ _ _ (alloc_pages_post_ok s c a l Hi Hc Ha Hl)) in E as [? _].
  - pose proof (free_page_post_ok s a Hi Ha) as Hp. rewrite E in Hp. by destruct Hp.
  - unfold pmm_free_pages in E. destruct (_ || _); [congruence|].
    eapply for_steps_ret; [|exact Hi|exact E]. intros k t t' Ht Et. cbn beta in Et.
    pose proof (free_page_post_ok t _ Ht (u64_bound (ph + u64 (k * PMM_PAGE_SIZE)))) as Hp.
    unfold pmm_free_page in Hp. rewrite Et in Hp. by destruct Hp.
  - by apply (returns_ret _ _ _ (page_ref_post_ok s ph Hi Hp)) in E as [? _].
  - by apply (returns_ret _ _ _ (release_reserved_ok s ph l Hi H1 H2 H3)) in E as [? _].
  - by apply inv_direct_map.
Qed.

Lemma pmm_steps_inv s s' : pmm_inv s -> rtc pmm_step s s' -> pmm_inv s'.
Proof. intros Hi Hr. induction Hr; [done|]. eauto using pmm_step_inv. Qed.

(** An executable test that implies the invariant. *)
Definition pmm_invb (s : pmm) : bool :=
  let pages := seqZ 0 (total_pages s) in
  (0 <? total_pages s) && (total_pages s <=? DIRECT_MAP_BYTES / PMM_PAGE_SIZE)
  && (Z.of_nat (length (bitmap s)) =? (total_pages s + 7) / 8)
  && forallb (fun b => (0 <=? b) && (b <? 2 ^ 8)) (bitmap s)
  && (Z.of_nat (length (refcounts s)) =? total_pages s)
  && (0 <=? next_hint s) && (next_hint s <=? total_pages s)
  && (free_pages s =? countb (fun p => negb (busy s p)) (Z.to_nat (total_pages s)))
  && forallb (fun p => (0 <=? refc s p) && (refc s p <? 2 ^ 32) && (busy s p || (refc s p =? 0))) pages
  && busy s 0.

Lemma pmm_invb_sound s : pmm_invb s = true -> pmm_inv s.
Proof.
  unfold pmm_invb. rewrite !andb_true_iff, !forallb_forall.
  intros [[[[[[[[[H1 H2] H3] H4] H5] H6] H7] H8] H9] H10].
  assert (forall p, 0 <= p < total_pages s -> 0 <= refc s p < 2 ^ 32 /\ (busy s p = false -> refc s p = 0)) as Hp.
  { intros p Hp. specialize (H9 p). rewrite <- list_elem_of_In, elem_of_seqZ in H9.
    specialize (H9 ltac:(lia)). destruct (busy s p); simpl in H9; split; try done; lia. }
  split; [split; [lia|lia| |lia]|lia|lia| | |exact H10].
  - apply Forall_forall. intros b Hb. specialize (H4 b Hb). lia.
  - intros p Hpr. by apply Hp.
  - intros p Hpr. by apply Hp.
Qed.

(** ** Properties *)


Definition demo_map : list boot_memory_region :=
  [Region 0 0xA0000 1; Region 0xA0000 0x60000 0; Region 0x100000 0x300000 1].


(** C35. [pmm_alloc_page] never panics and never reads outside its arrays: it
    returns NULL exactly when no page is free, otherwise the address of a page
    that was free, is now held once, and is not page 0; no other page changes. *)
Theorem pmm_alloc_page_correct s :
  pmm_inv s -> returns (pmm_alloc_page s) (alloc_page_post s).
Proof. apply alloc_page_post_ok. Qed.

Definition demo_pmm : pmm :=
  Pmm [0x45; 0xFF] [0; 0; 3; 0; 0; 0; 1; 0; 0; 0; 0; 0] 12 5 5 7 0 0 0 0.

Lemma pmm_alloc_page_correct_witness :
  returns (pmm_alloc_page demo_pmm) (alloc_page_post demo_pmm) /\
  exists s, pmm_alloc_page demo_pmm = Ret (7 * 4096, s) /\ page_state s 7 = Some 1.
Proof.
  split.
  - apply pmm_alloc_page_correct, pmm_invb_sound. vm_compute. reflexivity.
  - eexists. split; [vm_compute; reflexivity|reflexivity].
Defined.



(** [pmm_free_page] drops one reference and frees the page with the last
    one, leaving every other page alone; it panics exactly on an address that
    is misaligned or unmanaged, or on a page that is already free. *)
Theorem pmm_free_page_correct s address :
  pmm_inv s -> 0 <= address < 2 ^ 64 -> free_page_post s address (pmm_free_page address s).
Proof. apply free_page_post_ok. Qed.

Lemma pmm_free_page_correct_witness :
  free_page_post demo_pmm (2 * 4096) (pmm_free_page (2 * 4096) demo_pmm) /\
  (exists s, pmm_free_page (2 * 4096) demo_pmm = Ret s /\ page_state s 2 = Some 2) /\
  pmm_free_page (3 * 4096) demo_pmm = Panic "PMM: double free".
Proof.
  split; [|split].
  - apply pmm_free_page_correct; [apply pmm_invb_sound; vm_compute; reflexivity|lia].
  - eexists. split; [vm_compute; reflexivity|reflexivity].
  - vm_compute. reflexivity.
Defined.

(** Round trip: giving a run back with [pmm_free_pages] after
    [pmm_alloc_pages_below] restores the state of every page and the number of
    free pages. *)
Theorem pmm_run_roundtrip s count alignment limit r s1 :
  pmm_inv s -> 0 <= count < 2 ^ 64 -> 0 <= alignment < 2 ^ 64 -> 0 <= limit < 2 ^ 64 ->
  pmm_alloc_pages_below count alignment limit s = Ret (r, s1) ->
  returns (pmm_free_pages r count s1) (fun s2 =>
    free_pages s2 = free_pages s /\
    forall q, 0 <= q < total_pages s -> page_state s2 q = page_state s q).
Proof.
  intros Hi Hc Ha Hl E.
  apply (returns_ret _ _ _ (alloc_pages_post_ok s count alignment limit Hi Hc Ha Hl)) in E
    as (Hi1 & Ht1 & [(-> & -> & _)|(first & Hf & -> & _ & _ & [Hle Hrun] & Hq)]).
  { done. }
  eapply returns_mono; [apply (free_pages_ok s1 first count Hi1); [done|lia|lia|]|].
  - intros q Hqr. rewrite Hq, decide_True by lia. done.
  - intros s2 (Hi2 & Ht2 & Hq2). rewrite Ht1 in Hq2.
    assert (forall q, 0 <= q < total_pages s -> page_state s2 q = page_state s q) as Hsame.
    { intros q Hqr. rewrite Hq2, Hq by done. case_decide; [|done]. by rewrite Hrun. }
    split; [|done]. apply free_pages_of_states; [done|done|congruence|done].
Qed.

Lemma pmm_run_roundtrip_witness :
  exists s1, pmm_alloc_pages_below 2 4096 0 demo_pmm = Ret (3 * 4096, s1) /\
  returns (pmm_free_pages (3 * 4096) 2 s1) (fun s2 =>
    free_pages s2 = free_pages demo_pmm /\
    forall q, 0 <= q < total_pages demo_pmm -> page_state s2 q = page_state demo_pmm q).
Proof.
  eexists. split; [vm_compute; reflexivity|].
  eapply (pmm_run_roundtrip demo_pmm 2 4096 0);
    [apply pmm_invb_sound; vm_compute; reflexivity|lia..|vm_compute; reflexivity].
Defined.

(** C23. From a booted allocator, after any sequence of allocator calls that
    returned, the invariant holds and the next [pmm_alloc_page] returns: the
    panic on a broken bitmap/free-page invariant is unreachable. *)
Theorem pmm_reachable_safe regions hhdm s0 s :
  Forall region_ok regions -> pmm_init regions hhdm = Ret s0 -> rtc pmm_step s0 s ->
  pmm_inv s /\ exists r s', pmm_alloc_page s = Ret (r, s').
Proof.
  intros Hok E Hr. pose proof (init_post_ok regions hhdm Hok) as Hp. rewrite E in Hp.
  destruct Hp as [Hi _]. pose proof (pmm_steps_inv _ _ Hi Hr) as Hs. split; [done|].
  pose proof (alloc_page_post_ok s Hs) as Ha. apply returns_exists in Ha as ([r s'] & ? & _). eauto.
Qed.

Lemma pmm_reachable_safe_witness :
  exists s0 s, pmm_init demo_map 0 = Ret s0 /\ rtc pmm_step s0 s /\ free_pages s = 765 /\
    pmm_inv s /\ exists r s', pmm_alloc_page s = Ret (r, s').
Proof.
  destruct (pmm_init demo_map 0) as [s0|why|] eqn:E; [|vm_compute in E; discriminate..].
  destruct (pmm_alloc_page s0) as [[r s]|why|] eqn:E1;
    [|vm_compute in E; injection E as <-; vm_compute in E1; discriminate..].
  exists s0, s. split; [reflexivity|]. split; [|split].
  - apply rtc_once. by eapply step_alloc.
  - vm_compute in E. injection E as <-. vm_compute in E1. injection E1 as <- <-. reflexivity.
  - apply (pmm_reachable_safe demo_map 0 s0); [|exact E|apply rtc_once; by eapply step_alloc].
    repeat constructor; vm_compute; congruence.
Defined.
