(* ===== verification/Heap.v ===== *)
(** * The kernel heap (kernel/mm/heap.c)

    The heap is a row of blocks, each a 48-byte header and its payload, from
    [HEAP_START] up to [heap_size] bytes further.  A header links its block to
    its neighbours ([next], [prev]) and, while the block is free, into the list
    of its size class ([bins]).  Pages of large free blocks are given back to
    the page allocator and mapped again when the block is used.

    Headers live in [mem], keyed by their address; [mapped] is the set of
    addresses of the heap's mapped pages, and touching a header on a page that
    is not mapped is a [Fault].  Whether a page can be had (by
    [pmm_alloc_page] and [vmm_map_page_in]) and whether one is unmapped (by
    [vmm_unmap_page_in]) are inputs, one answer per page; no operation asks
    about a page twice.  Every operation runs with [heap_lock] held and is
    atomic here.  The build without TUNIX_KASAN is the one modelled. *)

From S2P Require Import Prelude.

Definition HEAP_START : Z := 0xFFFFFF0000000000.
Definition HEAP_VIRTUAL_BYTES : Z := 0x8000000000.
Definition HEAP_INITIAL_SIZE : Z := 1024 * 1024.
Definition HEAP_FREE_PAGES_FLOOR : Z := 16384.
Definition HEAP_PAGE_SIZE : Z := 4096.
Definition HEAP_RELEASE_MIN : Z := 1024 * 1024.
Definition HEAP_PAGE_ALIGN_MIN : Z := 64 * 1024.
Definition HEAP_MAGIC : Z := 0x1234ABCD.
Definition HEAP_ALIGN : Z := 16.
Definition HEAP_BINS : Z := 64.
(** [sizeof(heap_block_t)] *)
Definition HEADER : Z := 48.

Record heap_block := HeapBlock {
  magic : Z; is_free : bool; pages_released : bool; bin : Z; size : Z;
  next : option Z; prev : option Z; free_prev : option Z; free_next : option Z }.

Definition set_size v (b : heap_block) := HeapBlock (magic b) (is_free b) (pages_released b) (bin b) v (next b) (prev b) (free_prev b) (free_next b).
Definition set_is_free v (b : heap_block) := HeapBlock (magic b) v (pages_released b) (bin b) (size b) (next b) (prev b) (free_prev b) (free_next b).
Definition set_released v (b : heap_block) := HeapBlock (magic b) (is_free b) v (bin b) (size b) (next b) (prev b) (free_prev b) (free_next b).
Definition set_next v (b : heap_block) := HeapBlock (magic b) (is_free b) (pages_released b) (bin b) (size b) v (prev b) (free_prev b) (free_next b).
Definition set_prev v (b : heap_block) := HeapBlock (magic b) (is_free b) (pages_released b) (bin b) (size b) (next b) v (free_prev b) (free_next b).
Definition set_free_prev v (b : heap_block) := HeapBlock (magic b) (is_free b) (pages_released b) (bin b) (size b) (next b) (prev b) v (free_next b).
Definition set_free_next v (b : heap_block) := HeapBlock (magic b) (is_free b) (pages_released b) (bin b) (size b) (next b) (prev b) (free_prev b) v.
Definition set_bin v (b : heap_block) := HeapBlock (magic b) (is_free b) (pages_released b) v (size b) (next b) (prev b) (free_prev b) (free_next b).

(** The static variables of the file, and the memory behind them.  [limit] is
    the one inside [heap_extent_limit]. *)
Record heap := Heap {
  mem : gmap Z heap_block; mapped : gset Z; head : option Z; tail : option Z;
  bins : list (option Z); bin_mask : Z; heap_size : Z; heap_allocated : Z; limit : Z }.

Definition set_mem v (h : heap) := Heap v (mapped h) (head h) (tail h) (bins h) (bin_mask h) (heap_size h) (heap_allocated h) (limit h).
Definition set_mapped v (h : heap) := Heap (mem h) v (head h) (tail h) (bins h) (bin_mask h) (heap_size h) (heap_allocated h) (limit h).
Definition set_tail v (h : heap) := Heap (mem h) (mapped h) (head h) v (bins h) (bin_mask h) (heap_size h) (heap_allocated h) (limit h).
Definition set_bins v m (h : heap) := Heap (mem h) (mapped h) (head h) (tail h) v m (heap_size h) (heap_allocated h) (limit h).
Definition set_heap_size v (h : heap) := Heap (mem h) (mapped h) (head h) (tail h) (bins h) (bin_mask h) v (heap_allocated h) (limit h).
Definition set_allocated v (h : heap) := Heap (mem h) (mapped h) (head h) (tail h) (bins h) (bin_mask h) (heap_size h) v (limit h).
Definition set_limit v (h : heap) := Heap (mem h) (mapped h) (head h) (tail h) (bins h) (bin_mask h) (heap_size h) (heap_allocated h) v.

(** ** Touching memory *)

Definition round_down (a : Z) : Z := Z.land a (u64 (Z.lnot (HEAP_PAGE_SIZE - 1))).
Definition round_up (a : Z) : Z := round_down (u64 (a + HEAP_PAGE_SIZE - 1)).

Definition accessible (h : heap) (a : Z) : bool :=
  bool_decide (round_down a ∈ mapped h) && bool_decide (round_down (a + (HEADER - 1)) ∈ mapped h).

Definition load (h : heap) (a : Z) : res heap_block :=
  if accessible h a then
    match mem h !! a with
    | Some b => Ret b
    | None => Fault
    end
  else Fault.

Definition store (h : heap) (a : Z) (b : heap_block) : res heap :=
  if accessible h a then Ret (set_mem (<[a := b]> (mem h)) h) else Fault.

(** [p->field = v] *)
Definition modify (h : heap) (a : Z) (f : heap_block -> heap_block) : res heap :=
  b ← load h a;
  store h a (f b).

Definition deref (p : option Z) : res Z :=
  match p with
  | Some a => Ret a
  | None => Fault
  end.

(** ** Size classes *)

Definition bin_of (size : Z) : Z := if size =? 0 then 0 else Z.log2 size.

Definition free_insert (h : heap) (a : Z) : res heap :=
  b ← load h a;
  let n := bin_of (size b) in
  h ← modify h a (set_bin (u16 n));
  h ← modify h a (set_free_prev None);
  first ← rd (bins h) n;
  h ← modify h a (set_free_next first);
  h ← match first with
      | Some f => modify h f (set_free_prev (Some a))
      | None => Ret h
      end;
  bs ← wr (bins h) n (Some a);
  Ret (set_bins bs (Z.lor (bin_mask h) (u64 (Z.shiftl 1 n))) h).

Definition free_remove (h : heap) (a : Z) : res heap :=
  b ← load h a;
  let n := bin b in
  h ← match free_prev b with
      | Some p => modify h p (set_free_next (free_next b))
      | None => bs ← wr (bins h) n (free_next b); Ret (set_bins bs (bin_mask h) h)
      end;
  h ← match free_next b with
      | Some q => modify h q (set_free_prev (free_prev b))
      | None => Ret h
      end;
  first ← rd (bins h) n;
  let h := match first with
           | None => set_bins (bins h) (Z.land (bin_mask h) (u64 (Z.lnot (u64 (Z.shiftl 1 n))))) h
           | Some _ => h
           end in
  h ← modify h a (set_free_prev None);
  modify h a (set_free_next None).

(** [__builtin_ctzll]: the number of trailing zero bits. *)
Fixpoint ctz_pos (p : positive) : Z :=
  match p with
  | xO p => ctz_pos p + 1
  | _ => 0
  end.
Definition ctz (z : Z) : Z :=
  match z with
  | Zpos p => ctz_pos p
  | _ => 0
  end.

Fixpoint scan_bin (h : heap) (wanted : Z) (fuel : nat) (curr : option Z) : res (option Z) :=
  match curr with
  | None => Ret None
  | Some a =>
      match fuel with
      | O => Panic "fuel"
      | S fuel =>
          b ← load h a;
          if wanted <=? size b then Ret (Some a) else scan_bin h wanted fuel (free_next b)
      end
  end.

Definition find_fit (h : heap) (size : Z) (page_aligned : bool) : res (option Z) :=
  let wanted := if page_aligned then u64 (size + HEAP_PAGE_SIZE + HEADER + HEAP_ALIGN) else size in
  let first := bin_of wanted in
  start ← rd (bins h) first;
  found ← scan_bin h wanted (base.size (mem h)) start;
  match found with
  | Some a => Ret (Some a)
  | None =>
      let larger :=
        if first + 1 <? HEAP_BINS
        then Z.land (bin_mask h) (u64 (Z.lnot (u64 (u64 (Z.shiftl 2 first) - 1)))) else 0 in
      if larger =? 0 then Ret None else rd (bins h) (ctz larger)
  end.

(** ** Start, growth *)

(** A header being written over raw memory; the free list's own fields are
    not written until [free_insert]. *)
Definition new_block (size : Z) (nx pv : option Z) : heap_block :=
  HeapBlock HEAP_MAGIC true false 0 size nx pv None None.

Definition page_run (base : Z) (n : nat) : list Z := map (fun i => base + Z.of_nat i * HEAP_PAGE_SIZE) (seq 0 n).

(** [usable]: what [pmm_usable_page_count] says. *)
Definition heap_extent_limit (usable : Z) (h : heap) : heap * Z :=
  if negb (limit h =? 0) then (h, limit h)
  else
    let ram := u64 (usable * HEAP_PAGE_SIZE) in
    let l := u64 (ram * 2) in
    let l := if l <? 2048 * 1024 * 1024 then 2048 * 1024 * 1024 else l in
    let l := if HEAP_VIRTUAL_BYTES <? l then HEAP_VIRTUAL_BYTES else l in
    (set_limit l h, l).

Definition no_heap : heap := Heap ∅ ∅ None None (replicate 64 None) 0 0 0 0.

Definition heap_init (avail : Z -> bool) (h : heap) : res heap :=
  let pages := page_run HEAP_START (Z.to_nat (HEAP_INITIAL_SIZE / HEAP_PAGE_SIZE)) in
  if negb (forallb avail pages) then Panic "HEAP: PMM out of memory!"
  else
    let h := set_heap_size HEAP_INITIAL_SIZE (set_mapped (list_to_set pages ∪ mapped h) h) in
    h ← store h HEAP_START (new_block (HEAP_INITIAL_SIZE - HEADER) None None);
    let h := Heap (mem h) (mapped h) (Some HEAP_START) (Some HEAP_START) (bins h) (bin_mask h)
      (heap_size h) (heap_allocated h) (limit h) in
    free_insert h HEAP_START.

(** The loop that maps up to [n] pages from [page] on: the set of mapped pages
    and how many it mapped before one could not be had. *)
Fixpoint map_pages (avail : Z -> bool) (m : gset Z) (page : Z) (n : nat) : gset Z * nat :=
  match n with
  | O => (m, O)
  | S n =>
      if avail page then
        let '(m, k) := map_pages avail ({[page]} ∪ m) (page + HEAP_PAGE_SIZE) n in (m, S k)
      else (m, O)
  end.

Definition unmap_pages (m : gset Z) (page : Z) (n : nat) : gset Z := m ∖ list_to_set (page_run page n).

Definition heap_grow (usable : Z) (avail : Z -> bool) (h : heap) (min_size : Z) : res (heap * bool) :=
  let needed := u64 (min_size + HEADER) in
  let growth := round_up needed in
  let '(h, ceiling) := heap_extent_limit usable h in
  if (ceiling <=? heap_size h) || (u64 (ceiling - heap_size h) <? growth) then Ret (h, false)
  else
    let base := u64 (HEAP_START + heap_size h) in
    let pages := Z.to_nat (growth / HEAP_PAGE_SIZE) in
    let '(m, k) := map_pages avail (mapped h) base pages in
    if (k <? pages)%nat then Ret (set_mapped (unmap_pages m base k) h, false)
    else
      let h := set_mapped m h in
      h ← store h base (new_block (u64 (growth - HEADER)) None (tail h));
      t ← deref (tail h);
      tb ← load h t;
      h ← (if is_free tb && (u64 (u64 (t + HEADER) + size tb) =? base) then
             h ← free_remove h t;
             h ← modify h t (fun b => set_size (u64 (size b + growth)) b);
             free_insert h t
           else
             h ← modify h t (set_next (Some base));
             free_insert (set_tail (Some base) h) base);
      Ret (set_heap_size (u64 (heap_size h + growth)) h, true).

(** ** Giving pages back *)

Definition heap_release_pages (unmaps : Z -> bool) (h : heap) (a : Z) : res heap :=
  b ← load h a;
  if pages_released b || (size b <? HEAP_RELEASE_MIN) then Ret h
  else
    let payload := u64 (a + HEADER) in
    let end_ := u64 (payload + size b) in
    let first := round_up payload in
    let last := round_down end_ in
    if last <=? first then Ret h
    else
      let gone := filter (fun p => unmaps p = true) (page_run first (Z.to_nat ((last - first) / HEAP_PAGE_SIZE))) in
      modify (set_mapped (mapped h ∖ list_to_set gone) h) a (set_released true).

(** The loop of [heap_reacquire_pages]. *)
Fixpoint map_missing (avail : Z -> bool) (m : gset Z) (page : Z) (n : nat) : gset Z * bool :=
  match n with
  | O => (m, true)
  | S n =>
      if decide (page ∈ m) then map_missing avail m (page + HEAP_PAGE_SIZE) n
      else if avail page then map_missing avail ({[page]} ∪ m) (page + HEAP_PAGE_SIZE) n
      else (m, false)
  end.

Definition heap_reacquire_pages (avail : Z -> bool) (h : heap) (a : Z) (want : Z) : res (heap * bool) :=
  b ← load h a;
  if negb (pages_released b) then Ret (h, true)
  else
    let payload := u64 (a + HEADER) in
    let end_ := u64 (payload + size b) in
    let wanted := u64 (payload + want + 2 * HEAP_PAGE_SIZE + HEADER + HEAP_ALIGN) in
    let wanted := if end_ <? wanted then end_ else wanted in
    let first := round_down payload in
    let last := round_up wanted in
    let '(m, ok) := map_missing avail (mapped h) first (Z.to_nat ((last - first) / HEAP_PAGE_SIZE)) in
    Ret (set_mapped m h, ok).

(** ** Allocation *)

(** [if (b->next) b->next->prev = b; else tail = b;] *)
Definition link_back (h : heap) (nx : option Z) (a : Z) : res heap :=
  match nx with
  | Some n => modify h n (set_prev (Some a))
  | None => Ret (set_tail (Some a) h)
  end.

(** Cut block [a], whose header is [b], in two: [left] bytes of payload stay,
    the rest becomes a free block at [rest]. *)
Definition split_block (h : heap) (a : Z) (b : heap_block) (left rest rest_size : Z) (released : bool) : res heap :=
  h ← store h rest (set_released released (new_block rest_size (next b) (Some a)));
  h ← link_back h (next b) rest;
  h ← modify h a (set_size left);
  modify h a (set_next (Some rest)).

(** [while (aligned - payload < sizeof(heap_block_t) + HEAP_ALIGN)] *)
Fixpoint leave_room (fuel : nat) (payload aligned : Z) : res Z :=
  if u64 (aligned - payload) <? HEADER + HEAP_ALIGN then
    match fuel with
    | O => Panic "fuel"
    | S fuel => leave_room fuel payload (u64 (aligned + HEAP_PAGE_SIZE))
    end
  else Ret aligned.

(** Cut block [a] so that a block's payload starts at [aligned]. *)
Definition cut_lead (h : heap) (a aligned lead : Z) : res (heap * Z) :=
  let carved := u64 (aligned - HEADER) in
  h ← free_remove h a;
  b ← load h a;
  h ← split_block h a b (u64 (lead - HEADER)) carved (u64 (size b - lead)) false;
  h ← free_insert h a;
  h ← free_insert h carved;
  Ret (h, carved).

Definition split_for_page_alignment (h : heap) (a : Z) (want : Z) : res (heap * option Z) :=
  let payload := u64 (a + HEADER) in
  if Z.land payload (HEAP_PAGE_SIZE - 1) =? 0 then Ret (h, Some a)
  else
    aligned ← leave_room 1 payload (round_up payload);
    let lead := u64 (aligned - payload) in
    b ← load h a;
    if size b <? u64 (lead + want) then Ret (h, None)
    else '(h, carved) ← cut_lead h a aligned lead; Ret (h, Some carved).

(** The end of a turn of the loop in [kmalloc], with the block [a] chosen. *)
Definition carve (h : heap) (a : Z) (want : Z) (released : bool) : res (heap * Z) :=
  h ← free_remove h a;
  b ← load h a;
  h ← (if u64 (want + HEADER + 16) <? size b then
         let rest := u64 (u64 (a + HEADER) + want) in
         h ← split_block h a b want rest (u64 (u64 (size b - want) - HEADER)) released;
         free_insert h rest
       else Ret h);
  h ← modify h a (set_released false);
  h ← modify h a (set_is_free false);
  b ← load h a;
  Ret (set_allocated (u64 (heap_allocated h + size b)) h, u64 (a + HEADER)).

(** The block to carve the allocation from: [a] itself, or its part with a
    page-aligned payload. *)
Definition choose (h : heap) (a : Z) (want : Z) (page_aligned released : bool) : res (heap * option Z) :=
  if page_aligned then
    '(h, chosen) ← split_for_page_alignment h a want;
    match chosen with
    | None => Ret (h, None)
    | Some c =>
        h ← modify h a (set_released false);
        h ← modify h c (set_released released);
        Ret (h, Some c)
    end
  else Ret (h, Some a).

Fixpoint kmalloc_loop (usable : Z) (avail : Z -> bool) (fuel : nat) (h : heap) (want : Z) (page_aligned : bool) :
    res (heap * option Z) :=
  match fuel with
  | O => Panic "fuel"
  | S fuel =>
      curr ← find_fit h want page_aligned;
      match curr with
      | None =>
          '(h, grown) ← heap_grow usable avail h
             (if page_aligned then u64 (want + HEAP_PAGE_SIZE + HEADER) else want);
          if (grown : bool) then kmalloc_loop usable avail fuel h want page_aligned else Ret (h, None)
      | Some a =>
          '(h, ok) ← heap_reacquire_pages avail h a (u64 (want + (if page_aligned then HEAP_PAGE_SIZE else 0)));
          if negb ok then Ret (h, None)
          else
            b ← load h a;
            let released := pages_released b in
            '(h, chosen) ← choose h a want page_aligned released;
            match chosen with
            | None => Ret (h, None)
            | Some c => '(h, p) ← carve h c want released; Ret (h, Some p)
            end
      end
  end.

(** Three turns are enough (see [kmalloc_returns]). *)
Definition kmalloc (usable : Z) (avail : Z -> bool) (h : heap) (request : Z) : res (heap * option Z) :=
  if request =? 0 then Ret (h, None)
  else
    let want := Z.land (u64 (request + (HEAP_ALIGN - 1))) (u64 (Z.lnot (HEAP_ALIGN - 1))) in
    kmalloc_loop usable avail 3 h want (HEAP_PAGE_ALIGN_MIN <=? want).

(** ** Freeing *)

(** [a] takes in its right neighbour [n]. *)
Definition absorb (h : heap) (a n : Z) : res heap :=
  nb ← load h n;
  h ← modify h a (fun b => set_size (u64 (size b + u64 (size nb + HEADER))) b);
  h ← modify h a (fun b => set_released (pages_released b || pages_released nb) b);
  h ← modify h a (set_next (next nb));
  link_back h (next nb) a.

(** [a] takes in its right neighbour if that is free, its left neighbour takes
    in [a] if that is free; the second gives the block that remains. *)
Definition merge_next (h : heap) (a : Z) : res heap :=
  b ← load h a;
  match next b with
  | Some n =>
      nb ← load h n;
      if is_free nb then h ← free_remove h n; absorb h a n else Ret h
  | None => Ret h
  end.

Definition merge_prev (h : heap) (a : Z) : res (heap * Z) :=
  b ← load h a;
  match prev b with
  | Some q =>
      qb ← load h q;
      if is_free qb then h ← free_remove h q; h ← absorb h q a; Ret (h, q) else Ret (h, a)
  | None => Ret (h, a)
  end.

Definition kfree (unmaps : Z -> bool) (h : heap) (ptr : option Z) : res heap :=
  match ptr with
  | None => Ret h
  | Some p =>
      let a := u64 (p - HEADER) in
      b ← load h a;
      if negb (magic b =? HEAP_MAGIC) then Panic "HEAP: Invalid kfree magic!"
      else if is_free b then Ret h
      else
        let h := set_allocated (u64 (heap_allocated h - size b)) h in
        h ← modify h a (set_is_free true);
        h ← heap_release_pages unmaps h a;
        h ← merge_next h a;
        '(h, a) ← merge_prev h a;
        free_insert h a
  end.

(** ** Statistics *)

Definition heap_pressure_size (usable : Z) : Z := u64 (u64 (usable * HEAP_PAGE_SIZE) / 4 * 3).

Definition heap_under_pressure (usable free_pages : Z) (h : heap) : bool :=
  (heap_pressure_size usable <=? heap_allocated h) || (free_pages <? HEAP_FREE_PAGES_FLOOR).

Definition heap_stats (usable : Z) (h : heap) : heap * (Z * Z * Z) :=
  let '(h', l) := heap_extent_limit usable h in (h', (heap_size h, heap_allocated h, l)).
