(* ===== verification/HeapBins.v ===== *)
(** * The heap's size classes

    [free_insert], [free_remove] and [find_fit] of Heap: the classes are an
    index of the free blocks ([indexed h S]: they list exactly the blocks
    [S]), kept by doubly linked lists through the headers.  The rest of the
    proof uses the index through [free_insert_ok], [free_remove_ok] and
    [find_fit_ok] only. *)

From S2P Require Import Prelude Heap.

(** ** Doubly linked lists

    [dseg nx pv p F]: following [nx] from the first of [F] gives [F], and [pv]
    points back, to [p] from the first. *)

Fixpoint dseg (nx pv : Z -> option Z) (p : option Z) (F : list Z) : Prop :=
  match F with
  | [] => True
  | a :: F' => pv a = p /\ nx a = hd_error F' /\ dseg nx pv (Some a) F'
  end.

Lemma dseg_ext nx pv nx' pv' p F : dseg nx pv p F -> (forall x, x ∈ F -> nx' x = nx x /\ pv' x = pv x) ->
  dseg nx' pv' p F.
Proof.
  revert p. induction F as [|a F IH]; intros p; [done|]. cbn. intros (H1 & H2 & H3) He.
  destruct (He a ltac:(by left)) as [-> ->]. split_and!; auto. apply IH; [done|]. intros. apply He. by right.
Qed.

(** A new first element's successor [F] has its back pointer turned to [p']. *)
Lemma dseg_rehead nx pv nx' pv' p p' F : NoDup F -> dseg nx pv p F ->
  (forall x, x ∈ F -> nx' x = nx x /\ pv' x = if decide (hd_error F = Some x) then p' else pv x) ->
  dseg nx' pv' p' F.
Proof.
  destruct F as [|a F]; [done|]. cbn. intros [Hni Hnd]%list.NoDup_cons (H1 & H2 & H3) He.
  destruct (He a ltac:(by left)) as [-> Hp]. rewrite decide_True in Hp by done. split_and!; auto.
  eapply dseg_ext; [done|]. intros x Hx. destruct (He x ltac:(by right)) as [-> ->]. split; [done|].
  rewrite decide_False; [done|]. intros [= ->]. done.
Qed.

Lemma dseg_at nx pv p A a B : dseg nx pv p (A ++ a :: B) ->
  nx a = hd_error B /\ pv a = match list.last A with Some l => Some l | None => p end.
Proof.
  revert p. induction A as [|x A IH]; intros p; cbn [app dseg].
  - naive_solver.
  - intros (_ & _ & H). destruct (IH _ H) as [-> ->]. split; [done|]. destruct A as [|y A]; [done|].
    rewrite last_cons_cons. by destruct (list.last (y :: A)) eqn:E; [|apply last_None in E].
Qed.

Lemma dseg_remove nx pv nx' pv' p A a B : NoDup (A ++ a :: B) -> dseg nx pv p (A ++ a :: B) ->
  (forall x, x ∈ A ++ B ->
     nx' x = (if decide (list.last A = Some x) then hd_error B else nx x) /\
     pv' x = if decide (hd_error B = Some x) then match list.last A with Some l => Some l | None => p end else pv x) ->
  dseg nx' pv' p (A ++ B).
Proof.
  revert p. induction A as [|x A IH]; intros p; cbn [app]; intros Hnd Hd He.
  - destruct Hd as (H1 & H2 & H3). apply list.NoDup_cons in Hnd as [_ Hnd].
    eapply dseg_rehead; [done|exact H3|]. intros y Hy. destruct (He y Hy) as [-> ->]. done.
  - apply list.NoDup_cons in Hnd as [Hni Hnd]. destruct Hd as (H1 & H2 & H3).
    destruct (He x ltac:(by left)) as [En Ep]. split_and!.
    + rewrite Ep, decide_False; [done|]. intros E. apply Hni. destruct B; [done|]. injection E as ->. set_solver.
    + rewrite En. destruct A as [|y A]; [by rewrite decide_True|].
      rewrite decide_False; [done|]. rewrite last_cons_cons. intros E%last_Some_elem_of. apply Hni. set_solver.
    + apply IH; [done|done|]. intros y Hy. destruct (He y ltac:(by right)) as [-> ->].
      assert (x <> y) as Hxy by (intros ->; apply Hni; set_solver).
      destruct A as [|z A].
      * cbn [list.last]. rewrite (decide_False (P := Some x = Some y)) by congruence. done.
      * rewrite !last_cons_cons. split; [done|]. destruct (decide (hd_error B = Some y)); [|done].
        by destruct (list.last (z :: A)) eqn:E; [|apply last_None in E].
Qed.

(** ** The size classes as an index of the free blocks *)

Definition fnx (h : heap) (a : Z) : option Z := mem h !! a ≫= free_next.
Definition fpv (h : heap) (a : Z) : option Z := mem h !! a ≫= free_prev.

Record bins_ok (h : heap) (F : nat -> list Z) : Prop := BinsOk {
  bo_len : length (bins h) = 64%nat;
  bo_mask : 0 <= bin_mask h < 2 ^ 64;
  bo_head : forall n, (n < 64)%nat -> bins h !! n = Some (hd_error (F n));
  bo_nodup : forall n, NoDup (F n);
  bo_bit : forall n, (n < 64)%nat -> Z.testbit (bin_mask h) (Z.of_nat n) = true <-> F n <> [];
  bo_list : forall n, dseg (fnx h) (fpv h) None (F n);
  bo_mem : forall n a, a ∈ F n -> (n < 64)%nat /\ accessible h a = true /\
    exists b, mem h !! a = Some b /\ bin b = Z.of_nat n /\ bin_of (size b) = Z.of_nat n /\ 0 <= size b < 2 ^ 64 }.

Definition indexed (h : heap) (S : gset Z) : Prop :=
  exists F, bins_ok h F /\ forall a, a ∈ S <-> exists n, a ∈ F n.

(** A header without what [free_insert] and [free_remove] write. *)
Definition core (b : heap_block) : heap_block := set_bin 0 (set_free_prev None (set_free_next None b)).

Record same_but_lists (h h' : heap) : Prop := SameButLists {
  sl_mem : forall a, core <$> mem h' !! a = core <$> mem h !! a;
  sl_mapped : mapped h' = mapped h;
  sl_head : head h' = head h;
  sl_tail : tail h' = tail h;
  sl_size : heap_size h' = heap_size h;
  sl_allocated : heap_allocated h' = heap_allocated h;
  sl_limit : limit h' = limit h }.

Lemma load_ok h a b : accessible h a = true -> mem h !! a = Some b -> load h a = Ret b.
Proof. intros Ha Hb. unfold load. by rewrite Ha, Hb. Qed.

Lemma modify_ok h a b f : accessible h a = true -> mem h !! a = Some b ->
  modify h a f = Ret (set_mem (<[a := f b]> (mem h)) h).
Proof. intros Ha Hb. unfold modify, store. by rewrite (load_ok h a b), bind_ret, Ha. Qed.

Lemma bin_of_bound s : 0 <= s < 2 ^ 64 -> 0 <= bin_of s < 64.
Proof.
  intros H. unfold bin_of. case_cmp; [lia|]. split; [apply Z.log2_nonneg|]. apply Z.log2_lt_pow2; lia.
Qed.

(** What the list operations leave of a heap: other links, other bins. *)
Definition relinked (h : heap) (m : gmap Z heap_block) (bs : list (option Z)) (mask : Z) : heap :=
  set_bins bs mask (set_mem m h).

Lemma relinked_same h m bs mask : (forall x, core <$> m !! x = core <$> mem h !! x) ->
  same_but_lists h (relinked h m bs mask).
Proof. by constructor. Qed.

Lemma core_insert (m : gmap Z heap_block) a b b' : m !! a = Some b -> core b' = core b ->
  forall x, core <$> <[a := b']> m !! x = core <$> m !! x.
Proof.
  intros Hb He x. destruct (decide (a = x)) as [->|]; [by rewrite lookup_insert_eq, Hb; cbn; f_equal|].
  by rewrite lookup_insert_ne.
Qed.

Section index.
Context (h : heap) (F : nat -> list Z).
Hypothesis Hok : bins_ok h F.

Lemma listed_once n k a : a ∈ F n -> a ∈ F k -> n = k.
Proof using Hok.
  intros Hn Hk. destruct (bo_mem _ _ Hok n a Hn) as (_ & _ & b & Eb & En & _).
  destruct (bo_mem _ _ Hok k a Hk) as (_ & _ & b' & Eb' & Ek & _). rewrite Eb in Eb'. injection Eb' as <-. lia.
Qed.

(** The heap with [a] put first in its class. *)
Definition inserted (a : Z) (b : heap_block) : heap :=
  let n := bin_of (size b) in
  let first := hd_error (F (Z.to_nat n)) in
  let b' := set_free_next first (set_free_prev None (set_bin n b)) in
  relinked h
    (match first with
     | None => <[a := b']> (mem h)
     | Some f => match mem h !! f with
                 | Some fb => <[f := set_free_prev (Some a) fb]> (<[a := b']> (mem h))
                 | None => <[a := b']> (mem h)
                 end
     end)
    (<[Z.to_nat n := Some a]> (bins h)) (Z.lor (bin_mask h) (2 ^ n)).

Lemma free_insert_eq a b : (forall n, a ∉ F n) -> accessible h a = true -> mem h !! a = Some b ->
  0 <= size b < 2 ^ 64 -> free_insert h a = Ret (inserted a b).
Proof using Hok.
  intros Hni Ha Hb Hs. pose proof (bin_of_bound _ Hs) as Hn. unfold free_insert, inserted.
  set (n := bin_of (size b)) in *. rewrite (load_ok h a b), bind_ret by done. fold n.
  rewrite (modify_ok h a b), bind_ret by done. words.
  erewrite modify_ok, bind_ret by first [exact Ha|apply lookup_insert_eq]. cbn [mem bins set_mem].
  rewrite (rd_lookup _ _ (hd_error (F (Z.to_nat n)))), bind_ret by first [lia|apply (bo_head _ _ Hok); lia].
  erewrite modify_ok, bind_ret by first [exact Ha|apply lookup_insert_eq]. cbn [mem bins set_mem].
  rewrite !insert_insert_eq. rewrite Z.shiftl_1_l.
  assert (2 ^ n < 2 ^ 64) by (apply Z.pow_lt_mono_r; lia). assert (0 < 2 ^ n) by (apply Z.pow_pos_nonneg; lia).
  destruct (hd_error (F (Z.to_nat n))) as [f|] eqn:Ef.
  - assert (f ∈ F (Z.to_nat n)) as Hf by (destruct (F (Z.to_nat n)); [done|injection Ef as ->; by left]).
    destruct (bo_mem _ _ Hok _ f Hf) as (_ & Haf & fb & Efb & _). rewrite Efb.
    assert (f <> a) by (intros ->; by eapply Hni).
    erewrite modify_ok, bind_ret by first [exact Haf|cbn; rewrite lookup_insert_ne by done; exact Efb].
    cbn [mem bins set_mem]. rewrite wr_in, bind_ret by (rewrite (bo_len _ _ Hok); lia). words. done.
  - rewrite bind_ret. cbn [mem bins set_mem]. rewrite wr_in, bind_ret by (rewrite (bo_len _ _ Hok); lia). words. done.
Qed.

Lemma inserted_lookup a b x : (forall n, a ∉ F n) ->
  mem (inserted a b) !! x =
    if decide (x = a) then Some (set_free_next (hd_error (F (Z.to_nat (bin_of (size b)))))
                                  (set_free_prev None (set_bin (bin_of (size b)) b)))
    else if decide (hd_error (F (Z.to_nat (bin_of (size b)))) = Some x) then set_free_prev (Some a) <$> mem h !! x
    else mem h !! x.
Proof using Hok.
  intros Hni. unfold inserted. cbn [mem relinked set_bins set_mem]. set (n := Z.to_nat _).
  destruct (F n) as [|f L] eqn:EF; cbn [hd_error].
  - case_decide; [subst; by rewrite lookup_insert_eq|]. by rewrite lookup_insert_ne by done.
  - assert (f ∈ F n) as Hf by (rewrite EF; by left).
    destruct (bo_mem _ _ Hok _ f Hf) as (_ & _ & fb & Efb & _). rewrite Efb.
    assert (f <> a) as Hne by (intros ->; by eapply Hni). case_decide as Dx; [subst|].
    + by rewrite lookup_insert_ne, lookup_insert_eq.
    + case_decide as Df; [injection Df as ->; by rewrite lookup_insert_eq, Efb|].
      rewrite lookup_insert_ne by congruence. by rewrite lookup_insert_ne.
Qed.

Lemma inserted_core a b x : (forall n, a ∉ F n) -> mem h !! a = Some b ->
  core <$> mem (inserted a b) !! x = core <$> mem h !! x.
Proof using Hok.
  intros Hni Hb. rewrite inserted_lookup by done. case_decide; [subst; by rewrite Hb|].
  case_decide; [|done]. by destruct (mem h !! x).
Qed.

Lemma inserted_ok a b : (forall n, a ∉ F n) -> accessible h a = true -> mem h !! a = Some b ->
  0 <= size b < 2 ^ 64 ->
  bins_ok (inserted a b)
    (fun k => if decide (k = Z.to_nat (bin_of (size b))) then a :: F k else F k).
Proof using Hok.
  intros Hni Ha Hb Hs. pose proof (bin_of_bound _ Hs) as Hn.
  assert (forall x, mem (inserted a b) !! x = _) as Hlk by (intros x; by apply inserted_lookup).
  set (n := Z.to_nat (bin_of (size b))) in *.
  assert (forall k x, x ∈ F k -> x <> a) as Hxa by (intros k x Hx ->; by eapply Hni).
  pose proof Hok as [Hl Hm Hh Hd Hbit Hli Hmem]. constructor.
  - cbn. by rewrite length_insert.
  - cbn. apply lor_bound; [done|done|]. split; [apply Z.pow_nonneg; lia|apply Z.pow_lt_mono_r; lia].
  - intros k Hk. cbn. case_decide as Dk; [subst k; by rewrite list_lookup_insert_eq by lia|].
    by rewrite list_lookup_insert_ne; [apply Hh|].
  - intros k. case_decide; [|done]. by apply list.NoDup_cons.
  - intros k Hk. cbn. rewrite Z.lor_spec, Z.pow2_bits_eqb, orb_true_iff, Hbit, Z.eqb_eq by lia.
    case_decide as Dk; [subst k; split; [by intros _|]; right; lia|]. split; [intros [?|?]; [done|lia]|by left].
  - intros k. unfold fnx, fpv. case_decide as Dk.
    + subst k. cbn [dseg]. rewrite Hlk, decide_True by done. split_and!; [done|done|].
      eapply dseg_rehead; [done|apply Hli|]. intros x Hx. cbn. unfold fnx, fpv.
      rewrite Hlk, decide_False by (by eapply Hxa). destruct (Hmem n x Hx) as (_ & _ & xb & Exb & _).
      case_decide; by rewrite Exb.
    + eapply dseg_ext; [apply Hli|]. intros x Hx. unfold fnx, fpv.
      rewrite Hlk, decide_False by (by eapply Hxa). rewrite decide_False; [done|].
      intros E. apply Dk. eapply listed_once; [exact Hx|]. destruct (F n); [done|]. injection E as ->. by left.
  - intros k x Hx. assert (x = a /\ k = n \/ x ∈ F k) as [[-> ->]|Hx'].
    { revert Hx. case_decide as Dk; [|auto]. intros [->|?]%elem_of_cons; auto. }
    + split_and!; [lia|done|]. eexists. rewrite Hlk, decide_True by done. split; [done|]. cbn. lia.
    + destruct (Hmem k x Hx') as (Hk & Hax & xb & Exb & H1 & H2). split_and!; [done|done|].
      rewrite Hlk, decide_False by (by eapply Hxa). rewrite Exb.
      clear Hx. case_decide; eexists; (split; [reflexivity|]); cbn; auto.
Qed.
End index.

Lemma free_insert_ok h S a b : indexed h S -> a ∉ S -> accessible h a = true -> mem h !! a = Some b ->
  0 <= size b < 2 ^ 64 ->
  returns (free_insert h a) (fun h' => indexed h' ({[a]} ∪ S) /\ same_but_lists h h').
Proof.
  intros (F & Hok & HS) Ha Hac Hb Hs. assert (forall n, a ∉ F n) as Hni by (intros n Hn; apply Ha, HS; eauto).
  rewrite (free_insert_eq h F Hok a b) by done. cbn [returns]. split.
  - eexists. split; [by apply inserted_ok|]. intros x. rewrite elem_of_union, elem_of_singleton, HS. split.
    + intros [->|[n Hn]].
      * exists (Z.to_nat (bin_of (size b))). rewrite decide_True by done. by left.
      * exists n. case_decide; [by right|done].
    + intros [n Hn]. revert Hn. case_decide; [|eauto]. intros [->|?]%elem_of_cons; eauto.
  - apply relinked_same. intros x. by apply (inserted_core h F Hok a b x).
Qed.

Lemma alter_is_insert (m : gmap Z heap_block) f a b : m !! a = Some b -> alter f a m = <[a := f b]> m.
Proof.
  intros Hb. apply map_eq. intros x.
  destruct (decide (a = x)) as [->|]; [by rewrite lookup_insert_eq, lookup_alter_eq, Hb|].
  by rewrite lookup_insert_ne, lookup_alter_ne.
Qed.

Lemma modify_alter h a b f : accessible h a = true -> mem h !! a = Some b ->
  modify h a f = Ret (set_mem (alter f a (mem h)) h).
Proof.
  intros Ha Hb. by rewrite (modify_ok h a b), (alter_is_insert _ f a b).
Qed.

Definition alter_at (f : heap_block -> heap_block) (p : option Z) (m : gmap Z heap_block) : gmap Z heap_block :=
  match p with
  | Some a => alter f a m
  | None => m
  end.

Lemma lookup_alter_at f p m x : alter_at f p m !! x = if decide (p = Some x) then f <$> m !! x else m !! x.
Proof.
  destruct p as [a|]; [|done]. cbn. case_decide as D; [injection D as ->; by rewrite lookup_alter_eq|].
  rewrite lookup_alter_ne by congruence. done.
Qed.

Section removal.
Context (h : heap) (F : nat -> list Z) (n : nat) (A B : list Z) (a : Z).
Hypothesis (Hok : bins_ok h F) (HF : F n = A ++ a :: B).

(** The heap with [a] taken out of class [n]. *)
Definition removed : heap :=
  relinked h
    (alter (fun b => set_free_next None (set_free_prev None b)) a
       (alter_at (set_free_prev (list.last A)) (hd_error B)
          (alter_at (set_free_next (hd_error B)) (list.last A) (mem h))))
    (match list.last A with None => <[n := hd_error B]> (bins h) | Some _ => bins h end)
    (match A ++ B with
     | [] => Z.land (bin_mask h) (u64 (Z.lnot (2 ^ Z.of_nat n)))
     | _ => bin_mask h
     end).

Lemma member x : x ∈ A ++ B -> x <> a /\ x ∈ F n.
Proof using Hok HF.
  intros Hx. pose proof (bo_nodup _ _ Hok n) as Hnd. rewrite HF in *.
  apply list.NoDup_app in Hnd as (_ & Hd & [Hni _]%list.NoDup_cons). split; [|set_solver].
  intros ->. apply elem_of_app in Hx as [Hx|Hx]; [|done]. apply (Hd a Hx). by left.
Qed.

Lemma ends_member x : list.last A = Some x \/ hd_error B = Some x -> x <> a /\ x ∈ F n.
Proof using Hok HF.
  intros E. apply member, elem_of_app. destruct E as [E|E]; [left; by apply last_Some_elem_of|right].
  destruct B; [done|]. injection E as ->. by left.
Qed.

Lemma ends_differ x : list.last A = Some x -> hd_error B = Some x -> False.
Proof using Hok HF.
  intros E1%last_Some_elem_of E2. pose proof (bo_nodup _ _ Hok n) as Hnd. rewrite HF in Hnd.
  apply list.NoDup_app in Hnd as (_ & Hd & _). apply (Hd x E1). right. destruct B; [done|]. injection E2 as ->. by left.
Qed.

Lemma removed_lookup x : mem removed !! x =
  if decide (x = a) then (fun b => set_free_next None (set_free_prev None b)) <$> mem h !! x
  else if decide (hd_error B = Some x) then set_free_prev (list.last A) <$> mem h !! x
  else if decide (list.last A = Some x) then set_free_next (hd_error B) <$> mem h !! x
  else mem h !! x.
Proof using Hok HF.
  unfold removed. cbn [mem relinked set_bins set_mem]. case_decide as Dx.
  - subst x. rewrite lookup_alter_eq, !lookup_alter_at.
    rewrite !decide_False; [done|..]; intros E; by apply (ends_member a); auto.
  - rewrite lookup_alter_ne, !lookup_alter_at by congruence.
    case_decide as D1; [|done]. rewrite decide_False; [done|]. intros D2. by eapply ends_differ.
Qed.

Lemma first_bin : rd (match list.last A with None => <[n := hd_error B]> (bins h) | Some _ => bins h end) (Z.of_nat n) =
  Ret (hd_error (A ++ B)).
Proof using Hok HF.
  assert (n < 64)%nat as Hn by (apply (bo_mem _ _ Hok n a); rewrite HF; set_solver).
  apply rd_lookup; [lia|]. rewrite Nat2Z.id. destruct A as [|x A'].
  - cbn. rewrite list_lookup_insert_eq by (rewrite (bo_len _ _ Hok); lia). done.
  - destruct (list.last (x :: A')) eqn:E; [|by apply last_None in E]. rewrite (bo_head _ _ Hok), HF by lia. done.
Qed.

Lemma free_remove_eq : free_remove h a = Ret removed.
Proof using Hok HF.
  pose proof (bo_list _ _ Hok n) as Hli. rewrite HF in Hli. apply dseg_at in Hli as [En Ep].
  destruct (bo_mem _ _ Hok n a) as (Hn & Ha & b & Hb & Hbin & _); [rewrite HF; set_solver|].
  unfold fnx, fpv in En, Ep. rewrite Hb in En, Ep. cbn in En, Ep.
  replace (match list.last A with Some l => Some l | None => None end) with (list.last A) in Ep by (by destruct (list.last A)).
  unfold free_remove. rewrite (load_ok h a b), bind_ret by done. rewrite En, Ep, Hbin.
  set (h1 := set_bins (match list.last A with None => <[n := hd_error B]> (bins h) | Some _ => bins h end) (bin_mask h)
      (set_mem (alter_at (set_free_next (hd_error B)) (list.last A) (mem h)) h)).
  assert (match list.last A with
          | Some p => modify h p (set_free_next (hd_error B))
          | None => bs ← wr (bins h) (Z.of_nat n) (hd_error B); Ret (set_bins bs (bin_mask h) h)
          end = Ret h1) as ->.
  { unfold h1. destruct (list.last A) as [p|] eqn:E.
    - destruct (bo_mem _ _ Hok n p) as (_ & Hap & pb & Hpb & _); [by apply ends_member; left|].
      rewrite (modify_alter h p pb) by done. done.
    - rewrite wr_in, bind_ret, Nat2Z.id by (rewrite (bo_len _ _ Hok); lia). by destruct h. }
  rewrite bind_ret.
  set (h2 := set_mem (alter_at (set_free_prev (list.last A)) (hd_error B) (mem h1)) h1).
  assert (match hd_error B with
          | Some q => modify h1 q (set_free_prev (list.last A))
          | None => Ret h1
          end = Ret h2) as ->.
  { unfold h2. destruct (hd_error B) as [q|] eqn:E; [|by destruct h1].
    destruct (bo_mem _ _ Hok n q) as (_ & Haq & qb & Hqb & _); [by apply ends_member; right|].
    rewrite (modify_alter h1 q qb); [done|done|]. unfold h1. cbn. rewrite lookup_alter_at, decide_False; [done|].
    intros E'. by eapply (ends_differ q). }
  rewrite bind_ret. change (bins h2) with (match list.last A with None => <[n := hd_error B]> (bins h) | Some _ => bins h end).
  rewrite first_bin, bind_ret, Z.shiftl_1_l.
  assert (2 ^ Z.of_nat n < 2 ^ 64) by (apply Z.pow_lt_mono_r; lia).
  assert (0 < 2 ^ Z.of_nat n) by (apply Z.pow_pos_nonneg; lia). rewrite (u64_small (2 ^ _)) by lia.
  assert (mem h2 !! a = Some b) as Hb2.
  { unfold h2, h1. cbn. rewrite !lookup_alter_at, !decide_False; [done|..]; intros E; by apply (ends_member a); auto. }
  set (h3 := match hd_error (A ++ B) with None => _ | Some _ => h2 end).
  assert (mem h3 = mem h2 /\ accessible h3 a = true) as [Em Ea] by (unfold h3; by destruct (hd_error (A ++ B))).
  rewrite (modify_ok h3 a b), bind_ret by (rewrite ?Em; done).
  erewrite modify_ok by first [exact Ea|apply lookup_insert_eq]. cbn [mem set_mem]. rewrite insert_insert_eq, Em.
  unfold removed. f_equal. rewrite (alter_is_insert _ _ a b) by done.
  unfold h3, relinked, h2, h1. by destruct (A ++ B).
Qed.

Lemma removed_core x : core <$> mem removed !! x = core <$> mem h !! x.
Proof using Hok HF. rewrite removed_lookup. repeat case_decide; by destruct (mem h !! x). Qed.

Lemma removed_ok : bins_ok removed (fun k => if decide (k = n) then A ++ B else F k).
Proof using Hok HF.
  pose proof removed_lookup as Hlk. pose proof (bo_nodup _ _ Hok n) as Hnd. rewrite HF in Hnd.
  destruct (bo_mem _ _ Hok n a) as (Hn & _); [rewrite HF; set_solver|].
  assert (forall k x, k <> n -> x ∈ F k -> x ∉ F n) as Hoth by (intros k x Hk H1 H2; by eapply Hk, listed_once).
  pose proof Hok as [Hl Hm Hh Hd Hbit Hli Hmem]. constructor.
  - cbn. destruct (list.last A); [done|]. by rewrite length_insert.
  - cbn. destruct (A ++ B); [|done]. by apply land_bound.
  - intros k Hk. cbn. case_decide as Dk.
    + subst k. pose proof (proj2 (rd_inv _ _ _ first_bin)) as E.
      by rewrite Nat2Z.id in E.
    + destruct (list.last A); [auto|]. by rewrite list_lookup_insert_ne; auto.
  - intros k. case_decide; [|done]. apply list.NoDup_app in Hnd as (H1 & H2 & H3).
    apply list.NoDup_cons in H3 as [H3 H4]. apply list.NoDup_app. split_and!; try done. set_solver.
  - intros k Hk. cbn. assert (k = n \/ k <> n) as [->|Dk] by lia.
    + rewrite decide_True by done. pose proof (proj1 (Hbit n Hn)) as Hb. destruct (A ++ B) as [|y L] eqn:E.
      * split; [|done]. rewrite Z.land_spec. unfold u64. rewrite Z.testbit_mod_pow2, Z.lnot_spec, Z.pow2_bits_true by lia.
        by rewrite !andb_false_r.
      * split; [done|]. intros _. apply Hbit; [done|]. rewrite HF. by destruct A.
    + rewrite decide_False by done. rewrite <- Hbit by done. destruct (A ++ B); [|done].
      rewrite Z.land_spec. unfold u64. rewrite Z.testbit_mod_pow2, Z.lnot_spec, Z.pow2_bits_false by lia.
      replace (Z.of_nat k <? 64) with true by lia. by rewrite !andb_true_r.
  - intros k. unfold fnx, fpv. case_decide as Dk.
    + subst k. specialize (Hli n). rewrite HF in Hli. eapply dseg_remove; [done|exact Hli|]. intros x Hx. cbn. unfold fnx, fpv.
      destruct (member x Hx) as [Hxa Hxn]. destruct (Hmem n x Hxn) as (_ & _ & xb & Exb & _).
      rewrite Hlk, decide_False, Exb by done.
      replace (match list.last A with Some l => Some l | None => None end) with (list.last A) by (by destruct (list.last A)).
      repeat case_decide; cbn; try done. exfalso. by eapply (ends_differ x).
    + eapply dseg_ext; [apply Hli|]. intros x Hx. unfold fnx, fpv. specialize (Hoth k x Dk Hx).
      assert (x <> a) by (intros ->; apply Hoth; rewrite HF; set_solver).
      rewrite Hlk, !decide_False; [done|..]; try done; intros E; apply Hoth, ends_member; auto.
  - intros k x Hx. assert (x ∈ F k /\ x <> a) as [Hxk Hxa].
    { revert Hx. case_decide as Dk; [subst; intros Hx; split; by apply member|]. intros Hx. split; [done|].
      intros ->. apply (Hoth k a Dk Hx). rewrite HF. set_solver. }
    destruct (Hmem k x Hxk) as (Hk & Hax & xb & Exb & H1). split_and!; [done|done|].
    rewrite Hlk, decide_False, Exb by done. clear Hx. repeat case_decide; eexists; (split; [reflexivity|]); cbn; auto.
Qed.
End removal.

Lemma free_remove_ok h S a : indexed h S -> a ∈ S ->
  returns (free_remove h a) (fun h' => indexed h' (S ∖ {[a]}) /\ same_but_lists h h').
Proof.
  intros (F & Hok & HS) [n Hn]%HS. apply list_elem_of_split in Hn as (A & B & HF).
  rewrite (free_remove_eq h F n A B a Hok HF). cbn [returns]. split.
  - eexists. split; [by apply removed_ok|]. intros x. rewrite elem_of_difference, elem_of_singleton, HS. split.
    + intros [[k Hk] Hne]. exists k. case_decide; [|done]. subst. rewrite HF in Hk. set_solver.
    + intros [k Hk]. revert Hk. case_decide as Dk; [subst; intros Hx|intros Hx].
      * destruct (member h F n A B a Hok HF x Hx). eauto.
      * split; [eauto|]. intros ->. apply Dk. eapply listed_once; [done|done|]. rewrite HF. set_solver.
  - apply relinked_same. intros x. by apply (removed_core h F n A B a).
Qed.

(** *** Looking for a block *)

Lemma scan_bin_ok h F n wanted : bins_ok h F -> forall L fuel, suffix L (F n) -> (length L <= fuel)%nat ->
  returns (scan_bin h wanted fuel (hd_error L)) (fun r =>
    match r with
    | Some a => a ∈ L /\ exists b, mem h !! a = Some b /\ wanted <= size b
    | None => forall a b, a ∈ L -> mem h !! a = Some b -> size b < wanted
    end).
Proof.
  intros Hok. induction L as [|a L IH]; intros fuel Hs Hf; [by destruct fuel; cbn; intros a b ?%elem_of_nil|].
  destruct fuel as [|fuel]; [cbn in Hf; lia|]. destruct Hs as [K HF].
  destruct (bo_mem _ _ Hok n a) as (_ & Ha & b & Hb & _); [rewrite HF; set_solver|].
  pose proof (bo_list _ _ Hok n) as Hli. rewrite HF in Hli. apply dseg_at in Hli as [En _].
  unfold fnx in En. rewrite Hb in En. cbn in En. cbn [hd_error scan_bin]. rewrite (load_ok h a b), bind_ret by done.
  destruct (Z.leb_spec wanted (size b)); [cbn; split; [by left|eauto]|]. rewrite En.
  eapply returns_mono; [apply IH; [|cbn in Hf; lia]|].
  - exists (K ++ [a]). by rewrite <- app_assoc.
  - intros [x|]; [intros [Hx Hr]; split; [by right|done]|].
    intros Hall x xb [->|Hx]%elem_of_cons E; [congruence|eauto].
Qed.

Lemma class_small h F n : bins_ok h F -> (length (F n) <= base.size (mem h))%nat.
Proof.
  intros Hok. rewrite <- (size_dom (D := gset Z)). rewrite <- (size_list_to_set (C := gset Z)) by apply (bo_nodup _ _ Hok).
  apply subseteq_size. intros x Hx%elem_of_list_to_set. destruct (bo_mem _ _ Hok n x Hx) as (_ & _ & b & Hb & _).
  by apply elem_of_dom_2 in Hb.
Qed.

Lemma ctz_bit z : 0 < z -> 0 <= ctz z /\ Z.testbit z (ctz z) = true.
Proof.
  destruct z as [|p|]; [lia| |lia]. intros _. cbn [ctz]. induction p as [p IH|p [H1 H2]|]; cbn [ctz_pos]; try done.
  split; [lia|]. by rewrite Pos2Z.inj_xO, Z.add_1_r, Z.double_bits_succ.
Qed.

Lemma bin_of_spec s : 0 < s -> 2 ^ bin_of s <= s < 2 ^ (bin_of s + 1).
Proof. intros. unfold bin_of. replace (s =? 0) with false by lia. by apply Z.log2_spec. Qed.

(** The bits of the larger classes. *)
Lemma larger_bits mask first k : 0 <= first -> first + 1 < 64 -> 0 <= mask < 2 ^ 64 -> 0 <= k ->
  Z.testbit (Z.land mask (u64 (Z.lnot (u64 (u64 (Z.shiftl 2 first) - 1))))) k = Z.testbit mask k && (first <? k).
Proof.
  intros Hf1 Hf2 Hm Hk. rewrite Z.shiftl_mul_pow2 by lia. change 2 with (2 ^ 1) at 1. rewrite <- Z.pow_add_r by lia.
  assert (2 ^ (1 + first) < 2 ^ 64) by (apply Z.pow_lt_mono_r; lia).
  assert (0 < 2 ^ (1 + first)) by (apply Z.pow_pos_nonneg; lia). rewrite (u64_small (2 ^ _)), (u64_small (_ - 1)) by lia.
  rewrite Z.land_spec. unfold u64. rewrite Z.testbit_mod_pow2, Z.lnot_spec, Z.sub_1_r, <- Z.ones_equiv by lia.
  rewrite Z.testbit_ones_nonneg by lia. destruct (Z.ltb_spec k 64); [|rewrite (testbit_above 64) by lia; done].
  rewrite andb_true_l. f_equal. destruct (Z.ltb_spec k (1 + first)), (Z.ltb_spec first k); (done || lia).
Qed.

Lemma find_fit_ok h S want pa : indexed h S -> 
  let wanted := if pa : bool then u64 (want + HEAP_PAGE_SIZE + HEADER + HEAP_ALIGN) else want in
  0 < wanted < 2 ^ 64 ->
  returns (find_fit h want pa) (fun r =>
    match r with
    | Some a => a ∈ S /\ exists b, mem h !! a = Some b /\ wanted <= size b
    | None => forall a b, a ∈ S -> mem h !! a = Some b -> size b < wanted
    end).
Proof.
  intros (F & Hok & HS) wanted Hw. unfold find_fit. fold wanted.
  pose proof (bin_of_bound wanted ltac:(lia)) as Hf. pose proof (bin_of_spec wanted ltac:(lia)) as Hsp.
  set (first := bin_of wanted) in *.
  rewrite (rd_lookup (bins h) first (hd_error (F (Z.to_nat first)))), bind_ret by first [lia|apply (bo_head _ _ Hok); lia].
  eapply returns_bind; [by apply (scan_bin_ok h F (Z.to_nat first)); [done|done|apply class_small]|].
  intros [a|]; [intros [Ha Hb]; cbn; split; [apply HS; eauto|done]|]. intros Hnone.
  set (larger := if first + 1 <? HEAP_BINS then _ else 0). unfold HEAP_BINS in larger.
  assert (forall k, 0 <= k < 64 -> Z.testbit larger k = Z.testbit (bin_mask h) k && (first <? k)) as Hbits.
  { intros k Hk. unfold larger. destruct (Z.ltb_spec (first + 1) 64).
    - apply larger_bits; try lia. apply (bo_mask _ _ Hok).
    - rewrite Z.bits_0. replace (first <? k) with false by lia. by rewrite andb_false_r. }
  assert (0 <= larger < 2 ^ 64) as Hl.
  { unfold larger. destruct (_ <? _); [|lia]. apply land_bound; [lia|apply (bo_mask _ _ Hok)]. }
  assert (forall k a, a ∈ F k -> exists b, mem h !! a = Some b /\ 0 <= Z.of_nat k < 64 /\ bin_of (size b) = Z.of_nat k /\
    0 <= size b < 2 ^ 64) as Hmem.
  { intros k a Ha. destruct (bo_mem _ _ Hok k a Ha) as (Hk & _ & b & Hb & _ & H1). exists b. split_and!; try done; lia. }
  destruct (Z.eqb_spec larger 0) as [E0|E0].
  - cbn [returns]. intros a b [k Ha]%HS Hb. destruct (Hmem k a Ha) as (b' & Hb' & Hk & Ebin & Hbs).
    rewrite Hb in Hb'. injection Hb' as <-.
    destruct (decide (Z.of_nat k = first)) as [Ek|Hkf]; [apply (Hnone a b); [|done]; by rewrite <- Ek, Nat2Z.id|].
    assert (Z.of_nat k < first) as Hlt.
    { specialize (Hbits (Z.of_nat k) Hk). rewrite E0, Z.bits_0 in Hbits. symmetry in Hbits.
      rewrite (proj2 (bo_bit _ _ Hok k ltac:(lia))) in Hbits; [lia|]. intros E. rewrite E in Ha. by apply elem_of_nil in Ha. }
    destruct (decide (size b = 0)); [lia|]. pose proof (bin_of_spec (size b) ltac:(lia)) as Hb2. rewrite Ebin in Hb2.
    pose proof (Z.pow_le_mono_r 2 (Z.of_nat k + 1) first). lia.
  - destruct (ctz_bit larger ltac:(lia)) as [Hc0 Hcb].
    assert (ctz larger < 64) as Hc.
    { destruct (Z.ltb_spec (ctz larger) 64); [done|]. rewrite (testbit_above 64) in Hcb by lia. done. }
    rewrite Hbits in Hcb by lia. apply andb_true_iff in Hcb as [Hm Hgt].
    rewrite <- (Z2Nat.id (ctz larger)) in Hm by lia. apply (bo_bit _ _ Hok) in Hm; [|lia].
    rewrite (rd_lookup _ _ (hd_error (F (Z.to_nat (ctz larger))))) by first [lia|apply (bo_head _ _ Hok); lia].
    destruct (F (Z.to_nat (ctz larger))) as [|a L] eqn:EF; [done|]. cbn [returns hd_error].
    destruct (Hmem (Z.to_nat (ctz larger)) a) as (b & Hb & Hk & Ebin & Hbs); [rewrite EF; by left|].
    split; [apply HS; exists (Z.to_nat (ctz larger)); rewrite EF; by left|]. exists b. split; [done|].
    assert (0 < size b) as Hpos by (unfold bin_of in Ebin; destruct (Z.eqb_spec (size b) 0); lia).
    pose proof (bin_of_spec (size b) Hpos) as Hb2. rewrite Ebin, Z2Nat.id in Hb2 by lia.
    pose proof (Z.pow_le_mono_r 2 (first + 1) (ctz larger)). lia.
Qed.

(** The index survives what does not touch the listed headers' sizes and list
    fields and leaves them accessible. *)
Definition listing (b : heap_block) : Z * Z * option Z * option Z := (size b, bin b, free_prev b, free_next b).

Lemma indexed_frame h h' S : indexed h S -> bins h' = bins h -> bin_mask h' = bin_mask h ->
  (forall a, a ∈ S -> listing <$> mem h' !! a = listing <$> mem h !! a /\ accessible h' a = true) -> indexed h' S.
Proof.
  intros (F & [Hl Hm Hh Hd Hbit Hli Hmem] & HS) Eb Em Hf. exists F. split; [|done].
  constructor; rewrite ?Eb, ?Em; try done.
  - intros n. eapply dseg_ext; [apply Hli|]. intros x Hx. destruct (Hf x) as [E _]; [apply HS; eauto|].
    unfold fnx, fpv. destruct (mem h' !! x), (mem h !! x); try done. injection E as E1 E2 E3 E4. cbn. auto.
  - intros n x Hx. destruct (Hf x) as [E Ha]; [apply HS; eauto|]. destruct (Hmem n x Hx) as (Hn & _ & b & Hb & H1 & H2).
    split_and!; [done|done|]. rewrite Hb in E. destruct (mem h' !! x) as [b'|]; [|done]. injection E as E1 E2 E3 E4.
    exists b'. by rewrite E1, E2.
Qed.
