(* ===== verification/HeapRow.v ===== *)
(** * The heap's blocks in memory

    The headers of the heap form a row of blocks without gaps ([chain],
    [physical]), on mapped pages ([backed]).  Cutting a block in two, merging
    two neighbours, changing flags and giving pages back or mapping them again
    are each shown to do to the row what they mean to. *)

From S2P Require Import Prelude Heap HeapBins.

(** ** The row of blocks

    [ablk]: a block without its addresses.  [chain m mp p a C n]: the headers
    in [m] form the row [C] from address [a] on; the first one's [prev] is
    [p], the last one's [next] is [n]; every header is on mapped pages.
    [backed mp a C]: so is the payload of every block whose pages were not
    given back. *)

Record ablk := ABlk { sz : Z; fr : bool; rel : bool }.

Definition span (C : list ablk) : Z := foldr (fun c s => HEADER + sz c + s) 0 C.

Definition resident (mp : gset Z) (x n : Z) : Prop := forall y, x <= y < x + n -> round_down y ∈ mp.

Definition hdr (c : ablk) (n p : option Z) : heap_block := HeapBlock HEAP_MAGIC (fr c) (rel c) 0 (sz c) n p None None.

Definition ablk_ok (c : ablk) : Prop := 16 <= sz c /\ (16 | sz c) /\ (fr c = false -> rel c = false).

Definition nxt (a : Z) (C : list ablk) (n : option Z) : option Z := match C with [] => n | _ => Some a end.

Fixpoint lastp (p : option Z) (a : Z) (C : list ablk) : option Z :=
  match C with
  | [] => p
  | c :: C => lastp (Some a) (a + HEADER + sz c) C
  end.

Fixpoint chain (m : gmap Z heap_block) (mp : gset Z) (p : option Z) (a : Z) (C : list ablk) (n : option Z) : Prop :=
  match C with
  | [] => True
  | c :: C =>
      (core <$> m !! a = Some (hdr c (nxt (a + HEADER + sz c) C n) p) /\ ablk_ok c /\
       resident mp a HEADER) /\
      chain m mp (Some a) (a + HEADER + sz c) C n
  end.

Fixpoint backed (mp : gset Z) (a : Z) (C : list ablk) : Prop :=
  match C with
  | [] => True
  | c :: C => (rel c = false -> resident mp (a + HEADER) (sz c)) /\ backed mp (a + HEADER + sz c) C
  end.

Fixpoint frees (a : Z) (C : list ablk) : gset Z :=
  match C with
  | [] => ∅
  | c :: C => (if fr c then {[a]} else ∅) ∪ frees (a + HEADER + sz c) C
  end.

Definition in_use (C : list ablk) : Z := foldr (fun c s => (if fr c then 0 else sz c) + s) 0 C.

(** No two neighbours are both free. *)
Fixpoint coalesced (C : list ablk) : Prop :=
  match C with
  | c :: (d :: _) as C => fr c && fr d = false /\ coalesced C
  | _ => True
  end.

Lemma span_app C D : span (C ++ D) = span C + span D.
Proof. induction C; cbn; [done|]. unfold span in *. lia. Qed.

Lemma in_use_app C D : in_use (C ++ D) = in_use C + in_use D.
Proof. induction C; cbn; [done|]. unfold in_use in *. lia. Qed.

Lemma lastp_app p a C D : lastp p a (C ++ D) = lastp (lastp p a C) (a + span C) D.
Proof.
  revert p a. induction C as [|c C IH]; intros p a; cbn; [by rewrite Z.add_0_r|].
  rewrite IH. f_equal. unfold span. lia.
Qed.

Lemma frees_app a C D : frees a (C ++ D) = frees a C ∪ frees (a + span C) D.
Proof.
  revert a. induction C as [|c C IH]; intros a; cbn; [by rewrite Z.add_0_r, (left_id_L ∅ _)|].
  rewrite IH, (assoc_L _). fold (span C).
  by replace (a + HEADER + sz c + span C) with (a + (HEADER + sz c + span C)) by lia.
Qed.

Lemma nxt_app a C D n : nxt a (C ++ D) n = nxt a C (nxt a D n).
Proof. by destruct C. Qed.

Lemma chain_app m mp p a C D n :
  chain m mp p a (C ++ D) n <->
  chain m mp p a C (nxt (a + span C) D n) /\ chain m mp (lastp p a C) (a + span C) D n.
Proof.
  revert p a. induction C as [|c C IH]; intros p a; cbn [app chain lastp span foldr].
  - rewrite Z.add_0_r. naive_solver.
  - rewrite IH, nxt_app. fold (span C).
    replace (a + HEADER + sz c + span C) with (a + (HEADER + sz c + span C)) by lia.
    destruct C as [|c' C]; cbn [nxt span foldr]; [|tauto].
    rewrite Z.add_0_r, Z.add_assoc. tauto.
Qed.

Lemma chain_ok m mp p a C n : chain m mp p a C n -> Forall ablk_ok C.
Proof. revert p a. induction C as [|c C IH]; intros p a; cbn; [done|]. intros [(_ & H & _) H2]. eauto. Qed.

Lemma span_nonneg C : Forall ablk_ok C -> 0 <= span C.
Proof. induction 1 as [|c C [H _] _ IH]; cbn; [done|]. unfold span, HEADER in *. lia. Qed.

Lemma frees_range a C x : Forall ablk_ok C -> x ∈ frees a C -> a <= x < a + span C.
Proof.
  intros Hok. revert a. induction Hok as [|c C [Hc _] Hok IH]; intros a; cbn [frees span foldr]; [by intros ?%elem_of_empty|].
  pose proof (span_nonneg C Hok). fold (span C). unfold HEADER in *. intros [Hx|Hx%IH]%elem_of_union; [|lia].
  destruct (fr c); [apply elem_of_singleton in Hx; lia|by apply elem_of_empty in Hx].
Qed.

Lemma chain_frame m mp m' mp' p a C n : chain m mp p a C n ->
  (forall x, a <= x < a + span C -> core <$> m' !! x = core <$> m !! x) ->
  (forall y, a <= y < a + span C -> round_down y ∈ mp -> round_down y ∈ mp') ->
  chain m' mp' p a C n.
Proof.
  revert p a. induction C as [|c C IH]; intros p a; cbn [chain]; [done|].
  intros [(H1 & H2 & H3) H5] Hm Hp. pose proof (span_nonneg C (chain_ok _ _ _ _ _ _ H5)). pose proof H2 as (Hs & _).
  cbn [span foldr] in Hm, Hp. fold (span C) in Hm, Hp. unfold HEADER in *. split_and!; try done.
  - rewrite Hm by lia. done.
  - intros y Hy. apply Hp; [lia|auto].
  - apply IH; [done|intros; apply Hm; lia|intros; apply Hp; [lia|done]].
Qed.

Lemma backed_app mp a C D : backed mp a (C ++ D) <-> backed mp a C /\ backed mp (a + span C) D.
Proof.
  revert a. induction C as [|c C IH]; intros a; cbn [app backed span foldr].
  - rewrite Z.add_0_r. tauto.
  - rewrite IH. fold (span C). replace (a + HEADER + sz c + span C) with (a + (HEADER + sz c + span C)) by lia. tauto.
Qed.

Lemma backed_frame mp mp' a C : Forall ablk_ok C -> backed mp a C ->
  (forall y, a <= y < a + span C -> round_down y ∈ mp -> round_down y ∈ mp') -> backed mp' a C.
Proof.
  intros Hok. revert a. induction Hok as [|c C [Hc _] Hok IH]; intros a; cbn [backed span foldr]; [done|].
  pose proof (span_nonneg C Hok). fold (span C). unfold HEADER in *. intros [H1 H2] Hp. split.
  - intros Hr y Hy. apply Hp; [lia|]. by apply H1.
  - apply IH; [done|]. intros. apply Hp; [lia|done].
Qed.

(** The variables of the file agree with the row [C]. *)
Record physical (h : heap) (C : list ablk) : Prop := Physical {
  ph_chain : chain (mem h) (mapped h) None HEAP_START C None;
  ph_some : C <> [];
  ph_head : head h = Some HEAP_START;
  ph_tail : tail h = lastp None HEAP_START C;
  ph_size : heap_size h = span C;
  ph_page : (HEAP_PAGE_SIZE | heap_size h);
  ph_max : heap_size h <= HEAP_VIRTUAL_BYTES;
  ph_limit : 0 <= limit h <= HEAP_VIRTUAL_BYTES }.

Lemma resident_accessible h a : resident (mapped h) a HEADER -> accessible h a = true.
Proof.
  intros H. unfold accessible. apply andb_true_iff. split; apply bool_decide_eq_true, H; unfold HEADER; lia.
Qed.

Lemma physical_same h h' C : physical h C -> same_but_lists h h' -> physical h' C.
Proof.
  intros [] []. constructor; try congruence.
  eapply chain_frame; [done|done|]. by rewrite sl_mapped.
Qed.

(** What is known of a block of the row. *)
Record block_at (h : heap) (A : list ablk) (c : ablk) (B : list ablk) (a : Z) (b : heap_block) : Prop := BlockAt {
  ba_addr : a = HEAP_START + span A;
  ba_access : accessible h a = true;
  ba_mem : mem h !! a = Some b;
  ba_magic : magic b = HEAP_MAGIC;
  ba_free : is_free b = fr c;
  ba_released : pages_released b = rel c;
  ba_size : size b = sz c;
  ba_next : next b = nxt (a + HEADER + sz c) B None;
  ba_prev : prev b = lastp None HEAP_START A;
  ba_ok : ablk_ok c;
  ba_left : 0 <= span A;
  ba_right : 0 <= span B;
  ba_total : span A + (HEADER + sz c) + span B = heap_size h;
  ba_max : heap_size h <= HEAP_VIRTUAL_BYTES }.

Lemma physical_at h A c B : physical h (A ++ c :: B) -> exists b, block_at h A c B (HEAP_START + span A) b.
Proof.
  intros []. pose proof (chain_ok _ _ _ _ _ _ ph_chain0) as Hok. apply Forall_app in Hok as [HA Hok]. pose proof (Forall_inv Hok) as Hc. pose proof (Forall_inv_tail Hok) as HB.
  apply chain_app in ph_chain0 as [_ H2]. destruct H2 as [(H1 & _ & H3) _].
  destruct (mem h !! (HEAP_START + span A)) as [b|] eqn:Eb; [|done]. exists b. cbn in H1. injection H1 as E1 E2 E3 E4 E5 E6.
  constructor; try done.
  - by apply resident_accessible.
  - by apply span_nonneg.
  - by apply span_nonneg.
  - rewrite ph_size0, span_app. cbn. unfold span. lia.
Qed.

(** [headers] computes with the fields of headers. *)
Ltac headers :=
  cbn; unfold core, hdr, listing, new_block, set_bin, set_free_prev, set_free_next, set_prev, set_next, set_size,
    set_is_free, set_released; cbn.

(** [quiet P h h']: the size classes and the totals are untouched, and so is
    what they rely on in the headers that satisfy [P]. *)
Record quiet (P : Z -> Prop) (h h' : heap) : Prop := Quiet {
  qu_mem : forall x, P x -> listing <$> mem h' !! x = listing <$> mem h !! x;
  qu_mapped : mapped h' = mapped h;
  qu_bins : bins h' = bins h;
  qu_mask : bin_mask h' = bin_mask h;
  qu_size : heap_size h' = heap_size h;
  qu_allocated : heap_allocated h' = heap_allocated h;
  qu_limit : limit h' = limit h }.

Lemma quiet_trans P h1 h2 h3 : quiet P h1 h2 -> quiet P h2 h3 -> quiet P h1 h3.
Proof. intros [] []. constructor; try congruence. intros x Hx. by rewrite qu_mem1, qu_mem0. Qed.

Lemma quiet_mono (P Q : Z -> Prop) h h' : quiet P h h' -> (forall x, Q x -> P x) -> quiet Q h h'.
Proof. intros [] H. constructor; auto. Qed.

Lemma indexed_quiet h h' S : indexed h S -> quiet (fun x => x ∈ S) h h' -> indexed h' S.
Proof.
  intros HS []. eapply indexed_frame; [done|done|done|]. intros a Ha. split; [auto|].
  destruct HS as (F & Hok & HS). apply HS in Ha as [n Hn]. destruct (bo_mem _ _ Hok n a Hn) as (_ & Hacc & _).
  unfold accessible in *. by rewrite qu_mapped0.
Qed.

Lemma quiet_alter (P : Z -> Prop) h a f : (P a -> forall b, listing (f b) = listing b) ->
  quiet P h (set_mem (alter f a (mem h)) h).
Proof.
  intros Hf. constructor; try done. intros x Hx. cbn. destruct (decide (a = x)) as [->|]; [|by rewrite lookup_alter_ne].
  rewrite lookup_alter_eq. destruct (mem h !! x); [|done]. cbn. by rewrite Hf.
Qed.

(** Putting [M'] in the place of [M]. *)
Lemma physical_replace h h' A M M' B : physical h (A ++ M ++ B) -> M <> [] -> M' <> [] -> span M' = span M ->
  head h' = head h -> tail h' = lastp None HEAP_START (A ++ M' ++ B) -> heap_size h' = heap_size h ->
  limit h' = limit h ->
  (forall x, HEAP_START <= x < HEAP_START + span A -> core <$> mem h' !! x = core <$> mem h !! x) ->
  (forall y, HEAP_START <= y < HEAP_START + span A -> round_down y ∈ mapped h -> round_down y ∈ mapped h') ->
  chain (mem h') (mapped h') (lastp None HEAP_START A) (HEAP_START + span A) M'
    (nxt (HEAP_START + span A + span M) B None) ->
  chain (mem h') (mapped h') (lastp None HEAP_START (A ++ M')) (HEAP_START + span A + span M) B None ->
  physical h' (A ++ M' ++ B).
Proof.
  intros [] Hne Hne' Es Eh Et Ez El Hm Hp HM HB. constructor; try congruence.
  - apply chain_app in ph_chain0 as [HA _]. apply chain_app. split.
    + rewrite nxt_app in *. destruct M, M'; try done. by eapply chain_frame.
    + apply chain_app. rewrite Es. split; [done|]. by rewrite lastp_app in HB.
  - destruct A, M'; done.
  - rewrite !span_app in *. lia.
Qed.

(** [link_back] at the block that starts at [e], or at the end. *)
Definition linked (h : heap) (e : Z) (B : list ablk) (q : Z) : heap :=
  match B with
  | [] => set_tail (Some q) h
  | _ => set_mem (alter (set_prev (Some q)) e (mem h)) h
  end.

Lemma link_back_eq h p e B q : chain (mem h) (mapped h) p e B None ->
  link_back h (nxt e B None) q = Ret (linked h e B q) /\
  chain (mem (linked h e B q)) (mapped h) (Some q) e B None.
Proof.
  destruct B as [|d B]; [done|]. cbn [nxt link_back linked chain]. intros [(H1 & H2 & H3) H4].
  destruct (mem h !! e) as [b|] eqn:Eb; [|done]. cbn in H1. injection H1 as E1 E2 E3 E4 E5 E6.
  split; [eapply modify_alter; [by apply resident_accessible|exact Eb]|]. split_and!; try done.
  - cbn. rewrite lookup_alter_eq, Eb. headers. by rewrite E1, E2, E3, E4, E5.
  - pose proof H2 as (Hs & _). eapply chain_frame; [exact H4| |done]. intros x Hx. cbn.
    rewrite lookup_alter_ne; [done|]. unfold HEADER in *. lia.
Qed.

Lemma linked_quiet P h e B q : quiet P h (linked h e B q).
Proof. destruct B; [done|]. apply quiet_alter. by intros _ []. Qed.

Lemma linked_other h e B q x : x <> e -> mem (linked h e B q) !! x = mem h !! x.
Proof. intros. destruct B; [done|]. cbn. by rewrite lookup_alter_ne. Qed.

Lemma lastp_cons_any p p' a c C : lastp p a (c :: C) = lastp p' a (c :: C).
Proof. done. Qed.

(** Changing the flags of a block. *)
Lemma modify_flags h A c B a b f c' : physical h (A ++ c :: B) -> block_at h A c B a b -> sz c' = sz c ->
  ablk_ok c' -> core (f b) = hdr c' (next b) (prev b) -> (forall b, listing (f b) = listing b) ->
  returns (modify h a f) (fun h' => physical h' (A ++ c' :: B) /\ quiet (fun _ => True) h h').
Proof.
  intros Hp Hb Ez Hok Hc Hl. rewrite (modify_alter h a b) by apply Hb. cbn [returns].
  split; [|by apply quiet_alter]. destruct Hb. pose proof Hp as [].
  eapply (physical_replace h _ A [c] [c'] B); cbn [app]; try done.
  - cbn. by rewrite Ez.
  - cbn. rewrite ph_tail0, !lastp_app. cbn. by rewrite Ez.
  - intros x Hx. cbn. rewrite lookup_alter_ne; [done|]. lia.
  - cbn [chain]. split; [|done]. cbn [mem set_mem mapped]. rewrite <- ba_addr0, lookup_alter_eq, ba_mem0. cbn.
    rewrite Hc, ba_next0, ba_prev0, Z.add_0_r, Z.add_assoc. split_and!; try done.
    apply chain_app in ph_chain0 as [_ [(_ & _ & H3) _]]. by rewrite ba_addr0.
  - apply chain_app in ph_chain0 as [_ [_ H4]]. rewrite lastp_app. cbn in *. rewrite Z.add_0_r, Z.add_assoc.
    eapply chain_frame; [exact H4| |done]. intros x Hx. rewrite lookup_alter_ne; [done|].
    destruct ba_ok0. unfold HEADER in *. lia.
Qed.

(** The rest of the row, seen from one of its blocks. *)
Lemma chain_right h A c B a b : physical h (A ++ c :: B) -> block_at h A c B a b ->
  chain (mem h) (mapped h) (Some a) (a + HEADER + sz c) B None /\ resident (mapped h) a HEADER.
Proof.
  intros [] []. apply chain_app in ph_chain0 as [_ [(_ & _ & H3) H4]]. by rewrite ba_addr0.
Qed.

Lemma split_block_ok h A c B a b c1 c2 : physical h (A ++ c :: B) -> block_at h A c B a b ->
  sz c = sz c1 + HEADER + sz c2 -> fr c1 = fr c -> rel c1 = rel c -> fr c2 = true -> ablk_ok c1 -> ablk_ok c2 ->
  let rest := a + HEADER + sz c1 in resident (mapped h) rest HEADER ->
  returns (split_block h a b (sz c1) rest (sz c2) (rel c2)) (fun h' =>
    physical h' (A ++ c1 :: c2 :: B) /\ quiet (fun x => x <> a /\ x <> rest) h h').
Proof.
  intros Hp Hb Ez Ef Er Ef2 Hok1 Hok2 rest Hres. destruct (chain_right h A c B a b Hp Hb) as [HB Ha].
  pose proof Hok1 as (Hs1 & _). pose proof Hok2 as (Hs2 & _). pose proof Hb as []. pose proof Hp as [].
  assert (rest + HEADER + sz c2 = a + HEADER + sz c) as Ee by lia. assert (a < rest) by (unfold rest, HEADER; lia).
  assert (rest < a + HEADER + sz c) by (rewrite <- Ee; unfold HEADER; lia).
  unfold split_block, store. rewrite (resident_accessible h rest Hres), bind_ret.
  set (nb := set_released _ _). set (h1 := set_mem (<[rest := nb]> (mem h)) h).
  assert (chain (mem h1) (mapped h1) (Some a) (a + HEADER + sz c) B None) as HB1.
  { eapply chain_frame; [exact HB| |done]. intros x Hx. cbn. rewrite lookup_insert_ne by lia. done. }
  rewrite ba_next0. destruct (link_back_eq h1 _ _ _ rest HB1) as [-> HB2]. rewrite bind_ret.
  set (h2 := linked h1 (a + HEADER + sz c) B rest) in *.
  pose proof (linked_quiet (fun x => x <> a /\ x <> rest) h1 (a + HEADER + sz c) B rest) as Hq. fold h2 in Hq.
  assert (mem h2 !! a = Some b) as Hb2.
  { unfold h2. rewrite linked_other by lia. cbn. by rewrite lookup_insert_ne by lia. }
  assert (accessible h2 a = true) as Ha2 by (unfold accessible; rewrite (qu_mapped _ _ _ Hq); exact ba_access0).
  rewrite (modify_ok h2 a b), bind_ret by done. erewrite modify_ok by first [exact Ha2|apply lookup_insert_eq].
  cbn [mem set_mem returns]. rewrite insert_insert_eq. set (b' := set_next _ _).
  set (h4 := set_mem (<[a := b']> (mem h2)) h2).
  assert (mapped h4 = mapped h) as Emp by apply Hq. split.
  - eapply (physical_replace h h4 A [c] [c1; c2] B); cbn [app]; try done.
    + cbn. lia.
    + unfold h2. by destruct B.
    + change (tail h4) with (tail h2). rewrite lastp_app. cbn [lastp].
      unfold h2, h1. destruct B as [|d B]; cbn [linked tail set_tail set_mem lastp]; [by rewrite <- ba_addr0|].
      rewrite ph_tail0, lastp_app. cbn [lastp]. rewrite <- !ba_addr0. f_equal; f_equal; lia.
    + apply Hq.
    + apply Hq.
    + intros x Hx. cbn. rewrite lookup_insert_ne by lia. unfold h2. rewrite linked_other by lia. cbn.
      by rewrite lookup_insert_ne by lia.
    + intros y _. by rewrite Emp.
    + cbn [chain span foldr nxt]. rewrite Emp, <- ba_addr0. cbn [mem set_mem h4]. split_and!; try done.
      * rewrite lookup_insert_eq. unfold b'. headers. by rewrite ba_magic0, ba_free0, ba_released0, ba_prev0, Ef, Er.
      * rewrite lookup_insert_ne by (unfold rest in *; lia). unfold h2. rewrite linked_other by lia. cbn.
        rewrite lookup_insert_eq. unfold nb. headers. rewrite ba_next0, Ef2. fold rest.
        replace (rest + HEADER + sz c2) with (a + (HEADER + sz c + 0)) by lia.
        by replace (a + HEADER + sz c) with (a + (HEADER + sz c + 0)) by lia.
    + rewrite lastp_app. cbn [span foldr lastp]. rewrite <- ba_addr0, Z.add_0_r, Z.add_assoc. fold rest.
      rewrite Emp.
      eapply chain_frame; [exact HB2| |done]. intros x Hx. cbn. rewrite lookup_insert_ne by lia. done.
  - eapply quiet_trans; [|eapply quiet_trans; [exact Hq|]].
    + constructor; try done. intros x [Hxa Hxr]. cbn. by rewrite lookup_insert_ne.
    + constructor; try done. intros x [Hxa Hxr]. cbn. by rewrite lookup_insert_ne.
Qed.

Lemma ablk_ok_merge c d : ablk_ok c -> ablk_ok d -> fr c = true ->
  ablk_ok (ABlk (sz c + HEADER + sz d) (fr c) (rel c || rel d)).
Proof.
  intros (H1 & H2 & _) (H3 & H4 & _) Hf. unfold ablk_ok, HEADER. cbn. split_and!; [lia| |by rewrite Hf].
  apply Z.divide_add_r; [apply Z.divide_add_r; [done|by exists 3]|done].
Qed.

Lemma absorb_ok h A c d B a b : physical h (A ++ c :: d :: B) -> block_at h A c (d :: B) a b -> fr c = true ->
  returns (absorb h a (a + HEADER + sz c)) (fun h' =>
    physical h' (A ++ ABlk (sz c + HEADER + sz d) (fr c) (rel c || rel d) :: B) /\ quiet (fun x => x <> a) h h').
Proof.
  intros Hp Hb Hfr. set (n := a + HEADER + sz c). set (c' := ABlk _ _ _).
  assert (exists nb, block_at h (A ++ [c]) d B n nb) as [nb Hn].
  { destruct (physical_at h (A ++ [c]) d B) as [nb Hn]; [by rewrite <- app_assoc|]. exists nb.
    replace n with (HEAP_START + span (A ++ [c])); [done|]. destruct Hb. subst n. rewrite span_app. cbn. lia. }
  pose proof (chain_right h (A ++ [c]) d B n nb ltac:(by rewrite <- app_assoc) Hn) as [HB _].
  destruct (chain_right h A c _ a b Hp Hb) as [_ Ha].
  pose proof (ablk_ok_merge c d (ba_ok _ _ _ _ _ _ Hb) (ba_ok _ _ _ _ _ _ Hn) Hfr) as Hok'.
  pose proof Hb as []. pose proof Hp as []. pose proof (ba_ok _ _ _ _ _ _ Hn) as (Hsd & _).
  pose proof ba_ok0 as (Hsc & _). pose proof (ba_total _ _ _ _ _ _ Hn) as Htot. pose proof (ba_right _ _ _ _ _ _ Hn).
  assert (0 <= span (A ++ [c])) by apply Hn.
  assert (a < n) by (unfold n, HEADER; lia). unfold HEAP_VIRTUAL_BYTES, HEADER in *.
  unfold absorb. rewrite (load_ok h n nb), bind_ret by apply Hn.
  rewrite (modify_ok h a b), bind_ret by done.
  do 2 (erewrite modify_ok, bind_ret by first [exact ba_access0|apply lookup_insert_eq]; cbn [mem set_mem]).
  cbn [mem set_mem]. rewrite !insert_insert_eq. set (b' := set_next _ _).
  set (h1 := set_mem (<[a := b']> (mem h)) h).
  change (set_mem (<[a := b']> (mem h)) _) with h1. fold HEADER in *.
  rewrite (ba_next _ _ _ _ _ _ Hn).
  assert (chain (mem h1) (mapped h1) (Some n) (n + HEADER + sz d) B None) as HB1.
  { eapply chain_frame; [exact HB| |done]. intros x Hx. cbn. rewrite lookup_insert_ne by (unfold HEADER in *; lia). done. }
  destruct (link_back_eq h1 _ _ _ a HB1) as [-> HB2]. cbn [returns].
  set (h2 := linked h1 (n + HEADER + sz d) B a) in *.
  pose proof (linked_quiet (fun x => x <> a) h1 (n + HEADER + sz d) B a) as Hq. fold h2 in Hq.
  assert (mapped h2 = mapped h) as Emp by apply Hq.
  assert (forall x, x <> a -> x <> n + HEADER + sz d -> mem h2 !! x = mem h !! x) as Hoth.
  { intros x Hx1 Hx2. unfold h2. rewrite linked_other by done. cbn. by rewrite lookup_insert_ne. }
  split.
  - eapply (physical_replace h h2 A [c; d] [c'] B); cbn [app]; try done.
    + cbn. unfold HEADER. lia.
    + unfold h2. by destruct B.
    + rewrite lastp_app. cbn [lastp]. unfold h2, h1. rewrite <- ba_addr0.
      destruct B as [|e B]; cbn [linked tail set_tail set_mem lastp]; [done|].
      rewrite ph_tail0, lastp_app. cbn [lastp]. rewrite <- !ba_addr0. unfold n, c'. cbn [sz]. f_equal; f_equal; lia.
    + apply Hq.
    + apply Hq.
    + intros x Hx. rewrite Hoth by (unfold HEADER in *; lia). done.
    + intros y _. by rewrite Emp.
    + cbn [chain span foldr nxt]. rewrite Emp, <- ba_addr0. split_and!; try done. unfold h2.
      rewrite linked_other by (unfold HEADER in *; lia). cbn [mem set_mem h1]. rewrite lookup_insert_eq. unfold b'. headers.
      rewrite ba_magic0, ba_free0, ba_released0, ba_prev0, ba_size0, (ba_size _ _ _ _ _ _ Hn), (ba_released _ _ _ _ _ _ Hn), (ba_next _ _ _ _ _ _ Hn).
      unfold n, HEADER in *. words. f_equal. f_equal; [lia|f_equal; lia].
    + rewrite lastp_app. cbn [span foldr lastp]. rewrite <- ba_addr0, Emp.
      replace (a + (HEADER + sz c + (HEADER + sz d + 0))) with (n + HEADER + sz d) by (unfold n; lia). done.
  - eapply quiet_trans; [|exact Hq]. constructor; try done. intros x Hx. cbn. by rewrite lookup_insert_ne.
Qed.

(** ** Pages *)

Lemma round_down_spec a : 0 <= a < 2 ^ 64 ->
  (HEAP_PAGE_SIZE | round_down a) /\ round_down a <= a < round_down a + HEAP_PAGE_SIZE.
Proof.
  intros Ha. unfold round_down, HEAP_PAGE_SIZE. change 4096 with (2 ^ 12). rewrite land_high by lia.
  split; [|dlia]. exists (a / 2 ^ 12). dlia.
Qed.

Lemma round_up_spec a : 0 <= a -> a + HEAP_PAGE_SIZE <= 2 ^ 64 ->
  (HEAP_PAGE_SIZE | round_up a) /\ a <= round_up a < a + HEAP_PAGE_SIZE.
Proof.
  unfold HEAP_PAGE_SIZE. intros Ha Hb. unfold round_up, HEAP_PAGE_SIZE. words.
  pose proof (round_down_spec (a + 4096 - 1) ltac:(lia)) as [H1 H2]. unfold HEAP_PAGE_SIZE in *. split; [done|lia].
Qed.

Lemma elem_page_run base n p : p ∈ page_run base n <-> exists i, p = base + i * HEAP_PAGE_SIZE /\ 0 <= i < Z.of_nat n.
Proof.
  unfold page_run. rewrite list_elem_of_fmap. split.
  - intros (i & -> & Hi%elem_of_seq). exists (Z.of_nat i). lia.
  - intros (i & -> & Hi). exists (Z.to_nat i). split; [by rewrite Z2Nat.id by lia|]. apply elem_of_seq. lia.
Qed.

(** A page that starts between two multiples of the page size lies between
    them. *)
Lemma page_inside lo hi y : (HEAP_PAGE_SIZE | lo) -> (HEAP_PAGE_SIZE | hi) -> 0 <= y < 2 ^ 64 ->
  lo <= round_down y < hi <-> lo <= y < hi.
Proof.
  intros [i ->] [j ->] Hy. destruct (round_down_spec y Hy) as [[k Hk] Hr]. unfold HEAP_PAGE_SIZE in *. nia.
Qed.

Lemma resident_app mp x n k : 0 <= n -> 0 <= k -> resident mp x n -> resident mp (x + n) k -> resident mp x (n + k).
Proof. intros Hn Hk H1 H2 y Hy. destruct (Z.lt_ge_cases y (x + n)); [apply H1|apply H2]; lia. Qed.

Lemma resident_sub mp x n x' n' : resident mp x n -> x <= x' -> x' + n' <= x + n -> resident mp x' n'.
Proof. intros H H1 H2 y Hy. apply H. lia. Qed.

Lemma resident_mono mp mp' x n : resident mp x n -> mp ⊆ mp' -> resident mp' x n.
Proof. intros H Hs y Hy. by apply Hs, H. Qed.

Lemma map_missing_ok avail n : forall m page m' ok, map_missing avail m page n = (m', ok) ->
  m ⊆ m' /\ (ok = true -> forall i, 0 <= i < Z.of_nat n -> page + i * HEAP_PAGE_SIZE ∈ m').
Proof.
  induction n as [|n IH]; intros m page m' ok; cbn [map_missing]; [intros [= <- <-]; split; [done|lia]|].
  assert (forall (M : gset Z), page ∈ m' -> (forall i, 0 <= i < Z.of_nat n -> page + HEAP_PAGE_SIZE + i * HEAP_PAGE_SIZE ∈ m') ->
    forall i, 0 <= i < Z.of_nat (S n) -> page + i * HEAP_PAGE_SIZE ∈ m') as Hcons.
  { intros _ H0 H1 i Hi. destruct (decide (i = 0)) as [->|]; [by rewrite Z.add_0_r|].
    replace (page + i * HEAP_PAGE_SIZE) with (page + HEAP_PAGE_SIZE + (i - 1) * HEAP_PAGE_SIZE) by lia. apply H1. lia. }
  case_decide as Hin; [|destruct (avail page)].
  - intros [Hs Hr]%IH. split; [done|]. intros E. apply (Hcons m); [by apply Hs|auto].
  - intros [Hs Hr]%IH. split; [set_solver|]. intros E. apply (Hcons m); [apply Hs; set_solver|auto].
  - intros [= <- <-]. done.
Qed.

(** *** Members of the row are accessible *)

Lemma frees_split a C x : x ∈ frees a C -> exists A c B, C = A ++ c :: B /\ fr c = true /\ x = a + span A.
Proof.
  revert a. induction C as [|c C IH]; intros a; cbn [frees]; [by intros ?%elem_of_empty|].
  intros [Hx|Hx]%elem_of_union.
  - destruct (fr c) eqn:E; [|by apply elem_of_empty in Hx]. apply elem_of_singleton in Hx as ->.
    exists [], c, C. cbn. split_and!; try done. lia.
  - destruct (IH _ Hx) as (A & d & B & -> & Hd & ->). exists (c :: A), d, B. split_and!; try done. cbn. unfold span. lia.
Qed.

Lemma indexed_physical h h' S C : indexed h S -> physical h' C -> S ⊆ frees HEAP_START C ->
  bins h' = bins h -> bin_mask h' = bin_mask h ->
  (forall x, x ∈ S -> listing <$> mem h' !! x = listing <$> mem h !! x) -> indexed h' S.
Proof.
  intros Hi Hp Hs Hb Hm Hl. eapply indexed_frame; [done|done|done|]. intros a Ha. split; [auto|].
  apply Hs, frees_split in Ha as (A & c & B & -> & _ & ->). destruct (physical_at _ _ _ _ Hp) as [b []]. done.
Qed.

Lemma frees_mid A c B : frees HEAP_START (A ++ c :: B) =
  frees HEAP_START A ∪ ((if fr c then {[HEAP_START + span A]} else ∅) ∪ frees (HEAP_START + span A + HEADER + sz c) B).
Proof. by rewrite frees_app. Qed.

(** A heap whose row is [C] and whose size classes hold the blocks [S]. *)
Record sound (h : heap) (C : list ablk) (S : gset Z) : Prop := Sound {
  so_phys : physical h C;
  so_backed : backed (mapped h) HEAP_START C;
  so_index : indexed h S }.

(** Other pages are mapped; the block [c] is the only one to lose some, and
    only of its payload. *)
Lemma physical_mapped h A c B a b mp : physical h (A ++ c :: B) -> block_at h A c B a b ->
  (forall y, ~ (a + HEADER <= y < a + HEADER + sz c) -> HEAP_START <= y < HEAP_START + HEAP_VIRTUAL_BYTES ->
     round_down y ∈ mapped h -> round_down y ∈ mp) ->
  physical (set_mapped mp h) (A ++ c :: B).
Proof.
  intros Hp Hb Hm. destruct (chain_right h A c B a b Hp Hb) as [HB Ha]. pose proof Hb as []. pose proof Hp as [].
  pose proof ba_ok0 as (Hsz & _).
  apply (physical_replace h (set_mapped mp h) A [c] [c] B); try done; unfold HEADER in *.
  - intros y Hy. apply Hm; lia.
  - apply chain_app in ph_chain0 as [_ [(H1 & _) _]]. cbn [chain span foldr nxt] in *. rewrite <- ba_addr0 in *.
    unfold HEADER in *. rewrite Z.add_0_r, Z.add_assoc. split_and!; try done. intros y Hy. apply Hm; [lia|lia|auto].
  - rewrite lastp_app. cbn [lastp span foldr]. rewrite <- ba_addr0. unfold HEADER.
    replace (a + (48 + sz c + 0)) with (a + 48 + sz c) by lia.
    eapply chain_frame; [exact HB|done|]. intros y Hy. apply Hm; lia.
Qed.

Lemma backed_mid mp A c B a : a = HEAP_START + span A ->
  backed mp HEAP_START (A ++ c :: B) <->
  backed mp HEAP_START A /\ (rel c = false -> resident mp (a + HEADER) (sz c)) /\ backed mp (a + HEADER + sz c) B.
Proof. intros ->. by rewrite backed_app. Qed.

Lemma sound_parts h A c B S : sound h (A ++ c :: B) S -> Forall ablk_ok A /\ Forall ablk_ok B.
Proof.
  intros [[] _ _]. pose proof (chain_ok _ _ _ _ _ _ ph_chain0) as Hok. apply Forall_app in Hok as [HA Hok].
  by pose proof (Forall_inv_tail Hok).
Qed.

Lemma release_pages_ok unmaps h A c B S a b : sound h (A ++ c :: B) S -> block_at h A c B a b -> fr c = true ->
  S ⊆ frees HEAP_START (A ++ c :: B) ->
  returns (heap_release_pages unmaps h a) (fun h' => exists r,
    sound h' (A ++ ABlk (sz c) true r :: B) S /\ heap_allocated h' = heap_allocated h).
Proof.
  intros Hs Hb Hfr HS. pose proof Hb as []. unfold heap_release_pages.
  rewrite (load_ok h a b), bind_ret, ba_released0, ba_size0 by done.
  assert (ABlk (sz c) true (rel c) = c) as Ec by (rewrite <- Hfr; by destruct c).
  branch E1; [exists (rel c); by rewrite Ec|]. pose proof ba_ok0 as (Hsz & _). unfold HEAP_VIRTUAL_BYTES, HEAP_START in *.
  assert (u64 (a + HEADER) = a + HEADER) as -> by (unfold HEADER in *; words; lia).
  assert (u64 (a + HEADER + sz c) = a + HEADER + sz c) as -> by (unfold HEADER in *; words; lia).
  destruct (round_up_spec (a + HEADER)) as [Hu1 Hu2]; [unfold HEADER in *; lia|unfold HEADER, HEAP_PAGE_SIZE in *; lia|].
  destruct (round_down_spec (a + HEADER + sz c)) as [Hd1 Hd2]; [unfold HEADER in *; lia|].
  set (lo := round_up _) in *. set (hi := round_down _) in *.
  branch E2; [exists (rel c); by rewrite Ec|]. set (gone := filter _ _).
  assert (forall p, p ∈ gone -> lo <= p < hi) as Hgone.
  { intros p [_ Hp]%list_elem_of_filter. apply elem_page_run in Hp as (i & -> & Hi).
    destruct Hu1 as [u Hu], Hd1 as [d Hd]. rewrite Hu, Hd in *. unfold HEAP_PAGE_SIZE in *.
    replace ((d * 4096 - u * 4096) / 4096) with (d - u) in Hi by (replace (d * 4096 - u * 4096) with ((d - u) * 4096) by lia; by rewrite Z.div_mul). lia. }
  set (h1 := set_mapped (mapped h ∖ list_to_set gone) h).
  assert (forall y, ~ (a + HEADER <= y < a + HEADER + sz c) -> HEAP_START <= y < HEAP_START + HEAP_VIRTUAL_BYTES ->
    round_down y ∈ mapped h -> round_down y ∈ mapped h1) as Hkeep.
  { intros y Hy Hr Hin. apply elem_of_difference. split; [done|]. intros Hg%elem_of_list_to_set%Hgone.
    apply (page_inside lo hi y) in Hg; [|done|done|unfold HEAP_START, HEAP_VIRTUAL_BYTES in *; lia]. unfold HEAP_PAGE_SIZE in *. lia. }
  destruct (sound_parts _ _ _ _ _ Hs) as [HAok HBok].
  destruct Hs as [Hp Hback Hi]. pose proof (physical_mapped h A c B a b (mapped h1) Hp Hb Hkeep) as Hp1.
  change (set_mapped (mapped h1) h) with h1 in Hp1.
  destruct (physical_at h1 A c B Hp1) as [b1 Hb1]. unfold HEAP_START in Hb1. rewrite <- ba_addr0 in Hb1.
  eapply returns_mono; [apply (modify_flags h1 A c B a b1 _ (ABlk (sz c) true true) Hp1 Hb1); try done|].
  - destruct ba_ok0 as (? & ? & ?). done.
  - destruct Hb1. headers. by rewrite ba_magic1, ba_free1, ba_size1, Hfr.
  - intros h' [Hp' Hq]. exists true. split; [|apply Hq]. constructor; [done| |].
    + rewrite (qu_mapped _ _ _ Hq). apply (backed_mid _ _ _ _ a); [done|]. apply (backed_mid _ _ _ _ a) in Hback as (H1 & _ & H3); [|done].
      split_and!; [|done|].
      * eapply backed_frame; [|done|]; [done|]. intros y Hy. cbn [sz] in Hy. apply Hkeep; unfold HEADER, HEAP_START, HEAP_VIRTUAL_BYTES in *; lia.
      * eapply backed_frame; [|done|]; [done|]. intros y Hy. cbn [sz] in Hy. apply Hkeep; unfold HEADER, HEAP_START, HEAP_VIRTUAL_BYTES in *; lia.
    + eapply indexed_physical; [exact Hi|exact Hp'| |apply Hq|apply Hq|]; [|intros x _; by apply Hq].
      rewrite frees_mid in *. cbn [fr sz]. by rewrite Hfr in HS.
Qed.

Lemma sound_more_pages h C S mp : sound h C S -> S ⊆ frees HEAP_START C -> mapped h ⊆ mp -> sound (set_mapped mp h) C S.
Proof.
  intros [Hp Hb Hi] HS Hsub. pose proof (chain_ok _ _ _ _ _ _ (ph_chain _ _ Hp)) as Hok.
  assert (physical (set_mapped mp h) C) as Hp'.
  { destruct Hp. constructor; try done. eapply chain_frame; [done|done|]. intros y _. apply Hsub. }
  constructor; [done| |].
  - eapply backed_frame; [done|exact Hb|]. intros y _. apply Hsub.
  - by eapply indexed_physical.
Qed.

Lemma reacquire_pages_ok avail h A c B S a b want : sound h (A ++ c :: B) S -> block_at h A c B a b ->
  S ⊆ frees HEAP_START (A ++ c :: B) -> 0 <= want <= sz c ->
  returns (heap_reacquire_pages avail h a want) (fun '(h', ok) =>
    sound h' (A ++ c :: B) S /\ block_at h' A c B a b /\ heap_allocated h' = heap_allocated h /\
    (ok = true -> resident (mapped h') (a + HEADER) (Z.min (sz c) (want + 2 * HEAP_PAGE_SIZE + HEADER + HEAP_ALIGN)))).
Proof.
  intros Hs Hb HS Hw. pose proof Hb as []. unfold heap_reacquire_pages.
  rewrite (load_ok h a b), bind_ret, ba_released0, ba_size0 by done.
  destruct (rel c) eqn:Er; cbn [negb].
  2: { cbn [returns]. split_and!; try done. intros _. pose proof (so_backed _ _ _ Hs) as Hk.
       apply (backed_mid _ _ _ _ a) in Hk as (_ & Hk & _); [|done]. eapply resident_sub; [by apply Hk|lia|lia]. }
  unfold HEAP_VIRTUAL_BYTES, HEAP_START, HEADER, HEAP_PAGE_SIZE, HEAP_ALIGN in *. words.
  set (W := if _ <? _ then _ else _).
  assert (W = a + 48 + Z.min (sz c) (want + 2 * 4096 + 48 + 16)) as EW by (unfold W; case_cmp; lia). clearbody W.
  destruct (round_down_spec (a + 48) ltac:(lia)) as [Hd1 Hd2].
  destruct (round_up_spec W) as [Hu1 Hu2]; unfold HEAP_PAGE_SIZE in *; [lia|lia|].
  destruct (map_missing avail (mapped h) (round_down (a + 48)) _) as [m ok] eqn:Em. cbn [returns].
  apply map_missing_ok in Em as [Hsub Hres]. split_and!.
  - by apply sound_more_pages.
  - constructor; try done; [|congruence]. unfold accessible in *. cbn. apply andb_true_iff in ba_access0 as [H1 H2].
    apply bool_decide_eq_true in H1, H2. apply andb_true_iff; split; apply bool_decide_eq_true; auto.
  - done.
  - intros E y Hy. rewrite <- (Z2Nat.id ((round_up W - round_down (a + 48)) / 4096)) in * by dlia.
    pose proof (page_inside (round_down (a + 48)) (round_up W) y Hd1 Hu1 ltac:(lia)) as Hin.
    destruct (round_down_spec y ltac:(lia)) as [[k Hk] _]. destruct Hd1 as [d Hd], Hu1 as [u Hu].
    unfold HEAP_PAGE_SIZE in *. rewrite Hk in *. replace (k * 4096) with (round_down (a + 48) + (k - d) * 4096) by lia.
    apply (Hres E). split; [lia|]. rewrite Hd, Hu in *.
    replace ((u * 4096 - d * 4096) / 4096) with (u - d) by (replace (u * 4096 - d * 4096) with ((u - d) * 4096) by lia; by rewrite Z.div_mul).
    lia.
Qed.
