(* ===== verification/HeapOps.v ===== *)
(** * The operations of the heap keep it in order

    [heap_ok h C]: the heap's row is [C], its size classes hold exactly the
    free blocks of [C], no two of them are neighbours, and the total is right.
    [kfree], [heap_grow] and [kmalloc] of Heap preserve it. *)

From S2P Require Import Prelude Heap HeapBins HeapRow.

(** ** Freeing keeps the heap in order *)

(** The blocks in use, with the sizes of their payloads. *)
Fixpoint used (a : Z) (C : list ablk) : gset (Z * Z) :=
  match C with
  | [] => ∅
  | c :: C => (if fr c then ∅ else {[(a, sz c)]}) ∪ used (a + HEADER + sz c) C
  end.

Lemma used_app a C D : used a (C ++ D) = used a C ∪ used (a + span C) D.
Proof.
  revert a. induction C as [|c C IH]; intros a; cbn; [by rewrite Z.add_0_r, (left_id_L ∅ _)|].
  rewrite IH, (assoc_L _). fold (span C).
  by replace (a + HEADER + sz c + span C) with (a + (HEADER + sz c + span C)) by lia.
Qed.

(** Everything in order: the row, the pages, the size classes with exactly the
    free blocks, no two free neighbours, and the right total. *)
Record heap_ok (h : heap) (C : list ablk) : Prop := HeapOk {
  ho_sound : sound h C (frees HEAP_START C);
  ho_coalesced : coalesced C;
  ho_allocated : heap_allocated h = in_use C }.

Definition hd_free (C : list ablk) : bool := match C with c :: _ => fr c | [] => false end.
Definition last_free (C : list ablk) : bool := match list.last C with Some c => fr c | None => false end.

Lemma coalesced_cons c C : coalesced (c :: C) <-> fr c && hd_free C = false /\ coalesced C.
Proof. destruct C as [|d C]; cbn; [|tauto]. by rewrite andb_false_r. Qed.

Lemma coalesced_app C D : coalesced (C ++ D) <-> coalesced C /\ coalesced D /\ last_free C && hd_free D = false.
Proof.
  induction C as [|c C IH]; [cbn; tauto|]. cbn [app]. rewrite !coalesced_cons, IH. destruct C as [|d C].
  - cbn. destruct (fr c), (hd_free D); tauto.
  - unfold last_free. rewrite last_cons_cons. cbn [app hd_free]. tauto.
Qed.

(** The free blocks beside [c]. *)
Definition rest_of (A : list ablk) (c : ablk) (B : list ablk) : gset Z :=
  frees HEAP_START A ∪ frees (HEAP_START + span A + HEADER + sz c) B.

Lemma not_in_rest h A c B : physical h (A ++ c :: B) -> HEAP_START + span A ∉ rest_of A c B.
Proof.
  intros []. pose proof (chain_ok _ _ _ _ _ _ ph_chain) as Hok. apply Forall_app in Hok as [HA Hok].
  pose proof (Forall_inv Hok) as (Hc & _). pose proof (Forall_inv_tail Hok) as HB.
  unfold rest_of. intros [H|H]%elem_of_union; apply frees_range in H; try done; unfold HEADER in *; lia.
Qed.

Lemma frees_rest A c B : frees HEAP_START (A ++ c :: B) =
  (if fr c then {[HEAP_START + span A]} else ∅) ∪ rest_of A c B.
Proof. rewrite frees_mid. unfold rest_of. set_solver. Qed.

Lemma rest_sub A c B : rest_of A c B ⊆ frees HEAP_START (A ++ c :: B).
Proof. rewrite frees_rest. set_solver. Qed.

Lemma sound_same h h' C S S' : sound h C S -> same_but_lists h h' -> indexed h' S' -> sound h' C S'.
Proof. intros [Hp Hb Hi] Hs Hi'. constructor; [by eapply physical_same| |done]. by rewrite (sl_mapped _ _ Hs). Qed.

Lemma sound_insert h A c B : sound h (A ++ c :: B) (rest_of A c B) -> fr c = true ->
  returns (free_insert h (HEAP_START + span A)) (fun h' =>
    sound h' (A ++ c :: B) (frees HEAP_START (A ++ c :: B)) /\ heap_allocated h' = heap_allocated h).
Proof.
  intros Hs Hfr. pose proof Hs as [Hp _ Hi]. destruct (physical_at _ _ _ _ Hp) as [b []].
  eapply returns_mono; [apply (free_insert_ok h _ _ b Hi); try done; [by eapply not_in_rest|]|].
  - destruct ba_ok. unfold HEADER, HEAP_VIRTUAL_BYTES in *. lia.
  - intros h' [Hi' Hsame]. split; [|apply Hsame]. eapply sound_same; [done|done|]. by rewrite frees_rest, Hfr.
Qed.

Lemma sound_remove h C S a : sound h C S -> a ∈ S ->
  returns (free_remove h a) (fun h' => sound h' C (S ∖ {[a]}) /\ heap_allocated h' = heap_allocated h).
Proof.
  intros Hs Ha. pose proof Hs as [_ _ Hi]. eapply returns_mono; [by apply (free_remove_ok h S a Hi)|].
  intros h' [Hi' Hsame]. split; [|apply Hsame]. by eapply sound_same.
Qed.

Lemma sound_flags h A c B S b f c' : sound h (A ++ c :: B) S -> block_at h A c B (HEAP_START + span A) b ->
  sz c' = sz c -> ablk_ok c' -> core (f b) = hdr c' (next b) (prev b) -> (forall b, listing (f b) = listing b) ->
  (rel c' = false -> resident (mapped h) (HEAP_START + span A + HEADER) (sz c)) ->
  returns (modify h (HEAP_START + span A) f) (fun h' =>
    sound h' (A ++ c' :: B) S /\ heap_allocated h' = heap_allocated h /\ mapped h' = mapped h).
Proof.
  intros [Hp Hk Hi] Hb Ez Hok Hc Hl Hr. eapply returns_mono; [by apply (modify_flags h A c B _ b f c')|].
  intros h' [Hp' Hq]. split_and!; [|apply Hq..]. constructor; [done| |].
  - rewrite (qu_mapped _ _ _ Hq). apply (backed_mid _ _ _ _ _ eq_refl).
    apply (backed_mid _ _ _ _ _ eq_refl) in Hk as (H1 & _ & H3). rewrite Ez. auto.
  - eapply indexed_quiet; [done|]. by eapply quiet_mono.
Qed.

(** Two neighbours become one; the rest of the free blocks stay listed. *)
Lemma sound_absorb h A c d B : sound h (A ++ c :: d :: B) (frees HEAP_START A ∪ frees (HEAP_START + span A + HEADER + sz c + HEADER + sz d) B) ->
  fr c = true ->
  let c' := ABlk (sz c + HEADER + sz d) true (rel c || rel d) in
  returns (absorb h (HEAP_START + span A) (HEAP_START + span A + HEADER + sz c)) (fun h' =>
    sound h' (A ++ c' :: B) (rest_of A c' B) /\ heap_allocated h' = heap_allocated h).
Proof.
  intros Hs Hfr c'. pose proof Hs as [Hp Hk Hi]. destruct (physical_at _ _ _ _ Hp) as [b Hb].
  eapply returns_mono; [by apply (absorb_ok h A c d B _ b)|]. rewrite Hfr. fold c'. intros h' [Hp' Hq]. split; [|apply Hq].
  assert (rest_of A c' B = frees HEAP_START A ∪ frees (HEAP_START + span A + HEADER + sz c + HEADER + sz d) B) as Er.
  { unfold rest_of, c'. cbn [sz]. do 2 f_equal. lia. }
  constructor; [done| |].
  - rewrite (qu_mapped _ _ _ Hq). apply (backed_mid _ _ _ _ _ eq_refl).
    apply (backed_mid _ _ _ _ _ eq_refl) in Hk as (H1 & H2 & H3 & H4). unfold c'. cbn [sz rel].
    destruct (chain_right h A c (d :: B) _ b Hp Hb) as [[(_ & (Hd & _) & Hh) _] _]. pose proof (ba_ok _ _ _ _ _ _ Hb) as (Hcs & _).
    split_and!; [done| |by rewrite !Z.add_assoc].
    intros [Hr1 Hr2]%orb_false_iff. unfold HEADER in *. apply resident_app; [lia|lia| |].
    + apply resident_app; [lia|lia|auto|done].
    + rewrite Z.add_assoc. by apply H3.
  - rewrite Er. eapply indexed_quiet; [done|]. eapply quiet_mono; [done|]. cbn. intros x Hx ->.
    rewrite <- Er in Hx. by eapply not_in_rest.
Qed.

Lemma merge_next_ok h A c B : sound h (A ++ c :: B) (rest_of A c B) -> fr c = true -> coalesced B ->
  returns (merge_next h (HEAP_START + span A)) (fun h' => exists c' B',
    sound h' (A ++ c' :: B') (rest_of A c' B') /\ fr c' = true /\ coalesced B' /\ hd_free B' = false /\
    used (HEAP_START + span A + HEADER + sz c') B' = used (HEAP_START + span A + HEADER + sz c) B /\
    in_use B' = in_use B /\ heap_allocated h' = heap_allocated h).
Proof.
  intros Hs Hfr Hco. destruct (physical_at _ _ _ _ (so_phys _ _ _ Hs)) as [b Hb]. unfold merge_next.
  rewrite (load_ok h _ b), bind_ret, (ba_next _ _ _ _ _ _ Hb) by apply Hb.
  destruct B as [|d B]; cbn [nxt]; [by exists c, []|].
  destruct (physical_at h (A ++ [c]) d B) as [nb Hn]; [rewrite <- app_assoc; apply Hs|].
  replace (HEAP_START + span (A ++ [c])) with (HEAP_START + span A + HEADER + sz c) in Hn by (rewrite span_app; cbn; lia).
  rewrite (load_ok h _ nb), bind_ret, (ba_free _ _ _ _ _ _ Hn) by apply Hn.
  destruct (fr d) eqn:Ed; [|by exists c, (d :: B)].
  apply coalesced_cons in Hco as [Hhd Hco]. rewrite Ed in Hhd. cbn in Hhd.
  eapply returns_bind; [apply (sound_remove _ _ _ _ Hs)|].
  { unfold rest_of. cbn [frees]. rewrite Ed. set_solver. }
  intros h1 [Hs1 Ea1]. eapply returns_mono; [apply (sound_absorb h1 A c d B); [|done]|].
  - replace (frees HEAP_START A ∪ _) with (rest_of A c (d :: B) ∖ {[HEAP_START + span A + HEADER + sz c]}); [done|].
    pose proof (not_in_rest h (A ++ [c]) d B ltac:(rewrite <- app_assoc; apply Hs)) as Hni.
    unfold rest_of in *. rewrite frees_app, span_app in Hni. cbn [frees] in *. rewrite Ed. cbn [span foldr] in Hni.
    replace (HEAP_START + (span A + (HEADER + sz c + 0))) with (HEAP_START + span A + HEADER + sz c) in Hni by lia.
    set_solver.
  - intros h2 [Hs2 Ea2]. eexists _, B. split_and!; [exact Hs2|done|done|done| | |by rewrite Ea2].
    + cbn [used sz]. rewrite Ed, (left_id_L ∅ _). f_equal. lia.
    + cbn. by rewrite Ed.
Qed.

Lemma last_cut (A : list ablk) : A = [] \/ exists A' q, A = A' ++ [q].
Proof. destruct A using rev_ind; eauto. Qed.

Lemma merge_prev_ok h A c B : sound h (A ++ c :: B) (rest_of A c B) -> fr c = true -> coalesced A ->
  returns (merge_prev h (HEAP_START + span A)) (fun '(h', a') => exists A' c',
    sound h' (A' ++ c' :: B) (rest_of A' c' B) /\ fr c' = true /\ a' = HEAP_START + span A' /\
    coalesced A' /\ last_free A' = false /\ span A' + sz c' = span A + sz c /\
    used HEAP_START A' = used HEAP_START A /\ in_use A' = in_use A /\ heap_allocated h' = heap_allocated h).
Proof.
  intros Hs Hfr Hco. destruct (physical_at _ _ _ _ (so_phys _ _ _ Hs)) as [b Hb]. unfold merge_prev.
  rewrite (load_ok h _ b), bind_ret, (ba_prev _ _ _ _ _ _ Hb) by apply Hb.
  destruct (last_cut A) as [->|(A' & q & ->)]; [by exists [], c|]. rewrite lastp_app. cbn [lastp].
  assert (sound h (A' ++ q :: c :: B) (rest_of (A' ++ [q]) c B)) as Hs' by (by rewrite <- app_assoc in Hs).
  destruct (physical_at _ _ _ _ (so_phys _ _ _ Hs')) as [qb Hq].
  rewrite (load_ok h _ qb), bind_ret, (ba_free _ _ _ _ _ _ Hq) by apply Hq.
  assert (HEAP_START + span (A' ++ [q]) = HEAP_START + span A' + HEADER + sz q) as Ea by (rewrite span_app; cbn; lia).
  apply coalesced_app in Hco as (Hco & _ & Hl). cbn [hd_free] in Hl.
  destruct (fr q) eqn:Eq.
  2: { exists (A' ++ [q]), c. unfold last_free. rewrite last_snoc. split_and!; try done.
       apply coalesced_app. split_and!; [done|done|]. cbn. by rewrite Eq, andb_false_r. }
  rewrite andb_true_r in Hl.
  eapply returns_bind; [apply (sound_remove _ _ _ _ Hs')|].
  { unfold rest_of. rewrite frees_app. cbn [frees]. rewrite Eq. set_solver. }
  intros h1 [Hs1 Ea1]. rewrite Ea. eapply returns_bind; [apply (sound_absorb h1 A' q c B); [|done]|].
  - replace (frees HEAP_START A' ∪ _) with (rest_of (A' ++ [q]) c B ∖ {[HEAP_START + span A']}); [done|].
    pose proof (not_in_rest h A' q (c :: B) ltac:(apply Hs')) as Hni.
    unfold rest_of in *. rewrite Ea, frees_app. cbn [frees] in *. rewrite Hfr in Hni. rewrite Eq. set_solver.
  - intros h2 [Hs2 Ea2]. cbn [returns]. eexists A', _. split_and!; [exact Hs2|done|done|done|done| | | |by rewrite Ea2].
    + cbn [sz]. rewrite span_app. cbn. lia.
    + rewrite used_app. cbn [used]. rewrite Eq. set_solver.
    + rewrite in_use_app. cbn. rewrite Eq. lia.
Qed.

Lemma in_use_bound C : Forall ablk_ok C -> 0 <= in_use C <= span C.
Proof.
  induction 1 as [|c C (Hc & _) _ IH]; cbn; [lia|]. unfold in_use, span, HEADER in *. destruct (fr c); lia.
Qed.

Lemma payload_back h A c B b : block_at h A c B (HEAP_START + span A) b ->
  u64 (HEAP_START + span A + HEADER - HEADER) = HEAP_START + span A.
Proof. intros []. destruct ba_ok. unfold HEADER, HEAP_VIRTUAL_BYTES, HEAP_START in *. words; lia. Qed.

Lemma indexed_eq h h' S : indexed h S -> mem h' = mem h -> mapped h' = mapped h -> bins h' = bins h ->
  bin_mask h' = bin_mask h -> indexed h' S.
Proof.
  intros Hi E1 E2 E3 E4. eapply indexed_frame; [done|done|done|]. intros a Ha. rewrite E1. split; [done|].
  destruct Hi as (F & Hok & HS). apply HS in Ha as [n Hn]. destruct (bo_mem _ _ Hok n a Hn) as (_ & Hacc & _).
  unfold accessible in *. by rewrite E2.
Qed.

Lemma sound_allocated h C S v : sound h C S -> sound (set_allocated v h) C S.
Proof. intros [[] Hb Hi]. constructor; [by constructor|done|by eapply indexed_eq]. Qed.

Lemma kfree_used unmaps h A c B : heap_ok h (A ++ c :: B) -> fr c = false ->
  returns (kfree unmaps h (Some (HEAP_START + span A + HEADER))) (fun h' => exists C', heap_ok h' C' /\
    used HEAP_START C' = used HEAP_START A ∪ used (HEAP_START + span A + HEADER + sz c) B).
Proof.
  intros [Hs Hco Hal] Hfr. rewrite in_use_app in Hal. cbn in Hal. fold (in_use B) in Hal. rewrite Hfr in Hal.
  rewrite frees_rest, Hfr, (left_id_L ∅ _) in Hs.
  apply coalesced_app in Hco as (HcoA & HcoB%coalesced_cons & _). destruct HcoB as [_ HcoB].
  destruct (physical_at _ _ _ _ (so_phys _ _ _ Hs)) as [b Hb]. destruct (sound_parts _ _ _ _ _ Hs) as [HAok HBok].
  unfold kfree. rewrite (payload_back h A c B b Hb), (load_ok h _ b), bind_ret by apply Hb.
  rewrite (ba_magic _ _ _ _ _ _ Hb), Z.eqb_refl, (ba_free _ _ _ _ _ _ Hb), Hfr. cbn [negb].
  set (c1 := ABlk (sz c) true (rel c)). pose proof (ba_ok _ _ _ _ _ _ Hb) as (Hc1 & Hc2 & Hc3).
  assert (u64 (heap_allocated h - size b) = in_use A + in_use B) as ->.
  { rewrite Hal, (ba_size _ _ _ _ _ _ Hb). pose proof (in_use_bound A HAok). pose proof (in_use_bound B HBok). destruct Hb.
    unfold HEADER, HEAP_VIRTUAL_BYTES in *. words; lia. }
  set (h0 := set_allocated _ h). assert (sound h0 (A ++ c :: B) (rest_of A c B)) as Hs0 by (by apply sound_allocated).
  destruct (physical_at _ _ _ _ (so_phys _ _ _ Hs0)) as [b0 Hb0].
  eapply returns_bind; [apply (sound_flags h0 A c B _ b0 _ c1 Hs0 Hb0); try done|].
  { destruct Hb0. headers. by rewrite ba_magic, ba_size, ba_released. }
  { intros Hr. pose proof (so_backed _ _ _ Hs) as Hk. apply (backed_mid _ _ _ _ _ eq_refl) in Hk as (_ & Hk & _). by apply Hk. }
  intros h1 (Hs1 & Ea1 & _). destruct (physical_at _ _ _ _ (so_phys _ _ _ Hs1)) as [b1 Hb1].
  eapply returns_bind; [apply (release_pages_ok unmaps h1 A c1 B _ _ b1 Hs1 Hb1); [done|exact (rest_sub A c1 B)]|].
  intros h2 (r & Hs2 & Ea2). eapply returns_bind; [by apply (merge_next_ok h2 A _ B Hs2)|].
  intros h3 (c3 & B3 & Hs3 & Hf3 & Hco3 & Hhd & Hu3 & Hi3 & Ea3).
  eapply returns_bind; [by apply (merge_prev_ok h3 A c3 B3 Hs3)|].
  intros [h4 a4] (A4 & c4 & Hs4 & Hf4 & -> & Hco4 & Hl4 & Hsp4 & Hu4 & Hi4 & Ea4).
  eapply returns_mono; [by apply (sound_insert h4 A4 c4 B3 Hs4)|]. intros h5 [Hs5 Ea5].
  exists (A4 ++ c4 :: B3). split.
  - constructor; [done| |].
    + apply coalesced_app. rewrite coalesced_cons, Hl4, Hhd, andb_false_r. done.
    + rewrite Ea5, Ea4, Ea3, Ea2, Ea1, in_use_app. cbn. fold (in_use B3). rewrite Hf4, Hi3, Hi4. done.
  - rewrite used_app. cbn [used]. rewrite Hf4, (left_id_L ∅ _), Hu4. f_equal. etransitivity; [|exact Hu3]. f_equal. lia.
Qed.

(** ** Allocation keeps the heap in order *)

(** [sound] without the payloads' pages, which a split passes through. *)
Record linked_up (h : heap) (C : list ablk) (S : gset Z) : Prop := LinkedUp {
  lu_phys : physical h C;
  lu_index : indexed h S }.

Definition same_totals (h h' : heap) : Prop := heap_allocated h' = heap_allocated h /\ mapped h' = mapped h.

Lemma totals_trans h1 h2 h3 : same_totals h1 h2 -> same_totals h2 h3 -> same_totals h1 h3.
Proof. intros [] []. split; congruence. Qed.

Lemma lu_remove h C S a : linked_up h C S -> a ∈ S ->
  returns (free_remove h a) (fun h' => linked_up h' C (S ∖ {[a]}) /\ same_totals h h').
Proof.
  intros [Hp Hi] Ha. eapply returns_mono; [by apply (free_remove_ok h S a Hi)|].
  intros h' [Hi' Hsame]. split; [|split; apply Hsame]. split; [by eapply physical_same|done].
Qed.

Lemma lu_insert h A c B S a : linked_up h (A ++ c :: B) S -> a = HEAP_START + span A -> a ∉ S ->
  returns (free_insert h a) (fun h' => linked_up h' (A ++ c :: B) ({[a]} ∪ S) /\ same_totals h h').
Proof.
  intros [Hp Hi] -> Ha. destruct (physical_at _ _ _ _ Hp) as [b []].
  eapply returns_mono; [apply (free_insert_ok h _ _ b Hi); try done|].
  - destruct ba_ok. unfold HEADER, HEAP_VIRTUAL_BYTES in *. lia.
  - intros h' [Hi' Hsame]. split; [|split; apply Hsame]. split; [by eapply physical_same|done].
Qed.

(** Setting the flags of a block, by the kind of write. *)
Lemma lu_released h A c B S a r : linked_up h (A ++ c :: B) S -> a = HEAP_START + span A -> fr c = true ->
  returns (modify h a (set_released r)) (fun h' =>
    linked_up h' (A ++ ABlk (sz c) true r :: B) S /\ same_totals h h').
Proof.
  intros [Hp Hi] -> Hf. destruct (physical_at _ _ _ _ Hp) as [b Hb].
  eapply returns_mono; [apply (modify_flags h A c B _ b _ (ABlk (sz c) true r) Hp Hb); try done|].
  - destruct (ba_ok _ _ _ _ _ _ Hb) as (? & ? & ?). done.
  - destruct Hb. headers. by rewrite ba_magic, ba_free, ba_size, Hf.
  - intros h' [Hp' Hq]. split; [|split; apply Hq]. split; [done|]. eapply indexed_quiet; [done|]. by eapply quiet_mono.
Qed.

Lemma lu_taken h A c B S a : linked_up h (A ++ c :: B) S -> a = HEAP_START + span A -> rel c = false ->
  returns (modify h a (set_is_free false)) (fun h' =>
    linked_up h' (A ++ ABlk (sz c) false false :: B) S /\ same_totals h h').
Proof.
  intros [Hp Hi] -> Hr. destruct (physical_at _ _ _ _ Hp) as [b Hb].
  eapply returns_mono; [apply (modify_flags h A c B _ b _ (ABlk (sz c) false false) Hp Hb); try done|].
  - destruct (ba_ok _ _ _ _ _ _ Hb) as (? & ? & ?). done.
  - destruct Hb. headers. by rewrite ba_magic, ba_released, ba_size, Hr.
  - intros h' [Hp' Hq]. split; [|split; apply Hq]. split; [done|]. eapply indexed_quiet; [done|]. by eapply quiet_mono.
Qed.

Lemma lu_split h A c B a b c1 c2 : linked_up h (A ++ c :: B) (rest_of A c B) -> block_at h A c B a b ->
  sz c = sz c1 + HEADER + sz c2 -> fr c1 = fr c -> rel c1 = rel c -> fr c2 = true -> ablk_ok c1 -> ablk_ok c2 ->
  resident (mapped h) (a + HEADER + sz c1) HEADER ->
  returns (split_block h a b (sz c1) (a + HEADER + sz c1) (sz c2) (rel c2)) (fun h' =>
    linked_up h' (A ++ c1 :: c2 :: B) (rest_of A c B) /\ same_totals h h' /\
    a ∉ rest_of A c B /\ a + HEADER + sz c1 ∉ rest_of A c B).
Proof.
  intros [Hp Hi] Hb Ez Ef Er Ef2 Hok1 Hok2 Hres. pose proof (not_in_rest _ _ _ _ Hp) as Hni.
  rewrite <- (ba_addr _ _ _ _ _ _ Hb) in Hni.
  assert (a + HEADER + sz c1 ∉ rest_of A c B) as Hnr.
  { pose proof (chain_ok _ _ _ _ _ _ (ph_chain _ _ Hp)) as Hok. apply Forall_app in Hok as [HA Hok].
    pose proof (Forall_inv_tail Hok) as HB. destruct Hok1 as (? & _), Hok2 as (? & _). destruct Hb.
    unfold rest_of. intros [Hx|Hx]%elem_of_union; apply frees_range in Hx; try done; unfold HEADER in *; lia. }
  eapply returns_mono; [by apply (split_block_ok h A c B a b c1 c2)|]. intros h' [Hp' Hq].
  split_and!; [|split; apply Hq|done|done]. split; [done|]. eapply indexed_quiet; [done|]. eapply quiet_mono; [done|].
  cbn. intros x Hx. split; intros ->; done.
Qed.

(** Blocks are cut at multiples of 16. *)
Lemma span_align C : Forall ablk_ok C -> (16 | span C).
Proof.
  induction 1 as [|c C (_ & Hc & _) _ IH]; cbn; [by exists 0|].
  apply Z.divide_add_r; [apply Z.divide_add_r; [by exists 3|done]|done].
Qed.

Lemma frees_remove h A c B : physical h (A ++ c :: B) -> fr c = true ->
  frees HEAP_START (A ++ c :: B) ∖ {[HEAP_START + span A]} = rest_of A c B.
Proof. intros Hp%not_in_rest Hf. rewrite frees_rest, Hf. set_solver. Qed.

(** What [carve] leaves: the block in use, and behind it the row [B']. *)
Record carved (h : heap) (A : list ablk) (c : ablk) (B : list ablk) (want : Z) (h' : heap) (s : Z) (B' : list ablk) : Prop := Carved {
  ca_sound : sound h' (A ++ ABlk s false false :: B') (frees HEAP_START (A ++ ABlk s false false :: B'));
  ca_size : want <= s <= want + HEADER + 16;
  ca_used : used (HEAP_START + span A + HEADER + s) B' = used (HEAP_START + span A + HEADER + sz c) B;
  ca_in_use : in_use B' = in_use B;
  ca_coalesced : coalesced B -> hd_free B = false -> coalesced B';
  ca_allocated : heap_allocated h' = u64 (heap_allocated h + s) }.

(** The second half of [carve], on the block that is now as large as needed. *)
Lemma carve_take h A c B S : linked_up h (A ++ c :: B) S -> backed (mapped h) HEAP_START A ->
  backed (mapped h) (HEAP_START + span A + HEADER + sz c) B -> fr c = true ->
  resident (mapped h) (HEAP_START + span A + HEADER) (sz c) -> S = rest_of A c B ->
  returns (h ← modify h (HEAP_START + span A) (set_released false);
           h ← modify h (HEAP_START + span A) (set_is_free false);
           b ← load h (HEAP_START + span A);
           Ret (set_allocated (u64 (heap_allocated h + size b)) h, u64 (HEAP_START + span A + HEADER)))
    (fun '(h', p) => p = HEAP_START + span A + HEADER /\
       sound h' (A ++ ABlk (sz c) false false :: B) (frees HEAP_START (A ++ ABlk (sz c) false false :: B)) /\
       heap_allocated h' = u64 (heap_allocated h + sz c)).
Proof.
  intros Hl HA HB Hfr Hres ->. eapply returns_bind; [by apply (lu_released h A c B _ _ false Hl)|]. intros h1 [Hl1 Ht1].
  eapply returns_bind; [by apply (lu_taken h1 A _ B _ _ Hl1)|]. cbn [sz]. intros h2 [Hl2 Ht2].
  pose proof (totals_trans _ _ _ Ht1 Ht2) as [Ea Em]. destruct (physical_at _ _ _ _ (lu_phys _ _ _ Hl2)) as [b Hb].
  rewrite (load_ok h2 _ b), bind_ret, (ba_size _ _ _ _ _ _ Hb) by apply Hb. cbn [returns sz].
  split_and!; [| |by rewrite <- Ea].
  - destruct Hb, ba_ok. cbn in *. unfold HEADER, HEAP_VIRTUAL_BYTES, HEAP_START in *. words; lia.
  - apply sound_allocated. constructor; [apply Hl2| |].
    + rewrite Em. apply (backed_mid _ _ _ _ _ eq_refl). cbn. auto.
    + rewrite frees_rest. cbn [fr]. rewrite (left_id_L ∅ _). apply Hl2.
Qed.

Lemma carve_ok h A c B want : sound h (A ++ c :: B) (frees HEAP_START (A ++ c :: B)) -> fr c = true ->
  16 <= want <= sz c -> (16 | want) ->
  resident (mapped h) (HEAP_START + span A + HEADER) (Z.min (sz c) (want + HEADER + 16)) ->
  returns (carve h (HEAP_START + span A) want (rel c)) (fun '(h', p) =>
    p = HEAP_START + span A + HEADER /\ exists s B', carved h A c B want h' s B').
Proof.
  intros Hs Hfr Hw Hdiv Hres. set (a := HEAP_START + span A) in *. unfold carve.
  pose proof Hs as [Hp Hk Hi]. apply (backed_mid _ _ _ _ a eq_refl) in Hk as (HkA & Hkc & HkB).
  eapply returns_bind; [apply (lu_remove h _ _ a (LinkedUp _ _ _ Hp Hi)); rewrite frees_rest, Hfr; set_solver|].
  intros h1 [Hl1 [Ea1 Em1]]. unfold a in Hl1. rewrite (frees_remove h) in Hl1 by done. fold a in Hl1.
  destruct (physical_at _ _ _ _ (lu_phys _ _ _ Hl1)) as [b Hb]. fold a in Hb.
  rewrite (load_ok h1 a b), bind_ret, (ba_size _ _ _ _ _ _ Hb) by apply Hb.
  pose proof (ba_ok _ _ _ _ _ _ Hb) as (_ & Hdc & _). pose proof Hb as [].
  assert (u64 (want + HEADER + 16) = want + HEADER + 16) as ->
    by (unfold HEADER, HEAP_VIRTUAL_BYTES in *; words; lia).
  destruct (Z.ltb_spec (want + HEADER + 16) (sz c)) as [Hgt|Hle].
  - set (c1 := ABlk want true (rel c)). set (c2 := ABlk (sz c - want - HEADER) true (rel c)).
    assert (sz c2 = sz c - want - HEADER) as Ec2 by done.
    assert (ablk_ok c1) as Hok1 by (unfold ablk_ok; cbn; split_and!; [lia|done|done]).
    assert (ablk_ok c2) as Hok2.
    { unfold ablk_ok. rewrite Ec2. unfold HEADER in *. split_and!; [lia| |done].
      apply Z.divide_sub_r; [by apply Z.divide_sub_r|by exists 3]. }
    assert (u64 (u64 (a + HEADER) + want) = a + HEADER + sz c1 /\ u64 (u64 (sz c - want) - HEADER) = sz c2) as [-> ->].
    { unfold c1, c2. cbn [sz]. unfold HEADER, HEAP_VIRTUAL_BYTES, HEAP_START in *. split; words; lia. }
    eapply returns_bind.
    { eapply returns_bind; [apply (lu_split h1 A c B a b c1 c2 Hl1 Hb); try done|].
      - unfold c1, c2. cbn [sz]. lia.
      - rewrite Em1. cbn [c1 sz]. eapply resident_sub; [exact Hres|unfold HEADER in *; lia|unfold HEADER in *; lia].
      - intros h2 (Hl2 & Ht2 & Hna & Hnr). eapply returns_mono.
        + apply (lu_insert h2 (A ++ [c1]) c2 B (rest_of A c B)); [by rewrite <- app_assoc| |done].
          rewrite span_app. cbn [span foldr]. lia.
        + intros h3 [Hl3 Ht3]. rewrite <- app_assoc in Hl3. exact (conj Hl3 (totals_trans _ _ _ Ht2 Ht3)). }
    intros h3 [Hl3 [Ea3 Em3]]. rewrite Em1 in Em3.
    assert (a + HEADER + want + HEADER + sz c2 = a + HEADER + sz c) as Eend by (rewrite Ec2; lia).
    eapply returns_mono; [apply (carve_take h3 A c1 (c2 :: B) _ Hl3)|].
    + by rewrite Em3.
    + rewrite Em3. cbn [backed c1 sz]. fold a. split; [|by rewrite Eend]. intros Hr.
      eapply resident_sub; [by apply Hkc|unfold HEADER in *; lia|lia].
    + done.
    + rewrite Em3. eapply resident_sub; [exact Hres|lia|cbn [c1 sz]; unfold HEADER in *; lia].
    + unfold rest_of. cbn [frees]. fold a. cbn [c1 c2 sz fr]. rewrite Ec2 in Eend. rewrite Eend. set_solver.
    + intros [h4 p] (-> & Hs4 & Ea4). split; [done|]. exists want, (c2 :: B). cbn [c1 sz] in *. constructor.
      * exact Hs4.
      * unfold HEADER. lia.
      * cbn [used fr c2 sz]. rewrite (left_id_L ∅ _). f_equal. unfold HEADER in *. lia.
      * done.
      * intros H1 H2. apply coalesced_cons. rewrite H2, andb_false_r. done.
      * by rewrite Ea4, Ea3, Ea1.
  - rewrite bind_ret. assert (Z.min (sz c) (want + HEADER + 16) = sz c) as Emin by lia. rewrite Emin in Hres.
    eapply returns_mono; [apply (carve_take h1 A c B _ Hl1); rewrite ?Em1; done|].
    intros [h4 p] (-> & Hs4 & Ea4). split; [done|]. exists (sz c), B. constructor; try done; [lia|].
    by rewrite Ea4, Ea1.
Qed.

(** What [choose] leaves: the chosen block [c'] behind the row [A']. *)
Record chosen (h : heap) (A : list ablk) (c : ablk) (B : list ablk) (want : Z) (pa : bool) (h' : heap) (A' : list ablk) (c' : ablk) : Prop := Chosen {
  co_sound : sound h' (A' ++ c' :: B) (frees HEAP_START (A' ++ c' :: B));
  co_free : fr c' = true;
  co_released : rel c' = rel c;
  co_size : want <= sz c';
  co_end : span A' + sz c' = span A + sz c;
  co_resident : resident (mapped h') (HEAP_START + span A' + HEADER) (Z.min (sz c') (want + HEADER + 16));
  co_used : used HEAP_START A' = used HEAP_START A;
  co_in_use : in_use A' = in_use A;
  co_coalesced : coalesced A -> last_free A = false -> coalesced A';
  co_aligned : pa = true -> (HEAP_PAGE_SIZE | HEAP_START + span A' + HEADER);
  co_allocated : heap_allocated h' = heap_allocated h }.

(** How far the page-aligned payload is from the start of the block's. *)
Lemma leave_room_ok payload : 0 <= payload -> payload + 3 * HEAP_PAGE_SIZE <= 2 ^ 64 -> (16 | payload) ->
  exists lead, leave_room 1 payload (round_up payload) = Ret (payload + lead) /\ (HEAP_PAGE_SIZE | payload + lead) /\
    HEADER + 16 <= lead <= HEAP_PAGE_SIZE + HEADER /\ (16 | lead).
Proof.
  unfold HEAP_PAGE_SIZE, HEADER. intros H0 Hmax [k Hk]. destruct (round_up_spec payload H0) as [[j Hj] Hr]; [unfold HEAP_PAGE_SIZE; lia|].
  unfold HEAP_PAGE_SIZE in *. set (up := round_up payload) in *. cbn [leave_room]. unfold HEADER, HEAP_ALIGN, HEAP_PAGE_SIZE.
  rewrite (u64_small (up - payload)) by lia. destruct (Z.ltb_spec (up - payload) (48 + 16)).
  - rewrite (u64_small (up + 4096)), (u64_small (up + 4096 - payload)) by lia.
    replace (up + 4096 - payload <? 48 + 16) with false by lia. exists (up + 4096 - payload).
    split_and!; [f_equal; lia|exists (j + 1); lia|lia|lia|exists (j * 256 + 256 - k); lia].
  - exists (up - payload). split_and!; [f_equal; lia|exists j; lia|lia|lia|exists (j * 256 - k); lia].
Qed.

Lemma cut_lead_ok h A c B lead a : linked_up h (A ++ c :: B) (frees HEAP_START (A ++ c :: B)) ->
  a = HEAP_START + span A -> fr c = true -> HEADER + 16 <= lead -> (16 | lead) -> lead + 16 <= sz c ->
  resident (mapped h) (a + HEADER + (lead - HEADER)) HEADER ->
  let c1 := ABlk (lead - HEADER) true (rel c) in
  let c2 := ABlk (sz c - lead) true false in
  returns (cut_lead h a (a + HEADER + lead) lead) (fun '(h', carved) => carved = a + HEADER + sz c1 /\
    linked_up h' (A ++ c1 :: c2 :: B) (frees HEAP_START (A ++ c1 :: c2 :: B)) /\ same_totals h h').
Proof.
  intros Hl Ha Hfr Hlead H16 Hsz Hres c1 c2. pose proof Hl as [Hp Hi]. unfold cut_lead.
  destruct (physical_at _ _ _ _ Hp) as [b0 Hb0]. pose proof (ba_ok _ _ _ _ _ _ Hb0) as (_ & Hdc & _). pose proof Hb0 as [].
  assert (u64 (a + HEADER + lead - HEADER) = a + HEADER + sz c1 /\ u64 (lead - HEADER) = sz c1) as [-> ->].
  { cbn [c1 sz]. unfold HEADER, HEAP_START, HEAP_VIRTUAL_BYTES in *. split; words; lia. }
  eapply returns_bind; [apply (lu_remove h _ _ a Hl); rewrite frees_rest, Hfr, Ha; set_solver|].
  intros h1 [Hl1 Ht1]. rewrite Ha, (frees_remove h) in Hl1 by done.
  destruct (physical_at _ _ _ _ (lu_phys _ _ _ Hl1)) as [b Hb]. rewrite <- Ha in Hb.
  rewrite (load_ok h1 a b), bind_ret, (HeapRow.ba_size _ _ _ _ _ _ Hb) by apply Hb.
  assert (u64 (sz c - lead) = sz c2) as -> by (cbn [c2 sz]; unfold HEADER, HEAP_VIRTUAL_BYTES in *; words; lia).
  eapply returns_bind; [apply (lu_split h1 A c B a b c1 c2 Hl1 Hb); try done|].
  { cbn [c1 c2 sz]. lia. }
  { unfold ablk_ok. cbn. unfold HEADER in *. split_and!; [lia| |done]. apply Z.divide_sub_r; [done|by exists 3]. }
  { unfold ablk_ok. cbn. split_and!; [lia|by apply Z.divide_sub_r|done]. }
  { rewrite (proj2 Ht1). exact Hres. }
  intros h2 (Hl2 & Ht2 & Hna & Hnr).
  eapply returns_bind; [by apply (lu_insert h2 A c1 (c2 :: B) (rest_of A c B) a)|]. intros h3 [Hl3 Ht3].
  eapply returns_bind; [apply (lu_insert h3 (A ++ [c1]) c2 B ({[a]} ∪ rest_of A c B) (a + HEADER + sz c1)); [by rewrite <- app_assoc| |]|].
  { rewrite Ha, span_app. cbn. lia. }
  { apply not_elem_of_union. split; [|done]. rewrite not_elem_of_singleton. cbn [c1 sz]. unfold HEADER in *. lia. }
  intros h4 [Hl4 Ht4]. cbn [returns]. rewrite <- app_assoc in Hl4. split_and!;
    [done| |exact (totals_trans _ _ _ Ht1 (totals_trans _ _ _ Ht2 (totals_trans _ _ _ Ht3 Ht4)))].
  split; [apply Hl4|]. destruct Hl4 as [_ Hi4]. replace (frees HEAP_START _) with ({[a + HEADER + sz c1]} ∪ ({[a]} ∪ rest_of A c B)); [done|].
  rewrite frees_mid. cbn [frees c1 c2 fr sz]. unfold rest_of. rewrite Ha.
  replace (HEAP_START + span A + HEADER + (lead - HEADER) + HEADER + (sz c - lead)) with (HEAP_START + span A + HEADER + sz c) by lia.
  set_solver.
Qed.

(** The cut-off part of [c] is what [choose] promises. *)
Lemma chosen_cut h A c B want lead h' : let a := HEAP_START + span A in
  let c1 := ABlk (lead - HEADER) true false in
  let c2 := ABlk (sz c - lead) true (rel c) in
  backed (mapped h) HEAP_START (A ++ c :: B) -> fr c = true ->
  linked_up h' ((A ++ [c1]) ++ c2 :: B) (frees HEAP_START (A ++ c1 :: c2 :: B)) -> same_totals h h' ->
  HEADER + 16 <= lead -> 0 <= want -> lead + want <= sz c -> (HEAP_PAGE_SIZE | a + HEADER + lead) ->
  resident (mapped h) (a + HEADER) (Z.min (sz c) (lead + want + HEADER + 16)) ->
  chosen h A c B want true h' (A ++ [c1]) c2.
Proof.
  intros a c1 c2 Hk Hfr [Hp Hi] [Ea Em] Hlead Hw Hsz Hpg Hres. unfold HEADER in Hlead.
  apply (backed_mid _ _ _ _ a eq_refl) in Hk as (HkA & Hkc & HkB).
  assert (HEAP_START + span (A ++ [c1]) = a + HEADER + (lead - HEADER)) as Ea' by (rewrite span_app; cbn; unfold a; lia).
  constructor; cbn [c2 fr rel sz]; try done.
  - constructor; [done| |by rewrite <- app_assoc].
    rewrite Em. apply (backed_mid _ _ _ _ _ eq_refl). rewrite Ea'. cbn [c2 rel sz]. split_and!.
    + apply (backed_mid _ _ c1 [] a eq_refl). split_and!; [done| |done]. intros _.
      eapply resident_sub; [exact Hres|lia|cbn; unfold HEADER; lia].
    + intros Hr. eapply resident_sub; [by apply Hkc|unfold HEADER in *; lia|unfold HEADER in *; lia].
    + replace (a + HEADER + (lead - HEADER) + HEADER + (sz c - lead)) with (a + HEADER + sz c) by lia. done.
  - lia.
  - rewrite span_app. cbn. unfold HEADER. lia.
  - rewrite Em, Ea'. eapply resident_sub; [exact Hres|unfold HEADER; lia|unfold HEADER; lia].
  - rewrite used_app. cbn. set_solver.
  - rewrite in_use_app. cbn. lia.
  - intros H1 H2. apply coalesced_app. rewrite H2. done.
  - intros _. rewrite Ea'. replace (a + HEADER + (lead - HEADER) + HEADER) with (a + HEADER + lead) by lia. done.
Qed.

Lemma choose_ok h A c B want pa : sound h (A ++ c :: B) (frees HEAP_START (A ++ c :: B)) -> fr c = true ->
  16 <= want -> (if pa : bool then want + HEAP_PAGE_SIZE + HEADER + HEAP_ALIGN else want) <= sz c ->
  resident (mapped h) (HEAP_START + span A + HEADER)
    (Z.min (sz c) (want + (if pa then HEAP_PAGE_SIZE else 0) + 2 * HEAP_PAGE_SIZE + HEADER + HEAP_ALIGN)) ->
  returns (choose h (HEAP_START + span A) want pa (rel c)) (fun '(h', r) => exists A' c',
    r = Some (HEAP_START + span A') /\ chosen h A c B want pa h' A' c').
Proof.
  intros Hs Hfr Hw Hsz Hres. unfold HEAP_PAGE_SIZE, HEADER, HEAP_ALIGN in Hsz, Hres.
  set (a := HEAP_START + span A) in *. unfold choose. destruct pa; cbv iota in Hsz, Hres.
  2: { exists A, c. split; [done|]. constructor; try done. unfold HEADER. fold a. eapply resident_sub; [exact Hres|lia|lia]. }
  pose proof Hs as [Hp Hk Hi]. destruct (physical_at _ _ _ _ Hp) as [b Hb]. fold a in Hb.
  destruct (sound_parts _ _ _ _ _ Hs) as [HAok _]. pose proof (span_align A HAok) as Hal. pose proof Hb as [].
  apply (backed_mid _ _ _ _ a eq_refl) in Hk as (HkA & Hkc & HkB).
  assert (linked_up h (A ++ c :: B) (frees HEAP_START (A ++ c :: B))) as Hl by done.
  assert (a + HEADER + 3 * HEAP_PAGE_SIZE <= 2 ^ 64 /\ 0 <= a) as [Hroom Ha0]
    by (unfold a, HEADER, HEAP_VIRTUAL_BYTES, HEAP_START, HEAP_PAGE_SIZE in *; lia).
  unfold split_for_page_alignment.
  assert (u64 (a + HEADER) = a + HEADER) as -> by (unfold HEADER, HEAP_PAGE_SIZE in *; words; lia).
  change (HEAP_PAGE_SIZE - 1) with (2 ^ 12 - 1). rewrite land_low by lia.
  destruct (Z.eqb_spec ((a + HEADER) mod 2 ^ 12) 0) as [E0|E0].
  - rewrite bind_ret. eapply returns_bind; [by apply (lu_released h A c B _ a false Hl)|]. intros h1 [Hl1 Ht1].
    eapply returns_bind; [by apply (lu_released h1 A _ B _ a (rel c) Hl1)|]. intros h2 [Hl2 Ht2].
    pose proof (totals_trans _ _ _ Ht1 Ht2) as [Ea Em].
    assert (ABlk (sz c) true (rel c) = c) as Ec by (rewrite <- Hfr; by destruct c). cbn [sz] in Hl2. rewrite Ec in Hl2.
    exists A, c. split; [done|]. constructor; try done; [|lia| |].
    + destruct Hl2. constructor; try done. rewrite Em. apply (backed_mid _ _ _ _ a eq_refl). auto.
    + rewrite Em. unfold HEADER. fold a. eapply resident_sub; [exact Hres|lia|lia].
    + intros _. fold a. exists ((a + HEADER) / 2 ^ 12). unfold HEAP_PAGE_SIZE. change 4096 with (2 ^ 12). dlia.
  - destruct (leave_room_ok (a + HEADER)) as (lead & Hlr & Hpg & Hlead & Hl16); [unfold HEADER; lia|done| |].
    { apply Z.divide_add_r; [unfold a; apply Z.divide_add_r; [by exists 0xFFFFFF000000000|done]|by exists 3]. }
    rewrite Hlr, bind_ret, (load_ok h a b), bind_ret, ba_size by done. unfold HEAP_PAGE_SIZE, HEADER in Hlead.
    replace (a + HEADER + lead - (a + HEADER)) with lead by lia. rewrite (u64_small lead) by lia.
    assert (u64 (lead + want) = lead + want) as -> by (unfold HEAP_VIRTUAL_BYTES, HEADER in *; words; lia).
    replace (sz c <? lead + want) with false by lia.
    set (c1 := ABlk (lead - HEADER) true (rel c)). set (c2 := ABlk (sz c - lead) true false).
    eapply returns_bind with (P := fun '(h1, r) => r = Some (a + HEADER + sz c1) /\
      linked_up h1 (A ++ c1 :: c2 :: B) (frees HEAP_START (A ++ c1 :: c2 :: B)) /\ same_totals h h1).
    { eapply returns_bind; [apply (cut_lead_ok h A c B lead a Hl eq_refl Hfr); [unfold HEADER; lia|done|lia|]|].
      - eapply resident_sub; [exact Hres|lia|unfold HEADER; lia].
      - by intros [h1 x] (-> & Hl1 & Ht1). }
    intros [h1 r] (-> & Hl1 & Ht1).
    eapply returns_bind; [by apply (lu_released h1 A c1 (c2 :: B) _ a false Hl1)|]. intros h2 [Hl2 Ht2].
    set (c1' := ABlk (lead - HEADER) true false).
    assert (HEAP_START + span (A ++ [c1']) = a + HEADER + sz c1) as Ea' by (rewrite span_app; cbn; unfold a; lia).
    eapply returns_bind; [apply (lu_released h2 (A ++ [c1']) c2 B (frees HEAP_START (A ++ c1 :: c2 :: B)) _ (rel c)); [by rewrite <- app_assoc|by rewrite Ea'|done]|].
    intros h3 [Hl3 Ht3]. pose proof (totals_trans _ _ _ (totals_trans _ _ _ Ht1 Ht2) Ht3) as [Ea Em].
    cbn [returns]. exists (A ++ [c1']), (ABlk (sz c - lead) true (rel c)). split; [by rewrite Ea'|].
    apply (chosen_cut h); try done; unfold HEADER; fold a; [apply Hs| |lia|lia|lia|].
    + destruct Hl3 as [Hp3 Hi3]. split; [done|]. rewrite frees_mid in *. done.
    + eapply resident_sub; [exact Hres|lia|lia].
Qed.

(** ** Growth *)

Lemma map_pages_ok avail n : forall m page m' k, map_pages avail m page n = (m', k) ->
  (k <= n)%nat /\ (forall p, p ∈ m' <-> p ∈ m \/ p ∈ page_run page k) /\
  ((k < n)%nat -> exists p, avail p = false).
Proof.
  induction n as [|n IH]; intros m page m' k; cbn [map_pages].
  - intros [= <- <-]. split_and!; [done| |lia]. intros p. rewrite elem_page_run. split; [auto|]. intros [|(i & _ & Hi)]; [done|lia].
  - destruct (avail page) eqn:Ea.
    2: { intros [= <- <-]. split_and!; [lia| |eauto]. intros p. rewrite elem_page_run. split; [auto|]. intros [|(i & _ & Hi)]; [done|lia]. }
    destruct (map_pages avail _ _ n) as [m1 k1] eqn:E. intros [= <- <-].
    destruct (IH _ _ _ _ E) as (H1 & H2 & H3). split_and!; [lia| |intros; apply H3; lia].
    intros p. rewrite H2, elem_of_union, elem_of_singleton, !elem_page_run. split.
    + intros [[->|?]|(i & -> & Hi)]; [right; exists 0; lia|auto|right; exists (i + 1); lia].
    + intros [?|(i & -> & Hi)]; [auto|]. destruct (decide (i = 0)); [left; left; lia|right; exists (i - 1); lia].
Qed.

Lemma extent_limit_ok usable h h' l : heap_extent_limit usable h = (h', l) -> 0 <= limit h <= HEAP_VIRTUAL_BYTES ->
  h' = set_limit l h /\ 0 < l <= HEAP_VIRTUAL_BYTES.
Proof.
  unfold heap_extent_limit, HEAP_VIRTUAL_BYTES. intros E Hl. revert E. destruct (Z.eqb_spec (limit h) 0); cbn [negb].
  - intros [= <- <-]. split; [done|]. repeat case_cmp; lia.
  - intros [= <- <-]. split; [by destruct h|lia].
Qed.

Lemma sound_pages h C S mp : sound h C S -> S ⊆ frees HEAP_START C ->
  (forall y, HEAP_START <= y < HEAP_START + span C -> round_down y ∈ mapped h -> round_down y ∈ mp) ->
  sound (set_mapped mp h) C S.
Proof.
  intros [Hp Hb Hi] HS Hsub. pose proof (chain_ok _ _ _ _ _ _ (ph_chain _ _ Hp)) as Hok.
  assert (physical (set_mapped mp h) C) as Hp' by (destruct Hp; constructor; try done; by eapply chain_frame).
  constructor; [done|by eapply backed_frame|by eapply indexed_physical].
Qed.

Lemma heap_ok_limit h C l : heap_ok h C -> 0 <= l <= HEAP_VIRTUAL_BYTES -> heap_ok (set_limit l h) C.
Proof.
  intros [[[] Hb Hi] Hc Ha] Hl. constructor; [|done|done]. constructor; [by constructor|done|by eapply indexed_eq].
Qed.

(** The free block at the end of the row has [s] bytes. *)
Definition free_end (C : list ablk) (s : Z) : Prop := exists A c, C = A ++ [c] /\ fr c = true /\ s <= sz c.

(** The new pages become the end of the last block, when that is free, *)
Lemma grow_free h A t base growth : sound h (A ++ [t]) (frees HEAP_START (A ++ [t])) -> fr t = true ->
  base = HEAP_START + heap_size h -> 0 < growth -> (HEAP_PAGE_SIZE | growth) ->
  heap_size h + growth <= HEAP_VIRTUAL_BYTES -> resident (mapped h) base growth ->
  returns (h ← free_remove h (HEAP_START + span A);
           h ← modify h (HEAP_START + span A) (fun b => set_size (u64 (size b + growth)) b);
           free_insert h (HEAP_START + span A)) (fun h' =>
    let C' := A ++ [ABlk (sz t + growth) true (rel t)] in
    sound (set_heap_size (heap_size h + growth) h') C' (frees HEAP_START C') /\ heap_size h' = heap_size h /\
    heap_allocated h' = heap_allocated h).
Proof.
  intros Hs Hfr Hbase Hg Hpg Hmax Hres. set (a := HEAP_START + span A). pose proof Hs as [Hp Hk Hi].
  eapply returns_bind; [apply (lu_remove h _ _ a (LinkedUp _ _ _ Hp Hi)); rewrite frees_rest, Hfr; set_solver|].
  intros h1 [[Hp1 Hi1] [Ea1 Em1]]. unfold a in Hi1. rewrite (frees_remove h) in Hi1 by done. fold a in Hi1.
  destruct (physical_at _ _ _ _ Hp1) as [b Hb]. fold a in Hb.
  rewrite (modify_ok h1 a b), bind_ret by apply Hb. set (b' := set_size _ b). set (h2 := set_mem _ h1).
  set (t' := ABlk (sz t + growth) true (rel t)).
  pose proof (ba_ok _ _ _ _ _ _ Hb) as (Ht1 & Ht2 & _). pose proof (not_in_rest _ _ _ _ Hp1) as Hni. fold a in Hni.
  pose proof Hb as []. pose proof Hp1 as []. rewrite <- Em1 in Hk, Hres.
  assert (heap_size h1 = heap_size h) as Ez by (rewrite ph_size; symmetry; apply Hp). cbn in ba_total.
  eapply returns_mono; [apply (free_insert_ok h2 (rest_of A t []) a b')|].
  - eapply indexed_quiet; [exact Hi1|]. constructor; try done. intros x Hx. cbn. rewrite lookup_insert_ne; [done|].
    intros ->. done.
  - done.
  - exact ba_access.
  - cbn. by rewrite lookup_insert_eq.
  - cbn. apply u64_bound.
  - intros h3 [Hi3 []]. cbn zeta. fold t'. split_and!; [|by rewrite sl_size|by rewrite sl_allocated].
    assert (span (A ++ [t']) = heap_size h + growth) as Espan.
    { rewrite span_app. cbn. lia. }
    constructor.
    + constructor; cbn [mem mapped set_heap_size head tail heap_size limit]; rewrite ?Espan; try done.
      * apply chain_app in ph_chain as [HA [(H1 & _ & H3) _]]. apply chain_app. fold a in H1, H3 |- *. split.
        -- eapply chain_frame; [exact HA| |by rewrite sl_mapped]. intros x Hx. rewrite sl_mem. cbn.
           rewrite lookup_insert_ne by lia. done.
        -- cbn [chain]. rewrite sl_mapped. split_and!; try done.
           ++ rewrite sl_mem. cbn [mem h2 set_mem]. rewrite lookup_insert_eq. unfold b'. headers.
              rewrite ba_magic, ba_free, ba_released, ba_size, ba_next, ba_prev, Hfr. cbn [nxt].
              unfold HEADER, HEAP_VIRTUAL_BYTES in *. words. done.
           ++ unfold ablk_ok. cbn. split_and!; [lia| |done]. apply Z.divide_add_r; [done|].
              destruct Hpg as [j ->]. exists (j * 256). unfold HEAP_PAGE_SIZE. lia.
      * destruct A; done.
      * by rewrite sl_head.
      * rewrite sl_tail. cbn [h2 tail set_mem]. rewrite ph_tail, !lastp_app. done.
      * apply Z.divide_add_r; [by rewrite <- Ez|done].
      * by rewrite sl_limit.
    + cbn [mapped set_heap_size]. rewrite sl_mapped. cbn [h2 mapped set_mem]. apply (backed_mid _ _ _ _ a eq_refl).
      apply (backed_mid _ _ _ _ a eq_refl) in Hk as (H1 & H2 & _). split_and!; [done| |done]. cbn [rel sz t']. intros Hr.
      apply resident_app; [lia|lia|auto|]. replace (a + HEADER + sz t) with base; [done|]. unfold a, HEADER in *. lia.
    + rewrite frees_rest. eapply indexed_eq; [exact Hi3|done..].
Qed.

(** and a new last block otherwise. *)
Lemma grow_new h A t base growth : sound h (A ++ [t]) (frees HEAP_START (A ++ [t])) ->
  base = HEAP_START + heap_size h -> 0 < growth -> (HEAP_PAGE_SIZE | growth) ->
  heap_size h + growth <= HEAP_VIRTUAL_BYTES -> resident (mapped h) base growth ->
  mem h !! base = Some (new_block (growth - HEADER) None (Some (HEAP_START + span A))) ->
  returns (h ← modify h (HEAP_START + span A) (set_next (Some base));
           free_insert (set_tail (Some base) h) base) (fun h' =>
    let C' := A ++ [t; ABlk (growth - HEADER) true false] in
    sound (set_heap_size (heap_size h + growth) h') C' (frees HEAP_START C') /\ heap_size h' = heap_size h /\
    heap_allocated h' = heap_allocated h).
Proof.
  intros Hs Hbase Hg Hpg Hmax Hres Hnew. set (a := HEAP_START + span A) in *. pose proof Hs as [Hp Hk Hi].
  destruct (physical_at _ _ _ _ Hp) as [b Hb]. fold a in Hb.
  rewrite (modify_ok h a b), bind_ret by apply Hb. set (b' := set_next _ b). set (h2 := set_tail _ _).
  set (n := ABlk (growth - HEADER) true false).
  pose proof (ba_ok _ _ _ _ _ _ Hb) as (Ht1 & Ht2 & _). pose proof Hb as []. pose proof Hp as []. cbn in ba_total.
  assert (4096 <= growth) as Hg' by (destruct Hpg as [j ->]; unfold HEAP_PAGE_SIZE in *; lia).
  assert (a + HEADER + sz t = base) as Ebase by (unfold a in *; lia). assert (a < base) by (unfold HEADER in *; lia).
  assert (base ∉ frees HEAP_START (A ++ [t])) as Hni.
  { intros Hx%frees_range; [|by eapply chain_ok]. rewrite ph_size in Hbase. lia. }
  assert (accessible h base = true) as Hacc by (apply resident_accessible; eapply resident_sub; [exact Hres|lia|unfold HEADER; lia]).
  eapply returns_mono; [apply (free_insert_ok h2 (frees HEAP_START (A ++ [t])) base (new_block (growth - HEADER) None (Some a)))|].
  - eapply indexed_quiet; [exact Hi|]. constructor; try done. intros x Hx. cbn.
    destruct (decide (a = x)) as [<-|]; [by rewrite lookup_insert_eq, ba_mem|by rewrite lookup_insert_ne].
  - done.
  - exact Hacc.
  - cbn. rewrite lookup_insert_ne by lia. exact Hnew.
  - cbn. unfold HEADER, HEAP_VIRTUAL_BYTES in *. lia.
  - intros h3 [Hi3 []]. cbn zeta. fold n. split_and!; [|by rewrite sl_size|by rewrite sl_allocated].
    assert (span (A ++ [t; n]) = heap_size h + growth) as Espan by (rewrite span_app; cbn; lia).
    constructor.
    + constructor; cbn [mem mapped set_heap_size head tail heap_size limit]; rewrite ?Espan; try done.
      * apply chain_app in ph_chain as [HA [(H1 & H2 & H3) _]]. apply chain_app. fold a in H1, H3 |- *. split.
        -- eapply chain_frame; [exact HA| |by rewrite sl_mapped]. intros x Hx. rewrite sl_mem. cbn.
           rewrite lookup_insert_ne by lia. done.
        -- cbn [chain]. rewrite sl_mapped, Ebase. split_and!; try done.
           ++ rewrite sl_mem. cbn. rewrite lookup_insert_eq. unfold b'. headers.
              by rewrite ba_magic, ba_free, ba_released, ba_size, ba_prev.
           ++ rewrite sl_mem. cbn [mem h2 set_mem set_tail]. rewrite lookup_insert_ne, Hnew by lia. done.
           ++ unfold ablk_ok, n, HEADER. cbn. split_and!; [lia| |done]. destruct Hpg as [j ->]. exists (j * 256 - 3). unfold HEAP_PAGE_SIZE. lia.
           ++ eapply resident_sub; [exact Hres|lia|unfold HEADER; lia].
      * destruct A; done.
      * by rewrite sl_head.
      * rewrite sl_tail. cbn [h2 tail set_tail]. rewrite lastp_app. cbn [lastp]. fold a. by rewrite Ebase.
      * by apply Z.divide_add_r.
      * by rewrite sl_limit.
    + cbn [mapped set_heap_size]. rewrite sl_mapped. cbn [h2 mapped set_mem set_tail]. apply (backed_mid _ _ _ _ a eq_refl).
      apply (backed_mid _ _ _ _ a eq_refl) in Hk as (H1 & H2 & _). split_and!; [done|done|]. rewrite Ebase. cbn [backed rel sz n].
      split; [|done]. intros _. eapply resident_sub; [exact Hres|unfold HEADER; lia|unfold HEADER; lia].
    + replace (frees HEAP_START (A ++ [t; n])) with ({[base]} ∪ frees HEAP_START (A ++ [t]));
        [eapply indexed_eq; [exact Hi3|done..]|].
      rewrite !frees_mid. cbn [frees]. fold a. rewrite Ebase. cbn [n fr]. set_solver.
Qed.

(** What growth does: either nothing but to learn the limit, or the same
    blocks in use and a free block of [min] bytes more at the end. *)
Definition grown (usable : Z) (avail : Z -> bool) (C : list ablk) (min : Z) (r : heap * bool) : Prop :=
  if r.2 then exists C', heap_ok r.1 C' /\ used HEAP_START C' = used HEAP_START C /\ free_end C' min /\
    (forall s, free_end C s -> free_end C' (s + min))
  else heap_ok r.1 C /\ ((exists p, avail p = false) \/
    (heap_extent_limit usable r.1).2 < heap_size r.1 + round_up (min + HEADER)).

(** The new last block is in the row. *)
Lemma grow_link h A t base growth : sound h (A ++ [t]) (frees HEAP_START (A ++ [t])) ->
  base = HEAP_START + heap_size h -> 0 < growth -> (HEAP_PAGE_SIZE | growth) ->
  heap_size h + growth <= HEAP_VIRTUAL_BYTES -> resident (mapped h) base growth ->
  coalesced (A ++ [t]) -> heap_allocated h = in_use (A ++ [t]) ->
  returns (h ← store h base (new_block (u64 (growth - HEADER)) None (tail h));
           t ← deref (tail h);
           tb ← load h t;
           h ← (if is_free tb && (u64 (u64 (t + HEADER) + size tb) =? base) then
                  h ← free_remove h t;
                  h ← modify h t (fun b => set_size (u64 (size b + growth)) b);
                  free_insert h t
                else
                  h ← modify h t (set_next (Some base));
                  free_insert (set_tail (Some base) h) base);
           Ret (set_heap_size (u64 (heap_size h + growth)) h, true))
    (fun '(h', ok) => ok = true /\ heap_size h' = heap_size h + growth /\ exists C', heap_ok h' C' /\
       used HEAP_START C' = used HEAP_START (A ++ [t]) /\ free_end C' (growth - HEADER) /\
       (forall s, free_end (A ++ [t]) s -> free_end C' (s + growth))).
Proof.
  intros Hs Hbase Hg Hpg Hmax Hres Hco Hal. pose proof Hs as [Hp Hk Hi].
  assert (4096 <= growth) as Hg' by (destruct Hpg as [j ->]; unfold HEAP_PAGE_SIZE in *; lia).
  assert (accessible h base = true) as Hacc by (apply resident_accessible; eapply resident_sub; [exact Hres|lia|unfold HEADER; lia]).
  assert (u64 (growth - HEADER) = growth - HEADER) as -> by (unfold HEADER, HEAP_VIRTUAL_BYTES in *; pose proof (span_nonneg _ (chain_ok _ _ _ _ _ _ (ph_chain _ _ Hp))); pose proof (ph_size _ _ Hp); words; lia).
  rewrite (ph_tail _ _ Hp), lastp_app. cbn [lastp].
  unfold store. rewrite Hacc, bind_ret. set (a := HEAP_START + span A). set (h1 := set_mem _ h).
  assert (base ∉ frees HEAP_START (A ++ [t])) as Hni.
  { intros Hx%frees_range; [|by eapply chain_ok; apply Hp]. rewrite (ph_size _ _ Hp) in Hbase. lia. }
  assert (sound h1 (A ++ [t]) (frees HEAP_START (A ++ [t]))) as Hs1.
  { constructor.
    - destruct Hp. constructor; try done. eapply chain_frame; [exact ph_chain| |done]. intros x Hx. cbn.
      rewrite lookup_insert_ne; [done|]. rewrite ph_size in Hbase. lia.
    - done.
    - eapply indexed_quiet; [exact Hi|]. constructor; try done. intros x Hx. cbn. rewrite lookup_insert_ne; [done|]. by intros ->. }
  assert (tail h1 = Some a) as Et.
  { cbn. rewrite (ph_tail _ _ Hp), lastp_app. done. }
  rewrite Et. cbn [deref]. rewrite bind_ret. destruct (physical_at _ _ _ _ (so_phys _ _ _ Hs1)) as [b Hb]. fold a in Hb.
  rewrite (load_ok h1 a b), bind_ret, (ba_free _ _ _ _ _ _ Hb), (ba_size _ _ _ _ _ _ Hb) by apply Hb.
  assert (u64 (u64 (a + HEADER) + sz t) = base) as ->.
  { destruct Hb, ba_ok. cbn in ba_total. unfold a, HEADER, HEAP_VIRTUAL_BYTES, HEAP_START in *. words; lia. }
  rewrite Z.eqb_refl, andb_true_r. change (heap_size h) with (heap_size h1) in *.
  assert (0 <= heap_size h1) by (destruct Hb, ba_ok; unfold HEADER in *; lia).
  apply coalesced_app in Hco as (HcoA & _ & HcoAt). destruct (fr t) eqn:Ef.
  - eapply returns_bind; [by apply (grow_free h1 A t base growth Hs1 Ef)|]. cbn zeta. intros h2 (Hs2 & Ez2 & Ea2).
    rewrite Ez2. cbn [returns]. unfold HEAP_VIRTUAL_BYTES in *. words. split_and!; [done|done|]. eexists. split_and!; [constructor; [exact Hs2| |]|..].
    + apply coalesced_app. cbn. cbn in HcoAt. rewrite Ef in HcoAt. done.
    + cbn [set_heap_size heap_allocated]. rewrite Ea2. cbn. rewrite Hal, !in_use_app. cbn. by rewrite Ef.
    + rewrite !used_app. cbn. rewrite Ef. set_solver.
    + exists A, (ABlk (sz t + growth) true (rel t)). split_and!; [done|done|]. cbn. destruct (ba_ok _ _ _ _ _ _ Hb). unfold HEADER. lia.
    + intros s (A' & t0 & [-> [= ->]]%app_inj_2 & _ & Hle); [|done]. eexists A', _. split_and!; [done|done|]. cbn. lia.
  - eapply returns_bind; [apply (grow_new h1 A t base growth Hs1); try done; cbn; by rewrite lookup_insert_eq|]. cbn zeta. intros h2 (Hs2 & Ez2 & Ea2).
    rewrite Ez2. cbn [returns]. unfold HEAP_VIRTUAL_BYTES in *. words. split_and!; [done|done|]. eexists. split_and!; [constructor; [exact Hs2| |]|..].
    + apply coalesced_app. cbn. rewrite Ef, ?andb_false_r. done.
    + cbn [set_heap_size heap_allocated]. rewrite Ea2. cbn. rewrite Hal, !in_use_app. cbn. lia.
    + rewrite !used_app. cbn. set_solver.
    + exists (A ++ [t]), (ABlk (growth - HEADER) true false). rewrite <- app_assoc. done.
    + intros s (A' & t0 & [-> [= ->]]%app_inj_2 & Hf & Hle); [|done]. congruence.
Qed.

Lemma extent_limit_again usable h l : 0 < l -> heap_extent_limit usable (set_limit l h) = (set_limit l h, l).
Proof. intros Hl. unfold heap_extent_limit. cbn. by replace (l =? 0) with false by lia. Qed.

Lemma free_end_mono C s s' : free_end C s -> s' <= s -> free_end C s'.
Proof. intros (A & c & -> & Hf & Hs) Hle. exists A, c. split_and!; [done|done|lia]. Qed.

Lemma heap_grow_ok usable avail h C min : heap_ok h C -> 0 <= min -> min + HEADER + HEAP_PAGE_SIZE <= 2 ^ 64 ->
  returns (heap_grow usable avail h min) (grown usable avail C min).
Proof.
  intros Hok Hmin Hbig. pose proof (ho_sound _ _ Hok) as [Hp _ _]. pose proof Hp as [].
  pose proof (span_nonneg _ (chain_ok _ _ _ _ _ _ ph_chain)) as Hsp. unfold heap_grow, grown.
  destruct (heap_extent_limit usable h) as [h0 l] eqn:El. cbn [snd].
  apply extent_limit_ok in El as [-> Hl]; [|done].
  assert (heap_ok (set_limit l h) C) as Hok0 by (apply heap_ok_limit; [done|lia]).
  rewrite (u64_small (min + HEADER)) by (unfold HEADER, HEAP_PAGE_SIZE in *; lia).
  destruct (round_up_spec (min + HEADER)) as [Hpg Hup]; [unfold HEADER; lia|done|]. set (growth := round_up _) in *.
  change (heap_size (set_limit l h)) with (heap_size h).
  branch E.
  { cbn [returns fst snd]. split; [done|]. right. rewrite extent_limit_again by lia. cbn [snd heap_size set_limit]. apply orb_true_iff in E. unfold HEAP_VIRTUAL_BYTES, HEADER in *.
    destruct (Z.leb_spec l (heap_size h)); [lia|]. rewrite u64_small in E by lia. lia. }
  apply orb_false_iff in E as [E1 E2]. unfold HEAP_VIRTUAL_BYTES, HEADER in *. rewrite u64_small in E2 by lia.
  assert (u64 (HEAP_START + heap_size h) = HEAP_START + heap_size h) as -> by (unfold HEAP_START in *; words; lia).
  set (base := HEAP_START + heap_size h).
  assert ((HEAP_PAGE_SIZE | base)) as Hbpg by (apply Z.divide_add_r; [by exists 0xFFFFFF0000000|done]).
  destruct (map_pages avail _ base _) as [m k] eqn:Em. apply map_pages_ok in Em as (Hk & Hm & Hfail).
  change (mapped (set_limit l h)) with (mapped h) in Hm.
  assert (forall y, HEAP_START <= y < HEAP_START + span C -> round_down y < base) as Hbelow.
  { intros y Hy. destruct (round_down_spec y) as [_ Hr]; [unfold HEAP_START in *; lia|]. unfold base. lia. }
  destruct (Nat.ltb_spec k (Z.to_nat (growth / HEAP_PAGE_SIZE))) as [Hlt|Hge].
  { cbn. split; [|left; by apply Hfail]. destruct Hok0 as [Hs0 Hc0 Ha0]. constructor; [|done|done].
    apply sound_pages; [done|done|]. intros y Hy Hin. specialize (Hbelow y Hy). unfold unmap_pages.
    apply elem_of_difference. split; [apply Hm; auto|]. intros (i & Hi & Hi0)%elem_of_list_to_set%elem_page_run.
    unfold HEAP_PAGE_SIZE in *. lia. }
  assert (k = Z.to_nat (growth / HEAP_PAGE_SIZE)) as -> by lia.
  assert (resident m base growth) as Hres.
  { intros y Hy. apply Hm. right. apply elem_page_run. destruct Hpg as [j Hj], Hbpg as [i Hi]. unfold HEAP_PAGE_SIZE in *.
    pose proof (page_inside base (base + growth) y) as Hin. destruct (round_down_spec y) as [[q Hq] _]; [unfold base, HEAP_START in *; lia|].
    unfold HEAP_PAGE_SIZE in *. rewrite Hq in *. destruct Hin as [_ Hin]; [by exists i|exists (i + j); lia|unfold base, HEAP_START in *; lia|].
    specialize (Hin Hy). exists (q - i). split; [lia|]. rewrite Hj, Z.div_mul, Z2Nat.id by lia. lia. }
  destruct (last_cut C) as [->|(A & t & ->)]; [done|].
  destruct Hok0 as [Hs0 Hc0 Ha0]. set (h1 := set_mapped m (set_limit l h)).
  assert (sound h1 (A ++ [t]) (frees HEAP_START (A ++ [t]))) as Hs1.
  { apply sound_pages; [done|done|]. intros y Hy Hin. apply Hm. by left. }
  eapply returns_mono; [apply (grow_link h1 A t base growth Hs1); try done; unfold HEAP_VIRTUAL_BYTES; cbn; lia|].
  intros [h2 ok] (-> & Ez & C' & Hok2 & Hu & Hend & Hmore). cbn [fst snd]. exists C'. split_and!; try done.
  - eapply free_end_mono; [done|]. unfold HEADER. lia.
  - intros s Hs. eapply free_end_mono; [by apply Hmore|]. lia.
Qed.

(** ** What [kmalloc] does *)

Lemma used_range a C x s : Forall ablk_ok C -> (x, s) ∈ used a C -> a <= x /\ x + HEADER + s <= a + span C.
Proof.
  intros Hok. revert a. induction Hok as [|c C [Hc _] Hok IH]; intros a; cbn [used span foldr]; [by intros ?%elem_of_empty|].
  pose proof (span_nonneg C Hok). fold (span C). unfold HEADER in *. intros [Hx|Hx%IH]%elem_of_union; [|lia].
  destruct (fr c); [by apply elem_of_empty in Hx|]. apply elem_of_singleton in Hx as [= -> ->]. lia.
Qed.

(** The block at [p] of [s] bytes is new: it is apart from every block that is
    in use, headers included. *)
Definition apart (U : gset (Z * Z)) (p s : Z) : Prop :=
  forall x t, (x, t) ∈ U -> p + s <= x \/ x + HEADER + t <= p - HEADER.

Definition kmalloc_result (usable : Z) (avail : Z -> bool) (U : gset (Z * Z)) (want : Z) (pa : bool) (r : heap * option Z) : Prop :=
  exists C', heap_ok r.1 C' /\
  match r.2 with
  | None => used HEAP_START C' = U /\ ((exists p, avail p = false) \/
      (heap_extent_limit usable r.1).2 < heap_size r.1 +
        round_up ((if pa then want + HEAP_PAGE_SIZE + HEADER else want) + HEADER))
  | Some p => exists s, want <= s <= want + HEADER + 16 /\
      used HEAP_START C' = {[(p - HEADER, s)]} ∪ U /\ apart U p s /\
      HEAP_START < p /\ p + s <= HEAP_START + heap_size r.1 /\ resident (mapped r.1) p s /\
      (16 | p) /\ (pa = true -> (HEAP_PAGE_SIZE | p))
  end.

Lemma reacquire_fails avail n : forall m page m' ok, map_missing avail m page n = (m', ok) -> ok = false ->
  exists p, avail p = false.
Proof.
  induction n as [|n IH]; intros m page m' ok; cbn [map_missing]; [by intros [= <- <-]|].
  case_decide; [apply IH|]. destruct (avail page) eqn:E; [apply IH|eauto].
Qed.

(** Taking a block that is large enough, in the three steps of a turn. *)
Lemma kmalloc_take usable avail h A c B want (pa : bool) : heap_ok h (A ++ c :: B) -> fr c = true ->
  16 <= want -> (16 | want) -> (if pa then want + HEAP_PAGE_SIZE + HEADER + HEAP_ALIGN else want) <= sz c ->
  returns ('(h, ok) ← heap_reacquire_pages avail h (HEAP_START + span A) (u64 (want + (if pa then HEAP_PAGE_SIZE else 0)));
           if negb ok then Ret (h, None)
           else
             b ← load h (HEAP_START + span A);
             let released := pages_released b in
             '(h, chosen) ← choose h (HEAP_START + span A) want pa released;
             match chosen with
             | None => Ret (h, None)
             | Some c => '(h, p) ← carve h c want released; Ret (h, Some p)
             end) (kmalloc_result usable avail (used HEAP_START (A ++ c :: B)) want pa).
Proof.
  intros [Hs Hco Hal] Hfr Hw H16 Hsz. destruct (physical_at _ _ _ _ (so_phys _ _ _ Hs)) as [b Hb].
  assert (0 <= want + (if pa then HEAP_PAGE_SIZE else 0) <= sz c /\ sz c < 2 ^ 40) as [Hwb Hcb].
  { destruct Hb. unfold HEAP_PAGE_SIZE, HEADER, HEAP_ALIGN, HEAP_VIRTUAL_BYTES in *. destruct pa; lia. }
  rewrite u64_small by lia. pose proof (reacquire_pages_ok avail h A c B _ _ b _ Hs Hb ltac:(done) Hwb) as Hre.
  destruct (heap_reacquire_pages avail h _ _) as [[h1 ok]|w|] eqn:Ere; try done. cbn [returns] in Hre.
  destruct Hre as (Hs1 & Hb1 & Ea1 & Hres). rewrite bind_ret. destruct ok; cbn [negb].
  2: { cbn. exists (A ++ c :: B). split; [constructor; [done|done|cbn; congruence]|]. split; [done|]. left.
       revert Ere. unfold heap_reacquire_pages. rewrite (load_ok h _ b), bind_ret by apply Hb.
       destruct (negb (pages_released b)); [done|]. destruct (map_missing _ _ _ _) as [m ok'] eqn:Em. intros [= <- ->].
       by eapply reacquire_fails. }
  rewrite (load_ok h1 _ b), bind_ret by apply Hb1. cbv zeta. rewrite (ba_released _ _ _ _ _ _ Hb1).
  eapply returns_bind; [by apply (choose_ok h1 A c B want pa Hs1); auto|].
  intros [h2 r] (A2 & c2 & -> & [Hs2 Hf2 Hr2 Hsz2 Hend Hres2 Hu2 Hi2 Hco2 Hpa2 Ea2]). rewrite <- Hr2.
  eapply returns_bind; [by apply (carve_ok h2 A2 c2 B want)|].
  intros [h3 p] (-> & s & B3 & [Hs3 Hsize Hu3 Hi3 Hco3 Ea3]). cbn.
  apply coalesced_app in Hco as (HcA & HcB%coalesced_cons & HcAc). destruct HcB as [Hhd HcB].
  cbn [hd_free] in HcAc. rewrite Hfr in Hhd, HcAc. cbn in Hhd. rewrite andb_true_r in HcAc.
  destruct (sound_parts _ _ _ _ _ Hs3) as [HA2 HB3]. destruct (physical_at _ _ _ _ (so_phys _ _ _ Hs3)) as [b3 Hb3].
  set (a := HEAP_START + span A2) in *. replace (HEAP_START + span A + HEADER + sz c) with (a + HEADER + sz c2) in * by (unfold a; lia).
  assert (used HEAP_START (A ++ c :: B) = used HEAP_START A2 ∪ used (a + HEADER + s) B3) as Hu.
  { rewrite used_app. cbn [used]. rewrite Hfr, Hu2, Hu3. unfold a. rewrite (left_id_L ∅ _). do 2 f_equal. lia. }
  exists (A2 ++ ABlk s false false :: B3). split.
  - constructor; [done| |].
    + apply coalesced_app. rewrite coalesced_cons. cbn. rewrite andb_false_r. auto.
    + cbn [fst]. rewrite Ea3, Ea2, Ea1, Hal, !in_use_app. cbn. fold (in_use B) (in_use B3). rewrite Hfr, Hi2, Hi3.
      pose proof (in_use_bound _ HA2). pose proof (in_use_bound _ HB3). destruct Hb3. cbn in *.
      unfold HEADER, HEAP_VIRTUAL_BYTES in *. rewrite u64_small by lia. lia.
  - exists s. rewrite Hu. replace (a + HEADER - HEADER) with a by lia. destruct Hb3. cbn [sz] in *. split_and!; try lia.
    + rewrite used_app. cbn [used fr sz]. fold a. set_solver.
    + intros x t [Hx|Hx]%elem_of_union; apply used_range in Hx; try done; unfold a, HEADER in *; lia.
    + unfold a, HEADER. lia.
    + cbn [fst]. rewrite <- ba_total. unfold a. lia.
    + pose proof (so_backed _ _ _ Hs3) as Hk. apply (backed_mid _ _ _ _ _ eq_refl) in Hk as (_ & Hk & _). by apply Hk.
    + apply Z.divide_add_r; [apply Z.divide_add_r; [by exists 0xFFFFFF000000000|by apply span_align]|by exists 3].
    + done.
Qed.

(** How many turns of the loop are still needed: the first growth makes room
    for [min] bytes, the second for twice as many. *)
Definition enough (fuel : nat) (C : list ablk) (min wanted : Z) : Prop :=
  (3 <= fuel)%nat \/ (2 <= fuel)%nat /\ free_end C min \/ (1 <= fuel)%nat /\ free_end C wanted.

Lemma frees_end C s : free_end C s -> exists A c, C = A ++ [c] /\ HEAP_START + span A ∈ frees HEAP_START C /\ s <= sz c.
Proof. intros (A & c & -> & Hf & Hs). exists A, c. split_and!; [done| |done]. rewrite frees_rest, Hf. set_solver. Qed.

Lemma kmalloc_loop_ok usable avail want (pa : bool) : 16 <= want <= 2 ^ 63 -> (16 | want) ->
  let min := if pa then want + HEAP_PAGE_SIZE + HEADER else want in
  let wanted := if pa then want + HEAP_PAGE_SIZE + HEADER + HEAP_ALIGN else want in
  forall fuel h C, heap_ok h C -> enough fuel C min wanted ->
  returns (kmalloc_loop usable avail fuel h want pa) (kmalloc_result usable avail (used HEAP_START C) want pa).
Proof.
  intros Hw H16 min wanted. assert (0 < wanted < 2 ^ 64 /\ wanted <= min + min /\ 0 <= min /\ min + HEADER + HEAP_PAGE_SIZE <= 2 ^ 64) as (Hwb & Hmm & Hm0 & Hmb).
  { unfold wanted, min, HEAP_PAGE_SIZE, HEADER, HEAP_ALIGN. destruct pa; lia. }
  induction fuel as [|fuel IH]; intros h C Hok Hen; [exfalso; destruct Hen as [|[[] | []]]; lia|].
  pose proof (ho_sound _ _ Hok) as [Hp _ Hi]. cbn [kmalloc_loop].
  assert ((if pa then u64 (want + HEAP_PAGE_SIZE + HEADER + HEAP_ALIGN) else want) = wanted) as Ew.
  { unfold wanted in *. destruct pa; [by rewrite u64_small by lia|done]. }
  assert ((if pa then u64 (want + HEAP_PAGE_SIZE + HEADER) else want) = min) as ->.
  { unfold min, wanted, HEAP_ALIGN in *. destruct pa; [by rewrite u64_small by lia|done]. }
  pose proof (find_fit_ok h _ want pa Hi) as Hfind. cbv zeta in Hfind. rewrite Ew in Hfind.
  eapply returns_bind; [by apply Hfind|]. intros [a|].
  - intros [Ha (b & Hb & Hsz)]. apply frees_split in Ha as (A & c & B & -> & Hfr & ->).
    destruct (physical_at _ _ _ _ Hp) as [b' []]. rewrite Hb in ba_mem. injection ba_mem as <-. rewrite ba_size in Hsz.
    apply kmalloc_take; try done. lia.
  - intros Hnone. assert (~ free_end C wanted) as Hno.
    { intros (A & c & -> & Ha & Hs)%frees_end. destruct (physical_at _ _ _ _ Hp) as [b []]. specialize (Hnone _ b Ha ba_mem). lia. }
    eapply returns_bind; [by apply (heap_grow_ok usable avail h C min Hok)|].
    intros [h1 []]; unfold grown; cbn [fst snd].
    + intros (C1 & Hok1 & Hu1 & Hend & Hmore). rewrite <- Hu1. apply IH; [done|]. unfold enough in *.
      destruct Hen as [H3|[[H2 He]|[H1 He]]]; [|right; right|done].
      * destruct (decide (3 <= fuel)%nat); [by left|]. right. left. split; [lia|done].
      * split; [lia|]. eapply free_end_mono; [by apply Hmore|done].
    + intros [Hok1 Hwhy]. exists C. split; [done|]. split; [done|]. exact Hwhy.
Qed.

Lemma round_16 n : 0 < n <= 2 ^ 63 ->
  let want := Z.land (u64 (n + (HEAP_ALIGN - 1))) (u64 (Z.lnot (HEAP_ALIGN - 1))) in
  n <= want < n + 16 /\ 16 <= want <= 2 ^ 63 /\ (16 | want).
Proof.
  intros Hn. cbv zeta. unfold HEAP_ALIGN. rewrite (u64_small (n + _)) by lia. change 16 with (2 ^ 4). rewrite land_high by lia.
  change (2 ^ 4) with 16. split; [dlia|]. split; [dlia|]. exists ((n + (16 - 1)) / 16). dlia.
Qed.

(** Freeing a block that is free already. *)
Lemma kfree_free unmaps h A c B : heap_ok h (A ++ c :: B) -> fr c = true ->
  kfree unmaps h (Some (HEAP_START + span A + HEADER)) = Ret h.
Proof.
  intros [[Hp _ _] _ _] Hf. destruct (physical_at _ _ _ _ Hp) as [b Hb]. unfold kfree.
  rewrite (payload_back h A c B b Hb), (load_ok h _ b), bind_ret by apply Hb.
  by rewrite (ba_magic _ _ _ _ _ _ Hb), Z.eqb_refl, (ba_free _ _ _ _ _ _ Hb), Hf.
Qed.

Lemma used_split a C x s : (x, s) ∈ used a C -> exists A c B, C = A ++ c :: B /\ fr c = false /\ x = a + span A /\ s = sz c.
Proof.
  revert a. induction C as [|c C IH]; intros a; cbn [used]; [by intros ?%elem_of_empty|].
  intros [Hx|Hx]%elem_of_union.
  - destruct (fr c) eqn:E; [by apply elem_of_empty in Hx|]. apply elem_of_singleton in Hx as [= -> ->].
    exists [], c, C. cbn. split_and!; try done. lia.
  - destruct (IH _ Hx) as (A & d & B & -> & Hd & -> & ->). exists (c :: A), d, B. split_and!; try done. cbn. unfold span. lia.
Qed.
