(* ===== verification/HeapSpec.v ===== *)
(** * The heap as its callers see it

    What [kmalloc] and [kfree] promise, in terms of the set of blocks in use,
    and what holds of every heap they can produce. *)

From S2P Require Import Prelude Heap HeapBins HeapRow HeapOps.

(** [heap_state h U]: a heap in order, whose blocks in use are [U]: pairs of a
    header's address and the size of the payload behind it. *)
Definition heap_state (h : heap) (U : gset (Z * Z)) : Prop := exists C, heap_ok h C /\ U = used HEAP_START C.

Definition bytes (U : gset (Z * Z)) : Z := set_fold (fun x n => x.2 + n) 0 U.

Lemma bytes_cons x U : x ∉ U -> bytes ({[x]} ∪ U) = x.2 + bytes U.
Proof.
  intros Hx. unfold bytes. rewrite (comm_L (∪) {[x]} U), (set_fold_disj_union_strong (=)); [by rewrite set_fold_singleton| | |set_solver].
  - intros y n n' ->. done.
  - intros; cbn; lia.
Qed.

Lemma used_not_below a C x : Forall ablk_ok C -> x < a -> forall s, (x, s) ∉ used a C.
Proof. intros Hok Hx s H%used_range; [lia|done]. Qed.

Lemma used_bytes a C : Forall ablk_ok C -> bytes (used a C) = in_use C.
Proof.
  intros Hok. revert a. induction Hok as [|c C [Hc _] Hok IH]; intros a; [done|]. cbn [used in_use foldr]. fold (in_use C).
  destruct (fr c); [by rewrite (left_id_L ∅ _), IH|]. rewrite bytes_cons; [by rewrite IH|].
  apply used_not_below; [done|]. unfold HEADER. lia.
Qed.

Lemma heap_ok_blocks h C : heap_ok h C -> Forall ablk_ok C.
Proof. intros [[Hp _ _] _ _]. eapply chain_ok. apply Hp. Qed.

Lemma state_bytes h U : heap_state h U -> heap_allocated h = bytes U.
Proof. intros (C & Hok & ->). rewrite used_bytes by (by eapply heap_ok_blocks). apply Hok. Qed.

Lemma indexed_empty h : bins h = replicate 64 None -> bin_mask h = 0 -> indexed h ∅.
Proof.
  intros Eb Em. exists (fun _ => []). split; [|intros a; rewrite elem_of_empty; split; [done|by intros [n ?%elem_of_nil]]].
  constructor; rewrite ?Eb, ?Em; try done.
  - intros n Hn. by apply lookup_replicate_2.
  - intros _. constructor.
  - intros n Hn. by rewrite Z.bits_0.
  - by intros n a ?%elem_of_nil.
Qed.

Lemma heap_start_ok avail : forallb avail (page_run HEAP_START 256) = true ->
  returns (heap_init avail no_heap) (fun h => heap_ok h [ABlk (HEAP_INITIAL_SIZE - HEADER) true false]).
Proof.
  intros Hav. unfold heap_init. change (Z.to_nat (HEAP_INITIAL_SIZE / HEAP_PAGE_SIZE)) with 256%nat. rewrite Hav. cbn [negb].
  set (mp := list_to_set (page_run HEAP_START 256) ∪ mapped no_heap).
  assert (resident mp HEAP_START HEAP_INITIAL_SIZE) as Hres.
  { intros y Hy. apply elem_of_union_l, elem_of_list_to_set, elem_page_run. unfold HEAP_INITIAL_SIZE, HEAP_START in *.
    destruct (round_down_spec y ltac:(lia)) as [[q Hq] Hr]. unfold HEAP_PAGE_SIZE in *. exists (q - 0xFFFFFF0000000). lia. }
  clearbody mp. set (h1 := set_heap_size _ _). assert (accessible h1 HEAP_START = true) as Hacc.
  { apply resident_accessible. eapply resident_sub; [exact Hres|lia|]. unfold HEADER, HEAP_INITIAL_SIZE. lia. }
  unfold store. rewrite Hacc, bind_ret. set (h2 := Heap _ _ _ _ _ _ _ _ _).
  assert (mem h2 !! HEAP_START = Some (new_block (HEAP_INITIAL_SIZE - HEADER) None None)) as Hmem by apply lookup_insert_eq.
  assert (accessible h2 HEAP_START = true) as Hacc2 by exact Hacc.
  assert (bins h2 = replicate 64 None /\ bin_mask h2 = 0 /\ mapped h2 = mp /\ head h2 = Some HEAP_START /\
    tail h2 = Some HEAP_START /\ heap_size h2 = HEAP_INITIAL_SIZE /\ heap_allocated h2 = 0 /\ limit h2 = 0)
    as (Ebins & Emask & Emp & Eh & Et & Ez & Ea & El) by done. clearbody h2.
  eapply returns_mono; [apply (free_insert_ok h2 ∅ HEAP_START _ (indexed_empty h2 Ebins Emask) (not_elem_of_empty _) Hacc2 Hmem); done|].
  intros h3 [Hi [Sm Smp Sh St Sz Sa Sl]]. rewrite Emp in Smp. constructor; [|done|by rewrite Sa, Ea]. constructor.
  - assert (chain (mem h3) (mapped h3) None HEAP_START [ABlk (HEAP_INITIAL_SIZE - HEADER) true false] None) as Hch.
    { cbn [chain]. rewrite Smp, Sm, Hmem. split; [|exact I]. split; [reflexivity|]. split.
      - split; [cbn; unfold HEAP_INITIAL_SIZE, HEADER; lia|]. split; [by exists 65533|discriminate].
      - eapply resident_sub; [exact Hres|lia|]. unfold HEADER, HEAP_INITIAL_SIZE. lia. }
    constructor; rewrite ?Sh, ?St, ?Sz, ?Sl, ?Eh, ?Et, ?Ez, ?El; [exact Hch|discriminate|reflexivity..|exists 256; reflexivity| |];
      unfold HEAP_INITIAL_SIZE, HEAP_VIRTUAL_BYTES; lia.
  - cbn. rewrite Smp. split; [|done]. intros _.
    eapply resident_sub; [exact Hres|unfold HEADER; lia|unfold HEADER, HEAP_INITIAL_SIZE; lia].
  - cbn [frees fr]. exact Hi.
Qed.

(** Runs of the heap: what its callers may do.  [kfree] is called with a
    pointer that [kmalloc] gave out and that was not freed since. *)
Inductive heap_run : heap -> gset (Z * Z) -> Prop :=
  | run_init avail h : heap_init avail no_heap = Ret h -> heap_run h ∅
  | run_kmalloc usable avail h U n h' p b : heap_run h U -> 0 <= n <= 2 ^ 63 ->
      kmalloc usable avail h n = Ret (h', Some p) -> mem h' !! (p - HEADER) = Some b ->
      heap_run h' ({[(p - HEADER, size b)]} ∪ U)
  | run_kmalloc_null usable avail h U n h' : heap_run h U -> 0 <= n <= 2 ^ 63 ->
      kmalloc usable avail h n = Ret (h', None) -> heap_run h' U
  | run_kfree unmaps h U a s h' : heap_run h U -> (a, s) ∈ U ->
      kfree unmaps h (Some (a + HEADER)) = Ret h' -> heap_run h' (U ∖ {[(a, s)]}).

Lemma kmalloc_state usable avail h U n : heap_state h U -> 0 < n <= 2 ^ 63 ->
  returns (kmalloc usable avail h n) (fun r => exists want, n <= want < n + 16 /\
    kmalloc_result usable avail U want (HEAP_PAGE_ALIGN_MIN <=? want) r).
Proof.
  intros (C & Hok & ->) Hn. unfold kmalloc. replace (n =? 0) with false by lia.
  destruct (round_16 n Hn) as (H1 & H2 & H3). set (want := Z.land _ _) in *.
  eapply returns_mono; [apply (kmalloc_loop_ok usable avail want _ H2 H3 3 h C Hok); by left|]. intros r Hr. by exists want.
Qed.

Lemma kfree_state unmaps h U a s : heap_state h U -> (a, s) ∈ U ->
  returns (kfree unmaps h (Some (a + HEADER))) (fun h' => heap_state h' (U ∖ {[(a, s)]})).
Proof.
  intros (C & Hok & ->) (A & c & B & -> & Hf & -> & ->)%used_split.
  pose proof (heap_ok_blocks _ _ Hok) as Hall. apply Forall_app in Hall as [HA HB].
  pose proof (Forall_inv HB) as (Hc & _). apply Forall_inv_tail in HB.
  eapply returns_mono; [by apply (kfree_used unmaps h A c B)|]. intros h' (C' & Hok' & Hu). exists C'. split; [done|].
  rewrite Hu, used_app. cbn [used]. rewrite Hf.
  assert ((HEAP_START + span A, sz c) ∉ used HEAP_START A) as HnA.
  { intros [_ H]%used_range; [|done]. unfold HEADER in *. lia. }
  assert (forall t, (HEAP_START + span A, t) ∉ used (HEAP_START + span A + HEADER + sz c) B) as HnB.
  { apply used_not_below; [done|]. unfold HEADER. lia. }
  specialize (HnB (sz c)). set_solver.
Qed.

Lemma state_blocks h U a s : heap_state h U -> (a, s) ∈ U -> HEAP_START <= a /\ 16 <= s /\
  a + HEADER + s <= HEAP_START + heap_size h /\ resident (mapped h) (a + HEADER) s /\
  exists b, mem h !! a = Some b /\ magic b = HEAP_MAGIC /\ is_free b = false /\ size b = s.
Proof.
  intros (C & Hok & ->) (A & c & B & -> & Hf & -> & ->)%used_split. pose proof Hok as [[Hp Hk _] _ _].
  destruct (physical_at _ _ _ _ Hp) as [b []]. pose proof ba_ok as (Hs & _ & Hr).
  apply (backed_mid _ _ _ _ _ eq_refl) in Hk as (_ & Hk & _). split_and!; [lia|done|lia|auto|].
  exists b. by rewrite ba_free, Hf.
Qed.

Lemma state_apart h U x s : heap_state h U -> (x, s) ∈ U -> apart (U ∖ {[(x, s)]}) (x + HEADER) s.
Proof.
  intros (C & Hok & ->) (A & c & B & -> & Hf & -> & ->)%used_split y t [Hy Hne]%elem_of_difference.
  pose proof (heap_ok_blocks _ _ Hok) as Hall. apply Forall_app in Hall as [HA HB]. apply Forall_inv_tail in HB.
  rewrite used_app in Hy. cbn [used] in Hy. rewrite Hf in Hy.
  apply elem_of_union in Hy as [Hy|[Hy|Hy]%elem_of_union]; [|set_solver|].
  - apply used_range in Hy; [|done]. unfold HEADER in *. lia.
  - apply used_range in Hy; [|done]. unfold HEADER in *. lia.
Qed.

Lemma heap_run_state h U : heap_run h U -> heap_state h U.
Proof.
  induction 1 as [avail h E|usable avail h U n h' p b _ IH Hn E Eb|usable avail h U n h' _ IH Hn E|unmaps h U a s h' _ IH Ha E].
  - unfold heap_init in E. destruct (negb (forallb avail _)) eqn:Ef in E; [done|]. apply negb_false_iff in Ef.
    pose proof (heap_start_ok avail Ef) as Hs. unfold heap_init in Hs. change (Z.to_nat (HEAP_INITIAL_SIZE / HEAP_PAGE_SIZE)) with 256%nat in *.
    rewrite Ef in Hs. cbn [negb] in Hs. rewrite E in Hs. cbn [returns] in Hs. eexists. split; [exact Hs|]. cbn [used fr]. by rewrite (left_id_L ∅ _).
  - destruct (decide (n = 0)) as [->|]; [done|].
    pose proof (kmalloc_state usable avail h U n IH ltac:(lia)) as Hr. rewrite E in Hr.
    destruct Hr as (want & _ & C' & Hok & s & _ & Hu & _). cbn [fst] in Hok.
    assert (heap_state h' ({[(p - HEADER, s)]} ∪ U)) as Hst by (by exists C').
    destruct (state_blocks h' _ (p - HEADER) s Hst ltac:(set_solver)) as (_ & _ & _ & _ & b' & Eb' & _ & _ & Es).
    rewrite Eb in Eb'. injection Eb' as <-. by rewrite Es.
  - destruct (decide (n = 0)) as [->|]; [unfold kmalloc in E; cbn in E; by injection E as <-|].
    pose proof (kmalloc_state usable avail h U n IH ltac:(lia)) as Hr. rewrite E in Hr.
    destruct Hr as (want & _ & C' & Hok & Hu & _). by exists C'.
  - pose proof (kfree_state unmaps h U a s IH Ha) as Hr. by rewrite E in Hr.
Qed.

(** ** Properties *)

(** C1. [kmalloc] is correct on a heap in order, for every request up to 2^63
    bytes: it returns after at most three turns of its loop, without touching
    memory that is not mapped, and leaves a heap in order.  A pointer it gives
    out is aligned to 16 bytes, and to a page from 64 KB on; the block behind
    it has the bytes asked for and fewer than 80 more, lies inside the heap on
    mapped pages, and neither it nor its header overlaps a block in use.  It
    answers NULL only when a page could not be had or the heap's limit is
    reached, and then the blocks in use are the ones before. *)
Theorem kmalloc_correct usable avail h U n : heap_state h U -> 0 < n <= 2 ^ 63 ->
  returns (kmalloc usable avail h n) (fun '(h', r) =>
    match r with
    | Some p => exists s, n <= s < n + 80 /\ heap_state h' ({[(p - HEADER, s)]} ∪ U) /\ apart U p s /\
        HEAP_START < p /\ p + s <= HEAP_START + heap_size h' /\ resident (mapped h') p s /\
        (16 | p) /\ (HEAP_PAGE_ALIGN_MIN <= n -> (HEAP_PAGE_SIZE | p))
    | None => heap_state h' U /\ ((exists page, avail page = false) \/
        (heap_extent_limit usable h').2 < heap_size h' + n + 3 * HEAP_PAGE_SIZE)
    end).
Proof.
  intros Hst Hn. eapply returns_mono; [by apply (kmalloc_state usable avail h U n)|].
  intros [h' [p|]] (want & Hw & C' & Hok & Hr); cbn [fst snd] in *.
  - destruct Hr as (s & Hs & Hu & Hap & H1 & H2 & H3 & H4 & H5). exists s. unfold HEADER in *. split_and!; try done; try lia.
    + by exists C'.
    + intros Hbig. apply H5. apply Z.leb_le. lia.
  - destruct Hr as (Hu & Hwhy). split; [by exists C'|]. destruct Hwhy as [?|Hlim]; [by left|right].
    unfold HEADER, HEAP_PAGE_SIZE in *.
    match type of Hlim with context [round_up ?x] => destruct (round_up_spec x) as [_ Hup] end;
      [destruct (_ <=? _); lia|destruct (_ <=? _); unfold HEAP_PAGE_SIZE; lia|]. unfold HEAP_PAGE_SIZE in Hup.
    destruct (_ <=? want); lia.
Qed.

(** C2. [kfree] is correct on a heap in order: freeing a block in use returns
    and leaves a heap in order in which exactly that block is no longer in
    use, freeing NULL changes nothing, and freeing a block that is free
    already changes nothing either. *)
Theorem kfree_correct unmaps h U : heap_state h U ->
  (forall a s, (a, s) ∈ U -> returns (kfree unmaps h (Some (a + HEADER))) (fun h' => heap_state h' (U ∖ {[(a, s)]}))) /\
  kfree unmaps h None = Ret h /\
  (forall C A c B, heap_ok h C -> C = A ++ c :: B -> fr c = true ->
     kfree unmaps h (Some (HEAP_START + span A + HEADER)) = Ret h).
Proof.
  intros Hst. split_and!; [by intros; apply kfree_state|done|].
  intros C A c B Hok -> Hf. by eapply kfree_free.
Qed.


(** ** Examples *)

Definition every_page (_ : Z) : bool := true.

(** A heap of a single page, free or in use. *)
Definition page_heap (free : bool) : heap :=
  Heap {[HEAP_START := HeapBlock HEAP_MAGIC free false 11 (4096 - HEADER) None None None None]} {[HEAP_START]}
    (Some HEAP_START) (Some HEAP_START) (if free then <[11%nat := Some HEAP_START]> (replicate 64 None) else replicate 64 None)
    (if free then 2 ^ 11 else 0) 4096 (if free then 0 else 4096 - HEADER) 0.

Lemma page_heap_ok : heap_ok (page_heap false) [ABlk (4096 - HEADER) false false].
Proof.
  assert (resident {[HEAP_START]} HEAP_START 4096) as Hres.
  { intros y Hy. apply elem_of_singleton. unfold HEAP_START in *. destruct (round_down_spec y ltac:(lia)) as [[q Hq] Hr].
    unfold HEAP_PAGE_SIZE in *. lia. }
  constructor; [|exact I|reflexivity]. constructor.
  - constructor; try (unfold HEAP_VIRTUAL_BYTES; cbn; lia); [|discriminate|reflexivity..|exists 1; reflexivity].
    split; [|exact I]. split; [reflexivity|]. split.
    + split; [cbn; unfold HEADER; lia|]. split; [exists 253; reflexivity|reflexivity].
    + eapply resident_sub; [exact Hres|lia|]. unfold HEADER. lia.
  - split; [|exact I]. intros _. eapply resident_sub; [exact Hres|unfold HEADER; lia|cbn; unfold HEADER; lia].
  - cbn [frees fr]. rewrite (left_id_L ∅ _). by apply indexed_empty.
Qed.

Lemma page_heap_state : heap_state (page_heap false) {[(HEAP_START, 4096 - HEADER)]}.
Proof. eexists. split; [exact page_heap_ok|]. cbn [used fr sz]. by rewrite (right_id_L ∅ _). Qed.

Lemma kmalloc_correct_witness : returns (kmalloc 0 every_page (page_heap false) 70000) (fun '(h', r) =>
  match r with
  | Some p => (HEAP_PAGE_SIZE | p) /\ exists s, 70000 <= s /\ resident (mapped h') p s
  | None => (heap_extent_limit 0 h').2 < heap_size h' + 70000 + 3 * HEAP_PAGE_SIZE
  end).
Proof.
  eapply returns_mono; [apply (kmalloc_correct 0 every_page (page_heap false) _ 70000 page_heap_state); lia|].
  intros [h' [p|]]; cbn.
  - intros (s & H1 & _ & _ & _ & _ & H2 & _ & H3). split; [apply H3; unfold HEAP_PAGE_ALIGN_MIN; lia|].
    exists s. split; [lia|exact H2].
  - intros [_ [[page Hp]|H]]; [discriminate Hp|exact H].
Defined.

Lemma kfree_correct_witness :
  returns (kfree every_page (page_heap false) (Some (HEAP_START + HEADER))) (fun h' =>
    heap_state h' ({[(HEAP_START, 4096 - HEADER)]} ∖ {[(HEAP_START, 4096 - HEADER)]})).
Proof.
  destruct (kfree_correct every_page (page_heap false) _ page_heap_state) as (H & _ & _).
  apply H. apply elem_of_singleton. reflexivity.
Defined.

(** The heap after [heap_init], when there are pages. *)
Lemma boot_run : exists h, heap_run h ∅.
Proof.
  pose proof (heap_start_ok every_page eq_refl) as H.
  destruct (heap_init every_page no_heap) as [h| |] eqn:E; [|destruct H..]. exists h. exact (run_init every_page h E).
Qed.


(** A request within 16 bytes of 2^64 wraps to zero when it is rounded up:
    [kmalloc] gives out a block with no bytes at all. *)
Example kmalloc_wraps :
  match kmalloc 0 every_page (page_heap true) (2 ^ 64 - 8) with
  | Ret (h, Some p) => size <$> mem h !! (p - HEADER) = Some 0
  | _ => False
  end.
Proof. vm_compute. reflexivity. Qed.

(** [heap_grow] is asked for 16 bytes less than [find_fit] then wants: for this
    size the new pages do not do and the heap grows a second time. *)
Example kmalloc_grows_twice :
  match kmalloc 0 every_page (page_heap false) 69536 with
  | Ret (h, Some p) => heap_size h = 4096 + 2 * round_up (69536 + HEAP_PAGE_SIZE + HEADER + HEADER)
  | _ => False
  end.
Proof. vm_compute. reflexivity. Qed.
