(* ===== verification/Pipe.v ===== *)
(** * Pipes (kernel/ipc/pipe.c)

    A pipe is a ring of [capacity] bytes, a power of two.  Every operation runs
    under the pipe's lock, so it is one atomic step on [pipe_buffer]; wake-ups
    of waiting threads are the list of wait channels an operation returns.  What
    [kmalloc] returned is an argument: [None] for NULL, [Some block] for a block
    with arbitrary contents. *)

From S2P Require Import Prelude.

Definition PIPE_CAPACITY : Z := 65536.
Definition PIPE_ATOMIC_WRITE : Z := 4096.
Definition PIPE_MAX_CAPACITY : Z := 1024 * 1024.
Definition PIPE_ROOT_MAX_CAPACITY : Z := 64 * 1024 * 1024.

Record pipe_buffer := Pipe {
  data : list Z;
  capacity : Z;
  read_pos : Z;
  write_pos : Z;
  count : Z;
  readers : Z;
  writers : Z;
  reader_opens : Z;
  writer_opens : Z;
  named : bool
}.

Inductive wait_channel := data_wait | space_wait | open_wait.

Definition set_ends (p : pipe_buffer) (r w ro wo : Z) : pipe_buffer :=
  Pipe (data p) (capacity p) (read_pos p) (write_pos p) (count p) r w ro wo (named p).
Definition set_ring (p : pipe_buffer) (d : list Z) (c rp wp n : Z) : pipe_buffer :=
  Pipe d c rp wp n (readers p) (writers p) (reader_opens p) (writer_opens p) (named p).

(** ** Life cycle *)

Definition pipe_buffer_init (cap : Z) (block : option (list Z)) : Z * pipe_buffer :=
  match block with
  | None => (-1, Pipe [] 0 0 0 0 0 0 0 0 false)
  | Some d => (0, Pipe d cap 0 0 0 0 0 0 0 false)
  end.

Definition pipe_buffer_fini (p : pipe_buffer) : pipe_buffer :=
  set_ring p [] 0 (read_pos p) (write_pos p) (count p).

Definition pipe_buffer_create_named (block : option (list Z)) : option pipe_buffer :=
  let '(status, p) := pipe_buffer_init PIPE_CAPACITY block in
  if negb (status =? 0) then None
  else Some (Pipe (data p) (capacity p) (read_pos p) (write_pos p) (count p) (readers p)
               (writers p) (reader_opens p) (writer_opens p) true).

Definition pipe_attach_end (p : pipe_buffer) (write_end : bool) : pipe_buffer * list wait_channel :=
  ( if write_end then set_ends p (readers p) (i32 (writers p + 1)) (reader_opens p) (u32 (writer_opens p + 1))
    else set_ends p (i32 (readers p + 1)) (writers p) (u32 (reader_opens p + 1)) (writer_opens p),
    [open_wait] ).

(** [file_create_pipe_end] (kernel/fs/file.c) writes through the result of its
    [kmalloc] without a test; [allocated] says whether that was a block. *)
Definition file_create_pipe_end (p : pipe_buffer) (write_end allocated : bool)
  : res (pipe_buffer * list wait_channel) :=
  if allocated then Ret (pipe_attach_end p write_end) else Fault.

Definition pipe_create (struct_ok : bool) (block : option (list Z)) (read_ok write_ok : bool)
  : res (Z * option pipe_buffer) :=
  if negb struct_ok then Ret (-1, None) else
  let '(status, p0) := pipe_buffer_init PIPE_CAPACITY block in
  if negb (status =? 0) then Ret (-1, None) else
  '(p1, _) ← file_create_pipe_end p0 false read_ok;
  '(p2, _) ← file_create_pipe_end p1 true write_ok;
  Ret (0, Some p2).

(** [pipe_release] returns the remaining pipe, or [None] once it is destroyed. *)
Definition pipe_release (p : pipe_buffer) (write_end : bool)
  : option pipe_buffer * list wait_channel :=
  let p1 :=
    if write_end then
      set_ends p (readers p) (if 0 <? writers p then writers p - 1 else writers p)
        (reader_opens p) (writer_opens p)
    else
      set_ends p (if 0 <? readers p then readers p - 1 else readers p) (writers p)
        (reader_opens p) (writer_opens p) in
  let wakes :=
    if write_end then (if writers p1 =? 0 then [data_wait] else [])
    else (if readers p1 =? 0 then [space_wait] else []) in
  let unused := negb (named p1) && (readers p1 =? 0) && (writers p1 =? 0) in
  (if unused then None else Some p1, wakes).

(** ** Opening a FIFO *)

Definition peer_arrived (p : pipe_buffer) (write_end : bool) (seen : Z) : bool :=
  if write_end then (0 <? readers p) || negb (reader_opens p =? seen)
  else (0 <? writers p) || negb (writer_opens p =? seen).

(** One round of the loop of [pipe_wait_for_peer]: what the scheduler and the
    other openers do between its steps. *)
Record wait_round := Round {
  prepare_status : Z;
  pipe_before_sleep : pipe_buffer;
  pipe_after_sleep : pipe_buffer;
  interrupted : bool
}.

(** [None] means the opener is still waiting when the rounds are used up. *)
Fixpoint wait_rounds (write_end : bool) (seen : Z) (rounds : list wait_round) : option Z :=
  match rounds with
  | [] => None
  | r :: rest =>
      if negb (prepare_status r =? 0) then Some (prepare_status r)
      else if peer_arrived (pipe_before_sleep r) write_end seen then Some 0
      else if peer_arrived (pipe_after_sleep r) write_end seen then Some 0
      else if interrupted r then Some (- EINTR)
      else wait_rounds write_end seen rest
  end.

Definition pipe_wait_for_peer (p : pipe_buffer) (write_end : bool) (rounds : list wait_round)
  : option Z :=
  wait_rounds write_end (if write_end then reader_opens p else writer_opens p) rounds.

(** ** Reading, writing, resizing *)

Definition pipe_read_locked (p : pipe_buffer) (size : Z)
  : res (Z * list Z * pipe_buffer * list wait_channel) :=
  if count p =? 0 then
    Ret (if writers p =? 0 then 0 else - EAGAIN, [], p, [])
  else
    let amount := if size <? count p then size else count p in
    let first := u64 (capacity p - read_pos p) in
    let first := if amount <? first then amount else first in
    out1 ← copy_out (data p) (read_pos p) first;
    out2 ← (if first <? amount then copy_out (data p) 0 (u64 (amount - first)) else Ret []);
    let p' := set_ring p (data p) (capacity p)
                (Z.land (u64 (read_pos p + amount)) (u64 (capacity p - 1))) (write_pos p)
                (u64 (count p - amount)) in
    Ret (i64 amount, out1 ++ out2, p', [space_wait]).

(** [buffer] is the user's [size] bytes. *)
Definition pipe_write_locked (p : pipe_buffer) (buffer : list Z)
  : res (Z * pipe_buffer * list wait_channel) :=
  let size := Z.of_nat (length buffer) in
  let available := u64 (capacity p - count p) in
  if (available =? 0) || ((size <=? PIPE_ATOMIC_WRITE) && (available <? size)) then
    Ret (- EAGAIN, p, [])
  else
    let amount := if size <? available then size else available in
    let first := u64 (capacity p - write_pos p) in
    let first := if amount <? first then amount else first in
    in1 ← copy_out buffer 0 first;
    d1 ← copy_in (data p) (write_pos p) in1;
    d2 ← (if first <? amount then
            in2 ← copy_out buffer first (u64 (amount - first)); copy_in d1 0 in2
          else Ret d1);
    let p' := set_ring p d2 (capacity p) (read_pos p)
                (Z.land (u64 (write_pos p + amount)) (u64 (capacity p - 1)))
                (u64 (count p + amount)) in
    Ret (i64 amount, p', [data_wait]).

Definition pipe_resize_locked (p : pipe_buffer) (cap : Z) (block : option (list Z))
  : res (Z * pipe_buffer) :=
  if cap <? count p then Ret (-1, p) else
  if cap =? capacity p then Ret (0, p) else
  match block with
  | None => Ret (-1, p)
  | Some fresh =>
      let first := u64 (capacity p - read_pos p) in
      let first := if count p <? first then count p else first in
      part1 ← copy_out (data p) (read_pos p) first;
      d1 ← copy_in fresh 0 part1;
      d2 ← (if first <? count p then
              part2 ← copy_out (data p) 0 (u64 (count p - first)); copy_in d1 first part2
            else Ret d1);
      Ret (0, set_ring p d2 cap 0 (Z.land (count p) (u64 (cap - 1))) (count p))
  end.

(** [pipe_size_control] (kernel/core/syscall.c): F_SETPIPE_SZ.  The doubling
    loop runs at most 14 times below the 64 MiB ceiling. *)
Fixpoint round_capacity (fuel : nat) (cap wanted : Z) : Z :=
  match fuel with
  | O => cap
  | S fuel => if cap <? wanted then round_capacity fuel (u64 (cap * 2)) wanted else cap
  end.

Definition pipe_size_control (p : pipe_buffer) (set : bool) (wanted : Z) (unprivileged : bool)
  (block : option (list Z)) : res (Z * pipe_buffer) :=
  if negb set then Ret (i64 (capacity p), p) else
  let ceiling := if unprivileged then PIPE_MAX_CAPACITY else PIPE_ROOT_MAX_CAPACITY in
  if ceiling <? wanted then Ret (- EPERM, p) else
  let cap := round_capacity 16 4096 wanted in
  if cap <? count p then Ret (- EBUSY, p) else
  '(status, p') ← pipe_resize_locked p cap block;
  if negb (status =? 0) then Ret (- ENOMEM, p') else Ret (i64 cap, p').

(** ** The abstract pipe: a FIFO of bytes *)

Definition queue (p : pipe_buffer) : list Z :=
  take (Z.to_nat (count p)) (drop (Z.to_nat (read_pos p)) (data p) ++ data p).

Record pipe_inv (p : pipe_buffer) : Prop := {
  inv_pow2 : exists k, 0 <= k < 40 /\ capacity p = 2 ^ k;
  inv_len : Z.of_nat (length (data p)) = capacity p;
  inv_read : 0 <= read_pos p < capacity p;
  inv_count : 0 <= count p <= capacity p;
  inv_write : write_pos p = (read_pos p + count p) mod capacity p
}.

(** ** Lemmas: the ring *)

Lemma capacity_bound p : pipe_inv p -> 0 < capacity p < 2 ^ 40.
Proof.
  intros Hp. destruct (inv_pow2 _ Hp) as (k & Hk & ->).
  split; [apply Z.pow_pos_nonneg; lia|apply Z.pow_lt_mono_r; lia].
Qed.

(** The mask of the source is the remainder. *)
Lemma ring_mask p x : pipe_inv p -> 0 <= x < 2 ^ 64 ->
  Z.land (u64 x) (u64 (capacity p - 1)) = x mod capacity p.
Proof.
  intros Hp Hx. pose proof (capacity_bound p Hp). rewrite !u64_small by lia.
  destruct (inv_pow2 _ Hp) as (k & Hk & ->). apply land_low. lia.
Qed.

Lemma mod_wrap x c : 0 <= x < 2 * c -> x mod c = if decide (x < c) then x else x - c.
Proof.
  intros. case_decide; [apply Z.mod_small; lia|].
  replace x with (x - c + 1 * c) at 1 by lia. rewrite Z.mod_add by lia. apply Z.mod_small. lia.
Qed.

Lemma queue_length p : pipe_inv p -> Z.of_nat (length (queue p)) = count p.
Proof.
  intros Hp. pose proof (inv_len _ Hp). pose proof (inv_count _ Hp). pose proof (inv_read _ Hp).
  unfold queue. rewrite length_take, length_app, length_drop. lia.
Qed.

(** Byte [i] of the queue sits [i] places after the read position. *)
Lemma ring_lookup (d : list Z) c r i :
  Z.of_nat (length d) = c -> 0 <= r < c -> 0 <= i < c ->
  (drop (Z.to_nat r) d ++ d) !! Z.to_nat i = d !! Z.to_nat ((r + i) mod c).
Proof.
  intros Hd Hr Hi. rewrite mod_wrap by lia. case_decide.
  - rewrite lookup_app_l by (rewrite length_drop; lia). rewrite lookup_drop. f_equal. lia.
  - rewrite lookup_app_r by (rewrite length_drop; lia). rewrite length_drop. f_equal. lia.
Qed.

Lemma queue_lookup p i : pipe_inv p -> 0 <= i < count p ->
  queue p !! Z.to_nat i = data p !! Z.to_nat ((read_pos p + i) mod capacity p).
Proof.
  intros Hp Hi. pose proof (inv_count _ Hp). unfold queue. rewrite lookup_take_lt by lia.
  apply ring_lookup; [apply Hp|apply Hp|lia].
Qed.

(** The two [memcpy]s of a read: [n] bytes of the ring from position [r]. *)
Lemma ring_slices (d : list Z) c r n :
  Z.of_nat (length d) = c -> 0 <= r < c -> 0 <= n <= c ->
  let first := if n <? c - r then n else c - r in
  0 <= first <= n /\ r + first <= c /\
  slice d r first ++ (if first <? n then slice d 0 (n - first) else []) =
  take (Z.to_nat n) (drop (Z.to_nat r) d ++ d).
Proof.
  intros Hd Hr Hn. cbv zeta. unfold slice. destruct (Z.ltb_spec n (c - r)).
  - rewrite Z.ltb_irrefl, app_nil_r. split; [lia|]. split; [lia|].
    rewrite take_app_le by (rewrite length_drop; lia). done.
  - split; [lia|]. split; [lia|]. rewrite take_app. f_equal.
    + rewrite !take_ge by (rewrite length_drop; lia). done.
    + rewrite length_drop, drop_0. case_cmp.
      * f_equal. lia.
      * replace (Z.to_nat n - _)%nat with 0%nat by lia. done.
Qed.

(** Advancing the read position drops bytes from the front. *)
Lemma ring_drop (d : list Z) c r n m :
  Z.of_nat (length d) = c -> 0 <= r < c -> 0 <= n <= m -> m <= c ->
  take (Z.to_nat (m - n)) (drop (Z.to_nat ((r + n) mod c)) d ++ d) =
  drop (Z.to_nat n) (take (Z.to_nat m) (drop (Z.to_nat r) d ++ d)).
Proof.
  intros Hd Hr Hn Hm. rewrite skipn_firstn_comm.
  replace (Z.to_nat m - Z.to_nat n)%nat with (Z.to_nat (m - n)) by lia.
  rewrite mod_wrap by lia. case_decide.
  - rewrite drop_app_le by (rewrite length_drop; lia). rewrite drop_drop.
    f_equal. f_equal. f_equal. lia.
  - rewrite drop_app_ge by (rewrite length_drop; lia). rewrite length_drop.
    rewrite take_app_le by (rewrite length_drop; lia). f_equal. f_equal. lia.
Qed.

Lemma pow2_inv_keep p d rp wp n :
  pipe_inv p -> Z.of_nat (length d) = capacity p -> 0 <= rp < capacity p ->
  0 <= n <= capacity p -> wp = (rp + n) mod capacity p ->
  pipe_inv (set_ring p d (capacity p) rp wp n).
Proof. intros [H1 H2 H3 H4 H5] ? ? ? ?. by split. Qed.

(** What a read returns and leaves. *)
Definition read_post (p : pipe_buffer) (size : Z)
  (out : Z * list Z * pipe_buffer * list wait_channel) : Prop :=
  let '(moved, bytes, p', wakes) := out in
  pipe_inv p' /\ capacity p' = capacity p /\ writers p' = writers p /\ readers p' = readers p /\
  ( (queue p = [] /\ p' = p /\ bytes = [] /\ wakes = [] /\
     moved = if writers p =? 0 then 0 else - EAGAIN) \/
    (queue p <> [] /\ wakes = [space_wait] /\ moved = Z.min size (Z.of_nat (length (queue p))) /\
     bytes = take (Z.to_nat moved) (queue p) /\ queue p' = drop (Z.to_nat moved) (queue p)) ).

Lemma read_post_ok p size : pipe_inv p -> 0 <= size < 2 ^ 64 ->
  returns (pipe_read_locked p size) (read_post p size).
Proof.
  intros Hp Hs. pose proof (capacity_bound p Hp) as Hc. pose proof (inv_len _ Hp) as Hl.
  pose proof (inv_read _ Hp) as Hr. pose proof (inv_count _ Hp) as Hn.
  pose proof (queue_length p Hp) as Hq. unfold pipe_read_locked.
  destruct (Z.eqb_spec (count p) 0) as [E|E].
  { cbn. split_and!; try done. left. split_and!; try done. apply nil_length_inv. lia. }
  set (amount := if size <? count p then size else count p).
  assert (amount = Z.min size (count p)) as Ea by (unfold amount; case_cmp; lia).
  rewrite (u64_small (capacity p - read_pos p)) by lia.
  destruct (ring_slices (data p) (capacity p) (read_pos p) amount Hl Hr ltac:(lia))
    as (Hf1 & Hf2 & Hcat). cbv zeta in Hcat.
  set (first := if amount <? capacity p - read_pos p then amount else capacity p - read_pos p) in *.
  rewrite (copy_out_in (data p) (read_pos p) first) by lia. rewrite bind_ret.
  assert ((if first <? amount then copy_out (data p) 0 (u64 (amount - first)) else Ret []) =
    Ret (if first <? amount then slice (data p) 0 (amount - first) else [])) as ->.
  { case_cmp; [|done]. rewrite u64_small by lia. apply copy_out_in; lia. }
  rewrite bind_ret, Hcat. rewrite (ring_mask p) by (done || lia).
  rewrite (i64_small amount), (u64_small (count p - amount)) by lia. cbn [returns read_post].
  split; [|split_and!; try done; right; split_and!; try done].
  - apply pow2_inv_keep; try done; try lia; [apply Z.mod_pos_bound; lia|].
    rewrite (inv_write _ Hp), Z.add_mod_idemp_l by lia. f_equal. lia.
  - intros Hnil. rewrite Hnil in Hq. simpl in Hq. lia.
  - lia.
  - unfold queue. rewrite take_take. f_equal. lia.
  - unfold queue. cbn [set_ring data count read_pos]. apply ring_drop; done || lia.
Qed.

(** The two [memcpy]s of a write append to the queue. *)
Definition ring_put (d : list Z) (c w amount : Z) (buf : list Z) : list Z :=
  let first := if amount <? c - w then amount else c - w in
  let d1 := splice d w (slice buf 0 first) in
  if first <? amount then splice d1 0 (slice buf first (amount - first)) else d1.

Lemma ring_put_lookup d c w amount buf j :
  Z.of_nat (length d) = c -> 0 <= w < c -> 0 <= amount <= c ->
  amount <= Z.of_nat (length buf) -> 0 <= j < c ->
  length (ring_put d c w amount buf) = length d /\
  ring_put d c w amount buf !! Z.to_nat j =
    if decide (w <= j < w + amount) then buf !! Z.to_nat (j - w)
    else if decide (j + c < w + amount) then buf !! Z.to_nat (j + c - w)
    else d !! Z.to_nat j.
Proof.
  intros Hd Hw Ha Hb Hj. unfold ring_put.
  assert (forall i n, 0 <= i -> 0 <= n -> i + n <= Z.of_nat (length buf) ->
    Z.of_nat (length (slice buf i n)) = n) as Hsl by (intros; by apply length_slice).
  destruct (Z.ltb_spec amount (c - w)).
  - rewrite Z.ltb_irrefl. specialize (Hsl 0 amount).
    split; [apply length_splice; lia|]. rewrite lookup_splice by lia.
    repeat case_decide; try lia; [|done]. rewrite lookup_slice by lia. f_equal. lia.
  - pose proof (Hsl 0 (c - w)) as H1. pose proof (Hsl (c - w) (amount - (c - w))) as H2.
    assert (length (splice d w (slice buf 0 (c - w))) = length d) as Hd1 by (apply length_splice; lia).
    case_cmp.
    + split; [rewrite length_splice; lia|]. rewrite lookup_splice by (rewrite ?Hd1; lia).
      destruct (decide (j + c < w + amount)).
      * rewrite decide_True, (decide_False (P := w <= j < w + amount)) by lia.
        rewrite lookup_slice by lia. f_equal. lia.
      * rewrite decide_False, lookup_splice by lia.
        repeat case_decide; try lia; [|done]. rewrite lookup_slice by lia. f_equal. lia.
    + split; [done|]. rewrite lookup_splice by lia.
      repeat case_decide; try lia; [|done]. rewrite lookup_slice by lia. f_equal. lia.
Qed.

Lemma ring_put_queue d c r n amount buf :
  Z.of_nat (length d) = c -> 0 <= r < c -> 0 <= n -> 0 <= amount -> n + amount <= c ->
  amount <= Z.of_nat (length buf) ->
  let d' := ring_put d c ((r + n) mod c) amount buf in
  take (Z.to_nat (n + amount)) (drop (Z.to_nat r) d' ++ d') =
  take (Z.to_nat n) (drop (Z.to_nat r) d ++ d) ++ take (Z.to_nat amount) buf.
Proof.
  intros Hd Hr Hn Ha Hc Hb. cbv zeta. pose proof (Z.mod_pos_bound (r + n) c ltac:(lia)) as Hw.
  pose proof (fun j => ring_put_lookup d c _ amount buf j Hd Hw ltac:(lia) Hb) as Hput.
  pose proof (proj1 (Hput 0 ltac:(lia))) as Hlen.
  assert (length (take (Z.to_nat n) (drop (Z.to_nat r) d ++ d)) = Z.to_nat n) as Hq.
  { rewrite length_take, length_app, length_drop. lia. }
  apply list_eq. intros i. destruct (decide (Z.of_nat i < n + amount)) as [Hi|Hi].
  2:{ rewrite lookup_ge_None_2 by (rewrite length_take; lia).
      rewrite lookup_ge_None_2; [done|]. rewrite length_app, Hq, length_take. lia. }
  rewrite lookup_take_lt by lia. replace i with (Z.to_nat (Z.of_nat i)) at 1 by lia.
  rewrite (ring_lookup _ c r) by lia.
  pose proof (Z.mod_pos_bound (r + Z.of_nat i) c ltac:(lia)) as Hj.
  rewrite (proj2 (Hput _ Hj)). clear Hput.
  rewrite (mod_wrap (r + Z.of_nat i) c) in * by lia. rewrite (mod_wrap (r + n)) in * by lia.
  destruct (decide (Z.of_nat i < n)).
  - rewrite lookup_app_l, lookup_take_lt by lia.
    pose proof (ring_lookup d c r (Z.of_nat i) Hd Hr) as Hlk. rewrite Nat2Z.id in Hlk.
    rewrite Hlk by lia. rewrite (mod_wrap (r + Z.of_nat i) c) by lia.
    repeat case_decide; try lia; done.
  - rewrite lookup_app_r, Hq, lookup_take_lt by lia. repeat case_decide; try lia; f_equal; lia.
Qed.

(** What a write returns and leaves. *)
Definition write_post (p : pipe_buffer) (buffer : list Z)
  (out : Z * pipe_buffer * list wait_channel) : Prop :=
  let '(moved, p', wakes) := out in
  let size := Z.of_nat (length buffer) in
  let room := capacity p - Z.of_nat (length (queue p)) in
  pipe_inv p' /\ capacity p' = capacity p /\ writers p' = writers p /\ readers p' = readers p /\
  ( (moved = - EAGAIN /\ p' = p /\ wakes = [] /\
     (room = 0 \/ (size <= PIPE_ATOMIC_WRITE /\ room < size))) \/
    (0 < room /\ (size <= PIPE_ATOMIC_WRITE -> moved = size) /\ wakes = [data_wait] /\
     moved = Z.min size room /\ queue p' = queue p ++ take (Z.to_nat moved) buffer) ).

Lemma write_post_ok p buffer : pipe_inv p -> Z.of_nat (length buffer) < 2 ^ 63 ->
  returns (pipe_write_locked p buffer) (write_post p buffer).
Proof.
  intros Hp Hs. pose proof (capacity_bound p Hp) as Hc. pose proof (inv_len _ Hp) as Hl.
  pose proof (inv_read _ Hp) as Hr. pose proof (inv_count _ Hp) as Hn.
  pose proof (queue_length p Hp) as Hq. unfold pipe_write_locked, write_post. rewrite Hq.
  remember (Z.of_nat (length buffer)) as size eqn:Esz.
  rewrite (u64_small (capacity p - count p)) by lia.
  destruct ((capacity p - count p =? 0) ||
    ((size <=? PIPE_ATOMIC_WRITE) && (capacity p - count p <? size))) eqn:Eb.
  { cbn [returns]. split_and!; try done. left. split_and!; try done. lia. }
  set (amount := if size <? capacity p - count p then size else capacity p - count p).
  assert (amount = Z.min size (capacity p - count p)) as Ea by (unfold amount; case_cmp; lia).
  pose proof (Z.mod_pos_bound (read_pos p + count p) (capacity p) ltac:(lia)) as Hw.
  rewrite <- (inv_write _ Hp) in Hw.
  rewrite (u64_small (capacity p - write_pos p)) by lia.
  set (first := if amount <? capacity p - write_pos p then amount else capacity p - write_pos p).
  assert (first = Z.min amount (capacity p - write_pos p)) as Ef by (unfold first; case_cmp; lia).
  pose proof (length_slice buffer 0 first ltac:(lia) ltac:(lia) ltac:(lia)) as Hs1.
  pose proof (length_slice buffer first (amount - first) ltac:(lia) ltac:(lia) ltac:(lia)) as Hs2.
  rewrite (copy_out_in buffer 0 first), bind_ret by lia.
  rewrite (copy_in_in (data p)), bind_ret by lia.
  assert (length (splice (data p) (write_pos p) (slice buffer 0 first)) = length (data p)) as Hd1
    by (apply length_splice; lia).
  match goal with |- context [if first <? amount then ?a else ?b] =>
    assert ((if first <? amount then a else b) =
      Ret (ring_put (data p) (capacity p) (write_pos p) amount buffer)) as -> end.
  { unfold ring_put. fold first. case_cmp; [|done]. rewrite u64_small by lia.
    rewrite copy_out_in, bind_ret by lia. apply copy_in_in; [lia|]. rewrite Hd1. lia. }
  rewrite bind_ret, (ring_mask p) by (done || lia).
  rewrite (i64_small amount), (u64_small (count p + amount)) by lia. cbn [returns].
  destruct (ring_put_lookup (data p) (capacity p) (write_pos p) amount buffer 0) as [Hlen _]; [lia..|].
  split; [|split_and!; try done; right; split_and!; try done; try lia].
  - apply pow2_inv_keep; try done; try lia.
    rewrite (inv_write _ Hp), Z.add_mod_idemp_l by lia. f_equal. lia.
  - unfold queue. cbn [set_ring data count read_pos]. rewrite (inv_write _ Hp).
    apply ring_put_queue; done || lia.
Qed.

(** What a change of capacity returns and leaves. *)
Definition resize_post (p : pipe_buffer) (cap : Z) (block : option (list Z))
  (out : Z * pipe_buffer) : Prop :=
  let '(status, p') := out in
  pipe_inv p' /\ queue p' = queue p /\ writers p' = writers p /\ readers p' = readers p /\
  ( (status = -1 /\ p' = p /\ (cap < Z.of_nat (length (queue p)) \/ block = None)) \/
    (status = 0 /\ Z.of_nat (length (queue p)) <= cap /\ capacity p' = cap) ).

Lemma resize_post_ok p k cap block : pipe_inv p -> 0 <= k < 40 -> cap = 2 ^ k ->
  (forall d, block = Some d -> Z.of_nat (length d) = cap) ->
  returns (pipe_resize_locked p cap block) (resize_post p cap block).
Proof.
  intros Hp Hk Hcap Hblock. pose proof (capacity_bound p Hp) as Hc. pose proof (inv_len _ Hp) as Hl.
  pose proof (inv_read _ Hp) as Hr. pose proof (inv_count _ Hp) as Hn.
  pose proof (queue_length p Hp) as Hq. unfold pipe_resize_locked.
  assert (0 < cap < 2 ^ 40) as Hcb.
  { subst. split; [apply Z.pow_pos_nonneg; lia|apply Z.pow_lt_mono_r; lia]. }
  destruct (Z.ltb_spec cap (count p)) as [|Hfit]; [cbn; split_and!; try done; left; split_and!; done || lia|].
  destruct (Z.eqb_spec cap (capacity p)) as [->|_];
    [cbn; split_and!; try done; right; split_and!; done || lia|].
  destruct block as [fresh|]; [|cbn; split_and!; try done; left; split_and!; auto].
  specialize (Hblock fresh eq_refl). rewrite (u64_small (capacity p - read_pos p)) by lia.
  destruct (ring_slices (data p) (capacity p) (read_pos p) (count p) Hl Hr Hn)
    as (Hf1 & Hf2 & Hcat). cbv zeta in Hcat.
  set (first := if count p <? capacity p - read_pos p then count p else capacity p - read_pos p) in *.
  pose proof (length_slice (data p) (read_pos p) first ltac:(lia) ltac:(lia) ltac:(lia)) as Hs1.
  pose proof (length_slice (data p) 0 (count p - first) ltac:(lia) ltac:(lia)) as Hs2.
  rewrite (copy_out_in (data p) (read_pos p) first), bind_ret by lia.
  rewrite (copy_in_in fresh), bind_ret by lia.
  assert (length (splice fresh 0 (slice (data p) (read_pos p) first)) = length fresh) as Hd1
    by (apply length_splice; lia).
  match goal with |- context [if first <? count p then ?a else ?b] =>
    assert (exists d2, (if first <? count p then a else b) = Ret d2 /\
      length d2 = length fresh /\ take (Z.to_nat (count p)) d2 = queue p) as (d2 & -> & Hd2 & Htk) end.
  { unfold queue. rewrite <- Hcat. case_cmp.
    - rewrite u64_small by lia. rewrite copy_out_in, bind_ret by lia.
      eexists. split; [apply copy_in_in; [lia|rewrite Hd1; lia]|].
      split; [rewrite length_splice; rewrite ?Hd1; lia|].
      unfold splice. change (Z.to_nat 0) with 0%nat. rewrite take_0. cbn [app].
      rewrite (take_app_length' (slice (data p) (read_pos p) first)) by lia.
      rewrite app_assoc. apply take_app_length'. rewrite length_app. lia.
    - eexists. split; [done|]. split; [done|]. rewrite app_nil_r.
      unfold splice. change (Z.to_nat 0) with 0%nat. rewrite take_0. cbn [app].
      apply take_app_length'. lia. }
  rewrite bind_ret. cbn [returns resize_post].
  assert (Z.land (count p) (u64 (cap - 1)) = count p mod cap) as ->.
  { rewrite u64_small by lia. subst cap. apply land_low. lia. }
  split_and!; try done.
  - split; cbn; try done; try lia. by exists k.
  - unfold queue at 1. cbn. rewrite drop_0, take_app_le by lia. done.
  - right. split_and!; done || lia.
Qed.

(** ** Lemmas: F_SETPIPE_SZ *)

Lemma round_capacity_ok fuel k wanted :
  0 <= k -> wanted <= 2 ^ (k + Z.of_nat fuel) -> k + Z.of_nat fuel < 40 ->
  exists j, k <= j <= k + Z.of_nat fuel /\ round_capacity fuel (2 ^ k) wanted = 2 ^ j /\
    wanted <= 2 ^ j /\ (j = k \/ 2 ^ (j - 1) < wanted).
Proof.
  revert k. induction fuel as [|fuel IH]; intros k Hk Hw Hb; cbn [round_capacity].
  { exists k. replace (k + Z.of_nat 0) with k in * by lia. split_and!; try done; try lia; by left. }
  case_cmp; [|exists k; split_and!; try done; try lia; by left].
  assert (2 ^ (k + 1) = 2 ^ k * 2) as E by (rewrite Z.pow_add_r by lia; lia).
  assert (0 <= 2 ^ k * 2 < 2 ^ 64) by (rewrite <- E; split; [apply Z.pow_nonneg|apply Z.pow_lt_mono_r]; lia).
  rewrite u64_small, <- E by done.
  destruct (IH (k + 1)) as (j & Hj & -> & Hwj & Hmin); [lia|by replace (k + 1 + _) with (k + Z.of_nat (S fuel)) by lia|lia|].
  exists j. split_and!; try done; try lia. right. destruct Hmin as [->|?]; [|done].
  by replace (k + 1 - 1) with k by lia.
Qed.

Definition size_block_ok (wanted : Z) (block : option (list Z)) : Prop :=
  forall d, block = Some d -> Z.of_nat (length d) = round_capacity 16 4096 wanted.

Definition size_control_post (p : pipe_buffer) (wanted : Z) (unprivileged : bool)
  (block : option (list Z)) (out : Z * pipe_buffer) : Prop :=
  let '(r, p') := out in
  pipe_inv p' /\ queue p' = queue p /\ writers p' = writers p /\ readers p' = readers p /\
  ( (p' = p /\ (r = - EPERM /\ (if unprivileged then PIPE_MAX_CAPACITY else PIPE_ROOT_MAX_CAPACITY) < wanted
                \/ r = - EBUSY \/ (r = - ENOMEM /\ block = None))) \/
    (r = capacity p' /\ Z.max 4096 wanted <= r /\ Z.of_nat (length (queue p)) <= r /\
     (r = 4096 \/ r / 2 < wanted)) ).

Lemma size_control_post_ok p wanted unprivileged block :
  pipe_inv p -> 0 <= wanted < 2 ^ 64 -> size_block_ok wanted block ->
  returns (pipe_size_control p true wanted unprivileged block)
    (size_control_post p wanted unprivileged block).
Proof.
  intros Hp Hw Hblock. unfold pipe_size_control. cbn [negb].
  set (ceiling := if unprivileged then _ else _).
  destruct (Z.ltb_spec ceiling wanted) as [Hgt|Hle].
  { cbn. split_and!; try done. left. split; [done|]. by left. }
  assert (wanted <= 2 ^ (12 + Z.of_nat 16)) as Hmax
    by (unfold ceiling, PIPE_MAX_CAPACITY, PIPE_ROOT_MAX_CAPACITY in Hle; destruct unprivileged; lia).
  destruct (round_capacity_ok 16 12 wanted ltac:(lia) Hmax ltac:(lia)) as (j & Hj & Hr & Hwj & Hmin).
  unfold size_block_ok in Hblock. change 4096 with (2 ^ 12) in *. rewrite Hr in *.
  assert (2 ^ 12 <= 2 ^ j < 2 ^ 40) as Hb by (split; [apply Z.pow_le_mono_r|apply Z.pow_lt_mono_r]; lia).
  destruct (Z.ltb_spec (2 ^ j) (count p)) as [|Hfit].
  { cbn. split_and!; try done. left. split; [done|]. by right; left. }
  eapply returns_bind; [exact (resize_post_ok p j (2 ^ j) block Hp ltac:(lia) eq_refl Hblock)|].
  intros [status p'] (Hp' & Hq' & Hws & Hrs & Hcase).
  destruct Hcase as [(-> & -> & [Hbad|Hnone])|(-> & Hlen & Hcap)].
  - pose proof (queue_length p Hp). lia.
  - cbn. split_and!; try done. left. split; [done|]. right. by right.
  - cbn [Z.eqb negb returns size_control_post]. rewrite i64_small by lia.
    split_and!; try done. right. split_and!; try done; try lia.
    destruct Hmin as [->|Hm]; [by left|right].
    destruct (decide (j = 0)) as [->|]; [lia|].
    replace (2 ^ j / 2) with (2 ^ (j - 1)); [done|].
    replace j with (j - 1 + 1) at 2 by lia. rewrite Z.pow_add_r by lia. by rewrite Z.div_mul.
Qed.

(** ** Streams: sequences of operations on one pipe *)

Inductive pipe_op :=
  | OpRead (size : Z)
  | OpWrite (bytes : list Z)
  | OpSetSize (wanted : Z) (unprivileged : bool) (block : option (list Z))
  | OpAttach (write_end : bool).

Definition op_ok (op : pipe_op) : Prop :=
  match op with
  | OpRead size => 0 <= size < 2 ^ 64
  | OpWrite bytes => Z.of_nat (length bytes) < 2 ^ 63
  | OpSetSize wanted _ block => 0 <= wanted < 2 ^ 64 /\ size_block_ok wanted block
  | OpAttach _ => True
  end.

(** The bytes an operation put in, the bytes it took out, and the pipe. *)
Definition exec (op : pipe_op) (p : pipe_buffer) : res (list Z * list Z * pipe_buffer) :=
  match op with
  | OpRead size => '(_, bytes, p', _) ← pipe_read_locked p size; Ret ([], bytes, p')
  | OpWrite bytes =>
      '(moved, p', _) ← pipe_write_locked p bytes;
      Ret (if 0 <=? moved then take (Z.to_nat moved) bytes else [], [], p')
  | OpSetSize wanted unprivileged block =>
      '(_, p') ← pipe_size_control p true wanted unprivileged block; Ret ([], [], p')
  | OpAttach write_end => Ret ([], [], (pipe_attach_end p write_end).1)
  end.

Fixpoint run (ops : list pipe_op) (p : pipe_buffer) : res (list Z * list Z * pipe_buffer) :=
  match ops with
  | [] => Ret ([], [], p)
  | op :: rest =>
      '(i1, o1, p1) ← exec op p;
      '(i2, o2, p2) ← run rest p1;
      Ret (i1 ++ i2, o1 ++ o2, p2)
  end.

Lemma exec_stream op p : pipe_inv p -> op_ok op ->
  returns (exec op p) (fun '(i, o, p') => pipe_inv p' /\ queue p ++ i = o ++ queue p').
Proof.
  intros Hp Hok. destruct op as [size|bytes|wanted un block|w]; cbn [exec op_ok] in *.
  - eapply returns_bind; [by apply read_post_ok|].
    intros [[[moved bytes] p'] wakes] (Hp' & _ & _ & _ & Hc). cbn. split; [done|].
    rewrite app_nil_r. destruct Hc as [(E & -> & -> & _)|(_ & _ & _ & -> & ->)]; [done|].
    by rewrite take_drop.
  - eapply returns_bind; [by apply write_post_ok|].
    intros [[moved p'] wakes] (Hp' & _ & _ & _ & Hc). cbn. split; [done|].
    destruct Hc as [(-> & -> & _)|(Hroom & _ & _ & Hm & ->)]; [by rewrite app_nil_r|].
    by rewrite (proj2 (Z.leb_le 0 moved)) by lia.
  - destruct Hok. eapply returns_bind; [by apply size_control_post_ok|].
    intros [r p'] (Hp' & Hq & _). cbn. split; [done|]. by rewrite app_nil_r.
  - cbn. split; [destruct Hp; by destruct w; split|]. rewrite app_nil_r. by destruct w.
Qed.

Lemma run_stream ops p : pipe_inv p -> Forall op_ok ops ->
  returns (run ops p) (fun '(i, o, p') => pipe_inv p' /\ queue p ++ i = o ++ queue p').
Proof.
  intros Hp Hops. revert p Hp. induction Hops as [|op ops Hop _ IH]; intros p Hp; cbn [run].
  { cbn. split; [done|]. by rewrite app_nil_r. }
  eapply returns_bind; [by apply exec_stream|]. intros [[i1 o1] p1] [Hp1 E1].
  eapply returns_bind; [by apply IH|]. intros [[i2 o2] p2] [Hp2 E2]. cbn. split; [done|].
  by rewrite app_assoc, E1, <- app_assoc, E2, app_assoc.
Qed.

Lemma fresh_pipe_inv d : Z.of_nat (length d) = PIPE_CAPACITY ->
  pipe_inv (pipe_buffer_init PIPE_CAPACITY (Some d)).2.
Proof.
  intros Hd. split; cbn; try done; try (unfold PIPE_CAPACITY in *; lia). exists 16. done.
Qed.

Lemma created_pipe_inv block p :
  (forall d, block = Some d -> Z.of_nat (length d) = PIPE_CAPACITY) ->
  pipe_create true block true true = Ret (0, Some p) -> pipe_inv p /\ queue p = [].
Proof.
  intros Hb E. destruct block as [d|]; cbn in E; [|done]. injection E as <-.
  destruct (fresh_pipe_inv d (Hb d eq_refl)). split; [|done]. by split.
Qed.

(** ** Properties *)

(** C15. Stream integrity: on a pipe from [pipe_create], after any sequence of
    reads, writes, capacity changes and new ends (each of which returns, without
    touching memory outside its buffers), the bytes read so far followed by the
    bytes still queued are exactly the bytes the writes accepted, in order. *)
Theorem pipe_stream_integrity block p ops :
  (forall d, block = Some d -> Z.of_nat (length d) = PIPE_CAPACITY) ->
  pipe_create true block true true = Ret (0, Some p) -> Forall op_ok ops ->
  returns (run ops p) (fun '(written, read, p') => written = read ++ queue p').
Proof.
  intros Hb E Hops. destruct (created_pipe_inv block p Hb E) as [Hp Hq].
  eapply returns_mono; [by apply run_stream|]. intros [[i o] p'] [_ H]. by rewrite Hq in H.
Qed.

Definition demo_ops : list pipe_op :=
  [OpWrite [1; 2; 3; 4; 5]; OpRead 2; OpSetSize 5000 true (Some (replicate 8192 7));
   OpWrite [6; 7]; OpRead 4].

Definition demo_block : list Z := replicate (Z.to_nat PIPE_CAPACITY) 0.
Definition demo_created : pipe_buffer := Pipe demo_block PIPE_CAPACITY 0 0 0 1 1 1 1 false.

Lemma pipe_stream_integrity_witness :
  pipe_create true (Some demo_block) true true = Ret (0, Some demo_created) /\
  returns (run demo_ops demo_created) (fun '(written, read, p') => written = read ++ queue p') /\
  returns (run demo_ops demo_created)
    (fun '(written, read, p') => read = [1; 2; 3; 4; 5; 6] /\ queue p' = [7]).
Proof.
  split; [reflexivity|]. split; [|vm_compute; split; reflexivity].
  apply (pipe_stream_integrity (Some demo_block)).
  - intros d [= <-]. vm_compute. reflexivity.
  - reflexivity.
  - repeat constructor; cbn; try lia. intros d [= <-]. vm_compute. reflexivity.
Defined.

(** C37. [pipe_write] appends to the queue as many bytes as fit and wakes the
    readers, or leaves the pipe alone and reports [EAGAIN]; a write of at most
    4096 bytes is atomic: it transfers all of its bytes or none. *)
Theorem pipe_write_correct p buffer :
  pipe_inv p -> Z.of_nat (length buffer) < 2 ^ 63 ->
  returns (pipe_write_locked p buffer) (write_post p buffer).
Proof. apply write_post_ok. Qed.

Definition demo_pipe : pipe_buffer := Pipe [5; 6; 7; 8; 1; 2; 3; 4] 8 6 1 3 1 1 1 1 false.

Lemma pipe_write_correct_witness :
  returns (pipe_write_locked demo_pipe [9; 10; 11]) (write_post demo_pipe [9; 10; 11]) /\
  returns (pipe_write_locked demo_pipe [9; 10; 11])
    (fun '(moved, p', _) => moved = 3 /\ queue p' = [3; 4; 5; 9; 10; 11]).
Proof.
  split; [|vm_compute; split; reflexivity].
  apply pipe_write_correct; [|vm_compute; reflexivity].
  split; try (vm_compute; split; congruence); try (vm_compute; reflexivity).
  exists 3. split; [lia|reflexivity].
Defined.

(** [pipe_read] on an empty pipe reports end of file when no writer is left
    and [EAGAIN] otherwise; on a non-empty pipe it returns a prefix of the queue
    of the requested length or the whole queue, removes it and wakes writers. *)
Theorem pipe_read_correct p size :
  pipe_inv p -> 0 <= size < 2 ^ 64 -> returns (pipe_read_locked p size) (read_post p size).
Proof. apply read_post_ok. Qed.

Lemma pipe_read_correct_witness :
  returns (pipe_read_locked demo_pipe 2) (read_post demo_pipe 2) /\
  returns (pipe_read_locked demo_pipe 2)
    (fun '(moved, bytes, p', _) => moved = 2 /\ bytes = [3; 4] /\ queue p' = [5]).
Proof.
  split; [|vm_compute; repeat split; reflexivity].
  apply pipe_read_correct; [|lia].
  split; try (vm_compute; split; congruence); try (vm_compute; reflexivity).
  exists 3. split; [lia|reflexivity].
Defined.

(** F_SETPIPE_SZ: the new capacity is the least power of two that is at
    least 4096 and the wanted size, never below what is queued; the queued bytes
    survive, and every refusal leaves the pipe unchanged. *)
Theorem pipe_size_control_correct p wanted unprivileged block :
  pipe_inv p -> 0 <= wanted < 2 ^ 64 -> size_block_ok wanted block ->
  returns (pipe_size_control p true wanted unprivileged block)
    (size_control_post p wanted unprivileged block).
Proof. apply size_control_post_ok. Qed.

Lemma pipe_size_control_correct_witness :
  let block := Some (replicate 8192 0) in
  returns (pipe_size_control demo_pipe true 5000 true block)
    (size_control_post demo_pipe 5000 true block) /\
  returns (pipe_size_control demo_pipe true 5000 true block)
    (fun '(r, p') => r = 8192 /\ queue p' = [3; 4; 5]).
Proof.
  split; [|vm_compute; split; reflexivity].
  apply pipe_size_control_correct; [|lia|intros d [= <-]; vm_compute; reflexivity].
  split; try (vm_compute; split; congruence); try (vm_compute; reflexivity).
  exists 3. split; [lia|reflexivity].
Defined.

(** When the allocation of a [struct file] fails, [pipe_create] writes through
    the NULL pointer in [file_create_pipe_end]. *)
Theorem pipe_create_oom_fault d write_ok :
  pipe_create true (Some d) false write_ok = Fault.
Proof. reflexivity. Qed.
