(* ===== verification/PosixLock.v ===== *)
(** * Record locks (kernel/fs/posix_lock.c and the fcntl front end of syscall.c)

    A node keeps the list of its locks; the waiters of all nodes form one list.
    Both change only under [posix_lock_mutex], so a step is the code between two
    acquisitions of it.  A waiter lives on the stack of its thread: its address
    is [waiter_id].  The specification is the relation [holds]: which owner
    holds which byte in which mode. *)

From stdpp Require Import relations.
From S2P Require Import Prelude.

Inductive lock_type := POSIX_LOCK_READ | POSIX_LOCK_WRITE | POSIX_LOCK_UNLOCK.

#[export] Instance lock_type_eq_dec : EqDecision lock_type.
Proof. solve_decision. Defined.

Definition POSIX_LOCK_END : Z := UINT64_MAX.
Definition DEADLOCK_SEARCH_DEPTH : nat := 10.

Record posix_lock := Lock {
  owner : Z;
  pid : Z;
  type : lock_type;
  start : Z;
  end_ : Z
}.

Record lock_waiter := Waiter {
  waiter_id : Z;
  waiter_owner : Z;
  waiter_blocker : Z
}.

Record posix_lock_request := Request {
  req_type : lock_type;
  req_start : Z;
  req_end : Z;
  req_owner : Z;
  req_pid : Z
}.

(** The locks of every node and the list of waiters. *)
Record lock_world := World {
  posix_locks : gmap Z (list posix_lock);
  waiters : list lock_waiter
}.

Definition locks_of (w : lock_world) (node : Z) : list posix_lock :=
  default [] (posix_locks w !! node).
Definition set_locks (w : lock_world) (node : Z) (l : list posix_lock) : lock_world :=
  World (<[node := l]> (posix_locks w)) (waiters w).

(** ** The operations *)

Definition overlaps (s e : Z) (lock : posix_lock) : bool :=
  (s <=? end_ lock) && (start lock <=? e).

Definition touches (s e : Z) (lock : posix_lock) : bool :=
  let before := negb (end_ lock =? POSIX_LOCK_END) && (u64 (end_ lock + 1) <? s) in
  let after := negb (e =? POSIX_LOCK_END) && (u64 (e + 1) <? start lock) in
  negb before && negb after.

Fixpoint find_conflict (locks : list posix_lock) (request : posix_lock_request)
  : option posix_lock :=
  match locks with
  | [] => None
  | lock :: next =>
      if owner lock =? req_owner request then find_conflict next request
      else if negb (overlaps (req_start request) (req_end request) lock)
      then find_conflict next request
      else if bool_decide (type lock = POSIX_LOCK_WRITE)
              || bool_decide (req_type request = POSIX_LOCK_WRITE) then Some lock
      else find_conflict next request
  end.

(** [while (waiter && waiter->owner != blocker) waiter = waiter->next;] *)
Fixpoint find_waiter (ws : list lock_waiter) (blocker : Z) : option lock_waiter :=
  match ws with
  | [] => None
  | waiter :: next => if waiter_owner waiter =? blocker then Some waiter else find_waiter next blocker
  end.

Fixpoint deadlock_search (depth : nat) (ws : list lock_waiter) (own blocker : Z) : bool :=
  match depth with
  | O => false
  | S depth =>
      if blocker =? own then true else
      match find_waiter ws blocker with
      | None => false
      | Some waiter => deadlock_search depth ws own (waiter_blocker waiter)
      end
  end.

Definition would_deadlock (ws : list lock_waiter) (own blocker : Z) : bool :=
  deadlock_search DEADLOCK_SEARCH_DEPTH ws own blocker.

Fixpoint forget_waiter (id : Z) (ws : list lock_waiter) : list lock_waiter :=
  match ws with
  | [] => []
  | waiter :: next => if waiter_id waiter =? id then next else waiter :: forget_waiter id next
  end.

Definition posix_lock_test (w : lock_world) (node : Z) (request : posix_lock_request)
  : posix_lock_request :=
  match find_conflict (locks_of w node) request with
  | Some conflict =>
      Request (type conflict) (start conflict) (end_ conflict) (req_owner request) (pid conflict)
  | None =>
      Request POSIX_LOCK_UNLOCK (req_start request) (req_end request) (req_owner request)
        (req_pid request)
  end.

(** [spare] tells which of the two preallocated records is still there. *)
Fixpoint take_spare (spare : list bool) : option (list bool) :=
  match spare with
  | [] => None
  | true :: rest => Some (false :: rest)
  | false :: rest => cons false <$> take_spare rest
  end.

(** The loop of [apply]: what is left of the list, and the merged range. *)
Fixpoint apply_loop (request : posix_lock_request) (locks : list posix_lock) (s e : Z)
  (spare : list bool) : res (list posix_lock * Z * Z * list bool) :=
  match locks with
  | [] => Ret ([], s, e, spare)
  | lock :: next =>
      if negb (owner lock =? req_owner request) then
        '(l, s', e', spare') ← apply_loop request next s e spare;
        Ret (lock :: l, s', e', spare')
      else if negb (bool_decide (req_type request = POSIX_LOCK_UNLOCK))
              && bool_decide (type lock = req_type request) && touches s e lock then
        apply_loop request next (if start lock <? s then start lock else s)
          (if e <? end_ lock then end_ lock else e) spare
      else if negb (overlaps (req_start request) (req_end request) lock) then
        '(l, s', e', spare') ← apply_loop request next s e spare;
        Ret (lock :: l, s', e', spare')
      else if (start lock <? req_start request) && (req_end request <? end_ lock) then
        match take_spare spare with
        | None => Fault
        | Some spare1 =>
            let tail := Lock (owner lock) (pid lock) (type lock) (u64 (req_end request + 1)) (end_ lock) in
            let head := Lock (owner lock) (pid lock) (type lock) (start lock) (u64 (req_start request - 1)) in
            '(l, s', e', spare') ← apply_loop request next s e spare1;
            Ret (head :: tail :: l, s', e', spare')
        end
      else if start lock <? req_start request then
        let lock := Lock (owner lock) (pid lock) (type lock) (start lock) (u64 (req_start request - 1)) in
        '(l, s', e', spare') ← apply_loop request next s e spare;
        Ret (lock :: l, s', e', spare')
      else if req_end request <? end_ lock then
        let lock := Lock (owner lock) (pid lock) (type lock) (u64 (req_end request + 1)) (end_ lock) in
        '(l, s', e', spare') ← apply_loop request next s e spare;
        Ret (lock :: l, s', e', spare')
      else apply_loop request next s e spare
  end.

Definition apply (locks : list posix_lock) (request : posix_lock_request) (spare : list bool)
  : res (list posix_lock) :=
  '(l, s, e, spare) ← apply_loop request locks (req_start request) (req_end request) spare;
  if bool_decide (req_type request = POSIX_LOCK_UNLOCK) then Ret l else
  match take_spare spare with
  | None => Fault
  | Some _ => Ret (Lock (req_owner request) (req_pid request) (req_type request) s e :: l)
  end.

(** One pass of the waiting loop under the mutex: it ends with a status, or
    with the waiter queued and the thread about to sleep. *)
Inductive section :=
  | Finished (status : Z) (w : lock_world)
  | Asleep (w : lock_world).

Definition set_section (node : Z) (request : posix_lock_request) (wait : bool) (id : Z)
  (w : lock_world) : section :=
  if bool_decide (req_type request = POSIX_LOCK_UNLOCK) then Finished 0 w else
  match find_conflict (locks_of w node) request with
  | None => Finished 0 w
  | Some blocker =>
      if negb wait then Finished (- EAGAIN) w
      else if (Z.land (req_owner request) 1 =? 0)
              && would_deadlock (waiters w) (req_owner request) (owner blocker)
      then Finished (- EDEADLK) w
      else Asleep (World (posix_locks w) (Waiter id (req_owner request) (owner blocker) :: waiters w))
  end.

Definition leave_wait (id : Z) (w : lock_world) : lock_world :=
  World (posix_locks w) (forget_waiter id (waiters w)).

(** What happens around one sleep: the status of the preparation, the world
    when the mutex is taken again, and whether a signal ended the sleep. *)
Record lock_round := LockRound {
  prepare_status : Z;
  world_after : lock_world;
  interrupted : bool
}.

(** [None]: the thread still sleeps when the rounds are used up. *)
Fixpoint set_loop (node : Z) (request : posix_lock_request) (wait : bool) (id : Z)
  (rounds : list lock_round) (w : lock_world) : option (Z * lock_world) :=
  match set_section node request wait id w with
  | Finished status w' => Some (status, w')
  | Asleep w' =>
      match rounds with
      | [] => None
      | r :: rest =>
          if negb (prepare_status r =? 0) then Some (prepare_status r, leave_wait id w')
          else if interrupted r then Some (- EINTR, leave_wait id (world_after r))
          else set_loop node request wait id rest (leave_wait id (world_after r))
      end
  end.

(** The end of [posix_lock_set]; the result also says whether waiters of the
    node were woken. *)
Definition set_finish (node : Z) (request : posix_lock_request) (status : Z) (w : lock_world)
  : res (Z * lock_world * bool) :=
  if status =? 0 then
    l ← apply (locks_of w node) request [true; true];
    Ret (status, set_locks w node l, true)
  else Ret (status, w, false).

Definition posix_lock_set (node : Z) (request : posix_lock_request) (wait : bool) (id : Z)
  (spare0 spare1 : bool) (rounds : list lock_round) (w : lock_world)
  : res (option (Z * lock_world * bool)) :=
  if negb spare0 || negb spare1 then Ret (Some (- ENOLCK, w, false)) else
  match set_loop node request wait id rounds w with
  | None => Ret None
  | Some (status, w') => r ← set_finish node request status w'; Ret (Some r)
  end.

(** [released] tells whether a lock was removed. *)
Fixpoint release_loop (own : Z) (locks : list posix_lock) (released : bool)
  : list posix_lock * bool :=
  match locks with
  | [] => ([], released)
  | lock :: next =>
      if negb (owner lock =? own) then
        let '(l, r) := release_loop own next released in (lock :: l, r)
      else release_loop own next true
  end.

Definition posix_lock_release_owner (node own : Z) (w : lock_world) : lock_world * bool :=
  match locks_of w node with
  | [] => (w, false)
  | locks =>
      let '(l, released) := release_loop own locks false in
      (set_locks w node l, released)
  end.

(** ** The fcntl front end (kernel/core/syscall.c) *)

Definition F_RDLCK : Z := 0.
Definition F_WRLCK : Z := 1.
Definition F_UNLCK : Z := 2.
Definition SEEK_SET : Z := 0.
Definition SEEK_CUR : Z := 1.
Definition SEEK_END : Z := 2.
Definition O_ACCMODE : Z := 3.
Definition O_RDONLY : Z := 0.
Definition O_WRONLY : Z := 1.

Inductive lock_command :=
  | F_GETLK | F_SETLK | F_SETLKW | F_OFD_GETLK | F_OFD_SETLK | F_OFD_SETLKW.

Record linux_flock := Flock {
  l_type : Z;
  l_whence : Z;
  l_start : Z;
  l_length : Z;
  l_pid : Z
}.

(** What the front end reads of an open file; [file_address] stands for its
    address, [file_node] for its node when the file is of kind VFS. *)
Record lock_file := LockFile {
  file_address : Z;
  file_node : option Z;
  file_offset : Z;
  node_length : Z;
  file_flags : Z
}.

Definition add_overflow (a b : Z) : option Z :=
  if decide (- 2 ^ 63 <= a + b < 2 ^ 63) then Some (a + b) else None.

Definition lock_range (file : lock_file) (lock : linux_flock) : Z + (Z * Z) :=
  match (if l_whence lock =? SEEK_SET then Some 0
         else if l_whence lock =? SEEK_CUR then Some (i64 (file_offset file))
         else if l_whence lock =? SEEK_END then Some (i64 (node_length file))
         else None) with
  | None => inl (- EINVAL)
  | Some base =>
      match add_overflow base (l_start lock) with
      | None => inl (- EOVERFLOW)
      | Some st =>
          if 0 <? l_length lock then
            match add_overflow st (l_length lock - 1) with
            | None => inl (- EOVERFLOW)
            | Some last => if st <? 0 then inl (- EINVAL) else inr (u64 st, u64 last)
            end
          else if l_length lock <? 0 then
            match add_overflow st (l_length lock) with
            | None => inl (- EINVAL)
            | Some first =>
                if first <? 0 then inl (- EINVAL) else inr (u64 first, u64 (u64 st - 1))
            end
          else if st <? 0 then inl (- EINVAL) else inr (u64 st, POSIX_LOCK_END)
      end
  end.

Definition file_lock_owner (file : lock_file) : Z := Z.lor (file_address file) 1.

Definition is_ofd (command : lock_command) : bool :=
  match command with
  | F_OFD_GETLK | F_OFD_SETLK | F_OFD_SETLKW => true
  | _ => false
  end.
Definition is_get (command : lock_command) : bool :=
  match command with
  | F_GETLK | F_OFD_GETLK => true
  | _ => false
  end.
Definition is_wait (command : lock_command) : bool :=
  match command with
  | F_SETLKW | F_OFD_SETLKW => true
  | _ => false
  end.

(** The request of a call, or its error. *)
Definition lock_request (file : lock_file) (files tgid : Z) (command : lock_command)
  (lock : linux_flock) : Z + posix_lock_request :=
  let ofd := is_ofd command in
  if ofd && negb (l_pid lock =? 0) then inl (- EINVAL) else
  if negb (l_type lock =? F_RDLCK) && negb (l_type lock =? F_WRLCK) && negb (l_type lock =? F_UNLCK)
  then inl (- EINVAL) else
  let ty := if l_type lock =? F_RDLCK then POSIX_LOCK_READ
            else if l_type lock =? F_WRLCK then POSIX_LOCK_WRITE else POSIX_LOCK_UNLOCK in
  match lock_range file lock with
  | inl status => inl status
  | inr (s, e) =>
      inr (Request ty s e (if ofd then file_lock_owner file else files)
             (if ofd then -1 else i32 tgid))
  end.

(** The [struct flock] F_GETLK hands back. *)
Definition flock_of_test (lock : linux_flock) (answer : posix_lock_request) : linux_flock :=
  match req_type answer with
  | POSIX_LOCK_UNLOCK => Flock F_UNLCK (l_whence lock) (l_start lock) (l_length lock) (l_pid lock)
  | ty =>
      Flock (match ty with POSIX_LOCK_READ => F_RDLCK | _ => F_WRLCK end) SEEK_SET
        (i64 (req_start answer))
        (if req_end answer =? POSIX_LOCK_END then 0
         else i64 (u64 (u64 (req_end answer - req_start answer) + 1)))
        (req_pid answer)
  end.

(** [sys_fcntl_lock]: [lock] is what [copy_from_user] read ([None] when it
    failed), [writable] whether [copy_to_user] succeeds.  The result is the
    status, what was written back and the world; [None] while it sleeps. *)
Definition sys_fcntl_lock (file : option lock_file) (files tgid : Z) (command : lock_command)
  (lock : option linux_flock) (writable : bool) (id : Z) (spare0 spare1 : bool)
  (rounds : list lock_round) (w : lock_world)
  : res (option (Z * option linux_flock * lock_world)) :=
  match file with
  | None => Ret (Some (- EBADF, None, w))
  | Some file =>
  match file_node file with
  | None => Ret (Some (- EINVAL, None, w))
  | Some node =>
  match lock with
  | None => Ret (Some (- EFAULT, None, w))
  | Some lock =>
  match lock_request file files tgid command lock with
  | inl status => Ret (Some (status, None, w))
  | inr request =>
      if is_get command then
        if bool_decide (req_type request = POSIX_LOCK_UNLOCK) then Ret (Some (- EINVAL, None, w))
        else if writable then
          Ret (Some (0, Some (flock_of_test lock (posix_lock_test w node request)), w))
        else Ret (Some (- EFAULT, None, w))
      else
        let access := Z.land (file_flags file) O_ACCMODE in
        if bool_decide (req_type request = POSIX_LOCK_READ) && (access =? O_WRONLY)
        then Ret (Some (- EBADF, None, w))
        else if bool_decide (req_type request = POSIX_LOCK_WRITE) && (access =? O_RDONLY)
        then Ret (Some (- EBADF, None, w))
        else
          out ← posix_lock_set node request (is_wait command) id spare0 spare1 rounds w;
          match out with
          | None => Ret None
          | Some (status, w', _) =>
              Ret (Some (if status =? - EINTR then - ERESTARTSYS else status, None, w'))
          end
  end end end end.

(** ** Specification *)

(** [own] holds byte [b] in mode [t]. *)
Definition holds (locks : list posix_lock) (own b : Z) (t : lock_type) : Prop :=
  exists lock, lock ∈ locks /\ owner lock = own /\ type lock = t /\ start lock <= b <= end_ lock.

Definition lock_ok (l : posix_lock) : Prop :=
  0 <= start l <= end_ l /\ end_ l <= POSIX_LOCK_END /\ type l <> POSIX_LOCK_UNLOCK.

(** Two locks of one owner do not overlap, nor touch in the same mode. *)
Definition separate (l m : posix_lock) : Prop :=
  owner l = owner m ->
  (end_ l < start m \/ end_ m < start l) /\
  (type l = type m -> end_ l + 1 < start m \/ end_ m + 1 < start l).

Record locks_inv (locks : list posix_lock) : Prop := {
  inv_ok : Forall lock_ok locks;
  inv_separate : ForallOrdPairs separate locks
}.

(** Nobody else holds a byte that is held for writing. *)
Definition exclusive (locks : list posix_lock) : Prop :=
  forall o1 o2 b t1 t2, holds locks o1 b t1 -> holds locks o2 b t2 -> o1 <> o2 ->
  t1 = POSIX_LOCK_READ /\ t2 = POSIX_LOCK_READ.

Definition request_ok (r : posix_lock_request) : Prop :=
  0 <= req_start r <= req_end r /\ req_end r <= POSIX_LOCK_END.

(** What a granted request makes of the held bytes. *)
Definition granted (locks : list posix_lock) (r : posix_lock_request) (locks' : list posix_lock) : Prop :=
  forall own b t, holds locks' own b t <->
    if decide (own = req_owner r /\ req_start r <= b <= req_end r)
    then t = req_type r /\ t <> POSIX_LOCK_UNLOCK
    else holds locks own b t.

(** ** Lemmas: the list after [apply] *)

Lemma separate_sym l m : separate l m -> separate m l.
Proof. intros H E. destruct (H (eq_sym E)) as [H1 H2]. split; [lia|]. intros. destruct H2; auto. Qed.

Lemma holds_functional locks own b t1 t2 :
  locks_inv locks -> holds locks own b t1 -> holds locks own b t2 -> t1 = t2.
Proof.
  intros [_ Hs] (l & Hl & Ho & Ht & Hb) (m & Hm & Ho' & Ht' & Hb').
  destruct (ForallOrdPairs_In Hs l m) as [E|[E|E]]; try by apply list_elem_of_In.
  - by subst.
  - destruct E as [[] _]; [by subst|lia..].
  - destruct E as [[] _]; [by subst|lia..].
Qed.

Lemma touches_spec s e l : 0 <= start l <= end_ l -> end_ l <= POSIX_LOCK_END ->
  0 <= s <= e -> e <= POSIX_LOCK_END ->
  touches s e l = true <-> s <= end_ l + 1 /\ start l <= e + 1.
Proof.
  unfold POSIX_LOCK_END, UINT64_MAX, touches. intros H1 H2 H3 H4.
  assert (forall x, 0 <= x <= 2 ^ 64 - 1 -> negb (x =? 2 ^ 64 - 1) = true -> u64 (x + 1) = x + 1) as Hu.
  { intros x Hx Hn. apply u64_small. lia. }
  unfold POSIX_LOCK_END, UINT64_MAX.
  destruct (negb (end_ l =? 2 ^ 64 - 1)) eqn:E1, (negb (e =? 2 ^ 64 - 1)) eqn:E2; cbn [andb];
    rewrite ?(Hu (end_ l)), ?(Hu e) by (done || lia); lia.
Qed.

(** The declarative reading of the loop: which locks are merged into the
    request, and what is left of the others. *)
Definition absorbed (r : posix_lock_request) (l : posix_lock) : bool :=
  (owner l =? req_owner r) && negb (bool_decide (req_type r = POSIX_LOCK_UNLOCK))
  && bool_decide (type l = req_type r) && touches (req_start r) (req_end r) l.

Definition cut (l : posix_lock) (s e : Z) : posix_lock := Lock (owner l) (pid l) (type l) s e.

Definition pieces (r : posix_lock_request) (l : posix_lock) : list posix_lock :=
  if negb (owner l =? req_owner r) then [l] else
  if absorbed r l then [] else
  if negb (overlaps (req_start r) (req_end r) l) then [l] else
  (if start l <? req_start r then [cut l (start l) (req_start r - 1)] else []) ++
  (if req_end r <? end_ l then [cut l (req_end r + 1) (end_ l)] else []).

Definition splits (r : posix_lock_request) (l : posix_lock) : bool :=
  (owner l =? req_owner r) && negb (absorbed r l) && (start l <? req_start r) && (req_end r <? end_ l).

Definition spares (spare : list bool) : nat := length (filter (fun b => b = true) spare).

Lemma take_spare_some spare n : spares spare = S n ->
  exists spare', take_spare spare = Some spare' /\ spares spare' = n.
Proof.
  unfold spares. induction spare as [|[] spare IH]; [done| |]; cbn.
  - intros [= <-]. eauto.
  - intros H. destruct (IH H) as (sp & -> & E). exists (false :: sp). by split.
Qed.

(** [s] is the start of the request or of a merged lock apart from [ls]. *)
Definition low_from (r : posix_lock_request) (ls : list posix_lock) (s : Z) : Prop :=
  s = req_start r \/
  (s < req_start r /\ exists l, absorbed r l = true /\ lock_ok l /\ start l = s /\ Forall (separate l) ls).
Definition high_from (r : posix_lock_request) (ls : list posix_lock) (e : Z) : Prop :=
  e = req_end r \/
  (req_end r < e /\ exists l, absorbed r l = true /\ lock_ok l /\ end_ l = e /\ Forall (separate l) ls).

Lemma absorbed_spec r l : request_ok r -> lock_ok l ->
  absorbed r l = true <->
  owner l = req_owner r /\ req_type r <> POSIX_LOCK_UNLOCK /\ type l = req_type r /\
  req_start r <= end_ l + 1 /\ start l <= req_end r + 1.
Proof.
  intros [? ?] (? & ? & ?). unfold absorbed.
  rewrite !andb_true_iff, Z.eqb_eq, negb_true_iff, bool_decide_eq_false, bool_decide_eq_true, touches_spec by lia.
  tauto.
Qed.

(** Growing the range by merged locks does not change which locks touch it. *)
Lemma touches_grown r l ls s e : request_ok r -> lock_ok l ->
  low_from r (l :: ls) s -> high_from r (l :: ls) e ->
  owner l = req_owner r -> type l = req_type r ->
  touches s e l = touches (req_start r) (req_end r) l.
Proof.
  intros [Hr1 Hr2] (Hl1 & Hl2 & Hl3) Hs He Ho Ht.
  assert (0 <= s <= req_start r /\ req_end r <= e <= POSIX_LOCK_END) as Hb.
  { destruct Hs as [->|(? & m & _ & (? & ? & _) & <- & _)], He as [->|(? & m' & _ & (? & ? & _) & <- & _)]; lia. }
  apply eq_true_iff_eq. rewrite !touches_spec by lia. split; [|lia]. intros [H1 H2]. split.
  - destruct Hs as [->|(? & m & Hab & Hm & <- & Hsep)]; [lia|].
    apply absorbed_spec in Hab as (Ho' & _ & Ht' & ? & ?); [|done..].
    apply Forall_cons_1 in Hsep as [Hsep _]. destruct Hsep as [_ Hsep]; [congruence|].
    specialize (Hsep ltac:(congruence)). lia.
  - destruct He as [->|(? & m & Hab & Hm & <- & Hsep)]; [lia|].
    apply absorbed_spec in Hab as (Ho' & _ & Ht' & ? & ?); [|done..].
    apply Forall_cons_1 in Hsep as [Hsep _]. destruct Hsep as [_ Hsep]; [congruence|].
    specialize (Hsep ltac:(congruence)). lia.
Qed.

Definition nsplits (r : posix_lock_request) (ls : list posix_lock) : nat :=
  length (List.filter (splits r) ls).

(** The result of the loop: the merged range is the hull of the request and the
    merged locks. *)
Record loop_post (r : posix_lock_request) (ls : list posix_lock) (s e s' e' : Z) : Prop := {
  post_low : s' = s \/ (s' < s /\ exists l, l ∈ ls /\ absorbed r l = true /\ start l = s');
  post_high : e' = e \/ (e < e' /\ exists l, l ∈ ls /\ absorbed r l = true /\ end_ l = e');
  post_hull : forall l, l ∈ ls -> absorbed r l = true -> s' <= start l /\ end_ l <= e'
}.

Lemma loop_post_skip r l ls s e s' e' :
  absorbed r l = false -> loop_post r ls s e s' e' -> loop_post r (l :: ls) s e s' e'.
Proof.
  intros Ha [H1 H2 H3]. split.
  - destruct H1 as [|(? & m & ? & ?)]; [by left|right]. split; [done|]. exists m. split; [by right|done].
  - destruct H2 as [|(? & m & ? & ?)]; [by left|right]. split; [done|]. exists m. split; [by right|done].
  - intros m Hm Hab. apply elem_of_cons in Hm as [->|Hm]; [congruence|auto].
Qed.

Lemma loop_post_merge r l ls s e s' e' :
  absorbed r l = true ->
  loop_post r ls (if start l <? s then start l else s) (if e <? end_ l then end_ l else e) s' e' ->
  loop_post r (l :: ls) s e s' e'.
Proof.
  intros Ha [H1 H2 H3]. split.
  - revert H1. case_cmp; intros [->|(? & m & ? & ?)]; [..|by left|].
    all: right; split; [lia|]; eexists; split; [|done]; (by left) || by right.
  - revert H2. case_cmp; intros [->|(? & m & ? & ?)]; [..|by left|].
    all: right; split; [lia|]; eexists; split; [|done]; (by left) || by right.
  - intros m Hm Hab. apply elem_of_cons in Hm as [->|Hm]; [|auto].
    assert (s' <= start l).
    { revert H1. case_cmp; intros [->|[? _]]; lia. }
    revert H2. case_cmp; intros [->|[? _]]; lia.
Qed.

Lemma low_from_tail r l ls s : low_from r (l :: ls) s -> low_from r ls s.
Proof.
  intros [|(? & m & Hab & Hm & Hst & Hsep)]; [by left|right]. split; [done|].
  exists m. apply Forall_cons_1 in Hsep as [_ Hsep]. done.
Qed.
Lemma high_from_tail r l ls e : high_from r (l :: ls) e -> high_from r ls e.
Proof.
  intros [|(? & m & Hab & Hm & Hst & Hsep)]; [by left|right]. split; [done|].
  exists m. apply Forall_cons_1 in Hsep as [_ Hsep]. done.
Qed.

Lemma locks_inv_cons l ls :
  locks_inv (l :: ls) <-> lock_ok l /\ Forall (separate l) ls /\ locks_inv ls.
Proof.
  split.
  - intros [Ho Hs]. apply Forall_cons_1 in Ho as [??]. inversion Hs; subst. done.
  - intros (? & ? & [??]). split; by constructor.
Qed.

Lemma low_from_merge r l ls s : absorbed r l = true -> lock_ok l -> Forall (separate l) ls ->
  low_from r ls s -> low_from r ls (if start l <? s then start l else s).
Proof.
  intros Ha Hl Hsep Hs. case_cmp; [|done].
  right. split; [destruct Hs as [->|[? _]]; lia|]. by exists l.
Qed.
Lemma high_from_merge r l ls e : absorbed r l = true -> lock_ok l -> Forall (separate l) ls ->
  high_from r ls e -> high_from r ls (if e <? end_ l then end_ l else e).
Proof.
  intros Ha Hl Hsep Hs. case_cmp; [|done].
  right. split; [destruct Hs as [->|[? _]]; lia|]. by exists l.
Qed.

(** One round of the loop in terms of [absorbed], [splits] and [pieces]. *)
Lemma apply_round r l ls s e spare : request_ok r -> lock_ok l ->
  low_from r (l :: ls) s -> high_from r (l :: ls) e ->
  apply_loop r (l :: ls) s e spare =
  if absorbed r l then
    apply_loop r ls (if start l <? s then start l else s) (if e <? end_ l then end_ l else e) spare
  else
    match (if splits r l then take_spare spare else Some spare) with
    | None => Fault
    | Some spare =>
        '(l', s', e', spare') ← apply_loop r ls s e spare;
        Ret (pieces r l ++ l', s', e', spare')
    end.
Proof.
  intros Hr Hl Hlow Hhigh. pose proof (touches_grown r l ls s e Hr Hl Hlow Hhigh) as Htg.
  destruct Hr as [Hr1 Hr2], Hl as (Hl1 & Hl2 & Hl3). unfold POSIX_LOCK_END, UINT64_MAX in *.
  cbn [apply_loop]. unfold pieces, splits, absorbed, overlaps.
  destruct (Z.eqb_spec (owner l) (req_owner r)) as [Ho|Ho]; cbn [negb andb]; [|done].
  destruct (bool_decide (req_type r = POSIX_LOCK_UNLOCK)) eqn:Eu; cbn [negb andb].
  2: destruct (bool_decide (type l = req_type r)) eqn:Et; cbn [andb].
  2: apply bool_decide_eq_true in Et; rewrite Htg by done.
  2: destruct (touches (req_start r) (req_end r) l); cbn [negb andb]; [reflexivity|].
  all: destruct (Z.leb_spec (req_start r) (end_ l)), (Z.leb_spec (start l) (req_end r)),
    (Z.ltb_spec (start l) (req_start r)), (Z.ltb_spec (req_end r) (end_ l)); cbn [negb andb app];
    try lia; try done; unfold cut; rewrite ?(u64_small (req_end r + 1)), ?(u64_small (req_start r - 1)) by lia;
    try done.
  all: try (destruct (take_spare spare); [|done]).
  all: by destruct (apply_loop _ _ _ _ _) as [[[[? ?] ?] ?]| |].
Qed.

(** The loop is [pieces], and takes one spare for every split. *)
Lemma apply_loop_ok r ls s e spare : request_ok r -> locks_inv ls ->
  low_from r ls s -> high_from r ls e -> (nsplits r ls <= spares spare)%nat ->
  exists s' e' spare', apply_loop r ls s e spare = Ret (ls ≫= pieces r, s', e', spare') /\
    spares spare = (spares spare' + nsplits r ls)%nat /\ loop_post r ls s e s' e'.
Proof.
  intros Hr. revert s e spare. induction ls as [|l ls IH]; intros s e spare Hinv Hlow Hhigh Hsp.
  { exists s, e, spare. split; [done|]. split; [cbn; lia|].
    split; [by left|by left|]. intros l Hl. by apply elem_of_nil in Hl. }
  apply locks_inv_cons in Hinv as (Hl & Hsep & Hinv). rewrite apply_round, bind_cons by done.
  apply low_from_tail in Hlow. apply high_from_tail in Hhigh.
  unfold nsplits in *. cbn [List.filter] in *. destruct (absorbed r l) eqn:Ea.
  - assert (splits r l = false) as Es by (unfold splits; rewrite Ea; by destruct (_ =? _)).
    rewrite Es in *. destruct (IH (if start l <? s then start l else s)
      (if e <? end_ l then end_ l else e) spare) as (s' & e' & sp' & -> & Hc & Hp);
      [done|by apply low_from_merge|by apply high_from_merge|done|].
    exists s', e', sp'. split; [|split; [done|by apply loop_post_merge]].
    unfold pieces at 2. rewrite Ea. unfold absorbed in Ea. by destruct (_ =? _).
  - destruct (splits r l); cbn [length] in *.
    + destruct (take_spare_some spare (spares spare - 1)) as (sp1 & -> & E1); [lia|].
      destruct (IH s e sp1) as (s' & e' & sp' & -> & Hc & Hp); [done..|lia|].
      exists s', e', sp'. split; [done|]. split; [lia|by apply loop_post_skip].
    + destruct (IH s e spare) as (s' & e' & sp' & -> & Hc & Hp); [done..|].
      exists s', e', sp'. split; [done|]. split; [lia|by apply loop_post_skip].
Qed.

(** The owner's locks are disjoint, so at most one of them is split. *)
Lemma nsplits_one r ls : request_ok r -> locks_inv ls -> (nsplits r ls <= 1)%nat.
Proof.
  intros Hr. induction ls as [|l ls IH]; intros Hinv; [cbn; lia|].
  apply locks_inv_cons in Hinv as (Hl & Hsep & Hinv). unfold nsplits in *. cbn [List.filter].
  destruct (splits r l) eqn:Es; [|auto]. cbn [length].
  assert (List.filter (splits r) ls = []) as ->; [|done].
  clear IH Hinv. induction Hsep as [|m ls Hm _ IH]; [done|]. cbn [List.filter].
  destruct (splits r m) eqn:Em; [|done]. unfold splits in *. destruct Hm as [Hm _]; [lia|].
  destruct Hr. lia.
Qed.

Lemma pieces_in r l m : request_ok r -> lock_ok l -> m ∈ pieces r l ->
  owner m = owner l /\ type m = type l /\ lock_ok m /\ start l <= start m /\ end_ m <= end_ l /\
  (owner l = req_owner r -> absorbed r l = false /\ (end_ m < req_start r \/ req_end r < start m)).
Proof.
  intros [Hr1 Hr2] (Hl1 & Hl2 & Hl3) Hm. unfold pieces, overlaps in Hm.
  destruct (Z.eqb_spec (owner l) (req_owner r)) as [Ho|Ho]; cbn [negb] in Hm.
  2:{ apply list_elem_of_singleton in Hm as ->. by split_and!. }
  destruct (absorbed r l) eqn:Ea; [by apply elem_of_nil in Hm|].
  destruct (negb _) eqn:En.
  { apply list_elem_of_singleton in Hm as ->. split_and!; try done; try lia. }
  apply elem_of_app in Hm as [Hm|Hm]; revert Hm; case_cmp; intros Hm;
    try (by apply elem_of_nil in Hm); apply list_elem_of_singleton in Hm as ->; unfold lock_ok; cbn;
    split_and!; try done; try lia; intros _; split; (done || lia).
Qed.

Lemma pieces_cover r l b : request_ok r -> lock_ok l -> start l <= b <= end_ l ->
  (exists m, m ∈ pieces r l /\ start m <= b <= end_ m) \/
  (owner l = req_owner r /\ (absorbed r l = true \/ req_start r <= b <= req_end r)).
Proof.
  intros [Hr1 Hr2] (Hl1 & Hl2 & Hl3) Hb. unfold pieces, overlaps.
  destruct (Z.eqb_spec (owner l) (req_owner r)) as [Ho|Ho]; cbn [negb].
  2:{ left. exists l. split; [by apply list_elem_of_singleton|done]. }
  destruct (absorbed r l); [auto|]. destruct (negb _) eqn:En.
  { left. exists l. split; [by apply list_elem_of_singleton|done]. }
  destruct (decide (req_start r <= b <= req_end r)); [auto|left].
  destruct (decide (b < req_start r)).
  - exists (cut l (start l) (req_start r - 1)). split; [|cbn; lia].
    apply elem_of_app. left. rewrite (proj2 (Z.ltb_lt _ _)) by lia. by apply list_elem_of_singleton.
  - exists (cut l (req_end r + 1) (end_ l)). split; [|cbn; lia].
    apply elem_of_app. right. rewrite (proj2 (Z.ltb_lt _ _)) by lia. by apply list_elem_of_singleton.
Qed.

Lemma pieces_separate r l : request_ok r -> ForallOrdPairs separate (pieces r l).
Proof.
  intros [Hr1 Hr2]. unfold pieces.
  destruct (negb _); [by repeat constructor|]. destruct (absorbed _ _); [constructor|].
  destruct (negb _); [by repeat constructor|].
  repeat case_cmp; cbn [app]; repeat constructor; cbn; lia.
Qed.

Lemma pieces_inv r ls : request_ok r -> locks_inv ls -> locks_inv (ls ≫= pieces r).
Proof.
  intros Hr. induction ls as [|l ls IH]; intros Hinv; [done|].
  apply locks_inv_cons in Hinv as (Hl & Hsep & Hinv). rewrite bind_cons.
  destruct (IH Hinv) as [IH1 IH2]. destruct Hinv as [Hok _]. split.
  - apply Forall_app. split; [|done]. apply Forall_forall. intros m Hm%list_elem_of_In.
    by apply (pieces_in r l).
  - apply ordpairs_app; [by apply pieces_separate|done|]. intros x y Hx Hy.
    apply list_elem_of_bind in Hy as (m & Hy & Hm%list_elem_of_In).
    rewrite List.Forall_forall in Hsep, Hok.
    apply pieces_in in Hx as (Eo & Et & _ & ? & ? & _); [|done..].
    apply pieces_in in Hy as (Eo' & Et' & _ & ? & ? & _); [|by auto..].
    intros E. destruct (Hsep m Hm) as [Hs1 Hs2]; [congruence|]. split; [lia|].
    intros E'. destruct Hs2; [congruence|lia..].
Qed.

(** Bytes of the trimmed list: everything but the request's range and what was
    merged. *)
Lemma pieces_holds r ls own b t : request_ok r -> locks_inv ls ->
  holds (ls ≫= pieces r) own b t <->
  exists l, l ∈ ls /\ owner l = own /\ type l = t /\ start l <= b <= end_ l /\
    (own = req_owner r -> absorbed r l = false /\ ~ (req_start r <= b <= req_end r)).
Proof.
  intros Hr [Hok _]. rewrite List.Forall_forall in Hok. split.
  - intros (m & Hm & Ho & Ht & Hb). apply list_elem_of_bind in Hm as (l & Hm & Hl).
    apply pieces_in in Hm as (? & ? & ? & ? & ? & Hown); [|done|apply Hok; by apply list_elem_of_In].
    exists l. split_and!; try done; try lia; try congruence. intros E.
    destruct Hown; [congruence|]. split; [done|lia].
  - intros (l & Hl & Ho & Ht & Hb & Hown).
    pose proof (Hok l (proj1 (list_elem_of_In _ _) Hl)) as Hlok.
    destruct (pieces_cover r l b Hr Hlok Hb) as [(m & Hm & Hmb)|[E Hc]].
    + destruct (pieces_in r l m Hr Hlok Hm) as (? & ? & _). exists m.
      split; [apply list_elem_of_bind; by exists l|]. split_and!; congruence || lia.
    + destruct Hown; [congruence|]. destruct Hc; [congruence|done].
Qed.

Lemma holds_cons l ls own b t :
  holds (l :: ls) own b t <->
  (owner l = own /\ type l = t /\ start l <= b <= end_ l) \/ holds ls own b t.
Proof.
  unfold holds. setoid_rewrite elem_of_cons. split.
  - intros (m & [->|Hm] & H); [by left|right; by exists m].
  - intros [H|(m & Hm & H)]; [exists l|exists m]; auto.
Qed.

(** A byte of the merged range outside the request was held in its mode. *)
Lemma hull_held r ls s e b : request_ok r -> locks_inv ls ->
  loop_post r ls (req_start r) (req_end r) s e -> s <= b <= e ->
  ~ (req_start r <= b <= req_end r) ->
  exists l, l ∈ ls /\ absorbed r l = true /\ start l <= b <= end_ l.
Proof.
  intros Hr [Hok _] [Hlow Hhigh _] Hb Hout. rewrite List.Forall_forall in Hok.
  destruct (decide (b < req_start r)) as [Hlt|Hge].
  - destruct Hlow as [|(? & l & Hl & Ha & ?)]; [lia|]. exists l. split_and!; try done; try lia.
    apply absorbed_spec in Ha; [lia|done|]. by apply Hok, list_elem_of_In.
  - destruct Hhigh as [|(? & l & Hl & Ha & ?)]; [lia|]. exists l. split_and!; try done; try lia.
    apply absorbed_spec in Ha; [lia|done|]. by apply Hok, list_elem_of_In.
Qed.

Lemma inv_apart ls l m : locks_inv ls -> l ∈ ls -> m ∈ ls -> l <> m -> separate l m.
Proof.
  intros [_ Hs] Hl%list_elem_of_In Hm%list_elem_of_In Hne.
  destruct (ForallOrdPairs_In Hs l m Hl Hm) as [|[|]]; [done..|]. by apply separate_sym.
Qed.

(** A piece of a lock that was not merged keeps its distance from the hull. *)
Lemma hull_apart r ls s e l m : request_ok r -> locks_inv ls -> req_type r <> POSIX_LOCK_UNLOCK ->
  loop_post r ls (req_start r) (req_end r) s e -> l ∈ ls -> m ∈ pieces r l ->
  owner l = req_owner r ->
  (e < start m \/ end_ m < s) /\ (type l = req_type r -> e + 1 < start m \/ end_ m + 1 < s).
Proof.
  intros Hr Hinv Hu [Hlow Hhigh _] Hl Hm Ho. pose proof (inv_ok _ Hinv) as Hok.
  rewrite List.Forall_forall in Hok.
  pose proof (Hok l (proj1 (list_elem_of_In _ _) Hl)) as Hlok.
  apply pieces_in in Hm as (_ & _ & (Hm & _) & ? & ? & Hown); [|done..].
  destruct (Hown Ho) as [Ha Hdis].
  assert (forall k, k ∈ ls -> absorbed r k = true ->
    lock_ok k /\ separate k l /\ owner k = owner l /\ type k = req_type r /\
    req_start r <= end_ k + 1 /\ start k <= req_end r + 1) as Hk.
  { intros k Hkin Hka. assert (lock_ok k) as Hkok by (by apply Hok, list_elem_of_In).
    pose proof (proj1 (absorbed_spec r k Hr Hkok) Hka) as (? & _ & ? & ?).
    split; [done|]. split; [apply (inv_apart ls); congruence|]. split_and!; lia || congruence. }
  assert (type l = req_type r -> end_ l + 1 < req_start r \/ req_end r + 1 < start l) as Hsame.
  { intros Et. destruct (decide (req_start r <= end_ l + 1 /\ start l <= req_end r + 1)) as [[??]|]; [|lia].
    assert (absorbed r l = true); [|congruence]. apply absorbed_spec; tauto. }
  destruct Hr as [Hr _], Hlok as (Hlb & _).
  split; [|intros Et; specialize (Hsame Et)]; destruct Hdis as [Hd|Hd].
  1,3: right; destruct Hlow as [->|(? & k & Hkin & Hka & <-)]; [lia|].
  3,4: left; destruct Hhigh as [->|(? & k & Hkin & Hka & <-)]; [lia|].
  all: destruct (Hk k Hkin Hka) as ((? & _) & Hsep & Eo & Et' & ? & ?);
    destruct (Hsep Eo) as [? Hs2]; try specialize (Hs2 ltac:(congruence)); lia.
Qed.

(** The added lock fits beside what the loop left. *)
Lemma added_inv r ls s e : request_ok r -> locks_inv ls -> req_type r <> POSIX_LOCK_UNLOCK ->
  loop_post r ls (req_start r) (req_end r) s e ->
  locks_inv (Lock (req_owner r) (req_pid r) (req_type r) s e :: (ls ≫= pieces r)).
Proof.
  intros Hr Hinv Hu Hp. pose proof (inv_ok _ Hinv) as Hok. rewrite List.Forall_forall in Hok.
  apply locks_inv_cons. split; [|split; [|by apply pieces_inv]].
  { destruct Hr, Hp as [Hlow Hhigh _].
    assert (0 <= s <= req_start r).
    { destruct Hlow as [->|(? & l & Hl & _ & <-)]; [lia|].
      apply list_elem_of_In, Hok in Hl as (? & _). lia. }
    assert (req_end r <= e <= POSIX_LOCK_END).
    { destruct Hhigh as [->|(? & l & Hl & _ & <-)]; [lia|].
      apply list_elem_of_In, Hok in Hl as (? & ? & _). lia. }
    split_and!; cbn; lia || done. }
  apply Forall_forall. intros m Hm%list_elem_of_In Eo. cbn in *.
  apply list_elem_of_bind in Hm as (l & Hm & Hl).
  assert (owner m = owner l /\ type m = type l) as [Eo' Et].
  { apply pieces_in in Hm; [tauto|done|]. by apply Hok, list_elem_of_In. }
  destruct (hull_apart r ls s e l m) as [H1 H2]; [done..|congruence|].
  split; [done|]. intros E. apply H2. congruence.
Qed.

(** [apply] returns, keeps the list well formed and grants the request. *)
Lemma apply_ok ls r : request_ok r -> locks_inv ls ->
  returns (apply ls r [true; true]) (fun ls' => locks_inv ls' /\ granted ls r ls').
Proof.
  intros Hr Hinv. pose proof (nsplits_one r ls Hr Hinv) as Hn. unfold apply.
  destruct (apply_loop_ok r ls (req_start r) (req_end r) [true; true]) as (s & e & sp & -> & Hsp & Hp);
    [done|done|by left|by left|change (spares _) with 2%nat; lia|].
  rewrite bind_ret. case_bool_decide as Hu.
  - split; [by apply pieces_inv|]. intros own b t. rewrite pieces_holds by done.
    assert (forall l, absorbed r l = false) as Hab.
    { intros l. unfold absorbed. rewrite Hu. cbn. by rewrite andb_false_r. }
    case_decide as Hd; split.
    + intros (l & _ & _ & _ & _ & Hx). destruct Hx; tauto.
    + intros [-> Hx]. congruence.
    + intros (l & ? & ? & ? & ? & _). by exists l.
    + intros (l & ? & ? & ? & ?). exists l. split_and!; try done; try lia. intros ->.
      split; [done|]. intros ?. by apply Hd.
  - destruct (take_spare_some sp (spares sp - 1)) as (sp' & -> & _); [change (spares [true; true]) with 2%nat in Hsp; lia|].
    split; [by apply added_inv|]. intros own b t. rewrite holds_cons, pieces_holds by done. cbn.
    assert (forall l, l ∈ ls -> absorbed r l = true -> owner l = req_owner r /\ type l = req_type r) as Hab.
    { intros l Hl Ha. apply absorbed_spec in Ha; [tauto|done|].
      pose proof (inv_ok _ Hinv) as Hok. rewrite List.Forall_forall in Hok. by apply Hok, list_elem_of_In. }
    destruct Hp as [Hlow Hhigh Hhull] eqn:Ep. clear Ep.
    assert (s <= req_start r) by (destruct Hlow; lia). assert (req_end r <= e) by (destruct Hhigh; lia).
    case_decide as Hd; split.
    + intros [(? & <- & ?)|(l & _ & _ & _ & _ & Hx)]; [done|]. destruct Hx; tauto.
    + intros [-> _]. left. split_and!; try done; lia.
    + intros [(<- & <- & Hb)|(l & ? & ? & ? & ? & _)]; [|by exists l].
      destruct (hull_held r ls s e b) as (l & Hl & Ha & Hlb); [done..|tauto|].
      exists l. destruct (Hab l Hl Ha). split_and!; done || lia.
    + intros (l & Hl & Ho & Ht & Hb). destruct (absorbed r l) eqn:Ha.
      * left. destruct (Hab l Hl Ha), (Hhull l Hl Ha). split_and!; congruence || lia.
      * right. exists l. split_and!; try done; try lia. intros E. split; [done|].
        intros ?. by apply Hd.
Qed.

(** ** Lemmas: conflicts *)

(** Another owner holds a byte of the request in a mode that excludes it. *)
Definition conflicting (ls : list posix_lock) (r : posix_lock_request) : Prop :=
  exists own b t, holds ls own b t /\ own <> req_owner r /\ req_start r <= b <= req_end r /\
    (t = POSIX_LOCK_WRITE \/ req_type r = POSIX_LOCK_WRITE).

Definition conflicts_with (r : posix_lock_request) (l : posix_lock) : Prop :=
  owner l <> req_owner r /\ req_start r <= end_ l /\ start l <= req_end r /\
  (type l = POSIX_LOCK_WRITE \/ req_type r = POSIX_LOCK_WRITE).

Lemma find_conflict_spec ls r :
  match find_conflict ls r with
  | Some l => l ∈ ls /\ conflicts_with r l
  | None => forall l, l ∈ ls -> ~ conflicts_with r l
  end.
Proof.
  unfold conflicts_with. induction ls as [|l ls IH]; cbn [find_conflict].
  { intros l Hl. by apply elem_of_nil in Hl. }
  assert (~ conflicts_with r l -> match find_conflict ls r with
    | Some m => m ∈ l :: ls /\ conflicts_with r m
    | None => forall m, m ∈ l :: ls -> ~ conflicts_with r m end) as Hskip.
  { intros Hn. unfold conflicts_with in *. destruct (find_conflict ls r) as [m|].
    - destruct IH. split; [by right|done].
    - intros m Hm. apply elem_of_cons in Hm as [->|Hm]; auto. }
  unfold conflicts_with in Hskip. destruct (Z.eqb_spec (owner l) (req_owner r)); [apply Hskip; tauto|].
  unfold overlaps. destruct (negb _) eqn:En; [apply Hskip; lia|].
  repeat case_bool_decide; cbn [orb]; [split; [by left|]; split_and!; try done; try lia; tauto..|].
  apply Hskip. tauto.
Qed.

Lemma find_conflict_some ls r l : request_ok r -> Forall lock_ok ls ->
  find_conflict ls r = Some l -> conflicting ls r.
Proof.
  intros [Hr _] Hok E. rewrite List.Forall_forall in Hok. pose proof (find_conflict_spec ls r) as Hf.
  rewrite E in Hf. destruct Hf as [Hl (? & ? & ? & Hw)].
  destruct (Hok l) as (? & _); [by apply list_elem_of_In|].
  exists (owner l), (Z.max (start l) (req_start r)), (type l).
  split; [exists l; split_and!; done || lia|]. split_and!; done || lia.
Qed.

Lemma find_conflict_none ls r : find_conflict ls r = None -> ~ conflicting ls r.
Proof.
  intros E (own & b & t & (l & Hl & <- & <- & Hb) & Hne & Hrb & Hw).
  pose proof (find_conflict_spec ls r) as Hf. rewrite E in Hf.
  apply (Hf l Hl). split_and!; done || lia.
Qed.

Lemma granted_exclusive ls r ls' : locks_inv ls -> exclusive ls -> granted ls r ls' ->
  req_type r = POSIX_LOCK_UNLOCK \/ ~ conflicting ls r -> exclusive ls'.
Proof.
  intros [Hok _] Hex Hg Hnc. rewrite List.Forall_forall in Hok.
  assert (forall own b t, holds ls own b t -> t <> POSIX_LOCK_UNLOCK) as Ht.
  { intros own b t (l & Hl & _ & <- & _). apply Hok. by apply list_elem_of_In. }
  assert (forall own b t, holds ls own b t -> own <> req_owner r -> req_start r <= b <= req_end r ->
    req_type r <> POSIX_LOCK_UNLOCK -> t = POSIX_LOCK_READ /\ req_type r = POSIX_LOCK_READ) as Hc.
  { intros own b t Hh Hne Hb Hu. destruct Hnc as [|Hnc]; [done|].
    assert (~ (t = POSIX_LOCK_WRITE \/ req_type r = POSIX_LOCK_WRITE)) as Hw.
    { intros Hw. apply Hnc. by exists own, b, t. }
    specialize (Ht _ _ _ Hh). destruct t, (req_type r); tauto. }
  intros o1 o2 b t1 t2 H1 H2 Hne. apply Hg in H1, H2.
  destruct (decide (o1 = _ /\ _)) as [[-> ?]|], (decide (o2 = _ /\ _)) as [[-> ?]|]; [done|..].
  - destruct H1 as [-> ?]. destruct (Hc o2 b t2); auto.
  - destruct H2 as [-> ?]. destruct (Hc o1 b t1); auto.
  - by apply (Hex o1 o2 b).
Qed.

(** ** Lemmas: releasing *)

Lemma release_loop_eq own ls flag :
  (release_loop own ls flag).1 = filter (fun l => owner l <> own) ls.
Proof.
  revert flag. induction ls as [|l ls IH]; intros flag; [done|]. cbn [release_loop].
  rewrite filter_cons. destruct (Z.eqb_spec (owner l) own); cbn [negb].
  - rewrite decide_False by tauto. apply IH.
  - rewrite decide_True by done. specialize (IH flag). destruct (release_loop _ _ _). cbn in *. by rewrite IH.
Qed.

Lemma filter_inv (P : posix_lock -> Prop) `{forall l, Decision (P l)} ls :
  locks_inv ls -> locks_inv (filter P ls).
Proof.
  induction ls as [|l ls IH]; intros Hinv; [done|].
  apply locks_inv_cons in Hinv as (Hl & Hsep & Hinv). rewrite filter_cons. case_decide; [|auto].
  apply locks_inv_cons. split_and!; [done| |auto]. rewrite List.Forall_forall in *.
  intros m Hm%list_elem_of_In. apply list_elem_of_filter in Hm as [_ Hm].
  apply Hsep. by apply list_elem_of_In.
Qed.

Lemma filter_holds o ls own b t :
  holds (filter (fun l => owner l <> o) ls) own b t <-> own <> o /\ holds ls own b t.
Proof.
  unfold holds. setoid_rewrite list_elem_of_filter. split.
  - intros (l & [? ?] & <- & ?). split; [done|]. by exists l.
  - intros [? (l & ? & <- & ?)]. by exists l.
Qed.

(** ** Lemmas: worlds and steps *)

Definition world_inv (w : lock_world) : Prop :=
  forall node, locks_inv (locks_of w node) /\ exclusive (locks_of w node).

(** The steps of all threads: the sections of [posix_lock_set] that end asleep
    or finish, the return from a sleep, and the release of an owner's locks. *)
Inductive lock_step (w : lock_world) : lock_world -> Prop :=
  | step_sleep node r wait id w' :
      request_ok r -> set_section node r wait id w = Asleep w' -> lock_step w w'
  | step_finish node r wait id status w1 status' w' woken :
      request_ok r -> set_section node r wait id w = Finished status w1 ->
      set_finish node r status w1 = Ret (status', w', woken) -> lock_step w w'
  | step_wake id : lock_step w (leave_wait id w)
  | step_release node own : lock_step w (posix_lock_release_owner node own w).1.

Lemma locks_of_set w node ls n :
  locks_of (set_locks w node ls) n = if decide (n = node) then ls else locks_of w n.
Proof.
  unfold locks_of, set_locks. cbn. case_decide as E; [subst; by rewrite lookup_insert_eq|].
  by rewrite lookup_insert_ne.
Qed.

Lemma set_section_spec node r wait id w :
  request_ok r -> world_inv w ->
  match set_section node r wait id w with
  | Finished status w' =>
      w' = w /\
      (status = 0 /\ (req_type r = POSIX_LOCK_UNLOCK \/ ~ conflicting (locks_of w node) r) \/
       status = (if wait then - EDEADLK else - EAGAIN) /\ conflicting (locks_of w node) r /\
       req_type r <> POSIX_LOCK_UNLOCK)
  | Asleep w' =>
      posix_locks w' = posix_locks w /\ wait = true /\ conflicting (locks_of w node) r /\
      req_type r <> POSIX_LOCK_UNLOCK
  end.
Proof.
  intros Hr Hw. unfold set_section. case_bool_decide as Hu; [tauto|].
  destruct (Hw node) as [[Hok _] _].
  destruct (find_conflict (locks_of w node) r) as [l|] eqn:Ef.
  2:{ apply find_conflict_none in Ef. tauto. }
  apply find_conflict_some in Ef; [|done..].
  destruct wait; cbn [negb]; [|tauto]. destruct (_ && _); [tauto|]. done.
Qed.

(** A section that finished leads to a world that satisfies the invariant, in
    which a status of 0 has granted the request. *)
Definition finish_post (node : Z) (r : posix_lock_request) (status : Z) (w : lock_world)
  (out : Z * lock_world * bool) : Prop :=
  let '(status', w', woken) := out in
  status' = status /\ world_inv w' /\ waiters w' = waiters w /\
  (forall n, n <> node -> locks_of w' n = locks_of w n) /\
  (if decide (status = 0)
   then woken = true /\ granted (locks_of w node) r (locks_of w' node)
   else woken = false /\ w' = w).

Lemma set_finish_ok node r status w : request_ok r -> world_inv w ->
  (status = 0 -> req_type r = POSIX_LOCK_UNLOCK \/ ~ conflicting (locks_of w node) r) ->
  returns (set_finish node r status w) (finish_post node r status w).
Proof.
  intros Hr Hw Hs. destruct (Hw node) as [Hinv Hex]. unfold set_finish.
  destruct (Z.eqb_spec status 0) as [->|Hne]; [|cbn; by rewrite decide_False].
  eapply returns_bind; [by apply apply_ok|]. intros ls [Hinv' Hg]. cbn [returns finish_post].
  rewrite locks_of_set, !decide_True by done. split_and!; try done.
  - intros n. rewrite locks_of_set. case_decide; [|done]. split; [done|].
    by apply (granted_exclusive (locks_of w node) r); auto.
  - intros n Hn. by rewrite locks_of_set, decide_False.
Qed.

Lemma release_owner_spec node own w n o b t :
  holds (locks_of (posix_lock_release_owner node own w).1 n) o b t <->
  holds (locks_of w n) o b t /\ ~ (n = node /\ o = own).
Proof.
  unfold posix_lock_release_owner. pose proof (release_loop_eq own (locks_of w node) false) as Hl.
  assert (holds (locks_of (set_locks w node (release_loop own (locks_of w node) false).1) n) o b t <->
    holds (locks_of w n) o b t /\ ~ (n = node /\ o = own)) as Hset.
  { rewrite locks_of_set, Hl. case_decide; [subst; rewrite filter_holds; tauto|tauto]. }
  destruct (locks_of w node) as [|l ls] eqn:E.
  - cbn. split; [|tauto]. intros Hh. split; [done|]. intros [-> _]. rewrite E in Hh.
    destruct Hh as (l & Hn & _). by apply elem_of_nil in Hn.
  - by destruct (release_loop own (l :: ls) false).
Qed.

Lemma release_owner_inv node own w : world_inv w -> world_inv (posix_lock_release_owner node own w).1.
Proof.
  intros Hw n. split.
  - unfold posix_lock_release_owner. pose proof (release_loop_eq own (locks_of w node) false) as Hl.
    pose proof (proj1 (Hw node)) as Hn. destruct (locks_of w node) as [|l ls]; [apply Hw|].
    destruct (release_loop own (l :: ls) false) as [k flag]. cbn [fst] in Hl |- *. subst k.
    rewrite locks_of_set. case_decide; [by apply filter_inv|apply Hw].
  - intros o1 o2 b t1 t2 H1 H2. apply release_owner_spec in H1 as [H1 _], H2 as [H2 _].
    by apply (proj2 (Hw n) o1 o2 b).
Qed.

Lemma lock_step_inv w w' : world_inv w -> lock_step w w' -> world_inv w'.
Proof.
  intros Hw [node r wait id w1 Hr E|node r wait id status w1 status' w2 woken Hr E Ef|id|node own].
  - pose proof (set_section_spec node r wait id w Hr Hw) as Hs. rewrite E in Hs.
    destruct Hs as [Hl _]. intros n. unfold locks_of. rewrite Hl. apply Hw.
  - pose proof (set_section_spec node r wait id w Hr Hw) as Hs. rewrite E in Hs.
    destruct Hs as [-> Hs]. pose proof (set_finish_ok node r status w Hr Hw) as Hf.
    rewrite Ef in Hf. apply Hf. intros ->. destruct Hs as [[]|[]]; [done|by destruct wait].
  - done.
  - by apply release_owner_inv.
Qed.

Definition empty_world : lock_world := World ∅ [].

Lemma reachable_world w : rtc lock_step empty_world w -> world_inv w.
Proof.
  intros H. assert (world_inv empty_world) as H0.
  { intros node. unfold locks_of. cbn. rewrite lookup_empty. split; [split; constructor|].
    intros o1 o2 b t1 t2 (l & Hl & _). by apply elem_of_nil in Hl. }
  induction H; [done|]. eauto using lock_step_inv.
Qed.

(** ** Lemmas: the wait-for graph *)

Definition waits_for (ws : list lock_waiter) (a b : Z) : Prop :=
  exists x, x ∈ ws /\ waiter_owner x = a /\ waiter_blocker x = b.

Lemma find_waiter_spec ws a :
  match find_waiter ws a with
  | Some x => x ∈ ws /\ waiter_owner x = a
  | None => forall x, x ∈ ws -> waiter_owner x <> a
  end.
Proof.
  induction ws as [|x ws IH]; cbn [find_waiter]; [intros y Hy; by apply elem_of_nil in Hy|].
  destruct (Z.eqb_spec (waiter_owner x) a); [split; [by left|done]|].
  destruct (find_waiter ws a) as [y|]; [destruct IH; split; [by right|done]|].
  intros y Hy. apply elem_of_cons in Hy as [->|Hy]; auto.
Qed.

Lemma deadlock_search_sound depth ws own a :
  deadlock_search depth ws own a = true ->
  exists n, (n < depth)%nat /\ nsteps (waits_for ws) n a own.
Proof.
  revert a. induction depth as [|depth IH]; intros a; cbn [deadlock_search]; [done|].
  destruct (Z.eqb_spec a own) as [->|Hne]; [intros _; exists O; split; [lia|constructor]|].
  pose proof (find_waiter_spec ws a) as Hf. destruct (find_waiter ws a) as [x|]; [|done].
  intros H. destruct (IH _ H) as (n & Hn & Hs). exists (S n). split; [lia|].
  econstructor; [|done]. exists x. tauto.
Qed.

(** With one sleeping request per owner the search follows the only path. *)
Lemma deadlock_search_complete depth ws own a n :
  NoDup (waiter_owner <$> ws) -> (n < depth)%nat -> nsteps (waits_for ws) n a own ->
  deadlock_search depth ws own a = true.
Proof.
  intros Hnd. revert a n. induction depth as [|depth IH]; intros a n Hn Hs; [lia|]. cbn [deadlock_search].
  destruct (Z.eqb_spec a own) as [->|Hne]; [done|].
  inversion Hs as [|n' ? y ? (x & Hx & Hxa & Hxy) Hrest]; subst; [done|].
  pose proof (find_waiter_spec ws (waiter_owner x)) as Hf.
  destruct (find_waiter ws _) as [x'|]; [|by destruct (Hf x Hx)]. destruct Hf as [Hx' E].
  assert (x' = x) as ->; [|apply (IH _ n'); [lia|done]].
  apply list_elem_of_lookup in Hx as [i Hi], Hx' as [j Hj].
  assert (j = i) as ->; [|congruence].
  apply (NoDup_lookup (waiter_owner <$> ws) j i (waiter_owner x)); [done|..];
    rewrite list_lookup_fmap; [rewrite Hj|rewrite Hi]; cbn; congruence.
Qed.

(** ** Lemmas: the whole of [posix_lock_set] *)

(** The worlds in which the call held the mutex. *)
Definition seen_worlds (id : Z) (rounds : list lock_round) (w : lock_world) : list lock_world :=
  w :: ((fun r => leave_wait id (world_after r)) <$> rounds).

Definition set_post (node : Z) (r : posix_lock_request) (wait : bool) (seen : list lock_world)
  (w : lock_world) (out : option (Z * lock_world * bool)) : Prop :=
  match out with
  | None => wait = true /\ forall w0, w0 ∈ seen -> conflicting (locks_of w0 node) r
  | Some (status, w', woken) =>
      world_inv w' /\
      ( (status = 0 /\ woken = true /\ exists w0, w0 ∈ seen /\
           (req_type r = POSIX_LOCK_UNLOCK \/ ~ conflicting (locks_of w0 node) r) /\
           granted (locks_of w0 node) r (locks_of w' node) /\ waiters w' = waiters w0 /\
           forall n, n <> node -> locks_of w' n = locks_of w0 n) \/
        (status <> 0 /\ woken = false /\ conflicting (locks_of w node) r /\
           req_type r <> POSIX_LOCK_UNLOCK /\
           exists w0, w0 ∈ seen /\ posix_locks w' = posix_locks w0) )
  end.

Lemma set_loop_ok node r wait id rounds w : request_ok r -> world_inv w ->
  Forall (fun x => world_inv (world_after x)) rounds ->
  match set_loop node r wait id rounds w with
  | None => wait = true /\
      forall w0, w0 ∈ seen_worlds id rounds w -> conflicting (locks_of w0 node) r
  | Some (status, w') =>
      world_inv w' /\
      ( (status = 0 /\ w' ∈ seen_worlds id rounds w /\
          (req_type r = POSIX_LOCK_UNLOCK \/ ~ conflicting (locks_of w' node) r)) \/
        (status <> 0 /\ conflicting (locks_of w node) r /\ req_type r <> POSIX_LOCK_UNLOCK /\
           exists w0, w0 ∈ seen_worlds id rounds w /\ posix_locks w' = posix_locks w0) )
  end.
Proof.
  intros Hr Hw Hrounds. revert w Hw. induction Hrounds as [|x rounds Hx Hrounds IH]; intros w Hw;
    cbn [set_loop]; pose proof (set_section_spec node r wait id w Hr Hw) as Hs;
    destruct (set_section node r wait id w) as [status w'|w'].
  1,3: destruct Hs as [-> [Hs|(-> & Hs)]]; (split; [done|]).
  1,3: left; split_and!; [tauto|by left|tauto].
  1,2: right; split; [by destruct wait|]; split_and!; [tauto..|]; exists w; split; [by left|done].
  - split; [tauto|]. intros w0 Hw0. apply list_elem_of_singleton in Hw0 as ->. tauto.
  - destruct Hs as (Hl & Hwait & Hc & Hu). destruct (Z.eqb_spec (prepare_status x) 0) as [_|Hp]; cbn [negb].
    2:{ split; [intros n; unfold locks_of; cbn; rewrite Hl; apply Hw|]. right. split_and!; try done.
        exists w. split; [by left|done]. }
    destruct (interrupted x).
    { split; [done|]. right. split_and!; try done. eexists. split; [right; left|done]. }
    specialize (IH (leave_wait id (world_after x)) Hx).
    destruct (set_loop _ _ _ _ _ _) as [[status w1]|].
    + destruct IH as [Hi [(? & Hin & ?)|(? & ? & ? & w0 & Hin & ?)]]; (split; [done|]).
      * left. split_and!; [done|by right|done].
      * right. split_and!; try done. exists w0. split; [by right|done].
    + split; [done|]. intros w0 Hw0. apply elem_of_cons in Hw0 as [->|Hw0]; [done|]. by apply IH.
Qed.

Lemma posix_lock_set_ok node r wait id rounds w : request_ok r -> world_inv w ->
  Forall (fun x => world_inv (world_after x)) rounds ->
  returns (posix_lock_set node r wait id true true rounds w)
    (set_post node r wait (seen_worlds id rounds w) w).
Proof.
  intros Hr Hw Hrounds. unfold posix_lock_set. cbn [negb orb].
  pose proof (set_loop_ok node r wait id rounds w Hr Hw Hrounds) as Hl.
  destruct (set_loop _ _ _ _ _ _) as [[status w1]|]; [|done].
  destruct Hl as [Hw1 Hc]. eapply returns_bind.
  { apply set_finish_ok; [done..|]. intros ->. destruct Hc as [|[]]; tauto. }
  intros [[status' w'] woken] (-> & Hw' & Hws & Hother & Hd). cbn. split; [done|].
  destruct Hc as [(-> & Hin & Hc)|(Hne & Hc & Hu & w0 & Hin & Hp)].
  - rewrite decide_True in Hd by done. left. split_and!; try done; [tauto|]. exists w1. tauto.
  - rewrite decide_False in Hd by done. right. destruct Hd as [-> ->]. split_and!; try done. by exists w0.
Qed.

(** ** Lemmas: the range of a [struct flock] *)

Definition flock_ok (lock : linux_flock) : Prop :=
  - 2 ^ 63 <= l_start lock < 2 ^ 63 /\ - 2 ^ 63 <= l_length lock < 2 ^ 63.

(** The origin [whence] names. *)
Definition range_base (file : lock_file) (lock : linux_flock) : option Z :=
  if l_whence lock =? SEEK_SET then Some 0
  else if l_whence lock =? SEEK_CUR then Some (i64 (file_offset file))
  else if l_whence lock =? SEEK_END then Some (i64 (node_length file))
  else None.

(** First and last byte, in unbounded integers; [None] reaches to the end. *)
Definition flock_bytes (base : Z) (lock : linux_flock) : Z * option Z :=
  let st := base + l_start lock in
  if decide (0 < l_length lock) then (st, Some (st + l_length lock - 1))
  else if decide (l_length lock < 0) then (st + l_length lock, Some (st - 1))
  else (st, None).

Definition range_post (file : lock_file) (lock : linux_flock) (out : Z + (Z * Z)) : Prop :=
  match range_base file lock with
  | None => out = inl (- EINVAL)
  | Some base =>
      let '(first, last) := flock_bytes base lock in
      match out with
      | inr (s, e) =>
          request_ok (Request POSIX_LOCK_READ s e 0 0) /\ s = first /\ e = default POSIX_LOCK_END last
      | inl status =>
          (status = - EINVAL /\ first < 0) \/
          (status = - EOVERFLOW /\ ~ (- 2 ^ 63 <= base + l_start lock < 2 ^ 63 /\ default 0 last < 2 ^ 63))
      end
  end.

Lemma lock_range_ok file lock : flock_ok lock -> range_post file lock (lock_range file lock).
Proof.
  intros [Hs Hn]. unfold range_post, lock_range. fold (range_base file lock).
  destruct (range_base file lock) as [base|]; [|done]. unfold flock_bytes, add_overflow, request_ok.
  unfold POSIX_LOCK_END, UINT64_MAX. cbn.
  repeat first [case_cmp; try lia | case_decide; try lia]; cbn; words; try lia.
Qed.

(** What F_GETLK reports denotes the bytes of the conflicting lock. *)
Definition reportable (s e : Z) : Prop :=
  0 <= s <= e /\ s < 2 ^ 63 /\ (e = POSIX_LOCK_END \/ (e < 2 ^ 63 /\ e - s + 1 < 2 ^ 63)).

Lemma flock_roundtrip file lock answer :
  reportable (req_start answer) (req_end answer) -> req_type answer <> POSIX_LOCK_UNLOCK ->
  lock_range file (flock_of_test lock answer) = inr (req_start answer, req_end answer).
Proof.
  intros (Hs & Hs2 & He) Ht. unfold flock_of_test, lock_range, add_overflow.
  unfold POSIX_LOCK_END, UINT64_MAX in *.
  destruct (req_type answer); [| |done]; cbn [l_whence l_start l_length]; cbn [Z.eqb SEEK_SET].
  all: rewrite (i64_small (req_start answer)), decide_True by lia; cbn [Z.add].
  all: destruct (Z.eqb_spec (req_end answer) (2 ^ 64 - 1)) as [Ee|Ee].
  1,3: cbn [Z.ltb Z.compare]; rewrite (proj2 (Z.ltb_ge _ _)), u64_small by lia; by rewrite Ee.
  all: rewrite (u64_small (req_end answer - req_start answer)), u64_small, i64_small by lia.
  all: rewrite (proj2 (Z.ltb_lt 0 _)), decide_True, (proj2 (Z.ltb_ge _ _)), !u64_small by lia.
  all: do 2 f_equal; lia.
Qed.

(** ** Properties *)

(** C21. Mutual exclusion under every interleaving: in each state reachable from
    no locks by the mutex sections of any threads (sleeping, finishing and waking
    requests, releases), a byte held for writing is held by one owner only, an
    owner holds a byte in one mode, and a request that may finish does so without
    running out of its two preallocated records. *)
Theorem lock_mutual_exclusion w : rtc lock_step empty_world w ->
  forall node,
  exclusive (locks_of w node) /\
  (forall own b t1 t2, holds (locks_of w node) own b t1 -> holds (locks_of w node) own b t2 -> t1 = t2) /\
  (forall r, request_ok r -> returns (apply (locks_of w node) r [true; true])
     (granted (locks_of w node) r)).
Proof.
  intros H node. destruct (reachable_world w H node) as [Hinv Hex]. split_and!; [done|..].
  - intros own b t1 t2. by apply holds_functional.
  - intros r Hr. eapply returns_mono; [by apply apply_ok|]. intros ls []. done.
Qed.

(** One owner locks bytes 0-99 for reading and then 10-19 for writing. *)
Definition demo_read : posix_lock_request := Request POSIX_LOCK_READ 0 99 1000 7.
Definition demo_write : posix_lock_request := Request POSIX_LOCK_WRITE 10 19 1000 7.
Definition demo_other : posix_lock_request := Request POSIX_LOCK_READ 15 15 2000 8.
Definition demo_world1 : lock_world :=
  World {[ 5 := [Lock 1000 7 POSIX_LOCK_READ 0 99] ]} [].
Definition demo_world2 : lock_world :=
  World {[ 5 := [Lock 1000 7 POSIX_LOCK_WRITE 10 19; Lock 1000 7 POSIX_LOCK_READ 0 9;
                 Lock 1000 7 POSIX_LOCK_READ 20 99] ]} [].

Lemma lock_mutual_exclusion_witness : exclusive (locks_of demo_world2 5).
Proof.
  apply lock_mutual_exclusion.
  apply rtc_l with demo_world1.
  { apply (step_finish empty_world 5 demo_read false 1 0 empty_world 0 demo_world1 true);
      [unfold request_ok; cbn; unfold POSIX_LOCK_END, UINT64_MAX; lia|reflexivity|reflexivity]. }
  apply rtc_once.
  apply (step_finish demo_world1 5 demo_write false 1 0 demo_world1 0 demo_world2 true);
    [unfold request_ok; cbn; unfold POSIX_LOCK_END, UINT64_MAX; lia|reflexivity|reflexivity].
Defined.

(** C24. [posix_lock_set]: with status 0 the request was granted on a list of
    locks it does not conflict with: exactly its bytes change, to exactly its
    mode, whatever splitting and merging that takes.  With an error the locks are
    those the call last saw.  It sleeps on only while every list it saw conflicts. *)
Theorem posix_lock_set_correct node r wait id rounds w :
  request_ok r -> world_inv w -> Forall (fun x => world_inv (world_after x)) rounds ->
  returns (posix_lock_set node r wait id true true rounds w)
    (set_post node r wait (seen_worlds id rounds w) w).
Proof. apply posix_lock_set_ok. Qed.

Definition world_invb (w : lock_world) : Prop :=
  map_Forall (fun _ ls => locks_inv ls /\ exclusive ls) (posix_locks w).

Lemma world_inv_map w : world_invb w -> world_inv w.
Proof.
  intros H node. unfold locks_of. destruct (posix_locks w !! node) as [ls|] eqn:E; [by apply (H node)|].
  split; [split; constructor|]. intros ? ? ? ? ? (l & Hl & _). by apply elem_of_nil in Hl.
Qed.

Lemma demo_world2_inv : world_inv demo_world2.
Proof.
  apply world_inv_map, map_Forall_singleton. split.
  - split; repeat constructor; unfold POSIX_LOCK_END, UINT64_MAX; cbn; try lia; done.
  - intros o1 o2 b t1 t2 (l & Hl & <- & _) (m & Hm & <- & _) Hne. exfalso. apply Hne.
    apply list_elem_of_In in Hl, Hm. destruct Hl as [<-|[<-|[<-|[]]]], Hm as [<-|[<-|[<-|[]]]]; done.
Qed.

(** The other reader waits for the writer and gets its lock after the release. *)
Lemma posix_lock_set_correct_witness :
  let rounds := [LockRound 0 demo_world2 false; LockRound 0 empty_world false] in
  returns (posix_lock_set 5 demo_other true 77 true true rounds demo_world2)
    (set_post 5 demo_other true (seen_worlds 77 rounds demo_world2) demo_world2) /\
  posix_lock_set 5 demo_other true 77 true true rounds demo_world2 =
    Ret (Some (0, World {[ 5 := [Lock 2000 8 POSIX_LOCK_READ 15 15] ]} [], true)).
Proof.
  split; [|vm_compute; reflexivity].
  apply posix_lock_set_correct;
    [unfold request_ok; cbn; unfold POSIX_LOCK_END, UINT64_MAX; lia|apply demo_world2_inv|].
  constructor; [apply demo_world2_inv|]. constructor; [|constructor].
  apply reachable_world. apply rtc_refl.
Defined.

(** Deadlock detection: with at most one sleeping request per owner,
    [would_deadlock] answers whether the chain of waits from the blocker reaches
    the requester in fewer than [DEADLOCK_SEARCH_DEPTH] hops. *)
Theorem would_deadlock_correct ws own blocker : NoDup (waiter_owner <$> ws) ->
  would_deadlock ws own blocker = true <->
  exists n, (n < DEADLOCK_SEARCH_DEPTH)%nat /\ nsteps (waits_for ws) n blocker own.
Proof.
  intros Hnd. split; [apply deadlock_search_sound|].
  intros (n & Hn & Hs). by apply (deadlock_search_complete _ _ _ _ n).
Qed.

Lemma would_deadlock_correct_witness :
  let ws := [Waiter 1 20 30; Waiter 2 30 10] in
  would_deadlock ws 10 20 = true /\
  exists n, (n < DEADLOCK_SEARCH_DEPTH)%nat /\ nsteps (waits_for ws) n 20 10.
Proof.
  split; [vm_compute; reflexivity|]. apply would_deadlock_correct; [|reflexivity].
  apply (bool_decide_eq_true_1 (NoDup _)). reflexivity.
Defined.

(** F_GETLK agrees with F_SETLK: the test reports no conflict exactly when
    the same request would be granted at once, and otherwise reports the range,
    mode and pid of a lock of another owner that excludes the request. *)
Theorem posix_lock_test_correct w node r id :
  request_ok r -> world_inv w -> req_type r <> POSIX_LOCK_UNLOCK ->
  let answer := posix_lock_test w node r in
  (req_type answer = POSIX_LOCK_UNLOCK <->
   exists w', posix_lock_set node r false id true true [] w = Ret (Some (0, w', true))) /\
  (req_type answer = POSIX_LOCK_UNLOCK \/
   exists l, l ∈ locks_of w node /\ conflicts_with r l /\
     answer = Request (type l) (start l) (end_ l) (req_owner r) (pid l)).
Proof.
  intros Hr Hw Hu. cbv zeta. unfold posix_lock_test.
  pose proof (posix_lock_set_ok node r false id [] w Hr Hw ltac:(constructor)) as Hset.
  destruct (Hw node) as [[Hok _] _]. pose proof (find_conflict_spec (locks_of w node) r) as Hf.
  destruct (find_conflict (locks_of w node) r) as [l|] eqn:E; cbn [req_type].
  - destruct Hf as [Hl Hc]. split; [|right; by exists l]. split.
    + intros Ht. rewrite List.Forall_forall in Hok. exfalso.
      destruct (Hok l) as (_ & _ & Hx); [by apply list_elem_of_In|done].
    + intros [w' Ew]. rewrite Ew in Hset. destruct Hset as [_ [(_ & _ & w0 & Hin & [|Hn] & _)|[]]]; [done| |done].
      apply list_elem_of_singleton in Hin as ->. exfalso. apply Hn. by eapply find_conflict_some.
  - split; [|by left]. split; [intros _|done]. apply find_conflict_none in E.
    apply returns_exists in Hset as ([[[status w'] woken]|] & -> & Hp); [|by destruct Hp].
    destruct Hp as [_ [(-> & -> & _)|(_ & _ & ? & _)]]; [by exists w'|done].
Qed.

Lemma posix_lock_test_correct_witness :
  posix_lock_test demo_world2 5 demo_other = Request POSIX_LOCK_WRITE 10 19 2000 7 /\
  (req_type (posix_lock_test demo_world2 5 demo_other) = POSIX_LOCK_UNLOCK <->
   exists w', posix_lock_set 5 demo_other false 1 true true [] demo_world2 = Ret (Some (0, w', true))).
Proof.
  split; [vm_compute; reflexivity|].
  apply (posix_lock_test_correct demo_world2 5 demo_other 1);
    [unfold request_ok; cbn; unfold POSIX_LOCK_END, UINT64_MAX; lia|apply demo_world2_inv|discriminate].
Defined.

(** The byte range of a [struct flock]: [lock_range] yields a well-formed
    range that is exactly the bytes POSIX assigns to whence, start and length
    (forwards, backwards, or to the end of the file), or reports a range below
    byte 0 or past the offset type; and the range F_GETLK reports reads back as
    the same bytes. *)
Theorem lock_range_correct file lock answer :
  flock_ok lock -> reportable (req_start answer) (req_end answer) ->
  req_type answer <> POSIX_LOCK_UNLOCK ->
  range_post file lock (lock_range file lock) /\
  lock_range file (flock_of_test lock answer) = inr (req_start answer, req_end answer).
Proof. intros. split; [by apply lock_range_ok|by apply flock_roundtrip]. Qed.

Lemma lock_range_correct_witness :
  let file := LockFile 4096 (Some 5) 100 500 2 in
  let lock := Flock F_WRLCK SEEK_CUR 0 (-20) 0 in
  let answer := Request POSIX_LOCK_WRITE 10 19 2000 7 in
  lock_range file lock = inr (80, 99) /\
  range_post file lock (lock_range file lock) /\
  lock_range file (flock_of_test lock answer) = inr (10, 19).
Proof.
  split; [vm_compute; reflexivity|]. apply (lock_range_correct _ _ (Request POSIX_LOCK_WRITE 10 19 2000 7)).
  - split; cbn; lia.
  - unfold reportable. cbn. lia.
  - discriminate.
Defined.

(** The end of a lock without length is [UINT64_MAX], past every offset: unlocking
    up to the last offset leaves a lock nobody can name, which F_GETLK reports
    with a negative start. *)
Example unlock_to_last_offset :
  let whole := Request POSIX_LOCK_WRITE 1 POSIX_LOCK_END 1000 7 in
  let undo := Request POSIX_LOCK_UNLOCK 1 (2 ^ 63 - 1) 1000 7 in
  let other := Request POSIX_LOCK_READ 0 POSIX_LOCK_END 2000 8 in
  let w1 := World {[ 5 := [Lock 1000 7 POSIX_LOCK_WRITE 1 POSIX_LOCK_END] ]} [] in
  let w2 := World {[ 5 := [Lock 1000 7 POSIX_LOCK_WRITE (2 ^ 63) POSIX_LOCK_END] ]} [] in
  lock_range (LockFile 0 None 0 0 0) (Flock F_UNLCK SEEK_SET 1 (2 ^ 63 - 1) 0) = inr (1, 2 ^ 63 - 1) /\
  posix_lock_set 5 whole false 1 true true [] empty_world = Ret (Some (0, w1, true)) /\
  posix_lock_set 5 undo false 1 true true [] w1 = Ret (Some (0, w2, true)) /\
  posix_lock_set 5 other false 2 true true [] w2 = Ret (Some (- EAGAIN, w2, false)) /\
  l_start (flock_of_test (Flock 0 0 0 0 0) (posix_lock_test w2 5 other)) = - 2 ^ 63.
Proof. vm_compute. repeat split. Qed.
