(* ===== verification/Seccomp.v ===== *)
(** * System call filters (kernel/core/seccomp.c)

    Two parts.  The filter machine: [bpf_run], the interpreter of classic BPF
    over a [seccomp_data], and [bpf_check], the verifier a program has passed
    before it runs.  The filter chains: every process points to a list of
    filters that forks share, counted by [refs]. *)

From S2P Require Import Prelude.

(** ** The instruction set (include/uapi/seccomp.h) *)

Definition SECCOMP_RET_KILL_PROCESS : Z := 0x80000000.
Definition SECCOMP_RET_KILL_THREAD : Z := 0x00000000.
Definition SECCOMP_RET_TRAP : Z := 0x00030000.
Definition SECCOMP_RET_ERRNO : Z := 0x00050000.
Definition SECCOMP_RET_USER_NOTIF : Z := 0x7fc00000.
Definition SECCOMP_RET_TRACE : Z := 0x7ff00000.
Definition SECCOMP_RET_LOG : Z := 0x7ffc0000.
Definition SECCOMP_RET_ALLOW : Z := 0x7fff0000.
Definition SECCOMP_RET_ACTION_FULL : Z := 0xffff0000.
Definition SECCOMP_RET_DATA : Z := 0x0000ffff.

Definition BPF_CLASS (code : Z) : Z := Z.land code 0x07.
Definition BPF_MODE (code : Z) : Z := Z.land code 0xe0.
Definition BPF_LD : Z := 0x00.
Definition BPF_LDX : Z := 0x01.
Definition BPF_ST : Z := 0x02.
Definition BPF_STX : Z := 0x03.
Definition BPF_ALU : Z := 0x04.
Definition BPF_JMP : Z := 0x05.
Definition BPF_RET : Z := 0x06.
Definition BPF_MISC : Z := 0x07.
Definition BPF_W : Z := 0x00.
Definition BPF_IMM : Z := 0x00.
Definition BPF_ABS : Z := 0x20.
Definition BPF_MEM : Z := 0x60.
Definition BPF_LEN : Z := 0x80.
Definition BPF_ADD : Z := 0x00.
Definition BPF_SUB : Z := 0x10.
Definition BPF_MUL : Z := 0x20.
Definition BPF_DIV : Z := 0x30.
Definition BPF_OR : Z := 0x40.
Definition BPF_AND : Z := 0x50.
Definition BPF_LSH : Z := 0x60.
Definition BPF_RSH : Z := 0x70.
Definition BPF_NEG : Z := 0x80.
Definition BPF_MOD : Z := 0x90.
Definition BPF_XOR : Z := 0xa0.
Definition BPF_JA : Z := 0x00.
Definition BPF_JEQ : Z := 0x10.
Definition BPF_JGT : Z := 0x20.
Definition BPF_JGE : Z := 0x30.
Definition BPF_JSET : Z := 0x40.
Definition BPF_K : Z := 0x00.
Definition BPF_X : Z := 0x08.
Definition BPF_A : Z := 0x10.
Definition BPF_TAX : Z := 0x00.
Definition BPF_TXA : Z := 0x80.
Definition BPF_MEMWORDS : Z := 16.
Definition BPF_MAXINSNS : Z := 4096.

Declare Scope bpf_scope.
Delimit Scope bpf_scope with bpf.
Notation "a .| b" := (Z.lor a b) (at level 50, left associativity) : bpf_scope.

Record sock_filter := Insn {
  code : Z;
  jt : Z;
  jf : Z;
  k : Z
}.

Record seccomp_data := Data {
  nr : Z;
  arch : Z;
  instruction_pointer : Z;
  args : list Z
}.

(** The 64 bytes of a [seccomp_data] in memory. *)
Definition SIZEOF_DATA : Z := 64.
Definition data_bytes (d : seccomp_data) : list Z :=
  le_bytes 4 (nr d) ++ le_bytes 4 (arch d) ++ le_bytes 8 (instruction_pointer d)
  ++ (args d ≫= le_bytes 8).

(** ** The interpreter *)

Record machine := Machine {
  pc : Z;
  a : Z;
  x : Z;
  mem : list Z
}.

(** Why a program stopped: a RET instruction, a bounds test of the interpreter,
    an opcode outside the switch, or the end of the program. *)
Inductive stop := ByRet | BadAccess | BadOpcode | FellOff.

Inductive outcome :=
  | Stop (why : stop) (value : Z)
  | Next (m : machine).

Definition kill (why : stop) : outcome := Stop why SECCOMP_RET_KILL_PROCESS.

Section step.
Local Open Scope bpf_scope.
Variable bytes : list Z.

Definition set_a (m : machine) (v : Z) : outcome := Next (Machine (pc m) v (x m) (mem m)).
Definition set_x (m : machine) (v : Z) : outcome := Next (Machine (pc m) (a m) v (mem m)).
Definition jump (m : machine) (offset : Z) : outcome :=
  Next (Machine (u16 (pc m + offset)) (a m) (x m) (mem m)).

(** One [switch] of the loop, before [pc++]. *)
Definition bpf_switch (op : sock_filter) (m : machine) : res outcome :=
  let c := code op in
  let k := k op in
  let a := a m in
  let x := x m in
  let branch (taken : bool) := Ret (jump m (if taken then jt op else jf op)) in
  if c =? BPF_LD .| BPF_W .| BPF_ABS then
    if (SIZEOF_DATA - 4 <? k) || negb (Z.land k 3 =? 0) then Ret (kill BadAccess) else
    word ← copy_out bytes k 4;
    Ret (set_a m (le_join word))
  else if c =? BPF_LD .| BPF_W .| BPF_LEN then Ret (set_a m SIZEOF_DATA)
  else if c =? BPF_LD .| BPF_IMM then Ret (set_a m k)
  else if c =? BPF_LD .| BPF_MEM then
    if BPF_MEMWORDS <=? k then Ret (kill BadAccess) else
    v ← rd (mem m) k; Ret (set_a m v)
  else if c =? BPF_LDX .| BPF_W .| BPF_LEN then Ret (set_x m SIZEOF_DATA)
  else if c =? BPF_LDX .| BPF_IMM then Ret (set_x m k)
  else if c =? BPF_LDX .| BPF_MEM then
    if BPF_MEMWORDS <=? k then Ret (kill BadAccess) else
    v ← rd (mem m) k; Ret (set_x m v)
  else if c =? BPF_ST then
    if BPF_MEMWORDS <=? k then Ret (kill BadAccess) else
    mem' ← wr (mem m) k a; Ret (Next (Machine (pc m) a x mem'))
  else if c =? BPF_STX then
    if BPF_MEMWORDS <=? k then Ret (kill BadAccess) else
    mem' ← wr (mem m) k x; Ret (Next (Machine (pc m) a x mem'))
  else if c =? BPF_ALU .| BPF_ADD .| BPF_K then Ret (set_a m (u32 (a + k)))
  else if c =? BPF_ALU .| BPF_SUB .| BPF_K then Ret (set_a m (u32 (a - k)))
  else if c =? BPF_ALU .| BPF_MUL .| BPF_K then Ret (set_a m (u32 (a * k)))
  else if c =? BPF_ALU .| BPF_DIV .| BPF_K then Ret (set_a m (if k =? 0 then 0 else a / k))
  else if c =? BPF_ALU .| BPF_MOD .| BPF_K then Ret (set_a m (if k =? 0 then 0 else a mod k))
  else if c =? BPF_ALU .| BPF_AND .| BPF_K then Ret (set_a m (Z.land a k))
  else if c =? BPF_ALU .| BPF_OR .| BPF_K then Ret (set_a m (Z.lor a k))
  else if c =? BPF_ALU .| BPF_XOR .| BPF_K then Ret (set_a m (Z.lxor a k))
  else if c =? BPF_ALU .| BPF_LSH .| BPF_K then
    Ret (set_a m (if k <? 32 then u32 (Z.shiftl a k) else 0))
  else if c =? BPF_ALU .| BPF_RSH .| BPF_K then
    Ret (set_a m (if k <? 32 then Z.shiftr a k else 0))
  else if c =? BPF_ALU .| BPF_ADD .| BPF_X then Ret (set_a m (u32 (a + x)))
  else if c =? BPF_ALU .| BPF_SUB .| BPF_X then Ret (set_a m (u32 (a - x)))
  else if c =? BPF_ALU .| BPF_MUL .| BPF_X then Ret (set_a m (u32 (a * x)))
  else if c =? BPF_ALU .| BPF_DIV .| BPF_X then Ret (set_a m (if x =? 0 then 0 else a / x))
  else if c =? BPF_ALU .| BPF_MOD .| BPF_X then Ret (set_a m (if x =? 0 then 0 else a mod x))
  else if c =? BPF_ALU .| BPF_AND .| BPF_X then Ret (set_a m (Z.land a x))
  else if c =? BPF_ALU .| BPF_OR .| BPF_X then Ret (set_a m (Z.lor a x))
  else if c =? BPF_ALU .| BPF_XOR .| BPF_X then Ret (set_a m (Z.lxor a x))
  else if c =? BPF_ALU .| BPF_LSH .| BPF_X then
    Ret (set_a m (if x <? 32 then u32 (Z.shiftl a x) else 0))
  else if c =? BPF_ALU .| BPF_RSH .| BPF_X then
    Ret (set_a m (if x <? 32 then Z.shiftr a x else 0))
  else if c =? BPF_ALU .| BPF_NEG then Ret (set_a m (u32 (- i32 a)))
  else if c =? BPF_JMP .| BPF_JA then Ret (jump m (u16 k))
  else if c =? BPF_JMP .| BPF_JEQ .| BPF_K then branch (a =? k)
  else if c =? BPF_JMP .| BPF_JGT .| BPF_K then branch (k <? a)
  else if c =? BPF_JMP .| BPF_JGE .| BPF_K then branch (k <=? a)
  else if c =? BPF_JMP .| BPF_JSET .| BPF_K then branch (negb (Z.land a k =? 0))
  else if c =? BPF_JMP .| BPF_JEQ .| BPF_X then branch (a =? x)
  else if c =? BPF_JMP .| BPF_JGT .| BPF_X then branch (x <? a)
  else if c =? BPF_JMP .| BPF_JGE .| BPF_X then branch (x <=? a)
  else if c =? BPF_JMP .| BPF_JSET .| BPF_X then branch (negb (Z.land a x =? 0))
  else if c =? BPF_RET .| BPF_K then Ret (Stop ByRet k)
  else if c =? BPF_RET .| BPF_A then Ret (Stop ByRet a)
  else if c =? BPF_MISC .| BPF_TAX then Ret (set_x m a)
  else if c =? BPF_MISC .| BPF_TXA then Ret (set_a m x)
  else Ret (kill BadOpcode).

(** The loop; running out of [fuel] is not a return. *)
Fixpoint bpf_loop (fuel : nat) (program : list sock_filter) (length : Z) (m : machine)
  : res (stop * Z) :=
  if pc m <? length then
    match fuel with
    | O => Fault
    | S fuel =>
        op ← rd program (pc m);
        out ← bpf_switch op m;
        match out with
        | Stop why value => Ret (why, value)
        | Next m' =>
            bpf_loop fuel program length (Machine (u16 (pc m' + 1)) (a m') (x m') (mem m'))
        end
    end
  else Ret (FellOff, SECCOMP_RET_KILL_PROCESS).
End step.

(** The value of [bpf_run] and why it stopped; a program that passed
    [bpf_check] only jumps forward, so [length] rounds are enough. *)
Definition bpf_run_why (program : list sock_filter) (length : Z) (data : seccomp_data)
  : res (stop * Z) :=
  bpf_loop (data_bytes data) (Z.to_nat length) program length
    (Machine 0 0 0 (replicate (Z.to_nat BPF_MEMWORDS) 0)).

Definition bpf_run (program : list sock_filter) (length : Z) (data : seccomp_data) : res Z :=
  '(_, value) ← bpf_run_why program length data; Ret value.

(** ** The verifier *)

Definition valid_opcodes : list Z := (
  [BPF_LD .| BPF_W .| BPF_ABS; BPF_LD .| BPF_W .| BPF_LEN; BPF_LD .| BPF_IMM; BPF_LD .| BPF_MEM;
   BPF_LDX .| BPF_W .| BPF_LEN; BPF_LDX .| BPF_IMM; BPF_LDX .| BPF_MEM; BPF_ST; BPF_STX;
   BPF_ALU .| BPF_ADD .| BPF_K; BPF_ALU .| BPF_SUB .| BPF_K; BPF_ALU .| BPF_MUL .| BPF_K;
   BPF_ALU .| BPF_DIV .| BPF_K; BPF_ALU .| BPF_MOD .| BPF_K; BPF_ALU .| BPF_AND .| BPF_K;
   BPF_ALU .| BPF_OR .| BPF_K; BPF_ALU .| BPF_XOR .| BPF_K; BPF_ALU .| BPF_LSH .| BPF_K;
   BPF_ALU .| BPF_RSH .| BPF_K; BPF_ALU .| BPF_ADD .| BPF_X; BPF_ALU .| BPF_SUB .| BPF_X;
   BPF_ALU .| BPF_MUL .| BPF_X; BPF_ALU .| BPF_DIV .| BPF_X; BPF_ALU .| BPF_MOD .| BPF_X;
   BPF_ALU .| BPF_AND .| BPF_X; BPF_ALU .| BPF_OR .| BPF_X; BPF_ALU .| BPF_XOR .| BPF_X;
   BPF_ALU .| BPF_LSH .| BPF_X; BPF_ALU .| BPF_RSH .| BPF_X; BPF_ALU .| BPF_NEG;
   BPF_JMP .| BPF_JA; BPF_JMP .| BPF_JEQ .| BPF_K; BPF_JMP .| BPF_JGT .| BPF_K;
   BPF_JMP .| BPF_JGE .| BPF_K; BPF_JMP .| BPF_JSET .| BPF_K; BPF_JMP .| BPF_JEQ .| BPF_X;
   BPF_JMP .| BPF_JGT .| BPF_X; BPF_JMP .| BPF_JGE .| BPF_X; BPF_JMP .| BPF_JSET .| BPF_X;
   BPF_RET .| BPF_K; BPF_RET .| BPF_A; BPF_MISC .| BPF_TAX; BPF_MISC .| BPF_TXA])%bpf.

Definition valid_opcode (c : Z) : bool := existsb (Z.eqb c) valid_opcodes.

(** The tests of one round of the loop of [bpf_check]. *)
Definition check_insn (op : sock_filter) (at_pc length : Z) : bool :=
  valid_opcode (code op) &&
  (if BPF_CLASS (code op) =? BPF_JMP then
     if code op =? Z.lor BPF_JMP BPF_JA then negb (u32 (length - at_pc - 1) <=? k op)
     else negb ((length - at_pc - 1 <=? jt op) || (length - at_pc - 1 <=? jf op))
   else true) &&
  negb (((BPF_CLASS (code op) =? BPF_LD) || (BPF_CLASS (code op) =? BPF_LDX)
         || (code op =? BPF_ST) || (code op =? BPF_STX))
        && (BPF_MODE (code op) =? BPF_MEM) && (BPF_MEMWORDS <=? k op)).

Fixpoint check_from (program : list sock_filter) (at_pc length : Z) : bool :=
  match program with
  | [] => true
  | op :: rest => check_insn op at_pc length && check_from rest (at_pc + 1) length
  end.

(** [program] holds the [length] instructions of the filter. *)
Definition bpf_check (program : list sock_filter) (length : Z) : res Z :=
  if (length =? 0) || (BPF_MAXINSNS <? length) then Ret (- EINVAL) else
  if negb (check_from program 0 length) then Ret (- EINVAL) else
  last ← rd program (length - 1);
  Ret (if negb (BPF_CLASS (code last) =? BPF_RET) then - EINVAL else 0).

(** ** Filters and processes *)

Inductive seccomp_mode_t := SECCOMP_MODE_DISABLED | SECCOMP_MODE_STRICT | SECCOMP_MODE_FILTER.

#[export] Instance seccomp_mode_eq_dec : EqDecision seccomp_mode_t.
Proof. solve_decision. Defined.

(** Filters live in a heap; [prev] is an address in it. *)
Record seccomp_filter := Filter {
  prev : option Z;
  refs : Z;
  filter_length : Z;
  program : list sock_filter
}.

Record process := Process {
  seccomp_mode : seccomp_mode_t;
  seccomp_filters : option Z;
  no_new_privs : bool;
  euid : Z
}.

Record system := System {
  filters : gmap Z seccomp_filter;
  processes : gmap Z process
}.

Definition set_seccomp (p : process) (mode : seccomp_mode_t) (chain : option Z) : process :=
  Process mode chain (no_new_privs p) (euid p).
Definition set_refs (f : seccomp_filter) (n : Z) : seccomp_filter :=
  Filter (prev f) n (filter_length f) (program f).

(** Reading through an address: NULL is [None] and never dereferenced. *)
Definition deref (fs : gmap Z seccomp_filter) (address : Z) : res seccomp_filter :=
  match fs !! address with
  | Some f => Ret f
  | None => Fault
  end.

(** [user] is what the two [copy_from_user] calls read: the [sock_fprog]'s
    length and its instructions; [allocated] whether [kmalloc] succeeded. *)
Definition filter_copy_from_user (user : option (Z * option (list sock_filter))) (allocated : bool)
  : res (option seccomp_filter) :=
  match user with
  | None => Ret None
  | Some (len, insns) =>
      if (len =? 0) || (BPF_MAXINSNS <? len) then Ret None else
      if negb allocated then Ret None else
      match insns with
      | None => Ret None
      | Some prog =>
          status ← bpf_check prog len;
          Ret (if negb (status =? 0) then None else Some (Filter None 1 len prog))
      end
  end.

Definition seccomp_active (p : process) : bool :=
  bool_decide (seccomp_mode p <> SECCOMP_MODE_DISABLED).

(** [address] is where the filter was allocated. *)
Definition attach_filter (pid : Z) (p : process) (address : Z) (f : seccomp_filter) (s : system)
  : Z * system :=
  match seccomp_mode p with
  | SECCOMP_MODE_STRICT => (- EINVAL, s)
  | _ =>
      (0, System (<[address := Filter (seccomp_filters p) (refs f) (filter_length f) (program f)]> (filters s))
            (<[pid := set_seccomp p SECCOMP_MODE_FILTER (Some address)]> (processes s)))
  end.

(** TSYNC, LOG, SPEC_ALLOW and TSYNC_ESRCH. *)
Definition SECCOMP_FILTER_FLAGS : Z :=
  Z.lor (Z.lor (Z.lor (Z.shiftl 1 0) (Z.shiftl 1 1)) (Z.shiftl 1 2)) (Z.shiftl 1 4).

Definition seccomp_set_mode_filter (pid : Z) (flags : Z)
  (user : option (Z * option (list sock_filter))) (block : option Z) (s : system)
  : res (Z * system) :=
  match processes s !! pid with
  | None => Ret (- EINVAL, s)
  | Some p =>
      if negb (Z.land flags (u64 (Z.lnot SECCOMP_FILTER_FLAGS)) =? 0) then Ret (- EINVAL, s) else
      if negb (no_new_privs p) && negb (euid p =? 0) then Ret (- EACCES, s) else
      filter ← filter_copy_from_user user (bool_decide (is_Some block));
      Ret (match filter, block with
           | Some f, Some address => attach_filter pid p address f s
           | _, _ => (- EINVAL, s)
           end)
  end.

Definition seccomp_set_mode_strict (pid : Z) (s : system) : Z * system :=
  match processes s !! pid with
  | None => (- EINVAL, s)
  | Some p =>
      match seccomp_mode p with
      | SECCOMP_MODE_FILTER => (- EINVAL, s)
      | _ =>
          (0, System (filters s)
                (<[pid := set_seccomp p SECCOMP_MODE_STRICT (seccomp_filters p)]> (processes s)))
      end
  end.

Definition seccomp_prctl_set (pid mode : Z) (user : option (Z * option (list sock_filter)))
  (block : option Z) (s : system) : res (Z * system) :=
  if mode =? 1 then Ret (seccomp_set_mode_strict pid s)
  else if mode =? 2 then seccomp_set_mode_filter pid 0 user block s
  else Ret (- EINVAL, s).

(** read, write, exit, exit_group and rt_sigreturn of x86-64. *)
Definition strict_allows (nr : Z) : bool :=
  (nr =? 0) || (nr =? 1) || (nr =? 60) || (nr =? 231) || (nr =? 15).

Definition AUDIT_ARCH_X86_64 : Z := 0xC000003E.

(** What a filter sees of the trap frame. *)
Record syscall_frame := Frame {
  frame_ip : Z;
  frame_args : list Z
}.

Definition frame_data (frame : syscall_frame) (native_nr : Z) : seccomp_data :=
  Data (i32 native_nr) AUDIT_ARCH_X86_64 (frame_ip frame) (frame_args frame).

Definition action_rank (result : Z) : Z :=
  let action := Z.land result SECCOMP_RET_ACTION_FULL in
  if action =? SECCOMP_RET_KILL_PROCESS then 7
  else if action =? SECCOMP_RET_KILL_THREAD then 6
  else if action =? SECCOMP_RET_TRAP then 5
  else if action =? SECCOMP_RET_ERRNO then 4
  else if action =? SECCOMP_RET_USER_NOTIF then 3
  else if action =? SECCOMP_RET_TRACE then 2
  else if action =? SECCOMP_RET_LOG then 1
  else if action =? SECCOMP_RET_ALLOW then 0
  else 6.

(** The walks along [prev] end after at most as many filters as there are. *)
Fixpoint decide_loop (fuel : nat) (fs : gmap Z seccomp_filter) (filter : option Z)
  (data : seccomp_data) (best best_rank : Z) : res Z :=
  match filter with
  | None => Ret best
  | Some address =>
      match fuel with
      | O => Fault
      | S fuel =>
          f ← deref fs address;
          result ← bpf_run (program f) (filter_length f) data;
          let rank := action_rank result in
          if best_rank <? rank then decide_loop fuel fs (prev f) data result rank
          else decide_loop fuel fs (prev f) data best best_rank
      end
  end.

Definition seccomp_decide (pid : Z) (frame : syscall_frame) (native_nr : Z) (s : system) : res Z :=
  match processes s !! pid with
  | None => Ret SECCOMP_RET_ALLOW
  | Some p =>
      match seccomp_mode p with
      | SECCOMP_MODE_DISABLED => Ret SECCOMP_RET_ALLOW
      | SECCOMP_MODE_STRICT =>
          Ret (if strict_allows native_nr then SECCOMP_RET_ALLOW else SECCOMP_RET_KILL_PROCESS)
      | SECCOMP_MODE_FILTER =>
          decide_loop (size (filters s)) (filters s) (seccomp_filters p) (frame_data frame native_nr)
            SECCOMP_RET_ALLOW 0
      end
  end.

Fixpoint inherit_loop (fuel : nat) (filter : option Z) (fs : gmap Z seccomp_filter)
  : res (gmap Z seccomp_filter) :=
  match filter with
  | None => Ret fs
  | Some address =>
      match fuel with
      | O => Fault
      | S fuel =>
          f ← deref fs address;
          inherit_loop fuel (prev f) (<[address := set_refs f (u32 (refs f + 1))]> fs)
      end
  end.

(** [child] is the record of the new process before the call. *)
Definition seccomp_inherit (child_pid : Z) (child : process) (parent_pid : Z) (s : system)
  : res system :=
  match processes s !! parent_pid with
  | None => Fault
  | Some parent =>
      fs ← inherit_loop (size (filters s)) (seccomp_filters parent) (filters s);
      Ret (System fs (<[child_pid := set_seccomp child (seccomp_mode parent) (seccomp_filters parent)]>
                        (processes s)))
  end.

Fixpoint release_loop (fuel : nat) (filter : option Z) (fs : gmap Z seccomp_filter)
  : res (gmap Z seccomp_filter) :=
  match filter with
  | None => Ret fs
  | Some address =>
      match fuel with
      | O => Fault
      | S fuel =>
          f ← deref fs address;
          let n := u32 (refs f - 1) in
          release_loop fuel (prev f)
            (if n =? 0 then delete address fs else <[address := set_refs f n]> fs)
      end
  end.

Definition seccomp_release (pid : Z) (s : system) : res system :=
  match processes s !! pid with
  | None => Fault
  | Some p =>
      fs ← release_loop (size (filters s)) (seccomp_filters p) (filters s);
      Ret (System fs (<[pid := set_seccomp p SECCOMP_MODE_DISABLED None]> (processes s)))
  end.

(** [syscall_run]'s use of the decision. *)
Inductive verdict :=
  | RunSyscall
  | ReturnValue (value : Z)
  | TrapSigsys
  | KillSigsys.

Definition ENOSYS : Z := 38.

Definition enforce (action : Z) : verdict :=
  let full := Z.land action SECCOMP_RET_ACTION_FULL in
  if negb (full =? SECCOMP_RET_ALLOW) && negb (full =? SECCOMP_RET_LOG) then
    if full =? SECCOMP_RET_ERRNO then
      let c := Z.land action SECCOMP_RET_DATA in
      ReturnValue (u64 (- (if 4095 <? c then 4095 else c)))
    else if full =? SECCOMP_RET_TRAP then TrapSigsys
    else if (full =? SECCOMP_RET_TRACE) || (full =? SECCOMP_RET_USER_NOTIF) then ReturnValue (u64 (- ENOSYS))
    else KillSigsys
  else RunSyscall.

(** ** Lemmas: the interpreter *)

Definition word32 (z : Z) : Prop := 0 <= z < 2 ^ 32.

Record wf_insn (op : sock_filter) : Prop := {
  wf_jt : 0 <= jt op < 2 ^ 8;
  wf_jf : 0 <= jf op < 2 ^ 8;
  wf_k : word32 (k op)
}.

Record wf_machine (m : machine) : Prop := {
  wf_a : word32 (a m);
  wf_x : word32 (x m);
  wf_len : length (mem m) = Z.to_nat BPF_MEMWORDS;
  wf_mem : Forall word32 (mem m)
}.

(** The accesses the verifier lets through and the interpreter refuses. *)
Definition bad_access (op : sock_filter) : Prop :=
  (code op = Z.lor (Z.lor BPF_LD BPF_W) BPF_ABS /\ (SIZEOF_DATA - 4 < k op \/ Z.land (k op) 3 <> 0)) \/
  ((code op = BPF_ST \/ code op = BPF_STX) /\ BPF_MEMWORDS <= k op).

Definition switch_post (op : sock_filter) (m : machine) (length : Z) (out : outcome) : Prop :=
  match out with
  | Stop why value =>
      word32 value /\
      ((why = ByRet /\ BPF_CLASS (code op) = BPF_RET) \/
       (why = BadAccess /\ value = SECCOMP_RET_KILL_PROCESS /\ bad_access op))
  | Next m' =>
      wf_machine m' /\ BPF_CLASS (code op) <> BPF_RET /\
      (pc m' = pc m \/ (pc m <= pc m' /\ pc m' + 1 < length))
  end.

Lemma u32_word z : word32 (u32 z).
Proof. apply u32_bound. Qed.
Lemma shiftr_word a n : word32 a -> word32 n -> word32 (Z.shiftr a n).
Proof.
  unfold word32. intros Ha Hn. rewrite Z.shiftr_div_pow2 by lia.
  assert (0 < 2 ^ n) by (apply Z.pow_pos_nonneg; lia). split; [apply Z.div_pos; lia|].
  apply Z.div_lt_upper_bound; nia.
Qed.
Lemma div_word a b : word32 a -> word32 b -> b <> 0 -> word32 (a / b).
Proof.
  unfold word32. intros. split; [apply Z.div_pos; lia|]. apply Z.div_lt_upper_bound; nia.
Qed.
Lemma mod_word a b : word32 b -> b <> 0 -> word32 (a mod b).
Proof. unfold word32. intros. pose proof (Z.mod_pos_bound a b). lia. Qed.
Lemma land_word a b : word32 a -> word32 (Z.land a b).
Proof. intros. by apply land_bound. Qed.
Lemma lor_word a b : word32 a -> word32 b -> word32 (Z.lor a b).
Proof. intros. by apply lor_bound. Qed.
Lemma lxor_word a b : word32 a -> word32 b -> word32 (Z.lxor a b).
Proof. intros. by apply lxor_bound. Qed.

Lemma mem_word m i v : wf_machine m -> mem m !! i = Some v -> word32 v.
Proof. intros Hm Hi. eapply Forall_lookup_1; [apply Hm|done]. Qed.

Lemma set_a_post op m len v : wf_machine m -> word32 v -> BPF_CLASS (code op) <> BPF_RET ->
  switch_post op m len (set_a m v).
Proof. intros []. split; [by split|]. split; [done|]. by left. Qed.
Lemma set_x_post op m len v : wf_machine m -> word32 v -> BPF_CLASS (code op) <> BPF_RET ->
  switch_post op m len (set_x m v).
Proof. intros []. split; [by split|]. split; [done|]. by left. Qed.

Lemma set_mem_post op m len i v : wf_machine m -> word32 v -> BPF_CLASS (code op) <> BPF_RET ->
  0 <= i < BPF_MEMWORDS ->
  returns (mem' ← wr (mem m) i v; Ret (Next (Machine (pc m) (a m) (x m) mem')))
    (switch_post op m len).
Proof.
  intros [Ha Hx Hl Hm] Hv Hc Hi. rewrite wr_in by (rewrite Hl; unfold BPF_MEMWORDS in *; lia).
  rewrite bind_ret. split; [|split; [done|by left]]. split; cbn; try done.
  - by rewrite length_insert.
  - by apply Forall_insert.
Qed.

Lemma get_mem_post (set : machine -> Z -> outcome) op m len i : wf_machine m ->
  (forall v, word32 v -> switch_post op m len (set m v)) -> 0 <= i < BPF_MEMWORDS ->
  returns (v ← rd (mem m) i; Ret (set m v)) (switch_post op m len).
Proof.
  intros Hm Hset Hi. rewrite rd_total by (rewrite (wf_len _ Hm); unfold BPF_MEMWORDS in *; lia).
  rewrite bind_ret. apply Hset. apply (mem_word m (Z.to_nat i)); [done|].
  apply list_lookup_lookup_total_lt. rewrite (wf_len _ Hm). unfold BPF_MEMWORDS in *. lia.
Qed.

Lemma jump_post op m len t : wf_machine m -> BPF_CLASS (code op) <> BPF_RET ->
  0 <= pc m < len -> len <= BPF_MAXINSNS -> 0 <= t < len - pc m - 1 ->
  switch_post op m len (jump m t).
Proof.
  intros [] Hc Hp Hl Ht. unfold BPF_MAXINSNS in *. split; [by split|]. split; [done|].
  right. cbn. rewrite u16_small by lia. lia.
Qed.

(** What the verifier's test of one instruction gives. *)
Lemma check_insn_spec op p len : check_insn op p len = true ->
  valid_opcode (code op) = true /\
  (code op = Z.lor BPF_JMP BPF_JA -> k op < u32 (len - p - 1)) /\
  (BPF_CLASS (code op) = BPF_JMP -> code op <> Z.lor BPF_JMP BPF_JA ->
     jt op < len - p - 1 /\ jf op < len - p - 1) /\
  (code op = Z.lor BPF_LD BPF_MEM \/ code op = Z.lor BPF_LDX BPF_MEM -> k op < BPF_MEMWORDS).
Proof.
  unfold check_insn. rewrite !andb_true_iff, negb_true_iff. intros [[Hv Hj] Hm]. split_and!; [done|..].
  - intros E. rewrite E in Hj. change (BPF_CLASS (Z.lor BPF_JMP BPF_JA)) with BPF_JMP in Hj.
    rewrite !Z.eqb_refl in Hj. lia.
  - intros E1 E2. rewrite E1, Z.eqb_refl, (proj2 (Z.eqb_neq _ _) E2) in Hj. lia.
  - intros [E|E]; rewrite E in Hm; destruct (Z.leb_spec BPF_MEMWORDS (k op)); try done.
Qed.

(** [next_case] splits on the next opcode of the switch; in its own branch the
    opcode is a constant. *)
Ltac next_case :=
  match goal with
  | |- returns (if ?c =? ?v then _ else _) _ =>
      let H := fresh "Hop" in destruct (Z.eqb_spec c v) as [H|H]
  end.

(** [by_op] computes a test of the opcode that the branch fixes. *)
Ltac by_op := match goal with H : code _ = _ |- _ => rewrite H; done end.

(** The word a branch computes fits in 32 bits. *)
Ltac word_ok :=
  lazymatch goal with
  | |- word32 (if ?c =? ?d then _ else _) => destruct (Z.eqb_spec c d); word_ok
  | |- word32 (if ?c <? ?d then _ else _) => destruct (Z.ltb_spec c d); word_ok
  | |- word32 (u32 _) => apply u32_word
  | |- word32 (_ / _) => by apply div_word
  | |- word32 (_ mod _) => by apply mod_word
  | |- word32 (Z.shiftr _ _) => by apply shiftr_word
  | |- word32 (Z.land _ _) => by apply land_word
  | |- word32 (Z.lor _ _) => by apply lor_word
  | |- word32 (Z.lxor _ _) => by apply lxor_word
  | |- _ => done
  end.

Lemma bpf_switch_ok bytes op m len :
  length bytes = Z.to_nat SIZEOF_DATA -> Forall (fun b => 0 <= b < 256) bytes ->
  wf_insn op -> wf_machine m -> 0 <= pc m < len -> len <= BPF_MAXINSNS ->
  check_insn op (pc m) len = true ->
  returns (bpf_switch bytes op m) (switch_post op m len).
Proof.
  intros Hbl Hb [Hjt Hjf Hk] Hm Hpc Hlen Hchk.
  destruct (check_insn_spec _ _ _ Hchk) as (Hv & Hja & Hj & Hmem).
  pose proof (wf_a _ Hm) as Ha. pose proof (wf_x _ Hm) as Hx.
  assert (forall t, BPF_CLASS (code op) = BPF_JMP -> code op <> Z.lor BPF_JMP BPF_JA ->
    returns (Ret (jump m (if t : bool then jt op else jf op))) (switch_post op m len)) as Hbr.
  { intros t E1 E2. destruct (Hj E1 E2). apply jump_post; try done; [by rewrite E1|]. destruct t; lia. }
  assert (code op = Z.lor BPF_JMP BPF_JA -> 0 <= u16 (k op) < len - pc m - 1) as Hjr.
  { intros E. specialize (Hja E). unfold BPF_MAXINSNS, word32 in *. rewrite u32_small in Hja by lia.
    rewrite u16_small; lia. }
  unfold bpf_switch.
  next_case.
  { destruct (_ || _) eqn:Eo.
    - split; [done|]. right. split_and!; try done. left. split; [done|]. lia.
    - unfold SIZEOF_DATA, word32 in *. rewrite copy_out_in by lia. rewrite bind_ret.
      apply set_a_post; [done| |by_op].
      pose proof (length_slice bytes (k op) 4 ltac:(lia) ltac:(lia) ltac:(lia)) as Hs.
      assert (Forall (fun b => 0 <= b < 256) (slice bytes (k op) 4)) as Hf.
      { unfold slice. by apply Forall_take, Forall_drop. }
      pose proof (le_join_bound _ Hf) as Hj4. rewrite Hs in Hj4. exact Hj4. }
  do 2 (next_case; [apply set_a_post; [done|word_ok|by_op]|]).
  next_case.
  { rewrite (proj2 (Z.leb_gt _ _)) by auto. apply get_mem_post; [done| |unfold word32 in *; auto with lia].
    intros. apply set_a_post; [done|word_ok|by_op]. }
  do 2 (next_case; [apply set_x_post; [done|word_ok|by_op]|]).
  next_case.
  { rewrite (proj2 (Z.leb_gt _ _)) by auto. apply get_mem_post; [done| |unfold word32 in *; auto with lia].
    intros. apply set_x_post; [done|word_ok|by_op]. }
  do 2 (next_case; [destruct (Z.leb_spec BPF_MEMWORDS (k op));
    [split; [done|]; right; split_and!; [done|done|]; right; split; [auto|done]
    |apply set_mem_post; [done|done|by_op|unfold word32 in *; lia]]|]).
  do 21 (next_case; [apply set_a_post; [done|word_ok|by_op]|]).
  next_case.
  { apply jump_post; try done; [by_op|]. auto. }
  do 8 (next_case; [apply Hbr; by_op|]).
  do 2 (next_case; [split; [done|]; left; split; [done|by_op]|]).
  next_case; [apply set_x_post; [done|word_ok|by_op]|].
  next_case; [apply set_a_post; [done|word_ok|by_op]|].
  exfalso. unfold valid_opcode, valid_opcodes in Hv. cbn [existsb] in Hv.
  repeat (apply orb_true_iff in Hv as [Hv|Hv]; [by apply Z.eqb_eq in Hv|]). done.
Qed.

Lemma check_from_lookup prog p len i op :
  check_from prog p len = true -> prog !! i = Some op -> check_insn op (p + Z.of_nat i) len = true.
Proof.
  revert p i. induction prog as [|o prog IH]; intros p i Hc Hi; [done|].
  cbn [check_from] in Hc. apply andb_true_iff in Hc as [Ho Hc]. destruct i as [|i].
  - injection Hi as ->. by replace (p + Z.of_nat 0) with p by lia.
  - replace (p + Z.of_nat (S i)) with (p + 1 + Z.of_nat i) by lia. by apply IH.
Qed.

(** A program the verifier accepts. *)
Record accepted (prog : list sock_filter) (len : Z) : Prop := {
  acc_len : Z.of_nat (length prog) = len;
  acc_wf : Forall wf_insn prog;
  acc_check : bpf_check prog len = Ret 0
}.

Lemma accepted_spec prog len : accepted prog len ->
  0 < len <= BPF_MAXINSNS /\
  (forall i op, prog !! i = Some op -> check_insn op (Z.of_nat i) len = true) /\
  (forall op, prog !! Z.to_nat (len - 1) = Some op -> BPF_CLASS (code op) = BPF_RET).
Proof.
  intros [Hl _ Hc]. unfold bpf_check in Hc. destruct (_ || _) eqn:Eb; [done|].
  destruct (check_from prog 0 len) eqn:Ef; [|done]. cbn [negb] in Hc.
  assert (0 < len <= BPF_MAXINSNS) by lia. split_and!; try lia.
  - intros i op Hi. by apply (check_from_lookup prog 0 len i).
  - intros op Hop. rewrite (rd_lookup _ _ op) in Hc by (done || lia). rewrite bind_ret in Hc.
    injection Hc as Hc. destruct (Z.eqb_spec (BPF_CLASS (code op)) BPF_RET); done.
Qed.

Definition run_post (prog : list sock_filter) (out : stop * Z) : Prop :=
  let '(why, value) := out in
  word32 value /\
  (why = ByRet \/
   (why = BadAccess /\ value = SECCOMP_RET_KILL_PROCESS /\ exists op, op ∈ prog /\ bad_access op)).

Lemma bpf_loop_ok bytes fuel prog len m :
  length bytes = Z.to_nat SIZEOF_DATA -> Forall (fun b => 0 <= b < 256) bytes ->
  accepted prog len -> wf_machine m -> 0 <= pc m < len -> len - pc m <= Z.of_nat fuel ->
  returns (bpf_loop bytes fuel prog len m) (run_post prog).
Proof.
  intros Hbl Hb Hacc. destruct (accepted_spec _ _ Hacc) as (Hlen & Hchk & Hlast).
  destruct Hacc as [Hl Hwf _]. revert m. induction fuel as [|fuel IH]; intros m Hm Hpc Hf; [lia|].
  cbn [bpf_loop]. rewrite (proj2 (Z.ltb_lt _ _)) by lia.
  destruct (lookup_lt_is_Some_2 prog (Z.to_nat (pc m))) as [op Hop]; [lia|].
  rewrite (rd_lookup _ _ op), bind_ret by (done || lia).
  pose proof (Hchk _ _ Hop) as Hc. rewrite Z2Nat.id in Hc by lia.
  eapply returns_bind.
  { apply (bpf_switch_ok bytes op m len); try done; [|lia]. by eapply Forall_lookup_1. }
  intros [why v|m'] Hpost.
  - destruct Hpost as [Hv [[-> _]|(-> & -> & Hbad)]]; cbn; split; auto. right. split_and!; try done.
    exists op. split; [by eapply list_elem_of_lookup_2|done].
  - destruct Hpost as (Hm' & Hret & Hnext).
    assert (pc m <> len - 1) by (intros E; rewrite E in Hop; by apply Hret, Hlast).
    unfold BPF_MAXINSNS in *. destruct Hm'. apply IH; cbn; rewrite ?u16_small by lia; [by split|lia..].
Qed.

Lemma data_bytes_ok d : length (args d) = 6%nat ->
  length (data_bytes d) = Z.to_nat SIZEOF_DATA /\ Forall (fun b => 0 <= b < 256) (data_bytes d).
Proof.
  intros Hn. unfold data_bytes. split.
  - rewrite !length_app, !length_le_bytes.
    assert (forall l : list Z, length (l ≫= le_bytes 8) = (8 * length l)%nat) as E.
    { induction l as [|v l IHl]; [done|]. rewrite bind_cons, length_app, length_le_bytes, IHl. cbn. lia. }
    by rewrite E, Hn.
  - repeat (apply Forall_app; split; [apply le_bytes_byte|]).
    clear Hn. induction (args d) as [|v l IHl]; [constructor|]. rewrite bind_cons. apply Forall_app.
    split; [apply le_bytes_byte|]. done.
Qed.

Lemma bpf_run_why_ok prog len d : accepted prog len -> length (args d) = 6%nat ->
  returns (bpf_run_why prog len d) (run_post prog).
Proof.
  intros Hacc Hd. destruct (accepted_spec _ _ Hacc) as (Hlen & _). destruct (data_bytes_ok d Hd).
  apply bpf_loop_ok; try done; cbn; try lia. split; cbn; [done|done|done|]. by apply Forall_replicate.
Qed.

Lemma bpf_run_ok prog len d : accepted prog len -> length (args d) = 6%nat ->
  returns (bpf_run prog len d) word32.
Proof.
  intros. eapply returns_bind; [by apply bpf_run_why_ok|]. intros [why v] [? _]. done.
Qed.

(** ** Lemmas: filter chains *)

(** Following [prev] from [ptr] visits exactly [ids]. *)
Fixpoint chain (fs : gmap Z seccomp_filter) (ptr : option Z) (ids : list Z) : Prop :=
  match ids with
  | [] => ptr = None
  | id :: rest => ptr = Some id /\ exists f, fs !! id = Some f /\ chain fs (prev f) rest
  end.

Lemma chain_in fs ptr ids id : chain fs ptr ids -> id ∈ ids -> is_Some (fs !! id).
Proof.
  revert ptr. induction ids as [|i ids IH]; intros ptr Hc Hid; [by apply elem_of_nil in Hid|].
  destruct Hc as (_ & f & Hf & Hc). apply elem_of_cons in Hid as [->|Hid]; eauto.
Qed.

(** A chain only depends on the [prev] fields along it. *)
Lemma chain_ext fs fs' ptr ids : chain fs ptr ids ->
  (forall id f, id ∈ ids -> fs !! id = Some f -> exists f', fs' !! id = Some f' /\ prev f' = prev f) ->
  chain fs' ptr ids.
Proof.
  revert ptr. induction ids as [|i ids IH]; intros ptr Hc Hext; [done|].
  destruct Hc as (-> & f & Hf & Hc). split; [done|].
  destruct (Hext i f) as (f' & Hf' & E); [by left|done|]. exists f'. split; [done|]. rewrite E.
  apply IH; [done|]. intros id g Hid. apply Hext. by right.
Qed.

Lemma chain_fuel fs ptr ids : chain fs ptr ids -> NoDup ids -> (length ids <= size fs)%nat.
Proof.
  intros Hc Hnd. rewrite <- (size_dom fs), <- (size_list_to_set (C := gset Z) ids Hnd).
  apply subseteq_size. intros id Hid. apply elem_of_list_to_set in Hid.
  apply elem_of_dom. by eapply chain_in.
Qed.

(** What the filter at an address answers. *)
Definition filter_result (fs : gmap Z seccomp_filter) (data : seccomp_data) (id : Z) : Z :=
  match fs !! id with
  | Some f => match bpf_run (program f) (filter_length f) data with Ret v => v | _ => 0 end
  | None => 0
  end.

Definition more_severe (best result : Z) : Z :=
  if action_rank best <? action_rank result then result else best.
Definition most_severe (results : list Z) : Z := foldl more_severe SECCOMP_RET_ALLOW results.

Definition all_accepted (fs : gmap Z seccomp_filter) : Prop :=
  forall id f, fs !! id = Some f -> accepted (program f) (filter_length f).

Lemma decide_loop_ok fuel fs ptr ids data best : chain fs ptr ids -> all_accepted fs ->
  length (args data) = 6%nat -> (length ids <= fuel)%nat ->
  decide_loop fuel fs ptr data best (action_rank best) =
  Ret (foldl more_severe best (filter_result fs data <$> ids)).
Proof.
  intros Hc Hacc Hd. revert fuel ptr best Hc. induction ids as [|id ids IH]; intros fuel ptr best Hc Hf.
  { cbn in Hc. subst. by destruct fuel. }
  destruct Hc as (-> & f & Hf' & Hc). destruct fuel as [|fuel]; [cbn in Hf; lia|].
  cbn [decide_loop]. unfold deref. rewrite Hf', bind_ret.
  pose proof (bpf_run_ok _ _ data (Hacc _ _ Hf') Hd) as Hr.
  apply returns_exists in Hr as (v & Ev & _). rewrite Ev, bind_ret.
  assert (filter_result fs data id = v) as Efr by (unfold filter_result; by rewrite Hf', Ev).
  cbn [fmap list_fmap foldl]. rewrite Efr. unfold more_severe at 2. cbn in Hf.
  destruct (action_rank best <? action_rank v); apply IH; try done; lia.
Qed.

Lemma severe_rank best results :
  action_rank (foldl more_severe best results) =
  foldr (fun r n => Z.max (action_rank r) n) (action_rank best) results.
Proof.
  revert best. induction results as [|r rs IH]; intros best; [done|]. cbn [foldl foldr]. rewrite IH.
  clear IH. unfold more_severe. destruct (Z.ltb_spec (action_rank best) (action_rank r)) as [Hlt|Hge].
  - induction rs as [|r' rs IH]; cbn [foldr] in *; lia.
  - induction rs as [|r' rs IH]; cbn [foldr] in *; lia.
Qed.

Lemma severe_in best results :
  foldl more_severe best results = best \/ foldl more_severe best results ∈ results.
Proof.
  revert best. induction results as [|r rs IH]; intros best; [by left|]. cbn [foldl].
  destruct (IH (more_severe best r)) as [->|Hin]; [|right; by right].
  unfold more_severe. destruct (_ <? _); [right; left|by left].
Qed.

Lemma severe_least best results r : r ∈ results ->
  action_rank r <= action_rank (foldl more_severe best results).
Proof.
  intros Hr. rewrite severe_rank. induction results as [|r' rs IH]; [by apply elem_of_nil in Hr|].
  cbn [foldr]. apply elem_of_cons in Hr as [->|Hr]; [lia|]. specialize (IH Hr). lia.
Qed.

(** *** Reference counts *)

Lemma inherit_loop_ok fuel fs ptr ids : chain fs ptr ids -> NoDup ids -> (length ids <= fuel)%nat ->
  exists fs', inherit_loop fuel ptr fs = Ret fs' /\
  forall id, fs' !! id =
    (fun f => if decide (id ∈ ids) then set_refs f (u32 (refs f + 1)) else f) <$> fs !! id.
Proof.
  revert fuel fs ptr. induction ids as [|i ids IH]; intros fuel fs ptr Hc Hnd Hf.
  { cbn in Hc. subst. exists fs. split; [by destruct fuel|]. intros id. destruct (fs !! id); [|done].
    cbn. rewrite decide_False; [done|]. apply not_elem_of_nil. }
  destruct Hc as (-> & f & Hfi & Hc). apply list.NoDup_cons in Hnd as [Hni Hnd].
  destruct fuel as [|fuel]; [cbn in Hf; lia|]. cbn [inherit_loop]. unfold deref. rewrite Hfi, bind_ret.
  destruct (IH fuel (<[i:=set_refs f (u32 (refs f + 1))]> fs) (prev f)) as (fs' & -> & Hl).
  - apply (chain_ext fs); [done|]. intros id g Hid Hg. exists g. split; [|done].
    rewrite lookup_insert_ne; [done|]. by intros ->.
  - done.
  - cbn in Hf. lia.
  - exists fs'. split; [done|]. intros id. rewrite Hl. destruct (decide (id = i)) as [->|Hne].
    + rewrite lookup_insert_eq, Hfi. cbn. rewrite decide_False by done.
      rewrite decide_True by (by left). done.
    + rewrite lookup_insert_ne by done. destruct (fs !! id) as [g|]; [|done]. cbn.
      destruct (decide (id ∈ ids)) as [Hin|Hin].
      * rewrite decide_True; [done|by right].
      * rewrite decide_False; [done|]. rewrite elem_of_cons. tauto.
Qed.

Lemma release_loop_ok fuel fs ptr ids : chain fs ptr ids -> NoDup ids -> (length ids <= fuel)%nat ->
  exists fs', release_loop fuel ptr fs = Ret fs' /\
  forall id, fs' !! id =
    f ← fs !! id;
    if decide (id ∈ ids) then
      if u32 (refs f - 1) =? 0 then None else Some (set_refs f (u32 (refs f - 1)))
    else Some f.
Proof.
  revert fuel fs ptr. induction ids as [|i ids IH]; intros fuel fs ptr Hc Hnd Hf.
  { cbn in Hc. subst. exists fs. split; [by destruct fuel|]. intros id. destruct (fs !! id); [|done].
    cbn. rewrite decide_False; [done|]. apply not_elem_of_nil. }
  destruct Hc as (-> & f & Hfi & Hc). apply list.NoDup_cons in Hnd as [Hni Hnd].
  destruct fuel as [|fuel]; [cbn in Hf; lia|]. cbn [release_loop]. unfold deref. rewrite Hfi, bind_ret.
  set (fs1 := if u32 (refs f - 1) =? 0 then delete i fs else _).
  assert (forall id, id <> i -> fs1 !! id = fs !! id) as Hother.
  { intros id Hne. unfold fs1. destruct (_ =? _); [by rewrite lookup_delete_ne|by rewrite lookup_insert_ne]. }
  destruct (IH fuel fs1 (prev f)) as (fs' & -> & Hl).
  - apply (chain_ext fs); [done|]. intros id g Hid Hg. exists g. split; [|done].
    rewrite Hother; [done|]. by intros ->.
  - done.
  - cbn in Hf. lia.
  - exists fs'. split; [done|]. intros id. rewrite Hl. destruct (decide (id = i)) as [->|Hne].
    + rewrite Hfi. cbn. rewrite (decide_True (P := i ∈ i :: ids)) by (by left). unfold fs1.
      destruct (_ =? _); [by rewrite lookup_delete_eq|]. rewrite lookup_insert_eq. cbn.
      by rewrite decide_False.
    + rewrite Hother by done. destruct (fs !! id) as [g|]; [|done]. cbn.
      destruct (decide (id ∈ ids)) as [Hin|Hin].
      * rewrite (decide_True (P := id ∈ i :: ids)); [done|by right].
      * rewrite (decide_False (P := id ∈ i :: ids)); [done|]. rewrite elem_of_cons. tauto.
Qed.

(** The number of processes whose chain, recorded in [G], has the filter. *)
Definition holding (id : Z) (G : gmap Z (list Z)) : gmap Z (list Z) :=
  filter (fun kv => id ∈ kv.2) G.
Definition holders (G : gmap Z (list Z)) (id : Z) : Z := Z.of_nat (size (holding id G)).
Definition b2z (b : bool) : Z := if b then 1 else 0.

Lemma holders_insert G pid ids id :
  holders (<[pid := ids]> G) id = holders (delete pid G) id + b2z (bool_decide (id ∈ ids)).
Proof.
  unfold holders, holding. rewrite <- insert_delete_eq. case_bool_decide as Hin.
  - rewrite map_filter_insert_True by done. rewrite map_size_insert_None; [cbn [b2z]; lia|].
    apply map_lookup_filter_None. left. apply lookup_delete_eq.
  - rewrite map_filter_insert_False by done. rewrite delete_delete_eq. cbn. lia.
Qed.

Lemma holders_split G pid ids id : G !! pid = Some ids ->
  holders G id = holders (delete pid G) id + b2z (bool_decide (id ∈ ids)).
Proof. intros E. rewrite <- (insert_id G pid ids E) at 1. apply holders_insert. Qed.

Lemma holders_zero G id : (forall pid ids, G !! pid = Some ids -> id ∉ ids) -> holders G id = 0.
Proof.
  intros H. unfold holders, holding. rewrite (proj2 (map_size_empty_iff _)); [done|].
  apply map_empty. intros pid. apply map_lookup_filter_None. right. intros ids E. by eapply H.
Qed.

Lemma holders_bound G id : 0 <= holders G id <= Z.of_nat (size G).
Proof.
  split; [unfold holders; lia|]. unfold holders, holding.
  pose proof (map_filter_subseteq (fun kv : Z * list Z => id ∈ kv.2) G) as H.
  apply map_subseteq_size in H. lia.
Qed.

(** [G] records the chain of every process. *)
Record sys_inv (s : system) (G : gmap Z (list Z)) : Prop := {
  si_chain : forall pid p, processes s !! pid = Some p ->
    exists ids, G !! pid = Some ids /\ chain (filters s) (seccomp_filters p) ids /\ NoDup ids /\
      (seccomp_mode p = SECCOMP_MODE_FILTER <-> ids <> []);
  si_dom : dom G = dom (processes s);
  si_refs : forall id f, filters s !! id = Some f -> refs f = holders G id /\ 0 < holders G id;
  si_acc : all_accepted (filters s);
  si_few : Z.of_nat (size (processes s)) < 2 ^ 32
}.

Lemma si_size s G : sys_inv s G -> Z.of_nat (size G) < 2 ^ 32.
Proof. intros H. rewrite <- size_dom, (si_dom _ _ H), size_dom. apply H. Qed.

Lemma si_lookup s G pid p ids : sys_inv s G -> processes s !! pid = Some p -> G !! pid = Some ids ->
  chain (filters s) (seccomp_filters p) ids /\ NoDup ids /\
  (seccomp_mode p = SECCOMP_MODE_FILTER <-> ids <> []).
Proof.
  intros H Hp Hids. destruct (si_chain _ _ H _ _ Hp) as (ids' & E & Hc). congruence.
Qed.

(** A filter that a recorded chain mentions is held by its process. *)
Lemma holders_pos G pid ids id : G !! pid = Some ids -> id ∈ ids -> 0 < holders G id.
Proof.
  intros E Hin. rewrite (holders_split G pid ids id E), bool_decide_eq_true_2 by done.
  pose proof (holders_bound (delete pid G) id). cbn. lia.
Qed.

Lemma size_insert_le (m : gmap Z process) k v :
  Z.of_nat (size (<[k := v]> m)) <= Z.of_nat (size m) + 1.
Proof.
  destruct (m !! k) as [v'|] eqn:E.
  - rewrite map_size_insert_Some by eauto. lia.
  - rewrite map_size_insert_None by done. lia.
Qed.

(** *** The operations keep the invariant *)

(** Replacing the record of one process, with its new chain [ids]. *)
Lemma sys_inv_update s G fs pid p ids : sys_inv s G ->
  (forall pid' ids', pid' <> pid -> G !! pid' = Some ids' ->
     forall id f, id ∈ ids' -> filters s !! id = Some f -> exists f', fs !! id = Some f' /\ prev f' = prev f) ->
  chain fs (seccomp_filters p) ids -> NoDup ids -> (seccomp_mode p = SECCOMP_MODE_FILTER <-> ids <> []) ->
  (forall id f, fs !! id = Some f ->
     refs f = holders (<[pid := ids]> G) id /\ 0 < holders (<[pid := ids]> G) id) ->
  all_accepted fs -> Z.of_nat (size (<[pid := p]> (processes s))) < 2 ^ 32 ->
  sys_inv (System fs (<[pid := p]> (processes s))) (<[pid := ids]> G).
Proof.
  intros Hs Hother Hc Hnd Hm Hrefs Hacc Hfew. split; cbn [filters processes]; try done.
  - intros pid' p' Hp'. destruct (decide (pid' = pid)) as [->|Hne].
    + rewrite lookup_insert_eq in Hp'. injection Hp' as <-. exists ids. by rewrite lookup_insert_eq.
    + rewrite lookup_insert_ne in Hp' by done. rewrite lookup_insert_ne by done.
      destruct (si_chain _ _ Hs _ _ Hp') as (ids' & E & Hc' & Hnd' & Hm'). exists ids'.
      split_and!; try done; try tauto. by apply (chain_ext (filters s)); [|by apply (Hother pid')].
  - by rewrite !dom_insert_L, (si_dom _ _ Hs).
Qed.

Lemma attach_inv s G pid p address prog len : sys_inv s G -> processes s !! pid = Some p ->
  seccomp_mode p <> SECCOMP_MODE_STRICT -> filters s !! address = None -> accepted prog len ->
  exists ids, G !! pid = Some ids /\
  (attach_filter pid p address (Filter None 1 len prog) s).1 = 0 /\
  sys_inv (attach_filter pid p address (Filter None 1 len prog) s).2 (<[pid := address :: ids]> G).
Proof.
  intros Hs Hp Hm Hfresh Hacc. destruct (si_chain _ _ Hs _ _ Hp) as (ids & Hids & Hc & Hnd & _).
  exists ids. split; [done|].
  assert (attach_filter pid p address (Filter None 1 len prog) s =
    (0, System (<[address := Filter (seccomp_filters p) 1 len prog]> (filters s))
          (<[pid := set_seccomp p SECCOMP_MODE_FILTER (Some address)]> (processes s)))) as ->.
  { unfold attach_filter. by destruct (seccomp_mode p). }
  split; [done|].
  assert (forall pid' ids', G !! pid' = Some ids' -> address ∉ ids') as Hnew.
  { intros pid' ids' E Hin. destruct (proj1 (elem_of_dom (processes s) pid')) as [p' Hp'].
    { rewrite <- (si_dom _ _ Hs). by apply elem_of_dom. }
    destruct (si_lookup _ _ _ _ _ Hs Hp' E) as [Hc' _]. destruct (chain_in _ _ _ _ Hc' Hin). congruence. }
  assert (forall id f, filters s !! id = Some f ->
    <[address := Filter (seccomp_filters p) 1 len prog]> (filters s) !! id = Some f) as Hkeep.
  { intros id f Hf. rewrite lookup_insert_ne; [done|]. intros ->. congruence. }
  apply (sys_inv_update s); try done.
  - intros pid' ids' _ _ id f _ Hf. exists f. auto.
  - split; [done|]. eexists. split; [apply lookup_insert_eq|]. cbn.
    apply (chain_ext (filters s)); [done|]. intros id f _ Hf. exists f. auto.
  - constructor; [by eapply Hnew|done].
  - intros id f Hf. rewrite holders_insert. destruct (decide (id = address)) as [->|Hne].
    + rewrite lookup_insert_eq in Hf. injection Hf as <-. cbn [refs].
      rewrite holders_zero, bool_decide_eq_true_2; [done|by left|].
      intros pid' ids' E. apply lookup_delete_Some in E as [_ E]. by eapply Hnew.
    + rewrite lookup_insert_ne in Hf by done. destruct (si_refs _ _ Hs _ _ Hf) as [Hr Hpos].
      rewrite (holders_split G pid ids id Hids) in Hr, Hpos.
      rewrite (bool_decide_ext (id ∈ address :: ids) (id ∈ ids)); [done|]. rewrite elem_of_cons. tauto.
  - intros id f Hf. destruct (decide (id = address)) as [->|Hne].
    + rewrite lookup_insert_eq in Hf. by injection Hf as <-.
    + rewrite lookup_insert_ne in Hf by done. by apply (si_acc _ _ Hs id).
  - rewrite map_size_insert_Some by eauto. apply Hs.
Qed.

Lemma inherit_inv s G child_pid child parent_pid parent : sys_inv s G ->
  processes s !! parent_pid = Some parent -> processes s !! child_pid = None ->
  Z.of_nat (size (processes s)) < 2 ^ 32 - 1 ->
  exists ids fs, G !! parent_pid = Some ids /\
  seccomp_inherit child_pid child parent_pid s =
    Ret (System fs (<[child_pid := set_seccomp child (seccomp_mode parent) (seccomp_filters parent)]>
                      (processes s))) /\
  (forall id, (fun f => (prev f, filter_length f, program f)) <$> fs !! id =
              (fun f => (prev f, filter_length f, program f)) <$> filters s !! id) /\
  sys_inv (System fs (<[child_pid := set_seccomp child (seccomp_mode parent) (seccomp_filters parent)]>
                        (processes s))) (<[child_pid := ids]> G).
Proof.
  intros Hs Hp Hchild Hfew. destruct (si_chain _ _ Hs _ _ Hp) as (ids & Hids & Hc & Hnd & Hm).
  destruct (inherit_loop_ok (size (filters s)) _ _ _ Hc Hnd (chain_fuel _ _ _ Hc Hnd)) as (fs & Efs & Hfs).
  exists ids, fs. unfold seccomp_inherit. rewrite Hp, Efs, bind_ret. split; [done|]. split; [done|].
  assert (forall id, (fun f => (prev f, filter_length f, program f)) <$> fs !! id =
              (fun f => (prev f, filter_length f, program f)) <$> filters s !! id) as Hsame.
  { intros id. rewrite Hfs. destruct (filters s !! id); [|done]. cbn. by destruct (decide _). }
  split; [done|].
  assert (G !! child_pid = None) as Hg.
  { apply not_elem_of_dom. rewrite (si_dom _ _ Hs). by apply not_elem_of_dom. }
  assert (forall id f, filters s !! id = Some f -> exists f', fs !! id = Some f' /\ prev f' = prev f) as Hprev.
  { intros id f Hf. specialize (Hfs id). rewrite Hf in Hfs. cbn in Hfs. eexists. split; [done|].
    by destruct (decide _). }
  apply (sys_inv_update s); try done.
  - intros pid' ids' _ _ id f _. apply Hprev.
  - apply (chain_ext (filters s)); [done|]. intros id f _. apply Hprev.
  - intros id f Hf. rewrite holders_insert, (delete_id G child_pid Hg). rewrite Hfs in Hf.
    destruct (filters s !! id) as [f0|] eqn:E0; [|done]. cbn in Hf. injection Hf as <-.
    destruct (si_refs _ _ Hs _ _ E0) as [Hr Hpos]. pose proof (holders_bound G id) as Hb.
    assert (size G = size (processes s)) as Esz by (by rewrite <- !size_dom, (si_dom _ _ Hs)).
    destruct (decide (id ∈ ids)).
    + rewrite bool_decide_eq_true_2 by done. cbn. rewrite u32_small by lia. lia.
    + rewrite bool_decide_eq_false_2 by done. cbn. lia.
  - intros id f Hf. rewrite Hfs in Hf. destruct (filters s !! id) as [f0|] eqn:E0; [|done].
    cbn in Hf. injection Hf as <-. pose proof (si_acc _ _ Hs _ _ E0). by destruct (decide _).
  - rewrite map_size_insert_None by done. lia.
Qed.

Lemma release_inv s G pid p : sys_inv s G -> processes s !! pid = Some p ->
  exists ids fs, G !! pid = Some ids /\
  seccomp_release pid s =
    Ret (System fs (<[pid := set_seccomp p SECCOMP_MODE_DISABLED None]> (processes s))) /\
  (forall id f', fs !! id = Some f' -> exists f, filters s !! id = Some f /\
     (prev f', filter_length f', program f') = (prev f, filter_length f, program f)) /\
  sys_inv (System fs (<[pid := set_seccomp p SECCOMP_MODE_DISABLED None]> (processes s)))
    (<[pid := []]> G).
Proof.
  intros Hs Hp. destruct (si_chain _ _ Hs _ _ Hp) as (ids & Hids & Hc & Hnd & Hm).
  destruct (release_loop_ok (size (filters s)) _ _ _ Hc Hnd (chain_fuel _ _ _ Hc Hnd)) as (fs & Efs & Hfs).
  exists ids, fs. unfold seccomp_release. rewrite Hp, Efs, bind_ret. split; [done|]. split; [done|].
  pose proof (si_size _ _ Hs) as Hsz.
  assert (forall id f', fs !! id = Some f' -> exists f, filters s !! id = Some f /\
     (prev f', filter_length f', program f') = (prev f, filter_length f, program f)) as Hsub.
  { intros id f' Hf'. rewrite Hfs in Hf'. destruct (filters s !! id) as [f|]; [|done]. exists f. split; [done|].
    cbn in Hf'. destruct (decide _); [|by injection Hf' as <-]. destruct (_ =? _); [done|]. by injection Hf' as <-. }
  split; [done|]. apply (sys_inv_update s); try done.
  - intros pid' ids' Hne Hids' id f Hin Hf. specialize (Hfs id). rewrite Hf in Hfs. cbn in Hfs.
    destruct (si_refs _ _ Hs _ _ Hf) as [Hr _]. rewrite (holders_split G pid ids id Hids) in Hr.
    assert (0 < holders (delete pid G) id) as Hpos.
    { apply (holders_pos _ pid' ids'); [|done]. by rewrite lookup_delete_ne. }
    pose proof (holders_bound (delete pid G) id) as Hb. pose proof (map_size_delete pid G) as Hsd.
    rewrite Hids in Hsd.
    destruct (decide (id ∈ ids)); [|by exists f].
    rewrite bool_decide_eq_true_2 in Hr by done. cbn in Hr.
    rewrite u32_small, (proj2 (Z.eqb_neq _ _)) in Hfs by lia. eexists. split; [done|done].
  - constructor.
  - intros id f' Hf'. rewrite holders_insert, bool_decide_eq_false_2 by apply not_elem_of_nil. cbn.
    rewrite Hfs in Hf'. destruct (filters s !! id) as [f|] eqn:E0; [|done]. cbn in Hf'.
    destruct (si_refs _ _ Hs _ _ E0) as [Hr Hpos]. pose proof (holders_bound G id) as Hb.
    rewrite (holders_split G pid ids id Hids) in Hr, Hpos, Hb. pose proof (holders_bound (delete pid G) id).
    destruct (decide (id ∈ ids)).
    + rewrite bool_decide_eq_true_2 in Hr, Hpos, Hb by done. cbn in Hr, Hpos, Hb.
      rewrite u32_small in Hf' by lia. destruct (Z.eqb_spec (refs f - 1) 0); [done|].
      injection Hf' as <-. cbn. lia.
    + rewrite bool_decide_eq_false_2 in Hr, Hpos by done. cbn in Hr, Hpos. injection Hf' as <-. lia.
  - intros id f' Hf'. destruct (Hsub _ _ Hf') as (f & Hf & [= _ E1 E2]). rewrite E1, E2.
    by apply (si_acc _ _ Hs id).
  - rewrite map_size_insert_Some by eauto. apply Hs.
Qed.

Lemma strict_inv s G pid p : sys_inv s G -> processes s !! pid = Some p ->
  seccomp_mode p <> SECCOMP_MODE_FILTER ->
  sys_inv (System (filters s) (<[pid := set_seccomp p SECCOMP_MODE_STRICT (seccomp_filters p)]> (processes s))) G.
Proof.
  intros Hs Hp Hm. destruct (si_chain _ _ Hs _ _ Hp) as (ids & Hids & Hc & Hnd & Hmi).
  rewrite <- (insert_id G pid ids Hids). apply (sys_inv_update s); try done.
  - eauto.
  - cbn. split; [done|]. intros Hne. by apply Hmi in Hne.
  - rewrite (insert_id G pid ids Hids). apply Hs.
  - apply Hs.
  - rewrite map_size_insert_Some by eauto. apply Hs.
Qed.

(** The table forgets a process that holds no filters. *)
Lemma reap_inv s G pid p : sys_inv s G -> processes s !! pid = Some p ->
  seccomp_mode p = SECCOMP_MODE_DISABLED -> sys_inv (System (filters s) (delete pid (processes s))) (delete pid G).
Proof.
  intros Hs Hp Hm. destruct (si_chain _ _ Hs _ _ Hp) as (ids & Hids & _ & _ & Hmi).
  assert (ids = []) as -> by (destruct ids; [done|]; destruct Hmi as [_ Hmi]; rewrite Hmi in Hm; done).
  split; cbn [filters processes].
  - intros pid' p' Hp'. apply lookup_delete_Some in Hp' as [Hne Hp'].
    rewrite lookup_delete_ne by done. by apply (si_chain _ _ Hs).
  - by rewrite !dom_delete_L, (si_dom _ _ Hs).
  - intros id f Hf. destruct (si_refs _ _ Hs _ _ Hf) as [Hr Hpos].
    rewrite (holders_split G pid [] id Hids), bool_decide_eq_false_2 in Hr, Hpos by apply not_elem_of_nil.
    cbn in Hr, Hpos. lia.
  - apply Hs.
  - rewrite map_size_delete_Some by eauto. pose proof (si_few _ _ Hs). lia.
Qed.

(** ** Lemmas: histories *)

Inductive event :=
  | SetFilter (pid : Z)
  | SetStrict (pid : Z)
  | Fork (child parent : Z)
  | Exit (pid : Z)
  | Reap (pid : Z).

(** What the user passes is a list of instructions of the announced length. *)
Definition user_ok (user : option (Z * option (list sock_filter))) : Prop :=
  forall len prog, user = Some (len, Some prog) ->
  Z.of_nat (length prog) = len /\ Forall wf_insn prog.

Inductive sec_step (s : system) : event -> system -> Prop :=
  | step_filter pid flags user address status s' :
      user_ok user -> filters s !! address = None ->
      seccomp_set_mode_filter pid flags user (Some address) s = Ret (status, s') ->
      sec_step s (SetFilter pid) s'
  | step_strict pid :
      sec_step s (SetStrict pid) (seccomp_set_mode_strict pid s).2
  | step_fork child_pid child parent_pid s' :
      processes s !! child_pid = None -> Z.of_nat (size (processes s)) < 2 ^ 32 - 1 ->
      seccomp_inherit child_pid child parent_pid s = Ret s' ->
      sec_step s (Fork child_pid parent_pid) s'
  | step_exit pid s' : seccomp_release pid s = Ret s' -> sec_step s (Exit pid) s'
  | step_reap pid p :
      processes s !! pid = Some p -> seccomp_mode p = SECCOMP_MODE_DISABLED ->
      sec_step s (Reap pid) (System (filters s) (delete pid (processes s))).

(** The system with init as its only process. *)
Definition boot_system : system :=
  System ∅ {[ 1 := Process SECCOMP_MODE_DISABLED None false 0 ]}.

Inductive history : system -> Prop :=
  | history_boot : history boot_system
  | history_step s e s' : history s -> sec_step s e s' -> history s'.

Lemma boot_inv : sys_inv boot_system {[ 1 := [] ]}.
Proof.
  split; cbn [boot_system filters processes].
  - intros pid p Hp. apply lookup_singleton_Some in Hp as [<- <-]. exists []. rewrite lookup_singleton_eq.
    split_and!; try done. constructor.
  - by rewrite !dom_singleton_L.
  - intros id f Hf. by rewrite lookup_empty in Hf.
  - intros id f Hf. by rewrite lookup_empty in Hf.
  - rewrite map_size_singleton. lia.
Qed.

(** The outcome of installing a filter. *)
Lemma set_filter_cases s G pid flags user address : sys_inv s G -> user_ok user ->
  filters s !! address = None ->
  exists status s', seccomp_set_mode_filter pid flags user (Some address) s = Ret (status, s') /\
  ((status <> 0 /\ s' = s) \/
   (exists p len prog, processes s !! pid = Some p /\ seccomp_mode p <> SECCOMP_MODE_STRICT /\
      accepted prog len /\ attach_filter pid p address (Filter None 1 len prog) s = (status, s'))).
Proof.
  intros Hs Huser Hfresh. unfold seccomp_set_mode_filter.
  destruct (processes s !! pid) as [p|] eqn:Ep; [|by do 2 eexists; split; [done|left]].
  destruct (negb _); [by do 2 eexists; split; [done|left]|].
  destruct (_ && _); [by do 2 eexists; split; [done|left]|].
  rewrite bool_decide_eq_true_2 by eauto. unfold filter_copy_from_user.
  destruct user as [[len insns]|]; [|by do 2 eexists; split; [done|left]].
  destruct (_ || _) eqn:El; [by do 2 eexists; split; [done|left]|]. cbn [negb].
  destruct insns as [prog|]; [|by do 2 eexists; split; [done|left]].
  destruct (Huser len prog eq_refl) as [Hlen Hwf].
  assert (exists status, bpf_check prog len = Ret status) as [status Ec].
  { unfold bpf_check. rewrite El. destruct (negb _); [eauto|].
    destruct (lookup_lt_is_Some_2 prog (Z.to_nat (len - 1))) as [op Hop]; [lia|].
    rewrite (rd_lookup _ _ op) by (done || lia). eauto. }
  rewrite Ec, !bind_ret. destruct (Z.eqb_spec status 0) as [->|]; cbn [negb];
    [|by do 2 eexists; split; [done|left]].
  destruct (decide (seccomp_mode p = SECCOMP_MODE_STRICT)) as [E|E].
  - unfold attach_filter. rewrite E. by do 2 eexists; split; [done|left].
  - destruct (attach_filter pid p address (Filter None 1 len prog) s) as [st s'] eqn:Ea.
    exists st, s'. split; [done|]. right. exists p, len, prog. by repeat split.
Qed.

Lemma step_inv s G e s' : sys_inv s G -> sec_step s e s' -> exists G', sys_inv s' G'.
Proof.
  intros Hs [pid flags user address status s1 Huser Hfresh E|pid|cpid child ppid s1 Hc Hfew E|pid s1 E|pid p Hp Hm].
  - destruct (set_filter_cases s G pid flags user address Hs Huser Hfresh)
      as (st & s2 & E' & [(_ & ->)|(p & len & prog & Hp & Hm & Hacc & Ea)]);
      rewrite E in E'; injection E' as -> ->; [by exists G|].
    destruct (attach_inv s G pid p address prog len Hs Hp Hm Hfresh Hacc) as (ids & _ & _ & Hi).
    rewrite Ea in Hi. eauto.
  - unfold seccomp_set_mode_strict. destruct (processes s !! pid) as [p|] eqn:Ep; [|by exists G].
    exists G. destruct (seccomp_mode p) eqn:Em; cbn; try done; apply strict_inv; congruence.
  - destruct (processes s !! ppid) as [parent|] eqn:Ep; [|unfold seccomp_inherit in E; by rewrite Ep in E].
    destruct (inherit_inv s G cpid child ppid parent Hs Ep Hc Hfew) as (ids & fs & _ & E' & _ & Hi).
    rewrite E in E'. injection E' as ->. eauto.
  - destruct (processes s !! pid) as [p|] eqn:Ep; [|unfold seccomp_release in E; by rewrite Ep in E].
    destruct (release_inv s G pid p Hs Ep) as (ids & fs & _ & E' & _ & Hi).
    rewrite E in E'. injection E' as ->. eauto.
  - exists (delete pid G). by apply (reap_inv s G pid p).
Qed.

Lemma history_inv s : history s -> exists G, sys_inv s G.
Proof.
  induction 1 as [|s e s' _ [G HG] Hstep]; [eexists; apply boot_inv|]. by eapply step_inv.
Qed.

(** ** Lemmas: decisions *)

Definition decision (mode : seccomp_mode_t) (results : list Z) (native_nr : Z) : Z :=
  match mode with
  | SECCOMP_MODE_DISABLED => SECCOMP_RET_ALLOW
  | SECCOMP_MODE_STRICT =>
      if strict_allows native_nr then SECCOMP_RET_ALLOW else SECCOMP_RET_KILL_PROCESS
  | SECCOMP_MODE_FILTER => most_severe results
  end.

Lemma decide_eq s G pid p ids frame native_nr : sys_inv s G ->
  processes s !! pid = Some p -> G !! pid = Some ids -> length (frame_args frame) = 6%nat ->
  seccomp_decide pid frame native_nr s =
  Ret (decision (seccomp_mode p) (filter_result (filters s) (frame_data frame native_nr) <$> ids) native_nr).
Proof.
  intros Hs Hp Hids Ha. destruct (si_lookup _ _ _ _ _ Hs Hp Hids) as (Hc & Hnd & _).
  unfold seccomp_decide. rewrite Hp. destruct (seccomp_mode p); [done|done|].
  change 0 with (action_rank SECCOMP_RET_ALLOW). apply decide_loop_ok; [done|apply Hs|done|].
  by eapply chain_fuel.
Qed.

Lemma rank_bound r : 0 <= action_rank r <= 7.
Proof. unfold action_rank. repeat case_cmp; lia. Qed.

(** A system call runs exactly when the action is ALLOW or LOG. *)
Lemma enforce_rank r : enforce r = RunSyscall <-> action_rank r <= 1.
Proof.
  unfold enforce, action_rank. set (f := Z.land r SECCOMP_RET_ACTION_FULL).
  assert (forall v, f =? v = true -> f = v) as Hf by (intros v; apply Z.eqb_eq).
  destruct (f =? SECCOMP_RET_ALLOW) eqn:E1; [apply Hf in E1; rewrite E1; cbn; split; [lia|done]|].
  destruct (f =? SECCOMP_RET_LOG) eqn:E2; [apply Hf in E2; rewrite E2; cbn; split; [lia|done]|].
  cbn [negb andb]. split.
  - destruct (f =? SECCOMP_RET_ERRNO); [done|]. destruct (f =? SECCOMP_RET_TRAP); [done|].
    by destruct (_ || _).
  - repeat case_cmp; lia.
Qed.

(** How severely the next system call of a process is judged. *)
Definition severity (s : system) (pid : Z) (frame : syscall_frame) (native_nr : Z) : Z :=
  match seccomp_decide pid frame native_nr s with
  | Ret v => action_rank v
  | _ => -1
  end.

(** Filters whose code is the same give the same results. *)
Definition same_code (fs fs' : gmap Z seccomp_filter) (ids : list Z) : Prop :=
  forall id, id ∈ ids ->
  (fun f => (filter_length f, program f)) <$> fs !! id = (fun f => (filter_length f, program f)) <$> fs' !! id.

Lemma results_same fs fs' data ids : same_code fs fs' ids ->
  filter_result fs data <$> ids = filter_result fs' data <$> ids.
Proof.
  intros H. apply list_fmap_ext. intros i id Hid. specialize (H id (list_elem_of_lookup_2 _ _ _ Hid)).
  unfold filter_result. destruct (fs !! id) as [f|], (fs' !! id) as [f'|]; try done.
  cbn in H. injection H as -> ->. done.
Qed.

Lemma severity_same s G s' G' pid pid' p p' ids frame native_nr : sys_inv s G -> sys_inv s' G' ->
  processes s !! pid = Some p -> processes s' !! pid' = Some p' ->
  G !! pid = Some ids -> G' !! pid' = Some ids -> seccomp_mode p = seccomp_mode p' ->
  same_code (filters s) (filters s') ids -> length (frame_args frame) = 6%nat ->
  severity s' pid' frame native_nr = severity s pid frame native_nr.
Proof.
  intros Hs Hs' Hp Hp' Hids Hids' Hm Hcode Ha. unfold severity.
  rewrite (decide_eq s G pid p ids), (decide_eq s' G' pid' p' ids) by done.
  by rewrite Hm, (results_same (filters s) (filters s') _ ids).
Qed.

Lemma severity_attach s G pid p ids address prog len frame native_nr : sys_inv s G ->
  processes s !! pid = Some p -> G !! pid = Some ids ->
  seccomp_mode p <> SECCOMP_MODE_STRICT -> filters s !! address = None -> accepted prog len ->
  length (frame_args frame) = 6%nat ->
  severity s pid frame native_nr <=
  severity (attach_filter pid p address (Filter None 1 len prog) s).2 pid frame native_nr.
Proof.
  intros Hs Hp Hids Hm Hfresh Hacc Ha.
  destruct (attach_inv s G pid p address prog len Hs Hp Hm Hfresh Hacc) as (ids' & E & _ & Hi).
  assert (ids' = ids) as -> by congruence. unfold severity.
  rewrite (decide_eq s G pid p ids) by done. revert Hi.
  assert (attach_filter pid p address (Filter None 1 len prog) s =
    (0, System (<[address := Filter (seccomp_filters p) 1 len prog]> (filters s))
          (<[pid := set_seccomp p SECCOMP_MODE_FILTER (Some address)]> (processes s)))) as ->.
  { unfold attach_filter. by destruct (seccomp_mode p). }
  cbn [snd]. intros Hi. erewrite (decide_eq _ _ pid);
    [|exact Hi|apply lookup_insert_eq|apply lookup_insert_eq|done].
  cbn [filters seccomp_mode set_seccomp decision].
  destruct (seccomp_mode p); [cbn [decision]; change (action_rank SECCOMP_RET_ALLOW) with 0; apply rank_bound|done|].
  cbn [decision]. unfold most_severe. rewrite !severe_rank. cbn [fmap list_fmap foldr].
  rewrite (results_same (<[address := _]> (filters s)) (filters s) _ ids); [lia|].
  intros id Hid. rewrite lookup_insert_ne; [done|]. intros ->.
  destruct (si_lookup _ _ _ _ _ Hs Hp Hids) as (Hc & _). destruct (chain_in _ _ _ _ Hc Hid). congruence.
Qed.

Section confinement.
Variables (s : system) (G : gmap Z (list Z)) (pid : Z) (p : process) (ids : list Z).
Variables (frame : syscall_frame) (native_nr : Z).
Hypotheses (Hs : sys_inv s G) (Hp : processes s !! pid = Some p) (Hids : G !! pid = Some ids).
Hypothesis (Hargs : length (frame_args frame) = 6%nat).

Lemma confined_filter pid0 flags user address status s' :
  user_ok user -> filters s !! address = None ->
  seccomp_set_mode_filter pid0 flags user (Some address) s = Ret (status, s') ->
  severity s pid frame native_nr <= severity s' pid frame native_nr.
Proof.
  intros Huser Hfresh E.
  destruct (set_filter_cases s G pid0 flags user address Hs Huser Hfresh)
    as (st & s2 & E' & [(_ & ->)|(q & len & prog & Hq & Hm & Hacc & Ea)]);
    rewrite E in E'; injection E' as -> ->; [done|].
  destruct (decide (pid0 = pid)) as [->|Hne].
  { assert (q = p) as -> by congruence.
    pose proof (severity_attach s G pid p ids address prog len frame native_nr) as Hsev.
    rewrite Ea in Hsev. by apply Hsev. }
  destruct (attach_inv s G pid0 q address prog len Hs Hq Hm Hfresh Hacc) as (ids0 & _ & _ & Hi).
  unfold attach_filter in Ea, Hi.
  assert ((System (<[address := Filter (seccomp_filters q) 1 len prog]> (filters s))
        (<[pid0 := set_seccomp q SECCOMP_MODE_FILTER (Some address)]> (processes s))) = s2) as <-
    by (by destruct (seccomp_mode q); injection Ea).
  apply Z.eq_le_incl. symmetry.
  apply (severity_same s G _ (<[pid0 := address :: ids0]> G) pid pid p p ids); try done.
  - by destruct (seccomp_mode q).
  - cbn. by rewrite lookup_insert_ne.
  - by rewrite lookup_insert_ne.
  - intros id Hid. cbn. rewrite lookup_insert_ne; [done|]. intros ->.
    destruct (si_lookup _ _ _ _ _ Hs Hp Hids) as (Hc & _). destruct (chain_in _ _ _ _ Hc Hid). congruence.
Qed.

Lemma confined_strict pid0 :
  severity s pid frame native_nr <= severity (seccomp_set_mode_strict pid0 s).2 pid frame native_nr.
Proof.
  unfold seccomp_set_mode_strict. destruct (processes s !! pid0) as [q|] eqn:Eq; [|done].
  assert (seccomp_mode q <> SECCOMP_MODE_FILTER ->
    severity s pid frame native_nr <= severity (System (filters s)
      (<[pid0 := set_seccomp q SECCOMP_MODE_STRICT (seccomp_filters q)]> (processes s))) pid frame native_nr) as H.
  { intros Hm. pose proof (strict_inv s G pid0 q Hs Eq Hm) as Hi.
    destruct (decide (pid0 = pid)) as [->|Hne].
    - assert (q = p) as -> by congruence. unfold severity. rewrite (decide_eq s G pid p ids) by done.
      erewrite (decide_eq _ _ pid); [|exact Hi|apply lookup_insert_eq|exact Hids|done].
      cbn [seccomp_mode set_seccomp decision]. destruct (seccomp_mode p); [|done..].
      cbn [decision]. change (action_rank SECCOMP_RET_ALLOW) with 0. apply rank_bound.
    - apply Z.eq_le_incl. symmetry. apply (severity_same s G _ G pid pid p p ids); try done.
      cbn. by rewrite lookup_insert_ne. }
  destruct (seccomp_mode q); cbn [snd]; [by apply H|by apply H|done].
Qed.

Lemma confined_fork child_pid child parent_pid s' :
  processes s !! child_pid = None -> Z.of_nat (size (processes s)) < 2 ^ 32 - 1 ->
  seccomp_inherit child_pid child parent_pid s = Ret s' ->
  severity s' pid frame native_nr = severity s pid frame native_nr /\
  (parent_pid = pid -> severity s' child_pid frame native_nr = severity s pid frame native_nr).
Proof.
  intros Hc Hfew E.
  destruct (processes s !! parent_pid) as [parent|] eqn:Ep; [|unfold seccomp_inherit in E; by rewrite Ep in E].
  destruct (inherit_inv s G child_pid child parent_pid parent Hs Ep Hc Hfew) as (cids & fs & Ecids & E' & Hsame & Hi).
  rewrite E in E'. injection E' as ->.
  assert (same_code (filters s) fs ids) as Hcode.
  { intros id _. specialize (Hsame id). destruct (fs !! id), (filters s !! id); try done.
    cbn in Hsame |- *. congruence. }
  assert (child_pid <> pid) by congruence. split.
  - eapply (severity_same s G _ _ pid pid p p ids); try done; cbn; by rewrite lookup_insert_ne.
  - intros ->. assert (parent = p) as -> by congruence. assert (cids = ids) as -> by congruence.
    eapply (severity_same s G _ _ pid child_pid p (set_seccomp child _ _) ids); try done; cbn;
      by rewrite lookup_insert_eq.
Qed.

Lemma confined_exit pid0 s' : pid0 <> pid -> seccomp_release pid0 s = Ret s' ->
  severity s' pid frame native_nr = severity s pid frame native_nr.
Proof.
  intros Hne E. destruct (processes s !! pid0) as [q|] eqn:Eq; [|unfold seccomp_release in E; by rewrite Eq in E].
  destruct (release_inv s G pid0 q Hs Eq) as (qids & fs & _ & E' & Hsub & Hi).
  rewrite E in E'. injection E' as ->.
  eapply (severity_same s G _ _ pid pid p p ids); try done; cbn; try by rewrite lookup_insert_ne.
  intros id Hid.
  assert (chain fs (seccomp_filters p) ids) as Hc.
  { eapply (si_lookup _ _ pid p ids Hi); cbn; by rewrite lookup_insert_ne. }
  destruct (chain_in _ _ _ _ Hc Hid) as [f' Hf']. destruct (Hsub _ _ Hf') as (f & Hf & Ecode).
  rewrite Hf, Hf'. cbn. congruence.
Qed.

Lemma confined_reap pid0 q : pid0 <> pid -> processes s !! pid0 = Some q ->
  seccomp_mode q = SECCOMP_MODE_DISABLED ->
  severity (System (filters s) (delete pid0 (processes s))) pid frame native_nr =
  severity s pid frame native_nr.
Proof.
  intros Hne Hq Hm. pose proof (reap_inv s G pid0 q Hs Hq Hm) as Hi.
  eapply (severity_same s G _ _ pid pid p p ids); try done; cbn; by rewrite lookup_delete_ne.
Qed.
End confinement.

(** ** Properties *)

(** C29. A program the verifier accepts always terminates within as many
    instructions as it has, reads and writes inside its program, scratch memory
    and [seccomp_data] only, and ends in one of its RET instructions, unless it
    has a load beyond [seccomp_data] or a store beyond the scratch memory, which
    kill the process. *)
Theorem bpf_accepted_safe prog len data :
  accepted prog len -> length (args data) = 6%nat ->
  returns (bpf_run_why prog len data) (run_post prog).
Proof. apply bpf_run_why_ok. Qed.

(** The filter of the in-kernel test: EPERM for one call of x86-64. *)
Definition demo_program : list sock_filter :=
  [Insn 0x20 0 0 4; Insn 0x15 1 0 0xC000003E; Insn 0x06 0 0 0x80000000;
   Insn 0x20 0 0 0; Insn 0x15 0 1 110; Insn 0x06 0 0 0x00050001; Insn 0x06 0 0 0x7fff0000].
Definition demo_data : seccomp_data := Data 110 AUDIT_ARCH_X86_64 4096 [1; 2; 3; 4; 5; 6].

Lemma demo_accepted : accepted demo_program 7.
Proof.
  split; [reflexivity| |vm_compute; reflexivity].
  repeat constructor; cbn; unfold word32; lia.
Qed.

Lemma bpf_accepted_safe_witness :
  returns (bpf_run_why demo_program 7 demo_data) (run_post demo_program) /\
  bpf_run_why demo_program 7 demo_data = Ret (ByRet, 0x00050001).
Proof.
  split; [|vm_compute; reflexivity].
  apply bpf_accepted_safe; [apply demo_accepted|reflexivity].
Defined.


Definition demo_system : system :=
  System {[ 4096 := Filter None 1 7 demo_program ]}
    {[ 1 := Process SECCOMP_MODE_FILTER (Some 4096) false 0 ]}.

Lemma demo_step : sec_step boot_system (SetFilter 1) demo_system.
Proof.
  apply (step_filter _ 1 0 (Some (7, Some demo_program)) 4096 0); [|reflexivity|vm_compute; reflexivity].
  intros len prog [= <- <-]. destruct demo_accepted. done.
Qed.


(** C31. Confinement is monotone: no step of the system makes the judgement of a
    system call of a live process less severe, a forked child is judged like its
    parent, and a call that was blocked stays blocked. *)
Theorem seccomp_confinement s e s' pid p frame native_nr :
  history s -> sec_step s e s' -> length (frame_args frame) = 6%nat ->
  processes s !! pid = Some p -> e <> Exit pid -> e <> Reap pid ->
  0 <= severity s pid frame native_nr <= severity s' pid frame native_nr /\
  (forall child, e = Fork child pid ->
     severity s' child frame native_nr = severity s pid frame native_nr) /\
  (forall v v', seccomp_decide pid frame native_nr s = Ret v ->
     seccomp_decide pid frame native_nr s' = Ret v' ->
     enforce v <> RunSyscall -> enforce v' <> RunSyscall).
Proof.
  intros H Hstep Ha Hp He1 He2. destruct (history_inv s H) as [G HG].
  destruct (si_chain _ _ HG _ _ Hp) as (ids & Hids & _).
  assert (severity s pid frame native_nr <= severity s' pid frame native_nr /\
    (forall child, e = Fork child pid ->
       severity s' child frame native_nr = severity s pid frame native_nr)) as [Hle Hfork].
  { destruct Hstep as [pid0 flags user address status s1 Huser Hfresh E|pid0|cpid child ppid s1 Hc Hfew E|pid0 s1 E|pid0 q Hq Hm].
    - split; [|done]. by eapply (confined_filter s G pid p ids).
    - split; [|done]. by apply (confined_strict s G pid p ids).
    - destruct (confined_fork s G pid p ids frame native_nr HG Hp Hids Ha cpid child ppid s1 Hc Hfew E) as [E1 E2].
      split; [lia|]. intros c [= <- ->]. auto.
    - split; [|done]. rewrite (confined_exit s G pid p ids frame native_nr HG Hp Hids Ha pid0 s1); [lia|congruence|done].
    - split; [|done]. rewrite (confined_reap s G pid p ids) with (q := q); [lia|done..|congruence|done|done]. }
  split_and!; try done.
  - unfold severity. rewrite (decide_eq s G pid p ids) by done. apply rank_bound.
  - intros v v' Ev Ev'. unfold severity in Hle. rewrite Ev, Ev' in Hle. rewrite !enforce_rank. lia.
Qed.

Lemma seccomp_confinement_witness :
  0 <= severity boot_system 1 (Frame 4096 [1; 2; 3; 4; 5; 6]) 110
    <= severity demo_system 1 (Frame 4096 [1; 2; 3; 4; 5; 6]) 110 /\
  severity demo_system 1 (Frame 4096 [1; 2; 3; 4; 5; 6]) 110 = 4.
Proof.
  split; [|vm_compute; reflexivity].
  apply (seccomp_confinement boot_system (SetFilter 1) demo_system 1
    (Process SECCOMP_MODE_DISABLED None false 0));
    [constructor|apply demo_step|reflexivity|reflexivity|discriminate|discriminate].
Defined.

(** The verifier accepts a store to a scratch word that does not exist: the mode
    bits of BPF_ST are not BPF_MEM.  The interpreter kills the process instead. *)
Example store_beyond_scratch_accepted :
  let prog := [Insn BPF_ST 0 0 16; Insn 0x06 0 0 SECCOMP_RET_ALLOW] in
  bpf_check prog 2 = Ret 0 /\
  bpf_run_why prog 2 demo_data = Ret (BadAccess, SECCOMP_RET_KILL_PROCESS).
Proof. vm_compute. split; reflexivity. Qed.
