(* ===== verification/Acl.v ===== *)
(** * Access control lists (kernel/fs/acl.c)

    The access ACL of a node: named users and groups in [vfs_acl], the owner's,
    mask's and others' bits in the mode.  The extended attribute is a byte string;
    [acl_xattr_get] writes it and [apply] parses, sorts and installs it. *)

From S2P Require Import Prelude.

Definition ACL_VERSION : Z := 2.
Definition ACL_USER_OBJ : Z := 0x01.
Definition ACL_USER : Z := 0x02.
Definition ACL_GROUP_OBJ : Z := 0x04.
Definition ACL_GROUP : Z := 0x08.
Definition ACL_MASK : Z := 0x10.
Definition ACL_OTHER : Z := 0x20.
Definition ACL_MAX_ENTRIES : Z := 64.
Definition XATTR_CREATE : Z := 1.
Definition XATTR_REPLACE : Z := 2.
Definition ACL_XATTR_ACCESS : string := "system.posix_acl_access".
Definition ACL_XATTR_DEFAULT : string := "system.posix_acl_default".
Definition VFS_DIRECTORY : Z := 0x02.
Definition VFS_READONLY : Z := 0x100.

Record acl_entry := Entry {
  tag : Z;
  perm : Z;
  id : Z
}.

Record vfs_acl := Acl {
  group_obj : Z;
  entries : list acl_entry
}.

(** The fields of a node the permission code uses. *)
Record vfs_node := Node {
  n_uid : Z;
  n_gid : Z;
  n_mode : Z;
  n_flags : Z;
  n_acl : option vfs_acl;
  n_xattr_dirty : bool
}.

(** The credentials of a process; [groups] are its supplementary groups. *)
Record credentials := Cred {
  uid : Z;
  gid : Z;
  euid : Z;
  egid : Z;
  suid : Z;
  sgid : Z;
  fsuid : Z;
  fsgid : Z;
  groups : list Z
}.

Definition set_acl (n : vfs_node) (mode : Z) (acl : option vfs_acl) (dirty : bool) : vfs_node :=
  Node (n_uid n) (n_gid n) mode (n_flags n) acl dirty.

Definition is_access (name : string) : bool := String.eqb name ACL_XATTR_ACCESS.
Definition is_default (name : string) : bool := String.eqb name ACL_XATTR_DEFAULT.

Definition may_change (n : vfs_node) (cred : option credentials) : Z :=
  if negb (Z.land (n_flags n) VFS_READONLY =? 0) then - EROFS else
  match cred with
  | Some c => if negb (fsuid c =? 0) && negb (fsuid c =? n_uid n) then - EPERM else 0
  | None => 0
  end.

(** ** Reading the attribute *)

(** The eight bytes of a [struct acl_entry]. *)
Definition put_entry (e : acl_entry) : list Z :=
  le_bytes 2 (tag e) ++ le_bytes 2 (perm e) ++ le_bytes 4 (id e).

Definition mode_user (mode : Z) : Z := Z.land (Z.shiftr mode 6) 7.
Definition mode_group (mode : Z) : Z := Z.land (Z.shiftr mode 3) 7.
Definition mode_other (mode : Z) : Z := Z.land mode 7.

Definition with_tag (t : Z) (es : list acl_entry) : list acl_entry :=
  filter (fun e => tag e = t) es.

(** The entries the attribute lists, in order. *)
Definition listed (mode : Z) (acl : vfs_acl) : list acl_entry :=
  [Entry ACL_USER_OBJ (u16 (mode_user mode)) UINT32_MAX] ++
  with_tag ACL_USER (entries acl) ++
  [Entry ACL_GROUP_OBJ (u16 (group_obj acl)) UINT32_MAX] ++
  with_tag ACL_GROUP (entries acl) ++
  [Entry ACL_MASK (u16 (mode_group mode)) UINT32_MAX;
   Entry ACL_OTHER (u16 (mode_other mode)) UINT32_MAX].

(** The result and the bytes written to [out]. *)
Definition acl_xattr_get (n : vfs_node) (name : string) (size : Z) : Z * list Z :=
  if negb (is_access name) then (- ENODATA, []) else
  match n_acl n with
  | None => (- ENODATA, [])
  | Some acl =>
      let length := 4 + (Z.of_nat (length (entries acl)) + 4) * 8 in
      if size =? 0 then (length, []) else
      if size <? length then (- ERANGE, []) else
      (length, le_bytes 4 ACL_VERSION ++ (listed (n_mode n) acl ≫= put_entry))
  end.

(** ** Setting the attribute *)

Definition entry_before (a b : acl_entry) : bool :=
  if negb (tag a =? tag b) then tag a <? tag b else id a <? id b.

(** The [total] records of the value. *)
Definition get_entry (bytes : list Z) : acl_entry :=
  Entry (le_join (slice bytes 0 2)) (le_join (slice bytes 2 2)) (le_join (slice bytes 4 4)).
Fixpoint get_entries (total : nat) (bytes : list Z) : list acl_entry :=
  match total with
  | O => []
  | S total => get_entry (take 8 bytes) :: get_entries total (drop 8 bytes)
  end.

(** The first loop: -1 marks a class that has not been seen; the named entries
    are moved to the front of the array in order. *)
Record scan := Scan {
  user_obj : Z;
  group_obj_perm : Z;
  mask : Z;
  other : Z;
  named : list acl_entry
}.

Fixpoint scan_entries (es : list acl_entry) (s : scan) : option scan :=
  match es with
  | [] => Some s
  | e :: rest =>
      if 7 <? perm e then None
      else if tag e =? ACL_USER_OBJ then
        if 0 <=? user_obj s then None
        else scan_entries rest (Scan (perm e) (group_obj_perm s) (mask s) (other s) (named s))
      else if tag e =? ACL_GROUP_OBJ then
        if 0 <=? group_obj_perm s then None
        else scan_entries rest (Scan (user_obj s) (perm e) (mask s) (other s) (named s))
      else if tag e =? ACL_MASK then
        if 0 <=? mask s then None
        else scan_entries rest (Scan (user_obj s) (group_obj_perm s) (perm e) (other s) (named s))
      else if tag e =? ACL_OTHER then
        if 0 <=? other s then None
        else scan_entries rest (Scan (user_obj s) (group_obj_perm s) (mask s) (perm e) (named s))
      else if (tag e =? ACL_USER) || (tag e =? ACL_GROUP) then
        scan_entries rest (Scan (user_obj s) (group_obj_perm s) (mask s) (other s) (named s ++ [e]))
      else None
  end.

(** One round of the insertion sort, on the sorted prefix held last first: the
    key moves left over the entries it comes before. *)
Fixpoint insert_back (key : acl_entry) (sorted : list acl_entry) : list acl_entry :=
  match sorted with
  | [] => [key]
  | e :: rest => if entry_before key e then e :: insert_back key rest else key :: e :: rest
  end.

Definition sort_entries (es : list acl_entry) : list acl_entry :=
  rev (foldl (fun sorted key => insert_back key sorted) [] es).

Fixpoint has_duplicate (es : list acl_entry) : bool :=
  match es with
  | a :: ((b :: _) as rest) => ((tag b =? tag a) && (id b =? id a)) || has_duplicate rest
  | _ => false
  end.

(** [allocated] is whether [defer_alloc] succeeded. *)
Definition apply (n : vfs_node) (value : option (list Z)) (allocated : bool) : Z * vfs_node :=
  match value with
  | None => (- EINVAL, n)
  | Some bytes =>
      let size := Z.of_nat (length bytes) in
      if (size <? 4) || negb (u64 (size - 4) mod 8 =? 0) then (- EINVAL, n) else
      if negb (le_join (take 4 bytes) =? ACL_VERSION) then (- EINVAL, n) else
      let total := u32 (u64 (size - 4) / 8) in
      if (total <? 3) || (ACL_MAX_ENTRIES <? total) then (- EINVAL, n) else
      match scan_entries (get_entries (Z.to_nat total) (drop 4 bytes)) (Scan (-1) (-1) (-1) (-1) []) with
      | None => (- EINVAL, n)
      | Some s =>
          if (user_obj s <? 0) || (group_obj_perm s <? 0) || (other s <? 0) then (- EINVAL, n) else
          if (0 <? length (named s))%nat && (mask s <? 0) then (- EINVAL, n) else
          let sorted := sort_entries (named s) in
          if has_duplicate sorted then (- EINVAL, n) else
          if (0 <? length (named s))%nat && negb allocated then (-12, n) else
          let next := if (0 <? length (named s))%nat
                      then Some (Acl (u32 (group_obj_perm s)) sorted) else None in
          let group_bits := u32 (if (0 <? length (named s))%nat then mask s else group_obj_perm s) in
          let mode :=
            Z.lor (Z.lor (Z.lor (Z.land (n_mode n) (u32 (Z.lnot 0x1ff)))
              (u32 (Z.shiftl (u32 (user_obj s)) 6))) (u32 (Z.shiftl group_bits 3))) (u32 (other s)) in
          (0, set_acl n mode next (n_xattr_dirty n))
      end
  end.

Definition acl_xattr_set (n : vfs_node) (cred : option credentials) (name : string)
  (value : option (list Z)) (flags : Z) (allocated : bool) : Z * vfs_node :=
  if is_default name then (- EOPNOTSUPP, n) else
  if negb (is_access name) then (- EOPNOTSUPP, n) else
  let allowed := may_change n cred in
  if negb (allowed =? 0) then (allowed, n) else
  if negb (Z.land flags (Z.lnot (Z.lor XATTR_CREATE XATTR_REPLACE)) =? 0) then (- EINVAL, n) else
  if negb (Z.land flags XATTR_CREATE =? 0) && bool_decide (is_Some (n_acl n)) then (- EEXIST, n) else
  if negb (Z.land flags XATTR_REPLACE =? 0) && negb (bool_decide (is_Some (n_acl n)))
  then (- ENODATA, n) else
  let '(status, n') := apply n value allocated in
  if negb (status =? 0) then (status, n') else (0, set_acl n' (n_mode n') (n_acl n') true).

Definition acl_import (n : vfs_node) (value : option (list Z)) (allocated : bool) : Z * vfs_node :=
  let '(status, n') := apply n value allocated in (i32 status, n').

Definition acl_xattr_remove (n : vfs_node) (cred : option credentials) (name : string)
  : Z * vfs_node :=
  if negb (is_access name) && negb (is_default name) then (- ENODATA, n) else
  if is_default name || negb (bool_decide (is_Some (n_acl n))) then (- ENODATA, n) else
  let allowed := may_change n cred in
  if negb (allowed =? 0) then (allowed, n) else
  (0, set_acl n (n_mode n) None true).

(** The name list: its length, and the name when there is room for it. *)
Definition acl_xattr_list (n : vfs_node) (size : Z) : Z * option string :=
  match n_acl n with
  | None => (0, None)
  | Some _ =>
      let length := Z.of_nat (String.length ACL_XATTR_ACCESS) + 1 in
      if size =? 0 then (length, None) else
      if size <? length then (- ERANGE, None) else (length, Some ACL_XATTR_ACCESS)
  end.

Definition acl_release (n : vfs_node) : vfs_node := set_acl n (n_mode n) None (n_xattr_dirty n).

(** ** Permission *)

Definition in_group (cred : credentials) (g : Z) : bool :=
  if fsgid cred =? g then true else existsb (Z.eqb g) (groups cred).

Definition grants (bits want : Z) : bool := Z.land bits want =? want.

(** The loop over the named users: the permission of the first entry for the
    user, if there is one. *)
Fixpoint find_user (es : list acl_entry) (u : Z) : option Z :=
  match es with
  | [] => None
  | e :: rest => if (tag e =? ACL_USER) && (id e =? u) then Some (perm e) else find_user rest u
  end.

(** The loop over the named groups; [inl] is an early return. *)
Fixpoint scan_groups (es : list acl_entry) (cred : credentials) (m want : Z) (matched : bool)
  : bool + bool :=
  match es with
  | [] => inr matched
  | e :: rest =>
      if negb (tag e =? ACL_GROUP) || negb (in_group cred (id e)) then
        scan_groups rest cred m want matched
      else if grants (Z.land (perm e) m) want then inl true
      else scan_groups rest cred m want true
  end.

(** The answer and whether the ACL decided. *)
Definition acl_permission (n : vfs_node) (cred : credentials) (want : Z) : bool * bool :=
  match n_acl n with
  | None => (false, false)
  | Some acl =>
      if fsuid cred =? n_uid n then (false, false) else
      let m := mode_group (n_mode n) in
      match find_user (entries acl) (fsuid cred) with
      | Some p => (grants (Z.land p m) want, true)
      | None =>
          let owning := in_group cred (n_gid n) in
          if owning && grants (Z.land (group_obj acl) m) want then (true, true) else
          match scan_groups (entries acl) cred m want owning with
          | inl answer => (answer, true)
          | inr true => (false, true)
          | inr false => (grants (Z.land (n_mode n) 7) want, true)
          end
      end
  end.

(** ** Well-formed lists *)

(** The order of the list: users before groups, each by number. *)
Definition before (a b : acl_entry) : Prop :=
  tag a < tag b \/ (tag a = tag b /\ id a < id b).

Record entry_ok (e : acl_entry) : Prop := {
  ok_tag : tag e = ACL_USER \/ tag e = ACL_GROUP;
  ok_perm : 0 <= perm e <= 7;
  ok_id : 0 <= id e < 2 ^ 32
}.

Record acl_ok (a : vfs_acl) : Prop := {
  ok_group : 0 <= group_obj a <= 7;
  ok_some : entries a <> [];
  ok_room : Z.of_nat (length (entries a)) + 4 <= ACL_MAX_ENTRIES;
  ok_entries : Forall entry_ok (entries a);
  ok_sorted : ForallOrdPairs before (entries a)
}.

Record node_ok (n : vfs_node) : Prop := {
  ok_mode : 0 <= n_mode n < 2 ^ 32;
  ok_acl : forall a, n_acl n = Some a -> acl_ok a
}.

(** ** Lemmas: sorting *)

#[export] Instance before_trans : Transitive before.
Proof. intros x y z [|[]] [|[]]; unfold before; lia. Qed.

Lemma entry_before_spec a b : entry_before a b = true <-> before a b.
Proof. unfold entry_before, before. destruct (Z.eqb_spec (tag a) (tag b)); cbn [negb]; lia. Qed.

Lemma entry_before_total a b :
  entry_before a b = false -> before b a \/ (tag a = tag b /\ id a = id b).
Proof. unfold entry_before, before. destruct (Z.eqb_spec (tag a) (tag b)); cbn [negb]; lia. Qed.

(** Weakly sorted from the last entry to the first. *)
Definition not_before (a b : acl_entry) : Prop := ~ before a b.

Lemma insert_back_perm key l : insert_back key l ≡ₚ key :: l.
Proof.
  induction l as [|e l IH]; [done|]. cbn. destruct (entry_before key e); [|done].
  rewrite IH. apply perm_swap.
Qed.

Lemma insert_back_sorted key l : ForallOrdPairs not_before l ->
  ForallOrdPairs not_before (insert_back key l).
Proof.
  induction 1 as [|e l He Hl IH]; cbn; [by repeat constructor|].
  destruct (entry_before key e) eqn:E.
  - apply entry_before_spec in E. constructor; [|done]. rewrite insert_back_perm. constructor; [|done].
    unfold not_before, before in *. lia.
  - constructor; [|by constructor]. apply entry_before_total in E. constructor.
    + unfold not_before, before in *. lia.
    + revert He. apply Forall_impl. intros x Hx. unfold not_before, before in *. lia.
Qed.

Lemma sort_perm es : sort_entries es ≡ₚ es.
Proof.
  unfold sort_entries. rewrite <- Permutation_rev.
  assert (forall l, foldl (fun sorted key => insert_back key sorted) l es ≡ₚ l ++ es) as H.
  { induction es as [|e es IH]; intros l; cbn; [by rewrite app_nil_r|].
    rewrite IH, insert_back_perm. cbn. by rewrite Permutation_middle. }
  by rewrite H.
Qed.

Lemma ordpairs_rev {A} (R : A -> A -> Prop) (l : list A) :
  ForallOrdPairs R l -> ForallOrdPairs (fun a b => R b a) (rev l).
Proof.
  induction 1 as [|a l Ha Hl IH]; cbn; [constructor|]. apply ordpairs_app; [done|by repeat constructor|].
  intros x y Hx Hy. apply list_elem_of_singleton in Hy as ->. rewrite List.Forall_forall in Ha.
  apply Ha. apply in_rev. by apply list_elem_of_In.
Qed.

Lemma sort_sorted es : ForallOrdPairs (fun a b => not_before b a) (sort_entries es).
Proof.
  unfold sort_entries. apply ordpairs_rev.
  assert (forall l, ForallOrdPairs not_before l ->
    ForallOrdPairs not_before (foldl (fun sorted key => insert_back key sorted) l es)) as H.
  { induction es as [|e es IH]; intros l Hl; cbn; [done|]. by apply IH, insert_back_sorted. }
  apply H. constructor.
Qed.

(** Without equal neighbours a weakly sorted list is strictly sorted. *)
Lemma strict_sorted l : ForallOrdPairs (fun a b => not_before b a) l -> has_duplicate l = false ->
  ForallOrdPairs before l.
Proof.
  induction 1 as [|a l Ha Hl IH]; intros Hd; [constructor|]. destruct l as [|b l]; [repeat constructor|].
  cbn [has_duplicate] in Hd. apply orb_false_iff in Hd as [Hab Hd]. specialize (IH Hd).
  assert (before a b) as Hb.
  { apply Forall_cons_1 in Ha as [Ha _]. unfold not_before, before in *. lia. }
  constructor; [|done]. constructor; [done|]. inversion IH as [|? ? Hbl _]; subst.
  revert Hbl. apply Forall_impl. intros x Hx. by etrans.
Qed.

(** A strictly sorted list is its own sorting. *)
Lemma sort_id l : ForallOrdPairs before l -> sort_entries l = l.
Proof.
  intros Hl. unfold sort_entries.
  assert (forall p l, ForallOrdPairs before (rev p ++ l) ->
    foldl (fun sorted key => insert_back key sorted) p l = rev l ++ p) as H.
  { intros p k. revert p. induction k as [|e k IH]; intros p Hp; cbn; [done|].
    assert (insert_back e p = e :: p) as ->.
    { destruct p as [|x p]; [done|]. cbn in Hp |- *. rewrite <- app_assoc in Hp. cbn in Hp.
      destruct (entry_before e x) eqn:E; [|done]. apply entry_before_spec in E. exfalso.
      clear -Hp E. induction (rev p) as [|y r IHr]; cbn in Hp.
      - inversion Hp as [|? ? Hx _]; subst. apply Forall_cons_1 in Hx as [Hx _].
        unfold before in *. lia.
      - inversion Hp; subst. auto. }
    rewrite IH, <- app_assoc; [done|]. cbn. by rewrite <- app_assoc. }
  rewrite (H [] l) by done. by rewrite app_nil_r, rev_involutive.
Qed.

Lemma no_duplicate l : ForallOrdPairs before l -> has_duplicate l = false.
Proof.
  induction 1 as [|a l Ha Hl IH]; [done|]. destruct l as [|b l]; [done|].
  change (has_duplicate (a :: b :: l)) with
    (((tag b =? tag a) && (id b =? id a)) || has_duplicate (b :: l)).
  rewrite IH, orb_false_r. apply Forall_cons_1 in Ha as [Ha _]. unfold before in Ha. lia.
Qed.

(** ** Lemmas: the mode bits *)

Definition mode_join (m u g o : Z) : Z :=
  Z.lor (Z.lor (Z.lor (Z.land m (u32 (Z.lnot 0x1ff))) (u32 (Z.shiftl u 6))) (u32 (Z.shiftl g 3))) o.

Ltac octal u :=
  let H := fresh in
  assert (u = 0 \/ u = 1 \/ u = 2 \/ u = 3 \/ u = 4 \/ u = 5 \/ u = 6 \/ u = 7) as H by lia;
  destruct H as [->|[->|[->|[->|[->|[->|[->| ->]]]]]]].

Lemma land_lor3 a b c d w :
  Z.land (Z.lor (Z.lor (Z.lor a b) c) d) w =
  Z.lor (Z.lor (Z.lor (Z.land a w) (Z.land b w)) (Z.land c w)) (Z.land d w).
Proof. by rewrite !Z.land_lor_distr_l. Qed.

Lemma mode_join_other m u g o : 0 <= u <= 7 -> 0 <= g <= 7 -> 0 <= o <= 7 ->
  mode_other (mode_join m u g o) = o.
Proof.
  intros. unfold mode_other, mode_join. rewrite land_lor3, <- Z.land_assoc.
  change (Z.land (u32 (Z.lnot 0x1ff)) 7) with 0. rewrite Z.land_0_r, Z.lor_0_l.
  replace (Z.land (u32 (Z.shiftl u 6)) 7) with 0 by (octal u; reflexivity).
  replace (Z.land (u32 (Z.shiftl g 3)) 7) with 0 by (octal g; reflexivity).
  octal o; reflexivity.
Qed.

Lemma mode_join_group m u g o : 0 <= u <= 7 -> 0 <= g <= 7 -> 0 <= o <= 7 ->
  mode_group (mode_join m u g o) = g.
Proof.
  intros. unfold mode_group, mode_join. rewrite !Z.shiftr_lor, land_lor3, Z.shiftr_land, <- Z.land_assoc.
  change (Z.land (Z.shiftr (u32 (Z.lnot 0x1ff)) 3) 7) with 0. rewrite Z.land_0_r, Z.lor_0_l.
  replace (Z.land (Z.shiftr (u32 (Z.shiftl u 6)) 3) 7) with 0 by (octal u; reflexivity).
  replace (Z.land (Z.shiftr o 3) 7) with 0 by (octal o; reflexivity).
  octal g; reflexivity.
Qed.

Lemma mode_join_user m u g o : 0 <= u <= 7 -> 0 <= g <= 7 -> 0 <= o <= 7 ->
  mode_user (mode_join m u g o) = u.
Proof.
  intros. unfold mode_user, mode_join. rewrite !Z.shiftr_lor, land_lor3, Z.shiftr_land, <- Z.land_assoc.
  change (Z.land (Z.shiftr (u32 (Z.lnot 0x1ff)) 6) 7) with 0. rewrite Z.land_0_r, Z.lor_0_l.
  replace (Z.land (Z.shiftr (u32 (Z.shiftl g 3)) 6) 7) with 0 by (octal g; reflexivity).
  replace (Z.land (Z.shiftr o 6) 7) with 0 by (octal o; reflexivity).
  octal u; reflexivity.
Qed.

(** The bits above the nine permission bits stay. *)
Lemma mode_join_high m u g o : 0 <= u <= 7 -> 0 <= g <= 7 -> 0 <= o <= 7 -> 0 <= m < 2 ^ 32 ->
  Z.shiftr (mode_join m u g o) 9 = Z.shiftr m 9 /\ 0 <= mode_join m u g o < 2 ^ 32.
Proof.
  intros. split.
  - unfold mode_join. rewrite !Z.shiftr_lor, Z.shiftr_land.
    replace (Z.shiftr (u32 (Z.shiftl u 6)) 9) with 0 by (octal u; reflexivity).
    replace (Z.shiftr (u32 (Z.shiftl g 3)) 9) with 0 by (octal g; reflexivity).
    replace (Z.shiftr o 9) with 0 by (octal o; reflexivity). rewrite !Z.lor_0_r.
    change (Z.shiftr (u32 (Z.lnot 0x1ff)) 9) with (Z.ones 23). rewrite Z.land_ones by lia.
    apply Z.mod_small. rewrite Z.shiftr_div_pow2 by lia. split; [apply Z.div_pos; lia|].
    apply Z.div_lt_upper_bound; lia.
  - unfold mode_join. repeat apply lor_bound; try lia; try apply u32_bound. by apply land_bound.
Qed.

Lemma mode_part_bound m : 0 <= mode_user m <= 7 /\ 0 <= mode_group m <= 7 /\ 0 <= mode_other m <= 7.
Proof.
  unfold mode_user, mode_group, mode_other. change 7 with (Z.ones 3).
  rewrite !Z.land_ones by lia. change (Z.ones 3) with 7. change (2 ^ 3) with 8.
  pose proof (Z.mod_pos_bound (Z.shiftr m 6) 8). pose proof (Z.mod_pos_bound (Z.shiftr m 3) 8).
  pose proof (Z.mod_pos_bound m 8). lia.
Qed.

Lemma testbit_7 n : 0 <= n -> Z.testbit 7 n = (n <? 3).
Proof. intros. change 7 with (Z.ones 3). rewrite Z.testbit_ones_nonneg by lia. done. Qed.

(** Two modes with the same parts are equal. *)
Lemma mode_ext m m' : 0 <= m < 2 ^ 32 -> 0 <= m' < 2 ^ 32 -> Z.shiftr m 9 = Z.shiftr m' 9 ->
  mode_user m = mode_user m' -> mode_group m = mode_group m' -> mode_other m = mode_other m' -> m = m'.
Proof.
  intros Hm Hm' H9 Hu Hg Ho. apply Z.bits_inj'. intros n Hn.
  assert (forall k a b, Z.land (Z.shiftr a k) 7 = Z.land (Z.shiftr b k) 7 -> 0 <= k -> k <= n < k + 3 ->
    Z.testbit a n = Z.testbit b n) as Hpart.
  { intros k a b E Hk Hkn. apply (f_equal (fun z => Z.testbit z (n - k))) in E.
    rewrite !Z.land_spec, !Z.shiftr_spec, testbit_7, (proj2 (Z.ltb_lt _ _)), !andb_true_r in E by lia.
    by replace (n - k + k) with n in E by lia. }
  destruct (decide (n < 3)); [apply (Hpart 0); [by rewrite !Z.shiftr_0_r|lia..]|].
  destruct (decide (n < 6)); [apply (Hpart 3); [done|lia..]|].
  destruct (decide (n < 9)); [apply (Hpart 6); [done|lia..]|].
  apply (f_equal (fun z => Z.testbit z (n - 9))) in H9. rewrite !Z.shiftr_spec in H9 by lia.
  by replace (n - 9 + 9) with n in H9 by lia.
Qed.

(** ** Lemmas: scanning the value *)

Definition b2n (b : bool) : nat := if b then 1 else 0.
Definition seen (s : scan) : nat :=
  let given v := b2n (0 <=? v) in
  (given (user_obj s) + given (group_obj_perm s) + given (mask s) + given (other s))%nat.

Definition is_named (e : acl_entry) : Prop := tag e = ACL_USER \/ tag e = ACL_GROUP.
#[export] Instance is_named_dec e : Decision (is_named e) := _.

(** The class [t] of the entries has the permission [v] after the scan, which it
    already had or which one entry gave. *)
Definition class_post (t : Z) (es : list acl_entry) (before_v v : Z) : Prop :=
  (0 <= before_v -> v = before_v /\ forall e, e ∈ es -> tag e <> t) /\
  (before_v < 0 -> (v = before_v /\ forall e, e ∈ es -> tag e <> t) \/
     (0 <= v <= 7 /\ exists e, e ∈ es /\ tag e = t /\ perm e = v)) /\
  (forall e, e ∈ es -> tag e = t -> perm e = v).

Record scan_post (es : list acl_entry) (s s' : scan) : Prop := {
  sp_named : named s' = named s ++ filter is_named es;
  sp_count : (length (named s') + seen s' = length (named s) + seen s + length es)%nat;
  sp_perm : Forall (fun e => perm e <= 7) es;
  sp_user : class_post ACL_USER_OBJ es (user_obj s) (user_obj s');
  sp_group : class_post ACL_GROUP_OBJ es (group_obj_perm s) (group_obj_perm s');
  sp_mask : class_post ACL_MASK es (mask s) (mask s');
  sp_other : class_post ACL_OTHER es (other s) (other s')
}.

Lemma class_nil t v : class_post t [] v v.
Proof.
  assert (forall e, e ∈ @nil acl_entry -> False) as Hn by (intros e He; by apply elem_of_nil in He).
  split_and!; [split; [done|]|intros _; left; split; [done|]|]; intros e He; by destruct (Hn e).
Qed.

Lemma class_skip t e es v0 v : tag e <> t -> class_post t es v0 v -> class_post t (e :: es) v0 v.
Proof.
  intros Ht (H1 & H2 & H3). split_and!.
  - intros Hv. destruct (H1 Hv) as [-> Hn]. split; [done|]. intros x Hx.
    apply elem_of_cons in Hx as [->|Hx]; auto.
  - intros Hv. destruct (H2 Hv) as [[-> Hn]|[Hb (x & Hx & ? & ?)]].
    + left. split; [done|]. intros x Hx. apply elem_of_cons in Hx as [->|Hx]; auto.
    + right. split; [done|]. exists x. split; [by right|done].
  - intros x Hx E. apply elem_of_cons in Hx as [->|Hx]; [done|auto].
Qed.

Lemma class_take t e es v0 v : tag e = t -> 0 <= perm e <= 7 -> v0 < 0 ->
  class_post t es (perm e) v -> class_post t (e :: es) v0 v.
Proof.
  intros Ht Hp Hv (H1 & H2 & H3). destruct H1 as [-> Hn]; [lia|]. split_and!.
  - lia.
  - intros _. right. split; [done|]. exists e. split; [by left|done].
  - intros x Hx E. apply elem_of_cons in Hx as [->|Hx]; [done|]. by apply Hn in Hx.
Qed.

(** An entry of one of the four classes with a single entry. *)
Ltac scan_class v E :=
  destruct (Z.leb_spec 0 v); [done|];
  let H1 := fresh "H1" in let A := fresh "A" in let B := fresh "B" in
  intros H1;
  match goal with IH : forall s, scan_entries _ s = _ -> _ |- _ => destruct (IH _ H1) as [A B ? ? ? ? ?] end;
  cbn [user_obj group_obj_perm mask other named] in *; split;
  first [ by apply class_take | apply class_skip; [by rewrite E|done] | idtac ];
  [ rewrite A, filter_cons_False; [done|unfold is_named; rewrite E; by intros [|]]
  | rewrite B; unfold seen; cbn [user_obj group_obj_perm mask other length];
    rewrite (proj2 (Z.leb_gt 0 v)), (proj2 (Z.leb_le 0 (perm _))) by lia; cbn [b2n]; lia
  | by constructor ].

Lemma scan_ok es s s' : Forall (fun e => 0 <= perm e) es -> scan_entries es s = Some s' ->
  scan_post es s s'.
Proof.
  intros Hp. revert s. induction Hp as [|e es He Hp IH]; intros s; cbn [scan_entries].
  { intros [= <-]. split; try apply class_nil; [by rewrite app_nil_r|cbn; lia|constructor]. }
  destruct (Z.ltb_spec 7 (perm e)) as [|Hp7]; [done|].
  destruct (Z.eqb_spec (tag e) ACL_USER_OBJ) as [E|N1]; [scan_class (user_obj s) E|].
  destruct (Z.eqb_spec (tag e) ACL_GROUP_OBJ) as [E|N2]; [scan_class (group_obj_perm s) E|].
  destruct (Z.eqb_spec (tag e) ACL_MASK) as [E|N3]; [scan_class (mask s) E|].
  destruct (Z.eqb_spec (tag e) ACL_OTHER) as [E|N4]; [scan_class (other s) E|].
  destruct (_ || _) eqn:Eor; [|done]. intros H1. destruct (IH _ H1) as [A B C D1 D2 D3 D4].
  cbn [user_obj group_obj_perm mask other named] in *. split; try by apply class_skip.
  - rewrite A, filter_cons_True, <- app_assoc; [done|]. unfold is_named. lia.
  - rewrite B, length_app. unfold seen. cbn. lia.
  - by constructor.
Qed.

(** ** Lemmas: parsing and printing *)

Lemma get_put_entry e rest : 0 <= tag e < 2 ^ 16 -> 0 <= perm e < 2 ^ 16 -> 0 <= id e < 2 ^ 32 ->
  get_entry (take 8 (put_entry e ++ rest)) = e /\ drop 8 (put_entry e ++ rest) = rest.
Proof.
  intros Ht Hp Hi. assert (length (put_entry e) = 8%nat) as Hl by done.
  rewrite take_app_length' by done. rewrite drop_app_length' by done. split; [|done].
  unfold get_entry, slice, put_entry.
  change (Z.to_nat 0) with 0%nat. change (Z.to_nat 2) with 2%nat. change (Z.to_nat 4) with 4%nat.
  rewrite drop_0, take_app_length' by (by rewrite length_le_bytes).
  rewrite (drop_app_length' (le_bytes 2 (tag e))), take_app_length' by (by rewrite length_le_bytes).
  rewrite app_assoc, drop_app_length', take_ge by (rewrite ?length_app, ?length_le_bytes; lia).
  rewrite !le_join_bytes, !Z.mod_small by (cbn; lia). by destruct e.
Qed.

Lemma get_put_entries es : Forall (fun e => 0 <= tag e < 2 ^ 16 /\ 0 <= perm e < 2 ^ 16 /\ 0 <= id e < 2 ^ 32) es ->
  get_entries (length es) (es ≫= put_entry) = es.
Proof.
  induction 1 as [|e es (Ht & Hp & Hi) _ IH]; [done|]. rewrite bind_cons. cbn [length get_entries].
  destruct (get_put_entry e (es ≫= put_entry) Ht Hp Hi) as [E1 E2]. by rewrite E1, E2, IH.
Qed.

Lemma length_put_entries es : length (es ≫= put_entry) = (8 * length es)%nat.
Proof. induction es as [|e es IH]; [done|]. rewrite bind_cons, length_app, IH. cbn. lia. Qed.

Lemma length_get_entries n bytes : length (get_entries n bytes) = n.
Proof. revert bytes. induction n; intros; cbn; auto. Qed.

Lemma get_entries_ok n bytes : Forall (fun b => 0 <= b < 256) bytes ->
  Forall (fun e => 0 <= perm e /\ 0 <= id e < 2 ^ 32) (get_entries n bytes).
Proof.
  revert bytes. induction n as [|n IH]; intros bytes Hb; [constructor|]. cbn. constructor.
  - assert (forall i k, Forall (fun b => 0 <= b < 256) (slice (take 8 bytes) i k)) as Hs.
    { intros. unfold slice. by apply Forall_take, Forall_drop, Forall_take. }
    cbn. pose proof (le_join_bound _ (Hs 2 2)). pose proof (le_join_bound _ (Hs 4 4)) as H4.
    assert (length (slice (take 8 bytes) 4 4) <= 4)%nat.
    { unfold slice. rewrite length_take. lia. }
    assert (2 ^ (8 * Z.of_nat (length (slice (take 8 bytes) 4 4))) <= 2 ^ 32)
      by (apply Z.pow_le_mono_r; lia). lia.
  - by apply IH, Forall_drop.
Qed.

(** ** Lemmas: installing a list *)

(** The entries a value holds. *)
Definition value_entries (bytes : list Z) : list acl_entry :=
  get_entries (Z.to_nat (u32 (u64 (Z.of_nat (length bytes) - 4) / 8))) (drop 4 bytes).

Definition class_perm (es : list acl_entry) (t p : Z) : Prop :=
  (exists e, e ∈ es /\ tag e = t) /\ forall e, e ∈ es -> tag e = t -> perm e = p.

(** The node after a successful [apply]. *)
Record installed (n : vfs_node) (es : list acl_entry) (n' : vfs_node) : Prop := {
  in_ok : node_ok n';
  in_same : n_uid n' = n_uid n /\ n_gid n' = n_gid n /\ n_flags n' = n_flags n /\
            n_xattr_dirty n' = n_xattr_dirty n /\ Z.shiftr (n_mode n') 9 = Z.shiftr (n_mode n) 9;
  in_user : class_perm es ACL_USER_OBJ (mode_user (n_mode n'));
  in_other : class_perm es ACL_OTHER (mode_other (n_mode n'));
  in_acl : match n_acl n' with
    | None => filter is_named es = [] /\ class_perm es ACL_GROUP_OBJ (mode_group (n_mode n'))
    | Some a => entries a ≡ₚ filter is_named es /\ class_perm es ACL_GROUP_OBJ (group_obj a) /\
                class_perm es ACL_MASK (mode_group (n_mode n'))
    end
}.

Lemma class_given t es v : class_post t es (-1) v -> 0 <= v -> class_perm es t v /\ 0 <= v <= 7.
Proof.
  intros (_ & H2 & H3) Hv. destruct (H2 ltac:(lia)) as [[-> _]|[Hb (e & ? & ? & _)]]; [lia|].
  split; [|done]. split; [by exists e|done].
Qed.

Lemma acl_apply_ok n bytes allocated : node_ok n -> Forall (fun b => 0 <= b < 256) bytes ->
  let '(status, n') := apply n (Some bytes) allocated in
  (status <> 0 /\ n' = n) \/ (status = 0 /\ installed n (value_entries bytes) n').
Proof.
  intros Hn Hb. unfold apply. fold (value_entries bytes).
  branch E1; [by left|]. branch E0; [by left|].
  branch E2; [by left|].
  assert (Forall (fun e => 0 <= perm e /\ 0 <= id e < 2 ^ 32) (value_entries bytes)) as Hes
    by by apply get_entries_ok, Forall_drop.
  destruct (scan_entries _ _) as [s|] eqn:Es; [|by left].
  apply scan_ok in Es; [|revert Hes; apply Forall_impl; cbn; tauto].
  destruct Es as [A B C D1 D2 D3 D4]. cbn in A. cbn [user_obj group_obj_perm mask other] in *.
  branch E3; [by left|].
  destruct (class_given _ _ _ D1) as [Pu Bu]; [lia|]. destruct (class_given _ _ _ D2) as [Pg Bg]; [lia|].
  destruct (class_given _ _ _ D4) as [Po Bo]; [lia|].
  branch E4; [by left|]. branch E5; [by left|].
  branch E6; [by left|]. right. split; [done|].
  rewrite (u32_small (user_obj s)), (u32_small (other s)), (u32_small (group_obj_perm s)) by lia.
  destruct (0 <? length (named s))%nat eqn:E7.
  - apply Nat.ltb_lt in E7. cbn [andb] in E4. destruct (class_given _ _ _ D3) as [Pm Bm]; [lia|].
    rewrite (u32_small (mask s)) by lia.
    change (Z.lor _ (other s)) with (mode_join (n_mode n) (user_obj s) (mask s) (other s)).
    destruct (mode_join_high (n_mode n) (user_obj s) (mask s) (other s)) as [H9 Hm]; [done..|apply Hn|].
    split; cbn [n_mode set_acl n_acl n_uid n_gid n_flags n_xattr_dirty].
    + split; cbn; [done|]. intros a [= <-]. split; cbn [group_obj entries].
      * done.
      * intros Hnil. pose proof (sort_perm (named s)) as Hp. rewrite Hnil in Hp.
        apply Permutation_length in Hp. cbn in Hp. lia.
      * rewrite (sort_perm (named s)). unfold seen in B. cbn [user_obj group_obj_perm mask other named length] in B.
        rewrite !(proj2 (Z.leb_le 0 _)) in B by lia. unfold value_entries in B. rewrite length_get_entries in B.
        cbn [b2n Z.leb Z.compare] in B. unfold ACL_MAX_ENTRIES in *. lia.
      * rewrite (sort_perm (named s)), A. apply Forall_forall. intros e He%list_elem_of_In.
        apply list_elem_of_filter in He as [Hnm He%list_elem_of_In]. rewrite List.Forall_forall in Hes, C.
        destruct (Hes e He). specialize (C e He). split; [done|lia|done].
      * apply strict_sorted; [apply sort_sorted|done].
    + by split_and!.
    + by rewrite mode_join_user.
    + by rewrite mode_join_other.
    + rewrite mode_join_group by done. split_and!; try done. cbn [entries]. by rewrite sort_perm, A.
  - apply Nat.ltb_ge in E7.
    change (Z.lor _ (other s)) with (mode_join (n_mode n) (user_obj s) (u32 (group_obj_perm s)) (other s)).
    rewrite u32_small by lia.
    destruct (mode_join_high (n_mode n) (user_obj s) (group_obj_perm s) (other s)) as [H9 Hm]; [done..|apply Hn|].
    split; cbn [n_mode set_acl n_acl n_uid n_gid n_flags n_xattr_dirty].
    + by split.
    + by split_and!.
    + by rewrite mode_join_user.
    + by rewrite mode_join_other.
    + rewrite mode_join_group by done. split; [|done]. rewrite <- A. apply nil_length_inv. lia.
Qed.

(** ** Lemmas: the round trip *)

Lemma scan_app es1 es2 s : scan_entries (es1 ++ es2) s = s' ← scan_entries es1 s; scan_entries es2 s'.
Proof.
  revert s. induction es1 as [|e es1 IH]; intros s; [done|]. cbn [app scan_entries].
  by repeat case_match.
Qed.

Lemma scan_named es s : Forall entry_ok es ->
  scan_entries es s =
  Some (Scan (user_obj s) (group_obj_perm s) (mask s) (other s) (named s ++ es)).
Proof.
  intros Hes. revert s. induction Hes as [|e es [Ht Hp Hi] _ IH]; intros s; cbn [scan_entries].
  { rewrite app_nil_r. by destruct s. }
  rewrite (proj2 (Z.ltb_ge 7 (perm e))) by lia.
  destruct Ht as [E|E]; rewrite E; cbn [ACL_USER ACL_GROUP ACL_USER_OBJ ACL_GROUP_OBJ ACL_MASK ACL_OTHER Z.eqb Pos.eqb orb];
    rewrite IH; cbn; by rewrite <- app_assoc.
Qed.

(** A sorted list is its users followed by its groups. *)
Lemma users_then_groups es : Forall entry_ok es -> ForallOrdPairs before es ->
  with_tag ACL_USER es ++ with_tag ACL_GROUP es = es.
Proof.
  intros Hok Hs. induction Hs as [|e es He Hs IH]; [done|].
  apply Forall_cons_1 in Hok as [[Ht _ _] Hok]. specialize (IH Hok). unfold with_tag in *.
  destruct Ht as [E|E].
  - rewrite filter_cons_True, filter_cons_False by (by rewrite E). cbn. by rewrite IH.
  - rewrite filter_cons_False, filter_cons_True by (by rewrite E).
    assert (filter (fun e => tag e = ACL_USER) es = []) as Hnil.
    { rewrite List.Forall_forall in He, Hok. destruct (filter _ es) as [|x l] eqn:Ef; [done|].
      assert (x ∈ filter (fun e => tag e = ACL_USER) es) as Hx by (rewrite Ef; left).
      apply list_elem_of_filter in Hx as [Hxt Hx%list_elem_of_In]. destruct (He x Hx) as [Hlt|[Hlt _]];
        rewrite E, Hxt in Hlt; unfold ACL_USER, ACL_GROUP in Hlt; lia. }
    rewrite Hnil in *. cbn in *. by rewrite IH.
Qed.

Lemma length_listed mode a : acl_ok a ->
  length (listed mode a) = (length (entries a) + 4)%nat.
Proof.
  intros [_ _ _ Hes Hs]. pose proof (f_equal length (users_then_groups _ Hes Hs)) as E.
  rewrite length_app in E. unfold listed. rewrite !length_app. cbn [length]. lia.
Qed.

Lemma with_tag_ok t es : Forall entry_ok es -> Forall entry_ok (with_tag t es).
Proof.
  rewrite !List.Forall_forall. intros H e He%list_elem_of_In. apply list_elem_of_filter in He as [_ He].
  by apply H, list_elem_of_In.
Qed.

Lemma listed_ok mode a : acl_ok a ->
  Forall (fun e => 0 <= tag e < 2 ^ 16 /\ 0 <= perm e < 2 ^ 16 /\ 0 <= id e < 2 ^ 32) (listed mode a).
Proof.
  intros [Hg _ _ Hes _].
  assert (forall t, Forall (fun e => 0 <= tag e < 2 ^ 16 /\ 0 <= perm e < 2 ^ 16 /\ 0 <= id e < 2 ^ 32)
    (with_tag t (entries a))) as Hw.
  { intros t. generalize (with_tag_ok t _ Hes). apply Forall_impl. intros e [[E|E] Hp Hi]; rewrite E;
    unfold ACL_USER, ACL_GROUP; lia. }
  unfold listed. repeat (apply Forall_app; split); try apply Hw; repeat constructor; cbn;
    pose proof (u16_bound (mode_user mode)); pose proof (u16_bound (mode_group mode));
    pose proof (u16_bound (mode_other mode)); pose proof (u16_bound (group_obj a));
    unfold ACL_USER_OBJ, ACL_GROUP_OBJ, ACL_MASK, ACL_OTHER, UINT32_MAX; lia.
Qed.

Lemma scan_single e es s s' : scan_entries [e] s = Some s' ->
  scan_entries (e :: es) s = scan_entries es s'.
Proof. intros E. change (e :: es) with ([e] ++ es). by rewrite scan_app, E. Qed.

Lemma scan_listed mode a : acl_ok a ->
  scan_entries (listed mode a) (Scan (-1) (-1) (-1) (-1) []) =
  Some (Scan (mode_user mode) (group_obj a) (mode_group mode) (mode_other mode) (entries a)).
Proof.
  intros [Hg _ _ Hes Hsort]. destruct (mode_part_bound mode) as (Hu & Hm & Ho).
  unfold listed. rewrite !(u16_small (mode_user mode)), (u16_small (group_obj a)),
    (u16_small (mode_group mode)), (u16_small (mode_other mode)) by lia.
  cbn [app].
  erewrite scan_single.
  2:{ cbn [scan_entries perm tag]. rewrite (proj2 (Z.ltb_ge 7 _)) by lia. cbn. reflexivity. }
  rewrite scan_app, (scan_named (with_tag ACL_USER (entries a))) by by apply with_tag_ok.
  cbn [mbind option_bind user_obj group_obj_perm mask other named app].
  erewrite scan_single.
  2:{ cbn [scan_entries perm tag]. rewrite (proj2 (Z.ltb_ge 7 _)) by lia. cbn. reflexivity. }
  rewrite scan_app, (scan_named (with_tag ACL_GROUP (entries a))) by by apply with_tag_ok.
  cbn [mbind option_bind user_obj group_obj_perm mask other named app].
  rewrite users_then_groups by done.
  erewrite scan_single.
  2:{ cbn [scan_entries perm tag]. rewrite (proj2 (Z.ltb_ge 7 _)) by lia. cbn. reflexivity. }
  cbn [scan_entries perm tag]. rewrite (proj2 (Z.ltb_ge 7 _)) by lia. cbn. reflexivity.
Qed.

Lemma apply_get n a size : node_ok n -> n_acl n = Some a ->
  4 + (Z.of_nat (length (entries a)) + 4) * 8 <= size ->
  let '(length, bytes) := acl_xattr_get n ACL_XATTR_ACCESS size in
  length = Z.of_nat (List.length bytes) /\ apply n (Some bytes) true = (0, n).
Proof.
  intros Hn Ha Hsize. unfold acl_xattr_get. change (is_access ACL_XATTR_ACCESS) with true.
  cbn [negb]. rewrite Ha. pose proof (ok_acl _ Hn _ Ha) as Hok.
  rewrite (proj2 (Z.eqb_neq size 0)), (proj2 (Z.ltb_ge size _)) by lia.
  set (bytes := le_bytes 4 ACL_VERSION ++ _).
  assert (Z.of_nat (length bytes) = 4 + (Z.of_nat (length (entries a)) + 4) * 8) as Hlen.
  { unfold bytes. rewrite length_app, length_le_bytes, length_put_entries, length_listed by done. lia. }
  pose proof (ok_room _ Hok) as Hroom. unfold ACL_MAX_ENTRIES in Hroom.
  pose proof (ok_some _ Hok) as Hsome.
  assert (0 < length (entries a))%nat as Hpos by (destruct (entries a); [done|cbn; lia]).
  split; [lia|]. unfold apply. rewrite Hlen, (u64_small (_ - 4)) by lia.
  replace (4 + (Z.of_nat (length (entries a)) + 4) * 8 - 4) with ((Z.of_nat (length (entries a)) + 4) * 8) by lia.
  rewrite Z.mod_mul, Z.div_mul, (u32_small (_ + 4)) by lia.
  rewrite (proj2 (Z.ltb_ge _ 4)) by lia. cbn [orb negb Z.eqb].
  assert (take 4 bytes = le_bytes 4 ACL_VERSION) as -> by (apply take_app_length'; reflexivity).
  change (le_join (le_bytes 4 ACL_VERSION) =? ACL_VERSION) with true. cbn [negb].
  rewrite (proj2 (Z.ltb_ge _ 3)), (proj2 (Z.ltb_ge ACL_MAX_ENTRIES _)) by (unfold ACL_MAX_ENTRIES; lia).
  cbn [orb]. assert (drop 4 bytes = listed (n_mode n) a ≫= put_entry) as -> by (apply drop_app_length'; reflexivity).
  replace (Z.to_nat (Z.of_nat (length (entries a)) + 4)) with (length (listed (n_mode n) a))
    by (rewrite length_listed by done; lia).
  rewrite get_put_entries, scan_listed by (done || by apply listed_ok).
  destruct (mode_part_bound (n_mode n)) as (Hu & Hm & Ho). destruct Hok as [Hg _ _ Hes Hsort].
  cbn [user_obj group_obj_perm mask other named].
  rewrite !(proj2 (Z.ltb_ge _ 0)), (proj2 (Nat.ltb_lt 0 _)) by lia. cbn [orb andb].
  rewrite sort_id, no_duplicate by done. cbn [negb].
  rewrite !(u32_small (mode_user (n_mode n))), !(u32_small (mode_group (n_mode n))),
    (u32_small (mode_other (n_mode n))), (u32_small (group_obj a)) by lia.
  change (Z.lor _ (mode_other (n_mode n))) with
    (mode_join (n_mode n) (mode_user (n_mode n)) (mode_group (n_mode n)) (mode_other (n_mode n))).
  f_equal. destruct n as [nu ng nm nf na nd]. cbn in *. subst na. unfold set_acl. cbn.
  destruct (mode_join_high nm (mode_user nm) (mode_group nm) (mode_other nm)) as [H9 Hb]; [done..|apply Hn|].
  replace (mode_join nm (mode_user nm) (mode_group nm) (mode_other nm)) with nm; [by destruct a|].
  symmetry. apply mode_ext; [done|apply Hn|done|by apply mode_join_user|by apply mode_join_group|by apply mode_join_other].
Qed.

(** ** Lemmas: the permission check *)

(** The access check algorithm of POSIX.1e for a process that does not own the
    node: a named user's entry decides alone; otherwise one matching group entry
    has to grant everything wanted; otherwise the other class decides. *)
Definition group_matches (n : vfs_node) (a : vfs_acl) (cred : credentials) (p : Z) : Prop :=
  (in_group cred (n_gid n) = true /\ p = group_obj a) \/
  exists e, e ∈ entries a /\ tag e = ACL_GROUP /\ in_group cred (id e) = true /\ p = perm e.

Definition acl_access (n : vfs_node) (a : vfs_acl) (cred : credentials) (want : Z) : Prop :=
  let m := mode_group (n_mode n) in
  (exists e, e ∈ entries a /\ tag e = ACL_USER /\ id e = fsuid cred /\ grants (Z.land (perm e) m) want = true) \/
  ((forall e, e ∈ entries a -> tag e = ACL_USER -> id e <> fsuid cred) /\
   ((exists p, group_matches n a cred p /\ grants (Z.land p m) want = true) \/
    ((forall p, ~ group_matches n a cred p) /\ grants (mode_other (n_mode n)) want = true))).

Lemma find_user_spec es u :
  match find_user es u with
  | Some p => exists e, e ∈ es /\ tag e = ACL_USER /\ id e = u /\ perm e = p
  | None => forall e, e ∈ es -> tag e = ACL_USER -> id e <> u
  end.
Proof.
  induction es as [|e es IH]; cbn [find_user]; [intros e He; by apply elem_of_nil in He|].
  destruct (_ && _) eqn:E.
  - exists e. split; [by left|]. lia.
  - destruct (find_user es u) as [p|].
    + destruct IH as (x & Hx & H). exists x. split; [by right|done].
    + intros x Hx Ht. apply elem_of_cons in Hx as [->|Hx]; [lia|auto].
Qed.

(** Entries of a sorted list with the same tag and number are the same. *)
Lemma entry_unique es e e' : ForallOrdPairs before es -> e ∈ es -> e' ∈ es ->
  tag e = tag e' -> id e = id e' -> e = e'.
Proof.
  intros Hs He%list_elem_of_In He'%list_elem_of_In Ht Hi.
  destruct (ForallOrdPairs_In Hs e e' He He') as [|[H|H]]; [done|..]; unfold before in H; lia.
Qed.

Lemma scan_groups_spec es cred m want matched :
  match scan_groups es cred m want matched with
  | inl b => b = true /\ exists e, e ∈ es /\ tag e = ACL_GROUP /\ in_group cred (id e) = true /\
      grants (Z.land (perm e) m) want = true
  | inr b =>
      (b = true <-> matched = true \/ exists e, e ∈ es /\ tag e = ACL_GROUP /\ in_group cred (id e) = true) /\
      forall e, e ∈ es -> tag e = ACL_GROUP -> in_group cred (id e) = true ->
        grants (Z.land (perm e) m) want = false
  end.
Proof.
  revert matched. induction es as [|e es IH]; intros matched; cbn [scan_groups].
  { split; [split; [auto|intros [|(e & He & _)]; [done|by apply elem_of_nil in He]]|].
    intros e He. by apply elem_of_nil in He. }
  destruct (Z.eqb_spec (tag e) ACL_GROUP) as [Et|Et], (in_group cred (id e)) eqn:Eg; cbn [negb orb].
  { destruct (grants (Z.land (perm e) m) want) eqn:Egr.
    - split; [done|]. exists e. split; [by left|done].
    - specialize (IH true). destruct (scan_groups es cred m want true) as [b|b].
      + destruct IH as (-> & x & Hx & H). split; [done|]. exists x. split; [by right|done].
      + destruct IH as [Hb H]. split.
        * split; [intros _; right; exists e; split; [by left|done]|intros _; apply Hb; by left].
        * intros x Hx. apply elem_of_cons in Hx as [->|Hx]; auto. }
  all: specialize (IH matched); destruct (scan_groups es cred m want matched) as [b|b];
    [destruct IH as (-> & x & Hx & H); split; [done|]; exists x; split; [by right|done]|].
  all: destruct IH as [Hb H]; split;
    [rewrite Hb; split; (intros [|(x & Hx & Hxt & Hxg)]; [by left|right; exists x]);
       [split; [by right|done]|apply elem_of_cons in Hx as [->|Hx]; [congruence|done]]
    |intros x Hx Hxt Hxg; apply elem_of_cons in Hx as [->|Hx]; [congruence|auto]].
Qed.

Lemma acl_permission_spec n a cred want : acl_ok a -> n_acl n = Some a -> fsuid cred <> n_uid n ->
  exists b, acl_permission n cred want = (b, true) /\ (b = true <-> acl_access n a cred want).
Proof.
  intros [_ _ _ Hes Hsort] Ha Hne. unfold acl_permission. rewrite Ha, (proj2 (Z.eqb_neq _ _)) by done.
  set (m := mode_group (n_mode n)). unfold acl_access. fold m.
  pose proof (find_user_spec (entries a) (fsuid cred)) as Hu.
  destruct (find_user (entries a) (fsuid cred)) as [p|].
  { destruct Hu as (e & He & Ht & Hi & <-). eexists. split; [done|]. split.
    - intros Hg. left. by exists e.
    - intros [(e' & He' & Ht' & Hi' & Hg)|[Hno _]]; [|by destruct (Hno e)].
      by rewrite (entry_unique (entries a) e e') by congruence. }
  assert ((exists e, e ∈ entries a /\ tag e = ACL_USER /\ id e = fsuid cred /\
    grants (Z.land (perm e) m) want = true) -> False) as Hnou by (intros (e & He & Ht & Hi & _); by apply (Hu e)).
  destruct (in_group cred (n_gid n) && grants (Z.land (group_obj a) m) want) eqn:Eo.
  { eexists. split; [done|]. split; [|done]. intros _. right. split; [done|]. left. exists (group_obj a).
    apply andb_true_iff in Eo as [E1 E2]. split; [by left|done]. }
  pose proof (scan_groups_spec (entries a) cred m want (in_group cred (n_gid n))) as Hs.
  destruct (scan_groups _ _ _ _ _) as [b|b].
  { destruct Hs as (-> & e & He & Ht & Hg & Hgr). eexists. split; [done|]. split; [|done].
    intros _. right. split; [done|]. left. exists (perm e). split; [|done]. right. by exists e. }
  destruct Hs as [Hb Hno].
  assert (forall p, group_matches n a cred p -> grants (Z.land p m) want = false) as Hden.
  { intros p [[E ->]|(e & He & Ht & Hg & ->)]; [|by apply Hno]. rewrite E in Eo. done. }
  destruct b; (eexists; split; [done|]; split).
  - done.
  - intros [?|[_ [(p & Hp & Hg)|[Hnm _]]]]; [tauto|rewrite (Hden p Hp) in Hg; done|].
    exfalso. destruct (proj1 Hb eq_refl) as [E|(e & He & Ht & Hg)];
      [apply (Hnm (group_obj a)); by left|apply (Hnm (perm e)); right; by exists e].
  - intros Hg. right. split; [done|]. right. split; [|exact Hg].
    intros p Hp. assert (false = true); [|done]. apply Hb.
    destruct Hp as [[E _]|(e & He & Ht & Hge & _)]; [by left|right; by exists e].
  - intros [?|[_ [(p & Hp & Hg)|[_ Hg]]]]; [tauto|rewrite (Hden p Hp) in Hg; done|done].
Qed.

(** ** Properties *)

(** Setting the access ACL: the attribute is refused without effect, or the
    caller owns the writable node and the value had exactly one owner, group and
    other entry, valid permissions and no repeated user or group; then the mode
    bits are those entries (the mask standing for the group class when there are
    named entries), the rest of the mode is kept, and the stored list is the named
    entries in order. *)
Theorem acl_xattr_set_correct n cred name bytes flags allocated :
  node_ok n -> Forall (fun b => 0 <= b < 256) bytes ->
  let '(status, n') := acl_xattr_set n cred name (Some bytes) flags allocated in
  (status <> 0 /\ n' = n) \/
  (status = 0 /\ name = ACL_XATTR_ACCESS /\ may_change n cred = 0 /\
   exists n1, installed n (value_entries bytes) n1 /\ n' = set_acl n1 (n_mode n1) (n_acl n1) true).
Proof.
  intros Hn Hb. unfold acl_xattr_set.
  branch E1; [by left|]. branch E2; [by left|]. branch E3; [left; split; [lia|done]|].
  branch E4; [by left|]. branch E5; [by left|]. branch E6; [by left|].
  pose proof (acl_apply_ok n bytes allocated Hn Hb) as Ha. destruct (apply _ _ _) as [status n1].
  destruct Ha as [[Hs ->]|[-> Hi]].
  - rewrite (proj2 (Z.eqb_neq _ _)) by done. by left.
  - right. cbn. split_and!; [done|by apply String.eqb_eq, negb_false_iff|lia|by exists n1].
Qed.

Definition demo_acl : vfs_acl := Acl 5 [Entry ACL_USER 6 1000; Entry ACL_GROUP 4 50].
Definition demo_node : vfs_node := Node 1 2 0x81e8 1 (Some demo_acl) false.

Lemma demo_node_ok : node_ok demo_node.
Proof.
  split; [cbn; lia|]. intros a [= <-]. split; cbn; try lia; try done.
  - repeat constructor; unfold is_named; cbn; auto; lia.
  - repeat constructor; unfold ACL_USER, ACL_GROUP; cbn; lia.
Qed.

Lemma get_bytes_ok n name size : Forall (fun b => 0 <= b < 256) (acl_xattr_get n name size).2.
Proof.
  unfold acl_xattr_get. repeat case_match; cbn [snd]; try apply List.Forall_nil.
  apply Forall_app. split; [apply le_bytes_byte|]. induction (listed _ _) as [|e es IH]; [constructor|].
  rewrite bind_cons. apply Forall_app. split; [|done]. unfold put_entry.
  repeat (apply Forall_app; split); apply le_bytes_byte.
Qed.

Lemma acl_xattr_set_correct_witness :
  let bytes := (acl_xattr_get demo_node ACL_XATTR_ACCESS 200).2 in
  exists n1, installed demo_node (value_entries bytes) n1 /\
  acl_xattr_set demo_node None ACL_XATTR_ACCESS (Some bytes) 0 true =
    (0, set_acl n1 (n_mode n1) (n_acl n1) true).
Proof.
  pose proof (acl_xattr_set_correct demo_node None ACL_XATTR_ACCESS
    (acl_xattr_get demo_node ACL_XATTR_ACCESS 200).2 0 true demo_node_ok (get_bytes_ok _ _ _)) as H.
  destruct (acl_xattr_set _ _ _ _ _ _) as [status n'] eqn:E.
  destruct H as [[Hs _]|(-> & _ & _ & n1 & Hi & ->)].
  - exfalso. apply Hs. vm_compute in E. congruence.
  - exists n1. done.
Defined.

(** C40. The round trip: writing back the attribute [acl_xattr_get] produced
    leaves the node as it was, list and mode included. *)
Theorem acl_roundtrip n a size : node_ok n -> n_acl n = Some a ->
  4 + (Z.of_nat (length (entries a)) + 4) * 8 <= size ->
  let '(length, bytes) := acl_xattr_get n ACL_XATTR_ACCESS size in
  length = Z.of_nat (List.length bytes) /\ apply n (Some bytes) true = (0, n).
Proof. apply apply_get. Qed.

Lemma acl_roundtrip_witness :
  apply demo_node (Some (acl_xattr_get demo_node ACL_XATTR_ACCESS 200).2) true = (0, demo_node).
Proof.
  pose proof (acl_roundtrip demo_node demo_acl 200 demo_node_ok eq_refl ltac:(vm_compute; discriminate)) as H.
  apply H.
Defined.

(** A mask without named entries is dropped: the group class gets the bits of the
    group entry although the value limits them. *)
Example mask_without_named_entries :
  let value := le_bytes 4 ACL_VERSION ++ ([Entry ACL_USER_OBJ 7 UINT32_MAX; Entry ACL_GROUP_OBJ 7 UINT32_MAX;
    Entry ACL_MASK 4 UINT32_MAX; Entry ACL_OTHER 0 UINT32_MAX] ≫= put_entry) in
  apply (Node 1 2 0x8000 1 None false) (Some value) true = (0, Node 1 2 0x81f8 1 None false).
Proof. vm_compute. reflexivity. Qed.
