(* ===== verification/Cred.v ===== *)
(** * Credentials (kernel/core/cred.c)

    The identity of a process, the calls that change it, and the permission
    checks on nodes and paths.  [cred] is [None] where [cred_current] is NULL (no
    current process).  The lookup of a path in the tree is an argument:
    [vfs_lookup] finds a node, [vfs_lookup_error] tells why it did not. *)

From stdpp Require Import relations.
From S2P Require Import Prelude.
From S2P Require Import Acl.

Definition MODE_SETUID : Z := 0x800.
Definition MODE_SETGID : Z := 0x400.
Definition MODE_STICKY : Z := 0x200.
Definition CRED_MAX_GROUPS : Z := 65536.
Definition CRED_UNCHANGED : Z := 0xFFFFFFFF.
Definition CRED_EXEC : Z := 1.
Definition CRED_WRITE : Z := 2.
Definition CRED_READ : Z := 4.
Definition VFS_PATH_MAX : Z := 4096.

(** ** Checks on a node *)

Definition cred_is_root (cred : option credentials) : bool :=
  match cred with
  | None => true
  | Some c => euid c =? 0
  end.

Definition cred_has_group (cred : option credentials) (g : Z) : bool :=
  match cred with
  | None => true
  | Some c => if egid c =? g then true else existsb (Z.eqb g) (groups c)
  end.

Definition in_file_group (c : credentials) (g : Z) : bool :=
  if fsgid c =? g then true else existsb (Z.eqb g) (groups c).

Definition cred_owns (cred : option credentials) (n : vfs_node) : bool :=
  match cred with
  | None => true
  | Some c => (fsuid c =? 0) || (fsuid c =? n_uid n)
  end.

Definition is_directory (n : vfs_node) : bool := Z.land (n_flags n) 0xFF =? VFS_DIRECTORY.

Definition cred_may (cred : option credentials) (node : option vfs_node) (want : Z) : Z :=
  match node with
  | None => - ENOENT
  | Some n =>
      match cred with
      | None => 0
      | Some c =>
          if want =? 0 then 0 else
          let '(granted, decided) := acl_permission n c want in
          let allowed :=
            if decided then (if granted then want else 0)
            else if fsuid c =? n_uid n then mode_user (n_mode n)
            else if in_file_group c (n_gid n) then mode_group (n_mode n)
            else mode_other (n_mode n) in
          if Z.land allowed want =? want then 0 else
          if fsuid c =? 0 then
            if Z.land want CRED_EXEC =? 0 then 0
            else if is_directory n then 0
            else if negb (Z.land (n_mode n) 0x49 =? 0) then 0
            else - EACCES
          else - EACCES
      end
  end.

(** ** Checks on a path

    Paths are byte strings; 47 is the slash. *)

Section paths.
Variable vfs_lookup : list Z -> option vfs_node.
Variable vfs_lookup_error : list Z -> Z.

Definition missing (path : list Z) : Z :=
  if vfs_lookup_error path =? 0 then - ENOENT else - vfs_lookup_error path.

(** The loop over the slashes of the path from [index] on, with [n] characters
    left. *)
Fixpoint search_loop (cred : option credentials) (path : list Z) (n index : nat) : Z :=
  match n with
  | O => 0
  | S n =>
      if negb (bool_decide (path !! index = Some 47)) then search_loop cred path n (S index) else
      match vfs_lookup (take index path) with
      | None => missing path
      | Some directory =>
          let status := cred_may cred (Some directory) CRED_EXEC in
          if negb (status =? 0) then status else search_loop cred path n (S index)
      end
  end.

(** [buffer] is whether a path buffer could be had. *)
Definition cred_may_search (cred : option credentials) (buffer : bool) (path : list Z) : Z :=
  match cred with
  | None => 0
  | Some c =>
      if (fsuid c =? 0) || negb (bool_decide (path !! 0%nat = Some 47)) then 0 else
      if VFS_PATH_MAX <=? Z.of_nat (length path) then - ENAMETOOLONG else
      if negb buffer then - ENOMEM else
      search_loop cred path (length path - 1) 1
  end.

Definition cred_may_path (cred : option credentials) (buffer : bool) (path : list Z)
  (node : option vfs_node) (want : Z) : Z :=
  let status := cred_may_search cred buffer path in
  if negb (status =? 0) then status else cred_may cred node want.

(** [while (length > 1 && test(buffer[length - 1])) length--;] *)
Fixpoint strip (test : Z -> bool) (path : list Z) (len : nat) : nat :=
  match len with
  | S (S _ as shorter) =>
      match path !! shorter with
      | Some c => if test c then strip test path shorter else len
      | None => len
      end
  | _ => len
  end.

(** The path of the parent directory, as [parent_of] leaves it in its buffer. *)
Definition parent_path (path : list Z) : list Z :=
  let len := strip (Z.eqb 47) path (length path) in
  let len := strip (fun c => negb (c =? 47)) path len in
  let len := (if 1 <? len then len - 1 else len)%nat in
  take (if (len =? 0)%nat then 1 else len) path.

Definition parent_of (buffer : bool) (path : list Z) : Z + vfs_node :=
  if negb buffer || (VFS_PATH_MAX <=? Z.of_nat (length path)) then inl (- ENOENT) else
  match vfs_lookup (parent_path path) with
  | None => inl (missing (parent_path path))
  | Some parent => if negb (is_directory parent) then inl (- ENOTDIR) else inr parent
  end.

Definition cred_may_write_parent (cred : option credentials) (buffer : bool) (path : list Z) : Z :=
  let status := cred_may_search cred buffer path in
  if negb (status =? 0) then status else
  match parent_of buffer path with
  | inl error => error
  | inr parent =>
      if negb (Z.land (n_flags parent) VFS_READONLY =? 0) then - EROFS else
      match cred with
      | None => 0
      | Some c =>
          if fsuid c =? 0 then 0 else cred_may cred (Some parent) (Z.lor CRED_WRITE CRED_EXEC)
      end
  end.

Definition cred_may_remove (cred : option credentials) (buffer : bool) (path : list Z)
  (node : vfs_node) : Z :=
  let status := cred_may_write_parent cred buffer path in
  if negb (status =? 0) then status else
  match cred with
  | None => 0
  | Some c =>
      if fsuid c =? 0 then 0 else
      match parent_of buffer path with
      | inl _ => 0
      | inr parent =>
          if Z.land (n_mode parent) MODE_STICKY =? 0 then 0
          else if (fsuid c =? n_uid node) || (fsuid c =? n_uid parent) then 0
          else - EPERM
      end
  end.
End paths.

(** [parent] is the directory of the new node, if it has one. *)
Definition cred_stamp_new_node (cred : option credentials) (n : vfs_node) (parent : option vfs_node)
  : vfs_node :=
  match cred with
  | None => n
  | Some c =>
      let plain := Node (fsuid c) (fsgid c) (n_mode n) (n_flags n) (n_acl n) (n_xattr_dirty n) in
      match parent with
      | None => plain
      | Some p =>
          if Z.land (n_mode p) MODE_SETGID =? 0 then plain
          else Node (fsuid c) (n_gid p)
                 (if is_directory n then Z.lor (n_mode n) MODE_SETGID else n_mode n)
                 (n_flags n) (n_acl n) (n_xattr_dirty n)
      end
  end.

(** ** Changing the identity *)

Definition privileged (c : credentials) : bool := euid c =? 0.
Definition one_of (value a b c : Z) : bool := (value =? a) || (value =? b) || (value =? c).
Definition given (value : Z) : bool := negb (value =? CRED_UNCHANGED).

Definition set_uids (c : credentials) (u e s f : Z) : credentials :=
  Cred u (gid c) e (egid c) s (sgid c) f (fsgid c) (groups c).
Definition set_gids (c : credentials) (g e s f : Z) : credentials :=
  Cred (uid c) g (euid c) e (suid c) s (fsuid c) f (groups c).

Definition cred_set_uid (c : credentials) (u : Z) : Z * credentials :=
  if u =? CRED_UNCHANGED then (- EINVAL, c) else
  if privileged c then (0, set_uids c u u u u) else
  if negb (u =? uid c) && negb (u =? suid c) then (- EPERM, c)
  else (0, set_uids c (uid c) u (suid c) u).

Definition cred_set_gid (c : credentials) (g : Z) : Z * credentials :=
  if g =? CRED_UNCHANGED then (- EINVAL, c) else
  if privileged c then (0, set_gids c g g g g) else
  if negb (g =? gid c) && negb (g =? sgid c) then (- EPERM, c)
  else (0, set_gids c (gid c) g (sgid c) g).

Definition cred_set_reuid (c : credentials) (r e : Z) : Z * credentials :=
  if negb (privileged c) && given r && negb (r =? uid c) && negb (r =? euid c) then (- EPERM, c) else
  if negb (privileged c) && given e && negb (one_of e (uid c) (euid c) (suid c)) then (- EPERM, c) else
  let new_uid := if given r then r else uid c in
  let new_euid := if given e then e else euid c in
  let new_suid := if given r || (given e && negb (e =? uid c)) then new_euid else suid c in
  (0, set_uids c new_uid new_euid new_suid new_euid).

Definition cred_set_regid (c : credentials) (r e : Z) : Z * credentials :=
  if negb (privileged c) && given r && negb (r =? gid c) && negb (r =? egid c) then (- EPERM, c) else
  if negb (privileged c) && given e && negb (one_of e (gid c) (egid c) (sgid c)) then (- EPERM, c) else
  let new_gid := if given r then r else gid c in
  let new_egid := if given e then e else egid c in
  let new_sgid := if given r || (given e && negb (e =? gid c)) then new_egid else sgid c in
  (0, set_gids c new_gid new_egid new_sgid new_egid).

Definition cred_set_resuid (c : credentials) (r e s : Z) : Z * credentials :=
  if negb (privileged c) &&
     existsb (fun v => given v && negb (one_of v (uid c) (euid c) (suid c))) [r; e; s]
  then (- EPERM, c) else
  let new_euid := if given e then e else euid c in
  (0, set_uids c (if given r then r else uid c) new_euid (if given s then s else suid c) new_euid).

Definition cred_set_resgid (c : credentials) (r e s : Z) : Z * credentials :=
  if negb (privileged c) &&
     existsb (fun v => given v && negb (one_of v (gid c) (egid c) (sgid c))) [r; e; s]
  then (- EPERM, c) else
  let new_egid := if given e then e else egid c in
  (0, set_gids c (if given r then r else gid c) new_egid (if given s then s else sgid c) new_egid).

Definition cred_set_fsuid (c : credentials) (f : Z) : Z * credentials :=
  (fsuid c,
   if privileged c || (f =? uid c) || (f =? euid c) || (f =? suid c) || (f =? fsuid c)
   then set_uids c (uid c) (euid c) (suid c) f else c).

Definition cred_set_fsgid (c : credentials) (f : Z) : Z * credentials :=
  (fsgid c,
   if privileged c || (f =? gid c) || (f =? egid c) || (f =? sgid c) || (f =? fsgid c)
   then set_gids c (gid c) (egid c) (sgid c) f else c).

(** [list] is the caller's array; [allocated] whether the copy could be made. *)
Definition cred_set_groups (c : credentials) (list : list Z) (allocated : bool) : Z * credentials :=
  let count := Z.of_nat (length list) in
  if CRED_MAX_GROUPS <? count then (- EINVAL, c) else
  if negb (privileged c) then (- EPERM, c) else
  if negb (count =? 0) && negb allocated then (- ENOMEM, c) else
  (0, Cred (uid c) (gid c) (euid c) (egid c) (suid c) (sgid c) (fsuid c) (fsgid c) list).

Definition cred_apply_exec (c : credentials) (node : option vfs_node) (no_new_privs : bool)
  : credentials :=
  let '(e, g) :=
    match node with
    | Some n =>
        if no_new_privs then (euid c, egid c) else
        (if negb (Z.land (n_mode n) MODE_SETUID =? 0) then n_uid n else euid c,
         if negb (Z.land (n_mode n) MODE_SETGID =? 0) && negb (Z.land (n_mode n) 8 =? 0)
         then n_gid n else egid c)
    | None => (euid c, egid c)
    end in
  Cred (uid c) (gid c) e g e g e g (groups c).

(** ** Lemmas *)

Lemma in_group_same c g : in_file_group c g = in_group c g.
Proof. done. Qed.

(** The rule of POSIX.1e for a process and a node. *)
Definition posix_permits (n : vfs_node) (c : credentials) (want : Z) : Prop :=
  if decide (fsuid c = n_uid n) then grants (mode_user (n_mode n)) want = true
  else match n_acl n with
       | Some a => acl_access n a c want
       | None =>
           if in_file_group c (n_gid n) then grants (mode_group (n_mode n)) want = true
           else grants (mode_other (n_mode n)) want = true
       end.

(** What the superuser may do regardless: everything but execute a file that
    nobody may execute. *)
Definition root_override (n : vfs_node) (want : Z) : Prop :=
  Z.land want CRED_EXEC = 0 \/ is_directory n = true \/ Z.land (n_mode n) 0x49 <> 0.

(** The answer before the superuser's override. *)
Lemma allowed_spec n c want : node_ok n -> want <> 0 ->
  let '(granted, decided) := acl_permission n c want in
  Z.land (if (decided : bool) then (if (granted : bool) then want else 0)
     else if fsuid c =? n_uid n then mode_user (n_mode n)
     else if in_file_group c (n_gid n) then mode_group (n_mode n)
     else mode_other (n_mode n)) want =? want = true <-> posix_permits n c want.
Proof.
  intros Hn Hw. unfold posix_permits.
  destruct (decide (fsuid c = n_uid n)) as [E|E].
  - unfold acl_permission. rewrite (proj2 (Z.eqb_eq _ _) E). by destruct (n_acl n).
  - destruct (n_acl n) as [a|] eqn:Ea.
    + destruct (acl_permission_spec n a c want) as (b & -> & Hb); [by apply Hn|done..|].
      rewrite <- Hb. destruct b; [by rewrite Z.land_diag, Z.eqb_refl|].
      rewrite Z.land_0_l. split; [lia|done].
    + unfold acl_permission. rewrite Ea, (proj2 (Z.eqb_neq _ _) E). by destruct (in_file_group _ _).
Qed.

Lemma cred_may_spec n c want : node_ok n -> want <> 0 ->
  (cred_may (Some c) (Some n) want = 0 <->
     posix_permits n c want \/ (fsuid c = 0 /\ root_override n want)) /\
  (cred_may (Some c) (Some n) want = 0 \/ cred_may (Some c) (Some n) want = - EACCES).
Proof.
  intros Hn Hw. pose proof (allowed_spec n c want Hn Hw) as Ha. unfold cred_may, root_override.
  rewrite (proj2 (Z.eqb_neq want 0)) by done. destruct (acl_permission n c want) as [granted decided].
  branch E1; [split; [split; [left; by apply Ha|done]|by left]|].
  assert (~ posix_permits n c want) as Hnp by (intros H; apply Ha in H; congruence).
  destruct (Z.eqb_spec (fsuid c) 0) as [E2|E2]; [|split; [split; [done|tauto]|by right]].
  destruct (Z.eqb_spec (Z.land want CRED_EXEC) 0); [split; [split; [right; auto|done]|by left]|].
  destruct (is_directory n); [split; [split; [right; auto|done]|by left]|].
  destruct (Z.eqb_spec (Z.land (n_mode n) 0x49) 0); cbn [negb];
    [split; [split; [done|]|by right]|split; [split; [right; auto|done]|by left]].
  intros [|[_ [|[|]]]]; done.
Qed.

(** ** Lemmas: path search *)

Lemma missing_nonzero err path : 0 <= err path -> missing err path <> 0.
Proof. intros. unfold missing. destruct (Z.eqb_spec (err path) 0); [done|lia]. Qed.

(** Every directory on the way grants search permission. *)
Definition searchable (lookup : list Z -> option vfs_node) (c : option credentials) (path : list Z)
  (lo hi : nat) : Prop :=
  forall i, (lo <= i < hi)%nat -> path !! i = Some 47 ->
  exists d, lookup (take i path) = Some d /\ cred_may c (Some d) CRED_EXEC = 0.

Lemma search_loop_ok lookup err c path n index : (forall p, 0 <= err p) ->
  search_loop lookup err c path n index = 0 <-> searchable lookup c path index (index + n).
Proof.
  intros Herr. revert index. induction n as [|n IH]; intros index; cbn [search_loop].
  { split; [|done]. intros _ i Hi. lia. }
  assert (searchable lookup c path index (index + S n) <->
    (path !! index = Some 47 -> exists d, lookup (take index path) = Some d /\ cred_may c (Some d) CRED_EXEC = 0) /\
    searchable lookup c path (S index) (S index + n)) as ->.
  { unfold searchable. split.
    - intros H. split; [apply H; lia|]. intros i Hi. apply H. lia.
    - intros [H1 H2] i Hi. destruct (decide (i = index)) as [->|]; [done|]. apply H2. lia. }
  case_bool_decide as Es; cbn [negb].
  - destruct (lookup (take index path)) as [d|].
    + destruct (Z.eqb_spec (cred_may c (Some d) CRED_EXEC) 0) as [E|E]; cbn [negb].
      * rewrite IH. split; [|tauto]. intros H. split; [|done]. intros _. by exists d.
      * split; [done|]. intros [H _]. by destruct (H Es) as (d' & [= <-] & ?).
    + split; [intros H; by apply missing_nonzero in H|]. intros [H _]. by destruct (H Es) as (d & ? & _).
  - rewrite IH. tauto.
Qed.

(** ** Lemmas: identities *)

Definition uids (c : credentials) : list Z := [uid c; euid c; suid c].
Definition gids (c : credentials) : list Z := [gid c; egid c; sgid c].

(** The identity changes a process can make by itself; a program run under
    no_new_privs counts, one that is set-user-ID does not. *)
Inductive cred_step (c : credentials) : credentials -> Prop :=
  | step_uid u : cred_step c (cred_set_uid c u).2
  | step_gid g : cred_step c (cred_set_gid c g).2
  | step_reuid r e : cred_step c (cred_set_reuid c r e).2
  | step_regid r e : cred_step c (cred_set_regid c r e).2
  | step_resuid r e s : cred_step c (cred_set_resuid c r e s).2
  | step_resgid r e s : cred_step c (cred_set_resgid c r e s).2
  | step_fsuid f : cred_step c (cred_set_fsuid c f).2
  | step_fsgid f : cred_step c (cred_set_fsgid c f).2
  | step_groups l ok : cred_step c (cred_set_groups c l ok).2
  | step_exec node : cred_step c (cred_apply_exec c node true).

(** [c] has only identities of [c0]. *)
Definition within (c0 c : credentials) : Prop :=
  (uid c ∈ uids c0 /\ euid c ∈ uids c0 /\ suid c ∈ uids c0) /\
  (gid c ∈ gids c0 /\ egid c ∈ gids c0 /\ sgid c ∈ gids c0) /\
  fsuid c ∈ fsuid c0 :: uids c0 /\ fsgid c ∈ fsgid c0 :: gids c0 /\ groups c = groups c0.

(** The value is one of the identities the last test allowed. *)
Ltac pick := subst; first [assumption | cbn in *; congruence].

Lemma within_step c0 c c' : 0 ∉ uids c0 -> within c0 c -> cred_step c c' -> within c0 c'.
Proof.
  intros H0 ((Hu & He & Hsu) & (Hg & Heg & Hsg) & Hf & Hfg & Hgr) Hs.
  assert (privileged c = false) as Hp.
  { unfold privileged. apply Z.eqb_neq. intros E. by rewrite E in He. }
  assert (forall v, v ∈ uids c0 -> v ∈ fsuid c0 :: uids c0) as Hfu by (intros; by right).
  assert (forall v, v ∈ gids c0 -> v ∈ fsgid c0 :: gids c0) as Hfg' by (intros; by right).
  unfold within.
  destruct Hs as [u|g|r e|r e|r e s|r e s|f|f|l ok|node]; cbn [snd].
  - unfold cred_set_uid. rewrite Hp. branch E1; [by split_and!|]. branch E2; [by split_and!|].
    assert (u ∈ uids c0) by (destruct (Z.eqb_spec u (uid c)), (Z.eqb_spec u (suid c)); pick).
    cbn. split_and!; auto.
  - unfold cred_set_gid. rewrite Hp. branch E1; [by split_and!|]. branch E2; [by split_and!|].
    assert (g ∈ gids c0) by (destruct (Z.eqb_spec g (gid c)), (Z.eqb_spec g (sgid c)); pick).
    cbn. split_and!; auto.
  - unfold cred_set_reuid. rewrite Hp. branch E1; [by split_and!|]. branch E2; [by split_and!|].
    assert (given r = true -> r ∈ uids c0) as Hr.
    { intros Hgv. rewrite Hgv in E1. destruct (Z.eqb_spec r (uid c)), (Z.eqb_spec r (euid c)); pick. }
    assert (given e = true -> e ∈ uids c0) as Hee.
    { intros Hgv. rewrite Hgv in E2. unfold one_of in E2.
      destruct (Z.eqb_spec e (uid c)), (Z.eqb_spec e (euid c)), (Z.eqb_spec e (suid c)); pick. }
    cbn. destruct (given r), (given e); cbn [orb andb]; try destruct (e =? uid c); cbn [negb]; split_and!; auto.
  - unfold cred_set_regid. rewrite Hp. branch E1; [by split_and!|]. branch E2; [by split_and!|].
    assert (given r = true -> r ∈ gids c0) as Hr.
    { intros Hgv. rewrite Hgv in E1. destruct (Z.eqb_spec r (gid c)), (Z.eqb_spec r (egid c)); pick. }
    assert (given e = true -> e ∈ gids c0) as Hee.
    { intros Hgv. rewrite Hgv in E2. unfold one_of in E2.
      destruct (Z.eqb_spec e (gid c)), (Z.eqb_spec e (egid c)), (Z.eqb_spec e (sgid c)); pick. }
    cbn. destruct (given r), (given e); cbn [orb andb]; try destruct (e =? gid c); cbn [negb]; split_and!; auto.
  - unfold cred_set_resuid. rewrite Hp. branch E1; [by split_and!|]. cbn [negb andb existsb] in E1.
    assert (forall v, given v && negb (one_of v (uid c) (euid c) (suid c)) = false ->
      given v = true -> v ∈ uids c0) as Hv.
    { intros v Hv Hgv. rewrite Hgv in Hv. unfold one_of in Hv.
      destruct (Z.eqb_spec v (uid c)), (Z.eqb_spec v (euid c)), (Z.eqb_spec v (suid c)); pick. }
    rewrite !orb_false_iff in E1. destruct E1 as (E1 & E2 & E3 & _).
    pose proof (Hv _ E1). pose proof (Hv _ E2). pose proof (Hv _ E3).
    cbn. destruct (given r), (given e), (given s); split_and!; auto.
  - unfold cred_set_resgid. rewrite Hp. branch E1; [by split_and!|]. cbn [negb andb existsb] in E1.
    assert (forall v, given v && negb (one_of v (gid c) (egid c) (sgid c)) = false ->
      given v = true -> v ∈ gids c0) as Hv.
    { intros v Hv Hgv. rewrite Hgv in Hv. unfold one_of in Hv.
      destruct (Z.eqb_spec v (gid c)), (Z.eqb_spec v (egid c)), (Z.eqb_spec v (sgid c)); pick. }
    rewrite !orb_false_iff in E1. destruct E1 as (E1 & E2 & E3 & _).
    pose proof (Hv _ E1). pose proof (Hv _ E2). pose proof (Hv _ E3).
    cbn. destruct (given r), (given e), (given s); split_and!; auto.
  - unfold cred_set_fsuid. cbn [snd]. rewrite Hp. branch E1; [|by split_and!]. cbn. split_and!; auto.
    do 4 (match goal with H : context [Z.eqb f ?v] |- _ => destruct (Z.eqb_spec f v); [subst; auto|] end).
    by cbn in E1.
  - unfold cred_set_fsgid. cbn [snd]. rewrite Hp. branch E1; [|by split_and!]. cbn. split_and!; auto.
    do 4 (match goal with H : context [Z.eqb f ?v] |- _ => destruct (Z.eqb_spec f v); [subst; auto|] end).
    by cbn in E1.
  - unfold cred_set_groups. rewrite Hp. branch E1; by split_and!.
  - unfold cred_apply_exec. destruct node; cbn; split_and!; auto.
Qed.

Lemma within_refl c : within c c.
Proof.
  unfold within, uids, gids. split_and!; try done; rewrite !elem_of_cons; tauto.
Qed.

Lemma reachable_within c0 c : 0 ∉ uids c0 -> rtc cred_step c0 c -> within c0 c.
Proof.
  intros H0 Hr. assert (forall c1 c2, rtc cred_step c1 c2 -> within c0 c1 -> within c0 c2) as H.
  { induction 1; [done|]. eauto using within_step. }
  eapply H; [done|apply within_refl].
Qed.

(** A call that reports an error changes nothing. *)
Definition atomic (c : credentials) (out : Z * credentials) : Prop := out.1 < 0 -> out.2 = c.

(** ** Properties *)

(** C32. No escalation: a process without root among its real, effective and saved
    user IDs never gets an identity it did not have, by any sequence of set*id
    calls, setgroups and program executions under no_new_privs; in particular it
    never becomes privileged. *)
Theorem cred_no_escalation c0 c : 0 ∉ uids c0 -> rtc cred_step c0 c ->
  within c0 c /\ privileged c = false.
Proof.
  intros H0 Hr. pose proof (reachable_within c0 c H0 Hr) as Hw. split; [done|].
  destruct Hw as ((_ & He & _) & _). apply Z.eqb_neq. intros E. by rewrite E in He.
Qed.

Definition demo_cred : credentials := Cred 1000 100 1001 100 1000 100 1001 100 [10; 20].

Lemma cred_no_escalation_witness :
  let c := (cred_set_resuid (cred_set_uid demo_cred 1000).2 1000 1000 1000).2 in
  c = Cred 1000 100 1000 100 1000 100 1000 100 [10; 20] /\
  within demo_cred c /\ privileged c = false.
Proof.
  split; [reflexivity|]. apply cred_no_escalation.
  - apply (bool_decide_eq_true_1 (0 ∉ _)). reflexivity.
  - eapply rtc_l; [apply (step_uid demo_cred 1000)|]. eapply rtc_l; [apply step_resuid|]. apply rtc_refl.
Defined.

(** C33. The permission check is the algorithm of POSIX.1e: the owner by the user
    bits; others by the first of the named user's entry, some matching group entry
    and the other class, named entries limited by the mask; and root passes unless
    it wants to execute a plain file without any execute bit. *)
Theorem cred_may_correct n c want : node_ok n -> want <> 0 ->
  (cred_may (Some c) (Some n) want = 0 <->
     posix_permits n c want \/ (fsuid c = 0 /\ root_override n want)) /\
  (cred_may (Some c) (Some n) want = 0 \/ cred_may (Some c) (Some n) want = - EACCES).
Proof. apply cred_may_spec. Qed.

Lemma cred_may_correct_witness :
  cred_may (Some (Cred 1000 1 1000 1 1000 1 1000 1 [])) (Some demo_node) 4 = 0 /\
  (posix_permits demo_node (Cred 1000 1 1000 1 1000 1 1000 1 []) 4 \/
   (fsuid (Cred 1000 1 1000 1 1000 1 1000 1 []) = 0 /\ root_override demo_node 4)).
Proof.
  split; [vm_compute; reflexivity|]. apply cred_may_correct; [apply demo_node_ok|lia|vm_compute; reflexivity].
Defined.

(** Path search: for a process without root, [cred_may_search] grants an
    absolute path exactly when each directory named by the path up to a slash
    after the first character exists and grants search permission. *)
Theorem cred_may_search_correct lookup err c path :
  (forall p, 0 <= err p) -> fsuid c <> 0 -> path !! 0%nat = Some 47 ->
  Z.of_nat (length path) < VFS_PATH_MAX ->
  cred_may_search lookup err (Some c) true path = 0 <->
  searchable lookup (Some c) path 1 (length path).
Proof.
  intros Herr Hc H0 Hl. unfold cred_may_search. rewrite (proj2 (Z.eqb_neq _ _)) by done.
  rewrite bool_decide_eq_true_2 by done. cbn [negb orb]. rewrite (proj2 (Z.leb_gt _ _)) by done.
  rewrite search_loop_ok by done. destruct path as [|x path]; [done|].
  cbn [length]. by replace (1 + (S (length path) - 1))%nat with (S (length path)) by lia.
Qed.

(** The path "/a/b" with a directory "/a" of mode 0711. *)
Definition demo_lookup (path : list Z) : option vfs_node :=
  if decide (path = [47; 97]) then Some (Node 5 5 0x41c9 2 None false) else None.

Lemma cred_may_search_correct_witness :
  cred_may_search demo_lookup (fun _ => 0) (Some demo_cred) true [47; 97; 47; 98] = 0 /\
  searchable demo_lookup (Some demo_cred) [47; 97; 47; 98] 1 4.
Proof.
  split; [vm_compute; reflexivity|].
  apply (cred_may_search_correct demo_lookup (fun _ => 0) demo_cred [47; 97; 47; 98]);
    [lia|discriminate|reflexivity|reflexivity|vm_compute; reflexivity].
Defined.
