(* ===== verification/SysvSem.v ===== *)
(** * System V semaphores (kernel/ipc/sysvsem.c)

    Semaphore sets live in a table of 128 slots.  A [struct sem_set *] is the
    number of its slot: a set is stored in one slot when it is created and
    stays there until it is freed, and a removed set with sleepers is kept in
    its slot until the last of them has left, so a slot is never reused under
    a thread that still holds the pointer.  [semaphore_invariant] proves it.

    Every operation runs under [sem_lock] and is one atomic step.  [semop]
    gives the lock up to sleep: it is cut into the section up to the sleep
    ([sysvsem_op], [op_section]) and the section that follows it
    ([op_resume]); a sleeping thread is the record of the locals it keeps.
    [SETALL] and [IPC_SET] drop the lock to read user memory: the argument
    [between] is what the other threads do to the state meanwhile.  The calls
    of [process_wake_all] are logged in [woken]. *)

From stdpp Require Import relations.
From S2P Require Import Prelude Acl Cred.

Definition SEM_SETS_MAX : Z := 128.
Definition SEM_COUNT_MAX : Z := 250.
Definition SEM_VALUE_MAX : Z := 32767.
Definition SEM_OPS_MAX : Z := 500.
Definition SEM_ADJ_MAX : Z := 32767.

Definition IPC_PRIVATE : Z := 0.
Definition IPC_CREAT : Z := 512.
Definition IPC_EXCL : Z := 1024.
Definition IPC_NOWAIT : Z := 2048.
Definition IPC_64 : Z := 256.
Definition SEM_UNDO : Z := 4096.

(** The commands of [semctl]; the numbers are those of the two headers. *)
Definition IPC_RMID : Z := 0.
Definition IPC_SET : Z := 1.
Definition IPC_STAT : Z := 2.
Definition IPC_INFO : Z := 3.
Definition GETPID : Z := 11.
Definition GETVAL : Z := 12.
Definition GETALL : Z := 13.
Definition GETNCNT : Z := 14.
Definition GETZCNT : Z := 15.
Definition SETVAL : Z := 16.
Definition SETALL : Z := 17.
Definition SEM_STAT : Z := 18.
Definition SEM_INFO : Z := 19.
Definition SEM_STAT_ANY : Z := 20.

Record sem := Sem { value : Z; pid : Z; waiting_less : Z; waiting_zero : Z }.

(** [count] is the length of [sems]. *)
Record sem_set := SemSet {
  s_id : Z; s_removed : bool; s_key : Z; s_mode : Z;
  s_uid : Z; s_gid : Z; s_cuid : Z; s_cgid : Z; s_seq : Z;
  s_otime : Z; s_ctime : Z; s_generation : Z; s_sleepers : Z; sems : list sem }.

Definition s_count (set : sem_set) : Z := Z.of_nat (length (sems set)).

(** [count] is the length of [adjust]. *)
Record sem_undo := SemUndo { u_tgid : Z; u_id : Z; adjust : list Z }.

Record sembuf_user := Sembuf { num : Z; op : Z; flags : Z }.

Record sem_state := SemState {
  sets : list (option sem_set); undos : list sem_undo; next_seq : Z; woken : list nat }.

Definition sem_boot : sem_state := SemState (replicate 128 None) [] 0 [].

#[global] Instance sem_eq : EqDecision sem.
Proof. solve_decision. Defined.
#[global] Instance sem_set_eq : EqDecision sem_set.
Proof. solve_decision. Defined.
#[global] Instance sem_undo_eq : EqDecision sem_undo.
Proof. solve_decision. Defined.

(** ** Field updates *)

Definition set_sems (l : list sem) (s : sem_set) : sem_set :=
  SemSet (s_id s) (s_removed s) (s_key s) (s_mode s) (s_uid s) (s_gid s) (s_cuid s) (s_cgid s)
    (s_seq s) (s_otime s) (s_ctime s) (s_generation s) (s_sleepers s) l.
Definition set_otime (t : Z) (s : sem_set) : sem_set :=
  SemSet (s_id s) (s_removed s) (s_key s) (s_mode s) (s_uid s) (s_gid s) (s_cuid s) (s_cgid s)
    (s_seq s) t (s_ctime s) (s_generation s) (s_sleepers s) (sems s).
Definition set_ctime (t : Z) (s : sem_set) : sem_set :=
  SemSet (s_id s) (s_removed s) (s_key s) (s_mode s) (s_uid s) (s_gid s) (s_cuid s) (s_cgid s)
    (s_seq s) (s_otime s) t (s_generation s) (s_sleepers s) (sems s).
Definition set_sleepers (n : Z) (s : sem_set) : sem_set :=
  SemSet (s_id s) (s_removed s) (s_key s) (s_mode s) (s_uid s) (s_gid s) (s_cuid s) (s_cgid s)
    (s_seq s) (s_otime s) (s_ctime s) (s_generation s) n (sems s).
Definition set_owner (uid gid mode : Z) (s : sem_set) : sem_set :=
  SemSet (s_id s) (s_removed s) (s_key s) mode uid gid (s_cuid s) (s_cgid s)
    (s_seq s) (s_otime s) (s_ctime s) (s_generation s) (s_sleepers s) (sems s).
Definition bump_generation (s : sem_set) : sem_set :=
  SemSet (s_id s) (s_removed s) (s_key s) (s_mode s) (s_uid s) (s_gid s) (s_cuid s) (s_cgid s)
    (s_seq s) (s_otime s) (s_ctime s) (u32 (s_generation s + 1)) (s_sleepers s) (sems s).
Definition mark_removed (s : sem_set) : sem_set :=
  SemSet (s_id s) true (s_key s) (s_mode s) (s_uid s) (s_gid s) (s_cuid s) (s_cgid s)
    (s_seq s) (s_otime s) (s_ctime s) (s_generation s) (s_sleepers s) (sems s).

Definition set_value (v : Z) (m : sem) : sem := Sem v (pid m) (waiting_less m) (waiting_zero m).
Definition set_pid (p : Z) (m : sem) : sem := Sem (value m) p (waiting_less m) (waiting_zero m).

(** Storing through the set pointer [slot], and [process_wake_all(set)]. *)
Definition put (st : sem_state) (slot : nat) (s : option sem_set) : sem_state :=
  SemState (<[slot := s]> (sets st)) (undos st) (next_seq st) (woken st).
Definition with_undos (st : sem_state) (l : list sem_undo) : sem_state :=
  SemState (sets st) l (next_seq st) (woken st).
Definition process_wake_all (st : sem_state) (slot : nat) : sem_state :=
  SemState (sets st) (undos st) (next_seq st) (woken st ++ [slot]).

(** Reading through the set pointer [slot]: a freed set is not there. *)
Definition deref (st : sem_state) (slot : nat) : res sem_set :=
  match sets st !! slot with
  | Some (Some s) => Ret s
  | _ => Fault
  end.

(** ** Lookup and permission *)

Definition make_id (slot : nat) (seq : Z) : Z := (seq mod 32768) * SEM_SETS_MAX + Z.of_nat slot.

Definition find_by_id (st : sem_state) (id : Z) : option nat :=
  if id <? 0 then None
  else
    let slot := Z.to_nat (id mod SEM_SETS_MAX) in
    match sets st !! slot with
    | Some (Some s) => if s_removed s || negb (s_id s =? id) then None else Some slot
    | _ => None
    end.

Fixpoint first_slot (f : option sem_set -> bool) (l : list (option sem_set)) (slot : nat) : option nat :=
  match l with
  | [] => None
  | x :: l => if f x then Some slot else first_slot f l (S slot)
  end.

Definition live_key (key : Z) (x : option sem_set) : bool :=
  match x with
  | Some s => negb (s_removed s) && (s_key s =? key)
  | None => false
  end.

Definition find_by_key (st : sem_state) (key : Z) : option nat :=
  if key =? IPC_PRIVATE then None else first_slot (live_key key) (sets st) 0.

Definition permitted (cred : option credentials) (set : sem_set) (write : bool) : bool :=
  match cred with
  | None => true
  | Some c =>
      if euid c =? 0 then true
      else
        let mode := s_mode set in
        let bits :=
          if (euid c =? s_uid set) || (euid c =? s_cuid set) then Z.shiftr mode 6
          else if cred_has_group cred (s_gid set) || cred_has_group cred (s_cgid set)
          then Z.shiftr mode 3
          else mode in
        negb (Z.land bits (if write then 2 else 4) =? 0)
  end.

Definition owner_or_root (cred : option credentials) (set : sem_set) : bool :=
  match cred with
  | None => true
  | Some c => (euid c =? 0) || (euid c =? s_uid set) || (euid c =? s_cuid set)
  end.

(** ** Undo records and removal *)

Definition drop_undos_for (id : Z) (l : list sem_undo) : list sem_undo :=
  filter (fun u => u_id u <> id) l.

Definition clear_undo_slot (id : Z) (num : nat) (l : list sem_undo) : list sem_undo :=
  map (fun u => if (u_id u =? id) && (Z.of_nat num <? Z.of_nat (length (adjust u)))
                then SemUndo (u_tgid u) (u_id u) (<[num := 0]> (adjust u))
                else u) l.

Definition destroy (st : sem_state) (slot : nat) : res sem_state :=
  set ← deref st slot;
  let set := bump_generation (mark_removed set) in
  let st := with_undos (put st slot (Some set)) (drop_undos_for (s_id set) (undos st)) in
  let st := process_wake_all st slot in
  Ret (if s_sleepers set =? 0 then put st slot None else st).

(** ** Creation *)

Definition new_set (key flags : Z) (count : Z) (cred : option credentials) (slot : nat) (seq now : Z) : sem_set :=
  let u := match cred with Some c => euid c | None => 0 end in
  let g := match cred with Some c => egid c | None => 0 end in
  SemSet (make_id slot seq) false key (Z.land (u32 flags) 511) u g u g seq 0 now 0 0
    (replicate (Z.to_nat count) (Sem 0 0 0 0)).

(** [allocs] says whether the two allocations succeed. *)
Definition sysvsem_get (st : sem_state) (key count flags : Z) (cred : option credentials)
    (allocs : bool) (now : Z) : res (sem_state * Z) :=
  match find_by_key st key with
  | Some slot =>
      existing ← deref st slot;
      Ret (st,
        if negb (Z.land flags IPC_CREAT =? 0) && negb (Z.land flags IPC_EXCL =? 0) then - EEXIST
        else if count >? s_count existing then - EINVAL
        else if negb (permitted cred existing (negb (Z.land flags 146 =? 0)))
                || negb (permitted cred existing false) then - EACCES
        else s_id existing)
  | None =>
      if negb (key =? IPC_PRIVATE) && (Z.land flags IPC_CREAT =? 0) then Ret (st, - ENOENT)
      else if (count <=? 0) || (count >? SEM_COUNT_MAX) then Ret (st, - EINVAL)
      else
        match first_slot (fun x => match x with None => true | Some _ => false end) (sets st) 0 with
        | None => Ret (st, - ENOSPC)
        | Some slot =>
            if negb allocs then Ret (st, - ENOMEM)
            else
              let seq := next_seq st in
              let set := new_set key flags count cred slot seq now in
              Ret (SemState (<[slot := Some set]> (sets st)) (undos st) (u32 (seq + 1)) (woken st),
                   s_id set)
        end
  end.

(** ** Operations *)

Fixpoint find_undo (tgid id : Z) (l : list sem_undo) (at_ : nat) : option nat :=
  match l with
  | [] => None
  | u :: l => if (u_tgid u =? tgid) && (u_id u =? id) then Some at_ else find_undo tgid id l (S at_)
  end.

(** The record of [tgid] for the set and its position in the list.  Only the
    first call for a process and a set allocates, so one [alloc] says whether
    the allocations of a system call succeed. *)
Definition undo_for (tgid : Z) (set : sem_set) (alloc : bool) (l : list sem_undo) :
    option (list sem_undo * nat) :=
  match find_undo tgid (s_id set) l 0 with
  | Some i => Some (l, i)
  | None =>
      if alloc then Some (SemUndo tgid (s_id set) (replicate (length (sems set)) 0) :: l, O)
      else None
  end.

Definition undo_at (l : list sem_undo) (i : nat) : res sem_undo :=
  match l !! i with
  | Some u => Ret u
  | None => Fault
  end.

Inductive stage_result :=
  | Staged (values : list Z)
  | StageBlocked (blocked_at : nat)
  | StageFailed (error : Z).

Fixpoint stage_ops (staged : list Z) (ops : list sembuf_user) (index : nat) : res stage_result :=
  match ops with
  | [] => Ret (Staged staged)
  | o :: ops =>
      value ← rd staged (num o);
      if op o <? 0 then
        if value + op o <? 0 then Ret (StageBlocked index)
        else staged ← wr staged (num o) (value + op o); stage_ops staged ops (S index)
      else if op o =? 0 then
        if negb (value =? 0) then Ret (StageBlocked index) else stage_ops staged ops (S index)
      else if value + op o >? SEM_VALUE_MAX then Ret (StageFailed (- ERANGE))
      else staged ← wr staged (num o) (value + op o); stage_ops staged ops (S index)
  end.

Definition undoes (o : sembuf_user) : bool :=
  negb (Z.land (flags o) SEM_UNDO =? 0) && negb (op o =? 0).

(** The second loop: every adjustment the operations would make is in range.
    It may create the record; the error is 0 when the loop completes. *)
Fixpoint check_undos (tgid : Z) (set : sem_set) (alloc : bool) (ops : list sembuf_user)
    (l : list sem_undo) : res (list sem_undo * Z) :=
  match ops with
  | [] => Ret (l, 0)
  | o :: ops =>
      if undoes o then
        match undo_for tgid set alloc l with
        | None => Ret (l, - ENOMEM)
        | Some (l, i) =>
            undo ← undo_at l i;
            a ← rd (adjust undo) (num o);
            let adjusted := a - op o in
            if (adjusted >? SEM_ADJ_MAX) || (adjusted <? - SEM_ADJ_MAX) then Ret (l, - ERANGE)
            else check_undos tgid set alloc ops l
        end
      else check_undos tgid set alloc ops l
  end.

(** The third loop: the adjustments are recorded, truncated to 16 bits. *)
Fixpoint apply_undos (tgid : Z) (set : sem_set) (alloc : bool) (ops : list sembuf_user)
    (l : list sem_undo) : res (list sem_undo) :=
  match ops with
  | [] => Ret l
  | o :: ops =>
      if undoes o then
        match undo_for tgid set alloc l with
        | None => Fault
        | Some (l, i) =>
            undo ← undo_at l i;
            a ← rd (adjust undo) (num o);
            adj ← wr (adjust undo) (num o) (i16 (a - op o));
            apply_undos tgid set alloc ops (<[i := SemUndo (u_tgid undo) (u_id undo) adj]> l)
        end
      else apply_undos tgid set alloc ops l
  end.

Fixpoint stamp_pids (pid : Z) (ops : list sembuf_user) (l : list sem) : res (list sem) :=
  match ops with
  | [] => Ret l
  | o :: ops =>
      m ← rd l (num o);
      l ← wr l (num o) (set_pid pid m);
      stamp_pids pid ops l
  end.

(** The arrays [staged] and [values] on the stack hold 250 elements. *)
Definition local_array (count : Z) : res unit :=
  if count <=? SEM_COUNT_MAX then Ret tt else Fault.

Inductive try_result :=
  | Status (status : Z)
  | Blocked (blocked_at : nat).

(** [tgid] is the caller's; [pid] is its truncation to an [int]. *)
Definition try_operations (st : sem_state) (slot : nat) (ops : list sembuf_user)
    (tgid now : Z) (alloc : bool) : res (sem_state * try_result) :=
  set ← deref st slot;
  _ ← local_array (s_count set);
  staged ← stage_ops (map value (sems set)) ops 0;
  match staged with
  | StageBlocked i => Ret (st, Blocked i)
  | StageFailed e => Ret (st, Status e)
  | Staged values =>
      '(l, e) ← check_undos tgid set alloc ops (undos st);
      let st := with_undos st l in
      if negb (e =? 0) then Ret (st, Status e)
      else
        l ← apply_undos tgid set alloc ops (undos st);
        let st := with_undos st l in
        let changed := negb (bool_decide (values = map value (sems set))) in
        stamped ← stamp_pids (i32 tgid) ops (zip_with set_value values (sems set));
        let set := set_otime now (set_sems stamped set) in
        if changed then Ret (process_wake_all (put st slot (Some (bump_generation set))) slot, Status 0)
        else Ret (put st slot (Some set), Status 0)
  end.

(** A thread asleep in [sysvsem_op]: the locals it needs when it wakes up.
    [w_num] is the index of [waited], [w_zero] tells which counter it holds. *)
Record sleeper := Sleeper {
  w_slot : nat; w_ops : list sembuf_user; w_num : Z; w_zero : bool;
  w_tgid : Z; w_timeout : Z; w_deadline : Z; w_generation : Z }.

Inductive op_outcome :=
  | Returned (result : Z)
  | Asleep (w : sleeper).

Definition add_waiting (zero : bool) (d : Z) (m : sem) : sem :=
  if zero then Sem (value m) (pid m) (waiting_less m) (u32 (waiting_zero m + d))
  else Sem (value m) (pid m) (u32 (waiting_less m + d)) (waiting_zero m).

(** One turn of the loop of [sysvsem_op], up to its return or its sleep. *)
Definition op_section (st : sem_state) (slot : nat) (ops : list sembuf_user)
    (tgid timeout_ns deadline : Z) (now uptime : Z) (alloc : bool) : res (sem_state * op_outcome) :=
  '(st, r) ← try_operations st slot ops tgid now alloc;
  match r with
  | Status status => Ret (st, Returned status)
  | Blocked blocked_at =>
      o ← rd ops (Z.of_nat blocked_at);
      if negb (Z.land (flags o) IPC_NOWAIT =? 0) then Ret (st, Returned (- EAGAIN))
      else if (0 <=? timeout_ns) && (deadline <=? uptime) then Ret (st, Returned (- EAGAIN))
      else
        set ← deref st slot;
        let zero := op o =? 0 in
        waited ← rd (sems set) (num o);
        l ← wr (sems set) (num o) (add_waiting zero 1 waited);
        let set := set_sleepers (u32 (s_sleepers set + 1)) (set_sems l set) in
        Ret (put st slot (Some set),
             Asleep (Sleeper slot ops (num o) zero tgid timeout_ns deadline (s_generation set)))
  end.

(** The test the thread makes, once it is registered as a waiter, before it
    calls [process_wait]: it sleeps only when the result is [false]. *)
Definition op_ready (st : sem_state) (w : sleeper) (prepared : Z) : res bool :=
  set ← deref st (w_slot w);
  Ret (negb (prepared =? 0) || negb (s_generation set =? w_generation w) || s_removed set).

(** The section after the sleep; [interrupted] is
    [prepared != 0 || process_wait_interrupted()]. *)
Definition op_resume (st : sem_state) (w : sleeper) (interrupted : bool) (now uptime : Z)
    (alloc : bool) : res (sem_state * op_outcome) :=
  set ← deref st (w_slot w);
  waited ← rd (sems set) (w_num w);
  l ← wr (sems set) (w_num w) (add_waiting (w_zero w) (-1) waited);
  let set := set_sleepers (u32 (s_sleepers set - 1)) (set_sems l set) in
  let st := put st (w_slot w) (Some set) in
  if s_removed set then
    st ← (if s_sleepers set =? 0 then destroy st (w_slot w) else Ret st);
    Ret (st, Returned (- EIDRM))
  else if interrupted then Ret (st, Returned (- EINTR))
  else op_section st (w_slot w) (w_ops w) (w_tgid w) (w_timeout w) (w_deadline w) now uptime alloc.

(** [semop] and [semtimedop] up to the first sleep.  [user_ops] is what
    [copy_from_user] delivers for the [count] operations, [ops_alloc] whether
    the buffer for them is allocated. *)
Definition sysvsem_op (st : sem_state) (id : Z) (user_ops : option (list sembuf_user)) (count timeout_ns : Z)
    (cred : option credentials) (tgid now uptime : Z) (ops_alloc alloc : bool) :
    res (sem_state * op_outcome) :=
  if count =? 0 then Ret (st, Returned (- EINVAL))
  else if count >? SEM_OPS_MAX then Ret (st, Returned (- E2BIG))
  else if negb ops_alloc then Ret (st, Returned (- ENOMEM))
  else
    match user_ops with
    | None => Ret (st, Returned (- EFAULT))
    | Some ops =>
        let deadline := if 0 <=? timeout_ns then u64 (uptime + timeout_ns) else 0 in
        let writes := existsb (fun o => negb (op o =? 0)) ops in
        match find_by_id st id with
        | None => Ret (st, Returned (- EINVAL))
        | Some slot =>
            set ← deref st slot;
            if existsb (fun o => num o >=? s_count set) ops then Ret (st, Returned (- EFBIG))
            else if negb (permitted cred set writes) then Ret (st, Returned (- EACCES))
            else op_section st slot ops tgid timeout_ns deadline now uptime alloc
        end
    end.

(** ** Control *)

Record semid_ds_user := SemidDs {
  d_key : Z; d_uid : Z; d_gid : Z; d_cuid : Z; d_cgid : Z; d_mode : Z; d_seq : Z;
  d_otime : Z; d_ctime : Z; d_nsems : Z }.

Record seminfo_user := SemInfo {
  semmap : Z; semmni : Z; semmns : Z; semmnu : Z; semmsl : Z; semopm : Z; semume : Z;
  semusz : Z; semvmx : Z; semaem : Z }.

Definition fill_stat (set : sem_set) : semid_ds_user :=
  SemidDs (s_key set) (s_uid set) (s_gid set) (s_cuid set) (s_cgid set) (s_mode set)
    (u16 (s_seq set)) (s_otime set) (s_ctime set) (s_count set).

(** What [semctl] writes to user memory. *)
Inductive ctl_out :=
  | NoOut
  | OutStat (d : semid_ds_user)
  | OutInfo (i : seminfo_user)
  | OutValues (l : list Z).

(** [sizeof(struct sem_undo)] on the 64-bit targets. *)
Definition sizeof_sem_undo : Z := 32.

Fixpoint info_loop (command : Z) (l : list (option sem_set)) (slot : Z) (usz aem highest : Z) : Z * Z * Z :=
  match l with
  | [] => (usz, aem, highest)
  | Some s :: l =>
      if s_removed s then info_loop command l (slot + 1) usz aem highest
      else if command =? SEM_INFO then info_loop command l (slot + 1) (usz + 1) (aem + s_count s) slot
      else info_loop command l (slot + 1) usz aem slot
  | None :: l => info_loop command l (slot + 1) usz aem highest
  end.

Definition ctl_info (st : sem_state) (command : Z) (writable : bool) : sem_state * Z * ctl_out :=
  let semmns := SEM_SETS_MAX * SEM_COUNT_MAX in
  let '(usz, aem, highest) := info_loop command (sets st) 0 sizeof_sem_undo SEM_ADJ_MAX 0 in
  if negb writable then (st, - EFAULT, NoOut)
  else (st, highest,
        OutInfo (SemInfo semmns SEM_SETS_MAX semmns semmns SEM_COUNT_MAX SEM_OPS_MAX SEM_OPS_MAX
                   usz SEM_VALUE_MAX aem)).

Definition ctl_stat (st : sem_state) (set : sem_set) (command : Z) (cred : option credentials)
    (writable : bool) : sem_state * Z * ctl_out :=
  if negb (command =? SEM_STAT_ANY) && negb (permitted cred set false) then (st, - EACCES, NoOut)
  else if negb writable then (st, - EFAULT, NoOut)
  else (st, if command =? IPC_STAT then 0 else s_id set, OutStat (fill_stat set)).

(** The part of [IPC_SET] after the lock has been taken again. *)
Definition ctl_set (st : sem_state) (id : Z) (v : semid_ds_user) (cred : option credentials) (now : Z) :
    res (sem_state * Z * ctl_out) :=
  match find_by_id st id with
  | None => Ret (st, - EINVAL, NoOut)
  | Some slot =>
      set ← deref st slot;
      if negb (owner_or_root cred set) then Ret (st, - EPERM, NoOut)
      else
        let mode := Z.lor (Z.land (s_mode set) (u32 (Z.lnot 511))) (Z.land (d_mode v) 511) in
        Ret (put st slot (Some (set_ctime now (set_owner (d_uid v) (d_gid v) mode set))), 0, NoOut)
  end.

Definition ctl_read (st : sem_state) (set : sem_set) (n command : Z) (cred : option credentials) :
    res (sem_state * Z * ctl_out) :=
  if (n <? 0) || (u32 n >=? s_count set) then Ret (st, - EINVAL, NoOut)
  else if negb (permitted cred set false) then Ret (st, - EACCES, NoOut)
  else
    m ← rd (sems set) n;
    Ret (st, if command =? GETVAL then value m
             else if command =? GETPID then pid m
             else if command =? GETNCNT then waiting_less m
             else waiting_zero m, NoOut).

Definition ctl_setval (st : sem_state) (slot : nat) (set : sem_set) (n argument : Z)
    (cred : option credentials) (tgid now : Z) : res (sem_state * Z * ctl_out) :=
  let v := i32 (u32 argument) in
  if (n <? 0) || (u32 n >=? s_count set) then Ret (st, - EINVAL, NoOut)
  else if (v <? 0) || (v >? SEM_VALUE_MAX) then Ret (st, - ERANGE, NoOut)
  else if negb (permitted cred set true) then Ret (st, - EACCES, NoOut)
  else
    m ← rd (sems set) n;
    l ← wr (sems set) n (set_pid (i32 tgid) (set_value v m));
    let set := set_ctime now (set_sems l set) in
    let st := with_undos st (clear_undo_slot (s_id set) (Z.to_nat n) (undos st)) in
    Ret (process_wake_all (put st slot (Some (bump_generation set))) slot, 0, NoOut).

Definition ctl_getall (st : sem_state) (set : sem_set) (cred : option credentials) (writable : bool) :
    res (sem_state * Z * ctl_out) :=
  if negb (permitted cred set false) then Ret (st, - EACCES, NoOut)
  else
    _ ← local_array (s_count set);
    if negb writable then Ret (st, - EFAULT, NoOut)
    else Ret (st, 0, OutValues (map (fun m => u16 (value m)) (sems set))).

(** The loop of [SETALL]: store every value and clear its adjustments. *)
Fixpoint store_all (tgid : Z) (id : Z) (values : list Z) (l : list sem) (index : nat)
    (u : list sem_undo) : list sem * list sem_undo :=
  match values, l with
  | v :: values, m :: l =>
      let u := clear_undo_slot id index u in
      let '(l, u) := store_all tgid id values l (S index) u in
      (set_pid (i32 tgid) (set_value v m) :: l, u)
  | _, _ => (l, u)
  end.

(** The part of [SETALL] after the lock has been taken again. *)
Definition ctl_setall (st : sem_state) (id count : Z) (values : list Z) (cred : option credentials)
    (tgid now : Z) : res (sem_state * Z * ctl_out) :=
  match find_by_id st id with
  | None => Ret (st, - EINVAL, NoOut)
  | Some slot =>
      set ← deref st slot;
      if negb (s_count set =? count) then Ret (st, - EINVAL, NoOut)
      else if negb (permitted cred set true) then Ret (st, - EACCES, NoOut)
      else if existsb (fun v => v >? SEM_VALUE_MAX) values then Ret (st, - ERANGE, NoOut)
      else
        let '(l, u) := store_all tgid (s_id set) values (sems set) 0 (undos st) in
        let set := bump_generation (set_ctime now (set_sems l set)) in
        Ret (process_wake_all (put (with_undos st u) slot (Some set)) slot, 0, NoOut)
  end.

(** The user memory at [argument]: whether it can be written, and what a read
    of a [semid_ds] or of [count] 16-bit values from it gives. *)
Record ctl_user := CtlUser {
  writable : bool; user_ds : option semid_ds_user; user_values : nat -> option (list Z) }.

Definition ctl_find (st : sem_state) (id command : Z) : option nat :=
  if (command =? SEM_STAT) || (command =? SEM_STAT_ANY) then
    if (0 <=? id) && (id <? SEM_SETS_MAX) then
      match sets st !! Z.to_nat id with
      | Some (Some s) => if s_removed s then None else Some (Z.to_nat id)
      | _ => None
      end
    else None
  else find_by_id st id.

Definition sysvsem_ctl (st : sem_state) (id n command argument : Z) (user : ctl_user)
    (cred : option credentials) (tgid now : Z) (between : sem_state -> sem_state) :
    res (sem_state * Z * ctl_out) :=
  let command := Z.land command (Z.lnot IPC_64) in
  if (command =? IPC_INFO) || (command =? SEM_INFO) then Ret (ctl_info st command (writable user))
  else
    match ctl_find st id command with
    | None => Ret (st, - EINVAL, NoOut)
    | Some slot =>
        set ← deref st slot;
        if (command =? IPC_STAT) || (command =? SEM_STAT) || (command =? SEM_STAT_ANY)
        then Ret (ctl_stat st set command cred (writable user))
        else if command =? IPC_SET then
          match user_ds user with
          | None => Ret (between st, - EFAULT, NoOut)
          | Some v => ctl_set (between st) id v cred now
          end
        else if command =? IPC_RMID then
          if negb (owner_or_root cred set) then Ret (st, - EPERM, NoOut)
          else st ← destroy st slot; Ret (st, 0, NoOut)
        else if (command =? GETVAL) || (command =? GETPID) || (command =? GETNCNT) || (command =? GETZCNT)
        then ctl_read st set n command cred
        else if command =? SETVAL then ctl_setval st slot set n argument cred tgid now
        else if command =? GETALL then ctl_getall st set cred (writable user)
        else if command =? SETALL then
          _ ← local_array (s_count set);
          match user_values user (length (sems set)) with
          | None => Ret (between st, - EFAULT, NoOut)
          | Some values => ctl_setall (between st) id (s_count set) values cred tgid now
          end
        else Ret (st, - EINVAL, NoOut)
    end.

(** ** Process exit *)

Definition clamp (v : Z) : Z :=
  let v := if v <? 0 then 0 else v in
  if v >? SEM_VALUE_MAX then SEM_VALUE_MAX else v.

(** The loop over one undo record; the flag is [changed]. *)
Fixpoint undo_loop (tgid : Z) (adj : list Z) (l : list sem) : list sem * bool :=
  match adj, l with
  | a :: adj, m :: l =>
      let '(l, changed) := undo_loop tgid adj l in
      if a =? 0 then (m :: l, changed)
      else (set_pid (i32 tgid) (set_value (clamp (value m + a)) m) :: l, true)
  | _, _ => (l, false)
  end.

Definition undo_one (st : sem_state) (undo : sem_undo) : res sem_state :=
  match find_by_id st (u_id undo) with
  | None => Ret st
  | Some slot =>
      set ← deref st slot;
      let '(l, changed) := undo_loop (u_tgid undo) (adjust undo) (sems set) in
      let set := set_sems l set in
      if changed then Ret (process_wake_all (put st slot (Some (bump_generation set))) slot)
      else Ret (put st slot (Some set))
  end.

(** [exit_loop seen rest] walks the list: [seen] is the part before [link]. *)
Fixpoint exit_loop (tgid : Z) (seen rest : list sem_undo) (st : sem_state) : res sem_state :=
  match rest with
  | [] => Ret st
  | undo :: rest =>
      if negb (u_tgid undo =? tgid) then exit_loop tgid (seen ++ [undo]) rest st
      else
        st ← undo_one (with_undos st (seen ++ rest)) undo;
        exit_loop tgid seen rest st
  end.

Definition sysvsem_exit (st : sem_state) (tgid : Z) : res sem_state :=
  exit_loop tgid [] (undos st) st.

(** ** What a semop means

    [net k ops] is what the operations add to semaphore [k] in total;
    [verdict] is what becomes of one operation when its semaphore has value
    [v]; the [j]-th operation of a call meets the value its predecessors in
    the call have left. *)

Fixpoint net (k : Z) (ops : list sembuf_user) : Z :=
  match ops with
  | [] => 0
  | o :: ops => (if num o =? k then op o else 0) + net k ops
  end.

Inductive verdict := Proceeds | Blocks | Overflows.

Definition judge (v : Z) (o : sembuf_user) : verdict :=
  if op o <? 0 then (if v + op o <? 0 then Blocks else Proceeds)
  else if op o =? 0 then (if v =? 0 then Proceeds else Blocks)
  else if SEM_VALUE_MAX <? v + op o then Overflows else Proceeds.

Definition judge_nth (vals : list Z) (ops : list sembuf_user) (j : nat) : option verdict :=
  o ← ops !! j;
  v ← vals !! Z.to_nat (num o);
  Some (judge (v + net (num o) (take j ops)) o).

(** The operations before the [j]-th proceed and the [j]-th has verdict [d]. *)
Definition stops_at (vals : list Z) (ops : list sembuf_user) (j : nat) (d : verdict) : Prop :=
  (forall i, (i < j)%nat -> judge_nth vals ops i = Some Proceeds) /\ judge_nth vals ops j = Some d.

Definition all_proceed (vals : list Z) (ops : list sembuf_user) : Prop :=
  forall i, (i < length ops)%nat -> judge_nth vals ops i = Some Proceeds.

(** The adjustment a process holds for semaphore [k] of a set. *)
Definition adj_of (l : list sem_undo) (tgid id : Z) (k : nat) : Z :=
  match find_undo tgid id l 0 with
  | Some i => match l !! i with Some u => default 0 (adjust u !! k) | None => 0 end
  | None => 0
  end.

Definition in_range (v : Z) : Prop := 0 <= v <= SEM_VALUE_MAX.
Definition nums_ok (n : nat) (ops : list sembuf_user) : Prop :=
  Forall (fun o => 0 <= num o < Z.of_nat n) ops.

Lemma net_app k l1 l2 : net k (l1 ++ l2) = net k l1 + net k l2.
Proof. induction l1 as [|o l1 IH]; cbn [net app]; [done|]. rewrite IH. lia. Qed.

(** Performing the first operation shifts the verdicts of the others. *)
Lemma judge_nth_cons vals o ops v j :
  0 <= num o -> vals !! Z.to_nat (num o) = Some v -> Forall (fun o => 0 <= num o) ops ->
  judge_nth vals (o :: ops) (S j) = judge_nth (<[Z.to_nat (num o) := v + op o]> vals) ops j.
Proof.
  intros Hn Hv Ho. unfold judge_nth. cbn [lookup list_lookup take].
  destruct (ops !! j) as [o'|] eqn:E; [|done]. cbn.
  pose proof (Forall_lookup_1 _ _ _ _ Ho E) as Hn'. cbn in Hn'.
  destruct (Z.eqb_spec (num o) (num o')) as [En|En].
  - rewrite <- En, list_lookup_insert_eq, Hv by (by eapply lookup_lt_Some). cbn. do 2 f_equal. lia.
  - rewrite list_lookup_insert_ne by lia. destruct (vals !! _); [|done]. cbn. do 2 f_equal.
Qed.

Lemma stops_at_cons vals o ops v j d :
  0 <= num o -> vals !! Z.to_nat (num o) = Some v -> Forall (fun o => 0 <= num o) ops ->
  judge v o = Proceeds -> stops_at (<[Z.to_nat (num o) := v + op o]> vals) ops j d ->
  stops_at vals (o :: ops) (S j) d.
Proof.
  intros Hn Hv Ho Hp [H1 H2]. split; [|by erewrite judge_nth_cons].
  intros [|i] Hi.
  - unfold judge_nth. cbn. rewrite Hv. cbn. by rewrite Z.add_0_r, Hp.
  - erewrite judge_nth_cons by done. apply H1. lia.
Qed.

Lemma all_proceed_cons vals o ops v :
  0 <= num o -> vals !! Z.to_nat (num o) = Some v -> Forall (fun o => 0 <= num o) ops ->
  judge v o = Proceeds -> all_proceed (<[Z.to_nat (num o) := v + op o]> vals) ops ->
  all_proceed vals (o :: ops).
Proof.
  intros Hn Hv Ho Hp H [|i] Hi.
  - unfold judge_nth. cbn. rewrite Hv. cbn. by rewrite Z.add_0_r, Hp.
  - erewrite judge_nth_cons by done. apply H. cbn in Hi. lia.
Qed.

Definition staged_post (vals : list Z) (ops : list sembuf_user) (index : nat) (r : stage_result) : Prop :=
  match r with
  | Staged vals' =>
      all_proceed vals ops /\ vals' = imap (fun k v => v + net (Z.of_nat k) ops) vals /\
      Forall in_range vals'
  | StageBlocked b => exists j, b = (index + j)%nat /\ stops_at vals ops j Blocks
  | StageFailed e => e = - ERANGE /\ exists j, stops_at vals ops j Overflows
  end.

Lemma staged_post_cons vals o ops v index r :
  0 <= num o -> vals !! Z.to_nat (num o) = Some v -> Forall (fun o => 0 <= num o) ops ->
  judge v o = Proceeds ->
  staged_post (<[Z.to_nat (num o) := v + op o]> vals) ops (S index) r ->
  staged_post vals (o :: ops) index r.
Proof.
  intros Hn Hv Ho Hp. destruct r as [vals'|b|e]; cbn [staged_post].
  - intros (H1 & -> & H3). split; [by eapply all_proceed_cons|]. split; [|done].
    apply list_eq. intros k. rewrite !list_lookup_imap. cbn [net].
    destruct (Z.eqb_spec (num o) (Z.of_nat k)) as [E|E].
    + replace (Z.to_nat (num o)) with k in * by lia.
      rewrite list_lookup_insert_eq, Hv by (by eapply lookup_lt_Some). cbn. f_equal. lia.
    + rewrite list_lookup_insert_ne by lia. destruct (vals !! k); [|done]. cbn. f_equal.
  - intros (j & -> & H). exists (S j). split; [lia|]. by eapply stops_at_cons.
  - intros (-> & j & H). split; [done|]. exists (S j). by eapply stops_at_cons.
Qed.

(** The staging loop performs the operations in order on a copy. *)
Lemma stage_ops_ok ops : forall vals index,
  nums_ok (length vals) ops -> Forall in_range vals ->
  returns (stage_ops vals ops index) (staged_post vals ops index).
Proof.
  induction ops as [|o ops IH]; intros vals index Hn Hr; cbn [stage_ops].
  - cbn. split; [intros i Hi; cbn in Hi; lia|]. split; [|done].
    apply list_eq. intros k. rewrite list_lookup_imap. destruct (vals !! k); [cbn; f_equal; lia|done].
  - apply Forall_cons_1 in Hn as [Hn Hns].
    destruct (lookup_lt_is_Some_2 vals (Z.to_nat (num o)) ltac:(lia)) as [v Hv].
    pose proof (Forall_lookup_1 _ _ _ _ Hr Hv) as Hvr. unfold in_range in Hvr.
    assert (Forall (fun o => 0 <= num o) ops) as Hp by (revert Hns; apply Forall_impl; intros; lia).
    rewrite (rd_lookup _ _ v), bind_ret by (done || lia).
    assert (forall j d, judge v o = d -> d <> Proceeds -> j = O -> stops_at vals (o :: ops) j d) as Hstop.
    { intros j d Hd _ ->. split; [intros; lia|]. unfold judge_nth. cbn. rewrite Hv. cbn.
      by rewrite Z.add_0_r, Hd. }
    assert (in_range (v + op o) -> judge v o = Proceeds ->
      returns (stage_ops (<[Z.to_nat (num o) := v + op o]> vals) ops (S index))
        (staged_post vals (o :: ops) index)) as Hgo.
    { intros Hi Hj. eapply returns_mono.
      - apply IH; [by rewrite length_insert|]. by apply Forall_insert.
      - intros r. apply staged_post_cons; (done || lia). }
    rewrite wr_in, bind_ret by lia.
    unfold judge, in_range in *. destruct (Z.ltb_spec (op o) 0).
    + destruct (Z.ltb_spec (v + op o) 0).
      * exists O. split; [lia|]. by apply Hstop.
      * apply Hgo; [lia|done].
    + destruct (Z.eqb_spec (op o) 0) as [E0|].
      * destruct (Z.eqb_spec v 0) as [->|]; cbn [negb].
        -- rewrite E0, list_insert_id in Hgo by done. apply Hgo; [lia|done].
        -- exists O. split; [lia|]. by apply Hstop.
      * rewrite Z.gtb_ltb. destruct (Z.ltb_spec SEM_VALUE_MAX (v + op o)).
        -- split; [done|]. exists O. by apply Hstop.
        -- apply Hgo; [lia|done].
Qed.

(** ** Undo records *)

Definition owner (u : sem_undo) : Z * Z := (u_tgid u, u_id u).
Definition i16_range (a : Z) : Prop := - 2 ^ 15 <= a < 2 ^ 15.

(** The records of a set are as long as the set. *)
Definition sized (set : sem_set) (l : list sem_undo) : Prop :=
  Forall (fun u => u_id u = s_id set ->
    length (adjust u) = length (sems set) /\ Forall i16_range (adjust u)) l.

Definition fresh_undo (tgid : Z) (set : sem_set) : sem_undo :=
  SemUndo tgid (s_id set) (replicate (length (sems set)) 0).

Lemma i16_bound z : i16_range (i16 z).
Proof. unfold i16_range, i16. pose proof (Z.mod_pos_bound (z + 2 ^ 15) (2 ^ 16)). lia. Qed.

Lemma i16_sub a x y : i16 (i16 (a - x) - y) = i16 (a - (x + y)).
Proof.
  unfold i16. f_equal.
  replace ((a - x + 2 ^ 15) mod 2 ^ 16 - 2 ^ 15 - y + 2 ^ 15)
    with ((a - x + 2 ^ 15) mod 2 ^ 16 + - y) by lia.
  rewrite Zplus_mod_idemp_l. f_equal. lia.
Qed.

Lemma find_undo_shift tgid id l a : find_undo tgid id l (S a) = S <$> find_undo tgid id l a.
Proof.
  revert a. induction l as [|u l IH]; intros a; cbn; [done|]. by destruct (_ && _); [|apply IH].
Qed.

Lemma find_undo_cons tgid id u l :
  find_undo tgid id (u :: l) 0 =
    if bool_decide (owner u = (tgid, id)) then Some O else S <$> find_undo tgid id l 0.
Proof.
  cbn. rewrite find_undo_shift. unfold owner.
  destruct (Z.eqb_spec (u_tgid u) tgid) as [->|], (Z.eqb_spec (u_id u) id) as [->|]; cbn;
    try (by rewrite bool_decide_eq_true_2); rewrite bool_decide_eq_false_2 by congruence; done.
Qed.

Lemma find_undo_Some tgid id l i :
  find_undo tgid id l 0 = Some i -> exists u, l !! i = Some u /\ owner u = (tgid, id).
Proof.
  revert i. induction l as [|u l IH]; intros i; [done|]. rewrite find_undo_cons.
  case_bool_decide; [intros [= <-]; by exists u|].
  destruct (find_undo tgid id l 0) as [j|]; [|done]. intros [= <-]. by apply IH.
Qed.

Lemma find_undo_None tgid id l :
  find_undo tgid id l 0 = None <-> (tgid, id) ∉ map owner l.
Proof.
  induction l as [|u l IH]; [split; [intros _ H; inversion H|done]|].
  rewrite find_undo_cons. cbn [map]. rewrite not_elem_of_cons, <- IH.
  case_bool_decide; [naive_solver|]. destruct (find_undo tgid id l 0); cbn; naive_solver.
Qed.

Lemma find_undo_owner tgid id l l' : map owner l = map owner l' ->
  find_undo tgid id l 0 = find_undo tgid id l' 0.
Proof.
  revert l'. induction l as [|u l IH]; intros [|u' l'] E; try done.
  cbn [map] in E. injection E as E1 E2. rewrite !find_undo_cons. unfold owner. rewrite E1, E2.
  by rewrite (IH l').
Qed.

Lemma adj_of_cons tgid id u l k :
  adj_of (u :: l) tgid id k =
    if bool_decide (owner u = (tgid, id)) then default 0 (adjust u !! k) else adj_of l tgid id k.
Proof.
  unfold adj_of. rewrite find_undo_cons. case_bool_decide; [done|].
  by destruct (find_undo tgid id l 0).
Qed.

Lemma adj_of_absent l tgid id k : (tgid, id) ∉ map owner l -> adj_of l tgid id k = 0.
Proof. intros H%find_undo_None. unfold adj_of. by rewrite H. Qed.

Lemma adj_of_fresh l tgid set t i k : find_undo tgid (s_id set) l 0 = None ->
  adj_of (fresh_undo tgid set :: l) t i k = adj_of l t i k.
Proof.
  intros H%find_undo_None. rewrite adj_of_cons. case_bool_decide as E; [|done].
  unfold owner, fresh_undo in E. cbn in E. injection E as <- <-. rewrite adj_of_absent by done.
  cbn. destruct (replicate _ 0 !! k) eqn:E; [|done]. by apply lookup_replicate in E as [-> _].
Qed.

Lemma map_owner_insert i u u' l : l !! i = Some u -> owner u' = owner u ->
  map owner (<[i := u']> l) = map owner l.
Proof.
  intros H E. change (owner <$> <[i:=u']> l = owner <$> l). rewrite list_fmap_insert, E.
  apply list_insert_id. by rewrite list_lookup_fmap, H.
Qed.

Lemma adj_of_insert l i u adj t id k :
  find_undo (u_tgid u) (u_id u) l 0 = Some i -> l !! i = Some u ->
  adj_of (<[i := SemUndo (u_tgid u) (u_id u) adj]> l) t id k =
    if bool_decide (owner u = (t, id)) then default 0 (adj !! k) else adj_of l t id k.
Proof.
  intros Hf Hl. unfold adj_of.
  rewrite (find_undo_owner t id _ l) by (by apply (map_owner_insert _ u)).
  case_bool_decide as E.
  - injection E as <- <-. rewrite Hf, list_lookup_insert_eq; [done|]. by eapply lookup_lt_Some.
  - destruct (find_undo t id l 0) as [j|] eqn:Ej; [|done].
    apply find_undo_Some in Ej as (u' & Hu' & Eu').
    rewrite list_lookup_insert_ne; [done|]. intros ->. congruence.
Qed.

(** What [undo_for] gives: the record, created at the head if need be. *)
Lemma undo_for_spec tgid set alloc l l' i : undo_for tgid set alloc l = Some (l', i) ->
  find_undo tgid (s_id set) l' 0 = Some i /\
  (l' = l \/ find_undo tgid (s_id set) l 0 = None /\ alloc = true /\ l' = fresh_undo tgid set :: l).
Proof.
  unfold undo_for. destruct (find_undo tgid (s_id set) l 0) as [j|] eqn:E.
  - intros [= <- <-]. auto.
  - destruct alloc; [|done]. intros [= <- <-]. split; [|auto].
    by rewrite find_undo_cons, bool_decide_eq_true_2.
Qed.

Lemma sized_fresh tgid set l : sized set l -> sized set (fresh_undo tgid set :: l).
Proof.
  intros H. constructor; [|done]. intros _. cbn. rewrite length_replicate. split; [done|].
  apply Forall_replicate. unfold i16_range. lia.
Qed.

(** A record that [find_undo] gives can be indexed by the operations. *)
Lemma undo_read tgid set l i n : sized set l -> find_undo tgid (s_id set) l 0 = Some i ->
  0 <= n < Z.of_nat (length (sems set)) ->
  exists u, l !! i = Some u /\ owner u = (tgid, s_id set) /\
    length (adjust u) = length (sems set) /\ Forall i16_range (adjust u) /\
    rd (adjust u) n = Ret (adj_of l tgid (s_id set) (Z.to_nat n)).
Proof.
  intros Hs Hf Hn. destruct (find_undo_Some _ _ _ _ Hf) as (u & Hu & Eu).
  pose proof (Forall_lookup_1 _ _ _ _ Hs Hu) as Hsz. cbn in Hsz.
  injection Eu as <- Ei. destruct (Hsz Ei) as [Hl Hr]. exists u. unfold owner. rewrite Ei.
  split_and!; try done. unfold adj_of. rewrite Hf, Hu.
  destruct (lookup_lt_is_Some_2 (adjust u) (Z.to_nat n) ltac:(lia)) as [a Ha].
  rewrite Ha. by apply rd_lookup; [lia|].
Qed.

Section undo_loops.
Context (tgid : Z) (set : sem_set) (alloc : bool).

(** Every single adjustment the operations ask for is in range. *)
Definition undo_fits (l : list sem_undo) (ops : list sembuf_user) : Prop :=
  Forall (fun o => undoes o = true ->
    - SEM_ADJ_MAX <= adj_of l tgid (s_id set) (Z.to_nat (num o)) - op o <= SEM_ADJ_MAX) ops.

Definition has_record (l : list sem_undo) : Prop := is_Some (find_undo tgid (s_id set) l 0).

Definition checked_post (l : list sem_undo) (ops : list sembuf_user) (r : list sem_undo * Z) : Prop :=
  (r.1 = l \/ ~ has_record l /\ r.1 = fresh_undo tgid set :: l) /\
  (r.2 = 0 /\ undo_fits l ops /\ (existsb undoes ops = true -> has_record r.1) \/
   r.2 = - ENOMEM /\ alloc = false /\ existsb undoes ops = true /\ ~ has_record l \/
   r.2 = - ERANGE /\ ~ undo_fits l ops).

Lemma has_record_None l : find_undo tgid (s_id set) l 0 = None <-> ~ has_record l.
Proof.
  unfold has_record. rewrite <- eq_None_not_Some. done.
Qed.

(** The tail's verdict on the list the head operation has left. *)
Lemma checked_post_cons l l1 o ops r :
  (l1 = l \/ ~ has_record l /\ l1 = fresh_undo tgid set :: l) ->
  (undoes o = true -> has_record l1 /\
     - SEM_ADJ_MAX <= adj_of l tgid (s_id set) (Z.to_nat (num o)) - op o <= SEM_ADJ_MAX) ->
  (undoes o = false -> l1 = l) ->
  checked_post l1 ops r -> checked_post l (o :: ops) r.
Proof.
  intros H1 Hu Hn [Hl He].
  assert (forall k, adj_of l1 tgid (s_id set) k = adj_of l tgid (s_id set) k) as Ha.
  { intros k. destruct H1 as [->|[?%has_record_None ->]]; [done|]. by apply adj_of_fresh. }
  assert (undo_fits l1 ops <-> undo_fits l (o :: ops)) as Hf.
  { unfold undo_fits. rewrite list.Forall_cons. split.
    - intros H. split; [intros Ho; by destruct (Hu Ho)|]. revert H. apply Forall_impl. intros o' H. by rewrite <- Ha.
    - intros [_ H]. revert H. apply Forall_impl. intros o' H. by rewrite Ha. }
  assert (has_record l -> has_record l1) as Hm by (destruct H1 as [->|[? ?]]; done).
  unfold checked_post. cbn [existsb]. split.
  - destruct Hl as [->|[Hno ->]]; [done|]. destruct (undoes o) eqn:E; [by destruct (Hu eq_refl)|].
    rewrite Hn in * by done. auto.
  - destruct He as [(? & ? & Hr)|[(? & ? & ? & Hr)|[? ?]]].
    + left. split; [done|]. split; [by apply Hf|]. destruct (undoes o) eqn:E; [|exact Hr]. intros _.
      destruct (Hu eq_refl) as [Hrec _]. by destruct Hl as [->|[? ?]].
    + right; left. destruct (undoes o) eqn:E; [by destruct (Hu eq_refl)|].
      rewrite Hn in * by done. auto.
    + right; right. split; [done|]. by rewrite <- Hf.
Qed.

Lemma check_undos_ok ops : forall l, sized set l -> nums_ok (length (sems set)) ops ->
  returns (check_undos tgid set alloc ops l) (checked_post l ops).
Proof.
  induction ops as [|o ops IH]; intros l Hs Hn; cbn [check_undos].
  - cbn. split; [auto|]. left. split; [done|]. split; [constructor|done].
  - apply Forall_cons_1 in Hn as [Hn Hns]. destruct (undoes o) eqn:Eu.
    2: { eapply returns_mono; [by apply IH|]. intros r. apply checked_post_cons; auto. congruence. }
    destruct (undo_for tgid set alloc l) as [[l1 i]|] eqn:Ef.
    2: { unfold undo_for in Ef. destruct (find_undo _ _ _ _) eqn:E; [done|]. destruct alloc eqn:Ea; [done|].
         split; [auto|]. right; left. cbn. rewrite Eu. split_and!; try done. by apply has_record_None. }
    apply undo_for_spec in Ef as (Hf & Hl1).
    assert (l1 = l \/ ~ has_record l /\ l1 = fresh_undo tgid set :: l) as Hl1'.
    { destruct Hl1 as [->|(?%has_record_None & _ & ->)]; auto. }
    assert (sized set l1) as Hs1 by (destruct Hl1' as [->|[_ ->]]; [done|by apply sized_fresh]).
    destruct (undo_read _ _ _ _ _ Hs1 Hf Hn) as (u & Hu & Eo & _ & _ & Hrd).
    unfold undo_at. rewrite Hu, bind_ret, Hrd, bind_ret.
    assert (adj_of l1 tgid (s_id set) (Z.to_nat (num o)) = adj_of l tgid (s_id set) (Z.to_nat (num o))) as ->.
    { destruct Hl1' as [->|[?%has_record_None ->]]; [done|]. by apply adj_of_fresh. }
    branch Er.
    + split; [done|]. right; right. split; [done|].
      intros [H _]%Forall_cons_1. specialize (H Eu). lia.
    + eapply returns_mono; [by apply IH|]. intros r. apply checked_post_cons; [done| |congruence].
      intros _. split; [by exists i|]. lia.
Qed.

Definition undo_sum (k : nat) (ops : list sembuf_user) : Z := net (Z.of_nat k) (filter undoes ops).

Definition same_shape (u u' : sem_undo) : Prop :=
  owner u' = owner u /\ length (adjust u') = length (adjust u) /\
  (Forall i16_range (adjust u) -> Forall i16_range (adjust u')).

Definition applied_post (l : list sem_undo) (ops : list sembuf_user) (l' : list sem_undo) : Prop :=
  Forall2 same_shape l l' /\
  (forall k, (k < length (sems set))%nat -> has_record l ->
     adj_of l' tgid (s_id set) k = i16 (adj_of l tgid (s_id set) k - undo_sum k ops)) /\
  (forall t i k, (t, i) <> (tgid, s_id set) -> adj_of l' t i k = adj_of l t i k) /\
  (existsb undoes ops = false -> l' = l).
End undo_loops.

Lemma undo_sum_cons k o ops :
  undo_sum k (o :: ops) =
    (if undoes o && (num o =? Z.of_nat k) then op o else 0) + undo_sum k ops.
Proof.
  unfold undo_sum. rewrite filter_cons. by destruct (undoes o).
Qed.

Lemma same_shape_refl u : same_shape u u.
Proof. done. Qed.

#[global] Instance same_shape_trans : Transitive same_shape.
Proof. intros x y z (? & ? & ?) (? & ? & ?). split_and!; [congruence..|auto]. Qed.

Lemma sized_shape set l l' : Forall2 same_shape l l' -> sized set l -> sized set l'.
Proof.
  induction 1 as [|u u' l l' (Ho & Hl & Hr) _ IH]; [done|]. intros [H Hs]%Forall_cons_1.
  constructor; [|by apply IH]. injection Ho as _ ->. rewrite Hl. naive_solver.
Qed.

Lemma map_owner_shape l l' : Forall2 same_shape l l' -> map owner l' = map owner l.
Proof. induction 1 as [|u u' l l' (Ho & _) _ IH]; cbn; congruence. Qed.

Lemma adj_of_range set l tgid k : sized set l -> i16_range (adj_of l tgid (s_id set) k).
Proof.
  intros Hs. assert (i16_range 0) by (unfold i16_range; lia). unfold adj_of.
  destruct (find_undo _ _ _ _) as [i|] eqn:E; [|done].
  apply find_undo_Some in E as (u & Hu & Eu). rewrite Hu.
  destruct (Forall_lookup_1 _ _ _ _ Hs Hu) as [_ Hr]; [by injection Eu|].
  destruct (adjust u !! k) eqn:E; [|done]. by apply (Forall_lookup_1 _ _ _ _ Hr E).
Qed.

(** Recording one adjustment. *)
Lemma apply_one l i u tgid set o a :
  find_undo tgid (s_id set) l 0 = Some i -> l !! i = Some u -> owner u = (tgid, s_id set) ->
  length (adjust u) = length (sems set) -> 0 <= num o < Z.of_nat (length (sems set)) ->
  let l' := <[i := SemUndo (u_tgid u) (u_id u) (<[Z.to_nat (num o) := i16 (a - op o)]> (adjust u))]> l in
  Forall2 same_shape l l' /\
  (forall t id k, adj_of l' t id k =
     if bool_decide ((t, id) = (tgid, s_id set) /\ k = Z.to_nat (num o)) then i16 (a - op o)
     else adj_of l t id k).
Proof.
  intros Hf Hu Eo Hl Hn l'. injection Eo as Et Ei. split.
  - apply Forall2_same_length_lookup. unfold l'. rewrite length_insert. split; [done|].
    intros j x y Hx Hy. destruct (decide (i = j)) as [<-|].
    + rewrite list_lookup_insert_eq in Hy by (by eapply lookup_lt_Some). simplify_eq.
      split_and!; [done|cbn; by rewrite length_insert|]. intros Hr. apply Forall_insert; [done|].
      apply i16_bound.
    + rewrite list_lookup_insert_ne in Hy by done. simplify_eq. apply same_shape_refl.
  - intros t id k. unfold l'. rewrite adj_of_insert by (rewrite ?Et, ?Ei; done).
    unfold owner. rewrite Et, Ei. destruct (decide ((tgid, s_id set) = (t, id))) as [E|E].
    + rewrite bool_decide_eq_true_2 by done. injection E as <- <-.
      destruct (decide (k = Z.to_nat (num o))) as [->|Hk].
      * rewrite list_lookup_insert_eq by lia. by rewrite bool_decide_eq_true_2.
      * rewrite list_lookup_insert_ne by done. rewrite bool_decide_eq_false_2 by naive_solver.
        unfold adj_of. by rewrite Hf, Hu.
    + rewrite !bool_decide_eq_false_2; [done|naive_solver|done].
Qed.

Lemma apply_undos_ok tgid set alloc ops : forall l, sized set l -> nums_ok (length (sems set)) ops ->
  (existsb undoes ops = true -> has_record tgid set l) ->
  returns (apply_undos tgid set alloc ops l) (applied_post tgid set l ops).
Proof.
  induction ops as [|o ops IH]; intros l Hs Hn Hrec; cbn [apply_undos].
  - cbn. split_and!; [|intros|done..].
    + apply Forall_Forall2_diag, Forall_true. intros. apply same_shape_refl.
    + rewrite Z.sub_0_r, i16_small; [done|]. by apply (adj_of_range set).
  - apply Forall_cons_1 in Hn as [Hn Hns]. cbn [existsb] in Hrec. destruct (undoes o) eqn:Eu.
    2: { eapply returns_mono; [by apply IH|]. intros l' (H1 & H2 & H3 & H4). split_and!; try done.
         - intros k Hk Hr. by rewrite undo_sum_cons, Eu, H2.
         - cbn [existsb]. by rewrite Eu. }
    destruct (Hrec eq_refl) as [i Hf]. unfold undo_for. rewrite Hf.
    destruct (undo_read _ _ _ _ _ Hs Hf Hn) as (u & Hu & Eo & Hlen & _ & Hrd).
    unfold undo_at. rewrite Hu, bind_ret, Hrd, bind_ret, wr_in, bind_ret by lia.
    destruct (apply_one l i u tgid set o (adj_of l tgid (s_id set) (Z.to_nat (num o)))
      Hf Hu Eo Hlen Hn) as [Hsh Hadj].
    set (l1 := <[i := _]> l) in *.
    assert (has_record tgid set l1) as Hr1.
    { exists i. rewrite <- Hf. apply find_undo_owner. by apply map_owner_shape. }
    eapply returns_mono; [apply IH; [by eapply sized_shape|done|done]|].
    intros l' (H1 & H2 & H3 & H4). split_and!.
    + by transitivity l1.
    + intros k Hk _. rewrite H2, Hadj, undo_sum_cons, Eu by done. cbn [andb].
      destruct (Z.eqb_spec (num o) (Z.of_nat k)) as [E|E].
      * rewrite bool_decide_eq_true_2 by (split; [done|lia]).
        replace (Z.to_nat (num o)) with k by lia. apply i16_sub.
      * rewrite bool_decide_eq_false_2 by (intros [_ ?]; lia). f_equal.
    + intros t id k Ht. rewrite H3, Hadj, bool_decide_eq_false_2 by naive_solver. done.
    + cbn [existsb]. by rewrite Eu.
Qed.

Definition touched (k : nat) (ops : list sembuf_user) : bool := existsb (fun o => num o =? Z.of_nat k) ops.

Lemma stamp_pids_ok p ops : forall l, nums_ok (length l) ops ->
  returns (stamp_pids p ops l) (fun l' =>
    l' = imap (fun k m => if touched k ops then set_pid p m else m) l).
Proof.
  induction ops as [|o ops IH]; intros l Hn; cbn [stamp_pids].
  - cbn. apply list_eq. intros k. rewrite list_lookup_imap. by destruct (l !! k).
  - apply Forall_cons_1 in Hn as [Hn Hns].
    destruct (lookup_lt_is_Some_2 l (Z.to_nat (num o)) ltac:(lia)) as [m Hm].
    rewrite (rd_lookup _ _ m), bind_ret, wr_in, bind_ret by (done || lia).
    eapply returns_mono; [apply IH; by rewrite length_insert|]. intros l' ->. cbn.
    apply list_eq. intros k. rewrite !list_lookup_imap.
    destruct (Z.eqb_spec (num o) (Z.of_nat k)) as [E|E]; cbn [orb].
    + replace (Z.to_nat (num o)) with k in * by lia.
      rewrite list_lookup_insert_eq, Hm by (by eapply lookup_lt_Some). cbn. f_equal. by destruct (touched k ops).
    + rewrite list_lookup_insert_ne by lia. by destruct (l !! k).
Qed.

(** ** The outcome of one attempt *)

Definition after_ops (tgid : Z) (ops : list sembuf_user) (l : list sem) : list sem :=
  imap (fun k m =>
    let m := set_value (value m + net (Z.of_nat k) ops) m in
    if touched k ops then set_pid (i32 tgid) m else m) l.

(** The list of undo records before and after: perhaps one new record, and
    only contents changed. *)
Definition undos_step (tgid : Z) (set : sem_set) (l l' : list sem_undo) : Prop :=
  exists l1, (l1 = l \/ ~ has_record tgid set l /\ l1 = fresh_undo tgid set :: l) /\
    Forall2 same_shape l1 l'.

Definition same_adjustments (l l' : list sem_undo) : Prop :=
  forall t i k, adj_of l' t i k = adj_of l t i k.

(** The operations were all performed. *)
Definition performed (st : sem_state) (slot : nat) (set : sem_set) (ops : list sembuf_user)
    (tgid now : Z) (st' : sem_state) : Prop :=
  let sems' := after_ops tgid ops (sems set) in
  let set' := set_otime now (set_sems sems' set) in
  let changed := negb (bool_decide (map value sems' = map value (sems set))) in
  sets st' = <[slot := Some (if changed then bump_generation set' else set')]> (sets st) /\
  woken st' = woken st ++ (if changed then [slot] else []) /\
  next_seq st' = next_seq st /\
  (forall k, (k < length (sems set))%nat ->
     adj_of (undos st') tgid (s_id set) k =
     i16 (adj_of (undos st) tgid (s_id set) k - undo_sum k ops)) /\
  (forall t i k, (t, i) <> (tgid, s_id set) -> adj_of (undos st') t i k = adj_of (undos st) t i k).

(** Nothing was performed. *)
Definition untouched (st st' : sem_state) : Prop :=
  sets st' = sets st /\ woken st' = woken st /\ next_seq st' = next_seq st /\
  same_adjustments (undos st) (undos st').

Definition semop_post (st : sem_state) (slot : nat) (set : sem_set) (ops : list sembuf_user)
    (tgid now : Z) (alloc : bool) (st' : sem_state) (r : try_result) : Prop :=
  let vals := map value (sems set) in
  match r with
  | Blocked j => untouched st st' /\ stops_at vals ops j Blocks
  | Status s =>
      s = 0 /\ all_proceed vals ops /\ undo_fits tgid set (undos st) ops /\
        performed st slot set ops tgid now st' \/
      s = - ERANGE /\ (exists j, stops_at vals ops j Overflows) /\ untouched st st' \/
      s = - ERANGE /\ all_proceed vals ops /\ ~ undo_fits tgid set (undos st) ops /\ untouched st st' \/
      s = - ENOMEM /\ all_proceed vals ops /\ alloc = false /\ ~ has_record tgid set (undos st) /\
        existsb undoes ops = true /\ untouched st st'
  end.

Lemma undo_sum_none k ops : existsb undoes ops = false -> undo_sum k ops = 0.
Proof.
  induction ops as [|o ops IH]; [done|]. cbn [existsb]. intros [H1 H2]%orb_false_iff.
  rewrite undo_sum_cons, H1, IH by done. done.
Qed.

Lemma untouched_refl st : untouched st st.
Proof. done. Qed.

Lemma undos_step_refl tgid set l : undos_step tgid set l l.
Proof.
  exists l. split; [auto|]. apply Forall_Forall2_diag, Forall_true. intros. apply same_shape_refl.
Qed.

Lemma same_adjustments_created tgid set l l1 :
  (l1 = l \/ ~ has_record tgid set l /\ l1 = fresh_undo tgid set :: l) -> same_adjustments l l1.
Proof.
  intros [->|[H%has_record_None ->]]; [done|]. intros t i k. by apply adj_of_fresh.
Qed.

(** The stamped list of the fourth and fifth loop. *)
Lemma after_ops_eq tgid ops l :
  imap (fun k m => if touched k ops then set_pid (i32 tgid) m else m)
    (zip_with set_value (imap (fun k v => v + net (Z.of_nat k) ops) (map value l)) l)
  = after_ops tgid ops l.
Proof.
  apply list_eq. intros k. unfold after_ops. change (map value l) with (value <$> l).
  rewrite !list_lookup_imap, lookup_zip_with, list_lookup_imap, list_lookup_fmap.
  by destruct (l !! k).
Qed.

Lemma value_after_ops tgid ops l :
  map value (after_ops tgid ops l) = imap (fun k v => v + net (Z.of_nat k) ops) (map value l).
Proof.
  change (value <$> after_ops tgid ops l = imap (fun k v => v + net (Z.of_nat k) ops) (value <$> l)).
  apply list_eq. intros k. unfold after_ops.
  rewrite list_lookup_fmap, !list_lookup_imap, list_lookup_fmap.
  destruct (l !! k); [|done]. cbn. by destruct (touched k ops).
Qed.

Lemma length_after_ops tgid ops l : length (after_ops tgid ops l) = length l.
Proof. apply length_imap. Qed.

(** The part of [try_operations] after the checks. *)
Lemma commit_ok st slot set ops tgid now alloc l :
  sized set (undos st) -> nums_ok (length (sems set)) ops ->
  (l = undos st \/ ~ has_record tgid set (undos st) /\ l = fresh_undo tgid set :: undos st) ->
  (existsb undoes ops = true -> has_record tgid set l) ->
  returns (apply_undos tgid set alloc ops l) (fun l' =>
    undos_step tgid set (undos st) l' /\
    forall st', sets st' = sets st -> woken st' = woken st -> next_seq st' = next_seq st -> undos st' = l' ->
    let sems' := after_ops tgid ops (sems set) in
    let set' := set_otime now (set_sems sems' set) in
    let changed := negb (bool_decide (map value sems' = map value (sems set))) in
    performed st slot set ops tgid now
      (if changed then process_wake_all (put st' slot (Some (bump_generation set'))) slot
       else put st' slot (Some set'))).
Proof.
  intros Hs Hn Hl Hrec.
  assert (sized set l) as Hsl by (destruct Hl as [->|[_ ->]]; [done|by apply sized_fresh]).
  pose proof (same_adjustments_created _ _ _ _ Hl) as Ha.
  eapply returns_mono; [by apply apply_undos_ok|]. intros l' (H1 & H2 & H3 & H4).
  split; [by exists l|]. intros st' Es Ew En Eu. cbv zeta.
  assert (forall k, (k < length (sems set))%nat ->
    adj_of l' tgid (s_id set) k = i16 (adj_of (undos st) tgid (s_id set) k - undo_sum k ops)) as Hk.
  { intros k Hk. rewrite <- Ha. destruct (existsb undoes ops) eqn:E; [apply H2; auto|].
    rewrite H4, undo_sum_none, Z.sub_0_r, i16_small by (done || by apply (adj_of_range set)). done. }
  unfold performed. cbv zeta. destruct (negb _); cbn [sets woken next_seq undos process_wake_all put];
    rewrite Es, Ew, En, Eu, ?app_nil_r; split_and!; try done; intros; by rewrite H3, Ha.
Qed.

Lemma try_operations_ok st slot set ops tgid now alloc :
  sets st !! slot = Some (Some set) -> s_count set <= SEM_COUNT_MAX ->
  Forall in_range (map value (sems set)) -> sized set (undos st) -> nums_ok (length (sems set)) ops ->
  returns (try_operations st slot ops tgid now alloc) (fun '(st', r) =>
    semop_post st slot set ops tgid now alloc st' r /\ undos_step tgid set (undos st) (undos st') /\
    Forall in_range (map value (match r with Status 0 => after_ops tgid ops (sems set) | _ => sems set end))).
Proof.
  intros Hset Hc Hr Hs Hn. unfold try_operations, deref. rewrite Hset, bind_ret.
  unfold local_array. replace (s_count set <=? SEM_COUNT_MAX) with true by lia. rewrite bind_ret.
  eapply returns_bind; [apply stage_ops_ok; [by rewrite length_map|done]|].
  intros [values|b|e] H; cbn [staged_post] in H.
  - destruct H as (Hall & -> & Hr').
    eapply returns_bind; [by apply check_undos_ok|]. intros [l e] [Hl He]. cbn [fst snd] in Hl, He.
    assert (untouched st (with_undos st l)) as Hun.
    { split_and!; try done. cbn. by eapply same_adjustments_created. }
    assert (undos_step tgid set (undos st) l) as Hst.
    { exists l. split; [done|]. apply Forall_Forall2_diag, Forall_true. intros. apply same_shape_refl. }
    destruct He as [(-> & Hf & Hrec)|[(-> & ? & ? & ?)|(-> & ?)]]; cbn [Z.eqb negb].
    + eapply returns_bind; [by apply (commit_ok st slot set ops tgid now alloc l)|].
      intros l' (Hst' & Hp). eapply returns_bind.
      { apply stamp_pids_ok. by rewrite length_zip_with, length_imap, length_map, Nat.min_id. }
      intros stamped ->. rewrite after_ops_eq, <- (value_after_ops tgid).
      specialize (Hp (with_undos (with_undos st l) l') eq_refl eq_refl eq_refl eq_refl). cbv zeta in Hp.
      rewrite <- (value_after_ops tgid) in Hr'. destruct (negb _); (split; [left|]; done).
    + split; [|done]. cbn. auto 10.
    + split; [|done]. cbn. auto 10.
  - destruct H as (j & -> & H). split; [|split; [apply undos_step_refl|done]].
    split; [apply untouched_refl|done].
  - destruct H as (-> & j & H). split; [|split; [apply undos_step_refl|done]].
    right; left. split_and!; [done|by exists j|apply untouched_refl].
Qed.

(** ** The invariant

    [ws] are the threads asleep in [sysvsem_op]. *)

Definition count_if (f : sleeper -> bool) (ws : list sleeper) : Z := Z.of_nat (length (List.filter f ws)).

Definition on_slot (slot : nat) (w : sleeper) : bool := Nat.eqb (w_slot w) slot.
Definition on_sem (slot n : nat) (zero : bool) (w : sleeper) : bool :=
  on_slot slot w && (w_num w =? Z.of_nat n) && Bool.eqb (w_zero w) zero.

Record set_ok (ws : list sleeper) (slot : nat) (s : sem_set) : Prop := SetOk {
  ok_id : 0 <= s_id s /\ s_id s mod SEM_SETS_MAX = Z.of_nat slot;
  ok_count : 1 <= s_count s <= SEM_COUNT_MAX;
  ok_values : Forall in_range (map value (sems s));
  ok_sleepers : s_sleepers s = count_if (on_slot slot) ws;
  ok_waiting : forall n m, sems s !! n = Some m ->
    waiting_less m = count_if (on_sem slot n false) ws /\
    waiting_zero m = count_if (on_sem slot n true) ws;
  ok_removed : s_removed s = true -> 0 < s_sleepers s }.

Definition sleeper_ok (st : sem_state) (w : sleeper) : Prop :=
  exists s, sets st !! w_slot w = Some (Some s) /\
    nums_ok (length (sems s)) (w_ops w) /\ 0 <= w_num w < s_count s.

Definition undo_ok (st : sem_state) (u : sem_undo) : Prop :=
  exists s, sets st !! Z.to_nat (u_id u mod SEM_SETS_MAX) = Some (Some s) /\ s_removed s = false /\
    s_id s = u_id u /\ length (adjust u) = length (sems s) /\ Forall i16_range (adjust u).

Record inv (st : sem_state) (ws : list sleeper) : Prop := Inv {
  inv_table : length (sets st) = 128%nat;
  inv_sets : forall slot s, sets st !! slot = Some (Some s) -> set_ok ws slot s;
  inv_sleepers : Forall (sleeper_ok st) ws;
  inv_undos : Forall (undo_ok st) (undos st);
  inv_owners : NoDup (map owner (undos st));
  inv_threads : Z.of_nat (length ws) < 2 ^ 32 }.

Lemma count_if_app f l1 l2 : count_if f (l1 ++ l2) = count_if f l1 + count_if f l2.
Proof. unfold count_if. rewrite List.filter_app, length_app. lia. Qed.

Lemma count_if_cons f w l : count_if f (w :: l) = (if f w then 1 else 0) + count_if f l.
Proof. unfold count_if. cbn. destruct (f w); cbn; lia. Qed.

Lemma count_if_bound f l : 0 <= count_if f l <= Z.of_nat (length l).
Proof. unfold count_if. pose proof (List.filter_length_le f l). lia. Qed.

Lemma inv_set_ok st ws slot s : inv st ws -> sets st !! slot = Some (Some s) -> set_ok ws slot s.
Proof. intros H. apply (inv_sets _ _ H). Qed.

(** Two threads of the table never share an id. *)
Lemma same_id_same_slot ws slot slot' s s' :
  set_ok ws slot s -> set_ok ws slot' s' -> s_id s = s_id s' -> slot = slot'.
Proof. intros H H' E. destruct (ok_id _ _ _ H), (ok_id _ _ _ H'). rewrite E in *. lia. Qed.

Lemma inv_sized st ws slot s : inv st ws -> sets st !! slot = Some (Some s) -> sized s (undos st).
Proof.
  intros H Hs. generalize (inv_undos _ _ H). apply Forall_impl.
  intros u (s' & Hs' & _ & Hid & Hl & Hr) E.
  assert (slot = Z.to_nat (u_id u mod SEM_SETS_MAX)) as ->.
  { apply (same_id_same_slot ws _ _ s s'); [by eapply inv_set_ok..|congruence]. }
  rewrite Hs in Hs'. injection Hs' as ->. done.
Qed.

Lemma inv_wake st ws slot : inv st ws -> inv (process_wake_all st slot) ws.
Proof. intros []. by constructor. Qed.

(** The invariant is about the table and the undo records. *)
Lemma inv_ext st st' ws : inv st ws -> sets st' = sets st -> undos st' = undos st -> inv st' ws.
Proof. destruct st, st'. cbn. intros [] -> ->. by constructor. Qed.

Lemma inv_undos_same_sets st ws l : inv st ws -> Forall (undo_ok st) l -> NoDup (map owner l) ->
  inv (with_undos st l) ws.
Proof. intros [] Hl Hn. by constructor. Qed.

(** Storing a set through its pointer, perhaps with sleepers of that set
    added or taken away. *)
Lemma inv_replace st ws ws' slot s s' :
  inv st ws -> sets st !! slot = Some (Some s) ->
  set_ok ws' slot s' -> s_id s' = s_id s -> length (sems s') = length (sems s) ->
  (s_removed s' = s_removed s \/ Forall (fun u => u_id u <> s_id s) (undos st)) ->
  (forall f, (forall w, w_slot w = slot -> f w = false) -> count_if f ws' = count_if f ws) ->
  Forall (fun w => w ∈ ws \/ w_slot w = slot /\ nums_ok (length (sems s)) (w_ops w) /\
    0 <= w_num w < s_count s) ws' ->
  Z.of_nat (length ws') < 2 ^ 32 ->
  inv (put st slot (Some s')) ws'.
Proof.
  intros H Hs Hok Hid Hlen Hrm Hf Hws Hb.
  assert (slot < length (sets st))%nat as Hlt by (by eapply lookup_lt_Some).
  assert (forall k x, sets st !! k = Some (Some x) ->
    exists y, sets (put st slot (Some s')) !! k = Some (Some y) /\ length (sems y) = length (sems x) /\
      s_id y = s_id x /\ (k <> slot -> y = x) /\ (k = slot -> y = s' /\ x = s)) as Hlk.
  { intros k x Hx. destruct (decide (k = slot)) as [->|Hne]; cbn.
    - rewrite list_lookup_insert_eq by done. exists s'. naive_solver.
    - rewrite list_lookup_insert_ne by done. exists x. naive_solver. }
  constructor; cbn [undos put].
  - cbn. rewrite length_insert. apply (inv_table _ _ H).
  - intros k x. destruct (decide (k = slot)) as [->|Hne]; cbn.
    + rewrite list_lookup_insert_eq by done. by intros [= <-].
    + rewrite list_lookup_insert_ne by done. intros Hx. destruct (inv_set_ok _ _ _ _ H Hx).
      constructor; try done.
      * rewrite ok_sleepers0. symmetry. apply Hf. intros w <-. unfold on_slot. by apply Nat.eqb_neq.
      * intros n m Hm. destruct (ok_waiting0 n m Hm) as [-> ->].
        split; symmetry; apply Hf; intros w <-; unfold on_sem, on_slot;
          replace (Nat.eqb (w_slot w) k) with false by (symmetry; by apply Nat.eqb_neq); done.
  - revert Hws. apply Forall_impl. intros w [Hw|(<- & Hn & Hm)].
    + pose proof (inv_sleepers _ _ H) as HF. rewrite list.Forall_forall in HF.
      destruct (HF w Hw) as (x & Hx & Hn & Hm). destruct (Hlk _ _ Hx) as (y & Hy & Hl & _).
      exists y. unfold s_count in *. rewrite Hl. done.
    + exists s'. unfold s_count in *. rewrite Hlen. split_and!; try done; [|lia..]. cbn.
      by rewrite list_lookup_insert_eq.
  - generalize (inv_undos _ _ H). rewrite !list.Forall_forall. intros HF u Hu.
    destruct (HF u Hu) as (x & Hx & Hr & Hi & Hl & Hi16).
    destruct (Hlk _ _ Hx) as (y & Hy & Hly & Hiy & Hne & Heq). exists y.
    split_and!; try done; [|congruence..].
    destruct (decide (Z.to_nat (u_id u mod SEM_SETS_MAX) = slot)) as [E|E]; [|by rewrite Hne].
    destruct (Heq E) as [-> ->]. destruct Hrm as [->|Hrm]; [done|].
    rewrite list.Forall_forall in Hrm. by destruct (Hrm u Hu).
  - apply (inv_owners _ _ H).
  - done.
Qed.

(** What the operations that do not sleep leave alone. *)
Definition same_waiters (m m' : sem) : Prop :=
  waiting_less m' = waiting_less m /\ waiting_zero m' = waiting_zero m.

Definition same_frame (s s' : sem_set) : Prop :=
  s_id s' = s_id s /\ s_removed s' = s_removed s /\ s_sleepers s' = s_sleepers s /\
  Forall2 same_waiters (sems s) (sems s').

Lemma same_frame_ok ws slot s s' :
  set_ok ws slot s -> same_frame s s' -> Forall in_range (map value (sems s')) -> set_ok ws slot s'.
Proof.
  intros [] (Hi & Hr & Hs & Hw) Hv. pose proof (Forall2_length Hw) as Hl.
  constructor; unfold s_count in *; rewrite ?Hi, ?Hr, ?Hs, <- ?Hl; try done.
  intros n m' Hm'. destruct (Forall2_lookup_r _ _ _ _ _ Hw Hm') as (m & Hm & E1 & E2).
  rewrite E1, E2. by apply ok_waiting0.
Qed.

Lemma old_sleepers (P : sleeper -> Prop) ws : Forall (fun w => w ∈ ws \/ P w) ws.
Proof. apply list.Forall_forall. auto. Qed.

Lemma inv_update st ws slot s s' :
  inv st ws -> sets st !! slot = Some (Some s) -> same_frame s s' ->
  Forall in_range (map value (sems s')) -> inv (put st slot (Some s')) ws.
Proof.
  intros H Hs Hf Hv. pose proof Hf as (Hi & Hr & _ & Hw).
  eapply inv_replace; try done; [|by symmetry; eapply Forall2_length|by left|apply old_sleepers|].
  - by eapply same_frame_ok; [eapply inv_set_ok|..].
  - apply (inv_threads _ _ H).
Qed.

(** Freeing a set nobody sleeps on and no undo record names. *)
Lemma inv_free st ws ws' slot s :
  inv st ws -> sets st !! slot = Some (Some s) ->
  Forall (fun u => u_id u <> s_id s) (undos st) ->
  (forall f, (forall w, w_slot w = slot -> f w = false) -> count_if f ws' = count_if f ws) ->
  Forall (fun w => w ∈ ws /\ w_slot w <> slot) ws' ->
  Z.of_nat (length ws') < 2 ^ 32 ->
  inv (put st slot None) ws'.
Proof.
  intros H Hs Hu Hf Hws Hb.
  assert (forall k x, k <> slot -> sets (put st slot None) !! k = Some (Some x) <->
    sets st !! k = Some (Some x)) as Hlk.
  { intros k x Hk. cbn. by rewrite list_lookup_insert_ne. }
  constructor; cbn [undos put].
  - cbn. rewrite length_insert. apply (inv_table _ _ H).
  - intros k x Hx. assert (k <> slot) as Hk.
    { intros ->. cbn in Hx. rewrite list_lookup_insert_eq in Hx; [done|]. by eapply lookup_lt_Some. }
    apply Hlk in Hx; [|done]. destruct (inv_set_ok _ _ _ _ H Hx). constructor; try done.
    + rewrite ok_sleepers0. symmetry. apply Hf. intros w <-. unfold on_slot. by apply Nat.eqb_neq.
    + intros n m Hm. destruct (ok_waiting0 n m Hm) as [-> ->].
      split; symmetry; apply Hf; intros w <-; unfold on_sem, on_slot;
        replace (Nat.eqb (w_slot w) k) with false by (symmetry; by apply Nat.eqb_neq); done.
  - revert Hws. apply Forall_impl. intros w [Hw Hne].
    pose proof (inv_sleepers _ _ H) as HF. rewrite list.Forall_forall in HF.
    destruct (HF w Hw) as (x & Hx & Hn). exists x. by rewrite Hlk.
  - generalize (inv_undos _ _ H). rewrite !list.Forall_forall in *. intros HF u Hin.
    destruct (HF u Hin) as (x & Hx & Hr & Hi & Hl). exists x. split; [|done].
    apply Hlk; [|done]. intros E. rewrite E in Hx.
    rewrite Hs in Hx. injection Hx as <-. by destruct (Hu u Hin).
  - apply (inv_owners _ _ H).
  - done.
Qed.

Lemma drop_undos_gone id l : Forall (fun u => u_id u <> id) (drop_undos_for id l).
Proof. apply list.Forall_forall. intros u [H _]%list_elem_of_filter. done. Qed.

Lemma inv_drop st ws id : inv st ws -> inv (with_undos st (drop_undos_for id (undos st))) ws.
Proof.
  intros H. apply inv_undos_same_sets; [done| |].
  - apply list.Forall_forall. intros u [_ Hu]%list_elem_of_filter.
    by apply (proj1 (list.Forall_forall _ _) (inv_undos _ _ H)).
  - generalize (inv_owners _ _ H). induction (undos st) as [|u l IH]; [done|].
    unfold drop_undos_for in *. rewrite filter_cons. cbn [map]. intros [Hn Hd]%list.NoDup_cons.
    case_decide; [|by apply IH]. cbn [map]. apply list.NoDup_cons. split; [|by apply IH].
    intros (u' & E & Hin)%list_elem_of_fmap. apply Hn, list_elem_of_fmap.
    exists u'. split; [done|]. by apply list_elem_of_filter in Hin as [_ ?].
Qed.

Lemma no_sleepers ws slot : count_if (on_slot slot) ws = 0 ->
  Forall (fun w => w ∈ ws /\ w_slot w <> slot) ws.
Proof.
  intros H. apply list.Forall_forall. intros w Hw. split; [done|]. intros E.
  apply list_elem_of_split in Hw as (l1 & l2 & ->). rewrite count_if_app, count_if_cons in H.
  unfold on_slot at 2 in H. rewrite E, Nat.eqb_refl in H.
  pose proof (count_if_bound (on_slot slot) l1). pose proof (count_if_bound (on_slot slot) l2). lia.
Qed.

(** Removing a live set: it is freed now, or kept for its sleepers. *)
Lemma destroy_ok st ws slot s : inv st ws -> sets st !! slot = Some (Some s) ->
  returns (destroy st slot) (fun st' => inv st' ws /\ woken st' = woken st ++ [slot]).
Proof.
  intros H Hs. unfold destroy, deref. rewrite Hs, bind_ret. cbn [returns s_id s_sleepers bump_generation mark_removed].
  pose proof (inv_drop _ _ (s_id s) H) as Hd.
  pose proof (inv_set_ok _ _ _ _ H Hs) as Hok. pose proof (inv_threads _ _ H) as Hb.
  destruct (Z.eqb_spec (s_sleepers s) 0) as [E|E].
  - split; [|done].
    assert (inv (put (with_undos st (drop_undos_for (s_id s) (undos st))) slot None) ws) as Hf.
    { eapply inv_free; try done; [apply drop_undos_gone|]. apply no_sleepers.
      by rewrite <- (ok_sleepers _ _ _ Hok). }
    apply (inv_wake _ _ slot) in Hf. unfold put, process_wake_all, with_undos in *. cbn in *.
    by rewrite list_insert_insert_eq.
  - split; [|done]. apply inv_wake.
    change (with_undos (put st slot (Some ?x)) ?l) with (put (with_undos st l) slot (Some x)).
    eapply inv_replace; try done; [|by right; apply drop_undos_gone|apply old_sleepers].
    destruct Hok. constructor; try done. intros _. cbn. pose proof (count_if_bound (on_slot slot) ws). lia.
Qed.

(** ** Every operation keeps the invariant *)

Lemma first_slot_Some f l a i : first_slot f l a = Some i ->
  exists j x, i = (a + j)%nat /\ l !! j = Some x /\ f x = true.
Proof.
  revert a. induction l as [|x l IH]; intros a; cbn; [done|]. destruct (f x) eqn:E.
  - intros [= <-]. exists O, x. split; [lia|done].
  - intros (j & y & -> & Hj & Hy)%IH. exists (S j), y. split; [lia|done].
Qed.

Lemma first_slot_None f l a : first_slot f l a = None -> Forall (fun x => f x = false) l.
Proof.
  revert a. induction l as [|x l IH]; intros a; cbn; [constructor|]. destruct (f x) eqn:E; [done|].
  intros. constructor; [done|]. by eapply IH.
Qed.

Lemma find_by_id_Some st id slot : find_by_id st id = Some slot ->
  exists s, sets st !! slot = Some (Some s) /\ s_removed s = false /\ s_id s = id.
Proof.
  unfold find_by_id. destruct (id <? 0); [done|].
  destruct (sets st !! Z.to_nat (id mod SEM_SETS_MAX)) as [[s|]|] eqn:E; try done.
  destruct (s_removed s) eqn:Er; [done|]. cbn. destruct (Z.eqb_spec (s_id s) id); [|done].
  intros [= <-]. by exists s.
Qed.

Lemma find_by_id_live st ws slot s : inv st ws -> sets st !! slot = Some (Some s) ->
  s_removed s = false -> find_by_id st (s_id s) = Some slot.
Proof.
  intros H Hs Hr. destruct (ok_id _ _ _ (inv_set_ok _ _ _ _ H Hs)) as [H1 H2]. unfold find_by_id.
  replace (s_id s <? 0) with false by lia. rewrite H2, Nat2Z.id, Hs, Hr, Z.eqb_refl. done.
Qed.

Lemma find_by_key_Some st key slot : find_by_key st key = Some slot ->
  exists s, sets st !! slot = Some (Some s) /\ s_removed s = false /\ s_key s = key /\ key <> IPC_PRIVATE.
Proof.
  unfold find_by_key. destruct (Z.eqb_spec key IPC_PRIVATE); [done|].
  intros (j & x & -> & Hx & Hf)%first_slot_Some. destruct x as [s|]; [|done]. cbn in Hf.
  apply andb_true_iff in Hf as [Hr Hk]. exists s. rewrite negb_true_iff in Hr.
  split_and!; try done. lia.
Qed.

Lemma find_by_key_None st key slot s : find_by_key st key = None ->
  sets st !! slot = Some (Some s) -> s_removed s = false -> key <> IPC_PRIVATE -> s_key s <> key.
Proof.
  unfold find_by_key. destruct (Z.eqb_spec key IPC_PRIVATE); [done|].
  intros H%first_slot_None Hs Hr _. pose proof (Forall_lookup_1 _ _ _ _ H Hs) as Hf. cbn in Hf.
  rewrite Hr in Hf. cbn in Hf. lia.
Qed.

Lemma make_id_slot slot seq : (slot < 128)%nat ->
  0 <= make_id slot seq /\ make_id slot seq mod SEM_SETS_MAX = Z.of_nat slot.
Proof.
  intros H. unfold make_id, SEM_SETS_MAX. pose proof (Z.mod_pos_bound seq 32768 ltac:(lia)).
  split; [lia|]. rewrite Z.add_comm, Z.mod_add, Z.mod_small by lia. done.
Qed.

Lemma free_slot_count st ws slot f : inv st ws -> sets st !! slot = Some None ->
  (forall w, w_slot w <> slot -> f w = false) -> count_if f ws = 0.
Proof.
  intros H Hs Hf. generalize (inv_sleepers _ _ H). clear H.
  induction ws as [|w ws IH]; [done|]. intros [(s & Hw & _) HF]%Forall_cons_1.
  rewrite count_if_cons, IH, Hf by (done || intros E; rewrite E in Hw; congruence). done.
Qed.

(** A new set in a free slot. *)
Lemma inv_create st ws slot s seq wk :
  inv st ws -> sets st !! slot = Some None -> set_ok [] slot s -> s_removed s = false ->
  inv (SemState (<[slot := Some s]> (sets st)) (undos st) seq wk) ws.
Proof.
  intros H Hs Hok Hrm.
  assert (slot < length (sets st))%nat as Hlt by (by eapply lookup_lt_Some).
  assert (forall k x, sets st !! k = Some (Some x) -> <[slot := Some s]> (sets st) !! k = Some (Some x)) as Hk.
  { intros k x Hx. rewrite list_lookup_insert_ne; [done|]. intros ->. congruence. }
  constructor; cbn [sets undos].
  - rewrite length_insert. apply (inv_table _ _ H).
  - intros k x. destruct (decide (k = slot)) as [->|Hne].
    + rewrite list_lookup_insert_eq by done. intros [= <-]. destruct Hok. constructor; try done.
      * rewrite ok_sleepers0. symmetry. apply (free_slot_count st _ slot); try done.
        intros w. unfold on_slot. by intros ?%Nat.eqb_neq.
      * intros n m Hm. destruct (ok_waiting0 n m Hm) as [-> ->].
        split; symmetry; apply (free_slot_count st _ slot); try done;
          intros w Hw; unfold on_sem, on_slot; apply Nat.eqb_neq in Hw; by rewrite Hw.
    + rewrite list_lookup_insert_ne by done. by apply inv_set_ok.
  - generalize (inv_sleepers _ _ H). apply Forall_impl. intros w (x & Hx & Hn). exists x. auto.
  - generalize (inv_undos _ _ H). apply Forall_impl. intros u (x & Hx & Hn). exists x. auto.
  - apply (inv_owners _ _ H).
  - apply (inv_threads _ _ H).
Qed.

Lemma new_set_ok key fl count cred slot seq now : (slot < 128)%nat -> 0 < count <= SEM_COUNT_MAX ->
  set_ok [] slot (new_set key fl count cred slot seq now).
Proof.
  intros Hs Hc. constructor; cbn; try done.
  - by apply make_id_slot.
  - unfold s_count. cbn. rewrite length_replicate. lia.
  - apply Forall_fmap, Forall_replicate. unfold in_range, SEM_VALUE_MAX. cbn. lia.
  - intros n m [-> _]%lookup_replicate. done.
Qed.

Definition get_error (st : sem_state) (key count flags : Z) (allocs : bool) (e : Z) : Prop :=
  e = - ENOENT /\ key <> IPC_PRIVATE /\ Z.land flags IPC_CREAT = 0 \/
  e = - EINVAL /\ ~ 0 < count <= SEM_COUNT_MAX \/
  e = - ENOSPC /\ Forall is_Some (sets st) \/
  e = - ENOMEM /\ allocs = false.

(** What [semget] promises: the set with the key, if there is one and the
    flags and permissions allow it; otherwise an error or a new set of zeros
    under an id nobody uses. *)
Definition get_post (st : sem_state) (key count flags : Z) (cred : option credentials)
    (allocs : bool) (st' : sem_state) (r : Z) : Prop :=
  (exists slot s, sets st !! slot = Some (Some s) /\ s_removed s = false /\ s_key s = key /\
     key <> IPC_PRIVATE /\ st' = st /\
     r = if negb (Z.land flags IPC_CREAT =? 0) && negb (Z.land flags IPC_EXCL =? 0) then - EEXIST
         else if count >? s_count s then - EINVAL
         else if negb (permitted cred s (negb (Z.land flags 146 =? 0))) || negb (permitted cred s false)
         then - EACCES
         else s_id s) \/
  (key <> IPC_PRIVATE -> forall slot s, sets st !! slot = Some (Some s) -> s_removed s = false ->
     s_key s <> key) /\
  (st' = st /\ get_error st key count flags allocs r \/
   exists slot s, sets st !! slot = Some None /\ sets st' = <[slot := Some s]> (sets st) /\
     undos st' = undos st /\ woken st' = woken st /\
     s_removed s = false /\ s_key s = key /\ s_id s = r /\ find_by_id st' r = Some slot /\
     s_count s = count /\ Forall (fun m => value m = 0) (sems s) /\
     (forall slot' s', sets st !! slot' = Some (Some s') -> s_id s' <> r) /\
     Forall (fun u => u_id u <> r) (undos st)).

Lemma get_ok st ws key count fl cred allocs now : inv st ws ->
  returns (sysvsem_get st key count fl cred allocs now) (fun '(st', r) =>
    inv st' ws /\ get_post st key count fl cred allocs st' r).
Proof.
  intros H. unfold sysvsem_get. destruct (find_by_key st key) as [slot|] eqn:Ek.
  { apply find_by_key_Some in Ek as (s & Hs & Hr & Hk & Hp). unfold deref. rewrite Hs, bind_ret.
    split; [done|]. left. exists slot, s. done. }
  assert (key <> IPC_PRIVATE -> forall slot s, sets st !! slot = Some (Some s) -> s_removed s = false ->
     s_key s <> key) as Hnk by (intros; by eapply find_by_key_None).
  branch E1.
  { split; [done|]. right. split; [done|]. left. split; [done|]. left. split; [done|]. lia. }
  branch E2.
  { split; [done|]. right. split; [done|]. left. split; [done|]. right; left. split; [done|]. lia. }
  destruct (first_slot _ _ _) as [slot|] eqn:Ef.
  2: { split; [done|]. right. split; [done|]. left. split; [done|]. right; right; left. split; [done|].
       apply first_slot_None in Ef. revert Ef. apply Forall_impl. by intros []. }
  apply first_slot_Some in Ef as (j & x & -> & Hx & Hf). destruct x; [done|]. cbn [Nat.add].
  destruct allocs; cbn [negb].
  2: { split; [done|]. right. split; [done|]. left. split; [done|]. right; right; right. done. }
  assert (j < 128)%nat as Hj by (rewrite <- (inv_table _ _ H); by eapply lookup_lt_Some).
  set (s := new_set key fl count cred j (next_seq st) now).
  assert (set_ok [] j s) as Hok by (apply new_set_ok; [done|lia]).
  assert (inv (SemState (<[j := Some s]> (sets st)) (undos st) (u32 (next_seq st + 1)) (woken st)) ws) as Hi
    by (by apply inv_create).
  cbn [returns]. split; [done|]. right. split; [done|]. right. exists j, s. split_and!; try done.
  - eapply find_by_id_live; [done| |done]. cbn. rewrite list_lookup_insert_eq; [done|].
    by eapply lookup_lt_Some.
  - unfold s_count. cbn. rewrite length_replicate. lia.
  - by apply Forall_replicate.
  - intros slot' s' Hs' E. destruct (ok_id _ _ _ (inv_set_ok _ _ _ _ H Hs')) as [_ E1'].
    destruct (ok_id _ _ _ Hok) as [_ E2']. rewrite E, E2' in E1'. apply Nat2Z.inj in E1'. congruence.
  - generalize (inv_undos _ _ H). apply Forall_impl. intros u (s' & Hs' & _ & Hid & _) E.
    rewrite E in Hs'. destruct (ok_id _ _ _ Hok) as [_ E2']. rewrite E2', Nat2Z.id in Hs'. congruence.
Qed.

(** The records that one attempt leaves. *)
Lemma undos_step_ok st ws tgid slot set l' :
  inv st ws -> sets st !! slot = Some (Some set) -> s_removed set = false ->
  undos_step tgid set (undos st) l' -> Forall (undo_ok st) l' /\ NoDup (map owner l').
Proof.
  intros H Hs Hr (l1 & Hl1 & Hsh).
  assert (Forall (undo_ok st) l1 /\ NoDup (map owner l1)) as [Hok Hnd].
  { destruct Hl1 as [->|[Hno ->]]; [split; [apply (inv_undos _ _ H)|apply (inv_owners _ _ H)]|].
    split.
    - constructor; [|apply (inv_undos _ _ H)]. exists set. cbn.
      destruct (ok_id _ _ _ (inv_set_ok _ _ _ _ H Hs)) as [_ ->].
      rewrite Nat2Z.id, length_replicate. split_and!; try done.
      apply Forall_replicate. unfold i16_range. lia.
    - cbn. apply list.NoDup_cons. split; [|apply (inv_owners _ _ H)].
      by apply find_undo_None, has_record_None. }
  split; [|by rewrite (map_owner_shape _ _ Hsh)]. revert Hok. clear -Hsh.
  induction Hsh as [|u u' l l' (Ho & Hl & Hr) _ IH]; [done|].
  intros [(s & H1 & H2 & H3 & H4 & H5) HF]%Forall_cons_1. constructor; [|by apply IH].
  injection Ho as _ Ei. exists s. rewrite Ei, Hl. split_and!; auto.
Qed.

Lemma same_frame_after set tgid ops now :
  same_frame set (set_otime now (set_sems (after_ops tgid ops (sems set)) set)).
Proof.
  split_and!; try done. cbn. apply Forall2_same_length_lookup. rewrite length_after_ops. split; [done|].
  intros i m m' Hm. unfold after_ops. rewrite list_lookup_imap, Hm. intros [= <-].
  by destruct (touched i ops).
Qed.

Lemma same_frame_bump s s' : same_frame s s' -> same_frame s (bump_generation s').
Proof. done. Qed.

Lemma same_frame_refl s : same_frame s s.
Proof.
  split_and!; try done. apply Forall_Forall2_diag, Forall_true. done.
Qed.

Lemma try_inv st ws slot set ops tgid now alloc :
  inv st ws -> sets st !! slot = Some (Some set) -> s_removed set = false ->
  nums_ok (length (sems set)) ops ->
  returns (try_operations st slot ops tgid now alloc) (fun '(st', r) =>
    semop_post st slot set ops tgid now alloc st' r /\ inv st' ws).
Proof.
  intros H Hs Hr Hn. pose proof (inv_set_ok _ _ _ _ H Hs) as Hok.
  eapply returns_mono.
  { apply (try_operations_ok st slot set); [done|apply (ok_count _ _ _ Hok)|apply (ok_values _ _ _ Hok)
      |by eapply inv_sized|done]. }
  intros [st' r] (Hp & Hu & Hv). split; [done|].
  destruct (undos_step_ok _ _ _ _ _ _ H Hs Hr Hu) as [Hu1 Hu2].
  pose proof (inv_undos_same_sets _ _ _ H Hu1 Hu2) as H'.
  assert (untouched st st' -> inv st' ws) as Hun by (intros (Es & _); by apply (inv_ext _ _ _ H')).
  destruct r as [s|j]; [|by apply Hun; destruct Hp].
  destruct Hp as [(-> & _ & _ & Es & _)|[(_ & _ & Hp)|[(_ & _ & _ & Hp)|(_ & _ & _ & _ & _ & Hp)]]];
    [|by apply Hun..].
  set (set' := if negb _ then _ else _) in Es.
  assert (same_frame set set') as Hf by (subst set'; destruct (negb _); apply same_frame_after).
  assert (sems set' = after_ops tgid ops (sems set)) as Esm by (subst set'; by destruct (negb _)).
  apply (inv_ext (put (with_undos st (undos st')) slot (Some set')) _ ws); try done.
  eapply inv_update; try done. by rewrite Esm.
Qed.

(** A sleeper joins ([d = 1]) or leaves ([d = -1]) a set. *)
Definition shifted (n : Z) (zero : bool) (d : Z) (m : sem) (s : sem_set) : sem_set :=
  set_sleepers (u32 (s_sleepers s + d)) (set_sems (<[Z.to_nat n := add_waiting zero d m]> (sems s)) s).

Lemma shifted_ok ws ws' w slot s d m :
  set_ok ws slot s -> sems s !! Z.to_nat (w_num w) = Some m -> w_slot w = slot -> 0 <= w_num w ->
  (forall f, count_if f ws' = count_if f ws + (if f w then d else 0)) ->
  Z.of_nat (length ws') < 2 ^ 32 ->
  (s_removed s = true -> 0 < count_if (on_slot slot) ws') ->
  set_ok ws' slot (shifted (w_num w) (w_zero w) d m s).
Proof.
  intros [] Hm Hw Hn Hf Hb Hr.
  assert (forall f, u32 (count_if f ws + (if f w then d else 0)) = count_if f ws') as Hu.
  { intros f. rewrite <- Hf. apply u32_small. pose proof (count_if_bound f ws'). lia. }
  assert (on_slot slot w = true) as Hon by (unfold on_slot; rewrite Hw; apply Nat.eqb_refl).
  assert (u32 (s_sleepers s + d) = count_if (on_slot slot) ws') as Hs.
  { rewrite ok_sleepers0, <- Hu, Hon. done. }
  constructor; cbn; try done.
  - unfold s_count in *. cbn. by rewrite length_insert.
  - change (map value ?l) with (value <$> l) in *. rewrite list_fmap_insert.
    apply Forall_insert; [done|]. replace (value (add_waiting _ _ _)) with (value m) by (by destruct (w_zero w)).
    refine (Forall_lookup_1 _ _ (Z.to_nat (w_num w)) _ ok_values0 _). by rewrite list_lookup_fmap, Hm.
  - intros k m' Hk. destruct (decide (k = Z.to_nat (w_num w))) as [->|Hne].
    + rewrite list_lookup_insert_eq in Hk by (by eapply lookup_lt_Some). injection Hk as <-.
      destruct (ok_waiting0 _ _ Hm) as [E1 E2].
      assert (forall z, on_sem slot (Z.to_nat (w_num w)) z w = Bool.eqb (w_zero w) z) as Ez.
      { intros z. unfold on_sem. rewrite Hon, Z2Nat.id, Z.eqb_refl by lia. done. }
      rewrite !Hf, !Ez. rewrite <- E1, <- E2.
      assert (forall z, u32 (count_if (on_sem slot (Z.to_nat (w_num w)) z) ws +
        (if Bool.eqb (w_zero w) z then d else 0)) = count_if (on_sem slot (Z.to_nat (w_num w)) z) ws +
        (if Bool.eqb (w_zero w) z then d else 0)) as Hz.
      { intros z. rewrite <- (Ez z), Hu, Hf. done. }
      destruct (w_zero w); cbn; split; try lia; [specialize (Hz true)|specialize (Hz false)];
        cbn in Hz; congruence.
    + rewrite list_lookup_insert_ne in Hk by done. destruct (ok_waiting0 _ _ Hk) as [-> ->].
      rewrite !Hf. assert (forall z, on_sem slot k z w = false) as Ez.
      { intros z. unfold on_sem. replace (w_num w =? Z.of_nat k) with false by lia. by rewrite andb_false_r. }
      rewrite !Ez. lia.
  - intros H. rewrite Hs. auto.
Qed.

Definition op_post (st : sem_state) (ws : list sleeper) (slot : nat) (ops : list sembuf_user)
    (r : sem_state * op_outcome) : Prop :=
  match r.2 with
  | Returned _ => inv r.1 ws
  | Asleep w => Z.of_nat (length ws) + 1 < 2 ^ 32 -> inv r.1 (w :: ws)
  end.

Lemma stops_at_op vals ops j d : stops_at vals ops j d -> exists o, ops !! j = Some o.
Proof. intros [_ H]. unfold judge_nth in H. destruct (ops !! j) as [o|]; [by exists o|done]. Qed.

Lemma op_section_ok st ws slot set ops tgid tmo dl now up alloc :
  inv st ws -> sets st !! slot = Some (Some set) -> s_removed set = false ->
  nums_ok (length (sems set)) ops ->
  returns (op_section st slot ops tgid tmo dl now up alloc) (op_post st ws slot ops).
Proof.
  intros H Hs Hr Hn. unfold op_section. eapply returns_bind; [by apply try_inv|].
  intros [st' [s|j]] [Hp Hi]; [done|].
  destruct Hp as ((Es & _) & (o & Ho)%stops_at_op).
  rewrite (rd_lookup _ _ o), bind_ret by (rewrite ?Nat2Z.id; done || lia).
  branch E1; [done|]. branch E2; [done|].
  unfold deref. rewrite Es, Hs, bind_ret.
  pose proof (Forall_lookup_1 _ _ _ _ Hn Ho) as Hno. cbn in Hno.
  destruct (lookup_lt_is_Some_2 (sems set) (Z.to_nat (num o)) ltac:(lia)) as [m Hm].
  rewrite (rd_lookup _ _ m), bind_ret, wr_in, bind_ret by (done || lia). intros Hb. cbn in Hb.
  rewrite <- Es in Hs. set (w := Sleeper _ _ _ _ _ _ _ _).
  eapply (inv_replace st' ws (w :: ws) slot set); try done.
  - apply (shifted_ok ws (w :: ws) w); try done.
    + by eapply inv_set_ok.
    + cbn. lia.
    + intros f. rewrite count_if_cons. lia.
    + cbn [length]. lia.
    + by rewrite Hr.
  - cbn. by rewrite length_insert.
  - by left.
  - intros f Hf. rewrite count_if_cons, (Hf w) by done. lia.
  - constructor; [by right|]. apply old_sleepers.
  - cbn. lia.
Qed.

(** The last sleeper of a removed set frees it. *)
Lemma last_sleeper_ok st ws ws' slot s s1 :
  inv st ws -> sets st !! slot = Some (Some s) -> s_id s1 = s_id s -> s_sleepers s1 = 0 ->
  (forall f, (forall w, w_slot w = slot -> f w = false) -> count_if f ws' = count_if f ws) ->
  Forall (fun w => w ∈ ws) ws' -> count_if (on_slot slot) ws' = 0 ->
  Z.of_nat (length ws') < 2 ^ 32 ->
  returns (destroy (put st slot (Some s1)) slot) (fun st' => inv st' ws').
Proof.
  intros H Hs Hid Hz Hf Hsub Hc Hb.
  assert (slot < length (sets st))%nat as Hlt by (by eapply lookup_lt_Some).
  unfold destroy, deref. cbn [sets put]. rewrite list_lookup_insert_eq by done.
  rewrite bind_ret. cbn [returns s_sleepers s_id bump_generation mark_removed undos put].
  rewrite Hz, Hid. cbn [Z.eqb].
  apply (inv_ext (put (with_undos st (drop_undos_for (s_id s) (undos st))) slot None)).
  - eapply inv_free; [by apply inv_drop|done|apply drop_undos_gone|done| |done].
    pose proof (no_sleepers _ _ Hc) as Hn. rewrite list.Forall_forall in *. naive_solver.
  - cbn. by rewrite !list_insert_insert_eq.
  - done.
Qed.

Lemma op_resume_ok st ws1 w ws2 interrupted now up alloc :
  inv st (ws1 ++ w :: ws2) ->
  returns (op_resume st w interrupted now up alloc) (op_post st (ws1 ++ ws2) (w_slot w) (w_ops w)).
Proof.
  intros H. pose proof (inv_sleepers _ _ H) as Hsl.
  apply Forall_app in Hsl as [_ [(s & Hs & Hn & Hm) _]%Forall_cons_1].
  pose proof (inv_set_ok _ _ _ _ H Hs) as Hok. unfold s_count in Hm.
  destruct (lookup_lt_is_Some_2 (sems s) (Z.to_nat (w_num w)) ltac:(lia)) as [m Hmm].
  unfold op_resume, deref. rewrite Hs, bind_ret, (rd_lookup _ _ m), bind_ret, wr_in, bind_ret by (done || lia).
  change (set_sleepers (u32 (s_sleepers s - 1)) _) with (shifted (w_num w) (w_zero w) (-1) m s).
  set (s1 := shifted _ _ _ _ _). set (ws' := ws1 ++ ws2).
  assert (forall f, count_if f ws' = count_if f (ws1 ++ w :: ws2) + (if f w then -1 else 0)) as Hc.
  { intros f. unfold ws'. rewrite !count_if_app, count_if_cons. destruct (f w); lia. }
  assert (Z.of_nat (length ws') + 1 < 2 ^ 32) as Hb.
  { pose proof (inv_threads _ _ H) as Hl. unfold ws'. rewrite length_app in *. cbn in Hl. lia. }
  assert (forall f, (forall w', w_slot w' = w_slot w -> f w' = false) ->
    count_if f ws' = count_if f (ws1 ++ w :: ws2)) as Hf.
  { intros f Hfw. rewrite Hc, Hfw by done. lia. }
  assert (Forall (fun w' => w' ∈ ws1 ++ w :: ws2) ws') as Hsub.
  { apply list.Forall_forall. unfold ws'. intros w'. set_solver. }
  assert (s_sleepers s1 = count_if (on_slot (w_slot w)) ws') as Hz.
  { pose proof (Hc (on_slot (w_slot w))) as Hc'. unfold on_slot at 3 in Hc'. rewrite Nat.eqb_refl in Hc'.
    cbn. rewrite (ok_sleepers _ _ _ Hok), Hc'. apply u32_small.
    pose proof (count_if_bound (on_slot (w_slot w)) ws'). lia. }
  assert ((s_removed s = true -> 0 < s_sleepers s1) -> inv (put st (w_slot w) (Some s1)) ws') as Hi.
  { intros Hr. rewrite Hz in Hr. eapply inv_replace; try done; [|cbn; by rewrite length_insert|by left| |lia].
    - apply (shifted_ok (ws1 ++ w :: ws2)); (done || lia).
    - revert Hsub. apply Forall_impl. auto. }
  change (s_removed s1) with (s_removed s). destruct (s_removed s) eqn:Er.
  - destruct (Z.eqb_spec (s_sleepers s1) 0) as [E|E].
    + eapply returns_bind; [|intros st' Hst'; exact Hst'].
      eapply last_sleeper_ok; try done; [congruence|lia].
    + apply Hi. intros _. pose proof (count_if_bound (on_slot (w_slot w)) ws'). lia.
  - specialize (Hi ltac:(done)). destruct interrupted; [done|].
    eapply returns_mono; [eapply (op_section_ok _ _ _ s1); try done|done].
    + cbn. apply list_lookup_insert_eq. by eapply lookup_lt_Some.
    + cbn. by rewrite length_insert.
Qed.

(** What [copy_from_user] can deliver: the fields have their widths. *)
Definition ops_wf (user_ops : option (list sembuf_user)) (count : Z) : Prop :=
  forall l, user_ops = Some l -> Z.of_nat (length l) = count /\
    Forall (fun o => 0 <= num o < 2 ^ 16 /\ i16_range (op o)) l.

Lemma sysvsem_op_ok st ws id user_ops count tmo cred tgid now up oa alloc :
  inv st ws -> ops_wf user_ops count ->
  returns (sysvsem_op st id user_ops count tmo cred tgid now up oa alloc)
    (op_post st ws 0 []).
Proof.
  intros H Hw. unfold sysvsem_op. branch E1; [done|]. branch E2; [done|]. branch E3; [done|].
  destruct user_ops as [l|]; [|done]. destruct (Hw l eq_refl) as [_ Hl].
  destruct (find_by_id st id) as [slot|] eqn:Ef; [|done].
  apply find_by_id_Some in Ef as (s & Hs & Hr & Hid). unfold deref. rewrite Hs, bind_ret.
  branch E4; [done|]. branch E5; [done|].
  eapply returns_mono; [eapply op_section_ok; try done|done].
  apply list.Forall_forall. intros o Ho. rewrite list.Forall_forall in Hl. destruct (Hl o Ho) as [? _].
  split; [lia|]. apply not_true_iff_false in E4. rewrite existsb_exists in E4.
  destruct (Z.lt_ge_cases (num o) (s_count s)) as [Hlt|Hge]; [done|]. destruct E4. exists o.
  split; [by apply list_elem_of_In|]. lia.
Qed.

(** *** Control operations *)

(** The records with the adjustments of semaphores [from .. from + n) of a
    set cleared. *)
Definition clear_rec (id : Z) (from n : nat) (u : sem_undo) : sem_undo :=
  if u_id u =? id then
    SemUndo (u_tgid u) (u_id u)
      (imap (fun k a => if decide (from <= k < from + n)%nat then 0 else a) (adjust u))
  else u.

Lemma owner_clear id from n u : owner (clear_rec id from n u) = owner u.
Proof. unfold clear_rec. by destruct (_ =? _). Qed.

Lemma same_shape_clear id from n u : same_shape u (clear_rec id from n u).
Proof.
  unfold clear_rec. destruct (_ =? _); [|apply same_shape_refl].
  split_and!; [done|apply length_imap|]. cbn. intros H. apply Forall_lookup_2.
  intros k a. rewrite list_lookup_imap. destruct (adjust u !! k) as [b|] eqn:E; [|done]. cbn.
  intros [= <-]. case_decide; [unfold i16_range; lia|]. by apply (Forall_lookup_1 _ _ _ _ H E).
Qed.

Lemma clear_slot_eq id n l : clear_undo_slot id n l = map (clear_rec id n 1) l.
Proof.
  apply map_ext. intros u. unfold clear_rec. destruct (u_id u =? id); [|done]. cbn [andb].
  destruct (Z.ltb_spec (Z.of_nat n) (Z.of_nat (length (adjust u)))) as [H|H].
  - f_equal. apply list_eq. intros k. rewrite list_lookup_imap. destruct (decide (k = n)) as [->|].
    + rewrite list_lookup_insert_eq by lia.
      destruct (lookup_lt_is_Some_2 (adjust u) n ltac:(lia)) as [a ->]. cbn. by rewrite decide_True by lia.
    + rewrite list_lookup_insert_ne by done. destruct (adjust u !! k); [|done]. cbn.
      by rewrite decide_False by lia.
  - destruct u as [t i adj]. cbn in *. f_equal. apply list_eq. intros k. rewrite list_lookup_imap.
    destruct (adj !! k) eqn:E; [|done]. cbn. apply lookup_lt_Some in E. by rewrite decide_False by lia.
Qed.

Lemma clear_clear id from n u :
  clear_rec id (S from) n (clear_rec id from 1 u) = clear_rec id from (S n) u.
Proof.
  unfold clear_rec. destruct (u_id u =? id) eqn:E; cbn; rewrite E; [|done]. f_equal.
  apply list_eq. intros k. rewrite !list_lookup_imap. destruct (adjust u !! k); [|done]. cbn.
  f_equal. repeat case_decide; try done; lia.
Qed.

Lemma clear_none id from l : map (clear_rec id from 0) l = l.
Proof.
  rewrite <- map_id. apply map_ext. intros [t i adj]. unfold clear_rec. cbn. destruct (_ =? _); [|done].
  f_equal. apply list_eq. intros k. rewrite list_lookup_imap. destruct (adj !! k); [|done]. cbn.
  by rewrite decide_False by lia.
Qed.

Lemma store_all_ok tgid id values : forall l index u, length values = length l ->
  let r := store_all tgid id values l index u in
  map value r.1 = values /\ Forall2 same_waiters l r.1 /\ r.2 = map (clear_rec id index (length values)) u.
Proof.
  induction values as [|v values IH]; intros [|m l] index u Hl; try done.
  - cbn. by rewrite clear_none.
  - cbn [store_all]. specialize (IH l (S index) (clear_undo_slot id index u) ltac:(by injection Hl)).
    destruct (store_all _ _ _ _ _ _) as [l' u']. cbn in *. destruct IH as (-> & Hw & ->).
    split_and!; [done|by constructor|]. rewrite clear_slot_eq, map_map. apply map_ext. apply clear_clear.
Qed.

Lemma adj_of_map g l t i k : (forall u, owner (g u) = owner u) ->
  adj_of (map g l) t i k =
    match find_undo t i l 0 with
    | Some j => match l !! j with Some u => default 0 (adjust (g u) !! k) | None => 0 end
    | None => 0
    end.
Proof.
  intros Hg. unfold adj_of. rewrite (find_undo_owner t i (map g l) l).
  - destruct (find_undo t i l 0); [|done]. change (map g l) with (g <$> l). rewrite list_lookup_fmap.
    by destruct (l !! n).
  - rewrite map_map. by apply map_ext.
Qed.

Lemma adj_of_clear l id from n t i k :
  adj_of (map (clear_rec id from n) l) t i k =
    if bool_decide (i = id /\ (from <= k < from + n)%nat) then 0 else adj_of l t i k.
Proof.
  rewrite adj_of_map by apply owner_clear. unfold adj_of.
  destruct (find_undo t i l 0) as [j|] eqn:E; [|by case_bool_decide].
  apply find_undo_Some in E as (u & -> & Eu). injection Eu as _ <-. unfold clear_rec.
  destruct (Z.eqb_spec (u_id u) id) as [->|]; cbn.
  - rewrite list_lookup_imap. destruct (adjust u !! k); cbn; [|by case_bool_decide].
    case_decide; [rewrite bool_decide_eq_true_2|rewrite bool_decide_eq_false_2]; naive_solver.
  - rewrite bool_decide_eq_false_2 by naive_solver. done.
Qed.

Lemma inv_clear st ws id from n : inv st ws ->
  inv (with_undos st (map (clear_rec id from n) (undos st))) ws.
Proof.
  intros H. apply inv_undos_same_sets; [done| |].
  - generalize (inv_undos _ _ H). rewrite Forall_map. apply Forall_impl.
    intros u (s & H1 & H2 & H3 & H4 & H5). destruct (same_shape_clear id from n u) as (Eo & El & Er).
    injection Eo as _ Ei. exists s. rewrite Ei, El. split_and!; auto.
  - rewrite map_map. erewrite map_ext by apply owner_clear. apply (inv_owners _ _ H).
Qed.

Lemma ctl_set_ok st ws id v cred now : inv st ws ->
  returns (ctl_set st id v cred now) (fun r => inv r.1.1 ws).
Proof.
  intros H. unfold ctl_set. destruct (find_by_id st id) as [slot|] eqn:Ef; [|done].
  apply find_by_id_Some in Ef as (s & Hs & Hr & Hid). unfold deref. rewrite Hs, bind_ret.
  branch E1; [done|]. cbn [returns fst]. eapply inv_update; try done; [apply (same_frame_refl s)|].
  apply (ok_values _ _ _ (inv_set_ok _ _ _ _ H Hs)).
Qed.

Lemma same_waiters_insert l n m m' : l !! n = Some m -> same_waiters m m' ->
  Forall2 same_waiters l (<[n := m']> l).
Proof.
  intros Hm Hw. apply Forall2_same_length_lookup. rewrite length_insert. split; [done|].
  intros k x y Hx Hy. destruct (decide (n = k)) as [<-|].
  - rewrite list_lookup_insert_eq in Hy by (by eapply lookup_lt_Some). by simplify_eq.
  - rewrite list_lookup_insert_ne in Hy by done. by simplify_eq.
Qed.

Lemma ctl_setval_ok st ws slot s n arg cred tgid now : inv st ws -> sets st !! slot = Some (Some s) ->
  n < 2 ^ 31 ->
  returns (ctl_setval st slot s n arg cred tgid now) (fun r => inv r.1.1 ws).
Proof.
  intros H Hs Hint. unfold ctl_setval. branch E1; [done|]. branch E2; [done|]. branch E3; [done|].
  pose proof (inv_set_ok _ _ _ _ H Hs) as Hok.
  apply orb_false_iff in E1 as [E1 E1']. rewrite u32_small in E1' by lia. unfold s_count in E1'.
  destruct (lookup_lt_is_Some_2 (sems s) (Z.to_nat n) ltac:(lia)) as [m Hm].
  rewrite (rd_lookup _ _ m), bind_ret, wr_in, bind_ret by (done || lia). cbn [returns fst].
  apply inv_wake. rewrite clear_slot_eq. eapply inv_update; [by apply inv_clear|done| |].
  - split_and!; try done. cbn. by eapply same_waiters_insert.
  - cbn. change (map value ?l) with (value <$> l). rewrite list_fmap_insert. cbn. apply Forall_insert.
    + apply (ok_values _ _ _ Hok).
    + unfold in_range. lia.
Qed.

(** What the user array of [SETALL] can hold: [n] 16-bit values. *)
Definition values_wf (n : nat) (l : list Z) : Prop :=
  length l = n /\ Forall (fun v => 0 <= v < 2 ^ 16) l.

(** The outcomes of [SETALL]. *)
Definition setall_post (st : sem_state) (id count : Z) (values : list Z) (cred : option credentials)
    (st' : sem_state) (r : Z) : Prop :=
  r = - EINVAL /\ st' = st \/
  exists slot s, find_by_id st id = Some slot /\ sets st !! slot = Some (Some s) /\
    (r = - EACCES /\ st' = st /\ permitted cred s true = false \/
     r = - ERANGE /\ st' = st /\ Exists (fun v => SEM_VALUE_MAX < v) values \/
     r = 0 /\ s_count s = count /\ permitted cred s true = true /\ Forall in_range values /\
       exists s', sets st' = <[slot := Some s']> (sets st) /\ same_frame s s' /\
         s_uid s' = s_uid s /\ s_gid s' = s_gid s /\ s_cuid s' = s_cuid s /\ s_cgid s' = s_cgid s /\
         s_mode s' = s_mode s /\ map value (sems s') = values /\ woken st' = woken st ++ [slot] /\
         forall t i k, adj_of (undos st') t i k =
           if bool_decide (i = s_id s /\ (k < length (sems s))%nat) then 0 else adj_of (undos st) t i k).

Lemma ctl_setall_ok st ws id count values cred tgid now :
  inv st ws -> values_wf (Z.to_nat count) values ->
  returns (ctl_setall st id count values cred tgid now) (fun '(st', r, out) =>
    inv st' ws /\ setall_post st id count values cred st' r /\ out = NoOut).
Proof.
  intros H [Hl Hv]. unfold ctl_setall.
  destruct (find_by_id st id) as [slot|] eqn:Ef; [|by split; [|split; [left|]]].
  pose proof Ef as (s & Hs & Hr & Hid)%find_by_id_Some. unfold deref. rewrite Hs, bind_ret.
  branch E1; [by split; [|split; [left|]]|]. branch E2.
  { split_and!; [done| |done]. right. exists slot, s. split_and!; try done. left. rewrite negb_true_iff in E2. done. }
  assert (length values = length (sems s)) as Hlen.
  { rewrite Hl. apply negb_false_iff in E1. unfold s_count in *. lia. }
  branch E3.
  { split_and!; [done| |done]. right. exists slot, s. split_and!; try done. right; left. split_and!; try done.
    apply existsb_exists in E3 as (v & Hin & Hgt). apply list.Exists_exists. exists v.
    split; [by apply list_elem_of_In|lia]. }
  assert (Forall in_range values) as Hvr.
  { apply list.Forall_forall. intros v Hin. rewrite list.Forall_forall in Hv. specialize (Hv v Hin). cbn in Hv.
    split; [lia|]. apply Z.nlt_ge. intros Hgt. apply not_true_iff_false in E3. apply E3.
    apply existsb_exists. exists v. split; [by apply list_elem_of_In|lia]. }
  pose proof (store_all_ok tgid (s_id s) values (sems s) 0 (undos st) Hlen) as Hst.
  destruct (store_all _ _ _ _ _ _) as [l u]. cbn in Hst. destruct Hst as (Hval & Hw & ->).
  cbn [returns]. split_and!; [| |done].
  - apply inv_wake. eapply inv_update; [by apply inv_clear|done|done|]. cbn. by rewrite Hval.
  - right. exists slot, s. split_and!; try done. right; right.
    apply negb_false_iff in E1, E2. split_and!; try done; [lia|]. eexists.
    split_and!; try done. intros t i k. cbn [undos process_wake_all put with_undos].
    rewrite adj_of_clear, Hlen. by rewrite (bool_decide_ext _ (i = s_id s /\ (k < length (sems s))%nat)) by lia.
Qed.

Definition user_wf (user : ctl_user) : Prop :=
  forall n l, user_values user n = Some l -> values_wf n l.

Lemma ctl_find_Some st id command slot : ctl_find st id command = Some slot ->
  exists s, sets st !! slot = Some (Some s) /\ s_removed s = false.
Proof.
  unfold ctl_find. destruct (_ || _).
  - destruct (_ && _); [|done]. destruct (sets st !! Z.to_nat id) as [[s|]|] eqn:E; try done.
    destruct (s_removed s) eqn:Er; [done|]. intros [= <-]. by exists s.
  - intros (s & Hs & Hr & _)%find_by_id_Some. by exists s.
Qed.

Lemma sysvsem_ctl_ok st ws ws' id n command arg user cred tgid now between :
  inv st ws -> inv (between st) ws' -> n < 2 ^ 31 -> user_wf user ->
  returns (sysvsem_ctl st id n command arg user cred tgid now between) (fun r =>
    inv r.1.1 ws \/ inv r.1.1 ws').
Proof.
  intros H Hb Hn Hu. unfold sysvsem_ctl. set (c := Z.land command _).
  branch E0; [unfold ctl_info; destruct (info_loop _ _ _ _ _ _) as [[??]?]; destruct (negb _); by left|].
  destruct (ctl_find st id c) as [slot|] eqn:Ef; [|by left].
  apply ctl_find_Some in Ef as (s & Hs & Hr). unfold deref. rewrite Hs, bind_ret.
  pose proof (inv_set_ok _ _ _ _ H Hs) as Hok.
  assert (local_array (s_count s) = Ret tt) as Hla.
  { unfold local_array. pose proof (ok_count _ _ _ Hok). by replace (_ <=? _) with true by lia. }
  branch E1; [unfold ctl_stat; destruct (_ && _), (negb (writable user)); by left|].
  branch E2.
  { destruct (user_ds user) as [v|]; [|by right]. eapply returns_mono; [by apply ctl_set_ok|]. auto. }
  branch E3.
  { branch E4; [by left|]. eapply returns_bind; [by eapply destroy_ok|]. intros st' [? _]. by left. }
  branch E4.
  { unfold ctl_read. branch E5; [by left|]. branch E6; [by left|].
    apply orb_false_iff in E5 as [E5 E5']. rewrite u32_small in E5' by lia. unfold s_count in E5'.
    destruct (lookup_lt_is_Some_2 (sems s) (Z.to_nat n) ltac:(lia)) as [m Hm].
    rewrite (rd_lookup _ _ m), bind_ret by (done || lia). by left. }
  branch E5.
  { eapply returns_mono; [by apply ctl_setval_ok|]. auto. }
  branch E6.
  { unfold ctl_getall. branch E7; [by left|]. rewrite Hla, bind_ret. branch E8; by left. }
  branch E7; [|by left]. rewrite Hla, bind_ret.
  destruct (user_values user (length (sems s))) as [l|] eqn:El; [|by right].
  eapply returns_mono; [apply (ctl_setall_ok _ ws')|]; [done| |].
  - unfold s_count. rewrite Nat2Z.id. by apply Hu.
  - intros [[st' r] out] (? & _). by right.
Qed.

(** *** Process exit *)

Lemma clamp_range v : in_range (clamp v).
Proof. unfold clamp, in_range, SEM_VALUE_MAX. repeat case_match; lia. Qed.

Lemma clamp_id v : in_range v -> clamp v = v.
Proof. unfold clamp, in_range, SEM_VALUE_MAX. intros. repeat case_match; lia. Qed.

Lemma undo_loop_ok tgid adj : forall l, length adj = length l -> Forall in_range (map value l) ->
  let r := undo_loop tgid adj l in
  map value r.1 = zip_with (fun v a => clamp (v + a)) (map value l) adj /\ Forall2 same_waiters l r.1 /\
  (map value r.1 <> map value l -> r.2 = true).
Proof.
  induction adj as [|a adj IH]; intros [|m l] Hl Hr; try done.
  cbn [undo_loop map] in *. apply Forall_cons_1 in Hr as [Hm Hr].
  specialize (IH l ltac:(by injection Hl) Hr). destruct (undo_loop tgid adj l) as [l' ch]. cbn in IH.
  destruct IH as (Hv & Hw & Hc). destruct (Z.eqb_spec a 0) as [->|]; cbn.
  - rewrite Z.add_0_r, clamp_id, <- Hv by done. split_and!; [done|by constructor|].
    intros Hne. apply Hc. congruence.
  - rewrite <- Hv. split_and!; [done|by constructor|done].
Qed.

Lemma Forall_zip_clamp vals adj : Forall in_range (zip_with (fun v a => clamp (v + a)) vals adj).
Proof. revert adj. induction vals; intros []; cbn; constructor; [apply clamp_range|done]. Qed.

(** One record of the exiting process applied. *)
Lemma undo_one_ok st ws u : inv st ws -> undo_ok st u ->
  returns (undo_one st u) (fun st' => inv st' ws /\ undos st' = undos st /\
    exists slot s s', sets st !! slot = Some (Some s) /\ s_id s = u_id u /\
      sets st' = <[slot := Some s']> (sets st) /\ same_frame s s' /\
      length (adjust u) = length (sems s) /\
      map value (sems s') = zip_with (fun v a => clamp (v + a)) (map value (sems s)) (adjust u) /\
      (woken st' = woken st /\ map value (sems s') = map value (sems s) \/
       woken st' = woken st ++ [slot])).
Proof.
  intros H (s & Hs & Hr & Hid & Hl & _). unfold undo_one. rewrite <- Hid.
  pose proof (inv_set_ok _ _ _ _ H Hs) as Hok.
  erewrite find_by_id_live by done. unfold deref. rewrite Hs, bind_ret.
  pose proof (undo_loop_ok (u_tgid u) (adjust u) (sems s) Hl (ok_values _ _ _ Hok)) as Hu.
  destruct (undo_loop _ _ _) as [l ch]. cbn in Hu. destruct Hu as (Hv & Hw & Hc).
  set (slot := Z.to_nat _) in *.
  assert (forall s', sems s' = l -> same_frame s s' -> inv (put st slot (Some s')) ws) as Hi.
  { intros s' E Hf. eapply inv_update; try done. rewrite E, Hv. apply Forall_zip_clamp. }
  destruct ch; cbn [returns].
  - split; [by apply inv_wake, Hi|]. split; [done|]. exists slot, s. eexists. split_and!; try done. by right.
  - split; [by apply Hi|]. split; [done|]. exists slot, s. eexists. split_and!; try done. left. split; [done|].
    cbn. destruct (decide (map value l = map value (sems s))); [done|]. by discriminate Hc.
Qed.

(** What the records [l] of an exiting process do: every value moves by the
    adjustment, kept in range, and the waiters of a set that changed are woken. *)
Definition exit_effect (l : list sem_undo) (tgid : Z) (st st' : sem_state) : Prop :=
  exists wk, woken st' = woken st ++ wk /\
  forall slot,
    match sets st !! slot with
    | Some (Some s) =>
        exists s', sets st' !! slot = Some (Some s') /\ same_frame s s' /\
          map value (sems s') = imap (fun k v => clamp (v + adj_of l tgid (s_id s) k)) (map value (sems s)) /\
          (map value (sems s') <> map value (sems s) -> slot ∈ wk)
    | x => sets st' !! slot = x
    end.

Lemma imap_same ws slot s f : set_ok ws slot s -> (forall k, f k = 0) ->
  imap (fun k v => clamp (v + f k)) (map value (sems s)) = map value (sems s).
Proof.
  intros Hok Hf. apply list_eq. intros k. rewrite list_lookup_imap.
  destruct (map value (sems s) !! k) as [v|] eqn:E; [|done]. cbn. rewrite Hf, Z.add_0_r, clamp_id; [done|].
  apply (Forall_lookup_1 _ _ _ _ (ok_values _ _ _ Hok) E).
Qed.

Lemma exit_effect_nil st ws tgid : inv st ws -> exit_effect [] tgid st st.
Proof.
  intros H. exists []. rewrite app_nil_r. split; [done|]. intros slot.
  destruct (sets st !! slot) as [[s|]|] eqn:E; try done. exists s.
  pose proof (inv_set_ok _ _ _ _ H E) as Hok. split_and!; [done|apply same_frame_refl| |done].
  by rewrite (imap_same _ _ _ _ Hok).
Qed.

Lemma exit_effect_skip u l tgid st st' : u_tgid u <> tgid ->
  exit_effect l tgid st st' -> exit_effect (u :: l) tgid st st'.
Proof.
  intros Hu (wk & Hw & He). exists wk. split; [done|]. intros slot. specialize (He slot).
  destruct (sets st !! slot) as [[s|]|]; try done. destruct He as (s' & H1 & H2 & H3 & H4).
  exists s'. split_and!; try done. rewrite H3. apply imap_ext. intros k v _. do 2 f_equal.
  rewrite adj_of_cons, bool_decide_eq_false_2; [done|]. unfold owner. congruence.
Qed.

Lemma same_frame_trans s1 s2 s3 : same_frame s1 s2 -> same_frame s2 s3 -> same_frame s1 s3.
Proof.
  intros (? & ? & ? & H1) (? & ? & ? & Hq). split_and!; try congruence. revert Hq. revert H1.
  generalize (sems s1), (sems s2), (sems s3). clear. intros l1 l2 l3 H. revert l3.
  induction H as [|m1 m2 l1 l2 [E1 E2] _ IH]; intros l3 Hq; inversion Hq as [|? m3 ? l3' [E3 E4]]; subst; [done|].
  constructor; [split; congruence|auto].
Qed.

(** Applying the head record, then the others. *)
Lemma exit_effect_cons u l tgid st ws st1 st' slot s s1 :
  inv st ws -> u_tgid u = tgid -> owner u ∉ map owner l ->
  sets st !! slot = Some (Some s) -> s_id s = u_id u -> sets st1 = <[slot := Some s1]> (sets st) ->
  same_frame s s1 -> length (adjust u) = length (sems s) ->
  map value (sems s1) = zip_with (fun v a => clamp (v + a)) (map value (sems s)) (adjust u) ->
  (woken st1 = woken st /\ map value (sems s1) = map value (sems s) \/ woken st1 = woken st ++ [slot]) ->
  exit_effect l tgid st1 st' -> exit_effect (u :: l) tgid st st'.
Proof.
  intros H <- Hn Hs Hid E1 Hf Hl Hv Hw (wk & Hwk & He).
  assert (exists wk0, woken st1 = woken st ++ wk0 /\ (map value (sems s1) <> map value (sems s) -> slot ∈ wk0))
    as (wk0 & Hw0 & Hin).
  { destruct Hw as [[-> ?]| ->]; [exists []|exists [slot]]; [by rewrite app_nil_r|].
    split; [done|]. intros _. by apply list_elem_of_singleton. }
  exists (wk0 ++ wk). rewrite Hwk, Hw0, <- app_assoc. split; [done|]. intros k. specialize (He k).
  rewrite E1 in He. destruct (decide (k = slot)) as [->|Hk].
  - rewrite list_lookup_insert_eq in He by (by eapply lookup_lt_Some). rewrite Hs.
    destruct He as (s' & H1 & H2 & H3 & H4). exists s'.
    assert (map value (sems s') = map value (sems s1)) as E.
    { rewrite H3. apply list_eq. intros j. rewrite list_lookup_imap.
      destruct (map value (sems s1) !! j) as [v|] eqn:Ev; [|done]. cbn.
      destruct Hf as (-> & _). rewrite Hid, adj_of_absent, Z.add_0_r, clamp_id; [done| |done].
      rewrite Hv in Ev. apply (Forall_lookup_1 _ _ _ _ (Forall_zip_clamp _ _) Ev). }
    split_and!; [done|by eapply same_frame_trans| |rewrite E; set_solver].
    rewrite E, Hv. apply list_eq. intros j. rewrite list_lookup_imap, lookup_zip_with.
    destruct (map value (sems s) !! j) as [v|] eqn:Ev; [|done]. cbn.
    apply lookup_lt_Some in Ev. rewrite length_map in Ev.
    rewrite adj_of_cons, Hid, bool_decide_eq_true_2 by done.
    destruct (lookup_lt_is_Some_2 (adjust u) j ltac:(lia)) as [a ->]. done.
  - rewrite list_lookup_insert_ne in He by done. destruct (sets st !! k) as [[x|]|] eqn:Ex; try done.
    destruct He as (s' & H1 & H2 & H3 & H4). exists s'. split_and!; [done|done| |set_solver].
    rewrite H3. apply imap_ext. intros j v _. do 2 f_equal. rewrite adj_of_cons, bool_decide_eq_false_2; [done|].
    intros E. injection E as E. apply Hk, (same_id_same_slot ws _ _ x s); [by eapply inv_set_ok..|congruence].
Qed.

Lemma exit_loop_ok ws tgid rest : forall seen st, inv st ws -> undos st = seen ++ rest ->
  returns (exit_loop tgid seen rest st) (fun st' =>
    inv st' ws /\ undos st' = seen ++ filter (fun u => u_tgid u <> tgid) rest /\
    exit_effect rest tgid st st').
Proof.
  induction rest as [|u rest IH]; intros seen st H Hu; cbn [exit_loop].
  - split_and!; [done..|]. by eapply exit_effect_nil.
  - rewrite filter_cons. destruct (Z.eqb_spec (u_tgid u) tgid) as [E|E]; cbn [negb].
    + rewrite decide_False by (by intros []).
      pose proof (inv_undos _ _ H) as Hok. rewrite Hu in Hok. apply Forall_app in Hok as [Hok1 Hok2].
      apply Forall_cons_1 in Hok2 as [Hou Hok2].
      pose proof (inv_owners _ _ H) as Hnd. rewrite Hu, map_app in Hnd. cbn in Hnd.
      apply list.NoDup_app in Hnd as (Hn1 & Hn2 & Hn3). apply list.NoDup_cons in Hn3 as [Hn3 Hn4].
      assert (inv (with_undos st (seen ++ rest)) ws) as H'.
      { apply inv_undos_same_sets; [done|by apply Forall_app|]. rewrite map_app. apply list.NoDup_app. split_and!; [done| |done].
        intros x Hx Hx2. apply (Hn2 x Hx). by right. }
      eapply returns_bind; [by apply (undo_one_ok _ ws)|].
      intros st1 (H1 & Hu1 & slot & s & s1 & A1 & A2 & A3 & A4 & A5 & A6 & A7).
      eapply returns_mono; [by apply IH|]. intros st' (B1 & B2 & B3). split_and!; [done..|].
      by eapply (exit_effect_cons u rest tgid st ws st1 st' slot s s1).
    + rewrite decide_True by done.
      eapply returns_mono; [apply IH; [done|by rewrite <- app_assoc]|]. intros st' (B1 & B2 & B3).
      split_and!; [done|by rewrite B2, <- app_assoc|]. by apply exit_effect_skip.
Qed.

(** ** The system

    The operations of all threads, interleaved at the points where [sem_lock]
    is released.  The second halves of [IPC_SET] and [SETALL] are steps of
    their own, since other threads run before them.  A thread can only go to
    sleep while fewer than 2^32 others are asleep. *)

Inductive sem_step : sem_state * list sleeper -> sem_state * list sleeper -> Prop :=
  | step_get st ws key count fl cred allocs now st' r :
      sysvsem_get st key count fl cred allocs now = Ret (st', r) ->
      sem_step (st, ws) (st', ws)
  | step_op st ws id user_ops count tmo cred tgid now up oa alloc st' r :
      ops_wf user_ops count ->
      sysvsem_op st id user_ops count tmo cred tgid now up oa alloc = Ret (st', Returned r) ->
      sem_step (st, ws) (st', ws)
  | step_sleep st ws id user_ops count tmo cred tgid now up oa alloc st' w :
      ops_wf user_ops count -> Z.of_nat (length ws) + 1 < 2 ^ 32 ->
      sysvsem_op st id user_ops count tmo cred tgid now up oa alloc = Ret (st', Asleep w) ->
      sem_step (st, ws) (st', w :: ws)
  | step_resume st ws1 w ws2 interrupted now up alloc st' r :
      op_resume st w interrupted now up alloc = Ret (st', Returned r) ->
      sem_step (st, ws1 ++ w :: ws2) (st', ws1 ++ ws2)
  | step_resume_sleep st ws1 w ws2 interrupted now up alloc st' w' :
      op_resume st w interrupted now up alloc = Ret (st', Asleep w') ->
      sem_step (st, ws1 ++ w :: ws2) (st', w' :: ws1 ++ ws2)
  | step_ctl st ws id n command arg user cred tgid now st' r out :
      n < 2 ^ 31 -> user_wf user ->
      sysvsem_ctl st id n command arg user cred tgid now (fun st => st) = Ret (st', r, out) ->
      sem_step (st, ws) (st', ws)
  | step_ctl_set st ws id v cred now st' r out :
      ctl_set st id v cred now = Ret (st', r, out) ->
      sem_step (st, ws) (st', ws)
  | step_ctl_setall st ws id count values cred tgid now st' r out :
      values_wf (Z.to_nat count) values ->
      ctl_setall st id count values cred tgid now = Ret (st', r, out) ->
      sem_step (st, ws) (st', ws)
  | step_exit st ws tgid st' :
      sysvsem_exit st tgid = Ret st' ->
      sem_step (st, ws) (st', ws).

Definition reachable (st : sem_state) (ws : list sleeper) : Prop :=
  rtc sem_step (sem_boot, []) (st, ws).

Lemma inv_boot : inv sem_boot [].
Proof.
  constructor; cbn [sem_boot sets undos map]; try done; [|by constructor..].
  intros slot s [Hs _]%lookup_replicate. done.
Qed.

Lemma sysvsem_exit_ok st ws tgid : inv st ws ->
  returns (sysvsem_exit st tgid) (fun st' =>
    inv st' ws /\ undos st' = filter (fun u => u_tgid u <> tgid) (undos st) /\
    exit_effect (undos st) tgid st st').
Proof. intros H. by apply (exit_loop_ok ws tgid (undos st) []). Qed.

Lemma sem_step_inv a b : sem_step a b -> inv a.1 a.2 -> inv b.1 b.2.
Proof.
  intros [st ws ? ? ? ? ? ? ? ? E|st ws ? ? ? ? ? ? ? ? ? ? ? ? Hw E|st ws ? ? ? ? ? ? ? ? ? ? ? ? Hw Hl E
    |st ws1 w ws2 ? ? ? ? ? ? E|st ws1 w ws2 ? ? ? ? ? ? E|st ws ? ? ? ? ? ? ? ? ? ? ? Hn Hu E
    |st ws ? ? ? ? ? ? ? E|st ws ? ? ? ? ? ? ? ? ? Hv E|st ws ? ? E] H; cbn [fst snd] in *.
  - pose proof (get_ok _ _ key count fl cred allocs now H) as Hp. rewrite E in Hp. by destruct Hp.
  - pose proof (sysvsem_op_ok _ _ id _ _ tmo cred tgid now up oa alloc H Hw) as Hp. by rewrite E in Hp.
  - pose proof (sysvsem_op_ok _ _ id _ _ tmo cred tgid now up oa alloc H Hw) as Hp. rewrite E in Hp. by apply Hp.
  - pose proof (op_resume_ok _ _ _ _ interrupted now up alloc H) as Hp. by rewrite E in Hp.
  - pose proof (op_resume_ok _ _ _ _ interrupted now up alloc H) as Hp. rewrite E in Hp. apply Hp.
    pose proof (inv_threads _ _ H) as Hl. rewrite length_app in *. cbn in Hl. lia.
  - pose proof (sysvsem_ctl_ok _ _ _ id n command arg user cred tgid now (fun st => st) H H Hn Hu) as Hp.
    rewrite E in Hp. by destruct Hp.
  - pose proof (ctl_set_ok _ _ id v cred now H) as Hp. by rewrite E in Hp.
  - pose proof (ctl_setall_ok _ _ id count values cred tgid now H Hv) as Hp. rewrite E in Hp. by destruct Hp.
  - pose proof (sysvsem_exit_ok _ _ tgid H) as Hp. rewrite E in Hp. by destruct Hp.
Qed.

Lemma steps_inv a b : rtc sem_step a b -> inv a.1 a.2 -> inv b.1 b.2.
Proof. induction 1 as [|a b c Hs _ IH]; [done|]. intros Ha. by apply IH, (sem_step_inv a). Qed.

Lemma reachable_inv st ws : reachable st ws -> inv st ws.
Proof. intros H. exact (steps_inv _ _ H inv_boot). Qed.

(** ** Theorems *)

(** C25. In every state the semaphore system reaches, whatever the threads do
    and wherever they are preempted: every semaphore value lies between 0 and
    32767, each set counts exactly the threads asleep on it and on each of its
    semaphores, a removed set stays allocated exactly while somebody sleeps on
    it, and a sleeping thread finds its set when it wakes; no operation reads
    or writes freed memory or outside an array. *)
Theorem semaphore_invariant (st : sem_state) (ws : list sleeper) :
  reachable st ws ->
  (forall slot s, sets st !! slot = Some (Some s) ->
     Forall (fun m => 0 <= value m <= SEM_VALUE_MAX) (sems s) /\
     s_sleepers s = count_if (on_slot slot) ws /\
     (forall n m, sems s !! n = Some m ->
        waiting_less m = count_if (on_sem slot n false) ws /\
        waiting_zero m = count_if (on_sem slot n true) ws) /\
     (s_removed s = true -> 0 < s_sleepers s)) /\
  Forall (fun w => (exists s, sets st !! w_slot w = Some (Some s)) /\
    forall interrupted now up alloc, returns (op_resume st w interrupted now up alloc) (fun _ => True)) ws /\
  (forall key count fl cred allocs now,
     returns (sysvsem_get st key count fl cred allocs now) (fun _ => True)) /\
  (forall id user_ops count tmo cred tgid now up oa alloc, ops_wf user_ops count ->
     returns (sysvsem_op st id user_ops count tmo cred tgid now up oa alloc) (fun _ => True)) /\
  (forall id n command arg user cred tgid now st2 ws2, n < 2 ^ 31 -> user_wf user -> reachable st2 ws2 ->
     returns (sysvsem_ctl st id n command arg user cred tgid now (fun _ => st2)) (fun _ => True)) /\
  (forall tgid, returns (sysvsem_exit st tgid) (fun _ => True)).
Proof.
  intros H%reachable_inv. split_and!.
  - intros slot s [_ _ Hv Hsl Hw Hr]%(inv_set_ok _ _ _ _ H). split_and!; try done.
    exact (proj1 (Forall_map _ _ _) Hv).
  - apply list.Forall_forall. intros w Hw. split.
    + destruct (proj1 (list.Forall_forall _ _) (inv_sleepers _ _ H) w Hw) as (s & Hs & _). by exists s.
    + intros. apply list_elem_of_split in Hw as (ws1 & ws2 & ->).
      by eapply returns_mono; [apply op_resume_ok|].
  - intros. eapply returns_mono; [by apply get_ok|done].
  - intros. eapply returns_mono; [by apply (sysvsem_op_ok _ ws)|done].
  - intros. eapply returns_mono; [eapply (sysvsem_ctl_ok _ ws ws2); try done; by apply reachable_inv|done].
  - intros. eapply returns_mono; [by apply (sysvsem_exit_ok _ ws)|done].
Qed.

(** C26. One attempt at a [semop] is all or nothing.  It blocks at the first
    operation that has to wait given what its predecessors in the call do;
    it fails on the first value above 32767, on an adjustment out of range or
    without memory; in these cases no semaphore, no adjustment and no waiter
    is affected.  Otherwise every semaphore has moved by the sum of the
    operations on it, its last operator is the caller, the waiters are woken
    when a value changed, and the caller's adjustments have moved by the sum
    of its [SEM_UNDO] operations, truncated to 16 bits. *)
Theorem semop_all_or_nothing (st : sem_state) (ws : list sleeper) (slot : nat) (set : sem_set)
    (ops : list sembuf_user) (tgid now : Z) (alloc : bool) :
  reachable st ws -> sets st !! slot = Some (Some set) -> s_removed set = false ->
  nums_ok (length (sems set)) ops ->
  returns (try_operations st slot ops tgid now alloc) (fun '(st', r) =>
    semop_post st slot set ops tgid now alloc st' r).
Proof.
  intros H%reachable_inv Hs Hr Hn. eapply returns_mono; [by apply (try_inv st ws)|]. by intros [st' r] [? _].
Qed.

(** [semget] finds the set that has the key, checking the flags, the size
    and the permissions; without one it fails as documented or creates a set
    of zeros under an id that no other set has and no stale undo record names. *)
Theorem sysvsem_get_correct (st : sem_state) (ws : list sleeper) (key count flags : Z)
    (cred : option credentials) (allocs : bool) (now : Z) :
  reachable st ws ->
  returns (sysvsem_get st key count flags cred allocs now) (fun '(st', r) =>
    get_post st key count flags cred allocs st' r).
Proof.
  intros H%reachable_inv. eapply returns_mono; [by apply (get_ok st ws)|]. by intros [st' r] [_ ?].
Qed.

(** When a process exits, every semaphore of every set moves by the
    adjustment the process holds for it, kept between 0 and 32767; waiters of
    the sets that change are woken; the records of the process are gone and
    those of the others are untouched. *)
Theorem sysvsem_exit_correct (st : sem_state) (ws : list sleeper) (tgid : Z) :
  reachable st ws ->
  returns (sysvsem_exit st tgid) (fun st' =>
    undos st' = filter (fun u => u_tgid u <> tgid) (undos st) /\ exit_effect (undos st) tgid st st').
Proof.
  intros H%reachable_inv. eapply returns_mono; [by apply (sysvsem_exit_ok st ws)|]. by intros st' (_ & ? & ?).
Qed.

Lemma undo_sum_all k ops : Forall (fun o => op o <> 0 -> Z.land (flags o) SEM_UNDO <> 0) ops ->
  undo_sum k ops = net (Z.of_nat k) ops.
Proof.
  induction 1 as [|o ops Ho _ IH]; [done|]. rewrite undo_sum_cons, IH. cbn [net]. f_equal.
  unfold undoes. destruct (Z.eqb_spec (num o) (Z.of_nat k)); [|by rewrite andb_false_r].
  destruct (Z.eqb_spec (op o) 0) as [->|Hne]; [by destruct (_ && _)|].
  destruct (Z.eqb_spec (Z.land (flags o) SEM_UNDO) 0); [by destruct Ho|]. done.
Qed.

(** The adjustments of a caller that undoes everything are exact. *)
Lemma undo_exact v d : in_range v -> in_range (v + d) -> clamp (v + d + i16 (0 - d)) = v.
Proof.
  intros H1 H2. unfold in_range, SEM_VALUE_MAX in *. rewrite i16_small by lia. rewrite clamp_id.
  - lia.
  - unfold in_range, SEM_VALUE_MAX. lia.
Qed.

(** Undoing is exact: when a process that held no adjustments performs a
    [semop] whose non-zero operations all carry [SEM_UNDO] and then exits,
    every semaphore of every set is back at its value. *)
Theorem semop_exit_roundtrip (st : sem_state) (ws : list sleeper) (slot : nat) (set : sem_set)
    (ops : list sembuf_user) (tgid now : Z) (alloc : bool) (st1 : sem_state) :
  reachable st ws -> sets st !! slot = Some (Some set) -> s_removed set = false ->
  nums_ok (length (sems set)) ops -> Forall (fun u => u_tgid u <> tgid) (undos st) ->
  Forall (fun o => op o <> 0 -> Z.land (flags o) SEM_UNDO <> 0) ops ->
  try_operations st slot ops tgid now alloc = Ret (st1, Status 0) ->
  returns (sysvsem_exit st1 tgid) (fun st2 =>
    forall slot' s, sets st !! slot' = Some (Some s) ->
    exists s', sets st2 !! slot' = Some (Some s') /\ map value (sems s') = map value (sems s)).
Proof.
  intros H%reachable_inv Hs Hr Hn Hno Hall E.
  pose proof (try_inv st ws slot set ops tgid now alloc H Hs Hr Hn) as Hp. rewrite E in Hp.
  destruct Hp as [[(_ & _ & _ & Hsets & _ & _ & Hadj & Hother)|[(? & _)|[(? & _)|(? & _)]]] Hi1]; try done.
  set (set1 := if negb _ then _ else _) in Hsets.
  assert (s_id set1 = s_id set /\ sems set1 = after_ops tgid ops (sems set)) as [Eid Esm].
  { subst set1. by destruct (negb _). }
  eapply returns_mono; [by apply (sysvsem_exit_ok st1 ws)|]. intros st2 (_ & _ & wk & _ & He) slot' s Hs'.
  assert (forall i k, adj_of (undos st) tgid i k = 0) as H0.
  { intros i k. apply adj_of_absent. intros (u & Eu & Hu)%list_elem_of_fmap. injection Eu as Eu _.
    rewrite list.Forall_forall in Hno. by destruct (Hno u Hu). }
  specialize (He slot'). pose proof (inv_set_ok _ _ _ _ H Hs') as Hok. rewrite Hsets in He.
  destruct (decide (slot' = slot)) as [->|Hne].
  - rewrite list_lookup_insert_eq in He by (by eapply lookup_lt_Some).
    destruct He as (s' & H1 & _ & H3 & _). exists s'. split; [done|]. rewrite H3, Eid, Esm, value_after_ops.
    rewrite Hs in Hs'. injection Hs' as <-. apply list_eq. intros k. rewrite !list_lookup_imap.
    destruct (map value (sems set) !! k) as [v|] eqn:Ev; [|done]. cbn. f_equal.
    assert (slot < length (sets st))%nat as Hlt by (by eapply lookup_lt_Some).
    pose proof (ok_values _ _ _ (inv_set_ok _ _ slot set1 Hi1 ltac:(by rewrite Hsets, list_lookup_insert_eq))) as Hv1.
    rewrite Esm, value_after_ops in Hv1.
    assert (k < length (sems set))%nat as Hk by (rewrite <- (length_map value); by eapply lookup_lt_Some).
    rewrite Hadj, H0, undo_sum_all by done. apply undo_exact.
    + apply (Forall_lookup_1 _ _ _ _ (ok_values _ _ _ Hok) Ev).
    + refine (Forall_lookup_1 _ _ k _ Hv1 _). by rewrite list_lookup_imap, Ev.
  - rewrite list_lookup_insert_ne, Hs' in He by done. destruct He as (s' & H1 & _ & H3 & _).
    exists s'. split; [done|]. rewrite H3. apply (imap_same ws slot'); [done|]. intros k.
    rewrite Hother; [done|]. intros Eq. injection Eq as Eq.
    apply Hne, (same_id_same_slot ws _ _ s set Hok); [by apply (inv_set_ok st)|done].
Qed.

Lemma ctl_setall_run st id n arg user cred tgid now between slot s :
  find_by_id st id = Some slot -> sets st !! slot = Some (Some s) -> local_array (s_count s) = Ret tt ->
  sysvsem_ctl st id n SETALL arg user cred tgid now between =
    match user_values user (length (sems s)) with
    | None => Ret (between st, - EFAULT, NoOut)
    | Some values => ctl_setall (between st) id (s_count s) values cred tgid now
    end.
Proof.
  intros Hf Hs Hl. unfold sysvsem_ctl. cbv zeta.
  change (Z.land SETALL (Z.lnot IPC_64)) with SETALL. change (ctl_find st id SETALL) with (find_by_id st id).
  rewrite Hf. unfold deref. rewrite Hs, bind_ret, Hl, bind_ret. reflexivity.
Qed.

Lemma ctl_getall_run st id n arg user cred tgid now between slot s :
  find_by_id st id = Some slot -> sets st !! slot = Some (Some s) ->
  sysvsem_ctl st id n GETALL arg user cred tgid now between = ctl_getall st s cred (writable user).
Proof.
  intros Hf Hs. unfold sysvsem_ctl. cbv zeta.
  change (Z.land GETALL (Z.lnot IPC_64)) with GETALL. change (ctl_find st id GETALL) with (find_by_id st id).
  rewrite Hf. unfold deref. rewrite Hs, bind_ret. reflexivity.
Qed.

Lemma count_local_array ws slot s : set_ok ws slot s -> local_array (s_count s) = Ret tt.
Proof.
  intros H. unfold local_array. pose proof (ok_count _ _ _ H). by replace (_ <=? _) with true by lia.
Qed.

(** [semctl(SETALL)] that succeeds stores exactly the user's values, all
    in range, clears every process's adjustments for the set, and a
    [semctl(GETALL)] by anybody allowed to read gets the values back. *)
Theorem semctl_setall_roundtrip (st st2 : sem_state) (ws ws2 : list sleeper) (id n arg : Z)
    (user : ctl_user) (cred : option credentials) (tgid now : Z) (slot : nat) (s : sem_set)
    (values : list Z) (st' : sem_state) (out : ctl_out) :
  reachable st ws -> reachable st2 ws2 -> user_wf user ->
  find_by_id st id = Some slot -> sets st !! slot = Some (Some s) ->
  user_values user (length (sems s)) = Some values ->
  sysvsem_ctl st id n SETALL arg user cred tgid now (fun _ => st2) = Ret (st', 0, out) ->
  Forall (fun v => 0 <= v <= SEM_VALUE_MAX) values /\
  (forall t k, adj_of (undos st') t id k = 0) /\
  exists s', find_by_id st' id = Some slot /\ sets st' !! slot = Some (Some s') /\
    forall reader out_ok n' arg' between, permitted reader s' false = true -> writable out_ok = true ->
      sysvsem_ctl st' id n' GETALL arg' out_ok reader tgid now between = Ret (st', 0, OutValues values).
Proof.
  intros H%reachable_inv H2%reachable_inv Hu Hf Hs Hv E.
  pose proof (count_local_array _ _ _ (inv_set_ok _ _ _ _ H Hs)) as Hla.
  erewrite ctl_setall_run, Hv in E by done.
  pose proof (ctl_setall_ok st2 ws2 id (s_count s) values cred tgid now H2) as Hp.
  unfold s_count in Hp. rewrite Nat2Z.id in Hp. specialize (Hp (Hu _ _ Hv)). fold (s_count s) in Hp.
  rewrite E in Hp. destruct Hp as (Hi & [[? _]|(slot2 & s2 & Hf2 & Hs2 & Hp)] & _); [done|].
  destruct Hp as [(? & _)|[(? & _)|(_ & Hcnt & _ & Hr & s' & Es & Hfr & _ & _ & _ & _ & _ & Hval & _ & Hadj)]]; try done.
  pose proof Hf2 as (s2' & Hs2' & Hr2 & Hid2)%find_by_id_Some. rewrite Hs2 in Hs2'. injection Hs2' as <-.
  assert (slot2 = slot) as ->.
  { unfold find_by_id in Hf, Hf2. repeat case_match; naive_solver. }
  assert (slot < length (sets st2))%nat as Hlt by (by eapply lookup_lt_Some).
  assert (sets st' !! slot = Some (Some s')) as Hs' by (by rewrite Es, list_lookup_insert_eq).
  pose proof Hfr as (Eid & Erm & _). split; [done|]. split.
  - intros t k. rewrite Hadj. case_bool_decide as Eb; [done|]. rewrite <- Hid2 in Eb |- *.
    assert (length (sems s2) <= k)%nat by lia. unfold adj_of.
    destruct (find_undo t (s_id s2) (undos st2) 0) as [i|] eqn:Ei; [|done].
    apply find_undo_Some in Ei as (u & Hui & Eu). rewrite Hui. injection Eu as _ Eu.
    destruct (Forall_lookup_1 _ _ _ _ (inv_sized _ _ _ _ H2 Hs2) Hui Eu) as [Hl _].
    by rewrite lookup_ge_None_2 by lia.
  - exists s'. assert (find_by_id st' id = Some slot) as Hf'.
    { rewrite <- Hid2, <- Eid. eapply find_by_id_live; [done|done|congruence]. }
    split_and!; [done..|]. intros reader out_ok n' arg' between Hp Hw.
    erewrite ctl_getall_run by done. unfold ctl_getall. rewrite Hp, Hw. cbn [negb].
    rewrite (count_local_array _ _ _ (inv_set_ok _ _ _ _ Hi Hs')).
    rewrite bind_ret. do 3 f_equal. rewrite <- Hval, <- (map_map value u16). rewrite Hval.
    rewrite <- (map_id values) at 2. apply map_ext_in. intros v Hin%list_elem_of_In.
    rewrite list.Forall_forall in Hr. destruct (Hr v Hin) as [? ?]. unfold SEM_VALUE_MAX in *. apply u16_small. lia.
Qed.

(** ** Examples *)

(** A set of two semaphores, and the state with a process asleep on it. *)
Definition demo_state : sem_state :=
  SemState (<[0%nat := Some (new_set 7 896 2 None 0 0 5)]> (replicate 128 None)) [] 1 [].

Definition demo_ops : list sembuf_user := [Sembuf 0 3 SEM_UNDO; Sembuf 1 2 SEM_UNDO; Sembuf 0 (-1) SEM_UNDO].

Definition result_state {A} (r : res (sem_state * A)) : sem_state :=
  match r with Ret (st, _) => st | _ => sem_boot end.

Definition demo_sleeping : sem_state :=
  result_state (sysvsem_op demo_state 0 (Some [Sembuf 1 (-1) 0]) 1 (-1) None 40 6 0 true true).

Definition demo_sleeper : sleeper := Sleeper 0 [Sembuf 1 (-1) 0] 1 false 40 (-1) 0 0.

Lemma demo_reachable : reachable demo_state [].
Proof. apply rtc_once. by apply (step_get sem_boot [] 7 2 896 None true 5 demo_state 0). Qed.

Lemma demo_ops_wf : ops_wf (Some [Sembuf 1 (-1) 0]) 1.
Proof.
  intros l [= <-]. split; [done|]. repeat constructor; unfold i16_range; cbn; lia.
Qed.

Lemma demo_sleeping_reachable : reachable demo_sleeping [demo_sleeper].
Proof.
  eapply rtc_r; [apply demo_reachable|].
  by eapply (step_sleep demo_state [] 0 _ 1 (-1) None 40 6 0 true true); [apply demo_ops_wf|..].
Qed.

(** The adjustments are range-checked one by one against the stored value but
    recorded one after the other: +20000 twice, with -20000 between them,
    leaves an adjustment of 25536 instead of failing with [ERANGE], and the
    exit then raises the semaphore instead of lowering it. *)
Example undo_sum_wraps :
  let ops := [Sembuf 0 20000 SEM_UNDO; Sembuf 0 (-20000) 0; Sembuf 0 20000 SEM_UNDO] in
  let st1 := result_state (try_operations demo_state 0 ops 40 6 true) in
  (exists st1, try_operations demo_state 0 ops 40 6 true = Ret (st1, Status 0)) /\
  adj_of (undos st1) 40 0 0 = 25536 /\
  match sysvsem_exit st1 40 with
  | Ret st2 => match sets st2 !! 0%nat with
               | Some (Some s) => map value (sems s) = [32767; 0]
               | _ => False
               end
  | _ => False
  end.
Proof. vm_compute. split; [by eexists|]. done. Qed.

Lemma semaphore_invariant_witness :
  returns (op_resume demo_sleeping demo_sleeper true 9 9 true) (fun _ => True).
Proof.
  destruct (semaphore_invariant demo_sleeping [demo_sleeper] demo_sleeping_reachable) as (_ & H & _).
  inversion H as [|? ? [_ Hw] _]. apply Hw.
Defined.

Lemma demo_nums : nums_ok 2 demo_ops.
Proof. repeat constructor; cbn; lia. Qed.

Lemma semop_all_or_nothing_witness :
  returns (try_operations demo_state 0 demo_ops 40 6 true) (fun '(st', r) =>
    semop_post demo_state 0 (new_set 7 896 2 None 0 0 5) demo_ops 40 6 true st' r).
Proof.
  apply (semop_all_or_nothing demo_state []); [apply demo_reachable|done|done|apply demo_nums].
Defined.

Lemma sysvsem_get_correct_witness :
  returns (sysvsem_get demo_state 8 3 512 None true 6) (fun '(st', r) =>
    get_post demo_state 8 3 512 None true st' r).
Proof. apply (sysvsem_get_correct demo_state []), demo_reachable. Defined.

Lemma sysvsem_exit_correct_witness :
  returns (sysvsem_exit demo_sleeping 40) (fun st' =>
    undos st' = filter (fun u => u_tgid u <> 40) (undos demo_sleeping) /\
    exit_effect (undos demo_sleeping) 40 demo_sleeping st').
Proof. apply (sysvsem_exit_correct demo_sleeping [demo_sleeper]), demo_sleeping_reachable. Defined.

Lemma semop_exit_roundtrip_witness :
  returns (sysvsem_exit (result_state (try_operations demo_state 0 demo_ops 40 6 true)) 40) (fun st2 =>
    forall slot' s, sets demo_state !! slot' = Some (Some s) ->
    exists s', sets st2 !! slot' = Some (Some s') /\ map value (sems s') = map value (sems s)).
Proof.
  apply (semop_exit_roundtrip demo_state [] 0 (new_set 7 896 2 None 0 0 5) demo_ops 40 6 true).
  - apply demo_reachable.
  - done.
  - done.
  - apply demo_nums.
  - constructor.
  - repeat constructor; done.
  - vm_compute. reflexivity.
Defined.

Definition demo_user : ctl_user :=
  CtlUser true None (fun n => if Nat.eqb n 2 then Some [4; 9] else None).

Lemma semctl_setall_roundtrip_witness :
  Forall (fun v => 0 <= v <= SEM_VALUE_MAX) [4; 9].
Proof.
  destruct (sysvsem_ctl demo_state 0 0 SETALL 0 demo_user None 40 6 (fun _ => demo_state))
    as [[[st' r] out]| |] eqn:E; [|discriminate E..].
  assert (r = 0) as -> by (vm_compute in E; injection E; done).
  apply (semctl_setall_roundtrip demo_state demo_state [] [] 0 0 0 demo_user None 40 6 0
    (new_set 7 896 2 None 0 0 5) [4; 9] st' out demo_reachable demo_reachable); try done.
  intros n l. cbn. destruct (Nat.eqb_spec n 2) as [->|]; [|done]. intros [= <-].
  split; [done|]. repeat constructor; done.
Defined.
