(* ===== verification/HeldArray.v ===== *)
(** * The record of held locks

    Spinlocks and mutexes remember what a processor or process holds in a
    small array with a counter that goes on counting when the array is full.
    [kernel/locking/lock.c] and [kernel/locking/mutex.c] have the same two
    functions on it, [remember] and [forget], for arrays of 24 and 16 entries;
    here the capacity is an argument. *)

From S2P Require Import Prelude.

Definition remember_in (cap : Z) (a : list nat) (count : Z) (k : nat) : res (list nat * Z) :=
  if count <? cap then
    a ← wr a count k;
    Ret (a, u32 (count + 1))
  else Ret (a, u32 (count + 1)).

(** The inner loop of [forget]: entries above [move] come down by one. *)
Fixpoint shift_down (a : list nat) (move top : Z) (n : nat) : res (list nat) :=
  match n with
  | O => Ret a
  | S n =>
      if move + 1 <? top then
        x ← rd a (move + 1);
        a ← wr a move x;
        shift_down a (move + 1) top n
      else Ret a
  end.

(** The outer loop looks from the top down. *)
Fixpoint forget_loop (a : list nat) (k : nat) (top : Z) (index : nat) : res (list nat) :=
  match index with
  | O => Ret a
  | S index =>
      x ← rd a (Z.of_nat index);
      if Nat.eqb x k then shift_down a (Z.of_nat index) top (Z.to_nat top)
      else forget_loop a k top index
  end.

Definition forget_in (cap : Z) (a : list nat) (count : Z) (k : nat) : res (list nat * Z) :=
  if count =? 0 then Ret (a, count)
  else
    let top := if count <? cap then count else cap in
    a ← forget_loop a k top (Z.to_nat top);
    Ret (a, u32 (count - 1)).

(** The first [count] entries are the locks with [0 < f k], each once. *)
Definition lists_held (cap : nat) (a : list nat) (count : Z) (f : nat -> Z) : Prop :=
  length a = cap /\
  exists L, NoDup L /\ count = Z.of_nat (length L) /\ (length L <= cap)%nat /\
    take (length L) a = L /\ forall k, k ∈ L <-> 0 < f k.

Lemma lists_held_ext cap a n f f' : lists_held cap a n f -> (forall k, 0 < f' k <-> 0 < f k) ->
  lists_held cap a n f'.
Proof.
  intros (Hl & L & H1 & H2 & H3 & H4 & H5) Hf. split; [done|]. exists L. split_and!; try done.
  intros k. by rewrite Hf.
Qed.

Lemma lists_held_nil cap f : (forall k, f k = 0) -> lists_held cap (replicate cap O) 0 f.
Proof.
  intros Hf. split; [apply length_replicate|]. exists []. split_and!; try done; [constructor|cbn; lia|].
  intros k. rewrite Hf. split; [intros H; inversion H|done].
Qed.

Lemma remember_in_ok cap a n f k v : Z.of_nat cap < 2 ^ 31 -> lists_held cap a n f -> n < Z.of_nat cap ->
  f k = 0 -> 0 < v ->
  returns (remember_in (Z.of_nat cap) a n k) (fun '(a', n') =>
    lists_held cap a' n' (fun k' => if decide (k' = k) then v else f k')).
Proof.
  intros Hcap (Hl & L & H1 & H2 & H3 & H4 & H5) Hc Hk Hv. unfold remember_in.
  replace (n <? Z.of_nat cap) with true by lia. rewrite wr_in, bind_ret by lia.
  assert (k ∉ L) as Hni by (rewrite H5; lia).
  cbn [returns]. split; [by rewrite length_insert|]. exists (L ++ [k]). rewrite length_app. cbn.
  split_and!.
  - apply list.NoDup_app. split_and!; [done| |apply NoDup_singleton]. set_solver.
  - rewrite H2. rewrite u32_small by lia. lia.
  - lia.
  - rewrite H2, Nat2Z.id, Nat.add_1_r. apply list_eq. intros j.
    destruct (decide (j < length L)%nat) as [Hj|Hj].
    + rewrite lookup_take_lt, list_lookup_insert_ne, lookup_app_l by lia.
      rewrite <- H4 at 1. by rewrite lookup_take_lt by lia.
    + destruct (decide (j = length L)) as [->|].
      * rewrite lookup_take_lt, list_lookup_insert_eq, lookup_app_r, Nat.sub_diag by lia. done.
      * rewrite lookup_take_ge, lookup_ge_None_2; [done|rewrite length_app; cbn; lia|lia].
  - intros k'. rewrite elem_of_app, list_elem_of_singleton, H5. case_decide; naive_solver lia.
Qed.

Lemma shift_down_ok n : forall a i top, (i < top)%nat -> (top <= length a)%nat -> (top - 1 - i <= n)%nat ->
  returns (shift_down a (Z.of_nat i) (Z.of_nat top) n) (fun a' => length a' = length a /\
    forall j, a' !! j = if decide (i <= j < top - 1)%nat then a !! S j else a !! j).
Proof.
  induction n as [|n IH]; intros a i top Hi Ht Hn; cbn [shift_down].
  - split; [done|]. intros j. by rewrite decide_False by lia.
  - destruct (Z.ltb_spec (Z.of_nat i + 1) (Z.of_nat top)).
    + destruct (lookup_lt_is_Some_2 a (S i) ltac:(lia)) as [x Hx].
      rewrite (rd_lookup _ _ x), bind_ret, wr_in, bind_ret
        by (lia || (rewrite <- Hx; f_equal; lia)).
      replace (Z.of_nat i + 1) with (Z.of_nat (S i)) by lia. rewrite Nat2Z.id.
      eapply returns_mono; [apply IH; rewrite ?length_insert; lia|].
      intros a' [Hl Ha]. rewrite length_insert in Hl. split; [done|]. intros j. rewrite Ha.
      destruct (decide (j = i)) as [->|].
      * repeat case_decide; try lia. by rewrite list_lookup_insert_eq by lia.
      * repeat case_decide; rewrite ?list_lookup_insert_ne by lia; try done; lia.
    + split; [done|]. intros j. by rewrite decide_False by lia.
Qed.

Lemma forget_loop_eq a k top i n : a !! i = Some k -> (i < n)%nat -> (n <= length a)%nat ->
  (forall j, (i < j < n)%nat -> a !! j <> Some k) ->
  forget_loop a k top n = shift_down a (Z.of_nat i) top (Z.to_nat top).
Proof.
  intros Hi. revert n. induction n as [|n IH]; intros Hn Hl Hno; [lia|]. cbn [forget_loop].
  destruct (lookup_lt_is_Some_2 a n ltac:(lia)) as [x Hx].
  rewrite (rd_lookup _ _ x), bind_ret by (lia || by rewrite Nat2Z.id).
  destruct (Nat.eqb_spec x k) as [->|Hx'].
  - destruct (decide (n = i)) as [->|]; [done|]. exfalso. apply (Hno n); [lia|done].
  - apply IH; [|lia|intros; apply Hno; lia]. destruct (decide (n = i)) as [->|]; [congruence|lia].
Qed.

Lemma forget_in_ok cap a n f k : Z.of_nat cap < 2 ^ 31 -> lists_held cap a n f -> 0 < f k ->
  returns (forget_in (Z.of_nat cap) a n k) (fun '(a', n') =>
    lists_held cap a' n' (fun k' => if decide (k' = k) then 0 else f k')).
Proof.
  intros Hcap (Hl & L & H1 & H2 & H3 & H4 & H5) Hk. unfold forget_in.
  pose proof Hk as Hin. apply H5, list_elem_of_lookup in Hin as [i Hi].
  pose proof (lookup_lt_Some _ _ _ Hi) as Hlt.
  assert (forall j, (j < length L)%nat -> a !! j = L !! j) as Hj.
  { intros j Hj. rewrite <- H4 at 1. by rewrite lookup_take_lt by lia. }
  replace (n =? 0) with false by lia.
  replace (if n <? Z.of_nat cap then n else Z.of_nat cap) with (Z.of_nat (length L))
    by (destruct (Z.ltb_spec n (Z.of_nat cap)); lia).
  rewrite Nat2Z.id. rewrite (forget_loop_eq a k _ i); [|by rewrite Hj|done|lia|].
  2: { intros j Hj'. rewrite Hj by lia. intros E. pose proof (NoDup_lookup _ _ _ _ H1 Hi E). lia. }
  eapply returns_bind; [apply shift_down_ok; lia|]. intros a' [Hl' Ha]. cbn [returns].
  assert (length (delete i L) = (length L - 1)%nat) as Hdl by (apply length_delete; by exists k).
  split; [lia|]. exists (delete i L). split_and!.
  - eapply sublist_NoDup; [done|apply sublist_delete].
  - rewrite H2, Hdl. rewrite u32_small by lia. lia.
  - lia.
  - rewrite Hdl. apply list_eq. intros j. destruct (decide (j < length L - 1)%nat).
    + rewrite lookup_take_lt, Ha by lia. destruct (decide (j < i)%nat).
      * rewrite decide_False, list_lookup_delete_lt, Hj by lia. done.
      * rewrite decide_True, list_lookup_delete_ge, Hj by lia. done.
    + rewrite lookup_take_ge, lookup_ge_None_2 by lia. done.
  - intros k'. assert (k' ∈ delete i L <-> k' ∈ L /\ k' <> k) as ->.
    { assert (L ≡ₚ k :: delete i L) as HP by (by apply delete_Permutation).
      assert (k' ∈ L <-> k' ∈ k :: delete i L) as -> by (by rewrite <- HP).
      rewrite HP in H1. apply list.NoDup_cons in H1 as [Hnk _]. set_solver. }
    rewrite H5. case_decide; naive_solver lia.
Qed.
