(* ===== verification/Lock.v ===== *)
(** * Spinlocks (kernel/locking/lock.c)

    The fair, re-entrant ticket lock that protects every other component:
    the "atomic steps" of the other files are the sections between
    [lock_acquire] and [lock_release].  Here the two functions themselves are
    cut at every access of shared memory: a processor executes one access per
    step ([cpu_step]), its program counter [pc] says where in which function
    it is, and a schedule interleaves the processors.  Memory is sequentially
    consistent; [depth] and the holder's plain read of [serving] are only
    reached by the holder and are not cut further.

    A lock is named by its index in [locks], a processor by its index in
    [cpus].  The lock's name, the messages and the watchdog are not modelled:
    only that a report counts in [order_reports]. *)

From stdpp Require Import relations.
From S2P Require Import Prelude HeldArray.

Definition HELD_MAX : Z := 24.
Definition ORDER_REPORTS : Z := 16.
Definition SMP_MAX_CPUS : Z := 256.

Record lock := Lock { next : Z; serving : Z; owner : Z; depth : Z; rank : Z }.

Definition lock_init (rank : Z) : lock := Lock 0 0 0 0 rank.

(** The locks a processor holds; the array has 24 entries. *)
Record held_locks := Held { held : list nat; count : Z; reported : bool }.

(** Where a processor is.  [AcqFetch]: before the fetch-and-add of
    [lock_acquire]; [AcqSpin]: before a load of [serving] in its loop, with
    the ticket; [TryCas]: before the compare-and-exchange of
    [lock_try_acquire], with the value of [serving] it read; [Enter] and
    [EnterDepth]: before the store of [owner] and before the rest of the two
    functions; [RelOwner], [RelLoad], [RelStore]: the end of [lock_release],
    with the value of [serving] it read; [Idle]: outside these functions. *)
Inductive pc :=
  | Idle
  | AcqFetch (k : nat)
  | AcqSpin (k : nat) (ticket : Z)
  | TryCas (k : nat) (serving : Z)
  | Enter (k : nat)
  | EnterDepth (k : nat)
  | RelOwner (k : nat)
  | RelLoad (k : nat)
  | RelStore (k : nat) (serving : Z).

Record cpu := Cpu { cpu_pc : pc; mine : held_locks }.

Record world := World { locks : list lock; cpus : list cpu; order_reports : Z }.

(** The calls a processor can make when it is outside. *)
Inductive call :=
  | Acquire (k : nat)
  | TryAcquire (k : nat)
  | Release (k : nat)
  | Drop (k : nat)
  | SetDepth (k : nat) (d : Z)
  | CheckReleased
  | ReportSleep.

(** What a step means to the caller and to the observer: the lock was taken
    once more, given back once, given back completely, set to a depth; a
    [lock_try_acquire] failed; the caller does not hold what it releases;
    [lock_try_acquire] read [serving]; the lock moved on to the next ticket. *)
Inductive event :=
  | Took (k : nat)
  | Gave (k : nat)
  | Dropped (k : nat)
  | DepthSet (k : nat) (d : Z)
  | Busy (k : nat)
  | NotHeld (k : nat)
  | Saw (k : nat)
  | Moved (k : nat)
  | Silent.

Definition self_id (c : nat) : Z := Z.of_nat c + 1.

Definition get_lock (w : world) (k : nat) : res lock :=
  match locks w !! k with
  | Some l => Ret l
  | None => Fault
  end.

Definition get_cpu (w : world) (c : nat) : res cpu :=
  match cpus w !! c with
  | Some x => Ret x
  | None => Fault
  end.

Definition put_lock (w : world) (k : nat) (l : lock) : world :=
  World (<[k := l]> (locks w)) (cpus w) (order_reports w).
Definition put_cpu (w : world) (c : nat) (x : cpu) : world :=
  World (locks w) (<[c := x]> (cpus w)) (order_reports w).
Definition report (w : world) : world := World (locks w) (cpus w) (u32 (order_reports w + 1)).

Definition set_next (v : Z) (l : lock) : lock := Lock v (serving l) (owner l) (depth l) (rank l).
Definition set_serving (v : Z) (l : lock) : lock := Lock (next l) v (owner l) (depth l) (rank l).
Definition set_owner (v : Z) (l : lock) : lock := Lock (next l) (serving l) v (depth l) (rank l).
Definition set_depth (v : Z) (l : lock) : lock := Lock (next l) (serving l) (owner l) v (rank l).
Definition goto (p : pc) (x : cpu) : cpu := Cpu p (mine x).

(** [check_order]: the first lock held that ranks above the wanted one is
    reported.  The loop reads [locks[index]] for every index below [count]. *)
Fixpoint check_order_loop (w : world) (locks_ : list nat) (rank_ : Z) (index : Z) (n : nat) : res world :=
  match n with
  | O => Ret w
  | S n =>
      k ← rd locks_ index;
      other ← get_lock w k;
      if rank other <=? rank_ then check_order_loop w locks_ rank_ (index + 1) n
      else Ret (report w)
  end.

Definition check_order (w : world) (m : held_locks) (l : lock) : res world :=
  check_order_loop w (held m) (rank l) 0 (Z.to_nat (count m)).

Definition remember (m : held_locks) (k : nat) : res held_locks :=
  '(a, n) ← remember_in HELD_MAX (held m) (count m) k;
  Ret (Held a n (reported m)).

Definition forget (m : held_locks) (k : nat) : res held_locks :=
  '(a, n) ← forget_in HELD_MAX (held m) (count m) k;
  Ret (Held a n (reported m)).

(** [lock_acquire] up to its first access of [next]. *)
Definition lock_acquire (w : world) (c k : nat) : res (world * event) :=
  x ← get_cpu w c;
  l ← get_lock w k;
  if owner l =? self_id c then Ret (put_lock w k (set_depth (u32 (depth l + 1)) l), Took k)
  else
    w ← check_order w (mine x) l;
    Ret (put_cpu w c (goto (AcqFetch k) x), Silent).

(** [lock_try_acquire] up to its load of [serving]. *)
Definition lock_try_acquire (w : world) (c k : nat) : res (world * event) :=
  x ← get_cpu w c;
  l ← get_lock w k;
  if owner l =? self_id c then Ret (put_lock w k (set_depth (u32 (depth l + 1)) l), Took k)
  else Ret (put_cpu w c (goto (TryCas k (serving l)) x), Saw k).

(** [lock_release] up to its store of [owner]. *)
Definition lock_release (w : world) (c k : nat) : res (world * event) :=
  x ← get_cpu w c;
  l ← get_lock w k;
  if negb (owner l =? self_id c) then Ret (w, NotHeld k)
  else
    let l := set_depth (u32 (depth l - 1)) l in
    let w := put_lock w k l in
    if negb (depth l =? 0) then Ret (w, Gave k)
    else
      m ← forget (mine x) k;
      Ret (put_cpu w c (Cpu (RelOwner k) m), Gave k).

Definition lock_held (w : world) (c k : nat) : res bool :=
  l ← get_lock w k;
  Ret (owner l =? self_id c).

Definition lock_depth_here (w : world) (c : nat) : res Z :=
  x ← get_cpu w c;
  Ret (count (mine x)).

Definition lock_depth (w : world) (c k : nat) : res Z :=
  l ← get_lock w k;
  h ← lock_held w c k;
  Ret (if (h : bool) then depth l else 0).

Definition lock_set_depth (w : world) (c k : nat) (d : Z) : res (world * event) :=
  l ← get_lock w k;
  h ← lock_held w c k;
  if (h : bool) && negb (d =? 0) then Ret (put_lock w k (set_depth d l), DepthSet k d) else Ret (w, Silent).

Definition lock_only_holds (w : world) (c : nat) (k : option nat) : res bool :=
  x ← get_cpu w c;
  match k with
  | None => Ret (count (mine x) =? 0)
  | Some k =>
      if count (mine x) =? 1 then a ← rd (held (mine x)) 0; Ret (Nat.eqb a k) else Ret false
  end.

Definition lock_check_released (w : world) (c : nat) : res (world * event) :=
  x ← get_cpu w c;
  let m := mine x in
  if count m =? 0 then Ret (w, Silent)
  else if reported m then Ret (w, Silent)
  else if order_reports w <? ORDER_REPORTS then
    a ← rd (held m) 0;
    _ ← get_lock w a;
    Ret (put_cpu (report w) c (Cpu (cpu_pc x) (Held (held m) (count m) true)), Silent)
  else Ret (report w, Silent).

Definition lock_report_sleep (w : world) (c : nat) : res (world * event) :=
  x ← get_cpu w c;
  if ORDER_REPORTS <=? order_reports w then Ret (report w, Silent)
  else if count (mine x) =? 0 then Ret (report w, Silent)
  else a ← rd (held (mine x)) 0; _ ← get_lock w a; Ret (report w, Silent).

(** [lock_drop] sets the depth to one and releases. *)
Definition lock_drop (w : world) (c k : nat) : res (world * event) :=
  h ← lock_held w c k;
  if negb h then Ret (w, Silent)
  else
    l ← get_lock w k;
    '(w, _) ← lock_release (put_lock w k (set_depth 1 l)) c k;
    Ret (w, Dropped k).

(** One step of processor [c]; [what] is the call it makes when it is
    outside. *)
Definition cpu_step (w : world) (c : nat) (what : call) : res (world * event) :=
  x ← get_cpu w c;
  match cpu_pc x with
  | Idle =>
      match what with
      | Acquire k => lock_acquire w c k
      | TryAcquire k => lock_try_acquire w c k
      | Release k => lock_release w c k
      | Drop k => lock_drop w c k
      | SetDepth k d => lock_set_depth w c k d
      | CheckReleased => lock_check_released w c
      | ReportSleep => lock_report_sleep w c
      end
  | AcqFetch k =>
      l ← get_lock w k;
      let ticket := next l in
      Ret (put_cpu (put_lock w k (set_next (u32 (ticket + 1)) l)) c (goto (AcqSpin k ticket) x), Silent)
  | AcqSpin k ticket =>
      l ← get_lock w k;
      if serving l =? ticket then Ret (put_cpu w c (goto (Enter k) x), Silent) else Ret (w, Silent)
  | TryCas k s =>
      l ← get_lock w k;
      if next l =? s then
        Ret (put_cpu (put_lock w k (set_next (u32 (s + 1)) l)) c (goto (Enter k) x), Silent)
      else Ret (put_cpu w c (goto Idle x), Busy k)
  | Enter k =>
      l ← get_lock w k;
      Ret (put_cpu (put_lock w k (set_owner (self_id c) l)) c (goto (EnterDepth k) x), Silent)
  | EnterDepth k =>
      l ← get_lock w k;
      m ← remember (mine x) k;
      Ret (put_cpu (put_lock w k (set_depth 1 l)) c (Cpu Idle m), Took k)
  | RelOwner k =>
      l ← get_lock w k;
      Ret (put_cpu (put_lock w k (set_owner 0 l)) c (goto (RelLoad k) x), Silent)
  | RelLoad k =>
      l ← get_lock w k;
      Ret (put_cpu w c (goto (RelStore k (serving l)) x), Silent)
  | RelStore k s =>
      l ← get_lock w k;
      Ret (put_cpu (put_lock w k (set_serving (u32 (s + 1)) l)) c (goto Idle x), Moved k)
  end.

(** ** The observer

    [nest c k]: how often processor [c] has taken lock [k] without giving it
    back, as its caller sees it; [served k]: how many tickets of the lock have
    been finished; [seen c]: what that count was at the processor's last
    [lock_try_acquire]. *)

Record ghost := Ghost { nest : nat -> nat -> Z; served : nat -> Z; seen : nat -> Z }.

Definition set_nest (g : ghost) (c k : nat) (v : Z) : ghost :=
  Ghost (fun c' k' => if decide (c' = c /\ k' = k) then v else nest g c' k') (served g) (seen g).

Definition observe (g : ghost) (c : nat) (e : event) : ghost :=
  match e with
  | Took k => set_nest g c k (nest g c k + 1)
  | Gave k => set_nest g c k (nest g c k - 1)
  | Dropped k => set_nest g c k 0
  | DepthSet k d => set_nest g c k d
  | Saw k => Ghost (nest g) (served g) (fun c' => if decide (c' = c) then served g k else seen g c')
  | Moved k => Ghost (nest g) (fun k' => if decide (k' = k) then served g k + 1 else served g k') (seen g)
  | Busy _ | NotHeld _ | Silent => g
  end.

(** What the lock asks of its users: a processor holds at most 24 locks, takes
    none 2^32 times over, and is not delayed between the load and the
    compare-and-exchange of [lock_try_acquire] for 2^32 - 256 tickets. *)
Definition admissible (w : world) (g : ghost) (c : nat) (what : call) : Prop :=
  match cpus w !! c with
  | None => False
  | Some x =>
      match cpu_pc x with
      | Idle =>
          match what with
          | Acquire k | TryAcquire k =>
              (k < length (locks w))%nat /\ count (mine x) < HELD_MAX /\ nest g c k + 1 < 2 ^ 32
          | Release k | Drop k => (k < length (locks w))%nat
          | SetDepth k d => (k < length (locks w))%nat /\ 0 <= d < 2 ^ 32
          | CheckReleased | ReportSleep => True
          end
      | TryCas k _ => served g k + SMP_MAX_CPUS - seen g c < 2 ^ 32
      | _ => True
      end
  end.

Definition lock_step (a b : world * ghost) : Prop :=
  exists c what e, admissible a.1 a.2 c what /\ cpu_step a.1 c what = Ret (b.1, e) /\
    b.2 = observe a.2 c e.

Definition boot (ranks : list Z) (ncpus : nat) : world :=
  World (map lock_init ranks) (replicate ncpus (Cpu Idle (Held (replicate 24 O) 0 false))) 0.
Definition ghost0 : ghost := Ghost (fun _ _ => 0) (fun _ => 0) (fun _ => 0).

Definition runs (ranks : list Z) (ncpus : nat) (w : world) (g : ghost) : Prop :=
  (ncpus <= 256)%nat /\ rtc lock_step (boot ranks ncpus, ghost0) (w, g).

(** ** The stages of a processor with respect to one lock *)

Inductive stage :=
  | Outside | Spinning (ticket : Z) | Entering | Entered | Inside | Leaving | Left | Storing (s : Z).

Definition pc_lock (p : pc) : option nat :=
  match p with
  | Idle => None
  | AcqFetch k | AcqSpin k _ | TryCas k _ | Enter k | EnterDepth k | RelOwner k | RelLoad k | RelStore k _ => Some k
  end.

Definition stage_of (p : pc) (n : Z) (k : nat) : stage :=
  if decide (pc_lock p = Some k) then
    match p with
    | AcqSpin _ t => Spinning t
    | Enter _ => Entering
    | EnterDepth _ => Entered
    | RelOwner _ => Leaving
    | RelLoad _ => Left
    | RelStore _ s => Storing s
    | _ => Outside
    end
  else if 0 <? n then Inside else Outside.

(** Between the store of its number and the store of zero. *)
Definition owns (s : stage) : bool :=
  match s with Entered | Inside | Leaving => true | _ => false end.

Definition head_ok (l : lock) (c : nat) (s : stage) : Prop :=
  owner l = (if owns s then self_id c else 0) /\
  match s with
  | Outside => False
  | Spinning t => t = serving l
  | Storing v => v = serving l
  | _ => True
  end.

(** The queue of a lock: the processors with a ticket, oldest first. *)
Record queue_ok (l : lock) (stg : nat -> stage) (Q : list nat) : Prop := QueueOk {
  q_nodup : NoDup Q;
  q_member : forall c, c ∈ Q <-> stg c <> Outside;
  q_small : Forall (fun c => (c < 256)%nat) Q;
  q_head : match Q with [] => owner l = 0 | c :: _ => head_ok l c (stg c) end;
  q_rest : forall j c, (0 < j)%nat -> Q !! j = Some c -> stg c = Spinning (u32 (serving l + Z.of_nat j));
  q_next : next l = u32 (serving l + Z.of_nat (length Q));
  q_word : 0 <= serving l < 2 ^ 32 }.

Lemma nodup_small (Q : list nat) n : NoDup Q -> Forall (fun c => (c < n)%nat) Q -> (length Q <= n)%nat.
Proof.
  intros Hn Hs. rewrite <- (length_seq n 0). apply submseteq_length, NoDup_submseteq; [done|].
  intros c Hc. apply elem_of_seq. rewrite list.Forall_forall in Hs. specialize (Hs c Hc). cbn in Hs. lia.
Qed.

Section queue.
Context (l : lock) (stg : nat -> stage) (Q : list nat).
Hypothesis HQ : queue_ok l stg Q.

Lemma tickets_bound : (length Q <= 256)%nat.
Proof. apply nodup_small; apply HQ. Qed.

(** Only the head can be past its spinning. *)
Lemma not_spinning_head c : stg c <> Outside -> (forall t, stg c <> Spinning t) -> Q !! 0%nat = Some c.
Proof.
  intros Ho Hs. apply (q_member _ _ _ HQ) in Ho. apply list_elem_of_lookup in Ho as [j Hj].
  destruct j as [|j]; [done|]. destruct (Hs _ (q_rest _ _ _ HQ (S j) c ltac:(lia) Hj)).
Qed.

Lemma spinning_at c t : stg c = Spinning t ->
  exists j, Q !! j = Some c /\ t = u32 (serving l + Z.of_nat j).
Proof.
  intros E. assert (stg c <> Outside) as Ho by congruence.
  apply (q_member _ _ _ HQ) in Ho. apply list_elem_of_lookup in Ho as [j Hj]. exists j. split; [done|].
  pose proof (q_word _ _ _ HQ) as Hw. destruct j as [|j].
  - pose proof (q_head _ _ _ HQ) as Hh. destruct Q as [|x R]; [done|]. injection Hj as ->.
    destruct Hh as [_ Hh]. rewrite E in Hh. rewrite Z.add_0_r, u32_small by done. done.
  - pose proof (q_rest _ _ _ HQ (S j) c ltac:(lia) Hj) as Hr. congruence.
Qed.

Lemma serving_is_head c : stg c = Spinning (serving l) -> Q !! 0%nat = Some c.
Proof.
  intros E. destruct (spinning_at _ _ E) as (j & Hj & Ht).
  assert (j < 256)%nat by (pose proof tickets_bound; apply lookup_lt_Some in Hj; lia).
  pose proof (q_word _ _ _ HQ) as Hw. unfold u32 in Ht.
  destruct (decide (j = 0)%nat) as [->|Hne]; [done|].
  exfalso. revert Ht. pose proof (Z.div_mod (serving l + Z.of_nat j) (2 ^ 32)).
  pose proof (Z.mod_pos_bound (serving l + Z.of_nat j) (2 ^ 32)). intros Ht.
  assert (0 <= (serving l + Z.of_nat j) / 2 ^ 32 <= 1) by (split; [apply Z.div_pos; lia|apply Z.div_le_upper_bound; lia]).
  nia.
Qed.

(** [owner] names the processor that is inside. *)
Lemma owner_spec c : owner l = self_id c <-> owns (stg c) = true.
Proof.
  split.
  - intros E. pose proof (q_head _ _ _ HQ) as Hh. destruct Q as [|x R].
    + rewrite Hh in E. unfold self_id in E. lia.
    + destruct Hh as [Ho _]. rewrite Ho in E. destruct (owns (stg x)) eqn:Ex; unfold self_id in E; [|lia].
      replace c with x by lia. done.
  - intros E. assert (Q !! 0%nat = Some c) as H0.
    { apply not_spinning_head; [|intros t]; intros Es; rewrite Es in E; done. }
    pose proof (q_head _ _ _ HQ) as Hh. destruct Q as [|x R]; [done|]. injection H0 as ->.
    destruct Hh as [-> _]. by rewrite E.
Qed.
End queue.

Definition upd_stage (stg : nat -> stage) (c : nat) (s : stage) : nat -> stage :=
  fun c' => if decide (c' = c) then s else stg c'.

(** *** How the queue moves *)

Lemma queue_ext l l' stg stg' Q :
  queue_ok l stg Q -> (forall c, stg' c = stg c) ->
  next l' = next l -> serving l' = serving l -> owner l' = owner l -> queue_ok l' stg' Q.
Proof.
  intros [] Hs En Es Eo. constructor; rewrite ?En, ?Es; try done.
  - intros c. by rewrite Hs.
  - destruct Q as [|c R]; [congruence|]. unfold head_ok in *. by rewrite Hs, Eo, Es.
  - intros j c Hj Hc. rewrite Hs. auto.
Qed.

Lemma u32_succ a b : u32 (u32 (a + b) + 1) = u32 (a + (b + 1)).
Proof. unfold u32. rewrite Zplus_mod_idemp_l. f_equal. lia. Qed.

(** A processor takes a ticket. *)
Lemma queue_push l stg Q c s :
  queue_ok l stg Q -> stg c = Outside -> (c < 256)%nat -> s <> Outside -> owns s = false ->
  (Q = [] -> match s with Spinning t => t = serving l | Storing _ => False | _ => True end) ->
  (Q <> [] -> s = Spinning (next l)) ->
  queue_ok (set_next (u32 (next l + 1)) l) (upd_stage stg c s) (Q ++ [c]).
Proof.
  intros [] Hc Hlt Hs Ho H0 H1. unfold upd_stage.
  assert (c ∉ Q) as Hni by (rewrite q_member0; naive_solver).
  constructor; try done.
  - apply list.NoDup_app. split_and!; [done| |apply NoDup_singleton]. set_solver.
  - intros c'. rewrite elem_of_app, q_member0, list_elem_of_singleton. case_decide; naive_solver.
  - apply Forall_app. split; [done|]. constructor; [done|constructor].
  - destruct Q as [|x R]; cbn.
    + rewrite decide_True by done. split; [by rewrite Ho|]. specialize (H0 eq_refl). by destruct s.
    + rewrite decide_False by set_solver. done.
  - intros j c' Hj Hc'. cbn. apply lookup_app_Some in Hc' as [Hc'|[Hge Hc']].
    + rewrite decide_False by (intros ->; apply Hni; by eapply list_elem_of_lookup_2). auto.
    + apply list_lookup_singleton_Some in Hc' as [E ->]. rewrite decide_True by done.
      rewrite H1, q_next0 by (intros ->; cbn in *; lia). repeat f_equal. lia.
  - cbn. rewrite q_next0, u32_succ, length_app. f_equal. cbn. lia.
Qed.

(** The head goes on. *)
Lemma queue_head l l' stg Q c s :
  queue_ok l stg Q -> Q !! 0%nat = Some c -> s <> Outside ->
  next l' = next l -> serving l' = serving l -> head_ok l' c s ->
  queue_ok l' (upd_stage stg c s) Q.
Proof.
  intros [] Hc Hs En Es Hh. destruct Q as [|x R]; [done|]. injection Hc as ->. unfold upd_stage.
  constructor; rewrite ?En, ?Es; try done.
  - intros c'. rewrite q_member0. case_decide as E; [|done]. subst c'. split; [done|].
    intros _. apply q_member0. by left.
  - rewrite decide_True by done. done.
  - intros j c' Hj Hc'. destruct j as [|j]; [lia|]. rewrite decide_False; [auto|].
    intros ->. cbn in Hc'. apply list.NoDup_cons in q_nodup0 as [Hn _]. apply Hn. by eapply list_elem_of_lookup_2.
Qed.

(** The head leaves and the next ticket is served. *)
Lemma queue_pop l stg Q c v :
  queue_ok l stg Q -> stg c = Storing v ->
  exists R, v = serving l /\ queue_ok (set_serving (u32 (v + 1)) l) (upd_stage stg c Outside) R.
Proof.
  intros HQ Hc. pose proof HQ as [].
  assert (Q !! 0%nat = Some c) as H0 by (apply (not_spinning_head l stg Q HQ); congruence).
  destruct Q as [|x R]; [done|]. injection H0 as ->. destruct q_head0 as [Ho Hv]. rewrite Hc in Ho, Hv.
  subst v. exists R. split; [done|]. apply list.NoDup_cons in q_nodup0 as [Hn Hd]. unfold upd_stage.
  apply Forall_cons_1 in q_small0 as [_ Hsm].
  assert (forall j c', R !! j = Some c' -> c' <> c /\ stg c' = Spinning (u32 (serving l + Z.of_nat (S j)))) as Hr.
  { intros j c' Hj. split; [intros ->; apply Hn; by eapply list_elem_of_lookup_2|]. apply q_rest0; [lia|done]. }
  constructor; cbn; try done.
  - intros c'. case_decide as E.
    + subst c'. naive_solver.
    + rewrite <- q_member0. set_solver.
  - destruct R as [|y R]; [done|]. destruct (Hr 0%nat y eq_refl) as [Hne Hy].
    rewrite decide_False by done. split; cbn; rewrite Hy; [done|]. f_equal. 
  - intros j c' Hj Hc'. destruct (Hr j c' Hc') as [Hne ->]. rewrite decide_False by done.
    f_equal. unfold u32. rewrite Zplus_mod_idemp_l. f_equal. lia.
  - rewrite q_next0. cbn [length]. unfold u32. rewrite Zplus_mod_idemp_l. f_equal. lia.
  - apply u32_bound.
Qed.

(** A processor that has not got a ticket and finds [next] at the value of
    [serving] it read finds the queue empty. *)
Lemma try_empty l stg Q sv sn :
  queue_ok l stg Q -> serving l = u32 sv -> sn <= sv -> sv + SMP_MAX_CPUS - sn < 2 ^ 32 ->
  next l = u32 sn -> Q = [].
Proof.
  intros HQ Es Hle Hb En. pose proof (tickets_bound _ _ _ HQ) as Hl.
  rewrite (q_next _ _ _ HQ), Es in En. unfold u32, SMP_MAX_CPUS in *. rewrite Zplus_mod_idemp_l in En.
  assert ((sv + Z.of_nat (length Q) - sn) mod 2 ^ 32 = 0) as Hm.
  { rewrite Zminus_mod, En, Z.sub_diag. done. }
  rewrite Z.mod_small in Hm by lia. destruct Q; [done|]. cbn in Hm. lia.
Qed.

(** *** The array of held locks *)

(** The first [count] entries are the locks held, each once. *)
Definition held_ok (m : held_locks) (f : nat -> Z) : Prop := lists_held 24 (held m) (count m) f.

Lemma held_ok_ext m m' f f' : held_ok m f -> held m' = held m -> count m' = count m ->
  (forall k, 0 < f' k <-> 0 < f k) -> held_ok m' f'.
Proof. intros H E1 E2 Hf. unfold held_ok. rewrite E1, E2. by eapply lists_held_ext. Qed.

Lemma remember_ok m f k v : held_ok m f -> count m < HELD_MAX -> f k = 0 -> 0 < v ->
  returns (remember m k) (fun m' =>
    held_ok m' (fun k' => if decide (k' = k) then v else f k')).
Proof.
  intros H Hc Hk Hv. unfold remember.
  eapply returns_bind; [by apply (remember_in_ok 24 _ _ f k v)|]. by intros [a n].
Qed.

Lemma forget_ok m f k : held_ok m f -> 0 < f k ->
  returns (forget m k) (fun m' => held_ok m' (fun k' => if decide (k' = k) then 0 else f k')).
Proof.
  intros H Hk. unfold forget. eapply returns_bind; [by apply (forget_in_ok 24 _ _ f k)|]. by intros [a n].
Qed.

(** ** The invariant *)

Definition cstage (w : world) (g : ghost) (k c : nat) : stage :=
  match cpus w !! c with
  | Some x => stage_of (cpu_pc x) (nest g c k) k
  | None => Outside
  end.

(** The processor is on its way into a lock. *)
Definition acquiring (p : pc) : bool :=
  match p with
  | AcqFetch _ | AcqSpin _ _ | TryCas _ _ | Enter _ | EnterDepth _ => true
  | _ => false
  end.

Record cpu_ok (w : world) (g : ghost) (c : nat) (x : cpu) : Prop := CpuOk {
  c_fresh : forall k, pc_lock (cpu_pc x) = Some k -> nest g c k = 0 /\ (k < length (locks w))%nat;
  c_held : held_ok (mine x) (nest g c);
  c_room : acquiring (cpu_pc x) = true -> count (mine x) < HELD_MAX;
  c_seen : forall k s, cpu_pc x = TryCas k s -> s = u32 (seen g c) /\ seen g c <= served g k;
  c_nest : forall k, 0 <= nest g c k < 2 ^ 32 /\ (0 < nest g c k -> (k < length (locks w))%nat) }.

Record lock_ok (w : world) (g : ghost) (k : nat) (l : lock) : Prop := LockOk {
  l_queue : exists Q, queue_ok l (cstage w g k) Q;
  l_depth : forall c, (c < length (cpus w))%nat -> 0 < nest g c k -> depth l = nest g c k;
  l_served : serving l = u32 (served g k) }.

Record linv (w : world) (g : ghost) : Prop := Linv {
  i_cpus : (length (cpus w) <= 256)%nat;
  i_cpu : forall c x, cpus w !! c = Some x -> cpu_ok w g c x;
  i_lock : forall k l, locks w !! k = Some l -> lock_ok w g k l }.

Lemma stage_other p p' n k k' : k' <> k ->
  (pc_lock p = None \/ pc_lock p = Some k) -> (pc_lock p' = None \/ pc_lock p' = Some k) ->
  stage_of p' n k' = stage_of p n k'.
Proof. intros Hk H H'. unfold stage_of. rewrite !decide_False; naive_solver. Qed.

(** The observations of a step of processor [c] about lock [k]. *)
Record moved (g g' : ghost) (c k : nat) (v : Z) : Prop := MovedBy {
  m_nest : forall c' k', nest g' c' k' = if decide (c' = c /\ k' = k) then v else nest g c' k';
  m_served : forall k', k' <> k -> served g' k' = served g k';
  m_mono : served g k <= served g' k;
  m_seen : forall c', c' <> c -> seen g' c' = seen g c' }.

(** A step that touches one lock and one processor. *)
Lemma frame w g g' c x x' k l l' v reps :
  linv w g -> cpus w !! c = Some x -> locks w !! k = Some l -> moved g g' c k v ->
  (pc_lock (cpu_pc x) = None \/ pc_lock (cpu_pc x) = Some k) ->
  (pc_lock (cpu_pc x') = None \/ pc_lock (cpu_pc x') = Some k) ->
  (forall Q, queue_ok l (cstage w g k) Q ->
     exists Q', queue_ok l' (upd_stage (cstage w g k) c (stage_of (cpu_pc x') v k)) Q') ->
  (pc_lock (cpu_pc x') = Some k -> v = 0) -> 0 <= v < 2 ^ 32 -> (0 < v -> depth l' = v) ->
  (depth l' = depth l \/ forall c', c' <> c -> (c' < length (cpus w))%nat -> nest g c' k <= 0) ->
  held_ok (mine x') (fun k' => if decide (k' = k) then v else nest g c k') ->
  (acquiring (cpu_pc x') = true -> count (mine x') < HELD_MAX) ->
  serving l' = u32 (served g' k) ->
  (forall s, cpu_pc x' = TryCas k s -> s = u32 (seen g' c) /\ seen g' c <= served g' k) ->
  linv (World (<[k := l']> (locks w)) (<[c := x']> (cpus w)) reps) g'.
Proof.
  intros H Hx Hl [Hn Hsv Hm Hsn] Hp Hp' Hq Hfr Hv Hd Hd' Hh Hroom Hser Htry.
  assert (c < length (cpus w))%nat as Hclt by (by eapply lookup_lt_Some).
  assert (k < length (locks w))%nat as Hklt by (by eapply lookup_lt_Some).
  set (w' := World _ _ _).
  assert (forall k' c', cstage w' g' k' c' =
    if decide (k' = k) then upd_stage (cstage w g k) c (stage_of (cpu_pc x') v k) c'
    else cstage w g k' c') as Hst.
  { intros k' c'. unfold cstage, upd_stage. cbn [w' cpus].
    destruct (decide (c' = c)) as [->|Hc].
    - rewrite list_lookup_insert_eq, Hn, Hx by done. destruct (decide (k' = k)) as [->|Hk].
      + by rewrite decide_True.
      + rewrite decide_False by naive_solver. by apply (stage_other _ _ _ k).
    - rewrite list_lookup_insert_ne by done. destruct (decide (k' = k)) as [->|Hk];
        destruct (cpus w !! c'); try done; by rewrite Hn, decide_False by naive_solver. }
  constructor.
  - cbn. rewrite length_insert. apply (i_cpus _ _ H).
  - intros c' y. cbn [w' cpus]. destruct (decide (c' = c)) as [->|Hc].
    + rewrite list_lookup_insert_eq by done. intros [= <-]. pose proof (i_cpu _ _ H c x Hx) as [].
      constructor; cbn [w' locks]; rewrite ?length_insert.
      * intros k' E. destruct Hp' as [E'|E']; [congruence|]. assert (k' = k) as -> by congruence.
        rewrite Hn, decide_True by done. auto.
      * eapply held_ok_ext; [exact Hh|done|done|]. intros k'. rewrite Hn.
        repeat case_decide; naive_solver.
      * done.
      * intros k' s E. assert (k' = k) as -> by (rewrite E in Hp'; cbn in Hp'; naive_solver). auto.
      * intros k'. rewrite Hn. destruct (c_nest0 k'). case_decide; naive_solver lia.
    + rewrite list_lookup_insert_ne by done. intros Hy. pose proof (i_cpu _ _ H c' y Hy) as [].
      assert (forall k', nest g' c' k' = nest g c' k') as En by (intros; by rewrite Hn, decide_False by naive_solver).
      constructor; cbn [w' locks]; rewrite ?length_insert; try done.
      * intros k' E. rewrite En. auto.
      * eapply held_ok_ext; [exact c_held0|done|done|]. intros k'. by rewrite En.
      * intros k' s E. rewrite Hsn by done. destruct (c_seen0 k' s E) as [-> ?]. split; [done|].
        destruct (decide (k' = k)) as [->|]; [lia|]. by rewrite Hsv.
      * intros k'. rewrite En. auto.
  - intros k' y. cbn [w' locks]. destruct (decide (k' = k)) as [->|Hk].
    + rewrite list_lookup_insert_eq by done. intros [= <-]. pose proof (i_lock _ _ H k l Hl) as [[Q HQ] Hdep Hs].
      constructor; [| |done].
      * destruct (Hq Q HQ) as [Q' HQ']. exists Q'. eapply queue_ext; try done.
        intros c'. by rewrite Hst, decide_True.
      * cbn. intros c'. rewrite length_insert, Hn. case_decide as E; [naive_solver|]. intros Hlt Hpos.
        destruct Hd' as [->|Hd']; [by apply Hdep|]. assert (c' <> c) as Hne by naive_solver. specialize (Hd' c' Hne Hlt). lia.
    + rewrite list_lookup_insert_ne by done. intros Hy. pose proof (i_lock _ _ H k' y Hy) as [[Q HQ] Hdep Hs].
      constructor.
      * exists Q. eapply queue_ext; try done. intros c'. by rewrite Hst, decide_False.
      * cbn. intros c'. rewrite length_insert, Hn. rewrite decide_False by naive_solver. auto.
      * by rewrite Hsv.
Qed.

Lemma moved_none g c k : moved g g c k (nest g c k).
Proof. constructor; try done. intros c' k'. by case_decide as E; [destruct E as [-> ->]|]. Qed.

Lemma moved_nest g c k v : moved g (set_nest g c k v) c k v.
Proof. by constructor. Qed.

Lemma moved_saw g c k : moved g (observe g c (Saw k)) c k (nest g c k).
Proof.
  constructor; try done.
  - intros c' k'. by case_decide as E; [destruct E as [-> ->]|].
  - intros c' Hc. cbn. by rewrite decide_False.
Qed.

Lemma moved_on g c k : moved g (observe g c (Moved k)) c k (nest g c k).
Proof.
  constructor; try done.
  - intros c' k'. by case_decide as E; [destruct E as [-> ->]|].
  - intros k' Hk. cbn. by rewrite decide_False.
  - cbn. rewrite decide_True by done. lia.
Qed.

(** The table of reports does not matter. *)
Lemma linv_reports w g n : linv w g -> linv (World (locks w) (cpus w) n) g.
Proof.
  intros [H1 H2 H3]. constructor; [done| |].
  - intros c x Hx. destruct (H2 c x Hx). by constructor.
  - intros k l Hl. destruct (H3 k l Hl). by constructor.
Qed.

Lemma held_ok_same m g c k : held_ok m (nest g c) ->
  held_ok m (fun k' => if decide (k' = k) then nest g c k else nest g c k').
Proof. intros H. eapply held_ok_ext; try done. intros k'. by case_decide; subst. Qed.

Lemma check_order_ok w g c x l : cpu_ok w g c x ->
  returns (check_order w (mine x) l) (fun w' => exists n, w' = World (locks w) (cpus w) n).
Proof.
  intros []. destruct c_held0 as (Hl & L & _ & Hc & Hb & Ht & HL). unfold check_order. rewrite Hc, Nat2Z.id.
  assert (forall n i, (i + n = length L)%nat ->
    returns (check_order_loop w (held (mine x)) (rank l) (Z.of_nat i) n)
      (fun w' => exists n, w' = World (locks w) (cpus w) n)) as Hgen; [|by apply (Hgen (length L) 0%nat)].
  induction n as [|n IH]; intros i Hi; cbn [check_order_loop].
  - exists (order_reports w). by destruct w.
  - destruct (lookup_lt_is_Some_2 L i ltac:(lia)) as [k Hk].
    assert (held (mine x) !! i = Some k) as Hik by (rewrite <- Hk, <- Ht at 1; by rewrite lookup_take_lt by lia).
    rewrite (rd_lookup _ _ k), bind_ret by (lia || by rewrite Nat2Z.id).
    assert (k < length (locks w))%nat as Hlt by (apply (c_nest0 k), HL; by eapply list_elem_of_lookup_2).
    destruct (lookup_lt_is_Some_2 _ _ Hlt) as [o Ho]. unfold get_lock. rewrite Ho, bind_ret.
    destruct (_ <=? _); [|by eexists]. replace (Z.of_nat i + 1) with (Z.of_nat (S i)) by lia. apply IH. lia.
Qed.

Section steps.
Context (w : world) (g : ghost) (c : nat) (x : cpu) (k : nat) (l : lock).
Hypothesis (H : linv w g) (Hx : cpus w !! c = Some x) (Hl : locks w !! k = Some l).

Lemma stage_idle : cpu_pc x = Idle -> cstage w g k c = if 0 <? nest g c k then Inside else Outside.
Proof using Hx. intros E. unfold cstage. by rewrite Hx, E. Qed.

Lemma cpu_small : (c < 256)%nat.
Proof using H Hx. pose proof (lookup_lt_Some _ _ _ Hx). pose proof (i_cpus _ _ H). lia. Qed.

Lemma queue_of : exists Q, queue_ok l (cstage w g k) Q.
Proof using H Hl. apply (i_lock _ _ H k l Hl). Qed.

(** At the top of the functions, [owner] tells whether the caller is in. *)
Lemma idle_owner : cpu_pc x = Idle -> owner l = self_id c <-> 0 < nest g c k.
Proof using H Hx Hl.
  intros E. destruct queue_of as [Q HQ]. rewrite (owner_spec _ _ _ HQ), (stage_idle E).
  destruct (Z.ltb_spec 0 (nest g c k)); cbn; split; (done || lia).
Qed.

(** Nobody else is inside when the processor is past its spinning. *)
Lemma alone : (forall t, cstage w g k c <> Spinning t) -> cstage w g k c <> Outside ->
  forall c', c' <> c -> (c' < length (cpus w))%nat -> nest g c' k <= 0.
Proof using H Hl.
  intros Hs Ho c' Hc Hlt. destruct queue_of as [Q HQ].
  destruct (lookup_lt_is_Some_2 _ _ Hlt) as [y Hy]. apply Z.nlt_ge. intros Hpos.
  assert (cstage w g k c' = Inside) as E.
  { unfold cstage, stage_of. rewrite Hy. rewrite decide_False.
    - by replace (0 <? nest g c' k) with true by lia.
    - intros E. destruct (c_fresh _ _ _ _ (i_cpu _ _ H c' y Hy) k E). lia. }
  assert (Q !! 0%nat = Some c) as H0 by (by apply (not_spinning_head _ _ _ HQ)).
  assert (Q !! 0%nat = Some c') as H1 by (apply (not_spinning_head _ _ _ HQ); congruence).
  congruence.
Qed.

(** Steps that leave the lock's words to itself. *)
Lemma frame_cpu g' x' reps :
  moved g g' c k (nest g c k) -> served g' k = served g k ->
  (pc_lock (cpu_pc x) = None \/ pc_lock (cpu_pc x) = Some k) ->
  (pc_lock (cpu_pc x') = None \/ pc_lock (cpu_pc x') = Some k) ->
  (forall Q, queue_ok l (cstage w g k) Q ->
     exists Q', queue_ok l (upd_stage (cstage w g k) c (stage_of (cpu_pc x') (nest g c k) k)) Q') ->
  (pc_lock (cpu_pc x') = Some k -> nest g c k = 0) -> mine x' = mine x ->
  (acquiring (cpu_pc x') = true -> count (mine x) < HELD_MAX) ->
  (forall s, cpu_pc x' = TryCas k s -> s = u32 (seen g' c) /\ seen g' c <= served g' k) ->
  linv (World (locks w) (<[c := x']> (cpus w)) reps) g'.
Proof using H Hx Hl.
  intros Hm Hsv Hp Hp' Hq Hf Em Hr Ht. rewrite <- (list_insert_id (locks w) k l Hl).
  pose proof (i_cpu _ _ H c x Hx) as Hcpu.
  pose proof (i_lock _ _ H k l Hl) as [_ Hd Hs]. pose proof (c_nest _ _ _ _ Hcpu k) as [Hn _].
  eapply (frame w g g' c x x' k l l (nest g c k)); try done.
  - intros Hpos. apply Hd; [by eapply lookup_lt_Some|done].
  - by left.
  - rewrite Em. apply held_ok_same, (c_held _ _ _ _ Hcpu).
  - by rewrite Em.
  - by rewrite Hsv.
Qed.

(** Steps that leave the processor where it is, inside the lock. *)
Lemma frame_depth v d reps : cpu_pc x = Idle -> 0 < nest g c k -> 0 < v < 2 ^ 32 -> d = v ->
  linv (World (<[k := set_depth d l]> (locks w)) (cpus w) reps) (set_nest g c k v).
Proof using H Hx Hl.
  intros Hp Hpos Hv ->. rewrite <- (list_insert_id (cpus w) c x Hx) at 1.
  pose proof (i_cpu _ _ H c x Hx) as []. pose proof (i_lock _ _ H k l Hl) as [_ _ Hs].
  assert (cstage w g k c = Inside) as Hin.
  { rewrite (stage_idle Hp). by replace (0 <? nest g c k) with true by lia. }
  eapply (frame w g _ c x x k l _ v); try done; rewrite ?Hp; cbn; auto; try lia; try done.
  - intros Q HQ. exists Q. eapply queue_ext; try done. intros c'. unfold upd_stage. case_decide as E; [|done].
    rewrite E, Hin. unfold stage_of. cbn. by replace (0 <? v) with true by lia.
  - right. apply alone; rewrite ?Hin; done.
  - eapply held_ok_ext; try done. intros k'. case_decide; [subst; lia|done].
Qed.

(** Giving the lock back for the last time. *)
Lemma final_release reps : cpu_pc x = Idle -> 0 < nest g c k ->
  returns (forget (mine x) k) (fun m =>
    linv (World (<[k := set_depth 0 l]> (locks w)) (<[c := Cpu (RelOwner k) m]> (cpus w)) reps) (set_nest g c k 0)).
Proof using H Hx Hl.
  intros Hp Hpos. pose proof (i_cpu _ _ H c x Hx) as []. pose proof (i_lock _ _ H k l Hl) as [_ _ Hs].
  assert (cstage w g k c = Inside) as Hin.
  { rewrite (stage_idle Hp). by replace (0 <? nest g c k) with true by lia. }
  eapply returns_mono; [by apply (forget_ok (mine x) (nest g c) k)|]. intros m Hm.
  eapply (frame w g _ c x _ k l _ 0); try done; rewrite ?Hp; cbn; auto; try lia; try done.
  - intros Q HQ. exists Q.
    assert (Q !! 0%nat = Some c) as H0 by (apply (not_spinning_head _ _ _ HQ); congruence).
    unfold stage_of. rewrite decide_True by done. eapply queue_head; try done. split; [|done]. cbn.
    apply (owner_spec _ _ _ HQ). by rewrite Hin.
  - right. apply alone; rewrite ?Hin; done.
Qed.

Lemma upd_same s : cstage w g k c = s -> forall c', upd_stage (cstage w g k) c s c' = cstage w g k c'.
Proof using Type. intros E c'. unfold upd_stage. case_decide; congruence. Qed.
End steps.

Definition good (g : ghost) (c : nat) (r : world * event) : Prop := linv r.1 (observe g c r.2).

Section calls.
Context (w : world) (g : ghost) (c : nat) (x : cpu) (k : nat) (l : lock).
Hypothesis (H : linv w g) (Hx : cpus w !! c = Some x) (Hl : locks w !! k = Some l) (Hp : cpu_pc x = Idle).

Lemma stage_out : nest g c k = 0 -> cstage w g k c = Outside.
Proof using Hx Hp. intros E. by rewrite (stage_idle w g c x k Hx Hp), E. Qed.

Lemma not_in : owner l <> self_id c -> nest g c k = 0.
Proof using H Hx Hl Hp.
  intros E. pose proof (c_nest _ _ _ _ (i_cpu _ _ H c x Hx) k) as [Hn _].
  destruct (decide (0 < nest g c k)); [|lia]. destruct E. by apply (idle_owner w g c x k l).
Qed.

Lemma depth_nest : 0 < nest g c k -> depth l = nest g c k /\ 0 <= depth l < 2 ^ 32.
Proof using H Hx Hl.
  intros Hpos. pose proof (c_nest _ _ _ _ (i_cpu _ _ H c x Hx) k) as [Hn _].
  assert (depth l = nest g c k) as -> by (apply (i_lock _ _ H k l Hl); [by eapply lookup_lt_Some|done]). done.
Qed.

Lemma again_ok : owner l = self_id c -> nest g c k + 1 < 2 ^ 32 ->
  good g c (put_lock w k (set_depth (u32 (depth l + 1)) l), Took k).
Proof using H Hx Hl Hp.
  intros E Hb. apply (idle_owner w g c x k l) in E; try done. destruct (depth_nest E) as [Ed Hd].
  unfold good. cbn. apply (frame_depth w g c x k l); try done; [lia|]. rewrite Ed. apply u32_small. lia.
Qed.

(** Going on to a place outside the lock's queue. *)
Lemma start_ok p e reps : owner l <> self_id c -> pc_lock p = Some k ->
  stage_of p 0 k = Outside -> count (mine x) < HELD_MAX ->
  (e = Silent \/ e = Saw k) ->
  (forall s, p = TryCas k s -> e = Saw k /\ s = serving l) ->
  good g c (World (locks w) (<[c := goto p x]> (cpus w)) reps, e).
Proof using H Hx Hl Hp.
  intros E Hk Hs Hc He Ht. pose proof (not_in E) as Hn. unfold good. cbn [fst snd].
  assert (moved g (observe g c e) c k (nest g c k)) as Hm.
  { destruct He as [->| ->]; [apply moved_none|apply moved_saw]. }
  eapply (frame_cpu w g c x k l); try done; rewrite ?Hp; auto.
  - by destruct He as [->| ->].
  - intros Q HQ. exists Q. eapply queue_ext; try done. intros c'. cbn. rewrite Hn, Hs.
    apply upd_same. by apply stage_out.
  - intros s Es. cbn in Es. destruct (Ht s Es) as [-> ->]. cbn. rewrite decide_True by done.
    split; [apply (i_lock _ _ H k l Hl)|lia].
Qed.

Lemma acquire_ok : count (mine x) < HELD_MAX -> nest g c k + 1 < 2 ^ 32 ->
  returns (lock_acquire w c k) (good g c).
Proof using H Hx Hl Hp.
  intros Hc Hb. unfold lock_acquire, get_cpu, get_lock. rewrite Hx, bind_ret, Hl, bind_ret.
  destruct (Z.eqb_spec (owner l) (self_id c)); [by apply again_ok|].
  eapply returns_bind; [by eapply check_order_ok, (i_cpu _ _ H)|]. intros w' [n0 ->].
  apply start_ok; try done; [|by left]. cbn. unfold stage_of. by rewrite decide_True.
Qed.

Lemma try_ok : count (mine x) < HELD_MAX -> nest g c k + 1 < 2 ^ 32 ->
  returns (lock_try_acquire w c k) (good g c).
Proof using H Hx Hl Hp.
  intros Hc Hb. unfold lock_try_acquire, get_cpu, get_lock. rewrite Hx, bind_ret, Hl, bind_ret.
  destruct (Z.eqb_spec (owner l) (self_id c)); [by apply again_ok|].
  apply start_ok; try done; [|by right|].
  - cbn. unfold stage_of. by rewrite decide_True.
  - by intros s [= ->].
Qed.

Lemma release_ok : returns (lock_release w c k) (good g c).
Proof using H Hx Hl Hp.
  unfold lock_release, get_cpu, get_lock. rewrite Hx, bind_ret, Hl, bind_ret.
  destruct (Z.eqb_spec (owner l) (self_id c)) as [E|]; [|done]. cbn [negb].
  apply (idle_owner w g c x k l) in E; try done. destruct (depth_nest E) as [Ed Hd].
  cbn [depth set_depth]. rewrite u32_small by lia.
  destruct (Z.eqb_spec (depth l - 1) 0) as [E0|E0]; cbn [negb].
  - eapply returns_bind; [by apply (final_release w g c x k l H Hx Hl (order_reports w))|].
    intros m Hm. cbn [returns]. unfold good, put_cpu, put_lock. cbn. rewrite E0.
    by replace (nest g c k - 1) with 0 by lia.
  - cbn [returns]. unfold good. cbn. apply (frame_depth w g c x k l); (done || lia).
Qed.

Lemma drop_ok : returns (lock_drop w c k) (good g c).
Proof using H Hx Hl Hp.
  unfold lock_drop, lock_held, get_lock. rewrite Hl, !bind_ret.
  destruct (Z.eqb_spec (owner l) (self_id c)) as [E|]; [|done]. cbn [negb]. rewrite ?bind_ret.
  unfold lock_release, get_cpu, get_lock. cbn [cpus put_lock locks]. rewrite Hx, bind_ret.
  rewrite list_lookup_insert_eq, bind_ret by (by eapply lookup_lt_Some). cbn [owner set_depth depth].
  rewrite E, Z.eqb_refl. cbn [negb]. change (u32 (1 - 1)) with 0. cbn [Z.eqb negb].
  apply (idle_owner w g c x k l) in E; try done.
  destruct (forget (mine x) k) as [m| |] eqn:Em; cbn;
    pose proof (final_release w g c x k l H Hx Hl (order_reports w) Hp E) as Hf; rewrite Em in Hf; try done.
  unfold good, put_cpu, put_lock. cbn. by rewrite list_insert_insert_eq.
Qed.

Lemma set_depth_ok d : 0 <= d < 2 ^ 32 -> returns (lock_set_depth w c k d) (good g c).
Proof using H Hx Hl Hp.
  intros Hd. unfold lock_set_depth, lock_held, get_lock. rewrite !Hl, !bind_ret.
  destruct (Z.eqb_spec (owner l) (self_id c)) as [E|]; [|done].
  destruct (Z.eqb_spec d 0); [done|]. cbn. apply (idle_owner w g c x k l) in E; try done.
  unfold good. cbn. apply (frame_depth w g c x k l); (done || lia).
Qed.
End calls.

(** *** The steps between the calls and their returns *)

Section inner_steps.
Context (w : world) (g : ghost) (c : nat) (x : cpu) (k : nat) (l : lock).
Hypothesis (H : linv w g) (Hx : cpus w !! c = Some x) (Hl : locks w !! k = Some l).

Lemma stage_at s : pc_lock (cpu_pc x) = Some k -> stage_of (cpu_pc x) 0 k = s -> cstage w g k c = s.
Proof using H Hx.
  intros Hk Hs. unfold cstage. rewrite Hx.
  destruct (c_fresh _ _ _ _ (i_cpu _ _ H c x Hx) k Hk) as [-> _]. done.
Qed.

(** The processor moves on, the lock's words may change, nothing is observed. *)
Lemma inner_ok l' p' g' :
  pc_lock (cpu_pc x) = Some k -> (pc_lock p' = None \/ pc_lock p' = Some k) ->
  (forall s, p' <> TryCas k s) ->
  (acquiring p' = true -> acquiring (cpu_pc x) = true) -> depth l' = depth l ->
  (forall Q, queue_ok l (cstage w g k) Q ->
     exists Q', queue_ok l' (upd_stage (cstage w g k) c (stage_of p' 0 k)) Q') ->
  moved g g' c k (nest g c k) -> serving l' = u32 (served g' k) ->
  linv (World (<[k := l']> (locks w)) (<[c := goto p' x]> (cpus w)) (order_reports w)) g'.
Proof using H Hx Hl.
  intros Hk Hp' Ht Ha Hd Hq Hm Hs. pose proof (i_cpu _ _ H c x Hx) as Hcpu.
  destruct (c_fresh _ _ _ _ Hcpu k Hk) as [Hn _]. rewrite Hn in Hm.
  eapply (frame w g g' c x _ k l l' 0); try done; auto.
  - rewrite <- Hn. apply held_ok_same, (c_held _ _ _ _ Hcpu).
  - intros E. apply (c_room _ _ _ _ Hcpu). auto.
  - intros s E. by destruct (Ht s).
Qed.

Lemma fetch_ok : cpu_pc x = AcqFetch k ->
  good g c (put_cpu (put_lock w k (set_next (u32 (next l + 1)) l)) c (goto (AcqSpin k (next l)) x), Silent).
Proof using H Hx Hl.
  intros Hp. unfold good. cbn. apply inner_ok; rewrite ?Hp; auto; try done.
  - intros Q HQ. exists (Q ++ [c]). unfold stage_of. rewrite decide_True by done.
    apply queue_push; try done; [apply stage_at; rewrite Hp; [done|]|by apply (cpu_small w g c x)|].
    + unfold stage_of. by rewrite decide_True.
    + intros ->. rewrite (q_next _ _ _ HQ). cbn. rewrite Z.add_0_r, u32_small by apply HQ. done.
  - apply moved_none.
  - apply (i_lock _ _ H k l Hl).
Qed.

Lemma spin_ok t : cpu_pc x = AcqSpin k t -> serving l = t ->
  good g c (put_cpu w c (goto (Enter k) x), Silent).
Proof using H Hx Hl.
  intros Hp <-. unfold good. cbn. unfold put_cpu. rewrite <- (list_insert_id (locks w) k l Hl).
  assert (cstage w g k c = Spinning (serving l)) as Hst.
  { apply stage_at; rewrite Hp; [done|]. unfold stage_of. by rewrite decide_True. }
  apply inner_ok; rewrite ?Hp; auto; try done.
  - intros Q HQ. exists Q. unfold stage_of. rewrite decide_True by done.
    pose proof (serving_is_head _ _ _ HQ c Hst) as H0. eapply queue_head; try done.
    split; [|done]. pose proof (q_head _ _ _ HQ) as Hh. destruct Q as [|y R]; [done|]. injection H0 as ->.
    destruct Hh as [-> _]. by rewrite Hst.
  - apply moved_none.
  - apply (i_lock _ _ H k l Hl).
Qed.

Lemma cas_ok s : cpu_pc x = TryCas k s -> served g k + SMP_MAX_CPUS - seen g c < 2 ^ 32 -> next l = s ->
  good g c (put_cpu (put_lock w k (set_next (u32 (s + 1)) l)) c (goto (Enter k) x), Silent).
Proof using H Hx Hl.
  intros Hp Hb <-. unfold good. cbn.
  destruct (c_seen _ _ _ _ (i_cpu _ _ H c x Hx) k (next l) Hp) as [Es Hle].
  pose proof (i_lock _ _ H k l Hl) as [_ _ Hsv].
  apply inner_ok; rewrite ?Hp; auto; try done.
  - intros Q HQ. assert (Q = []) as -> by (by eapply try_empty). exists [c].
    unfold stage_of. rewrite decide_True by done. apply (queue_push l _ []); try done.
    + apply stage_at; rewrite Hp; [done|]. unfold stage_of. by rewrite decide_True.
    + by apply (cpu_small w g c x).
  - apply moved_none.
Qed.

Lemma cas_failed s : cpu_pc x = TryCas k s -> good g c (put_cpu w c (goto Idle x), Busy k).
Proof using H Hx Hl.
  intros Hp. unfold good. cbn. unfold put_cpu. rewrite <- (list_insert_id (locks w) k l Hl).
  apply inner_ok; rewrite ?Hp; auto; try done.
  - intros Q HQ. exists Q. eapply queue_ext; try done. intros c'. apply upd_same.
    apply stage_at; rewrite Hp; [done|]. unfold stage_of. by rewrite decide_True.
  - apply moved_none.
  - apply (i_lock _ _ H k l Hl).
Qed.

(** The three steps of the head that store or clear [owner], and its load. *)
Lemma head_step p s l' p' s' :
  cpu_pc x = p -> pc_lock p = Some k -> stage_of p 0 k = s -> (forall t, s <> Spinning t) -> s <> Outside ->
  pc_lock p' = Some k -> stage_of p' 0 k = s' -> s' <> Outside -> (forall t, s' <> Spinning t) ->
  (acquiring p' = true -> acquiring p = true) -> (forall v, p' <> TryCas k v) ->
  (forall v, s' = Storing v -> v = serving l) ->
  next l' = next l -> serving l' = serving l -> depth l' = depth l ->
  owner l' = (if owns s' then self_id c else 0) ->
  good g c (put_cpu (put_lock w k l') c (goto p' x), Silent).
Proof using H Hx Hl.
  intros Hp Hk Hs Hns Hno Hk' Hs' Hno' Hns' Ha Ht Hv En Es Ed Eo. unfold good. cbn. subst p.
  pose proof (stage_at _ Hk Hs) as Hst. apply inner_ok; auto.
  - intros Q HQ. exists Q. rewrite Hs'. eapply queue_head; try done.
    + apply (not_spinning_head _ _ _ HQ); rewrite Hst; done.
    + split; [done|]. destruct s'; try done; [by destruct (Hns' ticket)|]. rewrite Es. auto.
  - apply moved_none.
  - rewrite Es. apply (i_lock _ _ H k l Hl).
Qed.

Lemma enter_depth_ok : cpu_pc x = EnterDepth k ->
  returns (m ← remember (mine x) k; Ret (put_cpu (put_lock w k (set_depth 1 l)) c (Cpu Idle m), Took k)) (good g c).
Proof using H Hx Hl.
  intros Hp. pose proof (i_cpu _ _ H c x Hx) as Hcpu. pose proof Hcpu as [].
  assert (nest g c k = 0 /\ acquiring (cpu_pc x) = true) as [Hn Ha]
    by (rewrite Hp in *; split; [by apply c_fresh0|done]).
  assert (cstage w g k c = Entered) as Hst.
  { apply stage_at; rewrite Hp; [done|]. unfold stage_of. by rewrite decide_True. }
  eapply returns_bind; [by apply (remember_ok (mine x) (nest g c) k 1); auto|]. intros m Hm.
  cbn [returns]. unfold good. cbn. rewrite Hn.
  eapply (frame w g _ c x _ k l _ (0 + 1)); try done; rewrite ?Hp; cbn; auto; try done; try lia.
  - intros Q HQ. exists Q. unfold stage_of. cbn. eapply queue_head; try done.
    + apply (not_spinning_head _ _ _ HQ); congruence.
    + split; [|done]. apply (owner_spec _ _ _ HQ). by rewrite Hst.
  - right. apply (alone w g c k l); try done; congruence.
  - apply (i_lock _ _ H k l Hl).
Qed.

Lemma store_ok s : cpu_pc x = RelStore k s ->
  good g c (put_cpu (put_lock w k (set_serving (u32 (s + 1)) l)) c (goto Idle x), Moved k).
Proof using H Hx Hl.
  intros Hp. assert (cstage w g k c = Storing s) as Hst.
  { apply stage_at; rewrite Hp; [done|]. unfold stage_of. by rewrite decide_True. }
  unfold good. cbn [fst snd]. apply inner_ok; rewrite ?Hp; auto; try done.
  - intros Q HQ. destruct (queue_pop _ _ _ _ _ HQ Hst) as (R & _ & HR). by exists R.
  - apply moved_on.
  - cbn. rewrite decide_True by done. destruct (queue_of w g k l H Hl) as [Q HQ].
    destruct (queue_pop _ _ _ _ _ HQ Hst) as (_ & -> & _).
    rewrite (l_served _ _ _ _ (i_lock _ _ H k l Hl)). unfold u32. apply Zplus_mod_idemp_l.
Qed.
End inner_steps.

Lemma quiet_ok w g c x m : linv w g -> cpus w !! c = Some x -> cpu_pc x = Idle ->
  held m = held (mine x) -> count m = count (mine x) ->
  linv (World (locks w) (<[c := Cpu Idle m]> (cpus w)) (u32 (order_reports w + 1))) g.
Proof.
  intros H Hx Hp E1 E2. pose proof (lookup_lt_Some _ _ _ Hx) as Hlt.
  assert (forall k c', cstage (World (locks w) (<[c := Cpu Idle m]> (cpus w)) (u32 (order_reports w + 1))) g k c' =
    cstage w g k c') as Hst.
  { intros k c'. unfold cstage. cbn. destruct (decide (c' = c)) as [->|].
    - by rewrite list_lookup_insert_eq, Hx, Hp by done.
    - by rewrite list_lookup_insert_ne by done. }
  constructor; cbn [cpus locks].
  - rewrite length_insert. apply (i_cpus _ _ H).
  - intros c' y. destruct (decide (c' = c)) as [->|].
    + rewrite list_lookup_insert_eq by done. intros [= <-].
      destruct (i_cpu _ _ H c x Hx). constructor; try done. by eapply held_ok_ext.
    + rewrite list_lookup_insert_ne by done. intros Hy. destruct (i_cpu _ _ H c' y Hy). by constructor.
  - intros k l Hl. destruct (i_lock _ _ H k l Hl) as [[Q HQ] Hd Hs]. constructor; [|cbn; by rewrite length_insert|done].
    exists Q. by eapply queue_ext.
Qed.

(** The first held lock can be named. *)
Lemma first_held w g c x : cpu_ok w g c x -> count (mine x) <> 0 ->
  exists k l, rd (held (mine x)) 0 = Ret k /\ locks w !! k = Some l.
Proof.
  intros [] Hc. destruct c_held0 as (Hl & L & _ & Hn & _ & Ht & HL).
  destruct L as [|k L]; [cbn in Hn; lia|].
  assert (k < length (locks w))%nat as Hlt by (apply (c_nest0 k), HL; by left).
  destruct (lookup_lt_is_Some_2 _ _ Hlt) as [l Hk]. exists k, l. split; [|done].
  apply rd_lookup; [lia|]. destruct (held (mine x)) as [|y R]; [done|]. cbn in Ht. by injection Ht as ->.
Qed.

(** Every step is defined and keeps the invariant. *)
Lemma cpu_step_ok w g c what : linv w g -> admissible w g c what -> returns (cpu_step w c what) (good g c).
Proof.
  intros H Had. unfold admissible in Had. destruct (cpus w !! c) as [x|] eqn:Hx; [|done].
  pose proof (i_cpu _ _ H c x Hx) as Hcpu. unfold cpu_step, get_cpu. rewrite Hx, bind_ret.
  assert (forall k, pc_lock (cpu_pc x) = Some k -> exists l, locks w !! k = Some l) as Hget.
  { intros k Hk. apply lookup_lt_is_Some_2. by apply (c_fresh _ _ _ _ Hcpu). }
  destruct (cpu_pc x) as [|k|k t|k s|k|k|k|k|k s] eqn:Hp;
    [|destruct (Hget k eq_refl) as [l Hl]; unfold get_lock; rewrite Hl, bind_ret..].
  - destruct what as [k|k|k|k|k d| |];
      [destruct Had as (Hk & Hc & Hb)|destruct Had as (Hk & Hc & Hb)|rename Had into Hk|rename Had into Hk
      |destruct Had as (Hk & Hd)| |];
      try (destruct (lookup_lt_is_Some_2 _ _ Hk) as [l Hl]).
    + by apply (acquire_ok w g c x k l).
    + by apply (try_ok w g c x k l).
    + by apply (release_ok w g c x k l).
    + by apply (drop_ok w g c x k l).
    + by apply (set_depth_ok w g c x k l).
    + unfold lock_check_released, get_cpu. rewrite Hx, bind_ret.
      destruct (Z.eqb_spec (count (mine x)) 0) as [|Hc]; [done|].
      destruct (reported (mine x)); [done|]. destruct (_ <? _); [|by apply linv_reports].
      destruct (first_held w g c x Hcpu Hc) as (k & l & -> & Hl). unfold get_lock. rewrite bind_ret, Hl, bind_ret.
      rewrite Hp. by apply (quiet_ok w g c x).
    + unfold lock_report_sleep, get_cpu. rewrite Hx, bind_ret.
      destruct (_ <=? _); [by apply linv_reports|].
      destruct (Z.eqb_spec (count (mine x)) 0) as [|Hc]; [by apply linv_reports|].
      destruct (first_held w g c x Hcpu Hc) as (k & l & -> & Hl). unfold get_lock. rewrite bind_ret, Hl, bind_ret.
      by apply linv_reports.
  - by apply (fetch_ok w g c x k l).
  - destruct (Z.eqb_spec (serving l) t); [by eapply (spin_ok w g c x k l)|done].
  - destruct (Z.eqb_spec (next l) s); [by apply (cas_ok w g c x k l)|by eapply (cas_failed w g c x k l)].
  - eapply (head_step w g c x k l); try done; unfold stage_of; by rewrite decide_True.
  - by apply (enter_depth_ok w g c x k l).
  - eapply (head_step w g c x k l); try done; unfold stage_of; by rewrite decide_True.
  - replace w with (put_lock w k l) at 1 by (destruct w; unfold put_lock; cbn in *; by rewrite list_insert_id).
    apply (head_step w g c x k l H Hx Hl (RelLoad k) Left l (RelStore k (serving l)) (Storing (serving l)));
      try done; try (unfold stage_of; by rewrite decide_True).
    + by intros v [= ->].
    + destruct (queue_of w g k l H Hl) as [Q HQ].
      assert (cstage w g k c = Left) as Hst.
      { apply (stage_at w g c x k H Hx); rewrite Hp; [done|]. unfold stage_of. by rewrite decide_True. }
      assert (Q !! 0%nat = Some c) as H0 by (apply (not_spinning_head _ _ _ HQ); congruence).
      pose proof (q_head _ _ _ HQ) as Hh. destruct Q as [|y R]; [done|]. injection H0 as ->.
      destruct Hh as [-> _]. by rewrite Hst.
  - by apply (store_ok w g c x k l).
Qed.

Lemma linv_boot ranks n : (n <= 256)%nat -> linv (boot ranks n) ghost0.
Proof.
  intros Hn. constructor; cbn.
  - by rewrite length_replicate.
  - intros c x [-> _]%lookup_replicate. constructor; cbn; try done.
    split; [done|]. exists []. split_and!; try done; [constructor|cbn; lia|].
    intros k. split; [intros Hk; inversion Hk|done].
  - intros k l Hl. rewrite list_lookup_fmap in Hl. destruct (ranks !! k); [|done]. injection Hl as <-.
    constructor; [|cbn; intros; done|done]. exists []. constructor; cbn; try done; [constructor|].
    intros c. split; [intros Hc; inversion Hc|]. unfold cstage. cbn.
    destruct (replicate n _ !! c) eqn:E; [|done]. by apply lookup_replicate in E as [-> _].
Qed.

Lemma lock_steps_inv a b : rtc lock_step a b -> linv a.1 a.2 -> linv b.1 b.2.
Proof.
  induction 1 as [|a b c (i & what & e & Had & Hs & ->) _ IH]; [done|]. intros Ha. apply IH.
  pose proof (cpu_step_ok _ _ _ _ Ha Had) as Hg. by rewrite Hs in Hg.
Qed.

Lemma runs_inv ranks n w g : runs ranks n w g -> linv w g.
Proof. intros [Hn Hr]. exact (lock_steps_inv _ _ Hr (linv_boot ranks n Hn)). Qed.

(** *** A step touches no other processor *)

Lemma bind_inv {A B} (r : res A) (f : A -> res B) b : (r ≫= f) = Ret b -> exists a, r = Ret a /\ f a = Ret b.
Proof. destruct r; [|done..]. intros E. by eexists. Qed.

Ltac inv_step :=
  repeat match goal with
  | E : (_ ≫= _) = Ret _ |- _ => apply bind_inv in E as (? & ? & E)
  | E : Ret _ = Ret _ |- _ => injection E as E; subst
  | E : (_, _) = (_, _) |- _ => injection E as E; subst
  | E : context [if ?b then _ else _] |- _ => destruct b
  | E : context [match ?b with _ => _ end] |- _ => destruct b
  | E : Fault = Ret _ |- _ => discriminate E
  end.

Lemma check_order_cpus w m r i n w' : check_order_loop w m r i n = Ret w' -> cpus w' = cpus w.
Proof. revert i. induction n as [|n IH]; intros i E; cbn in E; inv_step; eauto. Qed.

Lemma release_cpus w c k w' e : lock_release w c k = Ret (w', e) ->
  forall c', c' <> c -> cpus w' !! c' = cpus w !! c'.
Proof.
  unfold lock_release. intros E c' Hc. inv_step; try done. cbn. by rewrite list_lookup_insert_ne.
Qed.

Lemma step_cpus w c what w' e : cpu_step w c what = Ret (w', e) ->
  forall c', c' <> c -> cpus w' !! c' = cpus w !! c'.
Proof.
  unfold cpu_step. intros E c' Hc. apply bind_inv in E as (x & Ex & E).
  destruct (cpu_pc x); [destruct what|..];
    [| |by eapply release_cpus in E| | | |
     |inv_step; cbn; rewrite ?list_lookup_insert_ne by done; done..].
  - unfold lock_acquire in E. inv_step; cbn; [done|].
    match goal with H : check_order _ _ _ = Ret _ |- _ => apply check_order_cpus in H as -> end.
    by rewrite list_lookup_insert_ne.
  - unfold lock_try_acquire in E. inv_step; cbn; [done|]. by rewrite list_lookup_insert_ne.
  - unfold lock_drop in E. apply bind_inv in E as (h & _ & E). destruct (negb h); [by inv_step|].
    apply bind_inv in E as (l & _ & E). apply bind_inv in E as ([w1 e1] & E1 & E).
    eapply release_cpus in E1; [|done]. inv_step. by rewrite E1.
  - unfold lock_set_depth in E. by inv_step.
  - unfold lock_check_released in E. inv_step; cbn; rewrite ?list_lookup_insert_ne by done; done.
  - unfold lock_report_sleep in E. by inv_step.
Qed.

(** ** Theorems *)

(** Processors ahead of a waiting one. *)
Definition ahead (l : lock) (ticket : Z) : Z := u32 (ticket - serving l).

(** C4. The spinlock excludes: in every state that processors reach by
    interleaving [lock_acquire], [lock_try_acquire], [lock_release],
    [lock_drop] and [lock_set_depth] access by access, at most one processor
    is between taking a lock and giving it back; [lock_held] and [lock_depth]
    tell the caller the truth; the array of held locks lists exactly what the
    processor holds; and every further step is defined. *)
Theorem spinlock_mutual_exclusion (ranks : list Z) (ncpus : nat) (w : world) (g : ghost) :
  runs ranks ncpus w g ->
  (forall k c1 c2, (k < length (locks w))%nat -> (c1 < length (cpus w))%nat -> (c2 < length (cpus w))%nat ->
     0 < nest g c1 k -> 0 < nest g c2 k -> c1 = c2) /\
  (forall c x k, cpus w !! c = Some x -> cpu_pc x = Idle -> (k < length (locks w))%nat ->
     lock_held w c k = Ret (0 <? nest g c k) /\ lock_depth w c k = Ret (nest g c k)) /\
  (forall c, (c < length (cpus w))%nat -> exists L, NoDup L /\ (forall k, k ∈ L <-> 0 < nest g c k) /\
     lock_depth_here w c = Ret (Z.of_nat (length L)) /\
     lock_only_holds w c None = Ret (bool_decide (L = [])) /\
     forall k, lock_only_holds w c (Some k) = Ret (bool_decide (L = [k]))) /\
  (forall c what, admissible w g c what -> returns (cpu_step w c what) (fun _ => True)).
Proof.
  intros H%runs_inv. split_and!.
  - intros k c1 c2 Hk H1 H2 Hp1 Hp2. destruct (lookup_lt_is_Some_2 _ _ Hk) as [l Hl].
    destruct (decide (c1 = c2)) as [|Hne]; [done|]. exfalso.
    destruct (lookup_lt_is_Some_2 _ _ H1) as [x Hx].
    assert (cstage w g k c1 = Inside) as Hin.
    { unfold cstage, stage_of. rewrite Hx, decide_False.
      - by replace (0 <? nest g c1 k) with true by lia.
      - intros E. destruct (c_fresh _ _ _ _ (i_cpu _ _ H c1 x Hx) k E). lia. }
    pose proof (alone w g c1 k l H Hl ltac:(congruence) ltac:(congruence) c2 ltac:(done) H2). lia.
  - intros c x k Hx Hp Hk. destruct (lookup_lt_is_Some_2 _ _ Hk) as [l Hl].
    unfold lock_depth, lock_held, get_lock. rewrite Hl, !bind_ret.
    pose proof (idle_owner w g c x k l H Hx Hl Hp) as Ho.
    pose proof (c_nest _ _ _ _ (i_cpu _ _ H c x Hx) k) as [Hn _].
    destruct (Z.eqb_spec (owner l) (self_id c)) as [E|E].
    + apply Ho in E. replace (0 <? nest g c k) with true by lia. split; [done|].
      by destruct (depth_nest w g c x k l H Hx Hl E) as [-> _].
    + assert (nest g c k = 0) as -> by (destruct (decide (0 < nest g c k)); [by destruct E; apply Ho|lia]). done.
  - intros c Hc. destruct (lookup_lt_is_Some_2 _ _ Hc) as [x Hx].
    destruct (c_held _ _ _ _ (i_cpu _ _ H c x Hx)) as (Hl & L & Hd & Hn & _ & Ht & HL). exists L.
    unfold lock_depth_here, lock_only_holds, get_cpu. rewrite Hx, !bind_ret, Hn. split_and!; try done.
    + f_equal. destruct L; [done|]. cbn [length]. rewrite bool_decide_eq_false_2 by done. apply Z.eqb_neq. lia.
    + intros k. rewrite bind_ret, Hn. destruct L as [|a [|b L]]; cbn [length] in *.
      * by rewrite bool_decide_eq_false_2.
      * change (Z.of_nat 1 =? 1) with true. cbn iota. destruct (held (mine x)) as [|y R]; [done|].
        cbn in Ht. injection Ht as ->. rewrite (rd_lookup _ _ a), bind_ret by done. f_equal.
        destruct (Nat.eqb_spec a k) as [->|]; [by rewrite bool_decide_eq_true_2|].
        rewrite bool_decide_eq_false_2; [done|congruence].
      * rewrite (proj2 (Z.eqb_neq _ _)) by lia. by rewrite bool_decide_eq_false_2.
  - intros c what Had. eapply returns_mono; [by apply (cpu_step_ok w g)|done].
Qed.

Lemma spinning_stage w g c x k t : linv w g -> cpus w !! c = Some x -> cpu_pc x = AcqSpin k t ->
  cstage w g k c = Spinning t.
Proof.
  intros H Hx Hp. apply (stage_at w g c x k H Hx); rewrite Hp; [done|]. unfold stage_of. by rewrite decide_True.
Qed.

Lemma ahead_index l stg Q c t : queue_ok l stg Q -> stg c = Spinning t ->
  exists j, Q !! j = Some c /\ (j < 256)%nat /\ ahead l t = Z.of_nat j /\ (j = 0%nat <-> serving l = t).
Proof.
  intros HQ E. destruct (spinning_at _ _ _ HQ c t E) as (j & Hj & ->). exists j.
  pose proof (tickets_bound _ _ _ HQ). pose proof (lookup_lt_Some _ _ _ Hj). split_and!; [done|lia| |].
  - unfold ahead, u32. rewrite Zminus_mod_idemp_l.
    replace (serving l + Z.of_nat j - serving l) with (Z.of_nat j) by lia. apply Z.mod_small. lia.
  - split.
    + intros ->. by rewrite Z.add_0_r, u32_small by apply HQ.
    + intros Es. rewrite <- Es in E. pose proof (serving_is_head _ _ _ HQ c E) as Hq0.
      by apply (NoDup_lookup _ _ _ _ (q_nodup _ _ _ HQ) Hj Hq0).
Qed.

(** What a step does to a waiting processor. *)
Lemma waiting_step w g c x k t l w' g' : linv w g -> cpus w !! c = Some x -> cpu_pc x = AcqSpin k t ->
  locks w !! k = Some l -> lock_step (w, g) (w', g') ->
  cpus w' !! c = Some (goto (Enter k) x) /\ serving l = t \/
  cpus w' !! c = Some x /\ exists l', locks w' !! k = Some l' /\
    ahead l' t = ahead l t - (served g' k - served g k) /\ served g k <= served g' k.
Proof.
  intros H Hx Hp Hl (c' & what & e & Had & Hs & Eg). cbn [fst snd] in *. subst g'.
  pose proof (cpu_step_ok w g c' what H Had) as H'. rewrite Hs in H'. unfold good in H'. cbn [returns fst snd] in H'.
  assert (cpus w' !! c = Some x \/ cpus w' !! c = Some (goto (Enter k) x) /\ serving l = t) as [Hc|Hc]; [|right|by left].
  { destruct (decide (c = c')) as [<-|Hne]; [|left; by rewrite (step_cpus _ _ _ _ _ Hs)].
    unfold cpu_step, get_cpu, get_lock in Hs. rewrite Hx, bind_ret, Hp, Hl, bind_ret in Hs.
    destruct (Z.eqb_spec (serving l) t); injection Hs as <- <-; [|by left]. right. split; [|done].
    cbn. apply list_lookup_insert_eq. by eapply lookup_lt_Some. }
  split; [done|]. destruct (c_fresh _ _ _ _ (i_cpu _ _ H' c x Hc) k ltac:(by rewrite Hp)) as [_ Hk].
  destruct (lookup_lt_is_Some_2 _ _ Hk) as [l' Hl']. exists l'. split; [done|].
  destruct (queue_of _ _ k l' H' Hl') as [Q' HQ'].
  destruct (ahead_index l' _ Q' c t HQ' (spinning_stage _ _ _ _ _ _ H' Hc Hp)) as (j' & _ & Hjb' & Ea' & _).
  pose proof (l_served _ _ _ _ (i_lock _ _ H k l Hl)) as Es.
  pose proof (l_served _ _ _ _ (i_lock _ _ H' k l' Hl')) as Es'.
  assert (served (observe g c' e) k = served g k \/ served (observe g c' e) k = served g k + 1) as [Esv|Esv].
  { destruct e; cbn; auto. case_decide; subst; auto. }
  - rewrite Esv in *. unfold ahead in *. rewrite Es', <- Es. split; lia.
  - rewrite Esv in *. split; [|lia]. rewrite Ea'. unfold ahead, u32 in *. rewrite Es' in Ea'. rewrite Es.
    rewrite Zminus_mod_idemp_r in Ea' |- *.
    replace (t - served g k) with ((t - (served g k + 1)) + 1) by lia.
    rewrite <- Zplus_mod_idemp_l, Ea', Z.mod_small by lia. lia.
Qed.

(** C27. The spinlock is fair: a processor that waits with a ticket has fewer
    than 256 processors ahead of it, namely the one being served and those
    with the tickets before its own; when nobody is ahead its next step takes
    it in; and whatever any processor does, it keeps its ticket until then
    and the number ahead of it falls by one with every ticket finished and
    never rises. *)
Theorem spinlock_fair (ranks : list Z) (ncpus : nat) (w : world) (g : ghost)
    (c : nat) (x : cpu) (k : nat) (t : Z) (l : lock) :
  runs ranks ncpus w g -> cpus w !! c = Some x -> cpu_pc x = AcqSpin k t -> locks w !! k = Some l ->
  0 <= ahead l t < 256 /\
  (exists Q, NoDup Q /\ Z.of_nat (length Q) = ahead l t /\ c ∉ Q /\
     (forall c', c' ∈ Q -> cstage w g k c' <> Outside) /\
     forall j c', (0 < j)%nat -> Q !! j = Some c' -> cstage w g k c' = Spinning (u32 (serving l + Z.of_nat j))) /\
  (ahead l t = 0 -> forall what, exists w', cpu_step w c what = Ret (w', Silent) /\
     cpus w' !! c = Some (goto (Enter k) x)) /\
  (forall w' g', lock_step (w, g) (w', g') ->
     cpus w' !! c = Some (goto (Enter k) x) /\ ahead l t = 0 \/
     cpus w' !! c = Some x /\ exists l', locks w' !! k = Some l' /\
       ahead l' t = ahead l t - (served g' k - served g k) /\ served g k <= served g' k).
Proof.
  intros H%runs_inv Hx Hp Hl. destruct (queue_of w g k l H Hl) as [Q HQ].
  pose proof (spinning_stage w g c x k t H Hx Hp) as Hst.
  destruct (ahead_index l _ Q c t HQ Hst) as (j & Hj & Hjb & Ea & Hz). rewrite Ea. split_and!; [lia|lia| | |].
  - exists (take j Q). pose proof (lookup_lt_Some _ _ _ Hj). split_and!.
    + eapply sublist_NoDup; [apply HQ|apply sublist_take].
    + rewrite length_take. lia.
    + intros (i & Hi)%list_elem_of_lookup. apply lookup_take_Some in Hi as [Hi Hlt].
      pose proof (NoDup_lookup _ _ _ _ (q_nodup _ _ _ HQ) Hi Hj). lia.
    + intros c' (i & Hi)%list_elem_of_lookup. apply lookup_take_Some in Hi as [Hi _].
      apply (q_member _ _ _ HQ). by eapply list_elem_of_lookup_2.
    + intros i c' Hi Hc'. apply lookup_take_Some in Hc' as [Hc' _]. by apply (q_rest _ _ _ HQ).
  - intros E0 what. unfold cpu_step, get_cpu, get_lock. rewrite Hx, bind_ret, Hp, Hl, bind_ret.
    assert (serving l = t) as -> by (apply Hz; lia). rewrite Z.eqb_refl. eexists. split; [done|].
    cbn. apply list_lookup_insert_eq. by eapply lookup_lt_Some.
  - intros w' g' Hs. destruct (waiting_step w g c x k t l w' g' H Hx Hp Hl Hs) as [[Hc Es]|[Hc Hr]].
    + left. split; [done|]. apply Hz in Es. lia.
    + right. rewrite Ea in Hr. done.
Qed.

(** ** Examples *)

Fixpoint exec (w : world) (sched : list (nat * call)) : res world :=
  match sched with
  | [] => Ret w
  | (c, what) :: sched => '(w, _) ← cpu_step w c what; exec w sched
  end.

(** The five steps of an uncontended acquisition. *)
Definition take_lock (c k : nat) : list (nat * call) := replicate 5 (c, Acquire k).

(** [check_order] trusts [count], which goes on counting past the end of the
    array: with 25 locks held, taking another reads outside it. *)
Example check_order_overruns :
  let w := boot (map Z.of_nat (seq 0 26)) 1 in
  match exec w (concat (map (take_lock 0) (seq 0 25))) with
  | Ret w => exec w [(0%nat, Acquire 25)] = Fault
  | _ => False
  end.
Proof. vm_compute. reflexivity. Qed.

(** Processor 0 holds lock 0, processor 1 waits for it. *)
Definition demo_world : world :=
  World [Lock 2 0 1 1 30]
    [Cpu Idle (Held (replicate 24 O) 1 false); Cpu (AcqSpin 0 1) (Held (replicate 24 O) 0 false)] 0.

Ltac run_lock_step c what :=
  refine (rtc_l lock_step _ (_, _) _ _ _);
    [exists c, what; eexists; split; [|split; [vm_compute; reflexivity|reflexivity]];
     cbn; repeat split; unfold HELD_MAX; lia|]; cbn [fst snd].

Lemma demo_runs : exists g, runs [30] 2 demo_world g /\ nest g 0 0 = 1.
Proof.
  eexists. split.
  - split; [lia|].
    run_lock_step 0%nat (Acquire 0). run_lock_step 0%nat (Acquire 0). run_lock_step 0%nat (Acquire 0).
    run_lock_step 0%nat (Acquire 0). run_lock_step 0%nat (Acquire 0).
    run_lock_step 1%nat (Acquire 0). run_lock_step 1%nat (Acquire 0). apply rtc_refl.
  - reflexivity.
Qed.

Lemma spinlock_mutual_exclusion_witness :
  exists g, nest g 0 0 = 1 /\ lock_held demo_world 0 0 = Ret (0 <? nest g 0 0) /\
    lock_depth demo_world 0 0 = Ret (nest g 0 0).
Proof.
  destruct demo_runs as (g & Hr & Hn). exists g. split; [exact Hn|].
  destruct (spinlock_mutual_exclusion [30] 2 demo_world g Hr) as (_ & H & _).
  apply (H 0%nat (Cpu Idle (Held (replicate 24 O) 1 false)) 0%nat); [reflexivity|reflexivity|cbn; lia].
Defined.

Lemma spinlock_fair_witness : 0 <= ahead (Lock 2 0 1 1 30) 1 < 256.
Proof.
  destruct demo_runs as (g & Hr & _).
  apply (spinlock_fair [30] 2 demo_world g 1 (Cpu (AcqSpin 0 1) (Held (replicate 24 O) 0 false)) 0 1
    (Lock 2 0 1 1 30)); [exact Hr|reflexivity..].
Defined.
