(* ===== verification/Mutex.v ===== *)
(** * Sleeping mutexes (kernel/locking/mutex.c)

    A mutex is owned by a thread: a process, or a processor outside any
    process, which spins instead of sleeping.  The state behind [guard] is
    only touched with the spinlock held, so each guarded section is one step
    (see Lock for the spinlock itself); the reads and writes outside it are
    steps of their own.  A thread's place in [mutex_lock] and [mutex_unlock]
    is its [tpc]; its [struct mutex_waiter], which lives on its stack, is a
    field of the thread, and the queue of the mutex is threaded through these
    records by [w_next], [first] and [last] as in the source.

    Whether the owner is running, whether the time to spin is over and whether
    the caller may sleep are inputs of a step.  A thread that waits for
    [woken] may look at any time; [process_wake_one] has no state here. *)

From stdpp Require Import relations.
From S2P Require Import Prelude HeldArray.

Definition PROCESS_HELD_MUTEXES : Z := 16.
Definition STEALS_BEFORE_HANDOFF : Z := 4.
Definition MUTEX_REPORTS : Z := 16.

(** Threads are named by their index, mutexes by theirs. *)
Record mutex := Mutex {
  owner : option nat; depth : Z; rank : Z; first : option nat; last : option nat }.

Definition mutex_init (rank : Z) : mutex := Mutex None 0 rank None None.

Record mutex_waiter := Waiter { w_next : option nat; granted : bool; woken : bool; lost : Z }.

(** [Looping]: at the top of the loop of [mutex_lock], with [sleeping];
    [Recheck]: after the spinning, before the guard is taken again;
    [Waiting]: in the loop that waits for [woken]; [Unlocking]: in
    [mutex_unlock] before its guarded section. *)
Inductive tpc :=
  | Out
  | Looping (k : nat) (sleeping : bool)
  | Recheck (k : nat)
  | Waiting (k : nat)
  | Unlocking (k : nat).

(** [self] tells a process from a bare processor; [held] and [count] are the
    process's [held_mutexes] and [held_mutex_count]. *)
Record thread := Thread {
  pc : tpc; self : bool; waiter : mutex_waiter; held : list nat; count : Z }.

Record world := World { mutexes : list mutex; threads : list thread; reports : Z }.

Inductive call :=
  | MLock (k : nat) (may_sleep : bool)
  | MTrylock (k : nat)
  | MUnlock (k : nat)
  | MReleaseAll (k : nat)
  | MReacquired (k : nat) (depth : Z)
  | MCheckReleased.

(** What the caller learns from a step. *)
Inductive event :=
  | Took (k : nat)
  | Gave (k : nat)
  | GaveAll (k : nat)
  | DepthSet (k : nat) (d : Z)
  | Busy (k : nat)
  | NotOwner (k : nat)
  | Silent.

Definition get_mutex (w : world) (k : nat) : res mutex :=
  match mutexes w !! k with
  | Some m => Ret m
  | None => Fault
  end.
Definition get_thread (w : world) (t : nat) : res thread :=
  match threads w !! t with
  | Some x => Ret x
  | None => Fault
  end.

Definition put_mutex (w : world) (k : nat) (m : mutex) : world :=
  World (<[k := m]> (mutexes w)) (threads w) (reports w).
Definition put_thread (w : world) (t : nat) (x : thread) : world :=
  World (mutexes w) (<[t := x]> (threads w)) (reports w).
Definition may_report (w : world) : world := World (mutexes w) (threads w) (u32 (reports w + 1)).

Definition set_owner (o : option nat) (d : Z) (m : mutex) : mutex := Mutex o d (rank m) (first m) (last m).
Definition set_depth (d : Z) (m : mutex) : mutex := Mutex (owner m) d (rank m) (first m) (last m).
Definition set_queue (f l : option nat) (m : mutex) : mutex := Mutex (owner m) (depth m) (rank m) f l.
Definition goto (p : tpc) (x : thread) : thread := Thread p (self x) (waiter x) (held x) (count x).
Definition set_waiter (v : mutex_waiter) (x : thread) : thread := Thread (pc x) (self x) v (held x) (count x).

Definition is_owner (m : mutex) (t : nat) : bool := bool_decide (owner m = Some t).

(** [check_order]: a report for the first held mutex that ranks above. *)
Fixpoint check_order_loop (w : world) (a : list nat) (rank_ : Z) (index : Z) (n : nat) : res world :=
  match n with
  | O => Ret w
  | S n =>
      k ← rd a index;
      other ← get_mutex w k;
      if rank other <=? rank_ then check_order_loop w a rank_ (index + 1) n else Ret (may_report w)
  end.

Definition check_order (w : world) (x : thread) (m : mutex) : res world :=
  let n := if count x <? PROCESS_HELD_MUTEXES then count x else PROCESS_HELD_MUTEXES in
  check_order_loop w (held x) (rank m) 0 (Z.to_nat n).

(** [remember] and [forget], which only a process has. *)
Definition remember (x : thread) (k : nat) : res thread :=
  if self x then
    '(a, n) ← remember_in PROCESS_HELD_MUTEXES (held x) (count x) k;
    Ret (Thread (pc x) (self x) (waiter x) a n)
  else Ret x.

Definition forget (x : thread) (k : nat) : res thread :=
  if self x then
    '(a, n) ← forget_in PROCESS_HELD_MUTEXES (held x) (count x) k;
    Ret (Thread (pc x) (self x) (waiter x) a n)
  else Ret x.

Definition mutex_held (w : world) (t k : nat) : res bool :=
  m ← get_mutex w k;
  Ret (is_owner m t).

(** The guarded section of [mutex_trylock]. *)
Definition mutex_trylock (w : world) (t k : nat) : res (world * event) :=
  x ← get_thread w t;
  m ← get_mutex w k;
  if is_owner m t then Ret (put_mutex w k (set_depth (u32 (depth m + 1)) m), Took k)
  else
    match owner m with
    | Some _ => Ret (w, Busy k)
    | None =>
        x ← remember x k;
        Ret (put_thread (put_mutex w k (set_owner (Some t) 1 m)) t x, Took k)
    end.

(** [mutex_lock] up to its loop; the waiter starts with [lost] zero.  The
    report of a caller that may not sleep goes to the spinlock's counter. *)
Definition mutex_lock (w : world) (t k : nat) (may_sleep : bool) : res (world * event) :=
  x ← get_thread w t;
  m ← get_mutex w k;
  if is_owner m t then Ret (put_mutex w k (set_depth (u32 (depth m + 1)) m), Took k)
  else
    w ← (if self x then check_order w x m else Ret w);
    Ret (put_thread w t (set_waiter (Waiter None false false 0) (goto (Looping k may_sleep) x)), Silent).

(** Joining the queue: at its head after having lost, else at its tail. *)
Definition enqueue (w : world) (t k : nat) (m : mutex) (x : thread) : res world :=
  let v := waiter x in
  if negb (lost v =? 0) then
    let x := set_waiter (Waiter (first m) false false (lost v)) (goto (Waiting k) x) in
    let m := set_queue (Some t) (match last m with None => Some t | Some l => Some l end) m in
    Ret (put_thread (put_mutex w k m) t x)
  else
    let x := set_waiter (Waiter None false false (lost v)) (goto (Waiting k) x) in
    let w := put_thread w t x in
    match last m with
    | Some l =>
        y ← get_thread w l;
        let v := waiter y in
        let w := put_thread w l (set_waiter (Waiter (Some t) (granted v) (woken v) (lost v)) y) in
        Ret (put_mutex w k (set_queue (first m) (Some t) m))
    | None => Ret (put_mutex w k (set_queue (Some t) (Some t) m))
    end.

(** One turn of the loop.  [running]: the owner is on a processor;
    [spinning]: the time to spin is not over. *)
Definition loop_step (w : world) (t k : nat) (sleeping running spinning : bool) : res (world * event) :=
  x ← get_thread w t;
  m ← get_mutex w k;
  match owner m with
  | None =>
      x ← remember x k;
      Ret (put_thread (put_mutex w k (set_owner (Some t) 1 m)) t (goto Out x), Took k)
  | Some _ =>
      if negb sleeping || negb (self x) then Ret (w, Silent)
      else if (bool_decide (first m = None) || negb (lost (waiter x) =? 0)) && running then
        if spinning then Ret (w, Silent) else Ret (put_thread w t (goto (Recheck k) x), Silent)
      else w ← enqueue w t k m x; Ret (w, Silent)
  end.

Definition recheck_step (w : world) (t k : nat) : res (world * event) :=
  x ← get_thread w t;
  m ← get_mutex w k;
  match owner m with
  | None => Ret (put_thread w t (goto (Looping k true) x), Silent)
  | Some _ => w ← enqueue w t k m x; Ret (w, Silent)
  end.

(** The thread looks at [woken], then at [granted]. *)
Definition waiting_step (w : world) (t k : nat) : res (world * event) :=
  x ← get_thread w t;
  let v := waiter x in
  if negb (woken v) then Ret (w, Silent)
  else if granted v then
    x ← remember x k;
    Ret (put_thread w t (goto Out x), Took k)
  else
    Ret (put_thread w t (set_waiter (Waiter (w_next v) (granted v) (woken v) (u32 (lost v + 1)))
      (goto (Looping k true) x)), Silent).

(** [mutex_unlock] up to its guarded section. *)
Definition mutex_unlock (w : world) (t k : nat) : res (world * event) :=
  x ← get_thread w t;
  m ← get_mutex w k;
  if negb (is_owner m t) then Ret (may_report w, NotOwner k)
  else
    let m := set_depth (u32 (depth m - 1)) m in
    let w := put_mutex w k m in
    if negb (depth m =? 0) then Ret (w, Gave k)
    else x ← forget x k; Ret (put_thread w t (goto (Unlocking k) x), Gave k).

(** The guarded section of [mutex_unlock]. *)
Definition unlock_step (w : world) (t k : nat) : res (world * event) :=
  x ← get_thread w t;
  m ← get_mutex w k;
  let m := set_owner None (depth m) m in
  let w := put_thread w t (goto Out x) in
  match first m with
  | None => Ret (put_mutex w k m, Silent)
  | Some next =>
      y ← get_thread w next;
      let v := waiter y in
      let m := set_queue (w_next v) (match w_next v with None => None | Some _ => last m end) m in
      let handoff := STEALS_BEFORE_HANDOFF <=? lost v in
      let m := if handoff then set_owner (Some next) 1 m else m in
      let y := set_waiter (Waiter (w_next v) (if handoff then true else granted v) true (lost v)) y in
      Ret (put_thread (put_mutex w k m) next y, Silent)
  end.

(** [mutex_release_all] up to the guarded section. *)
Definition mutex_release_all (w : world) (t k : nat) : res (world * event) :=
  h ← mutex_held w t k;
  if negb h then Ret (w, Silent)
  else
    m ← get_mutex w k;
    '(w, _) ← mutex_unlock (put_mutex w k (set_depth 1 m)) t k;
    Ret (w, GaveAll k).

(** The last line of [mutex_reacquire], after its [mutex_lock]. *)
Definition mutex_reacquire (w : world) (t k : nat) (d : Z) : res (world * event) :=
  m ← get_mutex w k;
  Ret (put_mutex w k (set_depth d m), DepthSet k d).

Definition mutex_check_released (w : world) (t : nat) : res (world * event) :=
  x ← get_thread w t;
  if negb (self x) || (count x =? 0) then Ret (w, Silent)
  else if reports w <? MUTEX_REPORTS then
    k ← rd (held x) 0;
    _ ← get_mutex w k;
    Ret (may_report w, Silent)
  else Ret (may_report w, Silent).

Definition thread_step (w : world) (t : nat) (what : call) (running spinning : bool) : res (world * event) :=
  x ← get_thread w t;
  match pc x with
  | Out =>
      match what with
      | MLock k may_sleep => mutex_lock w t k may_sleep
      | MTrylock k => mutex_trylock w t k
      | MUnlock k => mutex_unlock w t k
      | MReleaseAll k => mutex_release_all w t k
      | MReacquired k d => mutex_reacquire w t k d
      | MCheckReleased => mutex_check_released w t
      end
  | Looping k sleeping => loop_step w t k sleeping running spinning
  | Recheck k => recheck_step w t k
  | Waiting k => waiting_step w t k
  | Unlocking k => unlock_step w t k
  end.

(** ** The observer *)

Definition ghost : Type := nat -> nat -> Z.

(** [nest g t k]: how often thread [t] has taken mutex [k] without giving it
    back, as its caller sees it. *)
Definition set_nest (g : ghost) (t k : nat) (v : Z) : ghost :=
  fun t' k' => if decide (t' = t /\ k' = k) then v else g t' k'.

Definition observe (g : ghost) (t : nat) (e : event) : ghost :=
  match e with
  | Took k => set_nest g t k (g t k + 1)
  | Gave k => set_nest g t k (g t k - 1)
  | GaveAll k => set_nest g t k 0
  | DepthSet k d => set_nest g t k d
  | Busy _ | NotOwner _ | Silent => g
  end.

(** What a mutex asks of its users: a process holds at most 16 mutexes and
    takes none 2^32 times over, and [mutex_reacquire] stores a depth. *)
Definition admissible (w : world) (g : ghost) (t : nat) (what : call) : Prop :=
  match threads w !! t with
  | None => False
  | Some x =>
      match pc x with
      | Out =>
          match what with
          | MLock k _ | MTrylock k =>
              (k < length (mutexes w))%nat /\ (self x = true -> count x < PROCESS_HELD_MUTEXES) /\
              g t k + 1 < 2 ^ 32
          | MUnlock k | MReleaseAll k => (k < length (mutexes w))%nat
          | MReacquired k d => (k < length (mutexes w))%nat /\ 0 < g t k /\ 0 < d < 2 ^ 32
          | MCheckReleased => True
          end
      | _ => True
      end
  end.

Definition mutex_step (a b : world * ghost) : Prop :=
  exists t what running spinning e, admissible a.1 a.2 t what /\
    thread_step a.1 t what running spinning = Ret (b.1, e) /\ b.2 = observe a.2 t e.

Definition new_thread (process : bool) : thread :=
  Thread Out process (Waiter None false false 0) (replicate 16 O) 0.

Definition boot (ranks : list Z) (kinds : list bool) : world :=
  World (map mutex_init ranks) (map new_thread kinds) 0.

Definition runs (ranks : list Z) (kinds : list bool) (w : world) (g : ghost) : Prop :=
  rtc mutex_step (boot ranks kinds, fun _ _ => 0) (w, g).

(** ** The role of a thread with respect to one mutex *)

Inductive role := Away | Trying | Queued | Woken | Granted | Inside | Leaving.
#[global] Instance role_eq : EqDecision role.
Proof. solve_decision. Defined.

Definition pc_mutex (p : tpc) : option nat :=
  match p with
  | Out => None
  | Looping k _ | Recheck k | Waiting k | Unlocking k => Some k
  end.

Definition role_of (x : thread) (n : Z) (k : nat) : role :=
  if decide (pc_mutex (pc x) = Some k) then
    match pc x with
    | Waiting _ => if woken (waiter x) then (if granted (waiter x) then Granted else Woken) else Queued
    | Unlocking _ => Leaving
    | _ => Trying
    end
  else if 0 <? n then Inside else Away.

Definition owns (r : role) : bool :=
  match r with Granted | Inside | Leaving => true | _ => false end.

(** Threads that are awake and after the mutex. *)
Definition contends (r : role) : bool :=
  match r with Trying | Woken => true | _ => false end.

(** The state of a mutex against the roles of the threads: [nx] is [w_next]
    of their waiters, [ns] how often they have taken the mutex. *)
Record mutex_ok (m : mutex) (rl : nat -> role) (nx : nat -> option nat) (ns : nat -> Z) : Prop := MutexOk {
  mo_queue : exists Q, NoDup Q /\ (forall t, t ∈ Q <-> rl t = Queued) /\
    first m = head Q /\ last m = list.last Q /\
    (forall i t, Q !! i = Some t -> nx t = Q !! S i) /\
    (owner m = None -> Q <> [] -> exists t, contends (rl t) = true);
  mo_owner : forall t, owner m = Some t <-> owns (rl t) = true;
  mo_depth : forall t, rl t = Inside -> depth m = ns t;
  mo_granted : forall t, rl t = Granted -> depth m = 1 }.

Definition upd {A} (f : nat -> A) (t : nat) (v : A) : nat -> A := fun t' => if decide (t' = t) then v else f t'.

Lemma upd_eq {A} (f : nat -> A) t v : upd f t v t = v.
Proof. unfold upd. by rewrite decide_True. Qed.
Lemma upd_ne {A} (f : nat -> A) t v t' : t' <> t -> upd f t v t' = f t'.
Proof. intros. unfold upd. by rewrite decide_False. Qed.

Lemma mutex_ok_ext m m' rl rl' nx nx' ns ns' :
  mutex_ok m rl nx ns -> (forall t, rl' t = rl t) -> (forall t, rl t = Queued -> nx' t = nx t) ->
  (forall t, rl t = Inside -> ns' t = ns t) ->
  owner m' = owner m -> depth m' = depth m -> first m' = first m -> last m' = last m ->
  mutex_ok m' rl' nx' ns'.
Proof.
  intros [(Q & H1 & H2 & H3 & H4 & H5 & H6) Ho Hd Hg] Er En Es E1 E2 E3 E4.
  constructor; rewrite ?E1, ?E2, ?E3, ?E4.
  - exists Q. split_and!; try done.
    + intros t. by rewrite Er.
    + intros i t Hi. rewrite En; [auto|]. apply H2. by eapply list_elem_of_lookup_2.
    + intros Hn Hq. destruct (H6 Hn Hq) as [t Ht]. exists t. by rewrite Er.
  - intros t. by rewrite Er.
  - intros t Ht. rewrite Er in Ht. rewrite Es by done. auto.
  - intros t Ht. rewrite Er in Ht. eauto.
Qed.

Section moves.
Context (m m' : mutex) (rl : nat -> role) (nx nx' : nat -> option nat) (ns ns' : nat -> Z) (t : nat).
Hypothesis Hok : mutex_ok m rl nx ns.

(** A thread outside the queue changes its role, and perhaps the owner. *)
Lemma move_role r :
  rl t <> Queued -> r <> Queued -> first m' = first m -> last m' = last m ->
  (forall t', rl t' = Queued -> nx' t' = nx t') -> (forall t', t' <> t -> ns' t' = ns t') ->
  (owner m' = None -> contends r = true \/ owner m = None /\ contends (rl t) = false) ->
  (forall t', owner m' = Some t' <-> owns (upd rl t r t') = true) ->
  (r = Inside -> depth m' = ns' t) -> (r = Granted -> depth m' = 1) ->
  (forall t', t' <> t -> owner m' = Some t' -> depth m' = depth m) ->
  mutex_ok m' (upd rl t r) nx' ns'.
Proof using Hok.
  intros Hq Hr Ef El Hnx Hns Hc Ho Hi Hg Hd.
  destruct Hok as [(Q & H1 & H2 & H3 & H4 & H5 & H6) _ Hd0 Hg0]. constructor.
  - exists Q. rewrite Ef, El. split_and!; try done.
    + intros t'. rewrite H2. unfold upd. case_decide; naive_solver.
    + intros i t' Ht'. rewrite Hnx; [auto|]. apply H2. by eapply list_elem_of_lookup_2.
    + intros Hn HQ. destruct (Hc Hn) as [E|[E1 E2]].
      * exists t. by rewrite upd_eq.
      * destruct (H6 E1 HQ) as [t' Ht']. exists t'. rewrite upd_ne; [done|]. congruence.
  - done.
  - intros t' Ht'. destruct (decide (t' = t)) as [->|Hne]; [rewrite upd_eq in Ht'; auto|].
    rewrite (Hd t' Hne) by (apply Ho; by rewrite Ht'). rewrite upd_ne in Ht' by done. rewrite Hns by done. auto.
  - intros t' Ht'. destruct (decide (t' = t)) as [->|Hne]; [rewrite upd_eq in Ht'; auto|].
    rewrite (Hd t' Hne) by (apply Ho; by rewrite Ht'). rewrite upd_ne in Ht' by done. eauto.
Qed.

(** A thread joins the queue while somebody owns the mutex. *)
Lemma move_queue (front : bool) :
  rl t = Trying -> owner m <> None -> owner m' = owner m -> depth m' = depth m ->
  (forall t', ns' t' = ns t') ->
  (if front then
     nx' = upd nx t (first m) /\ first m' = Some t /\
     last m' = match last m with None => Some t | Some l => Some l end
   else
     last m' = Some t /\
     match last m with
     | Some l => first m' = first m /\ nx' = upd (upd nx t None) l (Some t)
     | None => first m' = Some t /\ nx' = upd nx t None
     end) ->
  mutex_ok m' (upd rl t Queued) nx' ns'.
Proof using Hok.
  intros Ht Hn Eo Ed Hns Hb. destruct Hok as [(Q & H1 & H2 & H3 & H4 & H5 & H6) Ho Hd0 Hg0].
  assert (t ∉ Q) as Hni by (rewrite H2; congruence).
  assert (forall t', t' ∈ Q -> t' <> t) as Hne by (intros t' Hin ->; done).
  constructor; rewrite ?Eo, ?Ed.
  - destruct front.
    + destruct Hb as (-> & Ef & El). exists (t :: Q). split_and!.
      * by apply list.NoDup_cons.
      * intros t'. rewrite elem_of_cons, H2. unfold upd. case_decide; naive_solver.
      * done.
      * rewrite El, H4, last_cons. by destruct (list.last Q).
      * intros [|i] t' Hi; cbn in Hi; [injection Hi as <-; rewrite upd_eq, H3; by destruct Q|].
        rewrite upd_ne by (apply Hne; by eapply list_elem_of_lookup_2). by rewrite (H5 i).
      * congruence.
    + destruct Hb as (El & Hb). exists (Q ++ [t]). split_and!.
      * apply list.NoDup_app. split_and!; [done| |apply NoDup_singleton]. set_solver.
      * intros t'. rewrite elem_of_app, list_elem_of_singleton, H2. unfold upd. case_decide; naive_solver.
      * rewrite H4 in Hb. destruct Q as [|q Q]; [by destruct Hb as [-> _]|].
        destruct (list.last (q :: Q)) eqn:E; [by destruct Hb as [-> _]|]. by apply last_None in E.
      * by rewrite El, last_snoc.
      * rewrite H4 in Hb. intros i t' Hi. apply lookup_app_Some in Hi as [Hi|[Hge Hi]].
        -- pose proof (lookup_lt_Some _ _ _ Hi) as Hlt. pose proof (list_elem_of_lookup_2 _ _ _ Hi) as Hin.
           destruct (list.last Q) as [l|] eqn:E; [|apply last_None in E; by subst Q].
           destruct Hb as [_ ->]. rewrite last_lookup in E.
           destruct (decide (S i = length Q)) as [Hi'|Hi'].
           ++ rewrite <- Hi' in E. cbn in E. rewrite Hi in E. injection E as ->.
              rewrite upd_eq, lookup_app_r, Hi', Nat.sub_diag by lia. done.
           ++ assert (t' <> l) as Htl by (intros ->; pose proof (NoDup_lookup _ _ _ _ H1 Hi E); lia).
              rewrite upd_ne, upd_ne, lookup_app_l by (lia || auto). auto.
        -- apply list_lookup_singleton_Some in Hi as [Hi <-]. rewrite lookup_ge_None_2 by (rewrite length_app; cbn; lia).
           destruct (list.last Q) as [l|] eqn:E.
           ++ destruct Hb as [_ ->]. rewrite upd_ne, upd_eq; [done|]. intros ->. apply Hni.
              rewrite last_lookup in E. by eapply list_elem_of_lookup_2.
           ++ destruct Hb as [_ ->]. by rewrite upd_eq.
      * congruence.
  - intros t'. rewrite Ho. unfold upd. case_decide as E; [|done]. subst. rewrite Ht. done.
  - intros t' Ht'. rewrite Hns. apply Hd0. unfold upd in Ht'. by case_decide.
  - intros t' Ht'. apply (Hg0 t'). unfold upd in Ht'. by case_decide.
Qed.
End moves.

Lemma sole_owner m rl nx ns t t' : mutex_ok m rl nx ns -> owns (rl t) = true -> owns (rl t') = true -> t = t'.
Proof. intros [_ Ho _ _] H1%Ho H2%Ho. congruence. Qed.

(** The owner lets go and nobody waits. *)
Lemma move_free m m' rl nx ns t :
  mutex_ok m rl nx ns -> rl t = Leaving -> first m = None ->
  owner m' = None -> first m' = None -> last m' = last m -> mutex_ok m' (upd rl t Away) nx ns.
Proof.
  intros Hok Ht Hf Eo Ef El. pose proof Hok as [(Q & H1 & H2 & H3 & H4 & H5 & _) _ _ _].
  assert (Q = []) as -> by (destruct Q; [done|cbn in *; congruence]).
  assert (forall t', owns (upd rl t Away t') = false) as Hno.
  { intros t'. unfold upd. case_decide as E; [done|]. destruct (owns (rl t')) eqn:E'; [|done].
    destruct E. symmetry. eapply sole_owner; [done| |done]. by rewrite Ht. }
  constructor.
  - exists []. rewrite Ef, El. split_and!; try done.
    intros t'. rewrite H2. unfold upd. case_decide; [|done]. subst. by rewrite Ht.
  - intros t'. rewrite Eo, Hno. done.
  - intros t' E. specialize (Hno t'). by rewrite E in Hno.
  - intros t' E. specialize (Hno t'). by rewrite E in Hno.
Qed.

(** The owner lets go and wakes the first waiter, perhaps as the new owner. *)
Lemma move_wake m m' rl nx ns t n (handoff : bool) :
  mutex_ok m rl nx ns -> rl t = Leaving -> first m = Some n ->
  owner m' = (if handoff then Some n else None) -> (handoff = true -> depth m' = 1) ->
  first m' = nx n -> last m' = match nx n with None => None | Some _ => last m end ->
  rl n = Queued /\
  mutex_ok m' (upd (upd rl t Away) n (if handoff then Granted else Woken)) nx ns.
Proof.
  intros Hok Ht Hf Eo Ed Ef El. pose proof Hok as [(Q & H1 & H2 & H3 & H4 & H5 & _) _ _ _].
  destruct Q as [|q R]; [cbn in *; congruence|].
  assert (q = n) as -> by (cbn in *; congruence).
  assert (rl n = Queued) as Hn by (apply H2; by left). split; [done|].
  assert (nx n = head R) as En by (rewrite (H5 0%nat n eq_refl); by destruct R).
  apply list.NoDup_cons in H1 as [Hni Hnd]. assert (t <> n) as Htn by congruence.
  set (rl' := upd _ n _).
  assert (forall t', t' <> n -> owns (rl' t') = false) as Hno.
  { intros t' Hne. unfold rl'. rewrite upd_ne by done. unfold upd. case_decide as E; [done|].
    destruct (owns (rl t')) eqn:E'; [|done]. destruct E. symmetry. eapply sole_owner; [done| |done]. by rewrite Ht. }
  assert (rl' n = if handoff then Granted else Woken) as Hrn by apply upd_eq.
  constructor.
  - exists R. rewrite Ef, El, En. split_and!; try done.
    + intros t'. destruct (decide (t' = n)) as [->|Hne].
      * rewrite Hrn. split; [done|]. by destruct handoff.
      * unfold rl'. rewrite upd_ne by done. assert (t' ∈ R <-> rl t' = Queued) as ->.
        { rewrite <- H2, elem_of_cons. naive_solver. }
        unfold upd. case_decide; [|done]. subst. by rewrite Ht.
    + rewrite H4. by destruct R.
    + intros i t' Hi. by rewrite (H5 (S i)).
    + intros E _. exists n. rewrite Hrn. destruct handoff; [congruence|done].
  - intros t'. rewrite Eo. destruct (decide (t' = n)) as [->|Hne].
    + rewrite Hrn. by destruct handoff.
    + rewrite Hno by done. split; [|done]. destruct handoff; congruence.
  - intros t' E. destruct (decide (t' = n)) as [->|Hne].
    + rewrite Hrn in E. by destruct handoff.
    + specialize (Hno t' Hne). by rewrite E in Hno.
  - intros t' E. destruct (decide (t' = n)) as [->|Hne].
    + rewrite Hrn in E. destruct handoff; [auto|done].
    + specialize (Hno t' Hne). by rewrite E in Hno.
Qed.

(** ** The invariant *)

(** In [mutex_lock] between its start and its return. *)
Definition locking (p : tpc) : bool :=
  match p with Looping _ _ | Recheck _ | Waiting _ => true | _ => false end.

Record thread_ok (n : nat) (f : nat -> Z) (x : thread) : Prop := ThreadOk {
  to_fresh : forall k, pc_mutex (pc x) = Some k -> f k = 0 /\ (k < n)%nat;
  to_held : self x = true -> lists_held 16 (held x) (count x) f;
  to_room : locking (pc x) = true -> self x = true -> count x < PROCESS_HELD_MUTEXES;
  to_process : forall k, pc x = Waiting k \/ pc x = Recheck k -> self x = true;
  to_lost : 0 <= lost (waiter x) <= STEALS_BEFORE_HANDOFF;
  to_woken : forall k, pc x = Waiting k ->
    (woken (waiter x) = false -> granted (waiter x) = false) /\
    (woken (waiter x) = true -> granted (waiter x) = false -> lost (waiter x) < STEALS_BEFORE_HANDOFF);
  to_nest : forall k, 0 <= f k < 2 ^ 32 /\ (0 < f k -> (k < n)%nat) }.

Definition wrole (w : world) (g : ghost) (k t : nat) : role :=
  match threads w !! t with
  | Some x => role_of x (g t k) k
  | None => Away
  end.
Definition wnext (w : world) (t : nat) : option nat :=
  match threads w !! t with
  | Some x => w_next (waiter x)
  | None => None
  end.
Definition wnest (w : world) (g : ghost) (k t : nat) : Z :=
  match threads w !! t with
  | Some _ => g t k
  | None => 0
  end.

Record minv (w : world) (g : ghost) : Prop := Minv {
  mi_thread : forall t x, threads w !! t = Some x -> thread_ok (length (mutexes w)) (g t) x;
  mi_mutex : forall k m, mutexes w !! k = Some m -> mutex_ok m (wrole w g k) (wnext w) (wnest w g k) }.

Lemma role_other x x' n k k' : k' <> k ->
  (pc_mutex (pc x) = None \/ pc_mutex (pc x) = Some k) ->
  (pc_mutex (pc x') = None \/ pc_mutex (pc x') = Some k) -> role_of x' n k' = role_of x n k'.
Proof. intros Hk H H'. unfold role_of. rewrite !decide_False; naive_solver. Qed.

(** A step about mutex [k]: it changes that mutex, its thread, and perhaps the
    waiter of a thread in the mutex's queue. *)
Lemma mframe w g g' t x x' k m' ths reps v :
  minv w g -> threads w !! t = Some x -> (k < length (mutexes w))%nat ->
  (forall t' k', g' t' k' = if decide (t' = t /\ k' = k) then v else g t' k') ->
  (pc_mutex (pc x) = None \/ pc_mutex (pc x) = Some k) ->
  (pc_mutex (pc x') = None \/ pc_mutex (pc x') = Some k) ->
  length ths = length (threads w) -> ths !! t = Some x' ->
  (forall t' y y', t' <> t -> threads w !! t' = Some y -> ths !! t' = Some y' ->
     y' = y \/ pc y = Waiting k /\ pc y' = Waiting k /\ thread_ok (length (mutexes w)) (g t') y') ->
  thread_ok (length (mutexes w)) (fun k' => if decide (k' = k) then v else g t k') x' ->
  (let w' := World (<[k := m']> (mutexes w)) ths reps in
   mutex_ok m' (wrole w' g' k) (wnext w') (wnest w' g' k)) ->
  minv (World (<[k := m']> (mutexes w)) ths reps) g'.
Proof.
  intros H Hx Hk Hg Hp Hp' Hlen Hx' Hoth Hth Hm. cbv zeta in Hm. set (w' := World _ ths reps) in *.
  assert (forall t' k', t' <> t \/ k' <> k -> g' t' k' = g t' k') as Hsame.
  { intros t' k' Hne. rewrite Hg, decide_False; [done|]. naive_solver. }
  assert (forall t' y', ths !! t' = Some y' -> exists y, threads w !! t' = Some y) as Hback.
  { intros t' y' Hy'. apply lookup_lt_is_Some_2. rewrite <- Hlen. by eapply lookup_lt_Some. }
  constructor; cbn [w' threads mutexes].
  - intros t' y' Hy'. rewrite length_insert. destruct (decide (t' = t)) as [->|Hne].
    + rewrite Hx' in Hy'. injection Hy' as <-. destruct Hth. constructor; auto; try done.
      * intros k' Hk'. destruct (to_fresh0 k' Hk') as [E Hlt]. split; [|done]. rewrite Hg.
        revert E. repeat case_decide; naive_solver.
      * intros Hs. eapply lists_held_ext; [by apply to_held0|]. intros k'. rewrite Hg. repeat case_decide; naive_solver.
      * intros k'. rewrite Hg. specialize (to_nest0 k'). revert to_nest0. repeat case_decide; naive_solver.
    + destruct (Hback t' y' Hy') as [y Hy]. assert (thread_ok (length (mutexes w)) (g t') y') as Hty.
      { destruct (Hoth t' y y' Hne Hy Hy') as [->|(_ & _ & ?)]; [by apply (mi_thread _ _ H)|done]. }
      destruct Hty. constructor; auto; try done.
      * intros k' Hk'. rewrite Hsame by auto. auto.
      * intros Hs. eapply lists_held_ext; [by apply to_held0|]. intros k'. by rewrite Hsame by auto.
      * intros k'. rewrite Hsame by auto. auto.
  - intros k' m0 Hm0. destruct (decide (k' = k)) as [->|Hne].
    + rewrite list_lookup_insert_eq in Hm0 by done. by injection Hm0 as <-.
    + rewrite list_lookup_insert_ne in Hm0 by done. pose proof (mi_mutex _ _ H k' m0 Hm0) as Hok.
      eapply mutex_ok_ext; [exact Hok|..]; try done.
      * intros t'. unfold wrole. cbn [w' threads]. destruct (ths !! t') as [y'|] eqn:Hy'.
        -- destruct (Hback t' y' Hy') as [y Hy]. rewrite Hy, Hsame by auto. destruct (decide (t' = t)) as [->|Ht].
           ++ rewrite Hx in Hy. rewrite Hx' in Hy'. simplify_eq. by apply (role_other _ _ _ k).
           ++ destruct (Hoth t' y y' Ht Hy Hy') as [->|(E1 & E2 & _)]; [done|].
              apply (role_other _ _ _ k); [done|rewrite E1; by right|rewrite E2; by right].
        -- apply lookup_ge_None in Hy'. by rewrite lookup_ge_None_2 by lia.
      * intros t' Ht'. unfold wnext. cbn [w' threads]. unfold wrole in Ht'.
        destruct (threads w !! t') as [y|] eqn:Hy; [|done].
        destruct (lookup_lt_is_Some_2 ths t') as [y' Hy']; [rewrite Hlen; by eapply lookup_lt_Some|].
        rewrite Hy'. destruct (decide (t' = t)) as [->|Ht].
        -- exfalso. rewrite Hx in Hy. simplify_eq. unfold role_of in Ht'. rewrite decide_False in Ht' by naive_solver.
           by destruct (0 <? _).
        -- destruct (Hoth t' y y' Ht Hy Hy') as [->|(E1 & E2 & _)]; [done|]. exfalso.
           unfold role_of in Ht'. rewrite E1 in Ht'. cbn in Ht'. rewrite decide_False in Ht' by congruence.
           by destruct (0 <? _).
      * intros t' _. unfold wnest. cbn [w' threads]. destruct (ths !! t') as [y'|] eqn:Hy'.
        -- destruct (Hback t' y' Hy') as [y ->]. by rewrite Hsame by auto.
        -- apply lookup_ge_None in Hy'. by rewrite lookup_ge_None_2 by lia.
Qed.

Definition moved (g g' : ghost) (t k : nat) (v : Z) : Prop :=
  forall t' k', g' t' k' = if decide (t' = t /\ k' = k) then v else g t' k'.

Lemma mutex_moved_none g t k : moved g g t k (g t k).
Proof. intros t' k'. by case_decide as E; [destruct E as [-> ->]|]. Qed.
Lemma mutex_moved_nest g t k v : moved g (set_nest g t k v) t k v.
Proof. done. Qed.

(** The case of one thread. *)
Lemma mframe1 w g g' t x x' k m' reps v :
  minv w g -> threads w !! t = Some x -> (k < length (mutexes w))%nat -> moved g g' t k v ->
  (pc_mutex (pc x) = None \/ pc_mutex (pc x) = Some k) ->
  (pc_mutex (pc x') = None \/ pc_mutex (pc x') = Some k) ->
  thread_ok (length (mutexes w)) (fun k' => if decide (k' = k) then v else g t k') x' ->
  mutex_ok m' (upd (wrole w g k) t (role_of x' v k)) (upd (wnext w) t (w_next (waiter x'))) (upd (wnest w g k) t v) ->
  minv (World (<[k := m']> (mutexes w)) (<[t := x']> (threads w)) reps) g'.
Proof.
  intros H Hx Hk Hg Hp Hp' Hth Hm. pose proof (lookup_lt_Some _ _ _ Hx) as Hlt.
  eapply (mframe w g g' t x x'); try done.
  - apply length_insert.
  - by apply list_lookup_insert_eq.
  - intros t' y y' Hne Hy. rewrite list_lookup_insert_ne, Hy by done. intros [= <-]. by left.
  - cbv zeta. eapply mutex_ok_ext; [exact Hm|..]; try done.
    + intros t'. unfold wrole, upd. cbn [threads]. destruct (decide (t' = t)) as [->|Hne].
      * by rewrite list_lookup_insert_eq, Hg, decide_True by done.
      * rewrite list_lookup_insert_ne by done. destruct (threads w !! t'); [|done].
        by rewrite Hg, decide_False by naive_solver.
    + intros t' _. unfold wnext, upd. cbn [threads]. destruct (decide (t' = t)) as [->|Hne].
      * by rewrite list_lookup_insert_eq by done.
      * by rewrite list_lookup_insert_ne by done.
    + intros t' _. unfold wnest, upd. cbn [threads]. destruct (decide (t' = t)) as [->|Hne].
      * by rewrite list_lookup_insert_eq, Hg, decide_True by done.
      * rewrite list_lookup_insert_ne by done. destruct (threads w !! t'); [|done].
        by rewrite Hg, decide_False by naive_solver.
Qed.

Lemma thread_ok_same n (g : ghost) t k x : thread_ok n (g t) x ->
  thread_ok n (fun k' => if decide (k' = k) then g t k else g t k') x.
Proof.
  assert (forall k', (if decide (k' = k) then g t k else g t k') = g t k') as E by (intros; by case_decide; subst).
  intros []. constructor; auto.
  - intros k' Hk'. rewrite E. auto.
  - intros Hs. eapply lists_held_ext; [by apply to_held0|]. intros k'. by rewrite E.
  - intros k'. rewrite E. auto.
Qed.

Lemma wrole_at w g k t x : threads w !! t = Some x -> wrole w g k t = role_of x (g t k) k.
Proof. intros E. unfold wrole. by rewrite E. Qed.

Lemma minv_reports w g n : minv w g -> minv (World (mutexes w) (threads w) n) g.
Proof. intros []. by constructor. Qed.

Definition good (g : ghost) (t : nat) (r : world * event) : Prop := minv r.1 (observe g t r.2).

(** *** Holding, taking again, giving back *)

Section held.
Context (w : world) (g : ghost) (t : nat) (x : thread) (k : nat) (m : mutex).
Hypothesis (H : minv w g) (Hx : threads w !! t = Some x) (Hm : mutexes w !! k = Some m).

Lemma k_valid : (k < length (mutexes w))%nat.
Proof using Hm. by eapply lookup_lt_Some. Qed.

(** Outside the functions, being the owner is having taken the mutex. *)
Lemma out_owner : pc x = Out -> owner m = Some t <-> 0 < g t k.
Proof using H Hx Hm.
  intros Hp. rewrite (mo_owner _ _ _ _ (mi_mutex _ _ H k m Hm) t), (wrole_at w g k t x Hx).
  unfold role_of. rewrite Hp. cbn. destruct (Z.ltb_spec 0 (g t k)); cbn; split; (done || lia).
Qed.

Lemma out_inside : pc x = Out -> 0 < g t k -> wrole w g k t = Inside.
Proof using Hx.
  intros Hp Hpos. rewrite (wrole_at w g k t x Hx). unfold role_of. rewrite Hp. cbn.
  by replace (0 <? g t k) with true by lia.
Qed.

Lemma out_away : pc x = Out -> owner m <> Some t -> wrole w g k t = Away /\ g t k = 0.
Proof using H Hx Hm.
  intros Hp Hne. pose proof (to_nest _ _ _ (mi_thread _ _ H t x Hx) k) as [Hn _].
  assert (g t k = 0) as E by (destruct (decide (0 < g t k)); [by destruct Hne; apply out_owner|lia]).
  split; [|done]. rewrite (wrole_at w g k t x Hx). unfold role_of. rewrite Hp, E. done.
Qed.

Lemma inside_depth : pc x = Out -> 0 < g t k -> depth m = g t k /\ 0 <= g t k < 2 ^ 32.
Proof using H Hx Hm.
  intros Hp Hpos. pose proof (to_nest _ _ _ (mi_thread _ _ H t x Hx) k) as [Hn _]. split; [|done].
  rewrite (mo_depth _ _ _ _ (mi_mutex _ _ H k m Hm) t (out_inside Hp Hpos)). unfold wnest. by rewrite Hx.
Qed.

(** The depth of a mutex that the thread holds is set to [v]. *)
Lemma mutex_set_depth_ok v : pc x = Out -> 0 < g t k -> 0 < v < 2 ^ 32 ->
  minv (put_mutex w k (set_depth v m)) (set_nest g t k v).
Proof using H Hx Hm.
  intros Hp Hpos Hv. unfold put_mutex. rewrite <- (list_insert_id (threads w) t x Hx) at 1.
  pose proof (out_inside Hp Hpos) as Hin. pose proof (mi_mutex _ _ H k m Hm) as Hok.
  assert (owner m = Some t) as Ho by (by apply out_owner).
  apply (mframe1 w g _ t x x k _ _ v); rewrite ?Hp; auto; [apply k_valid|apply mutex_moved_nest| |].
  - destruct (mi_thread _ _ H t x Hx). constructor; rewrite ?Hp; auto; try done.
    + intros Hs. eapply lists_held_ext; [by apply to_held0|]. intros k'. case_decide; [subst; lia|done].
    + intros k' [E|E]; congruence.
    + intros k'. case_decide; [|auto]. subst. split; [lia|]. intros _. apply k_valid.
  - assert (role_of x v k = Inside) as Er.
    { unfold role_of. rewrite Hp. cbn. by replace (0 <? v) with true by lia. }
    rewrite Er. eapply move_role; try done; cbn.
    + congruence.
    + intros t' Ht'. rewrite upd_ne; [done|]. intros ->. congruence.
    + intros t' Hne. by rewrite upd_ne.
    + congruence.
    + intros t'. rewrite (mo_owner _ _ _ _ Hok t'). unfold upd. case_decide; [|done]. subst. by rewrite Hin.
    + intros _. by rewrite upd_eq.
    + congruence.
Qed.

(** The last [mutex_unlock], up to its guarded section. *)
Lemma give_ok d : pc x = Out -> 0 < g t k ->
  returns (forget x k) (fun x' =>
    minv (put_thread (put_mutex w k (set_depth d m)) t (goto (Unlocking k) x')) (set_nest g t k 0)).
Proof using H Hx Hm.
  intros Hp Hpos. pose proof (out_inside Hp Hpos) as Hin. pose proof (mi_mutex _ _ H k m Hm) as Hok.
  assert (owner m = Some t) as Ho by (by apply out_owner).
  assert (returns (forget x k) (fun x' => self x' = self x /\ waiter x' = waiter x /\
    (self x = true -> lists_held 16 (held x') (count x') (fun k' => if decide (k' = k) then 0 else g t k')))) as Hf.
  { unfold forget. destruct (self x) eqn:Es; [|done].
    eapply returns_bind; [apply (forget_in_ok 16 _ _ (g t) k); [done| |done]|by intros [a n]].
    by apply (mi_thread _ _ H t x Hx). }
  eapply returns_mono; [exact Hf|]. intros x' (Es & Ew & Hh).
  unfold put_thread, put_mutex. cbn [mutexes threads reports].
  apply (mframe1 w g _ t x _ k _ _ 0); rewrite ?Hp; auto; [apply k_valid|apply mutex_moved_nest| |].
  - destruct (mi_thread _ _ H t x Hx). constructor; cbn; rewrite ?Es, ?Ew; auto; try done.
    + intros k' [= <-]. rewrite decide_True by done. split; [done|apply k_valid].
    + intros k' [E|E]; congruence.
    + intros k'. case_decide; [lia|auto].
  - assert (role_of (goto (Unlocking k) x') 0 k = Leaving) as ->.
    { unfold role_of. cbn. by rewrite decide_True. }
    eapply move_role; try done; cbn.
    + congruence.
    + intros t' Ht'. rewrite upd_ne; [done|]. intros ->. congruence.
    + intros t' Hne. by rewrite upd_ne.
    + congruence.
    + intros t'. rewrite (mo_owner _ _ _ _ Hok t'). unfold upd. case_decide; [|done]. subst. by rewrite Hin.
    + congruence.
Qed.

(** Taking a free mutex. *)
Lemma take_ok : owner m = None -> (wrole w g k t = Away \/ wrole w g k t = Trying) -> g t k = 0 ->
  (pc_mutex (pc x) = None \/ pc_mutex (pc x) = Some k) ->
  (self x = true -> count x < PROCESS_HELD_MUTEXES) ->
  returns (remember x k) (fun x' =>
    minv (put_thread (put_mutex w k (set_owner (Some t) 1 m)) t (goto Out x')) (set_nest g t k (g t k + 1))).
Proof using H Hx Hm.
  intros Ho Hr Hg Hp Hroom. pose proof (mi_mutex _ _ H k m Hm) as Hok. rewrite Hg.
  assert (returns (remember x k) (fun x' => self x' = self x /\ waiter x' = waiter x /\
    (self x = true -> lists_held 16 (held x') (count x') (fun k' => if decide (k' = k) then 0 + 1 else g t k')))) as Hf.
  { unfold remember. destruct (self x) eqn:Es; [|done].
    eapply returns_bind; [apply (remember_in_ok 16 _ _ (g t) k (0 + 1)); [done| |by apply Hroom|done|done]|by intros [a n]].
    by apply (mi_thread _ _ H t x Hx). }
  eapply returns_mono; [exact Hf|]. intros x' (Es & Ew & Hh).
  unfold put_thread, put_mutex. cbn [mutexes threads reports].
  apply (mframe1 w g _ t x _ k _ _ (0 + 1)); auto; [apply k_valid|apply mutex_moved_nest| |].
  - destruct (mi_thread _ _ H t x Hx). constructor; cbn; rewrite ?Es, ?Ew; auto; try done.
    + intros k' [E|E]; congruence.
    + intros k'. case_decide; [|auto]. subst. split; [lia|]. intros _. apply k_valid.
  - change (role_of (goto Out x') (0 + 1) k) with Inside.
    assert (forall t', owns (wrole w g k t') = false) as Hno.
    { intros t'. destruct (owns _) eqn:E; [|done]. apply (mo_owner _ _ _ _ Hok) in E. congruence. }
    eapply move_role; try done; cbn.
    + destruct Hr; congruence.
    + intros t' Ht'. rewrite upd_ne; [done|]. intros ->. destruct Hr; congruence.
    + intros t' Hne. by rewrite upd_ne.
    + intros t'. unfold upd. case_decide as E; [by subst|]. rewrite Hno. split; congruence.
    + by rewrite upd_eq.
    + congruence.
Qed.
End held.

(** *** The loop of [mutex_lock] *)

Section loop.
Context (w : world) (g : ghost) (t : nat) (x : thread) (k : nat) (m : mutex).
Hypothesis (H : minv w g) (Hx : threads w !! t = Some x) (Hm : mutexes w !! k = Some m).

(** A thread that neither queues nor owns moves on. *)
Lemma mutex_quiet_ok x' reps :
  (pc_mutex (pc x) = None \/ pc_mutex (pc x) = Some k) -> pc_mutex (pc x') = Some k ->
  wrole w g k t <> Queued -> owns (wrole w g k t) = false -> g t k = 0 -> role_of x' 0 k = Trying ->
  thread_ok (length (mutexes w)) (g t) x' ->
  minv (World (mutexes w) (<[t := x']> (threads w)) reps) g.
Proof using H Hx Hm.
  intros Hp Hp' Hq Ho Hg Hr Hth. rewrite <- (list_insert_id (mutexes w) k m Hm).
  pose proof (mi_mutex _ _ H k m Hm) as Hok.
  apply (mframe1 w g g t x _ k _ _ (g t k)); auto; [by eapply lookup_lt_Some|apply mutex_moved_none|by apply thread_ok_same|].
  rewrite Hg, Hr. eapply move_role; try done; cbn; auto.
  - intros t' Ht'. rewrite upd_ne; [done|]. congruence.
  - intros t' Hne. by rewrite upd_ne.
  - intros t'. rewrite (mo_owner _ _ _ _ Hok t'). unfold upd. case_decide; [|done]. subst. by rewrite Ho.
Qed.

Lemma trying_fresh : pc_mutex (pc x) = Some k -> g t k = 0.
Proof using H Hx. intros E. by apply (mi_thread _ _ H t x Hx). Qed.

Lemma role_at r : pc_mutex (pc x) = Some k -> role_of x 0 k = r -> wrole w g k t = r.
Proof using H Hx. intros E Er. rewrite (wrole_at w g k t x Hx), (trying_fresh E). done. Qed.

Lemma queued_thread_ok v :
  pc_mutex (pc x) = Some k -> locking (pc x) = true -> self x = true ->
  lost v = lost (waiter x) -> woken v = false -> granted v = false ->
  thread_ok (length (mutexes w)) (g t) (set_waiter v (goto (Waiting k) x)).
Proof using H Hx.
  intros Hp Hl Hs El Ew Eg. destruct (mi_thread _ _ H t x Hx). constructor; cbn; auto.
  - intros k' [= <-]. by apply to_fresh0.
  - by rewrite El.
  - intros k' _. by rewrite Ew, Eg.
Qed.

Lemma queued_role v : woken v = false -> role_of (set_waiter v (goto (Waiting k) x)) (g t k) k = Queued.
Proof using Type. intros Hv. unfold role_of. cbn. by rewrite decide_True, Hv. Qed.

(** Joining the queue without touching another waiter. *)
Lemma enqueue_own v m' reps front : wrole w g k t = Trying -> pc_mutex (pc x) = Some k ->
  locking (pc x) = true -> self x = true -> owner m <> None -> owner m' = owner m -> depth m' = depth m ->
  v = Waiter (w_next v) false false (lost (waiter x)) ->
  (if front : bool then
     w_next v = first m /\ first m' = Some t /\ last m' = match last m with None => Some t | Some l => Some l end
   else last m = None /\ w_next v = None /\ last m' = Some t /\ first m' = Some t) ->
  minv (World (<[k := m']> (mutexes w)) (<[t := set_waiter v (goto (Waiting k) x)]> (threads w)) reps) g.
Proof using H Hx Hm.
  intros Hr Hp Hl Hs Ho Eo Ed Ev Hb. pose proof (mi_mutex _ _ H k m Hm) as Hok.
  destruct v as [nv gv wv lv]. cbn in Ev, Hb. injection Ev as -> -> ->.
  apply (mframe1 w g g t x _ k _ _ (g t k)); rewrite ?Hp; auto.
  - by eapply lookup_lt_Some.
  - apply mutex_moved_none.
  - apply thread_ok_same, queued_thread_ok; done.
  - rewrite queued_role by done.
    apply (move_queue m m' _ _ _ _ _ t Hok front); try done.
    + intros t'. unfold upd. case_decide; [|done]. subst. unfold wnest. by rewrite Hx.
    + cbn. destruct front; [by destruct Hb as (-> & ? & ?)|]. destruct Hb as (-> & -> & ? & ?). done.
Qed.

Lemma queued_inv t' : wrole w g k t' = Queued ->
  exists y, threads w !! t' = Some y /\ pc y = Waiting k /\ woken (waiter y) = false.
Proof using Type.
  unfold wrole. destruct (threads w !! t') as [y|]; [|done]. intros Hq. exists y. split; [done|].
  unfold role_of in Hq. destruct (decide _) as [D|D]; [|by destruct (0 <? _)].
  destruct (pc y) as [| | | k'|]; try done. cbn in D. injection D as ->.
  destruct (woken (waiter y)); [by destruct (granted _)|done].
Qed.

Lemma last_queued l : last m = Some l -> wrole w g k l = Queued.
Proof using H Hm.
  intros El. destruct (mo_queue _ _ _ _ (mi_mutex _ _ H k m Hm)) as (Q & _ & H2 & _ & H4 & _). apply H2.
  rewrite El, last_lookup in H4. symmetry in H4. by eapply list_elem_of_lookup_2.
Qed.

(** Joining the queue behind the waiter [l]. *)
Lemma enqueue_behind l y reps : wrole w g k t = Trying -> pc_mutex (pc x) = Some k ->
  locking (pc x) = true -> self x = true -> owner m <> None -> last m = Some l -> threads w !! l = Some y ->
  let x' := set_waiter (Waiter None false false (lost (waiter x))) (goto (Waiting k) x) in
  let y' := set_waiter (Waiter (Some t) (granted (waiter y)) (woken (waiter y)) (lost (waiter y))) y in
  minv (World (<[k := set_queue (first m) (Some t) m]> (mutexes w)) (<[l := y']> (<[t := x']> (threads w))) reps) g.
Proof using H Hx Hm.
  intros Hr Hp Hl Hs Ho El Hy x' y'. pose proof (mi_mutex _ _ H k m Hm) as Hok.
  pose proof (last_queued l El) as Hlq. assert (l <> t) as Hne by congruence.
  destruct (queued_inv l Hlq) as (y0 & Hy0 & Hyp & Hyw). rewrite Hy in Hy0. injection Hy0 as <-.
  pose proof (lookup_lt_Some _ _ _ Hx) as Hlt. pose proof (lookup_lt_Some _ _ _ Hy) as Hlt'.
  set (ths := <[l := y']> _).
  assert (ths !! t = Some x') as Ht by (unfold ths; by rewrite list_lookup_insert_ne, list_lookup_insert_eq).
  assert (ths !! l = Some y') as Hll by (unfold ths; by rewrite list_lookup_insert_eq by (by rewrite length_insert)).
  assert (forall t', t' <> t -> t' <> l -> ths !! t' = threads w !! t') as Hoth
    by (intros; unfold ths; by rewrite !list_lookup_insert_ne).
  eapply (mframe w g g t x x' k); try done; rewrite ?Hp; auto.
  - by eapply lookup_lt_Some.
  - apply mutex_moved_none.
  - unfold ths. by rewrite !length_insert.
  - intros t' z z' Htt Hz. destruct (decide (t' = l)) as [->|Htl].
    + rewrite Hll. intros [= <-]. right. rewrite Hy in Hz. injection Hz as <-. split_and!; try done.
      destruct (mi_thread _ _ H l y Hy). constructor; cbn; auto.
    + rewrite Hoth, Hz by done. intros [= <-]. by left.
  - apply thread_ok_same, queued_thread_ok; done.
  - cbv zeta. eapply mutex_ok_ext;
      [apply (move_queue m (set_queue (first m) (Some t) m) _ _ (upd (upd (wnext w) t None) l (Some t)) _
         (wnest w g k) t Hok false)|..]; try done.
    + split; [done|]. rewrite El. done.
    + intros t'. unfold wrole, upd. cbn [threads]. destruct (decide (t' = t)) as [->|Htt].
      * rewrite Ht. by apply queued_role.
      * destruct (decide (t' = l)) as [->|Htl]; [by rewrite Hll, Hy|by rewrite Hoth].
    + intros t' _. unfold wnext, upd. cbn [threads]. destruct (decide (t' = l)) as [->|Htl]; [by rewrite Hll|].
      destruct (decide (t' = t)) as [->|Htt]; [by rewrite Ht|by rewrite Hoth].
    + intros t' _. unfold wnest. cbn [threads]. destruct (decide (t' = t)) as [->|Htt]; [by rewrite Ht, Hx|].
      destruct (decide (t' = l)) as [->|Htl]; [by rewrite Hll, Hy|by rewrite Hoth].
Qed.

Lemma enqueue_ok : wrole w g k t = Trying -> pc_mutex (pc x) = Some k -> locking (pc x) = true ->
  self x = true -> owner m <> None -> returns (enqueue w t k m x) (fun w' => minv w' g).
Proof using H Hx Hm.
  intros Hr Hp Hl Hs Ho. unfold enqueue. destruct (Z.eqb_spec (lost (waiter x)) 0) as [E|E]; cbn [negb].
  - destruct (last m) as [l|] eqn:El.
    + pose proof (last_queued l El) as Hlq. destruct (queued_inv l Hlq) as (y & Hy & _).
      unfold get_thread. cbn [threads put_thread]. rewrite list_lookup_insert_ne, Hy, bind_ret by congruence.
      by apply (enqueue_behind l y).
    + by apply (enqueue_own _ _ _ false).
  - by apply (enqueue_own _ _ _ true).
Qed.
End loop.

(** *** Every step *)

Lemma remember_pc x k x' : remember x k = Ret x' -> pc x' = pc x.
Proof.
  unfold remember. destruct (self x); [|by intros [= <-]].
  destruct (remember_in _ _ _ _) as [[a n]| |]; try done. cbn. by intros [= <-].
Qed.

Section steps.
Context (w : world) (g : ghost) (t : nat) (x : thread) (k : nat) (m : mutex).
Hypothesis (H : minv w g) (Hx : threads w !! t = Some x) (Hm : mutexes w !! k = Some m).

Let gets : get_thread w t = Ret x /\ get_mutex w k = Ret m.
Proof. unfold get_thread, get_mutex. by rewrite Hx, Hm. Qed.

Lemma is_owner_spec : is_owner m t = true <-> owner m = Some t.
Proof using Type. apply bool_decide_eq_true. Qed.

Lemma mutex_again_ok : pc x = Out -> is_owner m t = true -> g t k + 1 < 2 ^ 32 ->
  good g t (put_mutex w k (set_depth (u32 (depth m + 1)) m), Took k).
Proof using H Hx Hm.
  intros Hp Ho%is_owner_spec Hb. apply (out_owner w g t x k m H Hx Hm Hp) in Ho.
  destruct (inside_depth w g t x k m H Hx Hm Hp Ho) as [Ed Hn]. unfold good. cbn.
  rewrite Ed, u32_small by lia. apply (mutex_set_depth_ok w g t x k m H Hx Hm); (done || lia).
Qed.

Lemma not_owner : is_owner m t = false -> owner m <> Some t.
Proof using Type. intros E Ho%is_owner_spec. congruence. Qed.

Lemma trylock_ok : pc x = Out -> (self x = true -> count x < PROCESS_HELD_MUTEXES) -> g t k + 1 < 2 ^ 32 ->
  returns (mutex_trylock w t k) (good g t).
Proof using H Hx Hm gets.
  intros Hp Hc Hb. unfold mutex_trylock. destruct gets as [-> ->]. rewrite !bind_ret.
  destruct (is_owner m t) eqn:Eo; [by apply mutex_again_ok|]. apply not_owner in Eo.
  destruct (owner m) eqn:E; [done|].
  destruct (out_away w g t x k m H Hx Hm Hp ltac:(congruence)) as [Hr Hg].
  pose proof (take_ok w g t x k m H Hx Hm E ltac:(by left) Hg ltac:(rewrite Hp; by left) Hc) as Ht.
  destruct (remember x k) as [x'| |] eqn:Er; try done. cbn. unfold good. cbn [fst snd observe].
  apply remember_pc in Er. replace x' with (goto Out x'); [done|].
  rewrite Hp in Er. destruct x'. cbn in Er. by rewrite Er.
Qed.

Lemma check_order_loop_ok : self x = true -> forall n i, 0 <= i -> i + Z.of_nat n <= count x ->
  returns (check_order_loop w (held x) (rank m) i n) (fun w' =>
    exists r, w' = World (mutexes w) (threads w) r).
Proof using H Hx Hm gets.
  intros Hs. pose proof (mi_thread _ _ H t x Hx) as [].
  destruct (to_held0 Hs) as (Hl & L & _ & Hc & Hb & Ht & HL).
  induction n as [|n IH]; intros i Hi Hn; cbn [check_order_loop].
  - exists (reports w). by destruct w.
  - destruct (lookup_lt_is_Some_2 L (Z.to_nat i) ltac:(lia)) as [k' Hk'].
    assert (held x !! Z.to_nat i = Some k') as Hik by (rewrite <- Hk', <- Ht at 1; by rewrite lookup_take_lt by lia).
    rewrite (rd_lookup _ _ k'), bind_ret by done.
    assert (k' < length (mutexes w))%nat as Hlt by (apply (to_nest0 k'), HL; by eapply list_elem_of_lookup_2).
    destruct (lookup_lt_is_Some_2 _ _ Hlt) as [o Ho]. unfold get_mutex. rewrite Ho, bind_ret.
    destruct (_ <=? _); [apply IH; lia|by eexists].
Qed.

Lemma mutex_check_order_ok : self x = true ->
  returns (check_order w x m) (fun w' => exists r, w' = World (mutexes w) (threads w) r).
Proof using H Hx Hm gets.
  intros Hs. unfold check_order. destruct (to_held _ _ _ (mi_thread _ _ H t x Hx) Hs) as (_ & L & _ & Hc & _).
  apply check_order_loop_ok; [done|lia|]. destruct (_ <? _) eqn:E; unfold PROCESS_HELD_MUTEXES in *; lia.
Qed.

Lemma mutex_lock_ok b : pc x = Out -> (self x = true -> count x < PROCESS_HELD_MUTEXES) -> g t k + 1 < 2 ^ 32 ->
  returns (mutex_lock w t k b) (good g t).
Proof using H Hx Hm gets.
  intros Hp Hc Hb. unfold mutex_lock. destruct gets as [-> ->]. rewrite !bind_ret.
  destruct (is_owner m t) eqn:Eo; [by apply mutex_again_ok|]. apply not_owner in Eo.
  destruct (out_away w g t x k m H Hx Hm Hp Eo) as [Hr Hg].
  eapply returns_bind with (P := fun w' => exists r, w' = World (mutexes w) (threads w) r).
  { destruct (self x) eqn:Es; [by apply mutex_check_order_ok|]. exists (reports w). by destruct w. }
  intros w' [r ->]. cbn [returns]. unfold good. cbn.
  apply (mutex_quiet_ok w g t x k m H Hx Hm); rewrite ?Hp, ?Hr; cbn; auto; try done.
  - unfold role_of. cbn. by rewrite decide_True.
  - destruct (mi_thread _ _ H t x Hx). constructor; cbn; auto; try done.
    + intros k' [= <-]. split; [done|]. by eapply lookup_lt_Some.
    + intros k' [E|E]; congruence.
Qed.

Lemma unlock_ok : pc x = Out -> returns (mutex_unlock w t k) (good g t).
Proof using H Hx Hm gets.
  intros Hp. unfold mutex_unlock. destruct gets as [-> ->]. rewrite !bind_ret.
  destruct (is_owner m t) eqn:Eo; cbn [negb]; [|by apply minv_reports].
  apply is_owner_spec, (out_owner w g t x k m H Hx Hm Hp) in Eo.
  destruct (inside_depth w g t x k m H Hx Hm Hp Eo) as [Ed Hn]. cbn [depth set_depth].
  rewrite Ed, u32_small by lia. destruct (Z.eqb_spec (g t k - 1) 0) as [E0|E0]; cbn [negb].
  - eapply returns_bind; [by apply (give_ok w g t x k m H Hx Hm (g t k - 1))|]. intros x' Hx'.
    cbn [returns]. unfold good. cbn [fst snd observe]. by rewrite E0 in *.
  - cbn [returns]. unfold good. cbn. apply (mutex_set_depth_ok w g t x k m H Hx Hm); (done || lia).
Qed.

Lemma release_all_ok : pc x = Out -> returns (mutex_release_all w t k) (good g t).
Proof using H Hx Hm gets.
  intros Hp. unfold mutex_release_all, mutex_held. destruct gets as [E1 E2]. rewrite E2, !bind_ret.
  destruct (is_owner m t) eqn:Eo; cbn [negb]; [|done].
  unfold mutex_unlock, get_thread, get_mutex. cbn [threads mutexes put_mutex].
  rewrite Hx, bind_ret, list_lookup_insert_eq, bind_ret by (by eapply lookup_lt_Some).
  change (is_owner (set_depth 1 m) t) with (is_owner m t). rewrite Eo. cbn [negb].
  cbn [depth set_depth]. change (u32 (1 - 1) =? 0) with true. cbn [negb].
  apply is_owner_spec, (out_owner w g t x k m H Hx Hm Hp) in Eo.
  pose proof (give_ok w g t x k m H Hx Hm (u32 (1 - 1)) Hp Eo) as Hg.
  destruct (forget x k) as [x'| |]; try done. cbn. unfold good, put_thread, put_mutex in *. cbn in *.
  by rewrite list_insert_insert_eq.
Qed.

Lemma reacquire_ok d : pc x = Out -> 0 < g t k -> 0 < d < 2 ^ 32 -> returns (mutex_reacquire w t k d) (good g t).
Proof using H Hx Hm gets.
  intros Hp Hpos Hd. unfold mutex_reacquire. destruct gets as [_ ->]. rewrite bind_ret.
  cbn [returns]. unfold good. cbn. by apply (mutex_set_depth_ok w g t x k m H Hx Hm).
Qed.
End steps.

Section inner_steps.
Context (w : world) (g : ghost) (t : nat) (x : thread) (k : nat) (m : mutex).
Hypothesis (H : minv w g) (Hx : threads w !! t = Some x) (Hm : mutexes w !! k = Some m).

Lemma loop_ok sleeping running spinning : pc x = Looping k sleeping ->
  returns (loop_step w t k sleeping running spinning) (good g t).
Proof using H Hx Hm.
  intros Hp. assert (pc_mutex (pc x) = Some k) as Hk by (by rewrite Hp).
  assert (wrole w g k t = Trying) as Hr.
  { apply (role_at w g t x k H Hx _ Hk). unfold role_of. rewrite Hp. cbn. by rewrite decide_True. }
  pose proof (trying_fresh w g t x k H Hx Hk) as Hg. pose proof (mi_thread _ _ H t x Hx) as Hth.
  unfold loop_step, get_thread, get_mutex. rewrite Hx, bind_ret, Hm, bind_ret.
  destruct (owner m) as [o|] eqn:Eo.
  - branch E1; [done|]. branch E2.
    + destruct spinning; [done|]. cbn [returns]. unfold good. cbn.
      apply (mutex_quiet_ok w g t x k m H Hx Hm); rewrite ?Hr; cbn; auto; try done.
      * unfold role_of. cbn. by rewrite decide_True.
      * apply orb_false_iff in E1 as [_ Es%negb_false_iff]. destruct Hth. constructor; cbn; rewrite ?Hp in *; auto; try done.
    + eapply returns_bind; [apply (enqueue_ok w g t x k m H Hx Hm Hr Hk); rewrite ?Hp; try done|done].
      * by apply orb_false_iff in E1 as [_ Es%negb_false_iff].
      * congruence.
  - eapply returns_bind; [apply (take_ok w g t x k m H Hx Hm Eo); auto|done].
    intros Hs. apply (to_room _ _ _ Hth); [by rewrite Hp|done].
Qed.

Lemma recheck_ok : pc x = Recheck k -> returns (recheck_step w t k) (good g t).
Proof using H Hx Hm.
  intros Hp. assert (pc_mutex (pc x) = Some k) as Hk by (by rewrite Hp).
  assert (wrole w g k t = Trying) as Hr.
  { apply (role_at w g t x k H Hx _ Hk). unfold role_of. rewrite Hp. cbn. by rewrite decide_True. }
  pose proof (trying_fresh w g t x k H Hx Hk) as Hg. pose proof (mi_thread _ _ H t x Hx) as Hth.
  unfold recheck_step, get_thread, get_mutex. rewrite Hx, bind_ret, Hm, bind_ret.
  destruct (owner m) as [o|] eqn:Eo.
  - eapply returns_bind; [apply (enqueue_ok w g t x k m H Hx Hm Hr Hk); rewrite ?Hp; try done|done].
    + apply (to_process _ _ _ Hth k). auto.
    + congruence.
  - cbn [returns]. unfold good. cbn. apply (mutex_quiet_ok w g t x k m H Hx Hm); rewrite ?Hr; cbn; auto; try done.
    + unfold role_of. cbn. by rewrite decide_True.
    + destruct Hth. constructor; cbn; rewrite ?Hp in *; auto; try done. intros k' [E|E]; congruence.
Qed.

Lemma waiting_ok : pc x = Waiting k -> returns (waiting_step w t k) (good g t).
Proof using H Hx Hm.
  intros Hp. assert (pc_mutex (pc x) = Some k) as Hk by (by rewrite Hp).
  pose proof (trying_fresh w g t x k H Hx Hk) as Hg. pose proof (mi_thread _ _ H t x Hx) as Hth.
  pose proof (mi_mutex _ _ H k m Hm) as Hok. pose proof Hth as [].
  assert (self x = true) as Hs by (apply (to_process0 k); auto).
  unfold waiting_step, get_thread. rewrite Hx, bind_ret.
  destruct (woken (waiter x)) eqn:Ew; cbn [negb]; [|done]. destruct (granted (waiter x)) eqn:Eg.
  - assert (wrole w g k t = Granted) as Hr.
    { apply (role_at w g t x k H Hx _ Hk). unfold role_of. rewrite Hp. cbn. by rewrite decide_True, Ew, Eg. }
    assert (returns (remember x k) (fun x' => self x' = self x /\ waiter x' = waiter x /\
      lists_held 16 (held x') (count x') (fun k' => if decide (k' = k) then 0 + 1 else g t k'))) as Hf.
    { unfold remember. rewrite Hs. eapply returns_bind; [apply (remember_in_ok 16 _ _ (g t) k (0 + 1)); [done|auto| |done|done]|by intros [a n]].
      apply to_room0; [by rewrite Hp|done]. }
    eapply returns_bind; [exact Hf|]. intros x' (Es & Ewt & Hh). cbn [returns]. unfold good. cbn [fst snd observe].
    unfold put_thread. rewrite <- (list_insert_id (mutexes w) k m Hm), Hg.
    apply (mframe1 w g _ t x _ k _ _ (0 + 1)); rewrite ?Hp; auto; [by eapply lookup_lt_Some|apply mutex_moved_nest| |].
    + constructor; cbn; rewrite ?Es, ?Ewt; auto; try done.
      intros k'. case_decide; [|auto]. subst. split; [lia|]. intros _. by eapply lookup_lt_Some.
    + change (role_of (goto Out x') (0 + 1) k) with Inside. eapply move_role; try done; cbn.
      * congruence.
      * intros t' Ht'. rewrite upd_ne; [done|]. congruence.
      * intros t' Hne. by rewrite upd_ne.
      * intros E. assert (owner m = Some t) as E'; [|congruence]. apply (mo_owner _ _ _ _ Hok). by rewrite Hr.
      * intros t'. rewrite (mo_owner _ _ _ _ Hok t'). unfold upd. case_decide; [|done]. subst. by rewrite Hr.
      * intros _. rewrite upd_eq. apply (mo_granted _ _ _ _ Hok t Hr).
  - assert (wrole w g k t = Woken) as Hr.
    { apply (role_at w g t x k H Hx _ Hk). unfold role_of. rewrite Hp. cbn. by rewrite decide_True, Ew, Eg. }
    destruct (to_woken0 k Hp) as [_ Hl]. specialize (Hl eq_refl eq_refl). unfold STEALS_BEFORE_HANDOFF in *.
    cbn [returns]. unfold good. cbn. apply (mutex_quiet_ok w g t x k m H Hx Hm); rewrite ?Hr; cbn; auto; try done.
    + unfold role_of. cbn. by rewrite decide_True.
    + constructor; cbn; rewrite ?Hp in *; auto; try done.
      rewrite u32_small by lia. unfold STEALS_BEFORE_HANDOFF. lia.
Qed.

Lemma unlocked_thread : pc x = Unlocking k ->
  thread_ok (length (mutexes w)) (fun k' => if decide (k' = k) then 0 else g t k') (goto Out x) /\ g t k = 0.
Proof using H Hx.
  intros Hp. assert (g t k = 0) as Hg by (apply (trying_fresh w g t x k H Hx); by rewrite Hp).
  split; [|done]. assert (thread_ok (length (mutexes w)) (g t) (goto Out x)) as E%(thread_ok_same _ _ _ k).
  { destruct (mi_thread _ _ H t x Hx). constructor; cbn; auto; try done. intros k' [E|E]; congruence. }
  by rewrite Hg in E.
Qed.

(** Letting go with a waiter at the head of the queue. *)
Lemma wake_ok n y reps : pc x = Unlocking k -> first m = Some n -> threads w !! n = Some y ->
  let v := waiter y in
  let handoff := STEALS_BEFORE_HANDOFF <=? lost v in
  let m1 := set_queue (w_next v) (match w_next v with None => None | Some _ => last m end) (set_owner None (depth m) m) in
  let y' := set_waiter (Waiter (w_next v) (if handoff then true else granted v) true (lost v)) y in
  minv (World (<[k := if handoff then set_owner (Some n) 1 m1 else m1]> (mutexes w))
    (<[n := y']> (<[t := goto Out x]> (threads w))) reps) g.
Proof using H Hx Hm.
  intros Hp Hf Hy v handoff m1 y'. pose proof (mi_mutex _ _ H k m Hm) as Hok.
  destruct (unlocked_thread Hp) as [Hth Hg].
  assert (wrole w g k t = Leaving) as Hr.
  { apply (role_at w g t x k H Hx); rewrite ?Hp; [done|]. unfold role_of. rewrite Hp. cbn. by rewrite decide_True. }
  set (m2 := if handoff then set_owner (Some n) 1 m1 else m1).
  destruct (move_wake m m2 _ _ _ t n handoff Hok Hr Hf) as [Hnq Hok'].
  { subst m2. by destruct handoff. }
  { intros E. subst m2. by rewrite E. }
  { unfold wnext. rewrite Hy. subst m2. by destruct handoff. }
  { unfold wnext. rewrite Hy. subst m2. by destruct handoff. }
  assert (n <> t) as Hne by congruence.
  destruct (queued_inv w g k n Hnq) as (y0 & Hy0 & Hyp & Hyw). rewrite Hy in Hy0. injection Hy0 as <-.
  pose proof (lookup_lt_Some _ _ _ Hx) as Hlt. pose proof (lookup_lt_Some _ _ _ Hy) as Hlt'.
  pose proof (mi_thread _ _ H n y Hy) as Hty. destruct (to_woken _ _ _ Hty k Hyp) as [Hyg _]. specialize (Hyg Hyw).
  set (ths := <[n := y']> _).
  assert (ths !! t = Some (goto Out x)) as Ht by (unfold ths; by rewrite list_lookup_insert_ne, list_lookup_insert_eq).
  assert (ths !! n = Some y') as Hnn by (unfold ths; by rewrite list_lookup_insert_eq by (by rewrite length_insert)).
  assert (forall t', t' <> t -> t' <> n -> ths !! t' = threads w !! t') as Hoth
    by (intros; unfold ths; by rewrite !list_lookup_insert_ne).
  eapply (mframe w g g t x (goto Out x) k _ _ _ 0); try done; rewrite ?Hp; auto.
  - by eapply lookup_lt_Some.
  - intros t' k'. case_decide as D; [|done]. by destruct D as [-> ->].
  - unfold ths. by rewrite !length_insert.
  - intros t' z z' Htt Hz. destruct (decide (t' = n)) as [->|Htn].
    + rewrite Hnn. intros [= <-]. right. rewrite Hy in Hz. injection Hz as <-. split_and!; try done.
      destruct Hty. constructor; cbn; auto. intros k' _. split; [done|]. intros _ E.
      destruct handoff eqn:Eh; [done|]. subst handoff v. lia.
    + rewrite Hoth, Hz by done. intros [= <-]. by left.
  - cbv zeta. eapply mutex_ok_ext; [exact Hok'|..]; try done.
    + intros t'. unfold wrole, upd. cbn [threads]. destruct (decide (t' = n)) as [->|Htn].
      * rewrite Hnn. unfold role_of. cbn. rewrite Hyp. cbn. rewrite decide_True by done. unfold v. rewrite ?Hyg.
        by destruct handoff.
      * destruct (decide (t' = t)) as [->|Htt]; [rewrite Ht; unfold role_of; cbn; by rewrite Hg|by rewrite Hoth].
    + intros t' _. unfold wnext. cbn [threads]. destruct (decide (t' = n)) as [->|Htn]; [by rewrite Hnn, Hy|].
      destruct (decide (t' = t)) as [->|Htt]; [by rewrite Ht, Hx|by rewrite Hoth].
    + intros t' _. unfold wnest. cbn [threads]. destruct (decide (t' = n)) as [->|Htn]; [by rewrite Hnn, Hy|].
      destruct (decide (t' = t)) as [->|Htt]; [by rewrite Ht, Hx|by rewrite Hoth].
Qed.

Lemma unlocking_ok : pc x = Unlocking k -> returns (unlock_step w t k) (good g t).
Proof using H Hx Hm.
  intros Hp. pose proof (mi_mutex _ _ H k m Hm) as Hok. destruct (unlocked_thread Hp) as [Hth Hg].
  assert (wrole w g k t = Leaving) as Hr.
  { apply (role_at w g t x k H Hx); rewrite ?Hp; [done|]. unfold role_of. rewrite Hp. cbn. by rewrite decide_True. }
  unfold unlock_step. assert (get_thread w t = Ret x) as -> by (unfold get_thread; by rewrite Hx).
  unfold get_mutex. rewrite bind_ret, Hm, bind_ret. cbn [first set_owner]. destruct (first m) as [n|] eqn:Ef.
  - assert (wrole w g k n = Queued) as Hnq.
    { destruct (mo_queue _ _ _ _ Hok) as (Q & _ & H2 & H3 & _). apply H2. rewrite Ef in H3.
      destruct Q; [done|]. injection H3 as ->. by left. }
    destruct (queued_inv w g k n Hnq) as (y & Hy & _). assert (n <> t) as Hne by congruence.
    unfold get_thread. cbn [threads put_thread]. rewrite list_lookup_insert_ne, Hy, bind_ret by done.
    cbn [returns]. unfold good. cbn [fst snd observe]. by apply (wake_ok n y).
  - cbn [returns]. unfold good. cbn [fst snd observe put_mutex put_thread mutexes threads reports].
    apply (mframe1 w g g t x _ k _ _ 0); rewrite ?Hp; auto; [by eapply lookup_lt_Some| |].
    + rewrite <- Hg. apply mutex_moved_none.
    + change (role_of (goto Out x) 0 k) with Away.
      eapply mutex_ok_ext; [by eapply (move_free m (set_owner None (depth m) m) _ _ _ t Hok Hr Ef)|..]; try done.
      * intros t' _. unfold upd. case_decide; [|done]. subst. unfold wnext. by rewrite Hx.
      * intros t' _. unfold upd. case_decide; [|done]. subst. unfold wnest. by rewrite Hx, Hg.
Qed.
End inner_steps.

(** ** Every step keeps the invariant *)

Lemma check_released_ok w g t x : minv w g -> threads w !! t = Some x ->
  returns (mutex_check_released w t) (good g t).
Proof.
  intros H Hx. unfold mutex_check_released, get_thread. rewrite Hx, bind_ret. branch E; [done|].
  apply orb_false_iff in E as [Es%negb_false_iff Ec%Z.eqb_neq]. branch Er; [|by apply minv_reports].
  destruct (mi_thread _ _ H t x Hx). destruct (to_held0 Es) as (Hl & L & H1 & H2 & H3 & H4 & H5).
  destruct L as [|k L]; [cbn in *; lia|].
  assert (held x !! 0%nat = Some k) as Hk by (destruct (held x); cbn in *; congruence).
  rewrite (rd_lookup _ _ k), bind_ret by done. unfold get_mutex.
  destruct (to_nest0 k) as [_ Hv]. specialize (Hv (proj1 (H5 k) ltac:(by left))).
  destruct (lookup_lt_is_Some_2 _ _ Hv) as [m ->]. cbn. by apply minv_reports.
Qed.

Lemma thread_step_ok w g t what running spinning : minv w g -> admissible w g t what ->
  returns (thread_step w t what running spinning) (good g t).
Proof.
  intros H Ha. unfold admissible in Ha. destruct (threads w !! t) as [x|] eqn:Hx; [|done].
  assert (get_thread w t = Ret x) as Et by (unfold get_thread; by rewrite Hx).
  unfold thread_step. rewrite Et, bind_ret.
  assert (forall k, (k < length (mutexes w))%nat -> exists m, mutexes w !! k = Some m /\ get_mutex w k = Ret m) as Hgm.
  { intros k [m Hm]%lookup_lt_is_Some_2. exists m. split; [done|]. unfold get_mutex. by rewrite Hm. }
  assert (forall k, pc_mutex (pc x) = Some k -> exists m, mutexes w !! k = Some m) as Hin.
  { intros k Hk. apply lookup_lt_is_Some_2. by apply (to_fresh _ _ _ (mi_thread _ _ H t x Hx)). }
  destruct (pc x) as [|k s|k|k|k] eqn:Hp.
  - destruct what as [k b|k|k|k|k d|]; try (destruct Ha as [Hk Ha]); try (destruct (Hgm k) as (m & Hm & Em); [done|]).
    + destruct Ha. by eapply mutex_lock_ok.
    + destruct Ha. by eapply trylock_ok.
    + by eapply unlock_ok.
    + by eapply release_all_ok.
    + destruct Ha. by eapply reacquire_ok.
    + by eapply check_released_ok.
  - destruct (Hin k eq_refl) as [m Hm]. by eapply loop_ok.
  - destruct (Hin k eq_refl) as [m Hm]. by eapply recheck_ok.
  - destruct (Hin k eq_refl) as [m Hm]. by eapply waiting_ok.
  - destruct (Hin k eq_refl) as [m Hm]. by eapply unlocking_ok.
Qed.

Lemma mutex_boot_inv ranks kinds : minv (boot ranks kinds) (fun _ _ => 0).
Proof.
  constructor; cbn.
  - intros t x Hx. rewrite length_map. apply list_lookup_fmap_Some_1 in Hx as (b & -> & _).
    constructor; cbn; try done; try lia; [|by intros k [?|?]]. intros _. by apply lists_held_nil.
  - intros k m Hm. apply list_lookup_fmap_Some_1 in Hm as (r & -> & _).
    assert (forall t, wrole (boot ranks kinds) (fun _ _ => 0) k t = Away) as E.
    { intros t. unfold wrole. cbn. destruct (map new_thread kinds !! t) as [x|] eqn:Hx; [|done].
      by apply list_lookup_fmap_Some_1 in Hx as (b & -> & _). }
    constructor; cbn; try (intros t; by rewrite E).
    exists []. split_and!; try done; [constructor|]. intros t. by rewrite E, elem_of_nil.
Qed.

Lemma mutex_runs_inv ranks kinds w g : runs ranks kinds w g -> minv w g.
Proof.
  unfold runs. intros H. remember ((boot ranks kinds, fun _ _ => 0) : world * ghost) as a eqn:Ea. remember (w, g) as b eqn:Eb.
  assert (minv a.1 a.2) as Hi by (subst; apply mutex_boot_inv). clear Ea.
  revert w g Eb. induction H as [a|a c b Hstep _ IH]; intros w g ->; [done|].
  apply IH; [|done]. destruct Hstep as (t & what & r & s & e & Ha & Hs & Hg).
  pose proof (thread_step_ok a.1 a.2 t what r s Hi Ha) as Hr. rewrite Hs in Hr. by rewrite Hg.
Qed.

(** ** Properties *)

Lemma inside_sole w g k t t' : minv w g -> (k < length (mutexes w))%nat ->
  owns (wrole w g k t) = true -> owns (wrole w g k t') = true -> t = t'.
Proof.
  intros H [m Hm]%lookup_lt_is_Some_2 H1 H2. pose proof (mi_mutex _ _ H k m Hm) as Hok.
  by eapply sole_owner.
Qed.

Lemma nest_inside w g t x k : minv w g -> threads w !! t = Some x -> 0 < g t k ->
  (k < length (mutexes w))%nat /\ wrole w g k t = Inside.
Proof.
  intros H Hx Hg. pose proof (mi_thread _ _ H t x Hx) as []. split; [by apply to_nest0|].
  unfold wrole. rewrite Hx. unfold role_of. rewrite decide_False; [by replace (0 <? g t k) with true by lia|].
  intros E%to_fresh0. lia.
Qed.

(** C7. A mutex has one holder.  In every state that any interleaving of calls
    by any number of threads (processes and processors) reaches, two threads
    that have taken a mutex are the same thread; the mutex names that thread
    as its owner and counts how often it has taken it, so that [mutex_held]
    answers every caller truthfully; the process's array of held mutexes lists
    exactly what it holds; and no admissible call reads outside an array or
    through a mutex that is not there. *)
Theorem mutex_mutual_exclusion ranks kinds w g : runs ranks kinds w g ->
  (forall t t' x x' k, threads w !! t = Some x -> threads w !! t' = Some x' ->
     0 < g t k -> 0 < g t' k -> t = t') /\
  (forall t x k, threads w !! t = Some x -> 0 < g t k ->
     exists m, mutexes w !! k = Some m /\ owner m = Some t /\ depth m = g t k) /\
  (forall t x k, threads w !! t = Some x -> pc x = Out -> (k < length (mutexes w))%nat ->
     mutex_held w t k = Ret (0 <? g t k)) /\
  (forall t x, threads w !! t = Some x -> self x = true -> lists_held 16 (held x) (count x) (g t)) /\
  (forall t what running spinning, admissible w g t what ->
     returns (thread_step w t what running spinning) (fun _ => True)).
Proof.
  intros H%mutex_runs_inv. split_and!.
  - intros t t' x x' k Hx Hx' Hg Hg'. destruct (nest_inside w g t x k H Hx Hg) as [Hk Hr].
    destruct (nest_inside w g t' x' k H Hx' Hg') as [_ Hr']. by eapply inside_sole; rewrite ?Hr, ?Hr'.
  - intros t x k Hx Hg. destruct (nest_inside w g t x k H Hx Hg) as [Hk Hr].
    apply lookup_lt_is_Some_2 in Hk as [m Hm]. pose proof (mi_mutex _ _ H k m Hm) as Hok.
    exists m. split_and!; [done|apply (mo_owner _ _ _ _ Hok); by rewrite Hr|].
    rewrite (mo_depth _ _ _ _ Hok t Hr). unfold wnest. by rewrite Hx.
  - intros t x k Hx Hp [m Hm]%lookup_lt_is_Some_2. unfold mutex_held, get_mutex. rewrite Hm, bind_ret. f_equal.
    apply eq_bool_prop_intro. rewrite !Is_true_true, is_owner_spec, Z.ltb_lt. by eapply out_owner.
  - intros t x Hx. apply (mi_thread _ _ H t x Hx).
  - intros t what r s Ha. eapply returns_mono; [by apply (thread_step_ok w g)|done].
Qed.


(** ** Examples *)

(** Process 0 is letting go of the mutex process 1 sleeps on. *)
Definition demo_world : world :=
  World [Mutex (Some 0%nat) 0 10 (Some 1%nat) (Some 1%nat)]
    [Thread (Unlocking 0) true (Waiter None false false 0) (replicate 16 O) 0;
     Thread (Waiting 0) true (Waiter None false false 0) (replicate 16 O) 0] 0.

Ltac run_mutex_step t what :=
  refine (rtc_l mutex_step _ (_, _) _ _ _);
    [exists t, what, false, false; eexists; split; [|split; [vm_compute; reflexivity|reflexivity]];
     cbn; repeat split; unfold PROCESS_HELD_MUTEXES; lia|]; cbn [fst snd].

Lemma mutex_demo_runs : exists g, runs [10] [true; true] demo_world g.
Proof.
  eexists. unfold runs. run_mutex_step 0%nat (MLock 0 true). run_mutex_step 0%nat (MLock 0 true).
  run_mutex_step 1%nat (MLock 0 true). run_mutex_step 1%nat (MLock 0 true).
  run_mutex_step 0%nat (MUnlock 0). apply rtc_refl.
Qed.

Lemma mutex_mutual_exclusion_witness : exists g, forall t x, threads demo_world !! t = Some x -> self x = true ->
  lists_held 16 (held x) (count x) (g t).
Proof.
  destruct mutex_demo_runs as (g & Hr). exists g.
  destruct (mutex_mutual_exclusion [10] [true; true] demo_world g Hr) as (_ & _ & _ & H & _). exact H.
Defined.

