(* ===== verification/Crc.v ===== *)
(** * Checksums (kernel/lib/crc.c)

    The table-driven CRC-32C (eight bytes at a time), CRC-32 (most significant
    bit first) and CRC-16 of the file systems, with the tables as
    [build_tables] fills them, and their equality with the bit-by-bit
    definitions.  [address] is the address of the data, on whose low bits
    [crc32c] branches. *)

From S2P Require Import Prelude.

Definition CRC32C_POLY : Z := 0x82F63B78.
Definition CRC32_BE_POLY : Z := 0x04C11DB7.
Definition CRC16_POLY : Z := 0xA001.

(** ** The tables *)

(** One turn of the bit loops. *)
Definition step32c (value : Z) : Z := Z.lxor (Z.shiftr value 1) (Z.land CRC32C_POLY (u32 (0 - Z.land value 1))).
Definition step_be (be : Z) : Z := Z.lxor (u32 (Z.shiftl be 1)) (Z.land CRC32_BE_POLY (u32 (0 - Z.shiftr be 31))).
Definition step16 (small : Z) : Z :=
  u16 (Z.lxor (Z.shiftr small 1) (Z.land CRC16_POLY (u32 (0 - Z.land small 1)))).

Record tables := Tables {
  crc32c_table : list (list Z);
  crc32_be_table : list Z;
  crc16_table : list Z }.

Definition all_bytes : list Z := map Z.of_nat (seq 0 256).

(** The second loop: [value = (value >> 8) ^ crc32c_table[0][value & 0xFF]]. *)
Definition next_slice (table0 : list Z) (value : Z) : Z :=
  Z.lxor (Z.shiftr value 8) (table0 !!! Z.to_nat (Z.land value 0xFF)).

Definition build_tables : tables :=
  let table0 := map (fun byte => Nat.iter 8 step32c byte) all_bytes in
  Tables
    (map (fun slice => map (fun byte => Nat.iter slice (next_slice table0) (table0 !!! Z.to_nat byte)) all_bytes) (seq 0 8))
    (map (fun byte => Nat.iter 8 step_be (u32 (Z.shiftl byte 24))) all_bytes)
    (map (fun byte => Nat.iter 8 step16 (u16 byte)) all_bytes).

(** ** The checksums *)

Definition slice_at (t : tables) (slice index : Z) : res Z :=
  row ← rd (crc32c_table t) slice;
  rd row index.

(** [crc = (crc >> 8) ^ crc32c_table[0][(crc ^ byte) & 0xFF]] *)
Definition crc32c_byte (t : tables) (crc byte : Z) : res Z :=
  entry ← slice_at t 0 (Z.land (Z.lxor crc byte) 0xFF);
  Ret (Z.lxor (Z.shiftr crc 8) entry).

(** Up to the first address that is a multiple of eight. *)
Fixpoint crc32c_head (t : tables) (address crc : Z) (bytes : list Z) : res (Z * list Z) :=
  match bytes with
  | byte :: rest =>
      if Z.land address 7 =? 0 then Ret (crc, bytes)
      else crc ← crc32c_byte t crc byte; crc32c_head t (address + 1) crc rest
  | [] => Ret (crc, [])
  end.

Definition word (b0 b1 b2 b3 : Z) : Z :=
  Z.lor (Z.lor (Z.lor b0 (u32 (Z.shiftl b1 8))) (u32 (Z.shiftl b2 16))) (u32 (Z.shiftl b3 24)).

(** The loop over eight bytes. *)
Fixpoint crc32c_body (t : tables) (crc : Z) (bytes : list Z) : res (Z * list Z) :=
  match bytes with
  | b0 :: b1 :: b2 :: b3 :: b4 :: b5 :: b6 :: b7 :: rest =>
      let low := Z.lxor crc (word b0 b1 b2 b3) in
      let high := word b4 b5 b6 b7 in
      t7 ← slice_at t 7 (Z.land low 0xFF);
      t6 ← slice_at t 6 (Z.land (Z.shiftr low 8) 0xFF);
      t5 ← slice_at t 5 (Z.land (Z.shiftr low 16) 0xFF);
      t4 ← slice_at t 4 (Z.shiftr low 24);
      t3 ← slice_at t 3 (Z.land high 0xFF);
      t2 ← slice_at t 2 (Z.land (Z.shiftr high 8) 0xFF);
      t1 ← slice_at t 1 (Z.land (Z.shiftr high 16) 0xFF);
      t0 ← slice_at t 0 (Z.shiftr high 24);
      crc32c_body t (Z.lxor (Z.lxor (Z.lxor (Z.lxor (Z.lxor (Z.lxor (Z.lxor t7 t6) t5) t4) t3) t2) t1) t0) rest
  | _ => Ret (crc, bytes)
  end.

Fixpoint crc32c_tail (t : tables) (crc : Z) (bytes : list Z) : res Z :=
  match bytes with
  | byte :: rest => crc ← crc32c_byte t crc byte; crc32c_tail t crc rest
  | [] => Ret crc
  end.

(** The static tables: [None] until [tables_ready] is set. *)
Definition ensure_tables (ready : option tables) : tables :=
  match ready with
  | Some t => t
  | None => build_tables
  end.

Definition crc32c (ready : option tables) (address crc : Z) (bytes : list Z) : res (Z * option tables) :=
  let t := ensure_tables ready in
  '(crc, bytes) ← crc32c_head t address crc bytes;
  '(crc, bytes) ← crc32c_body t crc bytes;
  crc ← crc32c_tail t crc bytes;
  Ret (crc, Some t).

Fixpoint crc32_be_loop (t : tables) (crc : Z) (bytes : list Z) : res Z :=
  match bytes with
  | byte :: rest =>
      entry ← rd (crc32_be_table t) (Z.land (Z.lxor (Z.shiftr crc 24) byte) 0xFF);
      crc32_be_loop t (Z.lxor (u32 (Z.shiftl crc 8)) entry) rest
  | [] => Ret crc
  end.

Definition crc32_be (ready : option tables) (crc : Z) (bytes : list Z) : res (Z * option tables) :=
  let t := ensure_tables ready in
  crc ← crc32_be_loop t crc bytes;
  Ret (crc, Some t).

Fixpoint crc16_loop (t : tables) (crc : Z) (bytes : list Z) : res Z :=
  match bytes with
  | byte :: rest =>
      entry ← rd (crc16_table t) (Z.land (Z.lxor crc byte) 0xFF);
      crc16_loop t (u16 (Z.lxor (Z.shiftr crc 8) entry)) rest
  | [] => Ret crc
  end.

Definition crc16 (ready : option tables) (crc : Z) (bytes : list Z) : res (Z * option tables) :=
  let t := ensure_tables ready in
  crc ← crc16_loop t crc bytes;
  Ret (crc, Some t).

(** ** The reference: one bit at a time *)

Definition crc_bits (step : Z -> Z) (crc byte : Z) : Z := Nat.iter 8 step (Z.lxor crc byte).
Definition crc32c_bits (crc : Z) (bytes : list Z) : Z := foldl (crc_bits step32c) crc bytes.
Definition crc16_bits (crc : Z) (bytes : list Z) : Z := foldl (crc_bits step16) crc bytes.
Definition crc32_be_bits (crc : Z) (bytes : list Z) : Z :=
  foldl (fun crc byte => Nat.iter 8 step_be (Z.lxor crc (Z.shiftl byte 24))) crc bytes.

Definition is_byte (b : Z) : Prop := 0 <= b < 256.

(** ** Linearity

    A step of a register that shifts right, written without the mask. *)

Definition step_right (poly v : Z) : Z := Z.lxor (Z.shiftr v 1) (if Z.odd v then poly else 0).

Lemma mask_of_bit poly v : 0 <= poly < 2 ^ 32 ->
  Z.land poly (u32 (0 - Z.land v 1)) = if Z.odd v then poly else 0.
Proof.
  intros Hp. change 1 with (Z.ones 1). rewrite Z.land_ones, Zmod_odd by lia. destruct (Z.odd v).
  - change (u32 (0 - 1)) with (Z.ones 32). rewrite Z.land_ones, Z.mod_small; lia.
  - change (u32 (0 - 0)) with 0. apply Z.land_0_r.
Qed.

Lemma shiftr_bound k w a : 0 <= k -> 0 <= a < 2 ^ w -> 0 <= Z.shiftr a k < 2 ^ w.
Proof.
  intros Hk Ha. rewrite Z.shiftr_div_pow2 by done. assert (0 < 2 ^ k) by (apply Z.pow_pos_nonneg; lia).
  split; [apply Z.div_pos; lia|]. apply Z.le_lt_trans with a; [|lia]. apply Z.div_le_upper_bound; nia.
Qed.

Lemma step_right_bound w poly v : 0 <= w -> 0 <= poly < 2 ^ w -> 0 <= v < 2 ^ w -> 0 <= step_right poly v < 2 ^ w.
Proof.
  intros Hw Hp Hv. unfold step_right. apply lxor_bound; [done|by apply shiftr_bound|]. destruct (Z.odd v); lia.
Qed.

(** Exclusive or of two registers, each with its polynomial or not. *)
Lemma lxor_cases poly a b (p q : bool) :
  Z.lxor (Z.lxor a b) (if xorb p q then poly else 0) =
  Z.lxor (Z.lxor a (if p then poly else 0)) (Z.lxor b (if q then poly else 0)).
Proof.
  destruct p, q; cbn [xorb]; rewrite ?Z.lxor_0_r.
  - by rewrite (Z.lxor_assoc _ poly), <- (Z.lxor_assoc poly), (Z.lxor_comm poly), (Z.lxor_assoc _ poly), Z.lxor_nilpotent, Z.lxor_0_r.
  - by rewrite !Z.lxor_assoc, (Z.lxor_comm poly).
  - by rewrite Z.lxor_assoc.
  - done.
Qed.

Lemma step_right_lxor poly a b : step_right poly (Z.lxor a b) = Z.lxor (step_right poly a) (step_right poly b).
Proof. unfold step_right. rewrite Z.shiftr_lxor, <- !Z.bit0_odd, Z.lxor_spec. apply lxor_cases. Qed.

Lemma step_right_double poly v : step_right poly (2 * v) = v.
Proof.
  unfold step_right. rewrite Z.odd_mul. cbn [Z.odd andb]. rewrite Z.lxor_0_r, Z.shiftr_div_pow2 by lia.
  change (2 ^ 1) with 2. rewrite Z.mul_comm. by apply Z.div_mul.
Qed.

Section right.
Context (poly : Z).
Let f (n : nat) (v : Z) : Z := Nat.iter n (step_right poly) v.

Lemma iter_lxor n a b : f n (Z.lxor a b) = Z.lxor (f n a) (f n b).
Proof. unfold f. induction n as [|n IH]; [done|]. by rewrite !Nat.iter_succ, IH, step_right_lxor. Qed.

Lemma iter_add n k v : f (n + k) v = f n (f k v).
Proof. apply Nat.iter_add. Qed.

(** [n] steps undo a shift by [n]. *)
Lemma iter_shift n v : f n (Z.shiftl v (Z.of_nat n)) = v.
Proof.
  revert v. induction n as [|n IH]; intros v; [by rewrite Z.shiftl_0_r|].
  replace (S n) with (n + 1)%nat by lia. rewrite iter_add. unfold f at 2. rewrite Nat.iter_succ. cbn [Nat.iter nat_rect].
  replace (Z.shiftl v (Z.of_nat (n + 1))) with (2 * Z.shiftl v (Z.of_nat n)).
  - by rewrite step_right_double.
  - rewrite !Z.shiftl_mul_pow2, Nat2Z.inj_add, Z.pow_add_r by lia. change (2 ^ Z.of_nat 1) with 2. ring.
Qed.

(** The identity behind the tables: the high part only moves. *)
Lemma iter_table v : f 8 v = Z.lxor (Z.shiftr v 8) (f 8 (Z.land v 0xFF)).
Proof.
  rewrite <- (iter_shift 8 (Z.shiftr v 8)), <- iter_lxor. f_equal. change (Z.of_nat 8) with 8. change 0xFF with (Z.ones 8).
  apply Z.bits_inj'. intros n Hn. rewrite Z.lxor_spec, Z.land_spec, Z.testbit_ones_nonneg by lia.
  destruct (Z.ltb_spec n 8).
  - rewrite Z.shiftl_spec_low, andb_true_r by lia. done.
  - rewrite Z.shiftl_spec_high, Z.shiftr_spec, andb_false_r by lia. rewrite xorb_false_r. f_equal. lia.
Qed.
End right.

(** ** Reading the tables *)

Lemma step32c_right v : step32c v = step_right CRC32C_POLY v.
Proof. unfold step32c, step_right. rewrite mask_of_bit; [done|]. unfold CRC32C_POLY. lia. Qed.

Definition f32c (n : nat) (v : Z) : Z := Nat.iter n (step_right CRC32C_POLY) v.

Lemma iter_ext (g h : Z -> Z) n v : (forall x, g x = h x) -> Nat.iter n g v = Nat.iter n h v.
Proof. intros E. induction n as [|n IH]; [done|]. by rewrite !Nat.iter_succ, IH, E. Qed.

Lemma byte_mask v : is_byte (Z.land v 0xFF).
Proof. change 0xFF with (Z.ones 8). rewrite Z.land_ones by lia. unfold is_byte. pose proof (Z.mod_pos_bound v (2 ^ 8)). lia. Qed.

Lemma all_bytes_lookup b : is_byte b -> all_bytes !! Z.to_nat b = Some b.
Proof.
  intros Hb. unfold is_byte in Hb. unfold all_bytes. rewrite list_lookup_fmap, lookup_seq_lt by lia. cbn. f_equal. lia.
Qed.

Lemma rd_map_bytes (g : Z -> Z) b : is_byte b -> rd (map g all_bytes) b = Ret (g b).
Proof.
  intros Hb. unfold is_byte in Hb. apply rd_lookup; [lia|]. rewrite list_lookup_fmap, all_bytes_lookup by done. done.
Qed.

Definition table0 : list Z := map (fun byte => Nat.iter 8 step32c byte) all_bytes.

Lemma table0_at b : is_byte b -> table0 !!! Z.to_nat b = f32c 8 b.
Proof.
  intros Hb. apply list_lookup_total_correct. unfold table0. rewrite list_lookup_fmap, all_bytes_lookup by done. cbn.
  by rewrite !step32c_right.
Qed.

Lemma next_slice_f n b : next_slice table0 (f32c n b) = f32c (8 + n) b.
Proof.
  unfold next_slice. rewrite table0_at by apply byte_mask. unfold f32c. rewrite (iter_add _ 8). symmetry. apply iter_table.
Qed.

Lemma slices_f k b : is_byte b -> Nat.iter k (next_slice table0) (table0 !!! Z.to_nat b) = f32c (8 * S k) b.
Proof.
  intros Hb. induction k as [|k IH]; [by apply table0_at|].
  rewrite Nat.iter_succ, IH, next_slice_f. f_equal. lia.
Qed.

Lemma slice_at_f k b : 0 <= k < 8 -> is_byte b -> slice_at build_tables k b = Ret (f32c (8 * S (Z.to_nat k)) b).
Proof.
  intros Hk Hb. unfold slice_at, build_tables. cbn [crc32c_table]. fold table0.
  rewrite (rd_lookup _ k (map (fun byte => Nat.iter (Z.to_nat k) (next_slice table0) (table0 !!! Z.to_nat byte)) all_bytes)).
  - rewrite bind_ret, rd_map_bytes by done. f_equal. by apply slices_f.
  - lia.
  - rewrite list_lookup_fmap, lookup_seq_lt by lia. done.
Qed.

(** ** CRC-32C *)

Lemma f32c_lxor n a b : f32c n (Z.lxor a b) = Z.lxor (f32c n a) (f32c n b).
Proof. apply iter_lxor. Qed.

Lemma f32c_shift k n v : f32c (n + k) (Z.shiftl v (Z.of_nat k)) = f32c n v.
Proof. unfold f32c. by rewrite iter_add, iter_shift. Qed.

Lemma crc32c_bits_f crc byte : crc_bits step32c crc byte = f32c 8 (Z.lxor crc byte).
Proof. unfold crc_bits, f32c. apply iter_ext, step32c_right. Qed.

Lemma crc32c_byte_ok crc byte :
  is_byte byte -> crc32c_byte build_tables crc byte = Ret (crc_bits step32c crc byte).
Proof.
  intros Hb. unfold crc32c_byte. rewrite slice_at_f, bind_ret by (lia || apply byte_mask). f_equal.
  rewrite crc32c_bits_f. unfold f32c at 2. rewrite iter_table, Z.shiftr_lxor.
  replace (Z.shiftr byte 8) with 0; [by rewrite Z.lxor_0_r|].
  unfold is_byte in Hb. rewrite Z.shiftr_div_pow2, Z.div_small; lia.
Qed.

(** The register after [n] bits' worth of bytes is [n] steps of it with the bytes put side by side. *)
Lemma join_byte n crc acc byte :
  crc_bits step32c (f32c n (Z.lxor crc acc)) byte = f32c (8 + n) (Z.lxor crc (Z.lxor acc (Z.shiftl byte (Z.of_nat n)))).
Proof.
  rewrite crc32c_bits_f, <- Z.lxor_assoc, (f32c_lxor _ (Z.lxor crc acc)), f32c_shift, f32c_lxor.
  unfold f32c. by rewrite (iter_add _ 8 n).
Qed.

Lemma byte_testbit b n : is_byte b -> 8 <= n -> Z.testbit b n = false.
Proof.
  intros Hb Hn. unfold is_byte in Hb. destruct (decide (b = 0)) as [->|]; [apply Z.bits_0|].
  apply Z.bits_above_log2; [lia|]. apply Z.lt_le_trans with 8; [|done]. apply Z.log2_lt_pow2; lia.
Qed.

Lemma shifted_byte b k : is_byte b -> 0 <= k <= 24 -> 0 <= Z.shiftl b k < 2 ^ (k + 8).
Proof.
  intros Hb Hk. unfold is_byte in Hb. rewrite Z.shiftl_mul_pow2, Z.pow_add_r by lia.
  assert (0 < 2 ^ k) by (apply Z.pow_pos_nonneg; lia). change (2 ^ 8) with 256. nia.
Qed.

Lemma u32_shifted b k : is_byte b -> 0 <= k <= 24 -> u32 (Z.shiftl b k) = Z.shiftl b k.
Proof.
  intros Hb Hk. pose proof (shifted_byte b k Hb Hk). apply Z.mod_small.
  assert (2 ^ (k + 8) <= 2 ^ 32) by (apply Z.pow_le_mono_r; lia). lia.
Qed.

Lemma word_lxor b0 b1 b2 b3 : is_byte b0 -> is_byte b1 -> is_byte b2 -> is_byte b3 ->
  word b0 b1 b2 b3 = Z.lxor (Z.lxor (Z.lxor b0 (Z.shiftl b1 8)) (Z.shiftl b2 16)) (Z.shiftl b3 24) /\
  0 <= word b0 b1 b2 b3 < 2 ^ 32.
Proof.
  intros H0 H1 H2 H3. unfold word. rewrite !u32_shifted by (done || lia).
  pose proof (shifted_byte b1 8 H1). pose proof (shifted_byte b2 16 H2). pose proof (shifted_byte b3 24 H3). unfold is_byte in *.
  assert (0 <= Z.lxor b0 (Z.shiftl b1 8) < 2 ^ 16) by (apply lxor_bound; lia).
  assert (0 <= Z.lxor (Z.lxor b0 (Z.shiftl b1 8)) (Z.shiftl b2 16) < 2 ^ 24) by (apply lxor_bound; lia).
  rewrite (lor_shifted b0), (lor_shifted _ b2), (lor_shifted _ b3) by lia. split; [done|]. apply lxor_bound; lia.
Qed.

(** A 32-bit word as the exclusive or of its bytes in place. *)
Lemma word_bytes v : 0 <= v < 2 ^ 32 ->
  v = Z.lxor (Z.lxor (Z.lxor (Z.land v 0xFF) (Z.shiftl (Z.land (Z.shiftr v 8) 0xFF) 8))
        (Z.shiftl (Z.land (Z.shiftr v 16) 0xFF) 16)) (Z.shiftl (Z.shiftr v 24) 24).
Proof.
  intros Hv. assert (S : forall w k, 0 <= k -> w = Z.lxor (Z.land w (Z.ones k)) (Z.shiftl (Z.shiftr w k) k)).
  { intros w k Hk. apply Z.bits_inj'. intros n Hn. rewrite Z.lxor_spec, Z.land_spec, Z.testbit_ones_nonneg by lia.
    destruct (Z.ltb_spec n k).
    - rewrite Z.shiftl_spec_low, andb_true_r, xorb_false_r by lia. done.
    - rewrite Z.shiftl_spec_high, Z.shiftr_spec, andb_false_r by lia. cbn. f_equal. lia. }
  change 0xFF with (Z.ones 8). rewrite (S v 8) at 1 by lia. rewrite (S (Z.shiftr v 8) 8) at 1 by lia.
  rewrite (S (Z.shiftr (Z.shiftr v 8) 8) 8) at 1 by lia.
  by rewrite !Z.shiftl_lxor, !Z.shiftl_shiftl, !Z.shiftr_shiftr, !Z.lxor_assoc by lia.
Qed.

(** The lookups of [n + 4] bytes' steps of a word, one per byte. *)
Lemma f32c_word n v : 0 <= v < 2 ^ 32 ->
  f32c (n + 32) v = Z.lxor (Z.lxor (Z.lxor (f32c (n + 32) (Z.land v 0xFF)) (f32c (n + 24) (Z.land (Z.shiftr v 8) 0xFF)))
    (f32c (n + 16) (Z.land (Z.shiftr v 16) 0xFF))) (f32c (n + 8) (Z.shiftr v 24)).
Proof.
  intros Hv. rewrite (word_bytes v Hv) at 1. rewrite !f32c_lxor.
  rewrite <- (f32c_shift 8 (n + 24)), <- (f32c_shift 16 (n + 16)), <- (f32c_shift 24 (n + 8)).
  replace (n + 24 + 8)%nat with (n + 32)%nat by lia. replace (n + 16 + 16)%nat with (n + 32)%nat by lia.
  replace (n + 8 + 24)%nat with (n + 32)%nat by lia. done.
Qed.

Lemma eight_bytes crc b0 b1 b2 b3 b4 b5 b6 b7 : Forall is_byte [b0; b1; b2; b3; b4; b5; b6; b7] ->
  crc32c_bits crc [b0; b1; b2; b3; b4; b5; b6; b7] =
  Z.lxor (f32c 64 (Z.lxor crc (word b0 b1 b2 b3))) (f32c 32 (word b4 b5 b6 b7)).
Proof.
  intros Hb. rewrite !list.Forall_cons in Hb. destruct Hb as (H0 & H1 & H2 & H3 & H4 & H5 & H6 & H7 & _).
  destruct (word_lxor b0 b1 b2 b3) as [-> _]; try done. destruct (word_lxor b4 b5 b6 b7) as [-> _]; try done.
  rewrite <- (f32c_shift 32 32). change (32 + 32)%nat with 64%nat. rewrite <- f32c_lxor.
  unfold crc32c_bits. cbn [foldl]. rewrite (crc32c_bits_f crc b0).
  rewrite !join_byte. cbn [Nat.mul Nat.add Z.of_nat Pos.of_succ_nat Pos.succ].
  rewrite !Z.shiftl_lxor, !Z.shiftl_shiftl, !Z.lxor_assoc by lia. done.
Qed.

Lemma step32c_bound v : 0 <= v < 2 ^ 32 -> 0 <= step32c v < 2 ^ 32.
Proof. intros Hv. rewrite step32c_right. apply step_right_bound; unfold CRC32C_POLY; lia. Qed.

Lemma iter_bound w (g : Z -> Z) n v :
  (forall x, 0 <= x < 2 ^ w -> 0 <= g x < 2 ^ w) -> 0 <= v < 2 ^ w -> 0 <= Nat.iter n g v < 2 ^ w.
Proof. intros Hg Hv. induction n as [|n IH]; [done|]. rewrite Nat.iter_succ. by apply Hg. Qed.

Lemma crc32c_bits_bound crc bytes : Forall is_byte bytes -> 0 <= crc < 2 ^ 32 -> 0 <= crc32c_bits crc bytes < 2 ^ 32.
Proof.
  revert crc. induction bytes as [|b bytes IH]; intros crc Hb Hc; [done|]. apply list.Forall_cons in Hb as [Hb0 Hb].
  apply (IH (crc_bits step32c crc b)); [done|]. unfold crc_bits. apply iter_bound; [apply step32c_bound|].
  unfold is_byte in Hb0. apply lxor_bound; lia.
Qed.

Lemma crc32c_tail_ok crc bytes : Forall is_byte bytes -> crc32c_tail build_tables crc bytes = Ret (crc32c_bits crc bytes).
Proof.
  revert crc. induction bytes as [|b bytes IH]; intros crc Hb; [done|]. apply list.Forall_cons in Hb as [Hb0 Hb].
  cbn [crc32c_tail]. rewrite crc32c_byte_ok, bind_ret by done. by apply IH.
Qed.

Lemma crc32c_head_ok address crc bytes : Forall is_byte bytes ->
  exists done rest, bytes = done ++ rest /\ crc32c_head build_tables address crc bytes = Ret (crc32c_bits crc done, rest).
Proof.
  revert address crc. induction bytes as [|b bytes IH]; intros address crc Hb; [by exists [], []|].
  apply list.Forall_cons in Hb as [Hb0 Hb]. cbn [crc32c_head]. destruct (Z.land address 7 =? 0); [by exists [], (b :: bytes)|].
  rewrite crc32c_byte_ok, bind_ret by done. destruct (IH (address + 1) (crc_bits step32c crc b) Hb) as (l & r & -> & ->).
  by exists (b :: l), r.
Qed.

Lemma crc32c_body_ok n crc bytes : (length bytes < n)%nat -> Forall is_byte bytes -> 0 <= crc < 2 ^ 32 ->
  exists done rest, bytes = done ++ rest /\ crc32c_body build_tables crc bytes = Ret (crc32c_bits crc done, rest).
Proof.
  revert crc bytes. induction n as [|n IH]; intros crc bytes Hn Hb Hc; [lia|].
  do 8 (destruct bytes as [|? bytes]; [by eexists [], _|]).
  assert (Hb8 := Hb). change (Forall is_byte ([z; z0; z1; z2; z3; z4; z5; z6] ++ bytes)) in Hb8.
  apply Forall_app in Hb8 as [Hb8 Hrest]. rewrite !list.Forall_cons in Hb. destruct Hb as (H0 & H1 & H2 & H3 & H4 & H5 & H6 & H7 & _).
  destruct (word_lxor z z0 z1 z2) as [_ Bl]; try done. destruct (word_lxor z3 z4 z5 z6) as [_ Bh]; try done.
  assert (Hl : 0 <= Z.lxor crc (word z z0 z1 z2) < 2 ^ 32) by (apply lxor_bound; lia).
  assert (T : forall v, 0 <= v < 2 ^ 32 -> is_byte (Z.shiftr v 24)).
  { intros v Hv. unfold is_byte. rewrite Z.shiftr_div_pow2 by lia. split; [apply Z.div_pos; lia|]. apply Z.div_lt_upper_bound; lia. }
  cbn [crc32c_body]. rewrite !slice_at_f, !bind_ret by (lia || apply byte_mask || by apply T).
  match goal with |- context [crc32c_body _ ?c _] => replace c with (crc32c_bits crc [z; z0; z1; z2; z3; z4; z5; z6]) end.
  - destruct (IH (crc32c_bits crc [z; z0; z1; z2; z3; z4; z5; z6]) bytes) as (l & r & -> & ->).
    + cbn in Hn. lia.
    + done.
    + by apply crc32c_bits_bound.
    + by exists ([z; z0; z1; z2; z3; z4; z5; z6] ++ l), r.
  - rewrite eight_bytes by done. pose proof (f32c_word 32 _ Hl) as El. pose proof (f32c_word 0 _ Bh) as Eh.
    change (32 + 32)%nat with 64%nat in El. change (0 + 32)%nat with 32%nat in Eh. rewrite El, Eh, !Z.lxor_assoc. done.
Qed.

(** ** CRC-16 *)

Lemma step16_right v : 0 <= v < 2 ^ 16 -> step16 v = step_right CRC16_POLY v.
Proof.
  intros Hv. unfold step16. rewrite mask_of_bit by (unfold CRC16_POLY; lia). apply Z.mod_small.
  apply (step_right_bound 16); unfold CRC16_POLY; lia.
Qed.

Lemma step16_bound v : 0 <= v < 2 ^ 16 -> 0 <= step16 v < 2 ^ 16.
Proof. intros Hv. rewrite step16_right by done. apply step_right_bound; unfold CRC16_POLY; lia. Qed.

Lemma iter16 n v : 0 <= v < 2 ^ 16 -> Nat.iter n step16 v = Nat.iter n (step_right CRC16_POLY) v.
Proof.
  intros Hv. induction n as [|n IH]; [done|]. rewrite !Nat.iter_succ, <- IH. apply step16_right.
  apply iter_bound; [apply step16_bound|done].
Qed.

Lemma crc16_at b : is_byte b -> rd (crc16_table build_tables) b = Ret (Nat.iter 8 step16 (u16 b)).
Proof. apply (rd_map_bytes (fun byte => Nat.iter 8 step16 (u16 byte))). Qed.

Lemma crc16_loop_ok crc bytes : Forall is_byte bytes -> 0 <= crc < 2 ^ 16 ->
  crc16_loop build_tables crc bytes = Ret (crc16_bits crc bytes).
Proof.
  revert crc. induction bytes as [|b bytes IH]; intros crc Hb Hc; [done|]. apply list.Forall_cons in Hb as [Hb0 Hb].
  cbn [crc16_loop]. rewrite crc16_at, bind_ret by apply byte_mask.
  pose proof (byte_mask (Z.lxor crc b)) as Hm. unfold is_byte in Hm, Hb0.
  assert (Hx : 0 <= Z.lxor crc b < 2 ^ 16) by (apply lxor_bound; lia).
  replace (u16 (Z.land (Z.lxor crc b) 0xFF)) with (Z.land (Z.lxor crc b) 0xFF) by (symmetry; apply Z.mod_small; lia).
  assert (E : Z.lxor (Z.shiftr crc 8) (Nat.iter 8 step16 (Z.land (Z.lxor crc b) 0xFF)) = crc_bits step16 crc b).
  { unfold crc_bits. rewrite !iter16 by lia. rewrite (iter_table _ (Z.lxor crc b)), Z.shiftr_lxor.
    replace (Z.shiftr b 8) with 0; [by rewrite Z.lxor_0_r|]. rewrite Z.shiftr_div_pow2, Z.div_small; lia. }
  rewrite E. assert (Hr : 0 <= crc_bits step16 crc b < 2 ^ 16) by (apply iter_bound; [apply step16_bound|lia]).
  unfold u16. rewrite Z.mod_small by done. by apply IH.
Qed.

(** ** CRC-32, most significant bit first *)

Definition step_left (v : Z) : Z := Z.lxor ((2 * v) `mod` 2 ^ 32) (if Z.testbit v 31 then CRC32_BE_POLY else 0).

Lemma step_be_left v : 0 <= v < 2 ^ 32 -> step_be v = step_left v /\ 0 <= step_be v < 2 ^ 32.
Proof.
  intros Hv. assert (E : step_be v = step_left v).
  { unfold step_be, step_left. change (Z.shiftl v 1) with (2 * v). unfold u32 at 1. f_equal.
    rewrite Z.testbit_odd. pose proof (mask_of_bit CRC32_BE_POLY (Z.shiftr v 31)) as M.
    rewrite <- M by (unfold CRC32_BE_POLY; lia). do 3 f_equal. change 1 with (Z.ones 1). rewrite Z.land_ones by lia.
    symmetry. apply Z.mod_small. rewrite Z.shiftr_div_pow2 by lia. split; [apply Z.div_pos; lia|].
    apply Z.div_lt_upper_bound; lia. }
  split; [done|]. rewrite E. unfold step_left. apply lxor_bound; [lia|apply Z.mod_pos_bound; lia|].
  unfold CRC32_BE_POLY. destruct (Z.testbit v 31); lia.
Qed.

Lemma mod_pow2_lxor k a b : 0 <= k -> (Z.lxor a b) `mod` 2 ^ k = Z.lxor (a `mod` 2 ^ k) (b `mod` 2 ^ k).
Proof.
  intros Hk. rewrite <- !Z.land_ones by done. apply Z.bits_inj'. intros n Hn. rewrite !Z.lxor_spec, !Z.land_spec, Z.lxor_spec.
  by destruct (Z.testbit a n), (Z.testbit b n), (Z.testbit (Z.ones k) n).
Qed.

Lemma step_left_lxor a b : step_left (Z.lxor a b) = Z.lxor (step_left a) (step_left b).
Proof.
  unfold step_left. replace (2 * Z.lxor a b) with (Z.lxor (2 * a) (2 * b)).
  2: { rewrite !(Z.mul_comm 2). change 2 with (2 ^ 1). rewrite <- !Z.shiftl_mul_pow2 by lia. by rewrite Z.shiftl_lxor. }
  rewrite mod_pow2_lxor, Z.lxor_spec by lia. apply lxor_cases.
Qed.

Lemma iter_left_lxor n a b : Nat.iter n step_left (Z.lxor a b) = Z.lxor (Nat.iter n step_left a) (Nat.iter n step_left b).
Proof. induction n as [|n IH]; [done|]. by rewrite !Nat.iter_succ, IH, step_left_lxor. Qed.

(** While the top bit stays clear the steps only shift. *)
Lemma iter_left_small n v : (n <= 32)%nat -> 0 <= v < 2 ^ (32 - Z.of_nat n) -> Nat.iter n step_left v = Z.shiftl v (Z.of_nat n).
Proof.
  induction n as [|n IH]; intros Hn Hv; [by rewrite Z.shiftl_0_r|].
  replace (32 - Z.of_nat (S n)) with (31 - Z.of_nat n) in Hv by lia.
  assert (P1 : 2 ^ (32 - Z.of_nat n) = 2 * 2 ^ (31 - Z.of_nat n)) by (rewrite <- Z.pow_succ_r by lia; f_equal; lia).
  assert (P2 : 2 ^ 31 = 2 ^ (31 - Z.of_nat n) * 2 ^ Z.of_nat n) by (rewrite <- Z.pow_add_r by lia; f_equal; lia).
  rewrite Nat.iter_succ, IH by lia. assert (B : 0 <= Z.shiftl v (Z.of_nat n) < 2 ^ 31).
  { rewrite Z.shiftl_mul_pow2 by lia. assert (0 < 2 ^ Z.of_nat n) by (apply Z.pow_pos_nonneg; lia). nia. }
  unfold step_left. rewrite Z.testbit_odd, Z.shiftr_div_pow2, (Z.div_small _ (2 ^ 31)) by lia.
  rewrite Z.mod_small, Z.lxor_0_r by lia. rewrite !Z.shiftl_mul_pow2, Nat2Z.inj_succ, Z.pow_succ_r by lia. ring.
Qed.

Lemma step_be_bound v : 0 <= v < 2 ^ 32 -> 0 <= step_be v < 2 ^ 32.
Proof. intros Hv. by apply step_be_left. Qed.

Lemma iter_be n v : 0 <= v < 2 ^ 32 -> Nat.iter n step_be v = Nat.iter n step_left v.
Proof.
  intros Hv. induction n as [|n IH]; [done|]. rewrite !Nat.iter_succ, <- IH. apply step_be_left.
  apply iter_bound; [apply step_be_bound|done].
Qed.

Lemma crc32_be_at b : is_byte b -> rd (crc32_be_table build_tables) b = Ret (Nat.iter 8 step_be (u32 (Z.shiftl b 24))).
Proof. apply (rd_map_bytes (fun byte => Nat.iter 8 step_be (u32 (Z.shiftl byte 24)))). Qed.

(** The register split into its top byte and the rest. *)
Lemma be_split crc : 0 <= crc < 2 ^ 32 -> Z.lxor (crc `mod` 2 ^ 24) (Z.shiftl (Z.shiftr crc 24) 24) = crc.
Proof.
  intros Hc. rewrite <- Z.land_ones by lia. apply Z.bits_inj'. intros n Hn.
  rewrite Z.lxor_spec, Z.land_spec, Z.testbit_ones_nonneg by lia. destruct (Z.ltb_spec n 24).
  - rewrite Z.shiftl_spec_low, andb_true_r, xorb_false_r by lia. done.
  - rewrite Z.shiftl_spec_high, Z.shiftr_spec, andb_false_r by lia. cbn. f_equal. lia.
Qed.

Lemma crc32_be_turn crc b : is_byte b -> 0 <= crc < 2 ^ 32 ->
  Z.lxor (u32 (Z.shiftl crc 8)) (Nat.iter 8 step_be (u32 (Z.shiftl (Z.land (Z.lxor (Z.shiftr crc 24) b) 0xFF) 24))) =
  Nat.iter 8 step_be (Z.lxor crc (Z.shiftl b 24)).
Proof.
  intros Hb Hc. assert (Hh : is_byte (Z.shiftr crc 24)).
  { unfold is_byte. rewrite Z.shiftr_div_pow2 by lia. split; [apply Z.div_pos; lia|]. apply Z.div_lt_upper_bound; lia. }
  assert (Hx : is_byte (Z.lxor (Z.shiftr crc 24) b)) by (apply (lxor_bound 8); unfold is_byte in *; lia).
  replace (Z.land (Z.lxor (Z.shiftr crc 24) b) 0xFF) with (Z.lxor (Z.shiftr crc 24) b).
  2: { change 0xFF with (Z.ones 8). rewrite Z.land_ones, Z.mod_small; unfold is_byte in Hx; lia. }
  rewrite (u32_shifted (Z.lxor _ _)) by (done || lia). pose proof (shifted_byte _ 24 Hx). pose proof (shifted_byte _ 24 Hb).
  rewrite !iter_be by (try apply lxor_bound; lia).
  rewrite <- (be_split crc Hc) at 3. rewrite Z.lxor_assoc, <- Z.shiftl_lxor, iter_left_lxor by lia. f_equal.
  pose proof (Z.mod_pos_bound crc (2 ^ 24)). rewrite iter_left_small by lia. change (Z.of_nat 8) with 8. unfold u32.
  rewrite !Z.shiftl_mul_pow2 by lia. change (2 ^ 32) with (2 ^ 24 * 2 ^ 8). by rewrite Z.mul_mod_distr_r.
Qed.

Lemma crc32_be_loop_ok crc bytes : Forall is_byte bytes -> 0 <= crc < 2 ^ 32 ->
  crc32_be_loop build_tables crc bytes = Ret (crc32_be_bits crc bytes).
Proof.
  revert crc. induction bytes as [|b bytes IH]; intros crc Hb Hc; [done|]. apply list.Forall_cons in Hb as [Hb0 Hb].
  cbn [crc32_be_loop]. rewrite crc32_be_at, bind_ret, crc32_be_turn by (done || apply byte_mask).
  apply IH; [done|]. apply iter_bound; [apply step_be_bound|]. pose proof (shifted_byte b 24 Hb0). apply lxor_bound; lia.
Qed.

(** ** The checksums are the bit-by-bit ones *)

(** Not built yet, or as [build_tables] left them. *)
Definition tables_ok (ready : option tables) : Prop := ready = None \/ ready = Some build_tables.

Lemma ensure_tables_ok ready : tables_ok ready -> ensure_tables ready = build_tables.
Proof. by intros [-> | ->]. Qed.

(** C16. The table-driven checksums compute the bit-by-bit ones for every
    input: CRC-32C through its alignment prologue, its eight-bytes-at-a-time
    loop and its epilogue, at any address, CRC-32 most significant bit first,
    and CRC-16.  No lookup is out of the tables, the first call builds them and
    the later ones find them built, and so a checksum of two pieces is that of
    the whole. *)
Theorem crc_correct ready address crc bytes : tables_ok ready -> Forall is_byte bytes -> 0 <= crc < 2 ^ 32 ->
  exists t, tables_ok (Some t) /\
    crc32c ready address crc bytes = Ret (crc32c_bits crc bytes, Some t) /\
    crc32_be ready crc bytes = Ret (crc32_be_bits crc bytes, Some t) /\
    crc16 ready (u16 crc) bytes = Ret (crc16_bits (u16 crc) bytes, Some t) /\
    (forall front back, bytes = front ++ back ->
      crc32c (Some t) (address + Z.of_nat (length front)) (crc32c_bits crc front) back =
      crc32c ready address crc bytes).
Proof.
  intros Hr Hb Hc.
  assert (C : forall r a c l, tables_ok r -> Forall is_byte l -> 0 <= c < 2 ^ 32 ->
    crc32c r a c l = Ret (crc32c_bits c l, Some build_tables)).
  { intros r a c l Ho Hl Hc'. unfold crc32c. rewrite (ensure_tables_ok r Ho).
    destruct (crc32c_head_ok a c l Hl) as (l1 & r1 & -> & ->). rewrite bind_ret. apply Forall_app in Hl as [Hl1 Hr1].
    destruct (crc32c_body_ok (S (length r1)) (crc32c_bits c l1) r1) as (l2 & r2 & -> & ->);
      [lia|done|by apply crc32c_bits_bound|].
    rewrite bind_ret. apply Forall_app in Hr1 as [Hl2 Hr2]. rewrite crc32c_tail_ok, bind_ret by done.
    unfold crc32c_bits. by rewrite !foldl_app. }
  exists build_tables. split; [by right|]. rewrite C by done. split; [done|].
  unfold crc32_be, crc16. rewrite (ensure_tables_ok ready Hr), crc32_be_loop_ok, crc16_loop_ok by (done || apply Z.mod_pos_bound; lia).
  do 2 (split; [done|]). intros front back ->. apply Forall_app in Hb as [Hf Hk].
  rewrite C by (by right) || (done || by apply crc32c_bits_bound). unfold crc32c_bits. by rewrite foldl_app.
Qed.

Definition check_digits : list Z := [0x31; 0x32; 0x33; 0x34; 0x35; 0x36; 0x37; 0x38; 0x39].

(** The published check values of the three polynomials, of the nine digits. *)
Example crc_check_values :
  Z.lxor (crc32c_bits 0xFFFFFFFF check_digits) 0xFFFFFFFF = 0xE3069283 /\
  crc32_be_bits 0xFFFFFFFF check_digits = 0x0376E6E7 /\ crc16_bits 0 check_digits = 0xBB3D.
Proof. by vm_compute. Qed.

(** The digits at an odd address, with the tables not built. *)
Lemma crc_correct_witness : exists t, tables_ok (Some t) /\
  crc32c None 3 0xFFFFFFFF check_digits = Ret (Z.lxor 0xE3069283 0xFFFFFFFF, Some t).
Proof.
  destruct (crc_correct None 3 0xFFFFFFFF check_digits) as (t & Ht & E & _).
  - by left.
  - repeat constructor; done.
  - lia.
  - exists t. split; [exact Ht|]. rewrite E. by vm_compute.
Defined.
