(* ===== verification/Block.v ===== *)
(** * The block layer (kernel/block/block.c)

    The registry of disks and partitions, requests in sectors and in bytes, and
    the statistics.  A disk driver is an interface: [DriverOps] has the four
    functions of [struct block_device], over a state of the hardware, and
    [Driver] states what the layer relies on.  [mallocs] and [clock] are the
    answers of kmalloc and time_uptime_ns, by the number of the question.  A
    pointer to a device is its index in the registry: entries are never
    removed. *)

From S2P Require Import Prelude.

Definition BLOCK_SECTOR_SIZE : Z := 512.
Definition BLOCK_NAME_BYTES : Z := 16.
Definition BLOCK_MAJOR_SD : Z := 8.
Definition BLOCK_SD_MINORS : Z := 16.
Definition BLOCK_MAJOR_EXTENDED : Z := 259.

(** ** Drivers

    A driver numbers its units; a request names a unit, a first sector and a
    count, and a status of zero is success.  A read that fails may have filled
    any part of its buffer, which nobody then looks at. *)

Class DriverOps (D : Type) := {
  drv_read : D -> nat -> Z -> Z -> Z * list Z * D;
  drv_write : D -> nat -> Z -> Z -> list Z -> Z * D;
  drv_flush : D -> nat -> Z * D;
  drv_discard : D -> nat -> Z -> Z -> Z * D }.

(** The [n] bytes from [at_] on. *)
Definition bytes_at (content : Z -> Z) (at_ n : Z) : list Z := map (fun i => content (at_ + i)) (seqZ 0 n).

Definition in_sectors (lba count k : Z) : Prop := BLOCK_SECTOR_SIZE * lba <= k < BLOCK_SECTOR_SIZE * (lba + count).

#[global] Instance in_sectors_dec lba count k : Decision (in_sectors lba count k).
Proof. unfold in_sectors. apply _. Defined.

(** A request inside a unit acts on the bytes of the sectors it names and on no others. *)
Class Driver (D : Type) `{DriverOps D} := {
  medium : D -> nat -> Z -> Z;
  capacity : nat -> Z;
  capacity_bound u : 0 < capacity u < 2 ^ 55;
  medium_byte d u k : 0 <= medium d u k < 256;
  drv_read_keeps d u lba count status data d' v k :
    0 <= lba -> 0 < count -> lba + count <= capacity u -> drv_read d u lba count = (status, data, d') ->
    medium d' v k = medium d v k;
  drv_read_data d u lba count data d' :
    0 <= lba -> 0 < count -> lba + count <= capacity u -> drv_read d u lba count = (0, data, d') ->
    data = bytes_at (medium d u) (BLOCK_SECTOR_SIZE * lba) (BLOCK_SECTOR_SIZE * count);
  drv_write_keeps d u lba count data status d' v k :
    0 <= lba -> 0 < count -> lba + count <= capacity u -> drv_write d u lba count data = (status, d') ->
    v <> u \/ ~ in_sectors lba count k -> medium d' v k = medium d v k;
  drv_write_data d u lba count data d' k :
    0 <= lba -> 0 < count -> lba + count <= capacity u -> drv_write d u lba count data = (0, d') ->
    in_sectors lba count k -> medium d' u k = data !!! Z.to_nat (k - BLOCK_SECTOR_SIZE * lba);
  drv_flush_keeps d u status d' v k : drv_flush d u = (status, d') -> medium d' v k = medium d v k;
  drv_discard_keeps d u lba count status d' v k :
    0 <= lba -> 0 < count -> lba + count <= capacity u -> drv_discard d u lba count = (status, d') ->
    v <> u \/ ~ in_sectors lba count k -> medium d' v k = medium d v k }.

(** ** Devices *)

(** What [read], [write], [flush] and [discard] of a device call: the driver of
    a unit, or [partition_read] and its like. *)
Inductive context :=
  | DriverContext (unit_ : nat)
  | PartitionContext (parent start : Z).

Record device := Device {
  name : list Z;
  dev_name : list Z;
  parent : Z;
  sectors : Z;
  major : Z;
  minor : Z;
  can_read : bool;
  can_write : bool;
  can_flush : bool;
  can_discard : bool;
  ctx : context }.

Record block_stats := Stats {
  block_reads : Z;
  block_sectors_read : Z;
  block_read_ns : Z;
  block_write_failures : Z;
  block_writes : Z;
  block_sectors_written : Z;
  block_write_ns : Z }.

Section block.
Context {D : Type} `{DriverOps D} (mallocs : nat -> bool) (clock : nat -> Z).

(** [devices] is the part of the array below [device_count]; [asked] counts
    the questions put to the allocator and to the clock. *)
Record block_state := BlockState {
  devices : list device;
  device_capacity : Z;
  disk_count : Z;
  extended_minors : Z;
  root_index : Z;
  stats : block_stats;
  asked : nat;
  hw : D }.

Definition device_count (st : block_state) : Z := Z.of_nat (length (devices st)).

Definition set_hw (h : D) (st : block_state) : block_state :=
  BlockState (devices st) (device_capacity st) (disk_count st) (extended_minors st) (root_index st) (stats st) (asked st) h.
Definition set_stats (s : block_stats) (st : block_state) : block_state :=
  BlockState (devices st) (device_capacity st) (disk_count st) (extended_minors st) (root_index st) s (asked st) (hw st).
Definition set_asked (n : nat) (st : block_state) : block_state :=
  BlockState (devices st) (device_capacity st) (disk_count st) (extended_minors st) (root_index st) (stats st) n (hw st).
Definition set_devices (l : list device) (st : block_state) : block_state :=
  BlockState l (device_capacity st) (disk_count st) (extended_minors st) (root_index st) (stats st) (asked st) (hw st).
Definition set_device_capacity (n : Z) (st : block_state) : block_state :=
  BlockState (devices st) n (disk_count st) (extended_minors st) (root_index st) (stats st) (asked st) (hw st).

Definition ask_memory (st : block_state) : bool * block_state := (mallocs (asked st), set_asked (S (asked st)) st).
Definition time_uptime_ns (st : block_state) : Z * block_state := (clock (asked st), set_asked (S (asked st)) st).

Definition block_device_count (st : block_state) : Z := device_count st.

Definition block_device_at (st : block_state) (index : Z) : option nat :=
  if (index <? 0) || (device_count st <=? index) then None else Some (Z.to_nat index).

(** [*device] *)
Definition deref (st : block_state) (dev : nat) : res device :=
  match devices st !! dev with
  | Some d => Ret d
  | None => Fault
  end.

(** *** The function pointers

    A partition calls its disk, which is not a partition: [DEPTH] is enough. *)

Definition DEPTH : nat := 2.

(** [device->read(device->context, lba, count, destination)], with [partition_read]. *)
Fixpoint call_read (depth : nat) (st : block_state) (d : device) (lba count : Z) : res (Z * list Z * block_state) :=
  match ctx d, depth with
  | DriverContext u, _ =>
      let '(status, data, h) := drv_read (hw st) u lba count in
      Ret (status, data, set_hw h st)
  | PartitionContext parent start, S depth =>
      match block_device_at st parent with
      | None => Ret (-1, [], st)
      | Some disk => disk ← deref st disk; call_read depth st disk (u64 (start + lba)) count
      end
  | PartitionContext _ _, O => Fault
  end.

(** [device->write], with [partition_write]. *)
Fixpoint call_write (depth : nat) (st : block_state) (d : device) (lba count : Z) (data : list Z) : res (Z * block_state) :=
  match ctx d, depth with
  | DriverContext u, _ =>
      let '(status, h) := drv_write (hw st) u lba count data in
      Ret (status, set_hw h st)
  | PartitionContext parent start, S depth =>
      match block_device_at st parent with
      | None => Ret (-1, st)
      | Some disk =>
          disk ← deref st disk;
          if negb (can_write disk) then Ret (-1, st) else call_write depth st disk (u64 (start + lba)) count data
      end
  | PartitionContext _ _, O => Fault
  end.

(** [device->flush], with [partition_flush]. *)
Fixpoint call_flush (depth : nat) (st : block_state) (d : device) : res (Z * block_state) :=
  match ctx d, depth with
  | DriverContext u, _ =>
      let '(status, h) := drv_flush (hw st) u in
      Ret (status, set_hw h st)
  | PartitionContext parent start, S depth =>
      match block_device_at st parent with
      | None => Ret (-1, st)
      | Some disk => disk ← deref st disk; if can_flush disk then call_flush depth st disk else Ret (0, st)
      end
  | PartitionContext _ _, O => Fault
  end.

(** [device->discard], with [partition_discard]. *)
Fixpoint call_discard (depth : nat) (st : block_state) (d : device) (lba count : Z) : res (Z * block_state) :=
  match ctx d, depth with
  | DriverContext u, _ =>
      let '(status, h) := drv_discard (hw st) u lba count in
      Ret (status, set_hw h st)
  | PartitionContext parent start, S depth =>
      match block_device_at st parent with
      | None => Ret (-1, st)
      | Some disk =>
          disk ← deref st disk;
          if negb (can_discard disk) then Ret (-1, st) else call_discard depth st disk (u64 (start + lba)) count
      end
  | PartitionContext _ _, O => Fault
  end.

(** ** Registering *)

Definition new_entry (st : block_state) : bool * block_state :=
  let '(ok, st) :=
    if device_count st =? device_capacity st then
      let capacity := if device_capacity st =? 0 then 16 else device_capacity st * 2 in
      let '(grown, st) := ask_memory st in
      if grown then (true, set_device_capacity capacity st) else (false, st)
    else (true, st) in
  if ok then ask_memory st else (false, st).

(** The loop that fills [letters], which has room for [fuel] more. *)
Fixpoint disk_letters (fuel : nat) (number : Z) : list Z :=
  match fuel with
  | O => []
  | S fuel =>
      (97 + Z.rem number 26) ::
      (let number := Z.quot number 26 - 1 in if 0 <=? number then disk_letters fuel number else [])
  end.

Definition disk_name (number : Z) (out : list Z) : res (list Z) :=
  copy_in out 0 ([115; 100] ++ rev (disk_letters 6 number) ++ [0]).

(** The entry becomes visible: [device_count] is stored last. *)
Definition publish (e : device) (st : block_state) : Z * block_state :=
  (device_count st, set_devices (devices st ++ [e]) st).

Definition block_register (st : block_state) (dev : option device) : res (Z * block_state) :=
  match dev with
  | None => Ret (-1, st)
  | Some d =>
      if negb (can_read d) || (sectors d =? 0) then Ret (-1, st)
      else
        let '(entry, st) := new_entry st in
        if negb entry then Ret (-1, st)
        else
          name_ ← wr (name d) 15 0;
          dev_name_ ← disk_name (disk_count st) (dev_name d);
          let minor_ := u32 (u32 (disk_count st) * BLOCK_SD_MINORS) in
          let e := Device name_ dev_name_ (-1) (sectors d) BLOCK_MAJOR_SD minor_
                     (can_read d) (can_write d) (can_flush d) (can_discard d) (ctx d) in
          let st := BlockState (devices st) (device_capacity st) (disk_count st + 1) (extended_minors st)
                      (root_index st) (stats st) (asked st) (hw st) in
          Ret (publish e st)
  end.

(** [name_arg] is the C string without its terminator; [strncpy] pads with zeroes. *)
Definition block_register_named (st : block_state) (dev : option device) (name_arg : option (list Z)) (major_ minor_ : Z)
  : res (Z * block_state) :=
  match dev, name_arg with
  | Some d, Some s =>
      if negb (can_read d) || (BLOCK_NAME_BYTES <=? Z.of_nat (length s)) then Ret (-1, st)
      else
        let '(entry, st) := new_entry st in
        if negb entry then Ret (-1, st)
        else
          name_ ← wr (name d) 15 0;
          dev_name_ ← copy_in (dev_name d) 0 (s ++ replicate (15 - length s) 0);
          dev_name_ ← wr dev_name_ 15 0;
          let e := Device name_ dev_name_ (-1) (sectors d) major_ minor_
                     (can_read d) (can_write d) (can_flush d) (can_discard d) (ctx d) in
          Ret (publish e st)
  | _, _ => Ret (-1, st)
  end.

Definition block_set_sectors (st : block_state) (index n : Z) : block_state :=
  if (0 <=? index) && (index <? device_count st) then
    set_devices (alter (fun d => Device (name d) (dev_name d) (parent d) n (major d) (minor d) (can_read d) (can_write d)
                                   (can_flush d) (can_discard d) (ctx d)) (Z.to_nat index) (devices st)) st
  else st.

Fixpoint strlen (l : list Z) : res Z :=
  match l with
  | [] => Fault
  | c :: rest => if c =? 0 then Ret 0 else n ← strlen rest; Ret (n + 1)
  end.

(** The [do ... while (number)] loop that fills [digits]. *)
Fixpoint decimal (room : nat) (number : Z) : res (list Z) :=
  match room with
  | O => Fault
  | S room =>
      let rest := Z.quot number 10 in
      tail ← (if rest =? 0 then Ret [] else decimal room rest);
      Ret ((48 + Z.rem number 10) :: tail)
  end.

Definition block_register_partition (st : block_state) (parent_ number start n : Z) : res (Z * block_state) :=
  match block_device_at st parent_ with
  | None => Ret (-1, st)
  | Some disk =>
      disk ← deref st disk;
      if negb (parent disk =? -1) || (number <? 1) || (99999 <? number) then Ret (-1, st)
      else if (n =? 0) || (sectors disk <=? start) || (sectors disk - start <? n) then Ret (-1, st)
      else
        let '(room, st) := ask_memory st in
        if negb room then Ret (-1, st)
        else
          let '(entry, st) := new_entry st in
          if negb entry then Ret (-1, st)
          else
            let '(major_, minor_, extended) :=
              if number <? BLOCK_SD_MINORS then (major disk, u32 (minor disk + number), extended_minors st)
              else (BLOCK_MAJOR_EXTENDED, extended_minors st, u32 (extended_minors st + 1)) in
            length_ ← strlen (dev_name disk);
            digits ← decimal 8 number;
            dev_name_ ← copy_in (dev_name disk) length_ (rev digits ++ [0]);
            let e := Device (name disk) dev_name_ parent_ n major_ minor_ true (can_write disk) true (can_discard disk)
                       (PartitionContext parent_ start) in
            let st := BlockState (devices st) (device_capacity st) (disk_count st) extended (root_index st) (stats st)
                        (asked st) (hw st) in
            Ret (publish e st)
  end.

(** ** Looking up *)

(** The C string at the front of an array. *)
Fixpoint c_string (l : list Z) : res (list Z) :=
  match l with
  | [] => Fault
  | c :: rest => if c =? 0 then Ret [] else s ← c_string rest; Ret (c :: s)
  end.

Definition dev_prefix : list Z := [47; 100; 101; 118; 47].

(** The loop over the registry from [index] on. *)
Fixpoint find_name (l : list device) (index : Z) (s : list Z) : res Z :=
  match l with
  | [] => Ret (-1)
  | d :: rest =>
      t ← c_string (dev_name d);
      if decide (t = s) then Ret index else find_name rest (index + 1) s
  end.

Definition block_device_index_by_name (st : block_state) (s : option (list Z)) : res Z :=
  match s with
  | None => Ret (-1)
  | Some s =>
      if decide (head s = Some 47) then
        if decide (take 5 s = dev_prefix) then find_name (devices st) 0 (drop 5 s) else Ret (-1)
      else find_name (devices st) 0 s
  end.

Definition block_root (st : block_state) : option nat :=
  if root_index st <? device_count st then Some (Z.to_nat (root_index st)) else None.

Definition block_select_root (st : block_state) (index : Z) : block_state :=
  let root := if (0 <=? index) && (index <? device_count st) then index else 0 in
  BlockState (devices st) (device_capacity st) (disk_count st) (extended_minors st) root (stats st) (asked st) (hw st).

Definition block_write_statistics (st : block_state) : Z * Z * Z :=
  (block_writes (stats st), block_sectors_written (stats st), block_write_ns (stats st)).

Definition block_statistics (st : block_state) : Z * Z * Z * Z :=
  (block_reads (stats st), block_sectors_read (stats st), block_read_ns (stats st), block_write_failures (stats st)).

(** ** Requests in sectors *)

Definition count_read (count begun now : Z) (s : block_stats) : block_stats :=
  Stats (u64 (block_reads s + 1)) (u64 (block_sectors_read s + count))
    (if begun <? now then u64 (block_read_ns s + u64 (now - begun)) else block_read_ns s)
    (block_write_failures s) (block_writes s) (block_sectors_written s) (block_write_ns s).

Definition count_write (count begun now status : Z) (s : block_stats) : block_stats :=
  Stats (block_reads s) (block_sectors_read s) (block_read_ns s)
    (if status =? 0 then block_write_failures s else u64 (block_write_failures s + 1))
    (u64 (block_writes s + 1)) (u64 (block_sectors_written s + count))
    (if begun <? now then u64 (block_write_ns s + u64 (now - begun)) else block_write_ns s).

Definition device_read_counted (st : block_state) (d : device) (lba count : Z) : res (Z * list Z * block_state) :=
  let '(begun, st) := time_uptime_ns st in
  '(status, data, st) ← call_read DEPTH st d lba count;
  let '(now, st) := time_uptime_ns st in
  Ret (status, data, set_stats (count_read count begun now (stats st)) st).

(** [destination] and [source] are [false] and [None] when NULL. *)
Definition block_device_read (st : block_state) (dev : option nat) (lba count : Z) (destination : bool)
  : res (Z * list Z * block_state) :=
  match dev with
  | None => Ret (-1, [], st)
  | Some dev =>
      d ← deref st dev;
      if negb (can_read d) || (count =? 0) || negb destination then Ret (-1, [], st)
      else if sectors d <? u64 (lba + count) then Ret (-1, [], st)
      else device_read_counted st d lba count
  end.

Definition block_device_write (st : block_state) (dev : option nat) (lba count : Z) (source : option (list Z))
  : res (Z * block_state) :=
  match dev, source with
  | Some dev, Some source =>
      d ← deref st dev;
      if negb (can_write d) || (count =? 0) then Ret (-1, st)
      else if sectors d <? u64 (lba + count) then Ret (-1, st)
      else
        let '(begun, st) := time_uptime_ns st in
        '(status, st) ← call_write DEPTH st d lba count source;
        let '(now, st) := time_uptime_ns st in
        Ret (status, set_stats (count_write count begun now status (stats st)) st)
  | _, _ => Ret (-1, st)
  end.

Definition block_device_discard (st : block_state) (dev : option nat) (lba count : Z) : res (Z * block_state) :=
  match dev with
  | None => Ret (-1, st)
  | Some dev =>
      d ← deref st dev;
      if negb (can_discard d) || (count =? 0) then Ret (-1, st)
      else if sectors d <? u64 (lba + count) then Ret (-1, st)
      else call_discard DEPTH st d lba count
  end.

Definition block_device_flush (st : block_state) (dev : option nat) : res (Z * block_state) :=
  match dev with
  | None => Ret (-1, st)
  | Some dev => d ← deref st dev; if can_flush d then call_flush DEPTH st d else Ret (0, st)
  end.

(** ** Requests in bytes

    Every turn of the loops moves at least one byte: the fuel is [size + 1]. *)

(** [whole] of both loops. *)
Definition whole_sectors (d : device) (lba size : Z) : Z :=
  let whole := size / BLOCK_SECTOR_SIZE in
  let whole := if sectors d - lba <? whole then sectors d - lba else whole in
  if 0xFFFF <? whole then 0xFFFF else whole.

Fixpoint write_loop (fuel : nat) (st : block_state) (d : device) (offset : Z) (input : list Z) (size : Z)
  : res (Z * block_state) :=
  match fuel with
  | O => Fault
  | S fuel =>
      if size =? 0 then Ret (0, st)
      else
        let lba := offset / BLOCK_SECTOR_SIZE in
        let within := offset `mod` BLOCK_SECTOR_SIZE in
        if sectors d <=? lba then Ret (-1, st)
        else if (within =? 0) && (BLOCK_SECTOR_SIZE <=? size) then
          let whole := whole_sectors d lba size in
          let moved := whole * BLOCK_SECTOR_SIZE in
          data ← copy_out input 0 moved;
          '(status, st) ← call_write DEPTH st d lba whole data;
          if negb (status =? 0) then Ret (-1, st)
          else write_loop fuel st d (u64 (offset + moved)) (drop (Z.to_nat moved) input) (size - moved)
        else
          '(status, sector, st) ← device_read_counted st d lba 1;
          if negb (status =? 0) then Ret (-1, st)
          else
            let chunk := BLOCK_SECTOR_SIZE - within in
            let chunk := if size <? chunk then size else chunk in
            data ← copy_out input 0 chunk;
            sector ← copy_in sector within data;
            '(status, st) ← call_write DEPTH st d lba 1 sector;
            if negb (status =? 0) then Ret (-1, st)
            else write_loop fuel st d (u64 (offset + chunk)) (drop (Z.to_nat chunk) input) (size - chunk)
  end.

Definition block_device_write_bytes (st : block_state) (dev : option nat) (offset size : Z) (source : option (list Z))
  : res (Z * block_state) :=
  match dev, source with
  | Some dev, Some source =>
      d ← deref st dev;
      if negb (can_write d) then Ret (-1, st) else write_loop (S (Z.to_nat size)) st d offset source size
  | _, _ => Ret (-1, st)
  end.

(** [out] is what has been stored at the destination so far. *)
Fixpoint read_loop (fuel : nat) (st : block_state) (d : device) (offset : Z) (out : list Z) (size : Z)
  : res (Z * list Z * block_state) :=
  match fuel with
  | O => Fault
  | S fuel =>
      if size =? 0 then Ret (0, out, st)
      else
        let lba := offset / BLOCK_SECTOR_SIZE in
        let within := offset `mod` BLOCK_SECTOR_SIZE in
        if sectors d <=? lba then Ret (-1, out, st)
        else if (within =? 0) && (BLOCK_SECTOR_SIZE <=? size) then
          let whole := whole_sectors d lba size in
          '(status, data, st) ← device_read_counted st d lba whole;
          if negb (status =? 0) then Ret (-1, out, st)
          else
            let moved := whole * BLOCK_SECTOR_SIZE in
            read_loop fuel st d (u64 (offset + moved)) (out ++ data) (size - moved)
        else
          '(status, sector, st) ← device_read_counted st d lba 1;
          if negb (status =? 0) then Ret (-1, out, st)
          else
            let chunk := BLOCK_SECTOR_SIZE - within in
            let chunk := if size <? chunk then size else chunk in
            data ← copy_out sector within chunk;
            read_loop fuel st d (u64 (offset + chunk)) (out ++ data) (size - chunk)
  end.

Definition block_device_read_bytes (st : block_state) (dev : option nat) (offset size : Z) (destination : bool)
  : res (Z * list Z * block_state) :=
  match dev with
  | None => Ret (-1, [], st)
  | Some dev =>
      if negb destination then Ret (-1, [], st)
      else d ← deref st dev; read_loop (S (Z.to_nat size)) st d offset [] size
  end.

End block.

Arguments block_state D : clear implicits.
