(* ===== verification/BlockIo.v ===== *)
(** * Requests of the block layer

    What a device is on its medium ([located]), what the function pointers and
    the sector and byte requests of Block.v do to the bytes of the medium, and
    the theorems that the byte requests read and write a device as an array of
    bytes and that no request leaves the sectors of its device. *)

From S2P Require Import Prelude Block.

Section io.
Context {D : Type} `{Driver D} (mallocs : nat -> bool) (clock : nat -> Z).
Implicit Types (st : block_state D) (d : device).

(** ** Devices on their medium *)

(** The device is the sectors [base, base + sectors) of a unit. *)
Inductive located st d (u : nat) (base : Z) : Prop :=
  | at_driver :
      ctx d = DriverContext u -> base = 0 -> 0 <= sectors d <= capacity u -> located st d u base
  | at_partition p n disk :
      ctx d = PartitionContext p base -> block_device_at st p = Some n -> devices st !! n = Some disk ->
      ctx disk = DriverContext u -> (can_write d = true -> can_write disk = true) ->
      (can_discard d = true -> can_discard disk = true) ->
      0 <= base -> 0 <= sectors d -> base + sectors d <= capacity u -> located st d u base.

(** Only the hardware, the statistics and the clock have moved. *)
Definition same_registry st st' : Prop :=
  devices st' = devices st /\ device_capacity st' = device_capacity st /\ disk_count st' = disk_count st /\
  extended_minors st' = extended_minors st /\ root_index st' = root_index st.

Lemma same_registry_refl st : same_registry st st.
Proof. done. Qed.

Lemma same_registry_trans st1 st2 st3 : same_registry st1 st2 -> same_registry st2 st3 -> same_registry st1 st3.
Proof. unfold same_registry. intuition congruence. Qed.

Lemma set_hw_same h st : same_registry st (set_hw h st).
Proof. done. Qed.

Lemma block_device_at_same st st' p : same_registry st st' -> block_device_at st' p = block_device_at st p.
Proof. intros (E & _). unfold block_device_at, device_count. by rewrite E. Qed.

Lemma located_same st st' d u base : same_registry st st' -> located st d u base -> located st' d u base.
Proof.
  intros S [?|p n disk ? Hp Hn]; [by apply at_driver|].
  apply (at_partition _ _ _ _ p n disk); try done; [by rewrite (block_device_at_same st)|]. destruct S as [-> _]. done.
Qed.

Lemma located_range st d u base : located st d u base -> 0 <= base /\ 0 <= sectors d /\ base + sectors d <= capacity u < 2 ^ 55.
Proof. pose proof (capacity_bound u). intros []; subst; lia. Qed.

Section located.
Context (st : block_state D) (d : device) (u : nat) (base : Z) (Hl : located st d u base).

Lemma located_u64 lba : 0 <= lba <= sectors d -> u64 (base + lba) = base + lba.
Proof using Hl. intros Hb. destruct (located_range _ _ _ _ Hl) as (? & ? & ?). apply Z.mod_small. lia. Qed.

Lemma call_read_at lba count : 0 <= lba <= sectors d ->
  call_read DEPTH st d lba count =
  let '(status, data, h) := drv_read (hw st) u (base + lba) count in Ret (status, data, set_hw h st).
Proof using Hl.
  intros Hb. pose proof (located_u64 lba Hb) as E. unfold DEPTH. cbn [call_read].
  destruct Hl as [-> -> _|p n disk -> -> Hn Hc _]; [done|]. unfold deref. rewrite Hn, bind_ret, E. by rewrite Hc.
Qed.

Lemma call_write_at lba count data : 0 <= lba <= sectors d -> can_write d = true ->
  call_write DEPTH st d lba count data =
  let '(status, h) := drv_write (hw st) u (base + lba) count data in Ret (status, set_hw h st).
Proof using Hl.
  intros Hb Hw. pose proof (located_u64 lba Hb) as E. unfold DEPTH. cbn [call_write].
  destruct Hl as [-> -> _|p n disk -> -> Hn Hc Hcw _ _ _ _]; [done|]. unfold deref. rewrite Hn, bind_ret, E, Hcw by done. cbn. by rewrite Hc.
Qed.

Lemma call_discard_at lba count : 0 <= lba <= sectors d -> can_discard d = true ->
  call_discard DEPTH st d lba count =
  let '(status, h) := drv_discard (hw st) u (base + lba) count in Ret (status, set_hw h st).
Proof using Hl.
  intros Hb Hw. pose proof (located_u64 lba Hb) as E. unfold DEPTH. cbn [call_discard].
  destruct Hl as [-> -> _|p n disk -> -> Hn Hc _ Hcd _ _ _]; [done|]. unfold deref. rewrite Hn, bind_ret, E, Hcd by done. cbn. by rewrite Hc.
Qed.

Lemma call_flush_at :
  returns (call_flush DEPTH st d) (fun '(status, st') =>
    same_registry st st' /\ forall v k, medium (hw st') v k = medium (hw st) v k).
Proof using Hl.
  assert (F : forall v, returns (let '(status, h) := drv_flush (hw st) v in Ret (status, set_hw h st))
    (fun '(status, st') => same_registry st st' /\ forall v k, medium (hw st') v k = medium (hw st) v k)).
  { intros v. destruct (drv_flush (hw st) v) as [status h] eqn:E. split; [done|]. intros w k. by apply (drv_flush_keeps _ _ _ _ _ _ E). }
  unfold DEPTH. cbn [call_flush]. destruct Hl as [-> _ _|p n disk -> -> Hn Hc _ _ _ _ _]; [apply F|].
  unfold deref. rewrite Hn, bind_ret. destruct (can_flush disk); [|done]. rewrite Hc. apply F.
Qed.
End located.

(** ** What requests do to the medium *)

(** [data] written at byte [at_] of unit [u]. *)
Definition update (f : nat -> Z -> Z) (u : nat) (at_ : Z) (data : list Z) (v : nat) (k : Z) : Z :=
  if decide (v = u /\ at_ <= k < at_ + Z.of_nat (length data)) then data !!! Z.to_nat (k - at_) else f v k.

Definition kept (f g : nat -> Z -> Z) (u : nat) (lo hi : Z) : Prop :=
  forall v k, v <> u \/ ~ (lo <= k < hi) -> g v k = f v k.

Lemma kept_refl f u lo hi : kept f f u lo hi.
Proof. done. Qed.

Lemma kept_trans f g h u lo hi : kept f g u lo hi -> kept g h u lo hi -> kept f h u lo hi.
Proof. intros A B v k Hv. by rewrite B, A. Qed.

Lemma kept_weaken f g u lo hi lo' hi' : kept f g u lo hi -> lo' <= lo -> hi <= hi' -> kept f g u lo' hi'.
Proof. intros A Hlo Hhi v k Hv. apply A. destruct Hv; [by left|right; lia]. Qed.

Lemma length_bytes_at f a n : 0 <= n -> length (bytes_at f a n) = Z.to_nat n.
Proof. intros Hn. unfold bytes_at. by rewrite length_map, length_seqZ. Qed.

Lemma lookup_bytes_at f a n i : (i < Z.to_nat n)%nat -> bytes_at f a n !! i = Some (f (a + Z.of_nat i)).
Proof. intros Hi. unfold bytes_at. rewrite list_lookup_fmap, lookup_seqZ_lt by lia. done. Qed.

Lemma bytes_at_app f a n m : 0 <= n -> 0 <= m -> bytes_at f a n ++ bytes_at f (a + n) m = bytes_at f a (n + m).
Proof.
  intros Hn Hm. unfold bytes_at. rewrite seqZ_app, map_app by done. f_equal. apply list_eq. intros i.
  rewrite !list_lookup_fmap. destruct (decide (Z.of_nat i < m)).
  - rewrite !lookup_seqZ_lt by lia. cbn. do 2 f_equal. lia.
  - rewrite !lookup_seqZ_ge by lia. done.
Qed.

Lemma slice_bytes_at f a n i m : 0 <= i -> 0 <= m -> i + m <= n -> slice (bytes_at f a n) i m = bytes_at f (a + i) m.
Proof.
  intros Hi Hm Hn. apply list_eq. intros k. destruct (decide (k < Z.to_nat m)%nat).
  - rewrite lookup_slice, !lookup_bytes_at by lia. do 2 f_equal. lia.
  - rewrite !lookup_ge_None_2; [done|rewrite length_bytes_at by lia; lia|].
    unfold slice. rewrite length_take, length_drop, length_bytes_at by lia. lia.
Qed.

Lemma bytes_at_ext f g a n : (forall k, f k = g k) -> bytes_at f a n = bytes_at g a n.
Proof. intros E. unfold bytes_at. by apply map_ext. Qed.

(** Two pieces written one after the other are the whole. *)
Lemma update_app f u at_ front back v k :
  update (update f u at_ front) u (at_ + Z.of_nat (length front)) back v k = update f u at_ (front ++ back) v k.
Proof.
  unfold update. rewrite length_app. repeat case_decide; try done; try lia.
  - rewrite lookup_total_app_r by lia. f_equal. lia.
  - rewrite lookup_total_app_l by lia. done.
Qed.

Lemma update_nil f u at_ v k : update f u at_ [] v k = f v k.
Proof. unfold update. case_decide; [|done]. cbn in *. lia. Qed.

Lemma update_ext f g u at_ data v k : (forall v k, f v k = g v k) -> update f u at_ data v k = update g u at_ data v k.
Proof. intros E. unfold update. by rewrite E. Qed.

Lemma update_kept f g u at_ data lo hi :
  (forall v k, g v k = update f u at_ data v k) -> lo <= at_ -> at_ + Z.of_nat (length data) <= hi -> kept f g u lo hi.
Proof. intros E Hlo Hhi v k Hv. rewrite E. unfold update. rewrite decide_False; [done|]. lia. Qed.

(** A sector with [data] put into it at [within]. *)
Lemma update_sector f u s within data v k :
  0 <= within -> within + Z.of_nat (length data) <= BLOCK_SECTOR_SIZE ->
  update f u s (splice (bytes_at (f u) s BLOCK_SECTOR_SIZE) within data) v k = update f u (s + within) data v k.
Proof.
  intros Hw Hd. assert (Hb : length (bytes_at (f u) s BLOCK_SECTOR_SIZE) = 512%nat) by (by rewrite length_bytes_at).
  unfold BLOCK_SECTOR_SIZE in *. unfold update. rewrite length_splice by lia. rewrite Hb.
  destruct (decide (v = u /\ s <= k < s + Z.of_nat 512)) as [[-> Hk]|Hk].
  - rewrite (list_lookup_total_correct _ _ (if decide (s + within <= k < s + within + Z.of_nat (length data)) then
      data !!! Z.to_nat (k - (s + within)) else f u k)).
    { repeat case_decide; try done; lia. }
    rewrite lookup_splice by lia. repeat case_decide; try lia.
    + rewrite list_lookup_lookup_total_lt by lia. do 2 f_equal. lia.
    + rewrite lookup_bytes_at by lia. do 2 f_equal. lia.
  - rewrite decide_False by lia. done.
Qed.

(** ** The requests *)

Section requests.
Context (d : device) (u : nat) (base : Z).

(** The bytes of the device, numbered on its medium. *)
Local Notation first := (BLOCK_SECTOR_SIZE * base).
Local Notation limit := (BLOCK_SECTOR_SIZE * (base + sectors d)).

Lemma read_call st lba count : located st d u base -> 0 <= lba -> 0 < count -> lba + count <= sectors d ->
  returns (device_read_counted clock st d lba count) (fun '(status, data, st') =>
    same_registry st st' /\ (forall v k, medium (hw st') v k = medium (hw st) v k) /\
    (status = 0 -> data = bytes_at (medium (hw st) u) (first + BLOCK_SECTOR_SIZE * lba) (BLOCK_SECTOR_SIZE * count))).
Proof.
  intros Hl Hb Hc Hs. destruct (located_range _ _ _ _ Hl) as (? & ? & ?).
  assert (R1 : 0 <= base + lba) by lia. assert (R2 : base + lba + count <= capacity u) by lia. unfold device_read_counted, time_uptime_ns.
  rewrite (call_read_at _ d u base) by (try lia; by apply (located_same st)). cbn [hw set_asked].
  destruct (drv_read (hw st) u (base + lba) count) as [[status data] h] eqn:E. rewrite bind_ret. cbn [returns].
  split; [done|]. split; [intros v k; apply (drv_read_keeps _ u (base + lba) count _ _ _ v k R1 Hc R2 E)|].
  intros ->.  rewrite <- Z.mul_add_distr_l. apply (drv_read_data _ u (base + lba) count _ _ R1 Hc R2 E).
Qed.

Lemma write_call st lba count data : located st d u base -> can_write d = true -> 0 <= lba -> 0 < count -> lba + count <= sectors d ->
  returns (call_write DEPTH st d lba count data) (fun '(status, st') =>
    same_registry st st' /\
    kept (medium (hw st)) (medium (hw st')) u (first + BLOCK_SECTOR_SIZE * lba) (first + BLOCK_SECTOR_SIZE * (lba + count)) /\
    (status = 0 -> Z.of_nat (length data) = BLOCK_SECTOR_SIZE * count ->
     forall v k, medium (hw st') v k = update (medium (hw st)) u (first + BLOCK_SECTOR_SIZE * lba) data v k)).
Proof.
  intros Hl Hw Hb Hc Hs. destruct (located_range _ _ _ _ Hl) as (? & ? & ?).
  assert (R1 : 0 <= base + lba) by lia. assert (R2 : base + lba + count <= capacity u) by lia.
  rewrite (call_write_at _ d u base) by (done || lia).
  destruct (drv_write (hw st) u (base + lba) count data) as [status h] eqn:E. cbn [returns]. 
  assert (K : forall v k, v <> u \/ ~ in_sectors (base + lba) count k -> medium h v k = medium (hw st) v k).
  { intros v k Hv. apply (drv_write_keeps _ u (base + lba) count _ _ _ v k R1 Hc R2 E Hv). }
  unfold in_sectors in K. split; [done|]. split.
  - intros v k Hv. apply K. destruct Hv; [by left|right; lia].
  - intros -> Hd v k. unfold update. case_decide as Hk.
    + destruct Hk as [-> Hk]. cbn [hw set_hw].
      rewrite (drv_write_data _ u (base + lba) count _ _ k R1 Hc R2 E); [do 2 f_equal; lia|]. unfold in_sectors. lia.
    + apply K. destruct (decide (v = u)); [right; lia|by left].
Qed.

Lemma whole_sectors_bound lba size : 0 <= lba < sectors d -> BLOCK_SECTOR_SIZE <= size ->
  0 < whole_sectors d lba size /\ lba + whole_sectors d lba size <= sectors d /\
  BLOCK_SECTOR_SIZE * whole_sectors d lba size <= size.
Proof.
  intros Hl Hs. unfold whole_sectors, BLOCK_SECTOR_SIZE in *. pose proof (Z.div_mod size 512 ltac:(lia)). pose proof (Z.mod_pos_bound size 512 ltac:(lia)).
  destruct (Z.ltb_spec (sectors d - lba) (size / 512)); case_cmp; lia.
Qed.

(** The last byte the sectors of a request reach, after the [size] bytes from [offset] on. *)
Definition reach (offset size : Z) : Z := Z.min limit (first + BLOCK_SECTOR_SIZE * ((offset + size + 511) / BLOCK_SECTOR_SIZE)).

(** The outcome of a byte write, from the medium [f] to [g]. *)
Definition written (f g : nat -> Z -> Z) (offset : Z) (input : list Z) (status : Z) : Prop :=
  (status = 0 /\ (input = [] \/ first + offset + Z.of_nat (length input) <= limit) /\
   forall v k, g v k = update f u (first + offset) input v k) \/
  (status = -1 /\ kept f g u (first + BLOCK_SECTOR_SIZE * (offset / BLOCK_SECTOR_SIZE)) (reach offset (Z.of_nat (length input)))).

(** One turn: the front is written, the rest follows. *)
Lemma written_step f g h offset front back status :
  0 <= offset -> (forall v k, g v k = update f u (first + offset) front v k) -> front <> [] ->
  first + offset + Z.of_nat (length front) <= limit ->
  written g h (offset + Z.of_nat (length front)) back status -> written f h offset (front ++ back) status.
Proof.
  intros Ho Hg Hne Hf [(-> & Hb & Hh)|[-> Hh]]; [left|right]; (split; [done|]).
  - split; [right; rewrite length_app; destruct Hb as [->|Hb]; cbn; lia|]. intros v k. rewrite Hh, <- update_app.
    rewrite Z.add_assoc. by apply update_ext.
  - assert (0 < length front)%nat by (destruct front; cbn; [done|lia]).
    assert (offset / BLOCK_SECTOR_SIZE <= (offset + Z.of_nat (length front)) / BLOCK_SECTOR_SIZE) by (apply Z.div_le_mono; unfold BLOCK_SECTOR_SIZE; lia).
    pose proof (Z.mul_div_le offset BLOCK_SECTOR_SIZE ltac:(unfold BLOCK_SECTOR_SIZE; lia)).
    apply (kept_trans _ g).
    + apply (update_kept _ _ _ _ _ _ _ Hg); [lia|]. unfold reach. rewrite length_app.
      assert (offset + Z.of_nat (length front) <= BLOCK_SECTOR_SIZE * ((offset + Z.of_nat (length front + length back) + 511) / BLOCK_SECTOR_SIZE)).
      { unfold BLOCK_SECTOR_SIZE. pose proof (Z.div_mod (offset + Z.of_nat (length front + length back) + 511) 512 ltac:(lia)).
        pose proof (Z.mod_pos_bound (offset + Z.of_nat (length front + length back) + 511) 512 ltac:(lia)). lia. }
      lia.
    + apply (kept_weaken _ _ _ _ _ _ _ Hh); [unfold BLOCK_SECTOR_SIZE in *; lia|]. unfold reach.
      rewrite length_app, Nat2Z.inj_add, Z.add_assoc. lia.
Qed.

Lemma written_fail f g offset input lo hi :
  kept f g u lo hi -> first + BLOCK_SECTOR_SIZE * (offset / BLOCK_SECTOR_SIZE) <= lo -> hi <= reach offset (Z.of_nat (length input)) ->
  written f g offset input (-1).
Proof. intros K Hlo Hhi. right. split; [done|]. by apply (kept_weaken _ _ _ _ _ _ _ K). Qed.

(** The front of the input that a turn takes. *)
Lemma copy_front (input : list Z) n : 0 <= n <= Z.of_nat (length input) ->
  copy_out input 0 n = Ret (take (Z.to_nat n) input) /\ Z.of_nat (length (take (Z.to_nat n) input)) = n /\
  Z.of_nat (length input) - n = Z.of_nat (length (drop (Z.to_nat n) input)).
Proof.
  intros Hn. rewrite copy_out_in, length_take, length_drop by lia. unfold slice. rewrite drop_0. split; [done|]. lia.
Qed.

(** A byte offset inside the device and its sector. *)
Lemma offset_split offset : 0 <= offset ->
  offset = BLOCK_SECTOR_SIZE * (offset / BLOCK_SECTOR_SIZE) + offset `mod` BLOCK_SECTOR_SIZE /\
  0 <= offset `mod` BLOCK_SECTOR_SIZE < BLOCK_SECTOR_SIZE /\ 0 <= offset / BLOCK_SECTOR_SIZE.
Proof.
  intros Ho. unfold BLOCK_SECTOR_SIZE. pose proof (Z.div_mod offset 512 ltac:(lia)). pose proof (Z.mod_pos_bound offset 512 ltac:(lia)).
  pose proof (Z.div_pos offset 512). lia.
Qed.

Lemma u64_advance st offset n : located st d u base -> 0 <= offset -> 0 <= n -> offset + n <= BLOCK_SECTOR_SIZE * sectors d ->
  u64 (offset + n) = offset + n.
Proof. intros Hl Ho Hn Hs. destruct (located_range _ _ _ _ Hl). apply Z.mod_small. unfold BLOCK_SECTOR_SIZE in Hs. lia. Qed.

(** The sectors a turn touches are within [reach]. *)
Lemma reach_turn offset size hi : 0 <= offset -> hi <= sectors d ->
  BLOCK_SECTOR_SIZE * (hi - 1) < offset + size -> first + BLOCK_SECTOR_SIZE * hi <= reach offset size.
Proof.
  intros Ho Hs Hh. unfold reach, BLOCK_SECTOR_SIZE in *. pose proof (Z.div_mod (offset + size + 511) 512 ltac:(lia)).
  pose proof (Z.mod_pos_bound (offset + size + 511) 512 ltac:(lia)). lia.
Qed.

(** A turn of [write_loop] that moves whole sectors, and its rest [k]. *)
Lemma write_whole st offset input (k : Z -> block_state D -> res (Z * block_state D)) Q :
  let lba := offset / BLOCK_SECTOR_SIZE in
  let whole := whole_sectors d lba (Z.of_nat (length input)) in
  let front := take (Z.to_nat (whole * BLOCK_SECTOR_SIZE)) input in
  located st d u base -> can_write d = true -> 0 <= offset -> lba < sectors d ->
  offset `mod` BLOCK_SECTOR_SIZE = 0 -> BLOCK_SECTOR_SIZE <= Z.of_nat (length input) ->
  (forall st', same_registry st st' -> written (medium (hw st)) (medium (hw st')) offset input (-1) -> Q (-1, st')) ->
  (forall st', same_registry st st' ->
     (forall v i, medium (hw st') v i = update (medium (hw st)) u (first + offset) front v i) -> returns (k 0 st') Q) ->
  returns ('(status, st') ← call_write DEPTH st d lba whole front; if negb (status =? 0) then Ret (-1, st') else k 0 st') Q.
Proof.
  intros lba whole front Hl Hw Ho Hlba Hm Hs Hfail Hgo. destruct (offset_split offset Ho) as (Eo & _ & H0lba). fold lba in Eo, H0lba.
  destruct (whole_sectors_bound lba (Z.of_nat (length input))) as (W1 & W2 & W3); [lia|done|]. fold whole in W1, W2, W3.
  assert (Hf : Z.of_nat (length front) = BLOCK_SECTOR_SIZE * whole).
  { unfold front. rewrite length_take. unfold BLOCK_SECTOR_SIZE in *. lia. }
  eapply returns_bind; [apply (write_call st lba whole front); done|]. intros [status st'] (S1 & K & U).
  destruct (Z.eqb_spec status 0) as [->|]; cbn [negb].
  - apply Hgo; [done|]. intros v i. rewrite U by done. rewrite Eo, Hm. do 2 f_equal. lia.
  - apply Hfail; [done|]. apply (written_fail _ _ _ _ _ _ K); [fold lba; lia|].
    apply reach_turn; [done|lia|]. unfold BLOCK_SECTOR_SIZE in *. lia.
Qed.

(** A turn of [write_loop] that changes a part of one sector. *)
Lemma write_part st offset input (k : Z -> block_state D -> res (Z * block_state D)) Q :
  let lba := offset / BLOCK_SECTOR_SIZE in
  let within := offset `mod` BLOCK_SECTOR_SIZE in
  let chunk := Z.min (BLOCK_SECTOR_SIZE - within) (Z.of_nat (length input)) in
  let front := take (Z.to_nat chunk) input in
  located st d u base -> can_write d = true -> 0 <= offset -> lba < sectors d -> input <> [] ->
  (forall st', same_registry st st' -> written (medium (hw st)) (medium (hw st')) offset input (-1) -> Q (-1, st')) ->
  (forall st', same_registry st st' ->
     (forall v i, medium (hw st') v i = update (medium (hw st)) u (first + offset) front v i) -> returns (k 0 st') Q) ->
  returns ('(status, sector, st') ← device_read_counted clock st d lba 1;
           if negb (status =? 0) then Ret (-1, st')
           else sector ← copy_in sector within front;
                '(status, st') ← call_write DEPTH st' d lba 1 sector;
                if negb (status =? 0) then Ret (-1, st') else k 0 st') Q.
Proof.
  intros lba within chunk front Hl Hw Ho Hlba Hne Hfail Hgo. destruct (offset_split offset Ho) as (Eo & Hwi & H0lba).
  fold lba within in Eo, Hwi, H0lba. assert (0 < length input)%nat by (destruct input; cbn; [done|lia]).
  assert (Hf : Z.of_nat (length front) = chunk) by (unfold front; rewrite length_take; lia).
  assert (R : first + BLOCK_SECTOR_SIZE * (lba + 1) <= reach offset (Z.of_nat (length input))) by (apply reach_turn; lia).
  eapply returns_bind; [apply (read_call st lba 1); done || lia|]. intros [[status sector] st1] (S1 & K1 & Data).
  destruct (Z.eqb_spec status 0) as [->|]; cbn [negb].
  2: { apply Hfail; [done|]. apply (written_fail _ _ _ _ (first + BLOCK_SECTOR_SIZE * lba) (first + BLOCK_SECTOR_SIZE * lba)).
       - intros v i _. apply K1.
       - done.
       - unfold BLOCK_SECTOR_SIZE in *. lia. }
  rewrite Data by done. rewrite Z.mul_1_r, copy_in_in, bind_ret by (rewrite ?length_bytes_at; unfold BLOCK_SECTOR_SIZE in *; lia).
  eapply returns_bind; [apply (write_call st1 lba 1); try done; [by apply (located_same st)|lia]|].
  intros [status st2] (S2 & K2 & U). assert (S12 := same_registry_trans _ _ _ S1 S2).
  destruct (Z.eqb_spec status 0) as [->|]; cbn [negb].
  - apply Hgo; [done|]. intros v i. rewrite U; [|done|].
    + rewrite (update_ext _ (medium (hw st))) by done. rewrite update_sector by lia. f_equal. lia.
    + rewrite length_splice, length_bytes_at; unfold BLOCK_SECTOR_SIZE in *; rewrite ?length_bytes_at; lia.
  - apply Hfail; [done|]. apply (written_fail _ _ _ _ _ _ (kept_trans _ _ _ _ _ _ (fun v i _ => K1 v i) K2)); fold lba; lia.
Qed.

Lemma chunk_min within size : (if size <? BLOCK_SECTOR_SIZE - within then size else BLOCK_SECTOR_SIZE - within) = Z.min (BLOCK_SECTOR_SIZE - within) size.
Proof. case_cmp; lia. Qed.

Lemma write_loop_ok fuel st offset input :
  located st d u base -> can_write d = true -> 0 <= offset -> (length input < fuel)%nat ->
  returns (write_loop clock fuel st d offset input (Z.of_nat (length input))) (fun '(status, st') =>
    same_registry st st' /\ written (medium (hw st)) (medium (hw st')) offset input status).
Proof.
  revert st offset input. induction fuel as [|fuel IH]; intros st offset input Hl Hw Ho Hfuel; [lia|]. cbn [write_loop].
  destruct (Z.eqb_spec (Z.of_nat (length input)) 0) as [E|Hne].
  { assert (input = []) as -> by (destruct input; cbn in E; [done|lia]). split; [done|]. left. split; [done|]. split; [by left|].
    intros v k. by rewrite update_nil. }
  assert (Hin : input <> []) by (by intros ->). destruct (offset_split offset Ho) as (Eo & Hwi & H0lba).
  destruct (Z.leb_spec (sectors d) (offset / BLOCK_SECTOR_SIZE)) as [|Hlba].
  { split; [done|]. by right. }
  assert (Step : forall st' n, 0 < n <= Z.of_nat (length input) -> offset + n <= BLOCK_SECTOR_SIZE * sectors d -> same_registry st st' ->
    (forall v i, medium (hw st') v i = update (medium (hw st)) u (first + offset) (take (Z.to_nat n) input) v i) ->
    returns (write_loop clock fuel st' d (u64 (offset + n)) (drop (Z.to_nat n) input) (Z.of_nat (length input) - n))
      (fun '(status, st') => same_registry st st' /\ written (medium (hw st)) (medium (hw st')) offset input status)).
  { intros st' n Hn Hon S1 Hu. destruct (copy_front input n ltac:(lia)) as (_ & Hf & ->). rewrite (u64_advance st) by (done || lia).
    eapply returns_mono; [apply IH; [by apply (located_same st)|done|lia|rewrite length_drop; lia]|].
    intros [status st''] (S2 & W). split; [by apply (same_registry_trans _ st')|]. rewrite <- (take_drop (Z.to_nat n) input).
    apply (written_step _ (medium (hw st'))); [done|done| |lia|by rewrite Hf].
    intros E. rewrite E in Hf. cbn in Hf. lia. }
  destruct ((offset `mod` BLOCK_SECTOR_SIZE =? 0) && (BLOCK_SECTOR_SIZE <=? Z.of_nat (length input))) eqn:Hcase.
  - apply andb_prop in Hcase as [Hm%Z.eqb_eq Hs%Z.leb_le].
    destruct (whole_sectors_bound (offset / BLOCK_SECTOR_SIZE) (Z.of_nat (length input))) as (W1 & W2 & W3); [lia|done|].
    set (whole := whole_sectors d (offset / BLOCK_SECTOR_SIZE) (Z.of_nat (length input))) in *.
    rewrite (proj1 (copy_front input (whole * BLOCK_SECTOR_SIZE) ltac:(unfold BLOCK_SECTOR_SIZE in *; lia))), bind_ret.
    apply (write_whole st offset input (fun _ st' => write_loop clock fuel st' d _ _ _)); try done.
    intros st' S1 Hu. apply Step; [unfold BLOCK_SECTOR_SIZE in *; lia|unfold BLOCK_SECTOR_SIZE in *; lia|done|done].
  - rewrite chunk_min. set (chunk := Z.min (BLOCK_SECTOR_SIZE - offset `mod` BLOCK_SECTOR_SIZE) (Z.of_nat (length input))) in *.
    rewrite (proj1 (copy_front input chunk ltac:(lia))).
    apply (write_part st offset input (fun _ st' => write_loop clock fuel st' d _ _ _)); try done.
    intros st' S1 Hu. apply Step; [lia|unfold BLOCK_SECTOR_SIZE in *; lia|done|done].
Qed.

(** The outcome of a byte read of [size] bytes after [out]. *)
Definition fetched (f : nat -> Z -> Z) (offset size : Z) (out : list Z) (status : Z) (out' : list Z) : Prop :=
  (status = 0 /\ (size = 0 \/ first + offset + size <= limit) /\ out' = out ++ bytes_at (f u) (first + offset) size) \/ status = -1.

Lemma read_loop_ok fuel st offset out size :
  located st d u base -> 0 <= offset -> 0 <= size -> (Z.to_nat size < fuel)%nat ->
  returns (read_loop clock fuel st d offset out size) (fun '(status, out', st') =>
    same_registry st st' /\ (forall v k, medium (hw st') v k = medium (hw st) v k) /\
    fetched (medium (hw st)) offset size out status out').
Proof.
  revert st offset out size. induction fuel as [|fuel IH]; intros st offset out size Hl Ho Hsz Hfuel; [lia|]. cbn [read_loop].
  destruct (Z.eqb_spec size 0) as [->|Hne].
  { split; [done|]. split; [done|]. left. split; [done|]. split; [by left|]. by rewrite app_nil_r. }
  destruct (offset_split offset Ho) as (Eo & Hwi & H0lba).
  destruct (Z.leb_spec (sectors d) (offset / BLOCK_SECTOR_SIZE)) as [|Hlba]; [split; [done|]; split; [done|by right]|].
  assert (Step : forall st' n data, 0 < n <= size -> offset + n <= BLOCK_SECTOR_SIZE * sectors d -> same_registry st st' ->
    (forall v i, medium (hw st') v i = medium (hw st) v i) -> data = bytes_at (medium (hw st) u) (first + offset) n ->
    returns (read_loop clock fuel st' d (u64 (offset + n)) (out ++ data) (size - n)) (fun '(status, out', st') =>
      same_registry st st' /\ (forall v k, medium (hw st') v k = medium (hw st) v k) /\
      fetched (medium (hw st)) offset size out status out')).
  { intros st' n data Hn Hon S1 K1 ->. rewrite (u64_advance st) by (done || lia).
    eapply returns_mono; [apply IH; [by apply (located_same st)|lia|lia|lia]|].
    intros [[status out'] st''] (S2 & K2 & F). split; [by apply (same_registry_trans _ st')|]. split; [intros; by rewrite K2|].
    destruct F as [(-> & Hb & ->)| ->]; [left|by right]. split; [done|]. split; [right; lia|].
    rewrite <- app_assoc, (bytes_at_ext (medium (hw st') u) (medium (hw st) u)), Z.add_assoc, bytes_at_app by (done || lia). do 2 f_equal. lia. }
  destruct ((offset `mod` BLOCK_SECTOR_SIZE =? 0) && (BLOCK_SECTOR_SIZE <=? size)) eqn:Hcase.
  - apply andb_prop in Hcase as [Hm%Z.eqb_eq Hs%Z.leb_le].
    destruct (whole_sectors_bound (offset / BLOCK_SECTOR_SIZE) size) as (W1 & W2 & W3); [lia|done|].
    set (whole := whole_sectors d (offset / BLOCK_SECTOR_SIZE) size) in *.
    eapply returns_bind; [apply (read_call st _ whole); done|]. intros [[status data] st1] (S1 & K1 & Data).
    destruct (Z.eqb_spec status 0) as [->|]; cbn [negb]; [|split; [done|]; split; [done|by right]].
    apply Step; [unfold BLOCK_SECTOR_SIZE in *; lia|unfold BLOCK_SECTOR_SIZE in *; lia|done|done|].
    rewrite Data by done. f_equal; lia.
  - eapply returns_bind; [apply (read_call st _ 1); done || lia|]. intros [[status data] st1] (S1 & K1 & Data).
    destruct (Z.eqb_spec status 0) as [->|]; cbn [negb]; [|split; [done|]; split; [done|by right]].
    rewrite chunk_min. set (chunk := Z.min (BLOCK_SECTOR_SIZE - offset `mod` BLOCK_SECTOR_SIZE) size) in *.
    rewrite Data, Z.mul_1_r by done.
    rewrite copy_out_in, bind_ret by (rewrite ?length_bytes_at; unfold BLOCK_SECTOR_SIZE in *; lia).
    apply Step; [lia|unfold BLOCK_SECTOR_SIZE in *; lia|done|done|]. rewrite slice_bytes_at by lia. f_equal. lia.
Qed.
End requests.
End io.
