(* ===== verification/BlockReg.v ===== *)
(** * The registry of the block layer

    [registry_ok] is the invariant of the devices of Block.v: terminated names,
    numbers in range, every disk inside its unit and every partition inside its
    disk's unit.  Every function that registers keeps it, and
    [register_partition_ok] says what registering a partition does. *)

From S2P Require Import Prelude Block BlockIo.

(** ** Names *)

Definition nonzero (c : Z) : Prop := c <> 0.

Lemma strlen_intro pre rest : Forall nonzero pre -> strlen (pre ++ 0 :: rest) = Ret (Z.of_nat (length pre)).
Proof.
  induction 1 as [|c pre Hc Hpre IH]; [done|]. cbn [app strlen]. destruct (Z.eqb_spec c 0); [done|].
  rewrite IH, bind_ret. cbn [length]. f_equal. lia.
Qed.

Lemma c_string_intro pre rest : Forall nonzero pre -> c_string (pre ++ 0 :: rest) = Ret pre.
Proof.
  induction 1 as [|c pre Hc Hpre IH]; [done|]. cbn [app c_string]. destruct (Z.eqb_spec c 0); [done|]. by rewrite IH, bind_ret.
Qed.

(** An array that holds the string [s]. *)
Definition holds (l s : list Z) : Prop := Forall nonzero s /\ exists rest, l = s ++ 0 :: rest.

Lemma holds_strlen l s : holds l s -> strlen l = Ret (Z.of_nat (length s)) /\ c_string l = Ret s.
Proof. intros (Hs & rest & ->). by rewrite strlen_intro, c_string_intro. Qed.

(** Writing [tail] and a terminator over the old terminator. *)
Lemma holds_append l s tail : holds l s -> Forall nonzero tail -> (length s + length tail < length l)%nat ->
  exists l', copy_in l (Z.of_nat (length s)) (tail ++ [0]) = Ret l' /\ holds l' (s ++ tail) /\ length l' = length l.
Proof.
  intros (Hs & rest & ->) Ht Hlen. rewrite length_app in Hlen. cbn in Hlen.
  rewrite copy_in_in by (rewrite ?length_app; cbn; lia). eexists. split; [done|]. split.
  - split; [by apply Forall_app|]. unfold splice. rewrite Nat2Z.id, take_app_length.
    eexists. rewrite <- !app_assoc. cbn. done.
  - apply length_splice; rewrite ?length_app; cbn; lia.
Qed.

Lemma disk_letters_ok fuel number : 0 <= number ->
  Forall nonzero (disk_letters fuel number) /\ (length (disk_letters fuel number) <= fuel)%nat.
Proof.
  revert number. induction fuel as [|fuel IH]; intros number Hn; [done|]. cbn [disk_letters].
  rewrite Z.rem_mod_nonneg, Z.quot_div_nonneg by lia. pose proof (Z.mod_pos_bound number 26 ltac:(lia)).
  destruct (Z.leb_spec 0 (number / 26 - 1)) as [Hq|]; cbn [length].
  - destruct (IH _ Hq) as [? ?]. split; [|lia]. apply list.Forall_cons. split; [unfold nonzero; lia|done].
  - split; [|lia]. apply list.Forall_cons. split; [unfold nonzero; lia|done].
Qed.

Lemma disk_name_ok number out : 0 <= number -> length out = 16%nat ->
  exists l s, disk_name number out = Ret l /\ length l = 16%nat /\ holds l s /\ (length s <= 8)%nat.
Proof.
  intros Hn Ho. destruct (disk_letters_ok 6 number Hn) as [Hz Hl]. unfold disk_name.
  generalize dependent (disk_letters 6 number). intros letters Hz Hl. set (s := [115; 100] ++ rev letters). rewrite app_assoc. fold s.
  assert (Hs : (length s <= 8)%nat) by (unfold s; rewrite length_app, length_rev; cbn; lia).
  assert (Hs0 : length (s ++ [0]) = S (length s)) by (rewrite length_app; cbn; lia).
  rewrite copy_in_in by lia.
  exists (splice out 0 (s ++ [0])), s. split; [done|]. split; [rewrite length_splice; lia|].
  split; [|done]. split.
  - unfold s. apply Forall_app. split; [repeat constructor; done|]. by apply Forall_rev.
  - unfold splice. cbn [Z.to_nat take app]. rewrite <- app_assoc. eexists. done.
Qed.

(** The value of digits, the lowest first. *)
Fixpoint decimal_value (digits : list Z) : Z :=
  match digits with
  | [] => 0
  | c :: rest => (c - 48) + 10 * decimal_value rest
  end.

Lemma decimal_ok room number k : 1 <= number < 10 ^ Z.of_nat k -> (k <= room)%nat ->
  exists digits, decimal room number = Ret digits /\ (length digits <= k)%nat /\ Forall nonzero digits /\ decimal_value digits = number.
Proof.
  revert number k. induction room as [|room IH]; intros number k Hn Hk.
  { assert (k = 0%nat) as -> by lia. cbn in Hn. lia. }
  destruct k as [|k]; [cbn in Hn; lia|]. rewrite Nat2Z.inj_succ, Z.pow_succ_r in Hn by lia. cbn [decimal].
  rewrite Z.rem_mod_nonneg, Z.quot_div_nonneg by lia. pose proof (Z.mod_pos_bound number 10 ltac:(lia)).
  pose proof (Z.div_mod number 10 ltac:(lia)). destruct (Z.eqb_spec (number / 10) 0) as [E|Hne]; rewrite ?bind_ret.
  - exists [48 + number `mod` 10]. cbn. split; [done|]. split; [lia|]. split; [repeat constructor; unfold nonzero; lia|lia].
  - assert (0 <= number / 10) by (apply Z.div_pos; lia).
    destruct (IH (number / 10) k) as (ds & -> & Hl & Hz & Hv); [|lia|].
    { split; [lia|]. apply Z.div_lt_upper_bound; lia. }
    rewrite bind_ret. eexists. split; [done|]. cbn. split; [lia|]. split; [|lia].
    apply list.Forall_cons. split; [unfold nonzero; lia|done].
Qed.

(** ** The invariant *)

Section registry.
Context {D : Type} `{Driver D} (mallocs : nat -> bool).
Implicit Types (st : block_state D) (d : device).

(** Where a device is: a disk on its unit, a partition on the unit of its disk. *)
Definition placed (devs : list device) d : Prop :=
  match ctx d with
  | DriverContext u => parent d = -1 /\ 0 <= sectors d <= capacity u
  | PartitionContext p start =>
      parent d = p /\ 0 <= p /\ exists disk u, devs !! Z.to_nat p = Some disk /\ parent disk = -1 /\ ctx disk = DriverContext u /\
        can_write d = can_write disk /\ can_discard d = can_discard disk /\
        0 <= start /\ 0 < sectors d /\ start + sectors d <= capacity u
  end.

(** The longest name of a disk leaves room for the five digits of a partition. *)
Definition name_limit (p : Z) : nat := if decide (p = -1) then 10 else 15.

Record device_ok (devs : list device) d : Prop := {
  do_name : length (name d) = 16%nat;
  do_dev_name : length (dev_name d) = 16%nat;
  do_string : exists s, holds (dev_name d) s /\ (length s <= name_limit (parent d))%nat;
  do_major : 0 <= major d < 2 ^ 32;
  do_minor : 0 <= minor d < 2 ^ 32;
  do_read : can_read d = true;
  do_placed : placed devs d }.

Record registry_ok st : Prop := {
  ro_devices : Forall (device_ok (devices st)) (devices st);
  ro_room : device_count st <= device_capacity st;
  ro_disks : 0 <= disk_count st;
  ro_extended : 0 <= extended_minors st < 2 ^ 32;
  ro_root : 0 <= root_index st }.

(** The empty registry of the boot. *)
Definition boot_state (h : D) : block_state D := BlockState [] 0 0 0 0 (Stats 0 0 0 0 0 0 0) 0 h.

Lemma boot_ok h : registry_ok (boot_state h).
Proof. constructor; unfold device_count; cbn; done || lia. Qed.

Lemma device_ok_app devs e d : device_ok devs d -> device_ok (devs ++ [e]) d.
Proof.
  intros []. constructor; try done. unfold placed in *. destruct (ctx d) as [u|p start]; [done|].
  destruct do_placed0 as (? & ? & disk & u & Hl & ?). split; [done|]. split; [done|]. exists disk, u. split; [|done].
  by apply lookup_app_l_Some.
Qed.

Lemma registered st i d : registry_ok st -> devices st !! i = Some d -> device_ok (devices st) d.
Proof. intros Hr Hi. by apply (Forall_lookup_1 _ _ i _ (ro_devices _ Hr)). Qed.

Lemma block_device_at_Some st p n : block_device_at st p = Some n <-> 0 <= p < device_count st /\ n = Z.to_nat p.
Proof using.
  unfold block_device_at. destruct (Z.ltb_spec p 0), (Z.leb_spec (device_count st) p); cbn; (split; [try done|try lia]).
  - intros [= <-]. lia.
  - by intros [_ ->].
Qed.

(** A pointer that [block_device_at] returned can be followed. *)
Lemma device_at st p n : block_device_at st p = Some n -> exists d, devices st !! n = Some d /\ deref st n = Ret d.
Proof.
  intros [Hp ->]%block_device_at_Some. destruct (lookup_lt_is_Some_2 (devices st) (Z.to_nat p)) as [d Hd]; [unfold device_count in Hp; lia|].
  exists d. unfold deref. by rewrite Hd.
Qed.

Lemma registered_located st i d : registry_ok st -> devices st !! i = Some d -> exists u base, located st d u base.
Proof.
  intros Hr Hi. pose proof (do_placed _ _ (registered _ _ _ Hr Hi)) as Hp. unfold placed in Hp.
  destruct (ctx d) as [u|p start] eqn:Hc.
  - exists u, 0. apply at_driver; naive_solver.
  - destruct Hp as (? & Hp & disk & u & Hl & ? & ? & Hw & Hd & ? & ? & ?). exists u, start.
    apply (at_partition _ _ _ _ p (Z.to_nat p) disk); try done; try lia; try congruence.
    apply block_device_at_Some. split; [|done]. apply lookup_lt_Some in Hl. unfold device_count. lia.
Qed.

Lemma same_registry_ok st st' : same_registry st st' -> registry_ok st -> registry_ok st'.
Proof. intros (E1 & E2 & E3 & E4 & E5) []. constructor; unfold device_count in *; rewrite ?E1, ?E2, ?E3, ?E4, ?E5; done. Qed.

(** ** New entries *)

(** Nothing but the room for entries and the counter of questions has moved. *)
Definition same_entries st st' : Prop :=
  devices st' = devices st /\ disk_count st' = disk_count st /\ extended_minors st' = extended_minors st /\
  root_index st' = root_index st /\ stats st' = stats st /\ hw st' = hw st /\ device_capacity st <= device_capacity st'.

Lemma new_entry_ok st ok st' : registry_ok st -> new_entry mallocs st = (ok, st') ->
  same_entries st st' /\ (ok = true -> device_count st < device_capacity st') /\ ((forall n, mallocs n = true) -> ok = true).
Proof.
  intros Hr. pose proof (ro_room _ Hr). assert (0 <= device_count st) by (unfold device_count; lia).
  unfold new_entry, ask_memory, same_entries.
  destruct (Z.eqb_spec (device_count st) (device_capacity st)) as [E|]; [destruct (mallocs (asked st)) eqn:Hm|]; intros [= <- <-]; cbn.
  - repeat split; try done; destruct (Z.eqb_spec (device_capacity st) 0); lia.
  - repeat split; try done; try lia. intros Ha. by rewrite Ha in Hm.
  - repeat split; try done; lia.
Qed.

Lemma same_entries_ok st st' : same_entries st st' -> registry_ok st -> registry_ok st'.
Proof.
  intros (E1 & E2 & E3 & E4 & E5 & E6 & E7) []. constructor; unfold device_count in *; rewrite ?E1, ?E2, ?E3, ?E4; try done. lia.
Qed.

(** [publish] after [new_entry], whatever counters moved in between. *)
Lemma publish_ok st e disks extended :
  registry_ok st -> device_count st < device_capacity st -> device_ok (devices st) e -> 0 <= disks -> 0 <= extended < 2 ^ 32 ->
  registry_ok (publish e (BlockState (devices st) (device_capacity st) disks extended (root_index st) (stats st) (asked st) (hw st))).2.
Proof.
  intros [] Hc He Hd Hx. constructor; cbn; try done.
  - apply Forall_app. split; [|by apply Forall_singleton, device_ok_app]. eapply Forall_impl; [|done]. intros. by apply device_ok_app.
  - unfold device_count in *. cbn. rewrite length_app. cbn. lia.
Qed.

(** ** Registering keeps the invariant *)

(** What a driver passes to the two functions that register disks. *)
Definition driver_device d : Prop :=
  length (name d) = 16%nat /\ length (dev_name d) = 16%nat /\
  exists u, ctx d = DriverContext u /\ 0 <= sectors d <= capacity u.

Lemma wr_name (l : list Z) c : length l = 16%nat -> exists l', wr l 15 c = Ret l' /\ length l' = 16%nat.
Proof. intros Hl. rewrite wr_in by lia. eexists. split; [done|]. by rewrite length_insert. Qed.

(** The reply of a function that registers: an error and the old devices, or
    the index of the one new device. *)
Definition reply st (r : Z) st' (P : device -> Prop) : Prop :=
  registry_ok st' /\ hw st' = hw st /\
  ((r = -1 /\ devices st' = devices st) \/ (r = device_count st /\ exists e, devices st' = devices st ++ [e] /\ P e)).

Lemma reply_same st st' P : same_entries st st' -> registry_ok st -> reply st (-1) st' P.
Proof.
  intros S Hr. split; [by apply (same_entries_ok st)|]. destruct S as (E1 & _ & _ & _ & _ & E6 & _). split; [done|]. by left.
Qed.

Lemma reply_publish st st' e disks extended (P : device -> Prop) :
  same_entries st st' -> registry_ok st -> device_count st < device_capacity st' -> device_ok (devices st) e ->
  0 <= disks -> 0 <= extended < 2 ^ 32 -> P e ->
  let '(r, st'') := publish e (BlockState (devices st') (device_capacity st') disks extended (root_index st') (stats st') (asked st') (hw st')) in
  reply st r st'' P.
Proof.
  intros S Hr Hc He Hd Hx HP. pose proof (same_entries_ok _ _ S Hr) as Hr'. destruct S as (E1 & _ & _ & _ & _ & E6 & _).
  assert (Ec : device_count st' = device_count st) by (unfold device_count; by rewrite E1).
  pose proof (publish_ok st' e disks extended Hr') as Hp. rewrite Ec, E1 in Hp. unfold publish, reply, device_count in *. cbn in *.
  rewrite E1 in *. split; [by apply Hp|]. split; [done|]. right. split; [done|]. by exists e.
Qed.

Lemma state_eta st : BlockState (devices st) (device_capacity st) (disk_count st) (extended_minors st) (root_index st) (stats st) (asked st) (hw st) = st.
Proof. by destruct st. Qed.

Lemma block_register_ok st dev : registry_ok st -> (forall d, dev = Some d -> driver_device d) ->
  returns (block_register mallocs st dev) (fun '(r, st') => reply st r st' (fun e => parent e = -1)).
Proof.
  intros Hr Hdev. unfold block_register. destruct dev as [d|]; [|by apply reply_same].
  destruct (Hdev d eq_refl) as (Hn & Hdn & u & Hc & Hs).
  destruct (can_read d) eqn:Hread; cbn [negb orb]; [|by apply reply_same].
  destruct (Z.eqb_spec (sectors d) 0); [by apply reply_same|].
  destruct (new_entry mallocs st) as [entry st'] eqn:En. destruct (new_entry_ok _ _ _ Hr En) as (S & Hroom & _).
  destruct entry; cbn [negb]; [|by apply reply_same].
  destruct (wr_name (name d) 0 Hn) as (nm & -> & Hnm). rewrite bind_ret.
  pose proof (same_entries_ok _ _ S Hr) as Hr'.
  destruct (disk_name_ok (disk_count st') (dev_name d) (ro_disks _ Hr') Hdn) as (l & s & -> & Hl & Hh & Hls). rewrite bind_ret.
  apply reply_publish; try done; try (destruct Hr'; lia).
  constructor; cbn; try done; [|apply Z.mod_pos_bound; lia|].
  - exists s. split; [done|]. unfold name_limit. rewrite decide_True by done. lia.
  - unfold placed. cbn. by rewrite Hc.
Qed.

Lemma block_register_named_ok st dev nm major_ minor_ : registry_ok st -> (forall d, dev = Some d -> driver_device d) ->
  (forall s, nm = Some s -> Forall nonzero s /\ (length s <= 10)%nat) -> 0 <= major_ < 2 ^ 32 -> 0 <= minor_ < 2 ^ 32 ->
  returns (block_register_named mallocs st dev nm major_ minor_) (fun '(r, st') => reply st r st' (fun e => parent e = -1)).
Proof.
  intros Hr Hdev Hnm Hma Hmi. unfold block_register_named. destruct dev as [d|], nm as [s|]; try by apply reply_same.
  destruct (Hdev d eq_refl) as (Hn & Hdn & u & Hc & Hs). destruct (Hnm s eq_refl) as [Hz Hlen].
  destruct (can_read d) eqn:Hread; cbn [negb orb]; [|by apply reply_same].
  destruct (Z.leb_spec BLOCK_NAME_BYTES (Z.of_nat (length s))); [by apply reply_same|].
  destruct (new_entry mallocs st) as [entry st'] eqn:En. destruct (new_entry_ok _ _ _ Hr En) as (S & Hroom & _).
  destruct entry; cbn [negb]; [|by apply reply_same].
  destruct (wr_name (name d) 0 Hn) as (nm' & -> & Hnm'). rewrite bind_ret.
  assert (Hpad : length (s ++ replicate (15 - length s) 0) = 15%nat) by (rewrite length_app, length_replicate; lia).
  rewrite copy_in_in, bind_ret by lia. set (l := splice (dev_name d) 0 (s ++ replicate (15 - length s) 0)).
  assert (Hl : length l = 16%nat) by (unfold l; rewrite length_splice; lia).
  rewrite wr_in, bind_ret by lia. pose proof (same_entries_ok _ _ S Hr) as Hr'.
  rewrite <- (state_eta st'). apply reply_publish; try done; try (destruct Hr'; lia).
  constructor; cbn; try done; [by rewrite length_insert| |unfold placed; cbn; by rewrite Hc].
  exists s. split; [|unfold name_limit; rewrite decide_True by done; lia]. split; [done|].
  unfold l, splice. change (Z.to_nat 0) with 0%nat. rewrite take_0, <- app_assoc. cbn [app].
  replace (15 - length s)%nat with (Datatypes.S (14 - length s)) by lia. cbn [replicate app].
  change (Z.to_nat 15) with 15%nat. rewrite insert_app_r_alt by lia. destruct (15 - length s)%nat eqn:E; [lia|]. by eexists.
Qed.

(** ** Partitions *)

Definition fits disk (number start n : Z) : Prop :=
  1 <= number <= 99999 /\ 0 < n /\ start < sectors disk /\ n <= sectors disk - start.

#[global] Instance fits_dec disk number start n : Decision (fits disk number start n).
Proof. unfold fits. apply _. Defined.

(** The entry of partition [number] of the disk at [p]: its extent, and the
    name of the disk followed by the number in decimal. *)
Definition part_of (p : Z) disk (number start n : Z) (e : device) : Prop :=
  parent e = p /\ ctx e = PartitionContext p start /\ sectors e = n /\
  exists s digits, holds (dev_name disk) s /\ holds (dev_name e) (s ++ rev digits) /\ decimal_value digits = number.

Lemma partition_name disk devs number : device_ok devs disk -> parent disk = -1 -> 1 <= number <= 99999 ->
  exists len digits l s, strlen (dev_name disk) = Ret len /\ decimal 8 number = Ret digits /\
    copy_in (dev_name disk) len (rev digits ++ [0]) = Ret l /\ length l = 16%nat /\
    holds (dev_name disk) s /\ holds l (s ++ rev digits) /\ (length (s ++ rev digits) <= 15)%nat /\ decimal_value digits = number.
Proof.
  intros Hok Hp Hn. destruct (do_string _ _ Hok) as (s & Hs & Hlen). unfold name_limit in Hlen. rewrite decide_True in Hlen by done.
  destruct (decimal_ok 8 number 5) as (digits & Ed & Hld & Hz & Hv); [cbn; lia|lia|].
  destruct (holds_strlen _ _ Hs) as [El _]. pose proof (do_dev_name _ _ Hok) as H16.
  destruct (holds_append (dev_name disk) s (rev digits)) as (l & Ec & Hl & Hll); [done|by apply Forall_rev|rewrite length_rev; lia|].
  exists (Z.of_nat (length s)), digits, l, s. rewrite length_app, length_rev. repeat split; try done; try apply Hl; try apply Hs; lia.
Qed.

(** What [block_register_partition] replies: a partition that fits, and one
    whenever memory lasts. *)
Definition partition_reply st (p number start n r : Z) st' : Prop :=
  reply st r st' (fun e => exists disk, devices st !! Z.to_nat p = Some disk /\ parent disk = -1 /\
    fits disk number start n /\ part_of p disk number start n e) /\
  ((forall k, mallocs k = true) -> 0 <= p -> forall disk, devices st !! Z.to_nat p = Some disk -> parent disk = -1 ->
    fits disk number start n -> r = device_count st).

Lemma refuse_partition st st' p number start n disk :
  registry_ok st -> same_entries st st' -> devices st !! Z.to_nat p = Some disk ->
  ~ (fits disk number start n /\ parent disk = -1 /\ forall k, mallocs k = true) -> partition_reply st p number start n (-1) st'.
Proof.
  intros Hr S Hd Hno. split; [by apply reply_same|]. intros Ha _ disk' Hd' Hp' Hf. exfalso. apply Hno.
  rewrite Hd in Hd'. by injection Hd' as <-.
Qed.

Lemma enter_partition st st' p number start n disk l s digits ma mi ex :
  registry_ok st -> same_entries st st' -> device_count st < device_capacity st' -> 0 <= start -> 0 <= p ->
  devices st !! Z.to_nat p = Some disk -> parent disk = -1 -> fits disk number start n ->
  length l = 16%nat -> holds (dev_name disk) s -> holds l (s ++ rev digits) -> (length (s ++ rev digits) <= 15)%nat ->
  decimal_value digits = number -> 0 <= ma < 2 ^ 32 -> 0 <= mi < 2 ^ 32 -> 0 <= ex < 2 ^ 32 ->
  let e := Device (name disk) l p n ma mi true (can_write disk) true (can_discard disk) (PartitionContext p start) in
  let '(r, st'') := publish e (BlockState (devices st') (device_capacity st') (disk_count st') ex (root_index st') (stats st') (asked st') (hw st')) in
  partition_reply st p number start n r st''.
Proof.
  intros Hr S Hroom Hst Hp Hd Hpar Hf Hl Hs Hh Hls Hv Hma Hmi Hex e. pose proof (registered _ _ _ Hr Hd) as Hok.
  split; [|intros; unfold publish, device_count; cbn; by destruct S as [-> _]].
  apply (reply_publish st st' e); try done; [|destruct S as (_ & -> & _); by destruct Hr|].
  - constructor; cbn; try done; [by destruct Hok| |].
    + exists (s ++ rev digits). split; [done|]. unfold name_limit. rewrite decide_False by lia. done.
    + unfold placed. cbn. split; [done|]. split; [done|]. pose proof (do_placed _ _ Hok) as Hpl. unfold placed in Hpl.
      destruct (ctx disk) as [u|p' st0] eqn:Hc; [|lia]. exists disk, u. unfold fits in Hf. repeat split; try done; lia.
  - exists disk. do 3 (split; [done|]). unfold part_of. cbn. do 3 (split; [done|]). by exists s, digits.
Qed.

Lemma register_partition_ok st p number start n : registry_ok st -> 0 <= start -> 0 <= n ->
  returns (block_register_partition mallocs st p number start n) (fun '(r, st') => partition_reply st p number start n r st').
Proof.
  intros Hr Hst Hn. unfold block_register_partition.
  assert (Same : same_entries st st) by (unfold same_entries; naive_solver lia).
  destruct (block_device_at st p) as [i|] eqn:Ep.
  2: { split; [by apply reply_same|]. intros _ Hp disk Hd. exfalso. apply lookup_lt_Some in Hd.
       enough (block_device_at st p = Some (Z.to_nat p)) by congruence. apply block_device_at_Some. unfold device_count. lia. }
  destruct (device_at _ _ _ Ep) as (disk & Hd & ->). rewrite bind_ret. apply block_device_at_Some in Ep as [Hp ->].
  pose proof (fun st' S => refuse_partition st st' p number start n disk Hr S Hd) as Refuse. unfold fits in Refuse at 1.
  destruct (Z.eqb_spec (parent disk) (-1)) as [Hpar|]; cbn [negb orb]; [|by apply Refuse; [|naive_solver]].
  destruct (Z.ltb_spec number 1); cbn [orb]; [apply Refuse; [done|lia]|].
  destruct (Z.ltb_spec 99999 number); [apply Refuse; [done|lia]|].
  destruct (Z.eqb_spec n 0); cbn [orb]; [apply Refuse; [done|lia]|].
  destruct (Z.leb_spec (sectors disk) start); cbn [orb]; [apply Refuse; [done|lia]|].
  destruct (Z.ltb_spec (sectors disk - start) n); [apply Refuse; [done|lia]|].
  unfold ask_memory. destruct (mallocs (asked st)) eqn:Hm; cbn [negb]; [|apply Refuse; [done|intros (_ & _ & Ha); by rewrite Ha in Hm]].
  set (st1 := set_asked (S (asked st)) st). assert (Hr1 : registry_ok st1) by (by apply (same_registry_ok st)).
  destruct (new_entry mallocs st1) as [entry st'] eqn:En. destruct (new_entry_ok _ _ _ Hr1 En) as (S & Hroom & Hall).
  change (same_entries st st') in S. change (device_count st1) with (device_count st) in Hroom.
  destruct entry; cbn [negb]; [|apply Refuse; [done|intros (_ & _ & Ha); by specialize (Hall Ha)]].
  pose proof (registered _ _ _ Hr Hd) as Hok. pose proof (ro_extended _ (same_entries_ok _ _ S Hr)) as Hex.
  destruct (partition_name disk _ number Hok Hpar ltac:(lia)) as (len & digits & l & s & E1 & E2 & E3 & Hl & Hs & Hh & Hls & Hv).
  destruct (number <? BLOCK_SD_MINORS); rewrite E1, bind_ret, E2, bind_ret, E3, bind_ret;
    apply (enter_partition st st' p number start n disk l s digits); try done; try apply Hroom; try lia;
    try (by apply Z.mod_pos_bound); try (by destruct Hok); unfold fits; lia.
Qed.

(** ** The other functions that store *)

Lemma set_sectors_ok st index n : registry_ok st ->
  (forall d, 0 <= index -> devices st !! Z.to_nat index = Some d -> exists u, ctx d = DriverContext u /\ 0 <= n <= capacity u) ->
  registry_ok (block_set_sectors st index n).
Proof.
  intros Hr Hn. unfold block_set_sectors.
  destruct (Z.leb_spec 0 index); cbn [andb]; [|done]. destruct (Z.ltb_spec index (device_count st)); [|done].
  constructor; unfold device_count in *; cbn; rewrite ?length_alter; try apply Hr.
  set (g := fun d => Device (name d) (dev_name d) (parent d) n (major d) (minor d) (can_read d) (can_write d) (can_flush d) (can_discard d) (ctx d)).
  assert (L : forall i d, alter g (Z.to_nat index) (devices st) !! i = Some d -> exists d0, devices st !! i = Some d0 /\
    (d = d0 \/ i = Z.to_nat index /\ d = g d0)).
  { intros i d Hi. destruct (decide (i = Z.to_nat index)) as [->|].
    - rewrite list_lookup_alter_eq in Hi. destruct (devices st !! _) as [d0|]; [|done]. injection Hi as <-. exists d0. auto.
    - rewrite list_lookup_alter_ne in Hi by done. exists d. auto. }
  apply Forall_lookup_2. intros i d Hi. destruct (L i d Hi) as (d0 & Hd0 & Hd).
  destruct (registered _ _ _ Hr Hd0) as [K1 K2 K3 K4 K5 K6 Hpl].
  assert (P0 : placed (alter g (Z.to_nat index) (devices st)) d0).
  { unfold placed in *. destruct (ctx d0) as [|p start]; [done|]. destruct Hpl as (? & ? & disk & u & Hdk & ? & Hc & ?).
    split; [done|]. split; [done|]. destruct (decide (Z.to_nat p = Z.to_nat index)) as [E|].
    - exists (g disk), u. rewrite E, list_lookup_alter_eq, <- E, Hdk. done.
    - exists disk, u. rewrite list_lookup_alter_ne by done. done. }
  destruct Hd as [->|[-> ->]]; constructor; try done.
  destruct (Hn d0 ltac:(done) Hd0) as (u & Hc & Hb). unfold placed in *. cbn. rewrite Hc in *. split; [apply Hpl|done].
Qed.

Lemma select_root_ok st index : registry_ok st -> registry_ok (block_select_root st index).
Proof. intros []. constructor; try done. cbn. destruct (Z.leb_spec 0 index), (index <? device_count st); cbn; lia. Qed.
End registry.
