(* ===== verification/Partition.v ===== *)
(** * Partition tables (kernel/fs/partition.c)

    The scan of a disk for a GPT and, failing that, for an MBR, on top of the
    block layer of Block.v: the reads go to the disk's driver and the
    partitions found are registered. *)

From S2P Require Import Prelude Block.

Definition MBR_SIGNATURE_OFFSET : Z := 0x1FE.
Definition MBR_TABLE_OFFSET : Z := 0x1BE.
Definition MBR_ENTRY_BYTES : Z := 16.
Definition MBR_ENTRIES : Z := 4.
Definition MBR_TYPE_PROTECTIVE : Z := 0xEE.
Definition MBR_TYPE_EXTENDED_CHS : Z := 0x05.
Definition MBR_TYPE_EXTENDED_LBA : Z := 0x0F.

Definition GPT_HEADER_LBA : Z := 1.
(** "EFI PART" *)
Definition GPT_SIGNATURE : list Z := [69; 70; 73; 32; 80; 65; 82; 84].

(** ** Fields of a sector *)

Definition read_le32 (l : list Z) (at_ : Z) : res Z :=
  b0 ← rd l at_;
  b1 ← rd l (at_ + 1);
  b2 ← rd l (at_ + 2);
  b3 ← rd l (at_ + 3);
  Ret (Z.lor (Z.lor (Z.lor b0 (Z.shiftl b1 8)) (Z.shiftl b2 16)) (Z.shiftl b3 24)).

Definition read_le64 (l : list Z) (at_ : Z) : res Z :=
  low ← read_le32 l at_;
  high ← read_le32 l (at_ + 4);
  Ret (Z.lor low (Z.shiftl high 32)).

Fixpoint signature_matches (l : list Z) (at_ : Z) (signature : list Z) : res bool :=
  match signature with
  | [] => Ret true
  | c :: rest => b ← rd l at_; if b =? c then signature_matches l (at_ + 1) rest else Ret false
  end.

(** The loop over the [n] bytes left of the GUID. *)
Fixpoint guid_is_zero (n : nat) (l : list Z) (at_ : Z) : res bool :=
  match n with
  | O => Ret true
  | S n => b ← rd l at_; if b =? 0 then guid_is_zero n l (at_ + 1) else Ret false
  end.

Definition entry_is_empty (l : list Z) (guid : Z) : res bool := guid_is_zero 16 l guid.

Section scan.
Context {D : Type} `{DriverOps D} (mallocs : nat -> bool).
Implicit Type st : block_state D.

(** The loop of [scan_gpt] over the [n] entries from [index] on; [sector]
    is what was read last. *)
Fixpoint gpt_loop (n : nat) (index : Z) (st : block_state D) (disk : Z) (d : device)
    (table_lba entry_bytes per_sector : Z) (sector : list Z) (registered : Z) : res (Z * block_state D) :=
  match n with
  | O => Ret (registered, st)
  | S n =>
      '(go, sector, st) ←
        (if index `mod` per_sector =? 0 then
           let lba := u64 (table_lba + index / per_sector) in
           if sectors d <=? lba then Ret (false, sector, st)
           else
             '(status, data, st) ← call_read DEPTH st d lba 1;
             if status =? 0 then Ret (true, data, st) else Ret (false, sector, st)
         else Ret (true, sector, st));
      if negb go then Ret (registered, st)
      else
        let entry := (index `mod` per_sector) * entry_bytes in
        let number := index + 1 in
        empty ← entry_is_empty sector entry;
        if (empty : bool) then gpt_loop n (index + 1) st disk d table_lba entry_bytes per_sector sector registered
        else
          first ← read_le64 sector (entry + 32);
          last ← read_le64 sector (entry + 40);
          if last <? first then gpt_loop n (index + 1) st disk d table_lba entry_bytes per_sector sector registered
          else
            '(r, st) ← block_register_partition mallocs st disk number first (u64 (last - first + 1));
            gpt_loop n (index + 1) st disk d table_lba entry_bytes per_sector sector
              (if 0 <=? r then registered + 1 else registered)
  end.

Definition scan_gpt (st : block_state D) (disk : Z) (d : device) : res (Z * block_state D) :=
  if sectors d <=? GPT_HEADER_LBA then Ret (-1, st)
  else
    '(status, header, st) ← call_read DEPTH st d GPT_HEADER_LBA 1;
    if negb (status =? 0) then Ret (-1, st)
    else
      ok ← signature_matches header 0 GPT_SIGNATURE;
      if negb ok then Ret (-1, st)
      else
        table_lba ← read_le64 header 72;
        entries ← read_le32 header 80;
        entry_bytes ← read_le32 header 84;
        if (entry_bytes =? 0) || (BLOCK_SECTOR_SIZE <? entry_bytes) || negb (BLOCK_SECTOR_SIZE `mod` entry_bytes =? 0)
        then Ret (-1, st)
        else
          let entries := if 65536 <? entries then 65536 else entries in
          gpt_loop (Z.to_nat entries) 0 st disk d table_lba entry_bytes (BLOCK_SECTOR_SIZE / entry_bytes) [] 0.

(** One entry of the MBR. *)
Definition mbr_entry (sector : list Z) (disk index : Z) (st : block_state D) : res (block_state D) :=
  let entry := MBR_TABLE_OFFSET + index * MBR_ENTRY_BYTES in
  type ← rd sector (entry + 4);
  if (type =? 0) || (type =? MBR_TYPE_PROTECTIVE) then Ret st
  else if (type =? MBR_TYPE_EXTENDED_CHS) || (type =? MBR_TYPE_EXTENDED_LBA) then Ret st
  else
    start ← read_le32 sector (entry + 8);
    n ← read_le32 sector (entry + 12);
    if n =? 0 then Ret st
    else
      '(_, st) ← block_register_partition mallocs st disk (index + 1) start n;
      Ret st.

Definition scan_mbr (st : block_state D) (disk : Z) (d : device) : res (block_state D) :=
  '(status, sector, st) ← call_read DEPTH st d 0 1;
  if negb (status =? 0) then Ret st
  else
    a ← rd sector MBR_SIGNATURE_OFFSET;
    b ← rd sector (MBR_SIGNATURE_OFFSET + 1);
    if negb (a =? 0x55) || negb (b =? 0xAA) then Ret st
    else for_range 0 MBR_ENTRIES 1 (mbr_entry sector disk) st.

Definition partition_scan_disk (st : block_state D) (index : Z) : res (block_state D) :=
  match block_device_at st index with
  | None => Ret st
  | Some dev =>
      d ← deref st dev;
      if negb (parent d =? -1) then Ret st
      else
        '(found, st) ← scan_gpt st index d;
        if 0 <=? found then Ret st else scan_mbr st index d
  end.

Definition partition_scan (st : block_state D) : res (block_state D) :=
  for_range 0 (block_device_count st) 1 (fun index st => partition_scan_disk st index) st.

End scan.
