(* ===== verification/PartitionSpec.v ===== *)
(** * What a partition scan finds

    The tables of a disk as functions of its bytes ([gpt_table], [mbr_table])
    and the proof that the scan of Partition.v registers the partitions they
    list: never another one, and all of them when memory and the disk answer. *)

From S2P Require Import Prelude Block BlockIo BlockReg Partition.

(** ** The tables on the disk

    [f] is the content of the disk, byte by byte; a partition is its number,
    first sector and length. *)

Definition field (f : Z -> Z) (at_ n : Z) : Z := le_join (bytes_at f at_ n).

Definition partition : Type := Z * Z * Z.

Definition gpt_slot (f : Z -> Z) (table_lba entry_bytes i : Z) : list partition :=
  let per_sector := BLOCK_SECTOR_SIZE / entry_bytes in
  let e := BLOCK_SECTOR_SIZE * u64 (table_lba + i / per_sector) + (i `mod` per_sector) * entry_bytes in
  if decide (bytes_at f e 16 = replicate 16 0) then []
  else
    let first := field f (e + 32) 8 in
    let last := field f (e + 40) 8 in
    if last <? first then [] else [(i + 1, first, u64 (last - first + 1))].

(** The [n] entries from [i] on, as far as the disk goes. *)
Fixpoint gpt_table (f : Z -> Z) (d : device) (table_lba entry_bytes : Z) (n : nat) (i : Z) : list partition :=
  match n with
  | O => []
  | S n =>
      if sectors d <=? u64 (table_lba + i / (BLOCK_SECTOR_SIZE / entry_bytes)) then []
      else gpt_slot f table_lba entry_bytes i ++ gpt_table f d table_lba entry_bytes n (i + 1)
  end.

(** The place, the length and the entry size of the GPT, if there is one. *)
Definition gpt_header (f : Z -> Z) (d : device) : option (Z * nat * Z) :=
  let table_lba := field f (BLOCK_SECTOR_SIZE + 72) 8 in
  let entries := field f (BLOCK_SECTOR_SIZE + 80) 4 in
  let entry_bytes := field f (BLOCK_SECTOR_SIZE + 84) 4 in
  if decide (1 < sectors d /\ bytes_at f BLOCK_SECTOR_SIZE 8 = GPT_SIGNATURE /\
             0 < entry_bytes <= BLOCK_SECTOR_SIZE /\ BLOCK_SECTOR_SIZE `mod` entry_bytes = 0)
  then Some (table_lba, Z.to_nat (Z.min entries 65536), entry_bytes) else None.

Definition mbr_slot (f : Z -> Z) (i : Z) : list partition :=
  let e := MBR_TABLE_OFFSET + i * MBR_ENTRY_BYTES in
  let type := f (e + 4) in
  if decide (type ∈ [0; MBR_TYPE_PROTECTIVE; MBR_TYPE_EXTENDED_CHS; MBR_TYPE_EXTENDED_LBA]) then []
  else if field f (e + 12) 4 =? 0 then [] else [(i + 1, field f (e + 8) 4, field f (e + 12) 4)].

Definition mbr_table (f : Z -> Z) : list partition :=
  if decide (f MBR_SIGNATURE_OFFSET = 0x55 /\ f (MBR_SIGNATURE_OFFSET + 1) = 0xAA) then flat_map (mbr_slot f) [0; 1; 2; 3] else [].

(** What a scan that is answered finds. *)
Definition disk_table (f : Z -> Z) (d : device) : list partition :=
  match gpt_header f d with
  | Some (table_lba, n, entry_bytes) => gpt_table f d table_lba entry_bytes n 0
  | None => mbr_table f
  end.

(** ** Reading fields *)

Section fields.
Context (f : Z -> Z) (Hf : forall k, 0 <= f k < 256).

Lemma rd_bytes_at a n i : 0 <= i < n -> rd (bytes_at f a n) i = Ret (f (a + i)).
Proof. intros Hi. apply rd_lookup; [lia|]. rewrite lookup_bytes_at by lia. do 2 f_equal. lia. Qed.

Lemma bytes_at_cons a n : 0 < n -> bytes_at f a n = f a :: bytes_at f (a + 1) (n - 1).
Proof.
  intros Hn. replace n with (1 + (n - 1)) at 1 by lia. rewrite <- bytes_at_app by lia. unfold bytes_at at 1. change (seqZ 0 1) with [0]. cbn [map app]. by rewrite Z.add_0_r.
Qed.

Lemma field_bound a n : 0 <= n -> 0 <= field f a n < 2 ^ (8 * n).
Proof using Hf.
  intros Hn. unfold field. pose proof (le_join_bound (bytes_at f a n)) as B. rewrite length_bytes_at, Z2Nat.id in B by done. apply B.
  unfold bytes_at. apply Forall_forall. intros x (i & <- & _)%in_map_iff. apply Hf.
Qed.

Lemma read_le32_at a n i : 0 <= i -> i + 4 <= n -> read_le32 (bytes_at f a n) i = Ret (field f (a + i) 4).
Proof using Hf.
  intros Hi Hn. unfold read_le32. rewrite !rd_bytes_at, !bind_ret by lia. f_equal. rewrite !Z.add_assoc.
  generalize (a + i). intros p. pose proof (Hf p). pose proof (Hf (p + 1)). pose proof (Hf (p + 2)). pose proof (Hf (p + 3)).
  rewrite (lor_shifted_add (f p)), (lor_shifted_add _ (f (p + 2))), (lor_shifted_add _ (f (p + 3))) by (cbn; lia).
  unfold field. rewrite !(bytes_at_cons p), (bytes_at_cons (p + 1)), (bytes_at_cons (p + 1 + 1)), (bytes_at_cons (p + 1 + 1 + 1)) by lia.
  cbn [le_join]. replace (p + 1 + 1) with (p + 2) by lia. replace (p + 2 + 1) with (p + 3) by lia.
  change (bytes_at f (p + 3 + 1) (4 - 1 - 1 - 1 - 1)) with (@nil Z). cbn [le_join]. ring.
Qed.

Lemma le_join_app l m : le_join (l ++ m) = le_join l + 2 ^ (8 * Z.of_nat (length l)) * le_join m.
Proof.
  induction l as [|b l IH]; cbn [app le_join length]; [change (2 ^ (8 * Z.of_nat 0)) with 1; ring|]. rewrite IH.
  replace (8 * Z.of_nat (S (length l))) with (8 + 8 * Z.of_nat (length l)) by lia. rewrite Z.pow_add_r by lia. change (2 ^ 8) with 256. ring.
Qed.

Lemma read_le64_at a n i : 0 <= i -> i + 8 <= n -> read_le64 (bytes_at f a n) i = Ret (field f (a + i) 8).
Proof using Hf.
  intros Hi Hn. unfold read_le64. rewrite !read_le32_at, !bind_ret by lia. f_equal.
  pose proof (field_bound (a + i) 4). pose proof (field_bound (a + (i + 4)) 4). rewrite lor_shifted_add by lia.
  unfold field. replace 8 with (4 + 4) by lia. rewrite <- bytes_at_app, le_join_app, length_bytes_at by lia.
  rewrite Z.add_assoc. done.
Qed.

Lemma signature_matches_at a n i signature : 0 <= i -> i + Z.of_nat (length signature) <= n ->
  signature_matches (bytes_at f a n) i signature = Ret (bool_decide (bytes_at f (a + i) (Z.of_nat (length signature)) = signature)).
Proof.
  revert i. induction signature as [|c rest IH]; intros i Hi Hn; [done|]. cbn [signature_matches]. cbn [length] in *.
  rewrite rd_bytes_at, bind_ret, (bytes_at_cons (a + i)) by lia. replace (Z.of_nat (S (length rest)) - 1) with (Z.of_nat (length rest)) by lia.
  destruct (Z.eqb_spec (f (a + i)) c) as [->|Hne].
  - rewrite IH, Z.add_assoc by lia. f_equal. apply bool_decide_ext. split; [by intros ->|by intros [= ->]].
  - rewrite bool_decide_eq_false_2; [done|]. by intros [= ?].
Qed.

Lemma guid_is_zero_at k a n i : 0 <= i -> i + Z.of_nat k <= n ->
  guid_is_zero k (bytes_at f a n) i = Ret (bool_decide (bytes_at f (a + i) (Z.of_nat k) = replicate k 0)).
Proof.
  revert i. induction k as [|k IH]; intros i Hi Hn; [done|]. cbn [guid_is_zero replicate].
  rewrite rd_bytes_at, bind_ret, (bytes_at_cons (a + i)) by lia. replace (Z.of_nat (S k) - 1) with (Z.of_nat k) by lia.
  destruct (Z.eqb_spec (f (a + i)) 0) as [E|Hne].
  - rewrite IH, E, Z.add_assoc by lia. f_equal. apply bool_decide_ext. split; [by intros ->|by intros [= ->]].
  - rewrite bool_decide_eq_false_2; [done|]. by intros [= ?].
Qed.
End fields.

(** ** The scan *)

Section scan_spec.
Context {D : Type} `{Driver D} (mallocs : nat -> bool).
Implicit Type st : block_state D.

(** Memory lasts and no read inside a unit fails. *)
Definition answered : Prop :=
  (forall k, mallocs k = true) /\
  (forall (h : D) u lba count status data h',
     0 <= lba -> 0 < count -> lba + count <= capacity u -> drv_read h u lba count = (status, data, h') -> status = 0).

Context (p : Z) (disk : device) (u : nat) (f : Z -> Z).

Definition fits_part (x : partition) : Prop := let '(number, start, n) := x in fits disk number start n.
Definition is_part (x : partition) (e : device) : Prop := let '(number, start, n) := x in part_of p disk number start n e.

#[global] Instance fits_part_dec x : Decision (fits_part x).
Proof. destruct x as [[]]. cbn. apply _. Defined.

(** A state in which the scan of the disk is running. *)
Record scanning st : Prop := {
  sc_ok : registry_ok st;
  sc_disk : 0 <= p /\ devices st !! Z.to_nat p = Some disk;
  sc_parent : parent disk = -1;
  sc_ctx : ctx disk = DriverContext u;
  sc_content : forall k, medium (hw st) u k = f k }.

(** The registry has grown by partitions of the list [l], in its order. *)
Definition extends st st' (l : list partition) : Prop :=
  registry_ok st' /\ (forall v k, medium (hw st') v k = medium (hw st) v k) /\
  exists l' es, devices st' = devices st ++ es /\ Forall2 is_part l' es /\
    l' `sublist_of` filter fits_part l /\ (answered -> l' = filter fits_part l).

Lemma extends_nil st st' l : registry_ok st' -> devices st' = devices st -> (forall v k, medium (hw st') v k = medium (hw st) v k) ->
  (answered -> l = []) -> extends st st' l.
Proof.
  intros Hr Hd Hm Hl. split; [done|]. split; [done|]. exists [], []. rewrite app_nil_r. split; [done|]. split; [constructor|].
  split; [apply sublist_nil_l|]. intros Ha. by rewrite (Hl Ha).
Qed.

Lemma extends_app st st1 st2 l1 l2 : extends st st1 l1 -> extends st1 st2 l2 -> extends st st2 (l1 ++ l2).
Proof.
  intros (_ & M1 & a & ea & D1 & F1 & S1 & C1) (R2 & M2 & b & eb & D2 & F2 & S2 & C2). split; [done|]. split; [intros; by rewrite M2|].
  exists (a ++ b), (ea ++ eb). rewrite D2, D1, app_assoc, list.filter_app. split; [done|]. split; [by apply Forall2_app|].
  split; [by apply sublist_app|]. intros Ha. by rewrite C1, C2.
Qed.

Lemma extends_scanning st st' l : scanning st -> extends st st' l -> scanning st'.
Proof.
  intros [? [Hp Hd] ? ? Hc] (R & M & l' & es & E & _). constructor; try done.
  - split; [done|]. rewrite E. by apply lookup_app_l_Some.
  - intros k. by rewrite M.
Qed.

Lemma extends_registry st st' l : scanning st -> same_registry st st' -> (forall v k, medium (hw st') v k = medium (hw st) v k) ->
  (answered -> l = []) -> extends st st' l.
Proof. intros Hs S M Hl. apply extends_nil; try done; [apply (same_registry_ok st); [done|apply Hs]|by destruct S]. Qed.

(** Registering one partition that was found. *)
Lemma register_found st number start n : scanning st -> 0 <= start -> 0 <= n ->
  returns (block_register_partition mallocs st p number start n) (fun '(r, st') => extends st st' [(number, start, n)] /\ -1 <= r).
Proof.
  intros Hs Hst Hn. eapply returns_mono; [by apply register_partition_ok; [apply Hs| |]|]. intros [r st'] [(R & Eh & Hrep) All].
  destruct (sc_disk _ Hs) as [Hp Hd].
  destruct Hrep as [[-> Ed]|[-> (e & Ed & disk' & Hd' & Hpar & Hfit & Hpart)]]; (split; [|unfold device_count in *; lia]).
  - split; [done|]. split; [intros; by rewrite Eh|]. exists [], []. rewrite app_nil_r. split; [done|]. split; [constructor|].
    split; [apply sublist_nil_l|]. intros [Ha _]. rewrite filter_cons_False; [done|]. cbn. intros Hfit.
    specialize (All Ha Hp disk Hd (sc_parent _ Hs) Hfit). unfold device_count in All. lia.
  - rewrite Hd in Hd'. injection Hd' as <-. split; [done|]. split; [intros; by rewrite Eh|].
    exists [(number, start, n)], [e]. rewrite filter_cons_True by done. split; [done|]. split; [by apply Forall2_cons|]. done.
Qed.

(** Reading one sector of the disk. *)
Lemma read_sector st lba : scanning st -> 0 <= lba -> lba = 0 \/ lba < sectors disk ->
  returns (call_read DEPTH st disk lba 1) (fun '(status, data, st') =>
    same_registry st st' /\ (forall v k, medium (hw st') v k = medium (hw st) v k) /\
    (status = 0 -> data = bytes_at f (BLOCK_SECTOR_SIZE * lba) BLOCK_SECTOR_SIZE) /\ (answered -> status = 0)).
Proof.
  intros Hs Hl Hlt. destruct (sc_disk _ Hs) as [Hp Hd]. pose proof (capacity_bound u). pose proof (do_placed _ _ (registered _ _ _ (sc_ok _ Hs) Hd)) as Hpl.
  unfold placed in Hpl. unfold DEPTH. cbn [call_read]. rewrite (sc_ctx _ Hs) in *.
  destruct (drv_read (hw st) u lba 1) as [[status data] h] eqn:E. cbn.
  assert (R : lba + 1 <= capacity u) by lia. split; [done|].
  split; [intros v k; apply (drv_read_keeps (hw st) u lba 1 status data h); done || lia|]. split.
  - intros ->. rewrite (drv_read_data (hw st) u lba 1 data h) by (done || lia). rewrite Z.mul_1_r. apply bytes_at_ext, Hs.
  - intros [_ Ha]. apply (Ha (hw st) u lba 1 status data h); done || lia.
Qed.

(** *** The GPT *)

Context (Hbyte : forall k, 0 <= f k < 256).

Section gpt.
Context (table_lba entry_bytes : Z).
Context (Heb : 48 <= entry_bytes <= BLOCK_SECTOR_SIZE) (Hdiv : BLOCK_SECTOR_SIZE `mod` entry_bytes = 0).

Local Notation per_sector := (BLOCK_SECTOR_SIZE / entry_bytes).
Local Notation lba_of i := (u64 (table_lba + i / per_sector)).

Lemma per_sector_ok : per_sector * entry_bytes = BLOCK_SECTOR_SIZE /\ 0 < per_sector.
Proof using Heb Hdiv.
  unfold BLOCK_SECTOR_SIZE in *. pose proof (Z.div_mod 512 entry_bytes ltac:(lia)). split; [lia|]. apply Z.div_str_pos. lia.
Qed.

Lemma entry_in_sector i : 0 <= (i `mod` per_sector) * entry_bytes /\ (i `mod` per_sector) * entry_bytes + 48 <= BLOCK_SECTOR_SIZE.
Proof using Heb Hdiv.
  destruct per_sector_ok as [E Hp]. pose proof (Z.mod_pos_bound i _ Hp). generalize dependent (BLOCK_SECTOR_SIZE / entry_bytes). intros per. nia.
Qed.

Lemma same_sector i : 0 <= i -> (i + 1) `mod` per_sector <> 0 -> (i + 1) / per_sector = i / per_sector.
Proof using Heb Hdiv.
  destruct per_sector_ok as [_ Hp]. generalize dependent (BLOCK_SECTOR_SIZE / entry_bytes). intros per Hp Hi Hm.
  pose proof (Z.div_mod (i + 1) per ltac:(lia)). pose proof (Z.mod_pos_bound (i + 1) per Hp).
  apply (Z.div_unique _ _ _ ((i + 1) `mod` per - 1)); lia.
Qed.

(** The part of a turn after the sector is there. *)
Lemma gpt_turn st i registered (k : Z -> block_state D -> res (Z * block_state D)) Q :
  scanning st -> 0 <= i ->
  (forall st' r, extends st st' (gpt_slot f table_lba entry_bytes i) -> registered <= r -> returns (k r st') Q) ->
  let sector := bytes_at f (BLOCK_SECTOR_SIZE * lba_of i) BLOCK_SECTOR_SIZE in
  let entry := (i `mod` per_sector) * entry_bytes in
  returns (empty ← entry_is_empty sector entry;
           if (empty : bool) then k registered st
           else first ← read_le64 sector (entry + 32);
                last ← read_le64 sector (entry + 40);
                if last <? first then k registered st
                else '(r, st) ← block_register_partition mallocs st p (i + 1) first (u64 (last - first + 1));
                     k (if 0 <=? r then registered + 1 else registered) st) Q.
Proof using Hbyte Heb Hdiv.
  intros Hs Hi Hk sector entry. destruct (entry_in_sector i) as [He1 He2]. fold entry in He1, He2.
  unfold entry_is_empty, sector. rewrite guid_is_zero_at, bind_ret by (done || lia). change (Z.of_nat 16) with 16.
  unfold gpt_slot in Hk. fold entry in Hk.
  assert (None_ : extends st st []) by (apply extends_nil; [apply Hs|done|done|done]).
  destruct (decide (bytes_at f (BLOCK_SECTOR_SIZE * lba_of i + entry) 16 = replicate 16 0)) as [E|E].
  { rewrite bool_decide_eq_true_2 by done. apply Hk; [done|lia]. }
  rewrite bool_decide_eq_false_2, !read_le64_at, !bind_ret, !Z.add_assoc by (done || lia).
  set (first := field f (BLOCK_SECTOR_SIZE * lba_of i + entry + 32) 8) in *.
  set (last := field f (BLOCK_SECTOR_SIZE * lba_of i + entry + 40) 8) in *.
  destruct (Z.ltb_spec last first); [apply Hk; [done|lia]|].
  eapply returns_bind; [apply register_found; [done| |apply Z.mod_pos_bound; lia]|].
  { apply (field_bound f Hbyte). lia. }
  intros [r st'] [Hx _]. apply Hk; [done|]. case_cmp; lia.
Qed.

Lemma gpt_loop_ok n i st sector registered : scanning st -> 0 <= i ->
  (i `mod` per_sector <> 0 -> sector = bytes_at f (BLOCK_SECTOR_SIZE * lba_of i) BLOCK_SECTOR_SIZE /\ lba_of i < sectors disk) ->
  returns (gpt_loop mallocs n i st p disk table_lba entry_bytes per_sector sector registered) (fun '(r, st') =>
    extends st st' (gpt_table f disk table_lba entry_bytes n i) /\ registered <= r).
Proof using Hbyte Heb Hdiv.
  revert i st sector registered. induction n as [|n IH]; intros i st sector registered Hs Hi Hsec; cbn [gpt_loop gpt_table].
  { split; [|lia]. apply extends_nil; [apply Hs|done|done|done]. }
  assert (Turn : forall st1, same_registry st st1 -> (forall v k, medium (hw st1) v k = medium (hw st) v k) -> lba_of i < sectors disk ->
    returns (let sector := bytes_at f (BLOCK_SECTOR_SIZE * lba_of i) BLOCK_SECTOR_SIZE in
      let entry := (i `mod` per_sector) * entry_bytes in
      empty ← entry_is_empty sector entry;
      if (empty : bool) then gpt_loop mallocs n (i + 1) st1 p disk table_lba entry_bytes per_sector sector registered
      else first ← read_le64 sector (entry + 32);
           last ← read_le64 sector (entry + 40);
           if last <? first then gpt_loop mallocs n (i + 1) st1 p disk table_lba entry_bytes per_sector sector registered
           else '(r, st1) ← block_register_partition mallocs st1 p (i + 1) first (u64 (last - first + 1));
                gpt_loop mallocs n (i + 1) st1 p disk table_lba entry_bytes per_sector sector (if 0 <=? r then registered + 1 else registered))
      (fun '(r, st') => extends st st' (if sectors disk <=? lba_of i then []
         else gpt_slot f table_lba entry_bytes i ++ gpt_table f disk table_lba entry_bytes n (i + 1)) /\ registered <= r)).
  { intros st1 S1 M1 Hlba. destruct (Z.leb_spec (sectors disk) (lba_of i)); [lia|].
    pose proof (extends_registry st st1 [] Hs S1 M1 (fun _ => eq_refl)) as X1. pose proof (extends_scanning _ _ _ Hs X1) as Hs1.
    apply (gpt_turn st1 i registered (fun r st => gpt_loop mallocs n (i + 1) st p disk table_lba entry_bytes per_sector _ r)); [done|done|].
    intros st2 r X2 Hr. eapply returns_mono; [apply IH; [by apply (extends_scanning st1 _ _ Hs1 X2)|lia|]|].
    - intros Hm. by rewrite (same_sector i Hi Hm).
    - intros [r' st3] [X3 Hr3]. split; [|lia]. apply (extends_app st st1 st3 []); [done|]. by apply (extends_app st1 st2). }
  destruct (Z.eqb_spec (i `mod` per_sector) 0) as [Hm|Hm].
  - destruct (Z.leb_spec (sectors disk) (lba_of i)) as [Hge|Hlt].
    { rewrite bind_ret. cbn [negb]. split; [|lia]. apply extends_nil; [apply Hs|done|done|done]. }
    assert (Hb : 0 <= lba_of i) by (apply Z.mod_pos_bound; lia).
    pose proof (read_sector st (lba_of i) Hs Hb (or_intror Hlt)) as Hrd.
    destruct (call_read DEPTH st disk (lba_of i) 1) as [[[status data] st1]| |]; [|done|done].
    destruct Hrd as (S1 & M1 & Data & Hans).
    rewrite bind_ret. destruct (Z.eqb_spec status 0) as [->|Hne]; rewrite bind_ret; cbn [negb].
    + rewrite (Data eq_refl). by apply Turn.
    + split; [|lia]. apply extends_registry; [done|done|done|]. intros Ha. by specialize (Hans Ha).
  - rewrite bind_ret. cbn [negb]. destruct (Hsec Hm) as [-> Hlba]. by apply Turn.
Qed.
End gpt.

(** The condition under which the loop stays inside its sector: an entry has room for the fields that are read. *)
Definition gpt_entries_whole : Prop := forall table_lba n entry_bytes, gpt_header f disk = Some (table_lba, n, entry_bytes) -> 48 <= entry_bytes.

(** The outcome of [scan_gpt]. *)
Definition gpt_outcome st (r : Z) st' : Prop :=
  match gpt_header f disk with
  | Some (table_lba, n, entry_bytes) =>
      (0 <= r /\ extends st st' (gpt_table f disk table_lba entry_bytes n 0)) \/ (r = -1 /\ extends st st' [] /\ ~ answered)
  | None => r = -1 /\ extends st st' []
  end.

Lemma gpt_outcome_none st st' : scanning st -> same_registry st st' -> (forall v k, medium (hw st') v k = medium (hw st) v k) ->
  gpt_header f disk = None \/ ~ answered -> gpt_outcome st (-1) st'.
Proof using.
  intros Hs S M Hno. unfold gpt_outcome. pose proof (extends_registry st st' [] Hs S M (fun _ => eq_refl)).
  destruct (gpt_header f disk) as [[[]]|]; [|done]. right. split; [done|]. split; [done|]. destruct Hno as [Hno|Hno]; [discriminate Hno|exact Hno].
Qed.

Lemma scan_gpt_ok st : scanning st -> gpt_entries_whole ->
  returns (scan_gpt mallocs st p disk) (fun '(r, st') => gpt_outcome st r st').
Proof using Hbyte.
  intros Hs Hwhole. unfold scan_gpt.
  destruct (Z.leb_spec (sectors disk) GPT_HEADER_LBA) as [Hsmall|Hbig]; unfold GPT_HEADER_LBA in *.
  { apply gpt_outcome_none; try done. left. unfold gpt_header. rewrite decide_False; [done|lia]. }
  pose proof (read_sector st 1 Hs ltac:(lia) (or_intror Hbig)) as Hrd.
  destruct (call_read DEPTH st disk 1 1) as [[[status data] st1]| |]; [|done|done]. destruct Hrd as (S1 & M1 & Data & Hans).
  rewrite bind_ret. destruct (Z.eqb_spec status 0) as [->|Hne]; cbn [negb]; [|apply gpt_outcome_none; try done; right; tauto].
  rewrite (Data eq_refl), Z.mul_1_r, signature_matches_at, bind_ret, Z.add_0_r by (done || lia).
  change (Z.of_nat (length GPT_SIGNATURE)) with 8.
  destruct (decide (bytes_at f BLOCK_SECTOR_SIZE 8 = GPT_SIGNATURE)) as [Esig|Hsig].
  2: { rewrite bool_decide_eq_false_2 by done. cbn [negb]. apply gpt_outcome_none; try done. left. unfold gpt_header. rewrite decide_False; [done|tauto]. }
  rewrite bool_decide_eq_true_2 by done. cbn [negb].
  rewrite read_le64_at, bind_ret, !read_le32_at, !bind_ret by (done || (unfold BLOCK_SECTOR_SIZE; lia)).
  pose proof (field_bound f Hbyte (BLOCK_SECTOR_SIZE + 84) 4 ltac:(lia)) as Beb.
  assert (No : ~ (0 < field f (BLOCK_SECTOR_SIZE + 84) 4 <= BLOCK_SECTOR_SIZE /\ BLOCK_SECTOR_SIZE `mod` field f (BLOCK_SECTOR_SIZE + 84) 4 = 0) ->
    gpt_outcome st (-1) st1).
  { intros Hno. apply gpt_outcome_none; try done. left. unfold gpt_header. rewrite decide_False; [done|tauto]. }
  destruct (Z.eqb_spec (field f (BLOCK_SECTOR_SIZE + 84) 4) 0); cbn [orb]; [apply No; lia|].
  destruct (Z.ltb_spec BLOCK_SECTOR_SIZE (field f (BLOCK_SECTOR_SIZE + 84) 4)); cbn [orb]; [apply No; lia|].
  destruct (Z.eqb_spec (BLOCK_SECTOR_SIZE `mod` field f (BLOCK_SECTOR_SIZE + 84) 4) 0) as [Hmod|]; cbn [negb]; [|apply No; tauto].
  assert (Hd : gpt_header f disk = Some (field f (BLOCK_SECTOR_SIZE + 72) 8, Z.to_nat (Z.min (field f (BLOCK_SECTOR_SIZE + 80) 4) 65536), field f (BLOCK_SECTOR_SIZE + 84) 4)).
  { unfold gpt_header. rewrite decide_True; [done|]. repeat split; try done; lia. }
  pose proof (extends_registry st st1 [] Hs S1 M1 (fun _ => eq_refl)) as X1. unfold gpt_outcome. rewrite Hd.
  replace (if 65536 <? field f (BLOCK_SECTOR_SIZE + 80) 4 then 65536 else field f (BLOCK_SECTOR_SIZE + 80) 4)
    with (Z.min (field f (BLOCK_SECTOR_SIZE + 80) 4) 65536) by (case_cmp; lia).
  eapply returns_mono; [apply gpt_loop_ok; [by split; [apply (Hwhole _ _ _ Hd)|]|done|by apply (extends_scanning st st1 [])|lia|]|].
  - intros Hz. by rewrite Zmod_0_l in Hz.
  - intros [r st2] [X2 Hr]. left. split; [done|]. by apply (extends_app st st1 st2 []).
Qed.

(** *** The MBR *)

Lemma mbr_entry_ok st i : scanning st -> 0 <= i < 4 ->
  returns (mbr_entry mallocs (bytes_at f 0 BLOCK_SECTOR_SIZE) p i st) (fun st' => extends st st' (mbr_slot f i)).
Proof using Hbyte.
  intros Hs Hi. unfold mbr_entry, mbr_slot. set (e := MBR_TABLE_OFFSET + i * MBR_ENTRY_BYTES).
  assert (He : 446 <= e <= 494) by (unfold e, MBR_TABLE_OFFSET, MBR_ENTRY_BYTES; lia).
  assert (None_ : forall l, l = [] -> extends st st l) by (intros l ->; apply extends_nil; [apply Hs|done|done|done]).
  rewrite rd_bytes_at, bind_ret, Z.add_0_l by (unfold BLOCK_SECTOR_SIZE; lia).
  destruct (decide (f (e + 4) ∈ [0; MBR_TYPE_PROTECTIVE; MBR_TYPE_EXTENDED_CHS; MBR_TYPE_EXTENDED_LBA])) as [Hin|Hout].
  { destruct (Z.eqb_spec (f (e + 4)) 0), (Z.eqb_spec (f (e + 4)) MBR_TYPE_PROTECTIVE), (Z.eqb_spec (f (e + 4)) MBR_TYPE_EXTENDED_CHS),
      (Z.eqb_spec (f (e + 4)) MBR_TYPE_EXTENDED_LBA); cbn [orb]; try by apply None_. exfalso. set_solver. }
  rewrite !not_elem_of_cons in Hout. destruct Hout as (N1 & N2 & N3 & N4 & _).
  rewrite (proj2 (Z.eqb_neq _ _) N1), (proj2 (Z.eqb_neq _ _) N2), (proj2 (Z.eqb_neq _ _) N3), (proj2 (Z.eqb_neq _ _) N4). cbn [orb].
  rewrite !read_le32_at, !bind_ret, !Z.add_0_l by (done || (unfold BLOCK_SECTOR_SIZE; lia)).
  destruct (Z.eqb_spec (field f (e + 12) 4) 0); [by apply None_|].
  eapply returns_bind; [apply register_found; [done|apply (field_bound f Hbyte); lia|apply (field_bound f Hbyte); lia]|].
  by intros [r st'] [Hx _].
Qed.

Lemma scan_mbr_ok st : scanning st -> returns (scan_mbr mallocs st p disk) (fun st' => extends st st' (mbr_table f)).
Proof using Hbyte.
  intros Hs. unfold scan_mbr. pose proof (read_sector st 0 Hs ltac:(lia) (or_introl eq_refl)) as Hrd.
  destruct (call_read DEPTH st disk 0 1) as [[[status data] st1]| |]; [|done|done]. destruct Hrd as (S1 & M1 & Data & Hans).
  rewrite bind_ret. destruct (Z.eqb_spec status 0) as [->|Hne]; cbn [negb].
  2: { apply extends_registry; try done. intros Ha. by specialize (Hans Ha). }
  rewrite (Data eq_refl), Z.mul_0_r, !rd_bytes_at, !bind_ret, !Z.add_0_l by (unfold MBR_SIGNATURE_OFFSET, BLOCK_SECTOR_SIZE; lia).
  pose proof (extends_registry st st1 [] Hs S1 M1 (fun _ => eq_refl)) as X1. unfold mbr_table.
  destruct (Z.eqb_spec (f MBR_SIGNATURE_OFFSET) 0x55) as [Ea|]; cbn [negb orb]; [|rewrite decide_False by tauto; done].
  destruct (Z.eqb_spec (f (MBR_SIGNATURE_OFFSET + 1)) 0xAA) as [Eb|]; cbn [negb]; [|rewrite decide_False by tauto; done].
  rewrite decide_True by done.
  apply (for_range_rule (fun i st' => extends st st' (flat_map (mbr_slot f) (seqZ 0 i)))); [done|done|].
  intros i st2 Hi X2. unfold MBR_ENTRIES in Hi. eapply returns_mono; [apply mbr_entry_ok; [by apply (extends_scanning _ _ _ Hs X2)|lia]|].
  intros st3 X3. rewrite seqZ_app, flat_map_app by lia. apply (extends_app st st2); [done|].
  change (seqZ (0 + i) 1) with [0 + (0 + i)]. cbn [flat_map]. by rewrite app_nil_r, !Z.add_0_l.
Qed.
End scan_spec.
