(* ===== verification/DiskNode.v ===== *)
(** * Disks as files (kernel/fs/devfs.c, the block device nodes)

    Reading, writing and controlling /dev/<disk>: the node's name finds the
    device, and the byte requests and the discard of Block.v do the work. *)

From S2P Require Import Prelude Block.

Definition BLKROGET : Z := 0x125E.
Definition BLKGETSIZE : Z := 0x1260.
Definition BLKFLSBUF : Z := 0x1261.
Definition BLKSSZGET : Z := 0x1268.
Definition BLKDISCARD : Z := 0x1277.
Definition BLKIOMIN : Z := 0x1278.
Definition BLKIOOPT : Z := 0x1279.
Definition BLKPBSZGET : Z := 0x127B.
Definition BLKGETSIZE64 : Z := 0x80081272.

(** What an ioctl does to the user's memory at its argument: a value of so
    many bytes, or nothing. *)
Definition user_store : Type := option (Z * Z).

(** [copy_ok] is the answer of copy_to_user. *)
Definition put_value (argument : Z) (copy_ok : bool) (value size : Z) : Z * user_store :=
  if argument =? 0 then (- EFAULT, None)
  else if copy_ok then (0, Some (value, size)) else (- EFAULT, None).

Section node.
Context {D : Type} `{DriverOps D} (clock : nat -> Z).
Implicit Type st : block_state D.

Definition disk_of (st : block_state D) (node : list Z) : res (option nat) :=
  index ← block_device_index_by_name st (Some node);
  Ret (block_device_at st index).

Definition disk_read (st : block_state D) (node : list Z) (offset size : Z) (buffer : bool) : res (Z * list Z * block_state D) :=
  dev ← disk_of st node;
  '(status, data, st) ← block_device_read_bytes clock st dev offset size buffer;
  Ret (if status =? 0 then i64 size else -1, data, st).

Definition disk_write (st : block_state D) (node : list Z) (offset size : Z) (buffer : option (list Z)) : res (Z * block_state D) :=
  dev ← disk_of st node;
  '(status, st) ← block_device_write_bytes clock st dev offset size buffer;
  Ret (if status =? 0 then i64 size else -1, st).

(** The loop of BLKDISCARD: [fuel] is the number of steps of 0x10000 sectors. *)
Fixpoint discard_loop (fuel : nat) (st : block_state D) (dev : option nat) (lba count : Z) : res (Z * block_state D) :=
  match fuel with
  | O => Fault
  | S fuel =>
      if count =? 0 then Ret (0, st)
      else
        let step := if 0x10000 <? count then 0x10000 else count in
        '(status, st) ← block_device_discard st dev lba step;
        if negb (status =? 0) then Ret (- EIO, st) else discard_loop fuel st dev (u64 (lba + step)) (count - step)
  end.

(** [range] is what copy_from_user reads, [None] when it fails. *)
Definition disk_ioctl (st : block_state D) (node : list Z) (request argument : Z) (copy_ok : bool) (range : option (Z * Z))
  : res (Z * user_store * block_state D) :=
  dev ← disk_of st node;
  match dev with
  | None => Ret (- ENODEV, None, st)
  | Some dev =>
      d ← deref st dev;
      let put value size := Ret (put_value argument copy_ok value size, st) in
      if request =? BLKGETSIZE64 then put (u64 (sectors d * BLOCK_SECTOR_SIZE)) 8
      else if request =? BLKGETSIZE then put (sectors d) 8
      else if (request =? BLKSSZGET) || (request =? BLKPBSZGET) || (request =? BLKIOMIN) then
        put (if negb (request =? BLKSSZGET) then 4096 else BLOCK_SECTOR_SIZE) 4
      else if request =? BLKIOOPT then put 0 4
      else if request =? BLKROGET then put (if can_write d then 0 else 1) 4
      else if request =? BLKFLSBUF then
        '(status, st) ← block_device_flush st (Some dev);
        Ret (if status =? 0 then 0 else - EIO, None, st)
      else if request =? BLKDISCARD then
        match (if argument =? 0 then None else range) with
        | None => Ret (- EFAULT, None, st)
        | Some (from, bytes) =>
            if negb (Z.lor from bytes `mod` BLOCK_SECTOR_SIZE =? 0) then Ret (- EINVAL, None, st)
            else if negb (can_discard d) then Ret (- EOPNOTSUPP, None, st)
            else
              let lba := from / BLOCK_SECTOR_SIZE in
              let count := bytes / BLOCK_SECTOR_SIZE in
              if (sectors d <? lba) || (sectors d - lba <? count) then Ret (- EINVAL, None, st)
              else
                '(status, st) ← discard_loop (S (Z.to_nat (count / 0x10000 + 1))) st (Some dev) lba count;
                Ret (status, None, st)
        end
      else Ret (- ENOTTY, None, st)
  end.
End node.
