(* ===== verification/BlockSpec.v ===== *)
(** * Correctness of the block layer

    The sector requests of Block.v against the medium, the device nodes of
    DiskNode.v, a disk in memory as an instance of the driver interface, and
    the properties: requests stay inside their device, the byte requests treat
    a device as an array of bytes, a scan registers what the tables list, and
    every sequence of operations keeps the registry in order. *)

From stdpp Require Import relations.
From S2P Require Import Prelude Block BlockIo BlockReg Partition PartitionSpec DiskNode.

(** ** A disk in memory

    One unit: its bytes, and whether its requests succeed. *)

Record memory_disk := MemoryDisk { md_bytes : Z -> Z; md_works : bool }.

Definition md_capacity : Z := 4096.

Definition md_store (d : memory_disk) (u : nat) (lba count : Z) (data : list Z) : memory_disk :=
  MemoryDisk (fun k => if decide (u = 0%nat /\ in_sectors lba count k)
                       then data !!! Z.to_nat (k - BLOCK_SECTOR_SIZE * lba) `mod` 256 else md_bytes d k) (md_works d).

#[global] Instance memory_disk_ops : DriverOps memory_disk := {|
  drv_read d u lba count :=
    if md_works d then (0, bytes_at (fun k => if decide (u = 0%nat) then md_bytes d k `mod` 256 else 0)
                             (BLOCK_SECTOR_SIZE * lba) (BLOCK_SECTOR_SIZE * count), d) else (-1, [], d);
  drv_write d u lba count data :=
    if md_works d && bool_decide (u = 0%nat) && forallb (fun b => (0 <=? b) && (b <? 256)) data &&
       (Z.of_nat (length data) =? BLOCK_SECTOR_SIZE * count)
    then (0, md_store d u lba count data) else (-1, d);
  drv_flush d u := (0, d);
  drv_discard d u lba count := (0, d) |}.

#[global] Program Instance memory_disk_driver : Driver memory_disk := {|
  medium d u k := if decide (u = 0%nat) then md_bytes d k `mod` 256 else 0;
  capacity u := md_capacity |}.
Next Obligation. intros. unfold md_capacity. lia. Qed.
Next Obligation. intros. cbn. case_decide; [apply Z.mod_pos_bound|]; lia. Qed.
Next Obligation. intros d u lba count status data d' v k _ _ _ E. cbn in E. destruct (md_works d); by injection E as <- <- <-. Qed.
Next Obligation. intros d u lba count data d' _ _ _ E. cbn in E. destruct (md_works d); [|done]. by injection E as <- <-. Qed.
Next Obligation.
  intros d u lba count data status d' v k _ _ _ E Hv. cbn [drv_write memory_disk_ops] in E.
  destruct (md_works d && _ && _ && _); injection E as <- <-; [|done]. cbn. repeat case_decide; try done. naive_solver.
Qed.
Next Obligation.
  intros d u lba count data d' k _ _ _ E Hk. cbn [drv_write memory_disk_ops] in E.
  destruct (md_works d && bool_decide (u = 0%nat) && forallb _ data && _) eqn:Hc; [|done]. injection E as <-.
  rewrite !andb_true_iff, bool_decide_eq_true, forallb_forall in Hc. destruct Hc as (((_ & ->) & Hb) & Hl%Z.eqb_eq).
  cbn. rewrite !decide_True by done. rewrite Zmod_mod. apply Z.mod_small.
  assert (Hin : data !!! Z.to_nat (k - BLOCK_SECTOR_SIZE * lba) ∈ data).
  { apply list_elem_of_lookup. eexists. apply list_lookup_lookup_total_lt. unfold in_sectors in Hk. lia. }
  specialize (Hb _ ltac:(by apply list_elem_of_In)). lia.
Qed.
Next Obligation. intros d u status d' v k E. by injection E as <- <-. Qed.
Next Obligation. intros d u lba count status d' v k _ _ _ E _. by injection E as <- <-. Qed.

(** ** Requests in sectors *)

Section requests.
Context {D : Type} `{Driver D} (mallocs : nat -> bool) (clock : nat -> Z).
Implicit Types (st : block_state D) (d : device).

Definition same_medium st st' : Prop := forall v k, medium (hw st') v k = medium (hw st) v k.

Context (st : block_state D) (n : nat) (d : device) (u : nat) (base : Z).
Context (Hd : devices st !! n = Some d) (Hl : located st d u base).

Lemma deref_device : deref st n = Ret d.
Proof using Hd. unfold deref. by rewrite Hd. Qed.

(** A request is refused unless it has sectors and all of them are the device's. *)
Definition refused (lba count : Z) : Prop := count = 0 \/ sectors d < lba + count.

Lemma sector_read_ok lba count : can_read d = true -> 0 <= lba -> 0 <= count -> lba + count < 2 ^ 64 ->
  returns (block_device_read clock st (Some n) lba count true) (fun '(status, data, st') =>
    same_registry st st' /\ same_medium st st' /\ (refused lba count -> status = -1 /\ st' = st) /\
    (status = 0 -> data = bytes_at (medium (hw st) u) (BLOCK_SECTOR_SIZE * (base + lba)) (BLOCK_SECTOR_SIZE * count))).
Proof using Hd Hl.
  intros Hr Hlo Hc Hw. unfold block_device_read, refused. rewrite deref_device, bind_ret, Hr. cbn [negb orb].
  replace (u64 (lba + count)) with (lba + count) by (symmetry; apply Z.mod_small; lia).
  destruct (Z.eqb_spec count 0) as [->|]; cbn [orb]; [done|]. destruct (Z.ltb_spec (sectors d) (lba + count)); [done|].
  eapply returns_mono; [apply (read_call clock d u base); done || lia|]. intros [[status data] st'] (S & M & Data).
  split; [done|]. split; [done|]. split; [intros; lia|]. intros E. rewrite (Data E). f_equal. lia.
Qed.

Lemma sector_write_ok lba count data : 0 <= lba -> 0 <= count -> lba + count < 2 ^ 64 ->
  Z.of_nat (length data) = BLOCK_SECTOR_SIZE * count ->
  returns (block_device_write clock st (Some n) lba count (Some data)) (fun '(status, st') =>
    same_registry st st' /\ (can_write d = false \/ refused lba count -> status = -1 /\ st' = st) /\
    kept (medium (hw st)) (medium (hw st')) u (BLOCK_SECTOR_SIZE * (base + lba)) (BLOCK_SECTOR_SIZE * (base + lba + count)) /\
    (status = 0 -> forall v k, medium (hw st') v k = update (medium (hw st)) u (BLOCK_SECTOR_SIZE * (base + lba)) data v k)).
Proof using Hd Hl.
  intros Hlo Hc Hw Hlen. unfold block_device_write, refused. rewrite deref_device, bind_ret.
  replace (u64 (lba + count)) with (lba + count) by (symmetry; apply Z.mod_small; lia).
  destruct (can_write d) eqn:Hcw; cbn [negb orb]; [|done].
  destruct (Z.eqb_spec count 0) as [->|]; [done|]. destruct (Z.ltb_spec (sectors d) (lba + count)); [done|]. unfold time_uptime_ns.
  eapply returns_bind; [apply (write_call d u base _ lba count data); try done; try lia; by apply (located_same st)|].
  intros [status st'] (S & K & U). cbn [returns hw set_stats set_asked] in *. split; [done|]. split; [intros [|]; [done|lia]|]. split.
  - apply (kept_weaken _ _ _ _ _ _ _ K); lia.
  - intros E v k. rewrite (U E Hlen). f_equal. lia.
Qed.

Lemma sector_discard_ok lba count : 0 <= lba -> 0 <= count -> lba + count < 2 ^ 64 ->
  returns (block_device_discard st (Some n) lba count) (fun '(status, st') =>
    same_registry st st' /\ (can_discard d = false \/ refused lba count -> status = -1 /\ st' = st) /\
    kept (medium (hw st)) (medium (hw st')) u (BLOCK_SECTOR_SIZE * (base + lba)) (BLOCK_SECTOR_SIZE * (base + lba + count))).
Proof using Hd Hl.
  intros Hlo Hc Hw. unfold block_device_discard, refused. rewrite deref_device, bind_ret.
  replace (u64 (lba + count)) with (lba + count) by (symmetry; apply Z.mod_small; lia).
  destruct (can_discard d) eqn:Hcd; cbn [negb orb]; [|done].
  destruct (Z.eqb_spec count 0) as [->|]; [done|]. destruct (Z.ltb_spec (sectors d) (lba + count)); [done|].
  destruct (located_range _ _ _ _ Hl) as (? & ? & ?). rewrite (call_discard_at _ d u base) by (done || lia).
  destruct (drv_discard (hw st) u (base + lba) count) as [status h] eqn:E. cbn. split; [done|]. split; [intros [|]; [done|lia]|].
  assert (R1 : 0 <= base + lba) by lia. assert (R2 : base + lba + count <= capacity u) by lia. assert (R3 : 0 < count) by lia.
  intros v k Hv. apply (drv_discard_keeps (hw st) u (base + lba) count status h v k R1 R3 R2 E).
  unfold in_sectors. destruct Hv; [by left|right; lia].
Qed.

Lemma sector_flush_ok :
  returns (block_device_flush st (Some n)) (fun '(status, st') => same_registry st st' /\ same_medium st st').
Proof using Hd Hl.
  unfold block_device_flush. rewrite deref_device, bind_ret. destruct (can_flush d); [|done]. by apply (call_flush_at st d u base).
Qed.
End requests.

(** ** Device nodes *)

Section nodes.
Context {D : Type} `{Driver D} (clock : nat -> Z).
Implicit Types (st : block_state D) (d : device).

Lemma holds_eq l s t : holds l s -> c_string l = Ret t -> t = s.
Proof. intros [_ ->]%holds_strlen. by intros [= ->]. Qed.

Lemma find_name_ok l i s : Forall (fun d => exists t, holds (dev_name d) t) l ->
  returns (find_name l i s) (fun r =>
    (r = -1 /\ forall j d, l !! j = Some d -> ~ holds (dev_name d) s) \/
    (exists j d, r = i + Z.of_nat j /\ l !! j = Some d /\ holds (dev_name d) s)).
Proof.
  intros Hl. revert i. induction Hl as [|d l [t Ht] _ IH]; intros i; cbn [find_name]; [by left|].
  destruct (holds_strlen _ _ Ht) as [_ ->]. rewrite bind_ret. case_decide as E.
  - right. exists 0%nat, d. subst. split; [lia|]. done.
  - eapply returns_mono; [apply IH|]. intros r [[-> No]|(j & d' & -> & Hj & Hh)].
    + left. split; [done|]. intros [|j] d' Hj; [|by apply (No j)]. injection Hj as <-. intros Hs. apply E.
      destruct (holds_strlen _ _ Ht) as [_ Ec]. by apply (holds_eq (dev_name d)).
    + right. exists (S j), d'. split; [lia|]. done.
Qed.

(** The node names no device, or the one that is found. *)
Lemma disk_of_ok st node : registry_ok st -> head node <> Some 47 ->
  returns (disk_of st node) (fun dev =>
    (dev = None /\ forall j d, devices st !! j = Some d -> ~ holds (dev_name d) node) \/
    (exists j d, dev = Some j /\ devices st !! j = Some d /\ holds (dev_name d) node)).
Proof.
  intros Hr Hn. unfold disk_of, block_device_index_by_name. rewrite decide_False by done.
  eapply returns_bind; [apply find_name_ok|].
  { eapply Forall_impl; [|by apply ro_devices]. intros d Hok. destruct (do_string _ _ Hok) as (s & Hs & _). by exists s. }
  cbn. intros r [[-> No]|(j & d & -> & Hj & Hh)].
  - left. split; [|done]. unfold block_device_at. done.
  - right. exists j, d. split; [|done]. apply block_device_at_Some. apply lookup_lt_Some in Hj. unfold device_count. lia.
Qed.

Lemma lor_aligned a b : Z.lor a b `mod` BLOCK_SECTOR_SIZE = 0 <-> a `mod` BLOCK_SECTOR_SIZE = 0 /\ b `mod` BLOCK_SECTOR_SIZE = 0.
Proof.
  change BLOCK_SECTOR_SIZE with (2 ^ 9). rewrite <- !Z.land_ones, Z.land_lor_distr_l by lia. apply Z.lor_eq_0_iff.
Qed.

(** The loop of BLKDISCARD stays inside its range. *)
Lemma discard_loop_ok fuel st n d u base lba count :
  devices st !! n = Some d -> located st d u base -> 0 <= lba -> 0 <= count -> lba + count <= sectors d ->
  count <= 0x10000 * (Z.of_nat fuel - 1) -> (0 < fuel)%nat ->
  returns (discard_loop fuel st (Some n) lba count) (fun '(r, st') =>
    same_registry st st' /\ (r = 0 \/ r = - EIO) /\
    kept (medium (hw st)) (medium (hw st')) u (BLOCK_SECTOR_SIZE * (base + lba)) (BLOCK_SECTOR_SIZE * (base + lba + count))).
Proof.
  revert st lba count. induction fuel as [|fuel IH]; intros st lba count Hd Hl Hlo Hc Hs Hfuel Hpos; [lia|]. cbn [discard_loop].
  destruct (Z.eqb_spec count 0) as [->|]; [split; [done|]; split; [by left|done]|].
  destruct (located_range _ _ _ _ Hl) as (? & ? & ?).
  replace (if 0x10000 <? count then 0x10000 else count) with (Z.min 0x10000 count) by (case_cmp; lia).
  set (step := Z.min 0x10000 count).
  eapply returns_bind; [apply (sector_discard_ok st n d u base Hd Hl lba step); lia|]. intros [status st1] (S1 & _ & K1).
  assert (W : kept (medium (hw st)) (medium (hw st1)) u (BLOCK_SECTOR_SIZE * (base + lba)) (BLOCK_SECTOR_SIZE * (base + lba + count)))
    by (apply (kept_weaken _ _ _ _ _ _ _ K1); unfold BLOCK_SECTOR_SIZE; lia).
  destruct (status =? 0); cbn [negb]; [|split; [done|]; split; [by right|done]].
  replace (u64 (lba + step)) with (lba + step) by (symmetry; apply Z.mod_small; lia).
  eapply returns_mono; [apply IH; [by destruct S1 as [-> _]|by apply (located_same st)|lia|lia|lia|lia|lia]|].
  intros [r st2] (S2 & Hr & K2). split; [by apply (same_registry_trans _ st1)|]. split; [done|]. apply (kept_trans _ _ _ _ _ _ W).
  apply (kept_weaken _ _ _ _ _ _ _ K2); unfold BLOCK_SECTOR_SIZE; lia.
Qed.

(** The outcome of BLKDISCARD of [bytes] bytes from byte [from] on: a range that
    is not whole sectors of the device is refused, and any other touches only itself. *)
Definition discard_outcome st d (u : nat) (base from bytes r : Z) (store : user_store) st' : Prop :=
  store = None /\ same_registry st st' /\
  (from `mod` BLOCK_SECTOR_SIZE <> 0 \/ bytes `mod` BLOCK_SECTOR_SIZE <> 0 \/ BLOCK_SECTOR_SIZE * sectors d < from + bytes ->
    (r = - EINVAL \/ r = - EOPNOTSUPP) /\ st' = st) /\
  kept (medium (hw st)) (medium (hw st')) u (BLOCK_SECTOR_SIZE * base + from) (BLOCK_SECTOR_SIZE * base + from + bytes).

Lemma ioctl_discard_ok st node j d u base argument copy_ok from bytes :
  disk_of st node = Ret (Some j) -> devices st !! j = Some d -> located st d u base -> argument <> 0 -> 0 <= from -> 0 <= bytes ->
  returns (disk_ioctl st node BLKDISCARD argument copy_ok (Some (from, bytes))) (fun '(r, store, st') =>
    discard_outcome st d u base from bytes r store st').
Proof.
  intros Ej Hd Hl Ha Hf Hb. unfold disk_ioctl. rewrite Ej, bind_ret, (deref_device st j d Hd), bind_ret.
  change (BLKDISCARD =? BLKGETSIZE64) with false. change (BLKDISCARD =? BLKGETSIZE) with false.
  change ((BLKDISCARD =? BLKSSZGET) || (BLKDISCARD =? BLKPBSZGET) || (BLKDISCARD =? BLKIOMIN)) with false.
  change (BLKDISCARD =? BLKIOOPT) with false. change (BLKDISCARD =? BLKROGET) with false. change (BLKDISCARD =? BLKFLSBUF) with false.
  rewrite Z.eqb_refl. destruct (Z.eqb_spec argument 0); [done|].
  assert (Refuse : forall r, r = - EINVAL \/ r = - EOPNOTSUPP -> discard_outcome st d u base from bytes r None st) by done.
  destruct (Z.eqb_spec (Z.lor from bytes `mod` BLOCK_SECTOR_SIZE) 0) as [[Mf Mb]%lor_aligned|]; cbn [negb]; [|apply Refuse; by left].
  destruct (can_discard d); cbn [negb]; [|apply Refuse; by right].
  pose proof (Z.div_mod from BLOCK_SECTOR_SIZE ltac:(done)) as Ef. pose proof (Z.div_mod bytes BLOCK_SECTOR_SIZE ltac:(done)) as Eb.
  assert (Pf : 0 <= from / BLOCK_SECTOR_SIZE) by (by apply Z.div_pos). assert (Pb : 0 <= bytes / BLOCK_SECTOR_SIZE) by (by apply Z.div_pos).
  destruct (Z.ltb_spec (sectors d) (from / BLOCK_SECTOR_SIZE)); cbn [orb]; [apply Refuse; by left|].
  destruct (Z.ltb_spec (sectors d - from / BLOCK_SECTOR_SIZE) (bytes / BLOCK_SECTOR_SIZE)); [apply Refuse; by left|].
  set (count := bytes / BLOCK_SECTOR_SIZE) in *. set (lba := from / BLOCK_SECTOR_SIZE) in *.
  pose proof (Z.div_mod count 0x10000 ltac:(lia)). pose proof (Z.mod_pos_bound count 0x10000 ltac:(lia)). pose proof (Z.div_pos count 0x10000 ltac:(lia) ltac:(lia)).
  eapply returns_bind; [apply (discard_loop_ok _ st j d u base lba count); try done; lia|].
  intros [r st'] (S & Hr & K). split; [done|]. split; [done|]. split; [unfold BLOCK_SECTOR_SIZE in *; lia|].
  apply (kept_weaken _ _ _ _ _ _ _ K); unfold BLOCK_SECTOR_SIZE in *; lia.
Qed.
End nodes.

(** ** Scans *)

Section scans.
Context {D : Type} `{Driver D} (mallocs : nat -> bool).
Implicit Types (st : block_state D) (d : device).

(** No disk has a GPT whose entries are too short for the fields the scan reads. *)
Definition tables_whole st : Prop :=
  forall i disk u, devices st !! i = Some disk -> ctx disk = DriverContext u -> gpt_entries_whole disk (medium (hw st) u).

(** What a scan of the disk at [index] leaves behind. *)
Definition scan_outcome st (index : Z) st' : Prop :=
  registry_ok st' /\ same_medium st st' /\ (block_device_at st index = None -> st' = st) /\
  forall disk, 0 <= index -> devices st !! Z.to_nat index = Some disk ->
    match ctx disk with
    | PartitionContext _ _ => st' = st
    | DriverContext u =>
        let f := medium (hw st) u in
        exists l es, devices st' = devices st ++ es /\ Forall2 (is_part index disk) l es /\
          (l `sublist_of` filter (fits_part disk) (disk_table f disk) \/
           (~ answered (D := D) mallocs /\ l `sublist_of` filter (fits_part disk) (mbr_table f))) /\
          (answered (D := D) mallocs -> l = filter (fits_part disk) (disk_table f disk))
    end.

Lemma scan_disk_ok st index : registry_ok st -> tables_whole st ->
  returns (partition_scan_disk mallocs st index) (fun st' => scan_outcome st index st').
Proof.
  intros Hr Hw. unfold partition_scan_disk. destruct (block_device_at st index) as [n|] eqn:Ei.
  2: { split; [done|]. split; [done|]. split; [done|]. intros disk Hi Hd. exfalso. apply lookup_lt_Some in Hd.
       enough (block_device_at st index = Some (Z.to_nat index)) by congruence. apply block_device_at_Some. unfold device_count. lia. }
  destruct (device_at _ _ _ Ei) as (disk & Hd & ->). rewrite bind_ret. apply block_device_at_Some in Ei as [Hi ->].
  pose proof (do_placed _ _ (registered _ _ _ Hr Hd)) as Hpl. unfold placed in Hpl.
  destruct (Z.eqb_spec (parent disk) (-1)) as [Hp|Hp]; cbn [negb].
  2: { split; [done|]. split; [done|]. split; [done|]. intros disk' _ Hd'. rewrite Hd in Hd'. injection Hd' as <-. by destruct (ctx disk); [lia|]. }
  destruct (ctx disk) as [u|] eqn:Hc; [|lia]. set (f := medium (hw st) u).
  assert (Hb : forall k, 0 <= f k < 256) by (intros k; apply medium_byte).
  assert (Hs : scanning index disk u f st) by (constructor; try done; by split; [lia|]).
  assert (Pack : forall st' l0, extends mallocs index disk st st' l0 -> l0 = disk_table f disk \/ (~ answered (D := D) mallocs /\ l0 = mbr_table f) ->
    scan_outcome st index st').
  { intros st' l0 (R & M & l & es & E1 & E2 & E3 & E4) Hl0. split; [done|]. split; [done|].
    split; [intros En; enough (block_device_at st index = Some (Z.to_nat index)) by congruence; by apply block_device_at_Some|].
    intros disk' _ Hd'. rewrite Hd in Hd'. injection Hd' as <-. rewrite Hc. exists l, es. split; [done|]. split; [done|].
    destruct Hl0 as [->|[Hna ->]]; [by auto|]. split; [by right|]. by intros Ha. }
  eapply returns_bind; [by apply (scan_gpt_ok mallocs index disk u f Hb st Hs), (Hw (Z.to_nat index))|].
  intros [r st1] Ho. unfold gpt_outcome in Ho. unfold disk_table in Pack.
  destruct (gpt_header f disk) as [[[table_lba k] entry_bytes]|].
  - destruct Ho as [[Hr0 X]|(-> & X & Hna)].
    + rewrite (proj2 (Z.leb_le 0 r) Hr0). apply (Pack _ _ X). by left.
    + cbn [Z.leb Z.compare]. eapply returns_mono; [apply (scan_mbr_ok mallocs index disk u f Hb st1), (extends_scanning _ _ _ _ _ _ _ _ Hs X)|].
      intros st2 X2. apply (Pack st2 ([] ++ mbr_table f)); [by apply (extends_app _ _ _ _ st1)|by right].
  - destruct Ho as [-> X]. cbn [Z.leb Z.compare].
    eapply returns_mono; [apply (scan_mbr_ok mallocs index disk u f Hb st1), (extends_scanning _ _ _ _ _ _ _ _ Hs X)|].
    intros st2 X2. apply (Pack st2 ([] ++ mbr_table f)); [by apply (extends_app _ _ _ _ st1)|by left].
Qed.

Lemma bytes_whole_ext f g disk : (forall k, f k = g k) -> gpt_entries_whole disk f -> gpt_entries_whole disk g.
Proof.
  intros E Hf. unfold gpt_entries_whole, gpt_header, field in *. rewrite !(bytes_at_ext g f) by done. done.
Qed.

Lemma scan_keeps_tables st index st' : tables_whole st -> scan_outcome st index st' -> tables_whole st'.
Proof.
  intros Hw (_ & M & Hno & Hsome) i disk u Hi Hc. assert (Same : st' = st -> gpt_entries_whole disk (medium (hw st') u)).
  { intros ->. by apply (Hw i). }
  destruct (block_device_at st index) as [n|] eqn:Ei; [|by apply Same, Hno].
  destruct (device_at _ _ _ Ei) as (d & Hd & _). apply block_device_at_Some in Ei as [Hp ->]. specialize (Hsome d (proj1 Hp) Hd).
  destruct (ctx d); [|by apply Same]. destruct Hsome as (l & es & E1 & F & _). rewrite E1 in Hi.
  apply lookup_app_Some in Hi as [Hi|[_ Hi]].
  - apply (bytes_whole_ext (medium (hw st) u)); [intros k; symmetry; apply M|]. by apply (Hw i).
  - destruct (Forall2_lookup_r _ _ _ _ _ F Hi) as ([[number start] k] & _ & Hp1). destruct Hp1 as (_ & Hc' & _). congruence.
Qed.

Lemma partition_scan_ok st : registry_ok st -> tables_whole st ->
  returns (partition_scan mallocs st) (fun st' => registry_ok st' /\ same_medium st st').
Proof.
  intros Hr Hw. unfold partition_scan.
  eapply returns_mono; [apply (for_range_rule (fun i st' => registry_ok st' /\ same_medium st st' /\ tables_whole st'))|].
  - unfold block_device_count, device_count. lia.
  - done.
  - intros i st1 _ (R1 & M1 & W1). eapply returns_mono; [by apply scan_disk_ok|]. intros st2 O. split; [apply O|].
    split; [|by apply (scan_keeps_tables st1 i)]. intros v k. destruct O as (_ & M2 & _). by rewrite M2.
  - intros st' (R & M & _). done.
Qed.
End scans.

(** ** All operations *)

(** The operations of the layer and of the device nodes; a device is named by
    its index, a node by its name. *)
Inductive block_op :=
  | OpRegister (dev : option device)
  | OpRegisterNamed (dev : option device) (nm : option (list Z)) (major_ minor_ : Z)
  | OpSetSectors (index n : Z)
  | OpRegisterPartition (p number start n : Z)
  | OpSelectRoot (index : Z)
  | OpScanDisk (index : Z)
  | OpScan
  | OpRead (index lba count : Z)
  | OpWrite (index lba count : Z) (data : list Z)
  | OpDiscard (index lba count : Z)
  | OpFlush (index : Z)
  | OpReadBytes (index offset size : Z)
  | OpWriteBytes (index offset : Z) (data : list Z)
  | OpNodeRead (node : list Z) (offset size : Z)
  | OpNodeWrite (node : list Z) (offset : Z) (data : list Z)
  | OpNodeIoctl (node : list Z) (request argument : Z) (copy_ok : bool) (range : option (Z * Z)).

Section operations.
Context {D : Type} `{Driver D} (mallocs : nat -> bool) (clock : nat -> Z).
Implicit Types (st : block_state D) (d : device).

Definition run_op (op : block_op) st : res (block_state D) :=
  match op with
  | OpRegister dev => '(_, st) ← block_register mallocs st dev; Ret st
  | OpRegisterNamed dev nm major_ minor_ => '(_, st) ← block_register_named mallocs st dev nm major_ minor_; Ret st
  | OpSetSectors index n => Ret (block_set_sectors st index n)
  | OpRegisterPartition p number start n => '(_, st) ← block_register_partition mallocs st p number start n; Ret st
  | OpSelectRoot index => Ret (block_select_root st index)
  | OpScanDisk index => partition_scan_disk mallocs st index
  | OpScan => partition_scan mallocs st
  | OpRead index lba count => '(_, st) ← block_device_read clock st (block_device_at st index) lba count true; Ret st
  | OpWrite index lba count data => '(_, st) ← block_device_write clock st (block_device_at st index) lba count (Some data); Ret st
  | OpDiscard index lba count => '(_, st) ← block_device_discard st (block_device_at st index) lba count; Ret st
  | OpFlush index => '(_, st) ← block_device_flush st (block_device_at st index); Ret st
  | OpReadBytes index offset size => '(_, st) ← block_device_read_bytes clock st (block_device_at st index) offset size true; Ret st
  | OpWriteBytes index offset data =>
      '(_, st) ← block_device_write_bytes clock st (block_device_at st index) offset (Z.of_nat (length data)) (Some data); Ret st
  | OpNodeRead node offset size => '(_, st) ← disk_read clock st node offset size true; Ret st
  | OpNodeWrite node offset data => '(_, st) ← disk_write clock st node offset (Z.of_nat (length data)) (Some data); Ret st
  | OpNodeIoctl node request argument copy_ok range => '(_, st) ← disk_ioctl st node request argument copy_ok range; Ret st
  end.

(** What the callers keep to: drivers describe units they have, the sector
    numbers of a request do not wrap, and a scanned table has whole entries. *)
Definition allowed st (op : block_op) : Prop :=
  match op with
  | OpRegister dev => forall d, dev = Some d -> driver_device d
  | OpRegisterNamed dev nm major_ minor_ =>
      (forall d, dev = Some d -> driver_device d) /\ (forall s, nm = Some s -> Forall nonzero s /\ (length s <= 10)%nat) /\
      0 <= major_ < 2 ^ 32 /\ 0 <= minor_ < 2 ^ 32
  | OpSetSectors index n =>
      forall d, 0 <= index -> devices st !! Z.to_nat index = Some d -> exists u, ctx d = DriverContext u /\ 0 <= n <= capacity u
  | OpRegisterPartition p number start n => 0 <= start /\ 0 <= n
  | OpScanDisk _ | OpScan => tables_whole st
  | OpRead _ lba count | OpDiscard _ lba count => 0 <= lba /\ 0 <= count /\ lba + count < 2 ^ 64
  | OpWrite _ lba count data => 0 <= lba /\ 0 <= count /\ lba + count < 2 ^ 64 /\ Z.of_nat (length data) = BLOCK_SECTOR_SIZE * count
  | OpReadBytes _ offset size => 0 <= offset /\ 0 <= size
  | OpWriteBytes _ offset _ => 0 <= offset
  | OpNodeRead node offset size => 0 <= offset /\ 0 <= size /\ head node <> Some 47
  | OpNodeWrite node offset _ => 0 <= offset /\ head node <> Some 47
  | OpNodeIoctl node _ _ _ range => head node <> Some 47 /\ forall from bytes, range = Some (from, bytes) -> 0 <= from /\ 0 <= bytes
  | _ => True
  end.

Definition block_step st st' : Prop := exists op, allowed st op /\ run_op op st = Ret st'.

(** A pointer from the registry is NULL or a located device. *)
Lemma device_cases st index : registry_ok st ->
  block_device_at st index = None \/
  exists n d u base, block_device_at st index = Some n /\ devices st !! n = Some d /\ located st d u base /\ can_read d = true.
Proof.
  intros Hr. destruct (block_device_at st index) as [n|] eqn:E; [right|by left].
  destruct (device_at _ _ _ E) as (d & Hd & _). destruct (registered_located _ _ _ Hr Hd) as (u & base & Hl).
  exists n, d, u, base. split; [done|]. split; [done|]. split; [done|]. apply (do_read _ _ (registered _ _ _ Hr Hd)).
Qed.

Lemma read_bytes_ok st n d u base offset size : devices st !! n = Some d -> located st d u base -> 0 <= offset -> 0 <= size ->
  returns (block_device_read_bytes clock st (Some n) offset size true) (fun '(status, out, st') =>
    same_registry st st' /\ same_medium st st' /\ fetched d u base (medium (hw st)) offset size [] status out).
Proof.
  intros Hd Hl Ho Hs. unfold block_device_read_bytes. cbn [negb]. rewrite (deref_device st n d Hd), bind_ret. apply read_loop_ok; done || lia.
Qed.

Lemma write_bytes_ok st n d u base offset data : devices st !! n = Some d -> located st d u base -> 0 <= offset ->
  returns (block_device_write_bytes clock st (Some n) offset (Z.of_nat (length data)) (Some data)) (fun '(status, st') =>
    same_registry st st' /\ (can_write d = false -> status = -1 /\ st' = st) /\
    written d u base (medium (hw st)) (medium (hw st')) offset data status).
Proof.
  intros Hd Hl Ho. unfold block_device_write_bytes. rewrite (deref_device st n d Hd), bind_ret.
  destruct (can_write d) eqn:Hw; cbn [negb]; [|split; [done|]; split; [done|]; right; done].
  eapply returns_mono; [apply (write_loop_ok clock d u base); done || lia|]. intros [status st'] [S W]. done.
Qed.

Lemma ioctl_keeps st node request argument copy_ok range : registry_ok st -> head node <> Some 47 ->
  (forall from bytes, range = Some (from, bytes) -> 0 <= from /\ 0 <= bytes) ->
  returns (disk_ioctl st node request argument copy_ok range) (fun '(_, st') => same_registry st st').
Proof.
  intros Hr Hn Hrange. pose proof (disk_of_ok st node Hr Hn) as Hdev. destruct (disk_of st node) as [dev| |] eqn:Ed; [|done|done].
  destruct Hdev as [[-> _]|(j & d & -> & Hd & _)]; [by unfold disk_ioctl; rewrite Ed, bind_ret|].
  destruct (registered_located _ _ _ Hr Hd) as (u & base & Hl).
  destruct (Z.eqb_spec request BLKDISCARD) as [->|Hne].
  - destruct range as [[from bytes]|]; [destruct (decide (argument = 0)) as [->|Ha]|].
    2: { destruct (Hrange _ _ eq_refl). eapply returns_mono; [by apply (ioctl_discard_ok st node j d u base)|]. intros [[r store] st'] (_ & S & _). done. }
    all: unfold disk_ioctl; rewrite Ed, bind_ret, (deref_device st j d Hd), bind_ret; cbn [Z.eqb BLKDISCARD BLKGETSIZE64 BLKGETSIZE Pos.eqb].
    all: try (by destruct (argument =? 0)). done.
  - unfold disk_ioctl. rewrite Ed, bind_ret, (deref_device st j d Hd), bind_ret, (proj2 (Z.eqb_neq _ _) Hne).
    repeat (match goal with |- context [if ?b then _ else _] => destruct b end; try done).
    eapply returns_bind; [by apply (sector_flush_ok st j d u base)|]. by intros [r st'] [S _].
Qed.

Lemma reply_keeps st r st' P : reply st r st' P -> registry_ok st'.
Proof. by intros [? _]. Qed.

(** An operation whose outcome [Q] leaves the registry as it was. *)
Lemma finish {A} st (r : res (A * block_state D)) (Q : A * block_state D -> Prop) :
  registry_ok st -> returns r Q -> (forall a st', Q (a, st') -> same_registry st st') ->
  returns ('(_, st') ← r; Ret st') (fun st' => registry_ok st').
Proof. intros Hr Hret HQ. eapply returns_bind; [done|]. intros [a st'] Ha. apply (same_registry_ok st); [by apply (HQ a)|done]. Qed.

Lemma request_keeps st op : registry_ok st -> allowed st op ->
  match op with OpRead _ _ _ | OpWrite _ _ _ _ | OpDiscard _ _ _ | OpFlush _ | OpReadBytes _ _ _ | OpWriteBytes _ _ _ => True | _ => False end ->
  returns (run_op op st) (fun st' => registry_ok st').
Proof.
  intros Hr Ha Hop. destruct op; try done; cbn [run_op allowed] in *;
    (destruct (device_cases st index Hr) as [->|(n & d & u & base & -> & Hd & Hl & Hcr)]; [done|]).
  - destruct Ha as (A1 & A2 & A3). eapply finish; [done|by apply (sector_read_ok clock st n d u base Hd Hl)|]. intros [status out] st' (S & _). exact S.
  - destruct Ha as (A1 & A2 & A3 & A4). eapply finish; [done|by apply (sector_write_ok clock st n d u base Hd Hl)|]. intros status st' (S & _). exact S.
  - destruct Ha as (A1 & A2 & A3). eapply finish; [done|by apply (sector_discard_ok st n d u base Hd Hl)|]. intros status st' (S & _). exact S.
  - eapply finish; [done|by apply (sector_flush_ok st n d u base)|]. intros status st' (S & _). exact S.
  - destruct Ha as (A1 & A2). eapply finish; [done|by apply (read_bytes_ok st n d u base)|]. intros [status out] st' (S & _). exact S.
  - eapply finish; [done|by apply (write_bytes_ok st n d u base)|]. intros status st' (S & _). exact S.
Qed.

Lemma node_keeps st op : registry_ok st -> allowed st op ->
  match op with OpNodeRead _ _ _ | OpNodeWrite _ _ _ | OpNodeIoctl _ _ _ _ _ => True | _ => False end ->
  returns (run_op op st) (fun st' => registry_ok st').
Proof.
  intros Hr Ha Hop. destruct op as [| | | | | | | | | | | | |node offset size|node offset data|node request argument copy_ok range]; try done; cbn [run_op allowed] in *.
  3: { destruct Ha as [Hn Hrange]. eapply finish; [done|by apply ioctl_keeps|]. done. }
  all: pose proof (disk_of_ok st node Hr) as Hdev; unfold disk_read, disk_write; destruct (disk_of st node) as [dev| |];
    try (cbn in Hdev; naive_solver); rewrite bind_ret.
  - destruct Hdev as [[-> _]|(j & d & -> & Hd & _)]; [naive_solver|done|]. destruct (registered_located _ _ _ Hr Hd) as (u & base & Hl).
    eapply (finish st _ (fun '(_, st') => same_registry st st')); [done| |by intros a st'].
    destruct Ha as (A1 & A2 & _). eapply returns_bind; [by apply (read_bytes_ok st j d u base)|]. intros [[status out] st'] (S & _). exact S.
  - destruct Hdev as [[-> _]|(j & d & -> & Hd & _)]; [naive_solver|done|]. destruct (registered_located _ _ _ Hr Hd) as (u & base & Hl).
    eapply (finish st _ (fun '(_, st') => same_registry st st')); [done| |by intros a st'].
    destruct Ha as (A1 & _). eapply returns_bind; [by apply (write_bytes_ok st j d u base)|]. intros [status st'] (S & _). exact S.
Qed.

Lemma run_op_ok st op : registry_ok st -> allowed st op -> returns (run_op op st) (fun st' => registry_ok st').
Proof.
  intros Hr Ha. destruct op; try (by apply request_keeps); try (by apply node_keeps); cbn [run_op allowed] in *.
  - eapply returns_bind; [by apply block_register_ok|]. intros [r st']. apply reply_keeps.
  - destruct Ha as (A1 & A2 & A3 & A4). eapply returns_bind; [by apply block_register_named_ok|]. intros [r st']. apply reply_keeps.
  - by apply set_sectors_ok.
  - destruct Ha as (A1 & A2). eapply returns_bind; [by apply register_partition_ok|]. intros [r st'] [Hp _]. by apply reply_keeps in Hp.
  - by apply select_root_ok.
  - eapply returns_mono; [by apply scan_disk_ok|]. by intros st' [? _].
  - eapply returns_mono; [by apply partition_scan_ok|]. by intros st' [? _].
Qed.

(** ** The properties *)



Lemma bytes_at_update f u at_ data : bytes_at (update f u at_ data u) at_ (Z.of_nat (length data)) = data.
Proof.
  apply list_eq. intros i. destruct (decide (i < length data)%nat).
  - rewrite lookup_bytes_at by lia. unfold update. rewrite decide_True by lia.
    rewrite list_lookup_lookup_total_lt by lia. do 2 f_equal. lia.
  - rewrite !lookup_ge_None_2; [done|lia|rewrite length_bytes_at; lia].
Qed.

(** C10. The byte requests treat a registered device as an array of bytes, at
    any offset and for any length, through whole and partial sectors: a write
    that returns 0 lies within the device and has stored exactly its data,
    every other byte of every unit unchanged; one that returns -1 has changed
    at most the sectors its range meets, inside the device; a read changes
    nothing and, when it returns 0, lies within the device and has returned its
    bytes; a read of what a successful write stored, if it succeeds, returns
    the data.  Both loops terminate. *)
Theorem block_bytes_correct st n d offset data size :
  registry_ok st -> devices st !! n = Some d -> 0 <= offset -> 0 <= size ->
  exists u base, 0 <= base /\ base + sectors d <= capacity u /\
    returns (block_device_write_bytes clock st (Some n) offset (Z.of_nat (length data)) (Some data)) (fun '(status, st') =>
      written d u base (medium (hw st)) (medium (hw st')) offset data status /\
      (status = 0 ->
        returns (block_device_read_bytes clock st' (Some n) offset (Z.of_nat (length data)) true) (fun '(again, out, _) =>
          again = 0 -> out = data))) /\
    returns (block_device_read_bytes clock st (Some n) offset size true) (fun '(status, out, st') =>
      same_medium st st' /\ fetched d u base (medium (hw st)) offset size [] status out).
Proof.
  intros Hr Hd Ho Hs. destruct (registered_located _ _ _ Hr Hd) as (u & base & Hl). exists u, base.
  destruct (located_range _ _ _ _ Hl) as (? & ? & ? & ?). split; [done|]. split; [done|]. split.
  - eapply returns_mono; [by apply (write_bytes_ok st n d u base)|]. intros [status st'] (S & _ & W). split; [done|]. intros ->.
    eapply returns_mono; [apply (read_bytes_ok st' n d u base); [by destruct S as [-> _]|by apply (located_same st)|done|lia]|].
    intros [[again out] st''] (_ & _ & F) ->. destruct W as [(_ & _ & U)|[? _]]; [|done]. destruct F as [(_ & _ & ->)|?]; [|done]. cbn [app].
    rewrite (bytes_at_ext _ (update (medium (hw st)) u (BLOCK_SECTOR_SIZE * base + offset) data u)) by (intros; apply U). apply bytes_at_update.
  - eapply returns_mono; [by apply (read_bytes_ok st n d u base)|]. intros [[status out] st'] (_ & M & F). done.
Qed.


(** C22. The device nodes: with no device of the node's name reading and writing
    return -1 and every control request -ENODEV, and nothing changes; otherwise
    they act on a device of that name.  A read returns the whole size it was
    asked for or -1, a write likewise, with the effect of the byte requests.
    BLKDISCARD refuses a range that is not whole sectors or leaves the device
    with -EINVAL (-EOPNOTSUPP without a discard function), changing nothing, and
    otherwise changes no byte outside its range, whatever the driver returns. *)
Theorem disk_node_correct st node offset size argument copy_ok from bytes :
  registry_ok st -> head node <> Some 47 -> 0 <= offset -> 0 <= size < 2 ^ 63 -> argument <> 0 -> 0 <= from -> 0 <= bytes ->
  ((forall j d, devices st !! j = Some d -> ~ holds (dev_name d) node) /\
   disk_read clock st node offset size true = Ret (-1, [], st) /\
   (forall data, disk_write clock st node offset size (Some data) = Ret (-1, st)) /\
   (forall request range, disk_ioctl st node request argument copy_ok range = Ret (- ENODEV, None, st))) \/
  (exists j d u base, devices st !! j = Some d /\ holds (dev_name d) node /\ located st d u base /\
   returns (disk_read clock st node offset size true) (fun '(r, out, st') =>
     same_medium st st' /\ (r = -1 \/ r = size /\ fetched d u base (medium (hw st)) offset size [] 0 out)) /\
   (forall data, Z.of_nat (length data) = size ->
     returns (disk_write clock st node offset size (Some data)) (fun '(r, st') =>
       (r = -1 \/ r = size) /\ written d u base (medium (hw st)) (medium (hw st')) offset data (if r =? -1 then -1 else 0))) /\
   returns (disk_ioctl st node BLKDISCARD argument copy_ok (Some (from, bytes))) (fun '(r, store, st') =>
     discard_outcome st d u base from bytes r store st')).
Proof.
  intros Hr Hn Ho Hs Ha Hf Hb. pose proof (disk_of_ok st node Hr Hn) as Hdev. unfold disk_read, disk_write.
  assert (Ei : i64 size = size) by (apply i64_small; lia). destruct (disk_of st node) as [dev| |] eqn:Ed; [|done|done]. rewrite bind_ret.
  destruct Hdev as [[-> No]|(j & d & -> & Hd & Hh)]; [left|right].
  { split; [done|]. split; [done|]. split; [done|]. intros request range. unfold disk_ioctl. by rewrite Ed, bind_ret. }
  destruct (registered_located _ _ _ Hr Hd) as (u & base & Hl). exists j, d, u, base. split; [done|]. split; [done|]. split; [done|]. split; [|split].
  - eapply returns_bind; [apply (read_bytes_ok st j d u base); done || lia|]. intros [[status out] st'] (_ & M & F). split; [done|].
    destruct (Z.eqb_spec status 0) as [->|]; [right; by rewrite Ei|by left].
  - intros data <-. rewrite bind_ret. eapply returns_bind; [by apply (write_bytes_ok st j d u base)|]. intros [status st'] (_ & _ & W).
    rewrite Ei. destruct W as [(-> & Hb' & U)|[-> K]]; cbn [Z.eqb].
    + split; [by right|]. rewrite (proj2 (Z.eqb_neq _ (-1))) by lia. by left.
    + split; [by left|]. by right.
  - by apply (ioctl_discard_ok st node j d u base).
Qed.
End operations.

(** ** Witnesses

    A disk of 4096 sectors with an MBR: partition 1 is 100 sectors from sector 16 on. *)

Definition some_memory (n : nat) : bool := true.
Definition some_clock (n : nat) : Z := Z.of_nat n.

Definition mbr_bytes (k : Z) : Z :=
  if k =? 0x1BE + 4 then 0x83 else if k =? 0x1BE + 8 then 16 else if k =? 0x1BE + 12 then 100
  else if k =? 0x1FE then 0x55 else if k =? 0x1FF then 0xAA else 0.

Definition mbr_hw : memory_disk := MemoryDisk mbr_bytes true.

Definition disk_entry (nm : list Z) : device :=
  Device (replicate 16 0) nm (-1) 4096 BLOCK_MAJOR_SD 0 true true true true (DriverContext 0).

Definition sda : device := disk_entry ([115; 100; 97] ++ replicate 13 0).

Definition one_disk : block_state memory_disk := BlockState [sda] 16 1 0 0 (Stats 0 0 0 0 0 0 0) 2 mbr_hw.

Lemma sda_placed : driver_device sda.
Proof. split; [done|]. split; [done|]. exists 0%nat. split; [done|]. cbn. unfold md_capacity. lia. Qed.

Lemma one_disk_registered : run_op some_memory some_clock (OpRegister (Some (disk_entry (replicate 16 0)))) (boot_state mbr_hw) = Ret one_disk.
Proof. reflexivity. Qed.

Lemma one_disk_run : rtc (block_step some_memory some_clock) (boot_state mbr_hw) one_disk.
Proof.
  apply rtc_once. exists (OpRegister (Some (disk_entry (replicate 16 0)))). split; [|apply one_disk_registered].
  intros d [= <-]. split; [done|]. split; [done|]. exists 0%nat. split; [done|]. cbn. unfold md_capacity. lia.
Qed.

Lemma one_disk_ok : registry_ok one_disk.
Proof.
  pose proof (run_op_ok some_memory some_clock (boot_state mbr_hw) (OpRegister (Some (disk_entry (replicate 16 0)))) (boot_ok _)) as R.
  rewrite one_disk_registered in R. apply R. intros d [= <-]. split; [done|]. split; [done|]. exists 0%nat. split; [done|]. cbn. unfold md_capacity. lia.
Qed.

Lemma one_disk_whole : tables_whole one_disk.
Proof.
  intros [|i] disk u Hi; [|done]. injection Hi as <-. intros [= <-] table_lba n entry_bytes E. exfalso. unfold gpt_header in E.
  rewrite decide_False in E; [done|]. intros (_ & Hsig & _). vm_compute in Hsig. discriminate Hsig.
Qed.



Lemma block_bytes_correct_witness :
  exists u base, returns (block_device_write_bytes some_clock one_disk (Some 0%nat) 510 3 (Some [1; 2; 3])) (fun '(status, st') =>
    written sda u base (medium (hw one_disk)) (medium (hw st')) 510 [1; 2; 3] status).
Proof.
  destruct (block_bytes_correct some_clock one_disk 0 sda 510 [1; 2; 3] 4 one_disk_ok eq_refl) as (u & base & _ & _ & W & _); [lia|lia|].
  exists u, base. eapply returns_mono; [exact W|]. intros [status st'] [R _]. exact R.
Defined.


Lemma disk_node_correct_witness :
  disk_read some_clock one_disk [115; 100; 98] 0 512 true = Ret (-1, [], one_disk).
Proof.
  destruct (disk_node_correct some_clock one_disk [115; 100; 98] 0 512 1 true 0 512 one_disk_ok) as [(_ & R & _)|(j & d & _ & _ & Hj & Hh & _)];
    try done; try lia.
Defined.

(** The scan finds the partition, with its name and place. *)
Example mbr_scanned :
  returns (partition_scan_disk some_memory one_disk 0) (fun st' =>
    map (fun d => (take 5 (dev_name d), ctx d, sectors d)) (devices st') =
    [([115; 100; 97; 0; 0], DriverContext 0, 4096); ([115; 100; 97; 49; 0], PartitionContext 0 16, 100)]).
Proof. vm_compute. reflexivity. Qed.

(** Three bytes across a sector boundary, written and read back. *)
Example bytes_written_back :
  (('(_, st) ← block_device_write_bytes some_clock one_disk (Some 0%nat) 510 3 (Some [1; 2; 3]);
    '(status, out, _) ← block_device_read_bytes some_clock st (Some 0%nat) 508 6 true;
    Ret (status, out)) : res (Z * list Z)) = Ret (0, [0; 0; 1; 2; 3; 0]).
Proof. vm_compute. reflexivity. Qed.

(** *** Where the code goes wrong

    A GPT whose entries are 16 bytes: the fields of the last entries of a sector
    are read beyond it. *)
Definition short_gpt_bytes (k : Z) : Z :=
  if (512 <=? k) && (k <? 520) then GPT_SIGNATURE !!! Z.to_nat (k - 512)
  else if k =? 512 + 72 then 2 else if k =? 512 + 80 then 32 else if k =? 512 + 84 then 16
  else if k =? 1024 + 31 * 16 then 1 else 0.

Example short_gpt_faults :
  partition_scan_disk some_memory (BlockState [sda] 16 1 0 0 (Stats 0 0 0 0 0 0 0) 2 (MemoryDisk short_gpt_bytes true)) 0 = Fault.
Proof. vm_compute. reflexivity. Qed.

(** The range check wraps: two sectors from sector 2^64 - 1 of a partition are
    the sector before it and its first. *)
Example wrapped_request :
  let part := Device (replicate 16 0) ([115; 100; 97; 49] ++ replicate 12 0) 0 100 8 1 true true true true (PartitionContext 0 1) in
  let st := BlockState [sda; part] 16 1 0 0 (Stats 0 0 0 0 0 0 0) 2 mbr_hw in
  returns (block_device_read some_clock st (Some 1%nat) (2 ^ 64 - 1) 2 true) (fun '(status, out, _) =>
    status = 0 /\ take 512 out = bytes_at mbr_bytes 0 512).
Proof. vm_compute. split; reflexivity. Qed.
