(* ===== verification/Inotify.v ===== *)
(** * File change notification (kernel/fs/inotify.c)

    Contexts with their byte ring of events, watches on their context's list
    and in their node's bucket, and the functions of inotify.c, each under the
    one lock and so one step.  Contexts and watches live in stores indexed by
    the number of the allocation that made them; a chain of [context_next] or
    [node_next] pointers is the list of the watches on it.  [mallocs] is the
    answer of kmalloc, by the number of the question. *)

From stdpp Require Import gmap.
From S2P Require Import Prelude.

Definition IN_IGNORED : Z := 0x00008000.
Definition IN_Q_OVERFLOW : Z := 0x00004000.
Definition INOTIFY_QUEUE_MIN : Z := 8192.
Definition INOTIFY_QUEUE_MAX : Z := 1024 * 1024.
Definition INOTIFY_BUCKETS : Z := 256.

(** [sizeof(struct linux_inotify_event)] *)
Definition EVENT_BYTES : Z := 16.

Record inotify_watch := Watch {
  descriptor : Z;
  w_mask : Z;
  w_node : Z;
  w_context : nat }.

Record inotify_context := Context_ {
  watches : list nat;
  queue : list Z;
  capacity : Z;
  read_position : Z;
  write_position : Z;
  queued : Z;
  next_descriptor : Z;
  overflow_reported : bool }.

Record inotify_state := InotifyState {
  contexts : gmap nat inotify_context;
  watch_store : gmap nat inotify_watch;
  node_buckets : list (list nat);
  next_cookie : Z;
  asked : nat }.

Definition set_contexts (m : gmap nat inotify_context) (st : inotify_state) : inotify_state :=
  InotifyState m (watch_store st) (node_buckets st) (next_cookie st) (asked st).
Definition set_asked (n : nat) (st : inotify_state) : inotify_state :=
  InotifyState (contexts st) (watch_store st) (node_buckets st) (next_cookie st) n.

Definition set_watches (l : list nat) (c : inotify_context) : inotify_context :=
  Context_ l (queue c) (capacity c) (read_position c) (write_position c) (queued c) (next_descriptor c) (overflow_reported c).
Definition set_overflow (b : bool) (c : inotify_context) : inotify_context :=
  Context_ (watches c) (queue c) (capacity c) (read_position c) (write_position c) (queued c) (next_descriptor c) b.

(** ** The byte ring *)

(** The index into [node_buckets]. *)
Definition node_bucket (node : Z) : Z :=
  Z.land (Z.shiftr (u64 (Z.shiftr node 4 * 0x9E3779B97F4A7C15)) 56) (INOTIFY_BUCKETS - 1).

(** A name is a C string without its terminator; [None] is NULL. *)
Definition aligned_name_length (name : option (list Z)) : Z :=
  match name with
  | None | Some [] => 0
  | Some s => Z.land (Z.of_nat (length s) + 1 + 3) (u32 (Z.lnot 3))
  end.

(** The loop of [queue_bytes]; every turn moves at least one byte. *)
Fixpoint queue_loop (fuel : nat) (c : inotify_context) (data : list Z) : res inotify_context :=
  match fuel with
  | O => Fault
  | S fuel =>
      let left := Z.of_nat (length data) in
      if left =? 0 then Ret c
      else
        let chunk := capacity c - write_position c in
        let chunk := if left <? chunk then left else chunk in
        piece ← copy_out data 0 chunk;
        q ← copy_in (queue c) (write_position c) piece;
        let c := Context_ (watches c) q (capacity c) (read_position c) ((write_position c + chunk) `mod` capacity c)
                   (queued c) (next_descriptor c) (overflow_reported c) in
        queue_loop fuel c (drop (Z.to_nat chunk) data)
  end.

Definition queue_bytes (c : inotify_context) (data : list Z) : res inotify_context :=
  c ← queue_loop (S (length data)) c data;
  Ret (Context_ (watches c) (queue c) (capacity c) (read_position c) (write_position c)
         (queued c + Z.of_nat (length data)) (next_descriptor c) (overflow_reported c)).

Fixpoint peek_loop (n : nat) (c : inotify_context) (position : Z) : res (list Z) :=
  match n with
  | O => Ret []
  | S n =>
      b ← rd (queue c) position;
      rest ← peek_loop n c ((position + 1) `mod` capacity c);
      Ret (b :: rest)
  end.

Definition peek_bytes (c : inotify_context) (offset size : Z) : res (list Z) :=
  peek_loop (Z.to_nat size) c ((read_position c + offset) `mod` capacity c).

(** [while (capacity - queued < needed && capacity < MAX) capacity *= 2]: from
    8192 on, eight doublings reach the maximum. *)
Fixpoint grown_capacity (fuel : nat) (capacity queued needed : Z) : Z :=
  match fuel with
  | O => capacity
  | S fuel =>
      if (capacity - queued <? needed) && (capacity <? INOTIFY_QUEUE_MAX)
      then grown_capacity fuel (capacity * 2) queued needed else capacity
  end.

Section inotify.
Context (mallocs : nat -> bool).

(** The bytes of a new queue beyond the copied ones are whatever kmalloc left there: zero here, and never read. *)
Definition grow_queue (n : nat) (c : inotify_context) (needed : Z) : res (bool * nat * inotify_context) :=
  let capacity_ := grown_capacity 8 (capacity c) (queued c) needed in
  if capacity_ - queued c <? needed then Ret (false, n, c)
  else if mallocs n then
    bytes ← peek_bytes c 0 (queued c);
    q ← copy_in (replicate (Z.to_nat capacity_) 0) 0 bytes;
    Ret (true, S n, Context_ (watches c) q capacity_ 0 (queued c) (queued c) (next_descriptor c) (overflow_reported c))
  else Ret (false, S n, c).

(** The bytes of [struct linux_inotify_event]. *)
Definition event_bytes (wd mask cookie length_ : Z) : list Z :=
  le_bytes 4 (u32 wd) ++ le_bytes 4 (u32 mask) ++ le_bytes 4 (u32 cookie) ++ le_bytes 4 (u32 length_).

(** [n] counts the questions to kmalloc. *)
Definition queue_event (n : nat) (c : inotify_context) (wd mask : Z) (name : option (list Z)) (cookie : Z)
  : res (Z * nat * inotify_context) :=
  let name_length := aligned_name_length name in
  let total := EVENT_BYTES + name_length in
  '(room, n, c) ← (if capacity c - queued c <? total then grow_queue n c total else Ret (true, n, c));
  if negb room then
    if negb (overflow_reported c) && (EVENT_BYTES <=? capacity c - queued c) then
      c ← queue_bytes c (event_bytes (-1) IN_Q_OVERFLOW 0 0);
      Ret (- ENOSPC, n, set_overflow true c)
    else Ret (- ENOSPC, n, c)
  else
    c ← queue_bytes c (event_bytes wd mask cookie name_length);
    if negb (name_length =? 0) then
      if 260 <? name_length then Ret (- EINVAL, n, c)
      else
        let padded := default [] name ++ replicate (Z.to_nat name_length - length (default [] name)) 0 in
        c ← queue_bytes c padded;
        Ret (0, n, c)
    else Ret (0, n, c).

(** ** Contexts and watches *)

Definition get_context (st : inotify_state) (id : nat) : res inotify_context :=
  match contexts st !! id with
  | Some c => Ret c
  | None => Fault
  end.

Definition get_watch (st : inotify_state) (id : nat) : res inotify_watch :=
  match watch_store st !! id with
  | Some w => Ret w
  | None => Fault
  end.

Definition inotify_create (st : inotify_state) : option nat * inotify_state :=
  let n := asked st in
  if negb (mallocs n) then (None, set_asked (S n) st)
  else if negb (mallocs (S n)) then (None, set_asked (S (S n)) st)
  else
    let c := Context_ [] (replicate (Z.to_nat INOTIFY_QUEUE_MIN) 0) INOTIFY_QUEUE_MIN 0 0 0 1 false in
    (Some n, set_asked (S (S n)) (set_contexts (<[n := c]> (contexts st)) st)).

(** The first occurrence leaves the list. *)
Fixpoint unlink (id : nat) (l : list nat) : list nat :=
  match l with
  | [] => []
  | x :: rest => if decide (x = id) then rest else x :: unlink id rest
  end.

Definition unlink_from_node (st : inotify_state) (id : nat) (node : Z) : res inotify_state :=
  let b := node_bucket node in
  l ← rd (node_buckets st) b;
  buckets ← wr (node_buckets st) b (unlink id l);
  Ret (InotifyState (contexts st) (watch_store st) buckets (next_cookie st) (asked st)).

Definition drop_watch (st : inotify_state) (id : nat) : res inotify_state :=
  w ← get_watch st id;
  c ← get_context st (w_context w);
  let st := set_contexts (<[w_context w := set_watches (unlink id (watches c)) c]> (contexts st)) st in
  st ← unlink_from_node st id (w_node w);
  Ret (InotifyState (contexts st) (delete id (watch_store st)) (node_buckets st) (next_cookie st) (asked st)).

(** [while (context->watches) drop_watch(context->watches)]: the fuel is one more than the watches. *)
Fixpoint drop_all (fuel : nat) (st : inotify_state) (id : nat) : res inotify_state :=
  match fuel with
  | O => Fault
  | S fuel =>
      c ← get_context st id;
      match watches c with
      | [] => Ret st
      | w :: _ => st ← drop_watch st w; drop_all fuel st id
      end
  end.

Definition inotify_destroy (st : inotify_state) (context : option nat) : res inotify_state :=
  match context with
  | None => Ret st
  | Some id =>
      c ← get_context st id;
      st ← drop_all (S (length (watches c))) st id;
      Ret (set_contexts (delete id (contexts st)) st)
  end.

(** The search of a bucket for a watch of the context on the node. *)
Fixpoint find_watch (st : inotify_state) (id : nat) (node : Z) (l : list nat) : res (option nat) :=
  match l with
  | [] => Ret None
  | x :: rest =>
      w ← get_watch st x;
      if decide (w_context w = id /\ w_node w = node) then Ret (Some x) else find_watch st id node rest
  end.

Definition inotify_add_watch (st : inotify_state) (context : option nat) (node mask : Z) : res (Z * inotify_state) :=
  match context with
  | None => Ret (- EINVAL, st)
  | Some id =>
      if (node =? 0) || (mask =? 0) then Ret (- EINVAL, st)
      else
        l ← rd (node_buckets st) (node_bucket node);
        found ← find_watch st id node l;
        match found with
        | Some x =>
            w ← get_watch st x;
            Ret (descriptor w, InotifyState (contexts st) (<[x := Watch (descriptor w) mask (w_node w) (w_context w)]> (watch_store st))
                                 (node_buckets st) (next_cookie st) (asked st))
        | None =>
            let x := asked st in
            if negb (mallocs x) then Ret (- ENOSPC, set_asked (S x) st)
            else
              c ← get_context st id;
              let w := Watch (next_descriptor c) mask node id in
              let next := i32 (next_descriptor c + 1) in
              let next := if next <=? 0 then 1 else next in
              let c := Context_ (x :: watches c) (queue c) (capacity c) (read_position c) (write_position c) (queued c)
                         next (overflow_reported c) in
              buckets ← wr (node_buckets st) (node_bucket node) (x :: l);
              Ret (descriptor w, InotifyState (<[id := c]> (contexts st)) (<[x := w]> (watch_store st)) buckets
                                   (next_cookie st) (S x))
        end
  end.

(** Queues an event on a context of the store. *)
Definition deliver (st : inotify_state) (id : nat) (wd mask : Z) (name : option (list Z)) (cookie : Z) : res inotify_state :=
  c ← get_context st id;
  '(_, n, c) ← queue_event (asked st) c wd mask name cookie;
  Ret (set_asked n (set_contexts (<[id := c]> (contexts st)) st)).

(** The search of a context's list for a descriptor. *)
Fixpoint find_descriptor (st : inotify_state) (wd : Z) (l : list nat) : res (option nat) :=
  match l with
  | [] => Ret None
  | x :: rest => w ← get_watch st x; if descriptor w =? wd then Ret (Some x) else find_descriptor st wd rest
  end.

Definition inotify_remove_watch (st : inotify_state) (context : option nat) (wd : Z) : res (Z * inotify_state) :=
  match context with
  | None => Ret (- EINVAL, st)
  | Some id =>
      if wd <=? 0 then Ret (- EINVAL, st)
      else
        c ← get_context st id;
        found ← find_descriptor st wd (watches c);
        match found with
        | None => Ret (- EINVAL, st)
        | Some x =>
            st ← deliver st id wd IN_IGNORED None 0;
            st ← drop_watch st x;
            Ret (0, st)
        end
  end.

(** The loop of [inotify_read]: [output] is what has been copied.  Every turn
    takes at least one event of 16 bytes off the queue. *)
Fixpoint read_events (fuel : nat) (c : inotify_context) (size : Z) (output : list Z) : res (Z * list Z * inotify_context) :=
  match fuel with
  | O => Fault
  | S fuel =>
      let copied := Z.of_nat (length output) in
      let finish c := Ret (copied, output, if queued c =? 0 then set_overflow false c else c) in
      if queued c <? EVENT_BYTES then finish c
      else
        event ← peek_bytes c 0 EVENT_BYTES;
        let event_size := EVENT_BYTES + le_join (slice event 12 4) in
        if (event_size <? EVENT_BYTES) || (queued c <? event_size) then
          Ret (if copied =? 0 then - EINVAL else copied, output, c)
        else if size - copied <? event_size then
          if copied =? 0 then Ret (- EINVAL, output, c) else finish c
        else
          bytes ← peek_bytes c 0 event_size;
          let c := Context_ (watches c) (queue c) (capacity c) ((read_position c + event_size) `mod` capacity c)
                     (write_position c) (queued c - event_size) (next_descriptor c) (overflow_reported c) in
          let output := output ++ bytes in
          let copied := copied + event_size in
          if copied =? size then Ret (copied, output, if queued c =? 0 then set_overflow false c else c)
          else read_events fuel c size output
  end.

(** [buffer] is [false] for NULL. *)
Definition inotify_read (st : inotify_state) (context : option nat) (size : Z) (buffer : bool) : res (Z * list Z * inotify_state) :=
  match context with
  | None => Ret (- EINVAL, [], st)
  | Some id =>
      if negb buffer then Ret (- EINVAL, [], st)
      else
        c ← get_context st id;
        if queued c =? 0 then Ret (- EAGAIN, [], st)
        else if size <? EVENT_BYTES then Ret (- EINVAL, [], st)
        else
          '(r, output, c) ← read_events (S (Z.to_nat (queued c))) c size [];
          Ret (r, output, set_contexts (<[id := c]> (contexts st)) st)
  end.

Definition inotify_read_ready (st : inotify_state) (context : option nat) : res bool :=
  match context with
  | None => Ret false
  | Some id => c ← get_context st id; Ret (negb (queued c =? 0))
  end.

Definition inotify_queued_bytes (st : inotify_state) (context : option nat) : res Z :=
  match context with
  | None => Ret 0
  | Some id => c ← get_context st id; Ret (queued c)
  end.

(** The loop of [inotify_notify] over the watches [l] of the bucket. *)
Fixpoint notify_loop (st : inotify_state) (node mask : Z) (name : option (list Z)) (cookie : Z) (l : list nat) : res inotify_state :=
  match l with
  | [] => Ret st
  | x :: rest =>
      w ← get_watch st x;
      st ← (if (w_node w =? node) && negb (Z.land (w_mask w) mask =? 0)
            then deliver st (w_context w) (descriptor w) (Z.land mask (w_mask w)) name cookie else Ret st);
      notify_loop st node mask name cookie rest
  end.

Definition inotify_notify (st : inotify_state) (node mask : Z) (name : option (list Z)) (cookie : Z) : res inotify_state :=
  if (node =? 0) || (mask =? 0) then Ret st
  else l ← rd (node_buckets st) (node_bucket node); notify_loop st node mask name cookie l.

(** The loop of [inotify_invalidate]; [next] is taken before the watch goes, so
    it runs over the bucket as it was. *)
Fixpoint invalidate_loop (st : inotify_state) (node : Z) (l : list nat) : res inotify_state :=
  match l with
  | [] => Ret st
  | x :: rest =>
      w ← get_watch st x;
      st ← (if w_node w =? node then
              st ← deliver st (w_context w) (descriptor w) IN_IGNORED None 0;
              drop_watch st x
            else Ret st);
      invalidate_loop st node rest
  end.

Definition inotify_invalidate (st : inotify_state) (node : Z) : res inotify_state :=
  if node =? 0 then Ret st
  else l ← rd (node_buckets st) (node_bucket node); invalidate_loop st node l.

Definition inotify_next_cookie (st : inotify_state) : Z * inotify_state :=
  let next := u32 (next_cookie st + 1) in
  (next_cookie st, InotifyState (contexts st) (watch_store st) (node_buckets st) (if next =? 0 then 1 else next) (asked st)).

End inotify.
