(* ===== verification/InotifyQueue.v ===== *)
(** * The event queue of an inotify context

    The byte ring of Inotify.v as the list of the bytes in it, the events it
    holds, and what [queue_event] and the loop of [inotify_read] do to them. *)

From stdpp Require Import gmap.
From S2P Require Import Prelude Inotify.

(** ** The ring *)

(** The bytes in the queue, from the read position on. *)
Definition ring (c : inotify_context) : list Z :=
  map (fun i => queue c !!! Z.to_nat ((read_position c + i) `mod` capacity c)) (seqZ 0 (queued c)).

Record ring_ok (c : inotify_context) : Prop := {
  ri_capacity : INOTIFY_QUEUE_MIN <= capacity c <= INOTIFY_QUEUE_MAX;
  ri_length : Z.of_nat (length (queue c)) = capacity c;
  ri_read : 0 <= read_position c < capacity c;
  ri_write : write_position c = (read_position c + queued c) `mod` capacity c;
  ri_queued : 0 <= queued c <= capacity c }.

(** Everything but the ring. *)
Definition same_rest (c c' : inotify_context) : Prop := watches c' = watches c /\ next_descriptor c' = next_descriptor c.

(** A position in the ring, seen from [w]. *)
Lemma ring_offset m w p : 0 <= w < m -> 0 <= p < m -> (p - w) `mod` m = if decide (w <= p) then p - w else p - w + m.
Proof.
  intros Hw Hp. case_decide.
  - apply Z.mod_small. lia.
  - rewrite <- (Z.mod_add _ 1) by lia. rewrite Z.mul_1_l. apply Z.mod_small. lia.
Qed.

Lemma length_ring c : ring_ok c -> Z.of_nat (length (ring c)) = queued c.
Proof. intros []. unfold ring. rewrite length_map, length_seqZ. lia. Qed.

Lemma lookup_ring c i : ring_ok c -> (i < Z.to_nat (queued c))%nat ->
  ring c !! i = Some (queue c !!! Z.to_nat ((read_position c + Z.of_nat i) `mod` capacity c)).
Proof. intros Hr Hi. unfold ring. rewrite list_lookup_fmap, lookup_seqZ_lt by lia. done. Qed.

(** [data] stored from the write position on, around the end of the array. *)
Lemma queue_loop_ok fuel c data : 0 <= write_position c < capacity c -> Z.of_nat (length (queue c)) = capacity c ->
  Z.of_nat (length data) <= capacity c -> (length data < fuel)%nat ->
  returns (queue_loop fuel c data) (fun c' =>
    length (queue c') = length (queue c) /\ write_position c' = (write_position c + Z.of_nat (length data)) `mod` capacity c /\
    capacity c' = capacity c /\ read_position c' = read_position c /\ queued c' = queued c /\
    overflow_reported c' = overflow_reported c /\ same_rest c c' /\
    forall p, 0 <= p < capacity c -> queue c' !!! Z.to_nat p =
      if decide ((p - write_position c) `mod` capacity c < Z.of_nat (length data))
      then data !!! Z.to_nat ((p - write_position c) `mod` capacity c) else queue c !!! Z.to_nat p).
Proof.
  revert c data. induction fuel as [|fuel IH]; intros c data Hw Hq Hd Hf; [lia|]. cbn [queue_loop].
  destruct (Z.eqb_spec (Z.of_nat (length data)) 0) as [E|Hne].
  { cbn [returns]. rewrite E, Z.add_0_r, Z.mod_small by lia. repeat split; try done. intros p Hp.
    rewrite decide_False; [done|]. pose proof (Z.mod_pos_bound (p - write_position c) (capacity c)). lia. }
  replace (if Z.of_nat (length data) <? capacity c - write_position c then Z.of_nat (length data) else capacity c - write_position c)
    with (Z.min (Z.of_nat (length data)) (capacity c - write_position c)) by (case_cmp; lia).
  set (chunk := Z.min (Z.of_nat (length data)) (capacity c - write_position c)).
  assert (Hc : 0 < chunk <= Z.of_nat (length data)) by lia.
  rewrite copy_out_in, bind_ret by lia. set (piece := slice data 0 chunk).
  assert (Hpc : Z.of_nat (length piece) = chunk) by (apply length_slice; lia).
  rewrite copy_in_in, bind_ret by lia. set (q := splice (queue c) (write_position c) piece).
  assert (Hql : length q = length (queue c)) by (apply length_splice; lia).
  assert (Q : forall p, 0 <= p < capacity c -> q !!! Z.to_nat p =
    if decide (write_position c <= p < write_position c + chunk) then data !!! Z.to_nat (p - write_position c) else queue c !!! Z.to_nat p).
  { intros p Hp. apply list_lookup_total_correct. unfold q. rewrite lookup_splice by lia.
    destruct (decide (write_position c <= p < write_position c + chunk)) as [Hin|Hout].
    - rewrite decide_True by lia. unfold piece. rewrite lookup_slice by lia. cbn [Nat.add Z.to_nat].
      rewrite list_lookup_lookup_total_lt by lia. do 2 f_equal. lia.
    - rewrite decide_False by lia. apply list_lookup_lookup_total_lt. lia. }
  eapply returns_mono; [apply IH|].
  - cbn. apply Z.mod_pos_bound. lia.
  - cbn. lia.
  - cbn. rewrite length_drop. lia.
  - cbn. rewrite length_drop. lia.
  - cbn [queue write_position capacity read_position queued overflow_reported]. rewrite length_drop.
    replace (Z.of_nat (length data - Z.to_nat chunk)) with (Z.of_nat (length data) - chunk) by lia.
    intros c' (L & W & C & R & Qd & O & S & D). rewrite Z.add_mod_idemp_l in W by lia.
    replace (write_position c + chunk + (Z.of_nat (length data) - chunk)) with (write_position c + Z.of_nat (length data)) in W by lia.
    repeat split; try done; try (by rewrite L); try apply S. intros p Hp. rewrite (D p Hp).
    rewrite (ring_offset (capacity c) (write_position c) p) by lia.
    assert (Hwc : (write_position c + chunk) `mod` capacity c = if decide (write_position c + chunk = capacity c) then 0 else write_position c + chunk).
    { case_decide as E; [rewrite E; apply Z.mod_same; lia|apply Z.mod_small; lia]. }
    rewrite Hwc, ring_offset by (case_decide; lia). rewrite lookup_total_drop, Q by done.
    repeat case_decide; try lia; try done; f_equal; lia.
Qed.

Lemma queue_bytes_ok c data : ring_ok c -> Z.of_nat (length data) <= capacity c - queued c ->
  returns (queue_bytes c data) (fun c' =>
    ring_ok c' /\ ring c' = ring c ++ data /\ capacity c' = capacity c /\ overflow_reported c' = overflow_reported c /\ same_rest c c').
Proof.
  intros Hr Hd. pose proof Hr as []. unfold INOTIFY_QUEUE_MIN in *. unfold queue_bytes.
  assert (Hw : 0 <= write_position c < capacity c) by (rewrite ri_write0; apply Z.mod_pos_bound; lia).
  eapply returns_bind; [apply queue_loop_ok; lia|]. intros c' (L & W & C & R & Q & O & S & D). cbn [returns].
  rewrite ri_write0, Z.add_mod_idemp_l in W by lia.
  match goal with |- ring_ok ?x /\ _ => assert (Hx : ring_ok x) end.
  { constructor; cbn; rewrite ?L, ?C, ?R, ?Q; try lia; unfold INOTIFY_QUEUE_MIN in *; try lia. rewrite W. f_equal. lia. }
  split; [done|]. split; [|done]. apply list_eq. intros i.
  destruct (decide (i < Z.to_nat (queued c + Z.of_nat (length data)))%nat) as [Hi|Hi].
  - rewrite lookup_ring by (done || (cbn; lia)). cbn [queue read_position capacity]. rewrite C, R, D by (apply Z.mod_pos_bound; lia).
    assert (E : ((read_position c + Z.of_nat i) `mod` capacity c - write_position c) `mod` capacity c = (Z.of_nat i - queued c) `mod` capacity c).
    { rewrite ri_write0, <- Zminus_mod. f_equal. lia. }
    rewrite E. destruct (decide (i < Z.to_nat (queued c))%nat).
    + rewrite lookup_app_l, lookup_ring by (done || (pose proof (length_ring c Hr); lia)). f_equal.
      rewrite decide_False; [done|]. rewrite <- (Z.mod_add _ 1), Z.mod_small by lia. lia.
    + pose proof (length_ring c Hr). rewrite lookup_app_r by lia. rewrite Z.mod_small by lia. rewrite decide_True by lia.
      rewrite list_lookup_lookup_total_lt by lia. do 2 f_equal. lia.
  - rewrite !lookup_ge_None_2; [done| |]; [rewrite length_app; pose proof (length_ring c Hr); lia|].
    pose proof (length_ring _ Hx) as Hlx. cbn [queued] in Hlx. lia.
Qed.

Lemma peek_loop_ok n c offset : ring_ok c -> 0 <= offset -> offset + Z.of_nat n <= queued c ->
  peek_loop n c ((read_position c + offset) `mod` capacity c) = Ret (slice (ring c) offset (Z.of_nat n)).
Proof.
  intros Hr. pose proof Hr as []. revert offset. unfold INOTIFY_QUEUE_MIN in *.
  induction n as [|n IH]; intros offset Ho Hn; cbn [peek_loop]; [done|]. pose proof (length_ring c Hr).
  pose proof (Z.mod_pos_bound (read_position c + offset) (capacity c) ltac:(lia)).
  rewrite rd_total, bind_ret by lia. rewrite Z.add_mod_idemp_l, <- Z.add_assoc, IH, bind_ret by lia. f_equal.
  unfold slice. rewrite !Nat2Z.id, (drop_S (ring c) (queue c !!! Z.to_nat ((read_position c + offset) `mod` capacity c)) (Z.to_nat offset)).
  - cbn [take]. do 3 f_equal. lia.
  - rewrite lookup_ring by (done || lia). do 2 f_equal. rewrite Z2Nat.id by lia. done.
Qed.

Lemma peek_bytes_ok c offset size : ring_ok c -> 0 <= offset -> 0 <= size -> offset + size <= queued c ->
  peek_bytes c offset size = Ret (slice (ring c) offset size).
Proof. intros. unfold peek_bytes. rewrite peek_loop_ok by (done || lia). by rewrite Z2Nat.id. Qed.

(** Eight doublings of a queue reach what is needed, or the maximum. *)
Lemma grown_capacity_ok fuel cap q needed : 0 <= q <= cap -> INOTIFY_QUEUE_MIN <= cap <= INOTIFY_QUEUE_MAX ->
  (exists k, INOTIFY_QUEUE_MAX = cap * 2 ^ Z.of_nat k) -> INOTIFY_QUEUE_MAX <= cap * 2 ^ Z.of_nat fuel ->
  cap <= grown_capacity fuel cap q needed <= INOTIFY_QUEUE_MAX /\
  (exists k, INOTIFY_QUEUE_MAX = grown_capacity fuel cap q needed * 2 ^ Z.of_nat k) /\
  (needed <= INOTIFY_QUEUE_MAX - q -> needed <= grown_capacity fuel cap q needed - q).
Proof.
  revert cap. induction fuel as [|fuel IH]; intros cap Hq Hcap Hk Hf; cbn [grown_capacity].
  { cbn in Hf. split; [lia|]. split; [done|]. lia. }
  destruct (Z.ltb_spec (cap - q) needed); cbn [andb]; [|split; [lia|]; split; [done|lia]].
  destruct (Z.ltb_spec cap INOTIFY_QUEUE_MAX); [|split; [lia|]; split; [done|lia]].
  destruct Hk as [[|k] Hk]; [cbn in Hk; lia|]. rewrite Nat2Z.inj_succ, Z.pow_succ_r in Hk by lia.
  rewrite Nat2Z.inj_succ, Z.pow_succ_r in Hf by lia.
  destruct (IH (cap * 2)) as (A & B & C); [lia|split; [lia|]|exists k; lia|lia|].
  - assert (1 <= 2 ^ Z.of_nat k) by (apply (Z.pow_le_mono_r 2 0); lia). nia.
  - split; [lia|]. split; [done|]. done.
Qed.

(** A capacity that doubling takes to the maximum. *)
Definition doubles (c : inotify_context) : Prop := exists k, INOTIFY_QUEUE_MAX = capacity c * 2 ^ Z.of_nat k.

Lemma grow_queue_ok mallocs n c needed : ring_ok c -> doubles c -> 0 < needed ->
  returns (grow_queue mallocs n c needed) (fun '(room, n', c') =>
    ring_ok c' /\ doubles c' /\ ring c' = ring c /\ overflow_reported c' = overflow_reported c /\ same_rest c c' /\ (n <= n' <= S n)%nat /\
    (room = true -> needed <= capacity c' - queued c') /\ (room = false -> c' = c) /\
    (mallocs n = true -> needed <= INOTIFY_QUEUE_MAX - queued c -> room = true)).
Proof.
  intros Hr Hk Hneed. pose proof Hr as []. unfold grow_queue.
  destruct (grown_capacity_ok 8 (capacity c) (queued c) needed) as (A & B & C); try done.
  { unfold INOTIFY_QUEUE_MAX, INOTIFY_QUEUE_MIN in *. change (Z.of_nat 8) with 8. lia. }
  set (cap := grown_capacity 8 (capacity c) (queued c) needed) in *.
  destruct (Z.ltb_spec (cap - queued c) needed) as [Hlt|Hge].
  { cbn [returns]. repeat split; try done; try lia. }
  destruct (mallocs n) eqn:Hm; [|cbn [returns]; repeat split; try done; lia].
  rewrite peek_bytes_ok, bind_ret by (done || lia). pose proof (length_ring c Hr) as Hl.
  assert (Es : slice (ring c) 0 (queued c) = ring c) by (unfold slice; rewrite drop_0, take_ge; [done|lia]). rewrite Es.
  assert (Hrep : Z.of_nat (length (replicate (Z.to_nat cap) 0)) = cap) by (rewrite length_replicate; unfold INOTIFY_QUEUE_MIN in *; lia).
  rewrite copy_in_in, bind_ret by lia. cbn [returns].
  set (q := splice (replicate (Z.to_nat cap) 0) 0 (ring c)).
  assert (Hq : Z.of_nat (length q) = cap) by (unfold q; rewrite length_splice; lia).
  match goal with |- ring_ok ?x /\ _ => assert (Hx : ring_ok x) end.
  { constructor; cbn [capacity queue read_position write_position queued]; try lia. rewrite Z.add_0_l, Z.mod_small; lia. }
  repeat split; try done; try lia; try apply Hx. apply list_eq. intros i.
  destruct (decide (i < Z.to_nat (queued c))%nat) as [Hi|Hi].
  - rewrite lookup_ring by (done || (cbn; lia)). cbn [queue read_position capacity]. rewrite Z.add_0_l, Z.mod_small, Nat2Z.id by lia.
    rewrite <- list_lookup_lookup_total_lt by lia. unfold q. rewrite lookup_splice, decide_True by lia. f_equal. lia.
  - pose proof (length_ring _ Hx) as Hlx. cbn [queued] in Hlx. rewrite !lookup_ge_None_2; [done|lia|lia].
Qed.

(** ** Events *)

Record event := Event { e_wd : Z; e_mask : Z; e_cookie : Z; e_name : list Z }.

(** An event as the bytes a reader gets. *)
Definition encode (e : event) : list Z :=
  event_bytes (e_wd e) (e_mask e) (e_cookie e) (Z.of_nat (length (e_name e))) ++ e_name e.

Definition event_size (e : event) : Z := EVENT_BYTES + Z.of_nat (length (e_name e)).
Definition event_ok (e : event) : Prop := Z.of_nat (length (e_name e)) < 2 ^ 32.

Definition overflow_event : event := Event (-1) IN_Q_OVERFLOW 0 [].

(** The name with its padding, none for an empty one. *)
Definition event_name (name : option (list Z)) : list Z :=
  match name with
  | None | Some [] => []
  | Some s => s ++ replicate (Z.to_nat (aligned_name_length name) - length s) 0
  end.

(** The longest name of a file, VFS_NAME_MAX. *)
Definition name_ok (name : option (list Z)) : Prop := (length (default [] name) <= 255)%nat.

Lemma aligned_small n : (0 < n <= 255)%nat ->
  Z.of_nat n + 1 <= Z.land (Z.of_nat n + 1 + 3) (u32 (Z.lnot 3)) <= 256.
Proof.
  intros Hn. assert (C : forallb (fun n => (Z.of_nat n + 1 <=? Z.land (Z.of_nat n + 1 + 3) (u32 (Z.lnot 3))) &&
    (Z.land (Z.of_nat n + 1 + 3) (u32 (Z.lnot 3)) <=? 256)) (seq 1 255) = true) by (vm_compute; done).
  rewrite forallb_forall in C. specialize (C n). rewrite in_seq in C. specialize (C ltac:(lia)). lia.
Qed.

Lemma length_event_name name : name_ok name -> Z.of_nat (length (event_name name)) = aligned_name_length name /\ 0 <= aligned_name_length name <= 256.
Proof.
  unfold name_ok. destruct name as [[|b s]|]; cbn [default event_name aligned_name_length]; intros Hn; [done| |done].
  pose proof (aligned_small (length (b :: s)) ltac:(cbn in *; lia)). rewrite length_app, length_replicate. lia.
Qed.

Lemma length_event_bytes wd mask cookie n : length (event_bytes wd mask cookie n) = 16%nat.
Proof. unfold event_bytes. by rewrite !length_app, !length_le_bytes. Qed.

Lemma length_encode e : Z.of_nat (length (encode e)) = event_size e.
Proof. unfold encode, event_size. rewrite length_app, length_event_bytes. unfold EVENT_BYTES. lia. Qed.

(** The length field of the first event. *)
Lemma encode_length e rest : event_ok e ->
  le_join (slice (slice (encode e ++ rest) 0 EVENT_BYTES) 12 4) = Z.of_nat (length (e_name e)).
Proof.
  intros He. unfold slice, encode. change (Z.to_nat 0) with 0%nat. change (Z.to_nat EVENT_BYTES) with 16%nat.
  rewrite drop_0, <- app_assoc, (take_app_length' (event_bytes _ _ _ _)) by (by rewrite length_event_bytes).
  unfold event_bytes. rewrite !app_assoc, drop_app_length', take_ge by (rewrite ?length_app, ?length_le_bytes; cbn; lia).
  rewrite le_join_bytes. change (2 ^ (8 * Z.of_nat 4)) with (2 ^ 32). unfold u32. rewrite Zmod_mod. apply Z.mod_small. unfold event_ok in He. lia.
Qed.

(** The context holds exactly the events [es], whole and in order. *)
Record context_ok (c : inotify_context) (es : list event) : Prop := {
  co_ring : ring_ok c;
  co_doubles : doubles c;
  co_events : ring c = concat (map encode es);
  co_sizes : Forall event_ok es }.

Lemma context_queued c es : context_ok c es -> queued c = Z.of_nat (length (concat (map encode es))).
Proof. intros []. rewrite <- co_events0. by rewrite length_ring. Qed.

(** An event appended to the bytes. *)
Lemma context_append c c' es e data :
  context_ok c es -> ring_ok c' -> capacity c' = capacity c -> ring c' = ring c ++ data -> data = encode e -> event_ok e ->
  context_ok c' (es ++ [e]).
Proof.
  intros [] Hr Hc E -> He. constructor; [done|by unfold doubles; rewrite Hc| |by apply Forall_app; split; [|apply Forall_singleton]].
  rewrite E, co_events0, map_app, concat_app. cbn. by rewrite app_nil_r.
Qed.

(** What [queue_event] does to the events. *)
Definition queue_outcome (mallocs : nat -> bool) (n : nat) (c : inotify_context) (es : list event) (e : event)
    (r : Z) (n' : nat) (c' : inotify_context) : Prop :=
  same_rest c c' /\ (n <= n' <= S n)%nat /\
  ((r = 0 /\ context_ok c' (es ++ [e]) /\ overflow_reported c' = overflow_reported c) \/
   (r = - ENOSPC /\ overflow_reported c = false /\ overflow_reported c' = true /\ context_ok c' (es ++ [overflow_event])) \/
   (r = - ENOSPC /\ (overflow_reported c = true \/ capacity c - queued c < EVENT_BYTES) /\ c' = c)) /\
  (mallocs n = true -> event_size e <= INOTIFY_QUEUE_MAX - queued c -> r = 0).

(** The header and the name go in one after the other. *)
Lemma queue_named (n : nat) c es wd mask cookie name : context_ok c es -> name_ok name ->
  EVENT_BYTES + aligned_name_length name <= capacity c - queued c ->
  returns (c ← queue_bytes c (event_bytes wd mask cookie (aligned_name_length name));
           if negb (aligned_name_length name =? 0) then
             if 260 <? aligned_name_length name then Ret (- EINVAL, n, c)
             else c ← queue_bytes c (default [] name ++ replicate (Z.to_nat (aligned_name_length name) - length (default [] name)) 0);
                  Ret (0, n, c)
           else Ret (0, n, c)) (fun '(r, n', c') =>
    r = 0 /\ n' = n /\ context_ok c' (es ++ [Event wd mask cookie (event_name name)]) /\ overflow_reported c' = overflow_reported c /\ same_rest c c').
Proof.
  intros Hc Hn Hroom. destruct (length_event_name name Hn) as [Hl Hb]. pose proof (length_event_bytes wd mask cookie (aligned_name_length name)) as H16.
  assert (He : event_ok (Event wd mask cookie (event_name name))) by (unfold event_ok; cbn [e_name]; lia).
  eapply returns_bind; [apply queue_bytes_ok; [apply Hc|unfold EVENT_BYTES in *; lia]|]. intros c1 (R1 & E1 & C1 & O1 & S1).
  destruct (Z.eqb_spec (aligned_name_length name) 0) as [Ez|Hne]; cbn [negb].
  - split; [done|]. split; [done|]. split; [|done]. apply (context_append c c1 es _ _ Hc R1 C1 E1); [|done]. unfold encode. cbn [e_wd e_mask e_cookie e_name].
    rewrite Hl. assert (event_name name = []) as -> by (apply length_zero_iff_nil; lia). by rewrite app_nil_r.
  - destruct (Z.ltb_spec 260 (aligned_name_length name)); [lia|].
    assert (En : default [] name ++ replicate (Z.to_nat (aligned_name_length name) - length (default [] name)) 0 = event_name name).
    { destruct name as [[|b s]|]; done. }
    rewrite En. pose proof (length_ring _ R1) as L1. rewrite E1, length_app in L1. pose proof (length_ring _ (co_ring _ _ Hc)) as L0.
    eapply returns_bind; [apply queue_bytes_ok; [done|unfold EVENT_BYTES in *; lia]|]. intros c2 (R2 & E2 & C2 & O2 & S2). cbn.
    split; [done|]. split; [done|]. split; [|split; [by rewrite O2|unfold same_rest in *; intuition congruence]].
    apply (context_append c c2 es _ (event_bytes wd mask cookie (aligned_name_length name) ++ event_name name) Hc R2); [by rewrite C2| | |done].
    + by rewrite E2, E1, app_assoc.
    + unfold encode. cbn [e_wd e_mask e_cookie e_name]. by rewrite Hl.
Qed.

Lemma queue_event_ok mallocs n c es wd mask name cookie : context_ok c es -> name_ok name ->
  returns (queue_event mallocs n c wd mask name cookie) (fun '(r, n', c') =>
    queue_outcome mallocs n c es (Event wd mask cookie (event_name name)) r n' c').
Proof.
  intros Hc Hn. destruct (length_event_name name Hn) as [Hl Hb]. unfold queue_event, queue_outcome.
  assert (Hsz : event_size (Event wd mask cookie (event_name name)) = EVENT_BYTES + aligned_name_length name) by (unfold event_size; cbn; lia).
  destruct (Z.ltb_spec (capacity c - queued c) (EVENT_BYTES + aligned_name_length name)) as [Hfull|Hroom].
  2: { rewrite bind_ret. cbn [negb]. eapply returns_mono; [by apply queue_named|].
       intros [[r n'] c'] (-> & -> & C & O & S). split; [done|]. split; [lia|]. split; [by left|done]. }
  eapply returns_bind; [apply grow_queue_ok; [apply Hc|apply Hc|unfold EVENT_BYTES; lia]|].
  intros [[room n1] c1] (R1 & K1 & E1 & O1 & S1 & N1 & Hyes & Hno & Hall). rewrite <- Hsz in Hall. destruct room; cbn [negb].
  - assert (Hc1 : context_ok c1 es) by (destruct Hc; constructor; try done; by rewrite E1).
    eapply returns_mono; [by apply queue_named; [|done|apply Hyes]|].
    intros [[r n'] c'] (-> & -> & C & O & S). split; [unfold same_rest in *; intuition congruence|]. split; [done|].
    split; [left; split; [done|]; split; [done|]; congruence|done].
  - specialize (Hno eq_refl) as ->. destruct (overflow_reported c) eqn:Hov; cbn [negb andb].
    { cbn. split; [done|]. split; [done|]. split; [right; right; by auto|]. intros Hm Hs. by specialize (Hall Hm Hs). }
    destruct (Z.leb_spec EVENT_BYTES (capacity c - queued c)) as [H16|Hlt].
    2: { cbn. split; [done|]. split; [done|]. split; [right; right; by auto|]. intros Hm Hs. by specialize (Hall Hm Hs). }
    eapply returns_bind; [apply queue_bytes_ok; [done|by rewrite length_event_bytes]|]. intros c2 (R2 & E2 & C2 & O2 & S2). cbn.
    split; [done|]. split; [done|]. split; [|intros Hm Hs; by specialize (Hall Hm Hs)]. right. left. split; [done|]. split; [done|]. split; [done|].
    pose proof (context_append c c2 es overflow_event _ Hc R2 C2 E2) as Hx.
    destruct Hx as [X1 X2 X3 X4]; [done|done|]. constructor; [destruct X1; by constructor|exact X2|exact X3|exact X4].
Qed.

(** ** Reading *)

Definition sizes (es : list event) : Z := Z.of_nat (length (concat (map encode es))).

(** What the loop of [inotify_read] takes: the most whole events that fit in
    [size] bytes, after the bytes already in [out]. *)
Definition read_outcome (c : inotify_context) (es : list event) (size : Z) (out : list Z)
    (r : Z) (out' : list Z) (c' : inotify_context) : Prop :=
  exists taken rest, es = taken ++ rest /\ out' = out ++ concat (map encode taken) /\ context_ok c' rest /\ same_rest c c' /\
    match rest with
    | [] => r = Z.of_nat (length out') /\ overflow_reported c' = false
    | e :: _ => size - Z.of_nat (length out') < event_size e /\ overflow_reported c' = overflow_reported c /\
        r = (if decide (out' = []) then - EINVAL else Z.of_nat (length out'))
    end.

(** Taking the first event off. *)
Lemma context_take c e es : context_ok c (e :: es) ->
  peek_bytes c 0 (event_size e) = Ret (encode e) /\
  context_ok (Context_ (watches c) (queue c) (capacity c) ((read_position c + event_size e) `mod` capacity c)
                (write_position c) (queued c - event_size e) (next_descriptor c) (overflow_reported c)) es.
Proof.
  intros Hc. pose proof Hc as [Hr Hk E Hs]. pose proof Hr as []. apply list.Forall_cons in Hs as [He Hs].
  pose proof (context_queued _ _ Hc) as Q. cbn [map concat] in E, Q. rewrite length_app in Q. pose proof (length_encode e) as Le.
  assert (0 <= event_size e) by (unfold event_size, EVENT_BYTES; lia). unfold INOTIFY_QUEUE_MIN in *. split.
  - rewrite peek_bytes_ok by (done || lia). f_equal. unfold slice. rewrite drop_0, E, take_app_length'; [done|lia].
  - match goal with |- context_ok ?x _ => assert (Hx : ring_ok x) end.
    { constructor; cbn [capacity queue read_position write_position queued]; unfold INOTIFY_QUEUE_MIN; try lia.
      - apply Z.mod_pos_bound. lia.
      - rewrite ri_write0, Z.add_mod_idemp_l by lia. f_equal. lia. }
    constructor; [done|done| |done]. apply (app_inv_head (encode e)). rewrite <- E. symmetry. apply list_eq. intros i.
    destruct (decide (i < length (encode e))%nat).
    + rewrite lookup_app_l, E, lookup_app_l by lia. done.
    + rewrite (lookup_app_r (encode e)) by lia. destruct (decide (i < Z.to_nat (queued c))%nat) as [Hi|Hi].
      * rewrite !lookup_ring by (done || (cbn [queued]; lia)). cbn [queue read_position capacity]. f_equal. f_equal. f_equal.
        rewrite Z.add_mod_idemp_l by lia. f_equal. lia.
      * pose proof (length_ring c Hr). pose proof (length_ring _ Hx) as Lx. cbn [queued] in Lx. rewrite !lookup_ge_None_2; [done|lia|lia].
Qed.

Lemma encode_nonempty e : encode e <> [].
Proof. intros E. pose proof (length_encode e) as L. rewrite E in L. unfold event_size, EVENT_BYTES in L. cbn in L. lia. Qed.

Lemma read_events_ok fuel c es size out : context_ok c es -> (length es < fuel)%nat ->
  returns (read_events fuel c size out) (fun '(r, out', c') => read_outcome c es size out r out' c').
Proof.
  revert c es out. induction fuel as [|fuel IH]; intros c es out Hc Hf; [lia|]. cbn [read_events].
  pose proof (context_queued _ _ Hc) as Q. destruct es as [|e es].
  { cbn in Q. rewrite Q. cbn [Z.ltb Z.compare EVENT_BYTES Z.eqb returns]. exists [], []. cbn [map concat]. rewrite !app_nil_r. split; [done|]. split; [done|].
    split; [destruct Hc as [[] X2 X3 X4]; by constructor; [constructor|..]|]. done. }
  destruct (context_take c e es Hc) as [Ep Hc']. cbn [map concat] in Q. rewrite length_app in Q. pose proof (length_encode e) as Le.
  assert (Hsz : EVENT_BYTES <= event_size e) by (unfold event_size; lia).
  destruct (Z.ltb_spec (queued c) EVENT_BYTES); [lia|].
  assert (He : event_ok e) by (pose proof (co_sizes _ _ Hc) as F; by apply list.Forall_cons in F as [? _]).
  rewrite (peek_bytes_ok c 0 EVENT_BYTES), bind_ret by (try apply Hc; unfold EVENT_BYTES in *; lia).
  rewrite (co_events _ _ Hc). cbn [map concat]. rewrite encode_length by done.
  change (EVENT_BYTES + Z.of_nat (length (e_name e))) with (event_size e).
  destruct (Z.ltb_spec (event_size e) EVENT_BYTES); [lia|]. destruct (Z.ltb_spec (queued c) (event_size e)); [lia|]. cbn [orb].
  destruct (Z.ltb_spec (size - Z.of_nat (length out)) (event_size e)) as [Hbig|Hfit].
  - destruct (Z.eqb_spec (queued c) 0) as [|_]; [unfold EVENT_BYTES in *; lia|].
    destruct (Z.eqb_spec (Z.of_nat (length out)) 0) as [E0|Hne0]; exists [], (e :: es); cbn [map concat]; rewrite app_nil_r; (repeat split; try done; try apply Hc).
    + rewrite decide_True; [done|]. destruct out; [done|cbn in E0; lia].
    + rewrite decide_False; [done|]. by intros ->.
  - rewrite Ep, bind_ret. set (c1 := Context_ _ _ _ _ _ _ _ _) in *.
    assert (Hl : Z.of_nat (length (out ++ encode e)) = Z.of_nat (length out) + event_size e) by (rewrite length_app; lia).
    assert (Step : forall r out' c', read_outcome c1 es size (out ++ encode e) r out' c' -> read_outcome c (e :: es) size out r out' c').
    { intros r out' c' (taken & rest & -> & -> & X & S & M). exists (e :: taken), rest. cbn [map concat]. rewrite <- app_assoc in *. done. }
    destruct (Z.eqb_spec (Z.of_nat (length out) + event_size e) size) as [Efull|Hnot].
    + apply Step. rewrite <- Hl. destruct es as [|e2 es].
      * rewrite (context_queued _ _ Hc' : queued c1 = 0). cbn [Z.eqb]. exists [], []. cbn [map concat]. rewrite !app_nil_r.
        split; [done|]. split; [done|]. split; [destruct Hc' as [[] X2 X3 X4]; by constructor; [constructor|..]|]. done.
      * pose proof (context_queued _ _ Hc') as Q1. cbn [map concat] in Q1. rewrite length_app in Q1. pose proof (length_encode e2).
        assert (EVENT_BYTES <= event_size e2) by (unfold event_size; lia). unfold EVENT_BYTES in *.
        destruct (Z.eqb_spec (queued c1) 0); [lia|]. exists [], (e2 :: es). cbn [map concat]. rewrite app_nil_r. split; [done|]. split; [done|]. split; [done|]. split; [done|].
        split; [lia|]. split; [done|]. rewrite decide_False; [done|]. intros E. rewrite E in Hl. cbn in Hl. unfold EVENT_BYTES in *. lia.
    + eapply returns_mono; [apply IH; [done|cbn in Hf; lia]|]. intros [[r out'] c']. apply Step.
Qed.
