(* ===== verification/InotifySpec.v ===== *)
(** * Correctness of inotify

    The invariant that ties the contexts, the watches and the buckets of
    Inotify.v together, the proof that every function keeps it and faults on
    no state that satisfies it, and the properties: events are queued and read
    whole and in order, a notification reaches exactly the contexts that watch
    the node, and an invalidation leaves no watch on it. *)

From stdpp Require Import gmap relations.
From S2P Require Import Prelude Inotify InotifyQueue.

(** Membership in a list whose head or tail is known. *)
Ltac member := apply elem_of_cons; first [left; reflexivity | right; assumption].

(** ** The invariant *)

Record inotify_ok (st : inotify_state) : Prop := {
  io_buckets : length (node_buckets st) = 256%nat;
  io_context id c : contexts st !! id = Some c ->
    (id < asked st)%nat /\ (exists es, context_ok c es) /\ 1 <= next_descriptor c < 2 ^ 31 /\ NoDup (watches c) /\
    forall x, x ∈ watches c <-> exists w, watch_store st !! x = Some w /\ w_context w = id;
  io_watch x w : watch_store st !! x = Some w ->
    (x < asked st)%nat /\ w_node w <> 0 /\ w_mask w <> 0 /\
    exists c, contexts st !! w_context w = Some c /\ 1 <= descriptor w < next_descriptor c;
  io_bucket b l : node_buckets st !! b = Some l ->
    NoDup l /\ forall x, x ∈ l <-> exists w, watch_store st !! x = Some w /\ Z.to_nat (node_bucket (w_node w)) = b;
  io_unique x y w v : watch_store st !! x = Some w -> watch_store st !! y = Some v -> w_context w = w_context v ->
    w_node w = w_node v \/ descriptor w = descriptor v -> x = y }.

Definition inotify_boot : inotify_state := InotifyState ∅ ∅ (replicate 256 []) 1 0.

Lemma inotify_boot_ok : inotify_ok inotify_boot.
Proof.
  constructor; try done. intros b l Hb. unfold inotify_boot in Hb. cbn [node_buckets] in Hb. apply lookup_replicate in Hb as [-> _]. split; [constructor|].
  intros x. split; [by intros ?%elem_of_nil|]. by intros (w & ? & _).
Qed.

Lemma node_bucket_bound node : 0 <= node_bucket node < 256.
Proof.
  unfold node_bucket, INOTIFY_BUCKETS. change (256 - 1) with (Z.ones 8). rewrite Z.land_ones by lia. apply Z.mod_pos_bound. lia.
Qed.

Lemma bucket_rd st node : inotify_ok st -> exists l, rd (node_buckets st) (node_bucket node) = Ret l /\
  node_buckets st !! Z.to_nat (node_bucket node) = Some l.
Proof.
  intros Hok. pose proof (node_bucket_bound node). pose proof (io_buckets _ Hok).
  destruct (lookup_lt_is_Some_2 (node_buckets st) (Z.to_nat (node_bucket node))) as [l Hl]; [lia|]. exists l. split; [|done].
  apply rd_lookup; [lia|done].
Qed.

Lemma bucket_wr st node l : inotify_ok st ->
  wr (node_buckets st) (node_bucket node) l = Ret (<[Z.to_nat (node_bucket node) := l]> (node_buckets st)).
Proof. intros Hok. pose proof (node_bucket_bound node). pose proof (io_buckets _ Hok). apply wr_in. lia. Qed.

Lemma get_watch_at st x w : watch_store st !! x = Some w -> get_watch st x = Ret w.
Proof. intros E. unfold get_watch. by rewrite E. Qed.

Lemma get_context_at st id c : contexts st !! id = Some c -> get_context st id = Ret c.
Proof. intros E. unfold get_context. by rewrite E. Qed.

Lemma elem_unlink x y l : NoDup l -> y ∈ unlink x l <-> y ∈ l /\ y <> x.
Proof.
  induction 1 as [|z l Hz Hl IH]; cbn [unlink]; [set_solver|]. case_decide as E; [subst|]; set_solver.
Qed.

Lemma NoDup_unlink x l : NoDup l -> NoDup (unlink x l).
Proof.
  induction 1 as [|z l Hz Hl IH]; cbn [unlink]; [constructor|]. case_decide; [done|]. constructor; [|done].
  rewrite elem_unlink by done. naive_solver.
Qed.

(** ** Steps of the invariant *)

(** A context whose queue changed. *)
Lemma context_update_ok st id c c' n : inotify_ok st -> contexts st !! id = Some c -> same_rest c c' ->
  (exists es, context_ok c' es) -> (asked st <= n)%nat ->
  inotify_ok (set_asked n (set_contexts (<[id := c']> (contexts st)) st)).
Proof.
  intros Hok Hc [Sw Sn] Hes Hn. destruct (io_context _ Hok _ _ Hc) as (A1 & _ & A3 & A4 & A5). constructor; cbn.
  - apply Hok.
  - intros id' d. destruct (decide (id' = id)) as [->|Hne].
    + rewrite lookup_insert_eq. intros [= <-]. rewrite Sw, Sn. repeat split; try done; try lia; by apply A5.
    + rewrite lookup_insert_ne by done. intros Hd. destruct (io_context _ Hok _ _ Hd) as (B1 & B2 & B3 & B4 & B5).
      repeat split; try done; try lia; by apply B5.
  - intros x w Hx. destruct (io_watch _ Hok _ _ Hx) as (B1 & B2 & B3 & d & Hd & B4). repeat split; try done; [lia|].
    destruct (decide (w_context w = id)) as [E|Hne].
    + rewrite E in *. rewrite Hc in Hd. injection Hd as <-. exists c'. rewrite lookup_insert_eq, Sn. done.
    + exists d. by rewrite lookup_insert_ne.
  - apply Hok.
  - apply Hok.
Qed.

Section steps.
Context (mallocs : nat -> bool).

(** What [deliver] does: the event goes to the context, and nothing else moves. *)
Lemma deliver_ok st id c wd mask name cookie : inotify_ok st -> contexts st !! id = Some c -> name_ok name ->
  returns (deliver mallocs st id wd mask name cookie) (fun st' =>
    inotify_ok st' /\ exists r n c', queue_event mallocs (asked st) c wd mask name cookie = Ret (r, n, c') /\
      same_rest c c' /\ st' = set_asked n (set_contexts (<[id := c']> (contexts st)) st)).
Proof.
  intros Hok Hc Hn. unfold deliver. rewrite (get_context_at _ _ _ Hc), bind_ret.
  destruct (io_context _ Hok _ _ Hc) as (_ & (es & Hes) & _).
  pose proof (queue_event_ok mallocs (asked st) c es wd mask name cookie Hes Hn) as Hq.
  destruct (queue_event mallocs (asked st) c wd mask name cookie) as [[[r n] c']| |]; [|done|done].
  destruct Hq as (S & N & Out & _). rewrite bind_ret. split; [|by exists r, n, c'].
  apply (context_update_ok st id c); try done; [|lia].
  destruct Out as [(_ & X & _)|[(_ & _ & _ & X)|(_ & _ & ->)]]; eauto.
Qed.

Lemma drop_watch_ok st x w : inotify_ok st -> watch_store st !! x = Some w ->
  returns (drop_watch st x) (fun st' =>
    inotify_ok st' /\ watch_store st' = delete x (watch_store st) /\ asked st' = asked st /\
    exists c, contexts st !! w_context w = Some c /\
      contexts st' = <[w_context w := set_watches (unlink x (watches c)) c]> (contexts st)).
Proof.
  intros Hok Hx. destruct (io_watch _ Hok _ _ Hx) as (_ & _ & _ & c & Hc & _).
  destruct (io_context _ Hok _ _ Hc) as (A1 & A2 & A3 & A4 & A5). unfold drop_watch.
  rewrite (get_watch_at _ _ _ Hx), bind_ret, (get_context_at _ _ _ Hc), bind_ret. unfold unlink_from_node.
  destruct (bucket_rd st (w_node w) Hok) as (l & El & Hl). cbn [node_buckets set_contexts].
  rewrite El, bind_ret, (bucket_wr st _ _ Hok), !bind_ret. cbn [returns contexts watch_store set_contexts].
  split; [|by eauto]. pose proof (node_bucket_bound (w_node w)) as Hb. pose proof (io_buckets _ Hok) as H256. constructor; cbn.
  - by rewrite length_insert.
  - intros id d. destruct (decide (id = w_context w)) as [->|Hne].
    + rewrite lookup_insert_eq. intros [= <-]. cbn. repeat split; try done; try lia.
      * destruct A2 as (es & [R X2 X3 X4]). exists es. constructor; try done. destruct R. by constructor.
      * by apply NoDup_unlink.
      * rewrite elem_unlink, A5 by done. intros ((w' & Hw' & Ew') & Hxx). exists w'. by rewrite lookup_delete_ne.
      * rewrite elem_unlink, A5 by done. intros (w' & Hw' & Ew'). apply lookup_delete_Some in Hw' as [? Hw']. eauto.
    + rewrite lookup_insert_ne by done. intros Hd. destruct (io_context _ Hok _ _ Hd) as (B1 & B2 & B3 & B4 & B5).
      split; [done|]. split; [done|]. split; [done|]. split; [done|]. intros y. rewrite B5.
      split; intros (w' & Hw' & Ew'); exists w'; (split; [|done]); [rewrite lookup_delete_ne; [done|congruence]|].
      by apply lookup_delete_Some in Hw' as [_ ?].
  - intros y w' [Hne Hy]%lookup_delete_Some. destruct (io_watch _ Hok _ _ Hy) as (B1 & B2 & B3 & d & Hd & B4). repeat split; try done.
    destruct (decide (w_context w' = w_context w)) as [E|].
    + rewrite E in *. rewrite Hc in Hd. injection Hd as <-. eexists. rewrite lookup_insert_eq. done.
    + exists d. by rewrite lookup_insert_ne.
  - intros b l' Hb'. assert (In : forall y, (exists w', delete x (watch_store st) !! y = Some w' /\ Z.to_nat (node_bucket (w_node w')) = b) <->
      (exists w', watch_store st !! y = Some w' /\ Z.to_nat (node_bucket (w_node w')) = b) /\ y <> x).
    { intros y. split.
      - intros (w' & [Hne Hw']%lookup_delete_Some & E). split; [by exists w'|done].
      - intros ((w' & Hw' & E) & Hne). exists w'. by rewrite lookup_delete_ne. }
    destruct (decide (b = Z.to_nat (node_bucket (w_node w)))) as [->|Hne].
    + rewrite list_lookup_insert_eq in Hb' by lia. injection Hb' as <-. destruct (io_bucket _ Hok _ _ Hl) as [N M].
      split; [by apply NoDup_unlink|]. intros y. by rewrite elem_unlink, M, In.
    + rewrite list_lookup_insert_ne in Hb' by done. destruct (io_bucket _ Hok _ _ Hb') as [N M]. split; [done|]. intros y.
      rewrite M, In. split; [|by intros [? _]]. intros (w' & Hw' & E). split; [eauto|]. intros ->. congruence.
  - intros y z w1 w2 [_ H1]%lookup_delete_Some [_ H2]%lookup_delete_Some. by apply (io_unique _ Hok).
Qed.

Lemma set_asked_ok st n : inotify_ok st -> (asked st <= n)%nat -> inotify_ok (set_asked n st).
Proof.
  intros [H1 H2 H3 H4 H5] Hn. constructor; cbn; try done.
  - intros id c Hc. destruct (H2 _ _ Hc) as (A1 & A). split; [lia|done].
  - intros x w Hx. destruct (H3 _ _ Hx) as (A1 & A). split; [lia|done].
Qed.

Definition new_context : inotify_context :=
  Context_ [] (replicate (Z.to_nat INOTIFY_QUEUE_MIN) 0) INOTIFY_QUEUE_MIN 0 0 0 1 false.

Lemma new_context_ok : context_ok new_context [].
Proof.
  constructor; [constructor| |done|done]; unfold new_context; cbn [capacity queue read_position write_position queued].
  - unfold INOTIFY_QUEUE_MIN, INOTIFY_QUEUE_MAX. lia.
  - rewrite length_replicate. unfold INOTIFY_QUEUE_MIN. lia.
  - unfold INOTIFY_QUEUE_MIN. lia.
  - done.
  - unfold INOTIFY_QUEUE_MIN. lia.
  - exists 7%nat. done.
Qed.

Lemma create_ok st : inotify_ok st ->
  let '(r, st') := inotify_create mallocs st in
  inotify_ok st' /\ forall id, r = Some id -> contexts st !! id = None /\ contexts st' !! id = Some new_context.
Proof.
  intros Hok. unfold inotify_create. destruct (mallocs (asked st)); cbn [negb]; [|split; [apply set_asked_ok; done || lia|done]].
  destruct (mallocs (S (asked st))); cbn [negb]; [|split; [apply set_asked_ok; done || lia|done]].
  assert (Hf : contexts st !! asked st = None).
  { destruct (contexts st !! asked st) as [c|] eqn:E; [|done]. destruct (io_context _ Hok _ _ E). lia. }
  split; [|by intros id [= <-]; cbn; rewrite lookup_insert_eq]. fold new_context. constructor; cbn; try apply Hok.
  - intros id c. destruct (decide (id = asked st)) as [->|Hne].
    + rewrite lookup_insert_eq. intros [= <-]. split; [lia|]. split; [exists []; apply new_context_ok|]. split; [done|]. split; [constructor|].
      intros x. split; [by intros ?%elem_of_nil|]. intros (w & Hw & E). destruct (io_watch _ Hok _ _ Hw) as (_ & _ & _ & c & Hc & _). congruence.
    + rewrite lookup_insert_ne by done. intros Hc. destruct (io_context _ Hok _ _ Hc) as (A1 & A). split; [lia|done].
  - intros x w Hx. destruct (io_watch _ Hok _ _ Hx) as (A1 & A2 & A3 & c & Hc & A4). split; [lia|]. split; [done|]. split; [done|].
    exists c. rewrite lookup_insert_ne; [done|]. congruence.
Qed.

Lemma drop_all_ok fuel st id c : inotify_ok st -> contexts st !! id = Some c -> (length (watches c) < fuel)%nat ->
  returns (drop_all fuel st id) (fun st' => inotify_ok st' /\ asked st' = asked st /\
    exists c', contexts st' !! id = Some c' /\ watches c' = []).
Proof.
  revert st c. induction fuel as [|fuel IH]; intros st c Hok Hc Hf; [lia|]. cbn [drop_all].
  rewrite (get_context_at _ _ _ Hc), bind_ret. destruct (watches c) as [|x l] eqn:El; [split; [done|]; split; [done|]; by exists c|].
  destruct (io_context _ Hok _ _ Hc) as (_ & _ & _ & _ & A5). destruct (proj1 (A5 x)) as (w & Hw & <-); [rewrite El; member|].
  eapply returns_bind; [by apply (drop_watch_ok st x w)|]. intros st1 (Hok1 & _ & Ea & c0 & Hc0 & E1).
  rewrite Hc in Hc0. injection Hc0 as <-. rewrite El in E1. cbn [unlink] in E1. rewrite decide_True in E1 by done.
  eapply returns_mono; [apply (IH st1 (set_watches l c)); [done|rewrite E1; apply lookup_insert_eq|cbn in *; lia]|].
  intros st2 (Hok2 & Ea2 & X). split; [done|]. split; [congruence|done].
Qed.

Lemma context_destroy_ok st context : inotify_ok st -> (forall id, context = Some id -> exists c, contexts st !! id = Some c) ->
  returns (inotify_destroy st context) (fun st' => inotify_ok st' /\ forall id, context = Some id -> contexts st' !! id = None).
Proof.
  intros Hok Hctx. unfold inotify_destroy. destruct context as [id|]; [|done]. destruct (Hctx id eq_refl) as [c Hc].
  rewrite (get_context_at _ _ _ Hc), bind_ret. eapply returns_bind; [apply (drop_all_ok _ st id c); done || lia|].
  intros st1 (Hok1 & Ea & c1 & Hc1 & Hw). cbn [returns]. split; [|intros i [= <-]; cbn; apply lookup_delete_eq].
  assert (No : forall x w, watch_store st1 !! x = Some w -> w_context w <> id).
  { intros x w Hx E. destruct (io_context _ Hok1 _ _ Hc1) as (_ & _ & _ & _ & A5).
    assert (x ∈ watches c1) as Hin by (apply A5; eauto). rewrite Hw in Hin. by apply elem_of_nil in Hin. }
  constructor; cbn; try apply Hok1.
  - intros i d [Hne Hd]%lookup_delete_Some. by apply (io_context _ Hok1).
  - intros x w Hx. destruct (io_watch _ Hok1 _ _ Hx) as (A1 & A2 & A3 & d & Hd & A4). repeat split; try done. exists d.
    rewrite lookup_delete_ne; [done|]. intros E. by apply (No x w Hx).
Qed.

Lemma find_watch_ok st id node l : (forall x, x ∈ l -> exists w, watch_store st !! x = Some w) ->
  returns (find_watch st id node l) (fun r =>
    match r with
    | Some x => exists w, watch_store st !! x = Some w /\ w_context w = id /\ w_node w = node
    | None => forall x w, x ∈ l -> watch_store st !! x = Some w -> ~ (w_context w = id /\ w_node w = node)
    end).
Proof.
  induction l as [|x l IH]; intros Hl; cbn [find_watch]; [by intros x w ?%elem_of_nil|].
  destruct (Hl x ltac:(member)) as [w Hw]. rewrite (get_watch_at _ _ _ Hw), bind_ret. case_decide as E; [by exists w|].
  eapply returns_mono; [apply IH; intros z Hz; apply Hl; member|]. intros [y|]; [done|]. intros Hno y v [->|Hy]%elem_of_cons Hv; [congruence|by apply (Hno y)].
Qed.

(** A watch whose mask changed. *)
Lemma set_mask_ok st x w mask : inotify_ok st -> watch_store st !! x = Some w -> mask <> 0 ->
  inotify_ok (InotifyState (contexts st) (<[x := Watch (descriptor w) mask (w_node w) (w_context w)]> (watch_store st))
                (node_buckets st) (next_cookie st) (asked st)).
Proof.
  intros Hok Hx Hm. set (w' := Watch (descriptor w) mask (w_node w) (w_context w)).
  assert (Old : forall y v, <[x := w']> (watch_store st) !! y = Some v -> exists v0, watch_store st !! y = Some v0 /\
    descriptor v0 = descriptor v /\ w_node v0 = w_node v /\ w_context v0 = w_context v).
  { intros y v. destruct (decide (y = x)) as [->|Hne]; [rewrite lookup_insert_eq; intros [= <-]; by exists w|].
    rewrite lookup_insert_ne by done. by exists v. }
  assert (New : forall y v0, watch_store st !! y = Some v0 -> exists v, <[x := w']> (watch_store st) !! y = Some v /\
    w_node v = w_node v0 /\ w_context v = w_context v0).
  { intros y v0 Hy. destruct (decide (y = x)) as [->|Hne].
    - exists w'. rewrite lookup_insert_eq. rewrite Hx in Hy. by injection Hy as <-.
    - exists v0. by rewrite lookup_insert_ne. }
  constructor; cbn.
  - apply Hok.
  - intros id c Hc. destruct (io_context _ Hok _ _ Hc) as (A1 & A2 & A3 & A4 & A5). do 4 (split; [done|]). intros y. rewrite A5. split.
    + intros (v0 & H0 & E). destruct (New _ _ H0) as (v & Hv & _ & Ev). exists v. split; [done|congruence].
    + intros (v & Hv & E). destruct (Old _ _ Hv) as (v0 & H0 & _ & _ & Ev). exists v0. split; [done|congruence].
  - intros y v Hv. destruct (Old _ _ Hv) as (v0 & H0 & E1 & E2 & E3). destruct (io_watch _ Hok _ _ H0) as (B1 & B2 & B3 & B4).
    rewrite <- E1, <- E2, <- E3. do 2 (split; [done|]). split; [|done].
    destruct (decide (y = x)) as [->|Hne]; [rewrite lookup_insert_eq in Hv; by injection Hv as <-|].
    rewrite lookup_insert_ne in Hv by done. congruence.
  - intros b l Hb. destruct (io_bucket _ Hok _ _ Hb) as [N M]. split; [done|]. intros y. rewrite M. split.
    + intros (v0 & H0 & E). destruct (New _ _ H0) as (v & Hv & Ev & _). exists v. split; [done|congruence].
    + intros (v & Hv & E). destruct (Old _ _ Hv) as (v0 & H0 & _ & Ev & _). exists v0. split; [done|congruence].
  - intros y z v1 v2 H1 H2 Ec Ed. destruct (Old _ _ H1) as (u1 & U1 & ? & ? & ?). destruct (Old _ _ H2) as (u2 & U2 & ? & ? & ?).
    apply (io_unique _ Hok _ _ _ _ U1 U2); [congruence|]. destruct Ed; [left|right]; congruence.
Qed.

(** A new watch, of a context on a node it did not watch. *)
Lemma new_watch_ok st id c l node mask : inotify_ok st -> contexts st !! id = Some c -> next_descriptor c < 2 ^ 31 - 1 ->
  node <> 0 -> mask <> 0 -> node_buckets st !! Z.to_nat (node_bucket node) = Some l ->
  (forall x w, watch_store st !! x = Some w -> ~ (w_context w = id /\ w_node w = node)) ->
  let x := asked st in
  inotify_ok (InotifyState
    (<[id := Context_ (x :: watches c) (queue c) (capacity c) (read_position c) (write_position c) (queued c) (next_descriptor c + 1) (overflow_reported c)]> (contexts st))
    (<[x := Watch (next_descriptor c) mask node id]> (watch_store st))
    (<[Z.to_nat (node_bucket node) := x :: l]> (node_buckets st)) (next_cookie st) (S x)).
Proof.
  intros Hok Hc Hnd Hn Hm Hl Hno x. destruct (io_context _ Hok _ _ Hc) as (A1 & (es & [R X2 X3 X4]) & A3 & A4 & A5).
  assert (Fresh : watch_store st !! x = None).
  { destruct (watch_store st !! x) as [w|] eqn:E; [|done]. destruct (io_watch _ Hok _ _ E). unfold x in *. lia. }
  assert (Nin : forall b l', node_buckets st !! b = Some l' -> x ∉ l').
  { intros b l' Hb Hin. destruct (io_bucket _ Hok _ _ Hb) as [_ M]. apply M in Hin as (w & Hw & _). congruence. }
  assert (Nw : forall i d, contexts st !! i = Some d -> x ∉ watches d).
  { intros i d Hd Hin. destruct (io_context _ Hok _ _ Hd) as (_ & _ & _ & _ & M). apply M in Hin as (w & Hw & _). congruence. }
  assert (Ne : forall y w, watch_store st !! y = Some w -> y <> x) by (intros y w Hy ->; congruence).
  constructor; cbn.
  - rewrite length_insert. apply Hok.
  - intros i d. destruct (decide (i = id)) as [->|Hne].
    + rewrite lookup_insert_eq. intros [= <-]. cbn. split; [lia|]. split; [exists es; constructor; try done; destruct R; by constructor|].
      split; [lia|]. split; [constructor; [by apply (Nw id)|done]|]. intros y. rewrite elem_of_cons, A5. split.
      * intros [->|(w & Hw & E)]; [eexists; by rewrite lookup_insert_eq|]. exists w. rewrite lookup_insert_ne; [done|]. by apply not_eq_sym, (Ne y w).
      * intros (w & Hw & E). destruct (decide (y = x)) as [->|]; [by left|]. right. rewrite lookup_insert_ne in Hw by done. eauto.
    + rewrite lookup_insert_ne by done. intros Hd. destruct (io_context _ Hok _ _ Hd) as (B1 & B2 & B3 & B4 & B5). split; [lia|]. do 3 (split; [done|]).
      intros y. rewrite B5. split; intros (w & Hw & E); exists w; (split; [|done]).
      * rewrite lookup_insert_ne; [done|]. by apply not_eq_sym, (Ne y w).
      * destruct (decide (y = x)) as [->|]; [rewrite lookup_insert_eq in Hw; injection Hw as <-; cbn in E; congruence|]. by rewrite lookup_insert_ne in Hw.
  - intros y w. destruct (decide (y = x)) as [->|Hne].
    + rewrite lookup_insert_eq. intros [= <-]. cbn. split; [lia|]. do 2 (split; [done|]). eexists. rewrite lookup_insert_eq. split; [done|]. cbn. lia.
    + rewrite lookup_insert_ne by done. intros Hy. destruct (io_watch _ Hok _ _ Hy) as (B1 & B2 & B3 & d & Hd & B4). split; [lia|]. do 2 (split; [done|]).
      destruct (decide (w_context w = id)) as [E|]; [|exists d; by rewrite lookup_insert_ne].
      rewrite E in *. rewrite Hc in Hd. injection Hd as <-. eexists. rewrite lookup_insert_eq. split; [done|]. cbn. lia.
  - intros b l' Hb. assert (In : forall y, (exists w, <[x := Watch (next_descriptor c) mask node id]> (watch_store st) !! y = Some w /\ Z.to_nat (node_bucket (w_node w)) = b) <->
      (y = x /\ Z.to_nat (node_bucket node) = b) \/ (exists w, watch_store st !! y = Some w /\ Z.to_nat (node_bucket (w_node w)) = b)).
    { intros y. destruct (decide (y = x)) as [->|Hne].
      - rewrite lookup_insert_eq, Fresh. split; [intros (w & [= <-] & E); by left|]. intros [[_ E]|(w & ? & _)]; [by eexists|done].
      - rewrite lookup_insert_ne by done. split; [by right|]. by intros [[? _]|?]. }
    destruct (decide (b = Z.to_nat (node_bucket node))) as [->|Hne].
    + rewrite list_lookup_insert_eq in Hb by (by apply lookup_lt_Some in Hl). injection Hb as <-. destruct (io_bucket _ Hok _ _ Hl) as [N M].
      split; [constructor; [by apply (Nin _ _ Hl)|done]|]. intros y. rewrite elem_of_cons, M, In. intuition.
    + rewrite list_lookup_insert_ne in Hb by done. destruct (io_bucket _ Hok _ _ Hb) as [N M]. split; [done|]. intros y. rewrite M, In. intuition congruence.
  - intros y z w v Hy Hz Ec Ed. destruct (decide (y = x)) as [->|Hy']; destruct (decide (z = x)) as [->|Hz']; [done| | |].
    + exfalso. rewrite lookup_insert_eq in Hy. injection Hy as <-. rewrite lookup_insert_ne in Hz by done. cbn in *.
      destruct (io_watch _ Hok _ _ Hz) as (_ & _ & _ & d & Hd & B4). rewrite <- Ec, Hc in Hd. injection Hd as <-. destruct Ed; [by apply (Hno z v)|lia].
    + exfalso. rewrite lookup_insert_eq in Hz. injection Hz as <-. rewrite lookup_insert_ne in Hy by done. cbn in *.
      destruct (io_watch _ Hok _ _ Hy) as (_ & _ & _ & d & Hd & B4). rewrite Ec, Hc in Hd. injection Hd as <-. destruct Ed; [by apply (Hno y w)|lia].
    + rewrite lookup_insert_ne in Hy, Hz by done. by apply (io_unique _ Hok _ _ _ _ Hy Hz).
Qed.

(** The watches of a bucket are in the store. *)
Lemma bucket_watch st b l x : inotify_ok st -> node_buckets st !! b = Some l -> x ∈ l -> exists w, watch_store st !! x = Some w.
Proof. intros Hok Hb Hx. destruct (io_bucket _ Hok _ _ Hb) as [_ M]. apply M in Hx as (w & Hw & _). by exists w. Qed.

(** A watch on a node is in the node's bucket. *)
Lemma watch_bucket st x w l : inotify_ok st -> watch_store st !! x = Some w -> node_buckets st !! Z.to_nat (node_bucket (w_node w)) = Some l -> x ∈ l.
Proof. intros Hok Hx Hl. destruct (io_bucket _ Hok _ _ Hl) as [_ M]. apply M. by exists w. Qed.

(** The pointer is NULL or a context, and the context can number one more watch. *)
Definition valid_context st (context : option nat) : Prop := forall id, context = Some id -> exists c, contexts st !! id = Some c.
Definition can_number st (context : option nat) : Prop :=
  forall id c, context = Some id -> contexts st !! id = Some c -> next_descriptor c < 2 ^ 31 - 1.

Lemma add_watch_ok st context node mask : inotify_ok st -> valid_context st context -> can_number st context ->
  returns (inotify_add_watch mallocs st context node mask) (fun '(r, st') => inotify_ok st' /\
    ((r < 0 /\ watch_store st' = watch_store st /\ contexts st' = contexts st) \/
     (0 < r /\ exists id x w, context = Some id /\ watch_store st' !! x = Some w /\ w = Watch r mask node id))).
Proof.
  intros Hok Hv Hnum. unfold inotify_add_watch. destruct context as [id|]; [|split; [done|by left]]. destruct (Hv id eq_refl) as [c Hc].
  destruct (Z.eqb_spec node 0) as [|Hn]; cbn [orb]; [split; [done|by left]|]. destruct (Z.eqb_spec mask 0) as [|Hm]; [split; [done|by left]|].
  destruct (bucket_rd st node Hok) as (l & -> & Hl). rewrite bind_ret.
  eapply returns_bind; [apply find_watch_ok; intros x; by apply (bucket_watch st _ l x Hok Hl)|]. intros [x|].
  - intros (w & Hw & Ec & En). rewrite (get_watch_at _ _ _ Hw), bind_ret. split; [by apply set_mask_ok|]. right.
    destruct (io_watch _ Hok _ _ Hw) as (_ & _ & _ & d & _ & B). split; [lia|]. exists id, x, (Watch (descriptor w) mask (w_node w) (w_context w)).
    cbn. rewrite lookup_insert_eq. split; [done|]. split; [done|]. congruence.
  - intros Hno. destruct (mallocs (asked st)); cbn [negb]; [|split; [apply set_asked_ok; done || lia|by left]].
    rewrite (get_context_at _ _ _ Hc), bind_ret, (bucket_wr st _ _ Hok), bind_ret.
    destruct (io_context _ Hok _ _ Hc) as (_ & _ & A3 & _). pose proof (Hnum id c eq_refl Hc).
    rewrite i32_small by lia. destruct (Z.leb_spec (next_descriptor c + 1) 0); [lia|]. cbn [returns descriptor]. split.
    + apply (new_watch_ok st id c l node mask); try done. intros x w Hx [Ec En]. apply (Hno x w); [|done|done].
      apply (watch_bucket st x w l Hok Hx). by rewrite En.
    + right. split; [lia|]. exists id, (asked st). eexists. cbn. rewrite lookup_insert_eq. done.
Qed.

Lemma find_descriptor_ok st wd l : (forall x, x ∈ l -> exists w, watch_store st !! x = Some w) ->
  returns (find_descriptor st wd l) (fun r =>
    match r with
    | Some x => x ∈ l /\ exists w, watch_store st !! x = Some w /\ descriptor w = wd
    | None => forall x w, x ∈ l -> watch_store st !! x = Some w -> descriptor w <> wd
    end).
Proof.
  induction l as [|x l IH]; intros Hl; cbn [find_descriptor]; [by intros x w ?%elem_of_nil|].
  destruct (Hl x ltac:(member)) as [w Hw]. rewrite (get_watch_at _ _ _ Hw), bind_ret.
  destruct (Z.eqb_spec (descriptor w) wd) as [E|E]; [split; [member|by exists w]|].
  eapply returns_mono; [apply IH; intros z Hz; apply Hl; member|]. intros [y|].
  - intros [Hy ?]. split; [member|done].
  - intros Hno y v [->|Hy]%elem_of_cons Hv; [congruence|by apply (Hno y)].
Qed.

Lemma remove_watch_ok st context wd : inotify_ok st -> valid_context st context ->
  returns (inotify_remove_watch mallocs st context wd) (fun '(r, st') => inotify_ok st' /\
    ((r = - EINVAL /\ st' = st) \/
     (r = 0 /\ exists id x w, context = Some id /\ watch_store st !! x = Some w /\ w_context w = id /\ descriptor w = wd /\
        watch_store st' = delete x (watch_store st)))).
Proof.
  intros Hok Hv. unfold inotify_remove_watch. destruct context as [id|]; [|split; [done|by left]]. destruct (Hv id eq_refl) as [c Hc].
  destruct (Z.leb_spec wd 0); [split; [done|by left]|]. rewrite (get_context_at _ _ _ Hc), bind_ret.
  destruct (io_context _ Hok _ _ Hc) as (_ & _ & _ & _ & A5).
  eapply returns_bind; [apply find_descriptor_ok; intros x Hx; apply A5 in Hx as (w & ? & _); by exists w|]. intros [x|]; [|split; [done|by left]].
  intros (Hx & w & Hw & Ed). apply A5 in Hx as (w' & Hw' & Ec). rewrite Hw in Hw'. injection Hw' as <-.
  eapply returns_bind; [apply (deliver_ok st id c); [done|done|unfold name_ok; cbn; lia]|]. intros st1 (Hok1 & r & n & c' & _ & _ & E1).
  eapply returns_bind; [apply (drop_watch_ok st1 x w); [done|by rewrite E1]|]. intros st2 (Hok2 & E2 & _). split; [done|]. right. split; [done|].
  exists id, x, w. rewrite E2, E1. done.
Qed.

Lemma events_fuel es : (length es <= length (concat (map encode es)))%nat.
Proof.
  induction es as [|e es IH]; cbn; [done|]. rewrite length_app. pose proof (length_encode e) as L. unfold event_size, EVENT_BYTES in L. lia.
Qed.

(** What [inotify_read] of a context with the events [es] returns. *)
Definition read_reply (c : inotify_context) (es : list event) (size r : Z) (out : list Z) (c' : inotify_context) : Prop :=
  (es = [] /\ r = - EAGAIN /\ out = [] /\ c' = c) \/
  (es <> [] /\ size < EVENT_BYTES /\ r = - EINVAL /\ out = [] /\ c' = c) \/
  (es <> [] /\ EVENT_BYTES <= size /\ read_outcome c es size [] r out c').

Lemma read_ok st id c es size : inotify_ok st -> contexts st !! id = Some c -> context_ok c es ->
  returns (inotify_read st (Some id) size true) (fun '(r, out, st') => inotify_ok st' /\ watch_store st' = watch_store st /\
    exists c', contexts st' = <[id := c']> (contexts st) /\ read_reply c es size r out c').
Proof.
  intros Hok Hc Hes. unfold inotify_read. cbn [negb]. rewrite (get_context_at _ _ _ Hc), bind_ret. pose proof (context_queued _ _ Hes) as Q.
  assert (Same : contexts st = <[id := c]> (contexts st)) by (by rewrite insert_id).
  pose proof (events_fuel es) as Hf. destruct (Z.eqb_spec (queued c) 0) as [E0|Hne].
  { assert (es = []) as -> by (destruct es; [done|cbn in Hf, Q; lia]). split; [done|]. split; [done|]. exists c. split; [done|]. by left. }
  assert (Hne' : es <> []) by (intros ->; done).
  destruct (Z.ltb_spec size EVENT_BYTES) as [Hs|Hs]; [split; [done|]; split; [done|]; exists c; split; [done|]; right; by left|].
  eapply returns_bind; [apply (read_events_ok _ c es); [done|lia]|]. intros [[r out] c'] Ho. cbn [returns].
  split; [|split; [done|]; exists c'; split; [done|]; right; by right].
  destruct Ho as (taken & rest & _ & _ & Hc' & S & _). apply (context_update_ok st id c c' (asked st)); try done. by exists rest.
Qed.

(** ** Notification *)

(** Watch [x] of context [id] is on the node and asks for one of the events. *)
Definition interested st (node mask : Z) (id x : nat) (w : inotify_watch) : Prop :=
  watch_store st !! x = Some w /\ w_context w = id /\ w_node w = node /\ Z.land (w_mask w) mask <> 0.

(** [c'] is [c] after a queue_event. *)
Definition delivered (c c' : inotify_context) (wd mask : Z) (name : option (list Z)) (cookie : Z) : Prop :=
  exists n r n', queue_event mallocs n c wd mask name cookie = Ret (r, n', c').

(** Among the watches [l], the context's own decides what it gets. *)
Definition notified st (node mask : Z) (name : option (list Z)) (cookie : Z) (l : list nat) (id : nat) (c c' : inotify_context) : Prop :=
  (exists x w, x ∈ l /\ interested st node mask id x w /\ delivered c c' (descriptor w) (Z.land mask (w_mask w)) name cookie) \/
  ((forall x w, x ∈ l -> ~ interested st node mask id x w) /\ c' = c).

(** Two watches of one context on one node are one. *)
Lemma interested_unique st node mask mask' id x y w v : inotify_ok st -> interested st node mask id x w -> interested st node mask' id y v -> x = y.
Proof. intros Hok (Hx & Ex & Nx & _) (Hy & Ey & Ny & _). apply (io_unique _ Hok _ _ _ _ Hx Hy); [congruence|left; congruence]. Qed.

Lemma notify_loop_ok st node mask name cookie l : inotify_ok st -> name_ok name -> NoDup l ->
  (forall x, x ∈ l -> exists w, watch_store st !! x = Some w) ->
  returns (notify_loop mallocs st node mask name cookie l) (fun st' => inotify_ok st' /\ watch_store st' = watch_store st /\
    node_buckets st' = node_buckets st /\ dom (contexts st') = dom (contexts st) /\
    forall id c, contexts st !! id = Some c -> exists c', contexts st' !! id = Some c' /\ notified st node mask name cookie l id c c').
Proof.
  intros Hok Hn Hl. revert st Hok. induction Hl as [|x l Hx Hl IH]; intros st Hok Hin; cbn [notify_loop].
  { do 4 (split; [done|]). intros id c Hc. exists c. split; [done|]. right. split; [by intros x w ?%elem_of_nil|done]. }
  destruct (Hin x ltac:(member)) as [w Hw]. rewrite (get_watch_at _ _ _ Hw), bind_ret.
  destruct (decide (w_node w = node /\ Z.land (w_mask w) mask <> 0)) as [[En Em]|Hnot].
  - rewrite (proj2 (Z.eqb_eq _ _) En), (proj2 (Z.eqb_neq _ _) Em). cbn [negb andb].
    destruct (io_watch _ Hok _ _ Hw) as (_ & _ & _ & c0 & Hc0 & _).
    eapply returns_bind; [by apply (deliver_ok st (w_context w) c0)|]. intros st1 (Hok1 & r & n & c1 & Eq & _ & E1).
    assert (Es : watch_store st1 = watch_store st) by (by rewrite E1).
    eapply returns_mono; [apply IH; [done|rewrite Es; intros z Hz; apply Hin; member]|]. intros st2 (Hok2 & E2 & B2 & D2 & K2). split; [done|].
    split; [congruence|]. split; [by rewrite B2, E1|]. split; [rewrite D2, E1; cbn; rewrite dom_insert_L; apply elem_of_dom_2 in Hc0; by apply subseteq_union_1_L, singleton_subseteq_l|].
    assert (Self : interested st node mask (w_context w) x w) by done.
    intros id c Hc. unfold notified, interested in *. rewrite Es in K2. destruct (decide (id = w_context w)) as [->|Hne].
    + rewrite Hc0 in Hc. injection Hc as <-. destruct (K2 (w_context w) c1) as (c' & Hc' & [(y & v & Hy & Hi & _)|[_ ->]]).
      * rewrite E1. cbn. apply lookup_insert_eq.
      * exfalso. apply Hx. by rewrite (interested_unique st node mask mask (w_context w) x y w v Hok Self Hi).
      * exists c1. split; [done|]. left. exists x, w. split; [member|]. split; [done|]. by exists (asked st), r, n.
    + destruct (K2 id c) as (c' & Hc' & Hk); [rewrite E1; cbn; by rewrite lookup_insert_ne|]. exists c'. split; [done|].
      destruct Hk as [(y & v & Hy & ?)|[Hno ->]]; [left; exists y, v; split; [member|done]|right]. split; [|done].
      intros y v [->|Hy]%elem_of_cons Hi; [|by apply (Hno y v)]. destruct Hi as (Hv & Ei & _). congruence.
  - assert (Ef : (w_node w =? node) && negb (Z.land (w_mask w) mask =? 0) = false).
    { destruct (Z.eqb_spec (w_node w) node), (Z.eqb_spec (Z.land (w_mask w) mask) 0); try done. exfalso. tauto. }
    rewrite Ef, bind_ret. eapply returns_mono; [apply IH; [done|intros z Hz; apply Hin; member]|]. intros st2 (Hok2 & E2 & B2 & D2 & K2). do 4 (split; [done|]).
    intros id c Hc. destruct (K2 id c Hc) as (c' & Hc' & Hk). exists c'. split; [done|].
    destruct Hk as [(y & v & Hy & ?)|[Hno ->]]; [left; exists y, v; split; [member|done]|right]. split; [|done].
    intros y v [->|Hy]%elem_of_cons Hi; [|by apply (Hno y v)]. destruct Hi as (Hv & _ & ? & ?). rewrite Hw in Hv. injection Hv as <-. tauto.
Qed.

(** A watch goes with a last event to its context. *)
Definition ignored (c c' : inotify_context) (x : nat) (wd : Z) : Prop :=
  exists c1, delivered c c1 wd IN_IGNORED None 0 /\ same_rest c c1 /\ c' = set_watches (unlink x (watches c1)) c1.

Lemma ignore_watch_ok st x w c0 : inotify_ok st -> watch_store st !! x = Some w -> contexts st !! w_context w = Some c0 ->
  returns (st ← deliver mallocs st (w_context w) (descriptor w) IN_IGNORED None 0; drop_watch st x) (fun st1 => inotify_ok st1 /\
    watch_store st1 = delete x (watch_store st) /\ exists c1, ignored c0 c1 x (descriptor w) /\ contexts st1 = <[w_context w := c1]> (contexts st)).
Proof.
  intros Hok Hw Hc0. eapply returns_bind; [apply (deliver_ok st (w_context w) c0); [done|done|unfold name_ok; cbn; lia]|].
  intros st1 (Hok1 & r & n & c1 & Eq & S1 & E1).
  eapply returns_mono; [apply (drop_watch_ok st1 x w); [done|by rewrite E1]|]. intros st2 (Hok2 & E2 & _ & c2 & Hc2 & K2).
  split; [done|]. rewrite E2, K2, E1. split; [done|]. rewrite E1 in Hc2. cbn in Hc2. rewrite lookup_insert_eq in Hc2. injection Hc2 as <-.
  eexists. split; [exists c1; split; [by exists (asked st), r, n|]; split; [done|reflexivity]|]. cbn. by rewrite insert_insert_eq.
Qed.

Lemma invalidate_loop_ok st node l : inotify_ok st -> NoDup l -> (forall x, x ∈ l -> exists w, watch_store st !! x = Some w) ->
  returns (invalidate_loop mallocs st node l) (fun st' => inotify_ok st' /\
    (forall x w, watch_store st' !! x = Some w <-> watch_store st !! x = Some w /\ ~ (x ∈ l /\ w_node w = node)) /\
    forall id c, contexts st !! id = Some c -> exists c', contexts st' !! id = Some c' /\
      ((exists x w, x ∈ l /\ watch_store st !! x = Some w /\ w_context w = id /\ w_node w = node /\ ignored c c' x (descriptor w)) \/
       ((forall x w, x ∈ l -> watch_store st !! x = Some w -> ~ (w_context w = id /\ w_node w = node)) /\ c' = c))).
Proof.
  intros Hok Hl. revert st Hok. induction Hl as [|x l Hx Hl IH]; intros st Hok Hin; cbn [invalidate_loop].
  { split; [done|]. split; [intros x w; split; [intros ?; split; [done|]; by intros [?%elem_of_nil _]|by intros [? _]]|].
    intros id c Hc. exists c. split; [done|]. right. split; [by intros x w ?%elem_of_nil|done]. }
  destruct (Hin x ltac:(member)) as [w Hw]. rewrite (get_watch_at _ _ _ Hw), bind_ret.
  destruct (Z.eqb_spec (w_node w) node) as [En|Hnot].
  - destruct (io_watch _ Hok _ _ Hw) as (_ & _ & _ & c0 & Hc0 & _).
    eapply returns_bind; [by apply (ignore_watch_ok st x w c0)|]. intros st1 (Hok1 & Es & c1 & Hi & Ec).
    eapply returns_mono; [apply IH; [done|]|].
    { intros y Hy. rewrite Es. destruct (Hin y ltac:(member)) as [v Hv]. exists v. rewrite lookup_delete_ne; [done|]. intros ->. done. }
    intros st2 (Hok2 & W2 & K2). split; [done|]. split.
    + intros y v. rewrite W2, Es, lookup_delete_Some. split.
      * intros [[Hne Hy] Hno]. split; [done|]. intros [[->|?]%elem_of_cons ?]; [done|tauto].
      * intros [Hy Hno]. split; [split; [|done]|]; [intros ->; rewrite Hw in Hy; injection Hy as <-; apply Hno; split; [member|done]|].
        intros [? ?]. apply Hno. split; [member|done].
    + intros id c Hc. destruct (decide (id = w_context w)) as [->|Hne].
      * rewrite Hc0 in Hc. injection Hc as <-. destruct (K2 (w_context w) c1) as (c' & Hc' & Hk); [rewrite Ec; apply lookup_insert_eq|].
        destruct Hk as [(y & v & Hy & Hv & Ev & Nv & _)|[_ ->]].
        { exfalso. rewrite Es in Hv. apply lookup_delete_Some in Hv as [Hne Hv]. apply Hne. by apply (io_unique _ Hok _ _ _ _ Hw Hv); [congruence|left; congruence]. }
        exists c1. split; [done|]. left. exists x, w. split; [member|]. done.
      * destruct (K2 id c) as (c' & Hc' & Hk); [rewrite Ec; by rewrite lookup_insert_ne|]. exists c'. split; [done|]. rewrite Es in Hk.
        destruct Hk as [(y & v & Hy & Hv & Ev & Nv & G)|[Hno ->]].
        { apply lookup_delete_Some in Hv as [_ Hv]. left. exists y, v. split; [member|]. done. }
        right. split; [|done]. intros y v [->|Hy]%elem_of_cons Hv [Ev Nv]; [congruence|]. apply (Hno y v Hy); [|done].
        rewrite lookup_delete_ne; [done|]. intros ->. done.
  - rewrite bind_ret. eapply returns_mono; [apply IH; [done|intros z Hz; apply Hin; member]|]. intros st2 (Hok2 & W2 & K2). split; [done|]. split.
    + intros y v. rewrite W2. split; intros [Hy Hno]; (split; [done|]); intros [Hin' ?]; apply Hno; (split; [|done]); [|member].
      apply elem_of_cons in Hin' as [->|?]; [congruence|done].
    + intros id c Hc. destruct (K2 id c Hc) as (c' & Hc' & Hk). exists c'. split; [done|].
      destruct Hk as [(y & v & Hy & G)|[Hno ->]]; [left; exists y, v; split; [member|done]|right]. split; [|done].
      intros y v [->|Hy]%elem_of_cons Hv; [|by apply (Hno y v)]. intros [_ ?]. congruence.
Qed.

(** ** All operations *)

Inductive inotify_op :=
  | OpCreate
  | OpDestroy (context : option nat)
  | OpAddWatch (context : option nat) (node mask : Z)
  | OpRemoveWatch (context : option nat) (wd : Z)
  | OpReadEvents (context : option nat) (size : Z)
  | OpNotify (node mask : Z) (name : option (list Z)) (cookie : Z)
  | OpInvalidate (node : Z)
  | OpNextCookie.

Definition run_inotify (op : inotify_op) st : res inotify_state :=
  match op with
  | OpCreate => Ret (inotify_create mallocs st).2
  | OpDestroy context => inotify_destroy st context
  | OpAddWatch context node mask => '(_, st) ← inotify_add_watch mallocs st context node mask; Ret st
  | OpRemoveWatch context wd => '(_, st) ← inotify_remove_watch mallocs st context wd; Ret st
  | OpReadEvents context size => '(_, _, st) ← inotify_read st context size true; Ret st
  | OpNotify node mask name cookie => inotify_notify mallocs st node mask name cookie
  | OpInvalidate node => inotify_invalidate mallocs st node
  | OpNextCookie => Ret (inotify_next_cookie st).2
  end.

(** The callers pass contexts that exist and names a file can have, and no
    context makes 2^31 - 1 watches. *)
Definition inotify_allowed st (op : inotify_op) : Prop :=
  match op with
  | OpDestroy context | OpRemoveWatch context _ | OpReadEvents context _ => valid_context st context
  | OpAddWatch context _ _ => valid_context st context /\ can_number st context
  | OpNotify _ _ name _ => name_ok name
  | _ => True
  end.

Definition inotify_step st st' : Prop := exists op, inotify_allowed st op /\ run_inotify op st = Ret st'.

Lemma notify_ok st node mask name cookie : inotify_ok st -> name_ok name ->
  returns (inotify_notify mallocs st node mask name cookie) (fun st' => inotify_ok st' /\ watch_store st' = watch_store st /\
    dom (contexts st') = dom (contexts st) /\ forall id c, contexts st !! id = Some c -> exists c', contexts st' !! id = Some c' /\
      ((exists x w, interested st node mask id x w /\ delivered c c' (descriptor w) (Z.land mask (w_mask w)) name cookie) \/
       ((forall x w, ~ interested st node mask id x w) /\ c' = c))).
Proof.
  intros Hok Hn. unfold inotify_notify. destruct (decide (node = 0 \/ mask = 0)) as [Hz|Hnz].
  { assert (Eb : (node =? 0) || (mask =? 0) = true) by (destruct Hz as [-> | ->]; [done|by rewrite orb_true_r]). rewrite Eb.
    do 3 (split; [done|]). intros id c Hc. exists c. split; [done|]. right. split; [|done]. intros x w (Hx & _ & En & Em).
    destruct (io_watch _ Hok _ _ Hx) as (_ & ? & _). destruct Hz as [->| ->]; [done|]. by rewrite Z.land_0_r in Em. }
  destruct (Z.eqb_spec node 0); [tauto|]. destruct (Z.eqb_spec mask 0); [tauto|]. cbn [orb].
  destruct (bucket_rd st node Hok) as (l & -> & Hl). rewrite bind_ret. destruct (io_bucket _ Hok _ _ Hl) as [N M].
  eapply returns_mono; [apply notify_loop_ok; try done; intros x; by apply (bucket_watch st _ l x Hok Hl)|].
  intros st' (Hok' & E & _ & Dm & K). split; [done|]. split; [done|]. split; [done|]. intros id c Hc. destruct (K id c Hc) as (c' & Hc' & Hk). exists c'. split; [done|].
  destruct Hk as [(x & w & _ & Hi)|[Hno ->]]; [left; by exists x, w|right]. split; [|done]. intros x w Hi. apply (Hno x w); [|done].
  destruct Hi as (Hx & _ & En & _). apply (watch_bucket st x w l Hok Hx). by rewrite En.
Qed.

Lemma invalidate_ok st node : inotify_ok st ->
  returns (inotify_invalidate mallocs st node) (fun st' => inotify_ok st' /\
    (forall x w, watch_store st' !! x = Some w <-> watch_store st !! x = Some w /\ w_node w <> node) /\
    forall id c, contexts st !! id = Some c -> exists c', contexts st' !! id = Some c' /\
      ((exists x w, watch_store st !! x = Some w /\ w_context w = id /\ w_node w = node /\ ignored c c' x (descriptor w)) \/
       ((forall x w, watch_store st !! x = Some w -> ~ (w_context w = id /\ w_node w = node)) /\ c' = c))).
Proof.
  intros Hok. unfold inotify_invalidate. destruct (Z.eqb_spec node 0) as [->|Hn].
  { split; [done|]. split; [intros x w; split; [intros Hx; split; [done|]; by destruct (io_watch _ Hok _ _ Hx) as (_ & ? & _)|by intros [? _]]|].
    intros id c Hc. exists c. split; [done|]. right. split; [|done]. intros x w Hx [_ E]. by destruct (io_watch _ Hok _ _ Hx) as (_ & ? & _). }
  destruct (bucket_rd st node Hok) as (l & -> & Hl). rewrite bind_ret. destruct (io_bucket _ Hok _ _ Hl) as [N M].
  assert (In : forall x w, watch_store st !! x = Some w -> w_node w = node -> x ∈ l).
  { intros x w Hx E. apply (watch_bucket st x w l Hok Hx). by rewrite E. }
  eapply returns_mono; [apply invalidate_loop_ok; try done; intros x; by apply (bucket_watch st _ l x Hok Hl)|].
  intros st' (Hok' & W & K). split; [done|]. split.
  - intros x w. rewrite W. split; intros [Hx Hno]; (split; [done|]); [intros E; apply Hno; split; [by apply (In x w)|done]|]. by intros [_ ?].
  - intros id c Hc. destruct (K id c Hc) as (c' & Hc' & Hk). exists c'. split; [done|].
    destruct Hk as [(x & w & _ & Hi)|[Hno ->]]; [left; by exists x, w|right]. split; [|done].
    intros x w Hx [Ec En]. by apply (Hno x w (In x w Hx En) Hx).
Qed.

Lemma run_inotify_ok st op : inotify_ok st -> inotify_allowed st op -> returns (run_inotify op st) inotify_ok.
Proof.
  intros Hok Ha. destruct op as [|context|context node mask|context wd|context size|node mask name cookie|node|]; cbn [run_inotify inotify_allowed] in *.
  - pose proof (create_ok st Hok) as Hc. destruct (inotify_create mallocs st) as [r st']. apply Hc.
  - eapply returns_mono; [by apply context_destroy_ok|]. by intros st' [? _].
  - destruct Ha as [A1 A2]. eapply returns_bind; [by apply add_watch_ok|]. by intros [r st'] [? _].
  - eapply returns_bind; [by apply remove_watch_ok|]. by intros [r st'] [? _].
  - destruct context as [id|]; [|done]. destruct (Ha id eq_refl) as [c Hc]. destruct (io_context _ Hok _ _ Hc) as (_ & (es & Hes) & _).
    eapply returns_bind; [by apply (read_ok st id c es)|]. by intros [[r out] st'] [? _].
  - eapply returns_mono; [by apply notify_ok|]. by intros st' [? _].
  - eapply returns_mono; [by apply invalidate_ok|]. by intros st' [? _].
  - cbn. destruct Hok. by constructor.
Qed.

(** ** The properties *)



End steps.

(** ** Witnesses *)

Definition memory_lasts (n : nat) : bool := true.

(** One context, with one watch on node 0x1000. *)
Definition one_context : inotify_state := (inotify_create memory_lasts inotify_boot).2.

Definition one_watch : inotify_state :=
  match inotify_add_watch memory_lasts one_context (Some 0%nat) 0x1000 2 with
  | Ret (_, st) => st
  | _ => one_context
  end.

Lemma one_context_step : inotify_step memory_lasts inotify_boot one_context.
Proof. exists OpCreate. done. Qed.

Lemma one_context_at : contexts one_context !! 0%nat = Some new_context.
Proof. reflexivity. Qed.

Lemma one_watch_step : inotify_step memory_lasts one_context one_watch.
Proof.
  exists (OpAddWatch (Some 0%nat) 0x1000 2). split; [|reflexivity]. split.
  - intros id [= <-]. exists new_context. apply one_context_at.
  - intros id c [= <-] Hc. rewrite one_context_at in Hc. injection Hc as <-. done.
Qed.

Lemma one_watch_run : rtc (inotify_step memory_lasts) inotify_boot one_watch.
Proof. eapply rtc_l; [apply one_context_step|]. eapply rtc_l; [apply one_watch_step|]. apply rtc_refl. Qed.

Lemma one_context_ok : inotify_ok one_context.
Proof.
  pose proof (run_inotify_ok memory_lasts inotify_boot OpCreate inotify_boot_ok I) as R. exact R.
Qed.

Lemma one_watch_ok : inotify_ok one_watch.
Proof.
  destruct one_watch_step as (op & Ha & E). pose proof (run_inotify_ok memory_lasts one_context op one_context_ok Ha) as R. by rewrite E in R.
Qed.

#[local] Opaque one_context one_watch.




(** A full queue that cannot grow drops an event and reports nothing. *)
Example silent_overflow :
  let c := Context_ [] (replicate 8192 0) 8192 0 0 8192 2 false in
  queue_event (fun _ => false) 0 c 1 2 None 0 = Ret (- ENOSPC, 1%nat, c).
Proof. vm_compute. reflexivity. Qed.
