(* ===== verification/RustStd.v ===== *)
(** * What the Rust code of the kernel uses of Rust

    A [usize] or [u64] is a [Z] below [2^64], a byte a [Z] below 256, and a
    slice a list.  [Option] and [Result] are one type of outcomes; its third
    constructor marks a loop whose turns ran out, which the theorems exclude.
    Code that borrows something mutably is a function of it, and [?] leaves
    early with the borrowed state as it is then. *)

From S2P Require Import Prelude.

(** ** Outcomes and state *)

Inductive outcome (E A : Type) : Type :=
  | Ok (a : A)
  | Err (e : E)
  | Unfinished.
Arguments Ok {E A} _.
Arguments Err {E A} _.
Arguments Unfinished {E A}.

(** Code that borrows an [S] mutably and leaves early through [?]. *)
Definition rust (S E A : Type) : Type := S -> S * outcome E A.

Definition done {S E A} (a : A) : rust S E A := fun s => (s, Ok a).
Definition leave {S E A} (e : E) : rust S E A := fun s => (s, Err e).
Definition bind {S E A B} (m : rust S E A) (f : A -> rust S E B) : rust S E B := fun s =>
  match m s with
  | (s, Ok a) => f a s
  | (s, Err e) => (s, Err e)
  | (s, Unfinished) => (s, Unfinished)
  end.

(** [x.ok_or(e)?]; for functions that return [Option] the error is [tt]. *)
Definition ok_or {S E A} (o : option A) (e : E) : rust S E A := fun s =>
  (s, match o with Some a => Ok a | None => Err e end).
Definition some {S A} (o : option A) : rust S unit A := ok_or o tt.
Definition got {S E} : rust S E S := fun s => (s, Ok s).
Definition put {S E} (s : S) : rust S E unit := fun _ => (s, Ok tt).

(** [?] in a function that borrows nothing. *)
Definition and_then {E A B} (m : outcome E A) (f : A -> outcome E B) : outcome E B :=
  match m with
  | Ok a => f a
  | Err e => Err e
  | Unfinished => Unfinished
  end.

Definition or_err {E A} (o : option A) (e : E) : outcome E A :=
  match o with
  | Some a => Ok a
  | None => Err e
  end.

Declare Scope rust_scope.
Delimit Scope rust_scope with rust.
Notation "x <- m ;; k" := (bind m (fun x => k)) (at level 20, m at level 90, k at level 200) : rust_scope.
Notation "m ;;; k" := (bind m (fun _ => k)) (at level 100, k at level 200, right associativity) : rust_scope.
Notation "x <-? m ;; k" := (and_then m (fun x => k)) (at level 20, m at level 90, k at level 200) : rust_scope.
Open Scope rust_scope.

(** ** The operations of [usize] and of slices *)

Definition checked_add (a b : Z) : option Z := if a + b <? 2 ^ 64 then Some (a + b) else None.
Definition checked_sub (a b : Z) : option Z := if b <=? a then Some (a - b) else None.
Definition saturating_add (a b : Z) : Z := Z.min (a + b) UINT64_MAX.
Definition saturating_sub (a b : Z) : Z := Z.max 0 (a - b).
Definition u8_try_from (a : Z) : option Z := if a <? 2 ^ 8 then Some a else None.
Definition u16_try_from (a : Z) : option Z := if a <? 2 ^ 16 then Some a else None.

Definition len {A} (l : list A) : Z := Z.of_nat (length l).
Definition get {A} (l : list A) (i : Z) : option A := l !! Z.to_nat i.
Definition get_range {A} (l : list A) (first end_ : Z) : option (list A) :=
  if (first <=? end_) && (end_ <=? len l) then Some (slice l first (end_ - first)) else None.

Definition copy {A} (target source : list A) : list A :=
  take (length target) source ++ drop (length source) target.

(** [copy(l.get_mut(first..end_)?, source)] *)
Definition copy_range {A} (l : list A) (first end_ : Z) (source : list A) : option (list A) :=
  match get_range l first end_ with
  | Some target => Some (splice l first (copy target source))
  | None => None
  end.

Definition byte (b : Z) : Prop := 0 <= b < 256.


(** ** Slices *)

Lemma len_nonneg {A} (l : list A) : 0 <= len l.
Proof. unfold len. lia. Qed.

Lemma len_app {A} (l k : list A) : len (l ++ k) = len l + len k.
Proof. unfold len. rewrite length_app. lia. Qed.

Lemma take_splice {A} (l : list A) i m :
  0 <= i -> i + len m <= len l -> take (Z.to_nat (i + len m)) (splice l i m) = take (Z.to_nat i) l ++ m.
Proof.
  unfold len, splice. intros. rewrite app_assoc.
  rewrite take_app_length'; [done|]. rewrite length_app, length_take. lia.
Qed.

Lemma splice_all {A} (l m : list A) : len m = len l -> splice l 0 m = m.
Proof.
  unfold len, splice. intros. change (Z.to_nat 0) with 0%nat. rewrite take_0, drop_ge by lia. by rewrite app_nil_r.
Qed.

Lemma copy_whole {A} (t s : list A) : length t = length s -> copy t s = s.
Proof. intros E. unfold copy. rewrite E, firstn_all, drop_ge by lia. apply app_nil_r. Qed.

Lemma get_range_some {A} (l : list A) a b r :
  0 <= a -> get_range l a b = Some r -> a <= b /\ b <= len l /\ r = slice l a (b - a) /\ len r = b - a.
Proof.
  unfold get_range. intros Ha. destruct (Z.leb_spec a b), (Z.leb_spec b (len l)); try done.
  intros [= <-]. repeat split; try done. apply length_slice; unfold len in *; lia.
Qed.

Lemma get_range_in {A} (l : list A) a b :
  a <= b -> b <= len l -> get_range l a b = Some (slice l a (b - a)).
Proof. intros. unfold get_range. by rewrite (proj2 (Z.leb_le a b)), (proj2 (Z.leb_le b (len l))). Qed.

Lemma copy_range_some {A} (l : list A) a b s r :
  0 <= a -> len s = b - a -> copy_range l a b s = Some r -> b <= len l /\ r = splice l a s.
Proof.
  unfold copy_range. intros Ha Hs. destruct (get_range l a b) as [t|] eqn:E; [|done].
  apply get_range_some in E as (? & ? & -> & Ht); [|done]. intros [= <-].
  split; [done|]. f_equal. apply copy_whole. unfold len in *. lia.
Qed.

Lemma copy_range_in {A} (l : list A) a b s :
  0 <= a -> len s = b - a -> b <= len l -> copy_range l a b s = Some (splice l a s).
Proof.
  intros Ha Hs Hb. pose proof (len_nonneg s). unfold copy_range. rewrite get_range_in by lia.
  f_equal. f_equal. apply copy_whole. pose proof (length_slice l a (b - a)). unfold len in *. lia.
Qed.

(** A slice that begins at the cut. *)
Lemma slice_at {A} (l r k : list A) i n :
  drop (Z.to_nat i) l = r ++ k -> len r = n -> slice l i n = r.
Proof. intros E <-. unfold slice. rewrite E. apply take_app_length'. unfold len. lia. Qed.

Lemma drop_at {A} (l r k : list A) i n :
  0 <= i -> drop (Z.to_nat i) l = r ++ k -> len r = n -> drop (Z.to_nat (i + n)) l = k.
Proof.
  intros Hi E <-. unfold len. replace (Z.to_nat (i + Z.of_nat (length r))) with (Z.to_nat i + length r)%nat by lia.
  rewrite <- drop_drop, E. by apply drop_app_length'.
Qed.

Lemma drop_slice {A} (l : list A) i n :
  0 <= i -> 0 <= n -> drop (Z.to_nat i) l = slice l i n ++ drop (Z.to_nat (i + n)) l.
Proof.
  intros. unfold slice. rewrite Z2Nat.inj_add, <- drop_drop by lia. symmetry. apply take_drop.
Qed.

Lemma drop_len {A} (l r : list A) i : 0 <= i <= len l -> drop (Z.to_nat i) l = r -> len l = i + len r.
Proof. intros ? <-. unfold len in *. rewrite length_drop. lia. Qed.

Lemma slice_bytes l i n : Forall byte l -> Forall byte (slice l i n).
Proof. intros. by apply Forall_take, Forall_drop. Qed.

(** ** Running code *)

Lemma bind_ok_or {S E A B} (o : option A) (e : E) (f : A -> rust S E B) s :
  bind (ok_or o e) f s = match o with Some a => f a s | None => (s, Err e) end.
Proof. by destruct o. Qed.

Lemma bind_ok {S E A B} (m : rust S E A) (f : A -> rust S E B) s s' a :
  m s = (s', Ok a) -> bind m f s = f a s'.
Proof. intros H. unfold bind. by rewrite H. Qed.

(** [post m s P Q]: the code ends, in a state and with a result that satisfy
    [P], or in a state that satisfies [Q] when it leaves early. *)
Definition post {S E A} (r : S * outcome E A) (P : S -> A -> Prop) (Q : S -> Prop) : Prop :=
  match r with
  | (s, Ok a) => P s a
  | (s, Err _) => Q s
  | (_, Unfinished) => False
  end.

Lemma post_bind {S E A B} (m : rust S E A) (f : A -> rust S E B) s P P' Q :
  post (m s) P Q -> (forall s a, P s a -> post (f a s) P' Q) -> post (bind m f s) P' Q.
Proof. unfold bind. destruct (m s) as [s' [a|e|]]; cbn; auto. Qed.

Lemma post_or {S E A B} (o : option A) (e : E) (f : A -> rust S E B) s P Q :
  (forall a, o = Some a -> post (f a s) P Q) -> (o = None -> Q s) -> post (bind (ok_or o e) f s) P Q.
Proof. rewrite bind_ok_or. destruct o; cbn; auto. Qed.

Lemma post_mono {S E A} (r : S * outcome E A) (P P' : S -> A -> Prop) (Q Q' : S -> Prop) :
  post r P Q -> (forall s a, P s a -> P' s a) -> (forall s, Q s -> Q' s) -> post r P' Q'.
Proof. destruct r as [s [a|e|]]; cbn; auto. Qed.

Lemma checked_add_some a b c : checked_add a b = Some c -> c = a + b /\ a + b < 2 ^ 64.
Proof. unfold checked_add. case_cmp; [|done]. by intros [= <-]. Qed.

Lemma checked_add_in a b : a + b < 2 ^ 64 -> checked_add a b = Some (a + b).
Proof. intros. unfold checked_add. by rewrite (proj2 (Z.ltb_lt _ _)). Qed.

Lemma checked_sub_some a b c : checked_sub a b = Some c -> c = a - b /\ b <= a.
Proof. unfold checked_sub. case_cmp; [|done]. by intros [= <-]. Qed.

Lemma checked_sub_in a b : b <= a -> checked_sub a b = Some (a - b).
Proof. intros. unfold checked_sub. by rewrite (proj2 (Z.leb_le _ _)). Qed.

Lemma get_at (l : list Z) i x k : drop (Z.to_nat i) l = x :: k -> get l i = Some x.
Proof.
  intros E. unfold get. rewrite <- (Nat.add_0_r (Z.to_nat i)), <- lookup_drop, E. done.
Qed.

Lemma get_drop (l : list Z) i x :
  0 <= i -> get l i = Some x -> i < len l /\ drop (Z.to_nat i) l = x :: drop (Z.to_nat (i + 1)) l.
Proof.
  unfold get. intros Hi E. split; [apply lookup_lt_Some in E; unfold len; lia|].
  rewrite (drop_S _ _ _ E). f_equal. f_equal. lia.
Qed.
