(* ===== verification/Lz4.v ===== *)
(** * LZ4 block compression (kernel/rust/lz4/src/lib.rs and ffi.rs)

    The compressor and the decompressor the kernel links in from Rust, as they
    are written: every checked operation, every [?] and every slice bound. *)

From S2P Require Import Prelude RustStd.

(** ** Constants *)

Definition HASH_LOG : Z := 12.
Definition TABLE_ENTRIES : Z := 4096.
Definition MAX_INPUT : Z := 65535.
Definition MIN_MATCH : Z := 4.
Definition LAST_LITERALS : Z := 5.
Definition MF_LIMIT : Z := 12.
Definition MAX_OFFSET : Z := 65535.
Definition RUN_MASK : Z := 15.
Definition SKIP_TRIGGER : Z := 6.

Inductive Error := Malformed | OutputSize.

Definition bound (length : Z) : Z := saturating_add (saturating_add length (length / 255)) 16.

Definition read_u32 (data : list Z) (at_ : Z) : option Z :=
  match checked_add at_ 4 with
  | Some end_ => le_join <$> get_range data at_ end_
  | None => None
  end.

Definition hash (sequence : Z) : Z :=
  let mixed := Z.shiftr (u32 (sequence * 2654435761)) (32 - HASH_LOG) in
  Z.land mixed (TABLE_ENTRIES - 1).

(** ** The writer *)

Record Writer := MkWriter { buffer : list Z; at_ : Z }.

Definition writer_byte (value : Z) : rust Writer unit unit :=
  w <- got;;
  _ <- some (get (buffer w) (at_ w));;
  put (MkWriter (<[Z.to_nat (at_ w) := value]> (buffer w)) (at_ w));;;
  next <- some (checked_add (at_ w) 1);;
  put (MkWriter (<[Z.to_nat (at_ w) := value]> (buffer w)) next).

Definition writer_bytes (data : list Z) : rust Writer unit unit :=
  w <- got;;
  end_ <- some (checked_add (at_ w) (len data));;
  b <- some (copy_range (buffer w) (at_ w) end_ data);;
  put (MkWriter b end_).

Fixpoint writer_length_loop (fuel : nat) (rest : Z) : rust Writer unit unit :=
  match fuel with
  | O => fun w => (w, Unfinished)
  | S fuel =>
      if 255 <=? rest then
        writer_byte 255;;;
        rest <- some (checked_sub rest 255);;
        writer_length_loop fuel rest
      else
        b <- some (u8_try_from rest);;
        writer_byte b
  end.

(** Every turn takes 255 off [rest]. *)
Definition writer_length (rest : Z) : rust Writer unit unit := writer_length_loop (S (Z.to_nat rest)) rest.

Definition writer_sequence (literals : list Z) (offset match_length : Z) : rust Writer unit unit :=
  let literal_length := len literals in
  extra <- some (checked_sub match_length MIN_MATCH);;
  high <- some (u8_try_from (Z.min literal_length RUN_MASK));;
  low <- some (u8_try_from (Z.min extra RUN_MASK));;
  writer_byte (Z.lor (u8 (Z.shiftl high 4)) low);;;
  (if RUN_MASK <=? literal_length
   then rest <- some (checked_sub literal_length RUN_MASK);; writer_length rest
   else done tt);;;
  writer_bytes literals;;;
  offset <- some (u16_try_from offset);;
  writer_bytes (le_bytes 2 offset);;;
  (if RUN_MASK <=? extra
   then rest <- some (checked_sub extra RUN_MASK);; writer_length rest
   else done tt).

Definition writer_last (literals : list Z) : rust Writer unit unit :=
  let literal_length := len literals in
  high <- some (u8_try_from (Z.min literal_length RUN_MASK));;
  writer_byte (u8 (Z.shiftl high 4));;;
  (if RUN_MASK <=? literal_length
   then rest <- some (checked_sub literal_length RUN_MASK);; writer_length rest
   else done tt);;;
  writer_bytes literals.

(** ** Compression *)

Fixpoint common_length_loop (fuel : nat) (source : list Z) (first second limit length : Z) : option Z :=
  match fuel with
  | O => None
  | S fuel =>
      match checked_add first length, checked_add second length with
      | Some a, Some b =>
          if limit <=? b then Some length
          else
            match get source a, get source b with
            | Some x, Some y =>
                if x =? y then common_length_loop fuel source first second limit (saturating_add length 1)
                else Some length
            | _, _ => Some length
            end
      | _, _ => Some length
      end
  end.

(** Every turn moves [second + length] towards [limit]; [None] is a loop that
    runs out of turns. *)
Definition common_length (source : list Z) (first second limit : Z) : option Z :=
  common_length_loop (S (Z.to_nat limit)) source first second limit 0.

(** [while begin > anchor && origin > 0]: the match extended backwards. *)
Fixpoint extend_back (fuel : nat) (source : list Z) (anchor begin origin : Z) : option (Z * Z) :=
  match fuel with
  | O => None
  | S fuel =>
      if (anchor <? begin) && (0 <? origin) then
        match checked_sub begin 1, checked_sub origin 1 with
        | Some previous, Some earlier =>
            if decide (get source previous = get source earlier)
            then extend_back fuel source anchor previous earlier
            else Some (begin, origin)
        | _, _ => Some (begin, origin)
        end
      else Some (begin, origin)
  end.

(** What [compress] borrows: the writer of the output, and the hash table. *)
Definition work : Type := Writer * list Z.

Definition writing {A} (m : rust Writer unit A) : rust work unit A := fun s =>
  let '(w, r) := m s.1 in ((w, s.2), r).

(** A loop inside the body: its result, or no result when it does not end. *)
Definition looped {S E A} (o : option A) : rust S E A := fun s =>
  (s, match o with Some a => Ok a | None => Unfinished end).

Definition set_entry (slot value : Z) : rust work unit unit := fun s =>
  ((s.1, <[Z.to_nat slot := value]> s.2), Ok tt).

(** [if let Some(back) = position.checked_sub(2) && ...]: the bytes before the
    end of a match are entered too. *)
Definition enter_back (source : list Z) (start_limit position : Z) : rust work unit unit :=
  match checked_sub position 2 with
  | Some back =>
      if back <=? start_limit then
        match read_u32 source back with
        | Some value =>
            s <- got;;
            match get s.2 (hash value) with
            | Some _ => entry <- some (u16_try_from back);; set_entry (hash value) entry
            | None => done tt
            end
        | None => done tt
        end
      else done tt
  | None => done tt
  end.

(** The branch of the body for a match: the new [anchor], [position] and [misses]. *)
Definition take_match (source : list Z) (match_limit start_limit anchor position candidate : Z)
  : rust work unit (Z * Z * Z) :=
  reach <- looped (extend_back (S (Z.to_nat position)) source anchor position candidate);;
  let '(begin, origin) := reach in
  first <- some (checked_add origin MIN_MATCH);;
  second <- some (checked_add begin MIN_MATCH);;
  common <- looped (common_length source first second match_limit);;
  let found := saturating_add MIN_MATCH common in
  literals <- some (get_range source anchor begin);;
  offset <- some (checked_sub begin origin);;
  writing (writer_sequence literals offset found);;;
  position <- some (checked_add begin found);;
  enter_back source start_limit position;;;
  done (position, position, 0).

(** The body of [while position <= start_limit], on its [anchor], [position]
    and [misses]. *)
Definition compress_turn (source : list Z) (match_limit start_limit anchor position misses : Z)
  : rust work unit (Z * Z * Z) :=
  sequence <- some (read_u32 source position);;
  s <- got;;
  candidate <- some (get s.2 (hash sequence));;
  entry <- some (u16_try_from position);;
  set_entry (hash sequence) entry;;;
  let distance := u64 (position - candidate) in
  if (candidate <? position) && (distance <=? MAX_OFFSET) &&
     bool_decide (read_u32 source candidate = Some sequence)
  then take_match source match_limit start_limit anchor position candidate
  else
    let misses := Z.min (misses + 1) UINT32_MAX in
    let step := saturating_add 1 (Z.shiftr misses SKIP_TRIGGER) in
    position <- some (checked_add position step);;
    done (anchor, position, misses).

Fixpoint compress_loop (fuel : nat) (source : list Z) (match_limit start_limit anchor position misses : Z)
  : rust work unit Z :=
  match fuel with
  | O => fun s => (s, Unfinished)
  | S fuel =>
      if position <=? start_limit then
        next <- compress_turn source match_limit start_limit anchor position misses;;
        let '(anchor, position, misses) := next in
        compress_loop fuel source match_limit start_limit anchor position misses
      else done anchor
  end.

Definition clear_table (table : list Z) : list Z :=
  replicate (Nat.min (Z.to_nat TABLE_ENTRIES) (length table)) 0 ++ drop (Z.to_nat TABLE_ENTRIES) table.

(** Every turn of the loop moves [position] forward. *)
Definition compress_body (source : list Z) : rust work unit Z :=
  let length := len source in
  if length <=? MF_LIMIT then
    writing (writer_last source);;;
    s <- got;;
    done (at_ s.1)
  else
    s <- got;;
    put (s.1, clear_table s.2);;;
    match_limit <- some (checked_sub length LAST_LITERALS);;
    start_limit <- some (checked_sub length MF_LIMIT);;
    anchor <- compress_loop (S (List.length source)) source match_limit start_limit 0 0 0;;
    literals <- some (get_range source anchor length);;
    writing (writer_last literals);;;
    s <- got;;
    done (at_ s.1).

(** The output and the table as they are left, and the result. *)
Definition compress (source output table : list Z) : list Z * list Z * outcome unit Z :=
  if (MAX_INPUT <? len source) || (len table <? TABLE_ENTRIES) then (output, table, Err tt)
  else
    let '((w, table), r) := compress_body source (MkWriter output 0, table) in
    (buffer w, table, r).

(** ** Decompression *)

Fixpoint read_length_loop {S} (fuel : nat) (input : list Z) (at_ length : Z) : rust S Error (Z * Z) :=
  match fuel with
  | O => fun s => (s, Unfinished)
  | Datatypes.S fuel =>
      byte <- ok_or (get input at_) Malformed;;
      at_ <- ok_or (checked_add at_ 1) Malformed;;
      length <- ok_or (checked_add length byte) Malformed;;
      if byte =? 255 then read_length_loop fuel input at_ length else done (length, at_)
  end.

(** The length read and the new [at]; every turn reads one byte. *)
Definition read_length {S} (input : list Z) (at_ length : Z) : rust S Error (Z * Z) :=
  read_length_loop (Datatypes.S (List.length input)) input at_ length.

(** [split_at_mut_checked(at)], [head.get(from..from + step)],
    [copy(tail.get_mut(..step), source)]. *)
Definition copy_within (at_ from step : Z) : rust (list Z) Error unit :=
  output <- got;;
  _ <- ok_or (if at_ <=? len output then Some tt else None) Malformed;;
  source <- ok_or (get_range (take (Z.to_nat at_) output) from (saturating_add from step)) Malformed;;
  b <- ok_or (copy_range (drop (Z.to_nat at_) output) 0 step source) Malformed;;
  put (take (Z.to_nat at_) output ++ b).

Fixpoint overlap_loop (fuel : nat) (match_end offset at_ from : Z) : rust (list Z) Error unit :=
  match fuel with
  | O => fun s => (s, Unfinished)
  | S fuel =>
      if at_ <? match_end then
        let step := Z.min offset (saturating_sub match_end at_) in
        copy_within at_ from step;;;
        overlap_loop fuel match_end offset (saturating_add at_ step) (saturating_add from step)
      else done tt
  end.

(** The second half of a turn, after the literals: the match, and the next [at]
    and [out]. *)
Definition decompress_match (input : list Z) (end_ token at_ out : Z) : rust (list Z) Error (Z * Z) :=
  if (saturating_sub end_ MF_LIMIT <? out) ||
     (saturating_sub (len input) (saturating_add 3 LAST_LITERALS) <? at_)
  then leave Malformed
  else
    offset_end <- ok_or (checked_add at_ 2) Malformed;;
    offset_bytes <- ok_or (get_range input at_ offset_end) Malformed;;
    let at_ := offset_end in
    let offset := le_join offset_bytes in
    if (offset =? 0) || (out <? offset) then leave Malformed
    else
      run <- (if Z.land token 15 =? RUN_MASK then read_length input at_ (Z.land token 15)
              else done (Z.land token 15, at_));;
      let '(matched, at_) := run in
      matched <- ok_or (checked_add matched MIN_MATCH) Malformed;;
      match_end <- ok_or (checked_add out matched) Malformed;;
      if saturating_sub end_ LAST_LITERALS <? match_end then leave Malformed
      else
        from <- ok_or (checked_sub out offset) Malformed;;
        (if matched <=? offset then copy_within out from matched
         else overlap_loop (S (Z.to_nat matched)) match_end offset out from);;;
        done (at_, match_end).

(** One turn of the loop: [None] when the function returns, or the next [at]
    and [out]. *)
Definition decompress_turn (input : list Z) (end_ at_ out : Z) : rust (list Z) Error (option (Z * Z)) :=
  token <- ok_or (get input at_) Malformed;;
  at_ <- ok_or (checked_add at_ 1) Malformed;;
  run <- (if Z.shiftr token 4 =? RUN_MASK then read_length input at_ (Z.shiftr token 4)
          else done (Z.shiftr token 4, at_));;
  let '(literals, at_) := run in
  literal_end <- ok_or (checked_add at_ literals) Malformed;;
  out_end <- ok_or (checked_add out literals) Malformed;;
  source <- ok_or (get_range input at_ literal_end) Malformed;;
  output <- got;;
  output <- ok_or (copy_range output out out_end source) OutputSize;;
  put output;;;
  let at_ := literal_end in
  let out := out_end in
  if at_ =? len input then
    if out =? end_ then done None else leave OutputSize
  else
    next <- decompress_match input end_ token at_ out;;
    done (Some next).

Fixpoint decompress_loop (fuel : nat) (input : list Z) (end_ at_ out : Z) : rust (list Z) Error unit :=
  match fuel with
  | O => fun s => (s, Unfinished)
  | S fuel =>
      next <- decompress_turn input end_ at_ out;;
      match next with
      | None => done tt
      | Some (at_, out) => decompress_loop fuel input end_ at_ out
      end
  end.

(** The output as it is left, and the result; every turn reads its token. *)
Definition decompress (input output : list Z) : list Z * outcome Error unit :=
  let end_ := len output in
  if len input =? 0 then (output, Err Malformed)
  else if end_ =? 0 then (output, if decide (input = [0]) then Ok tt else Err Malformed)
  else decompress_loop (S (List.length input)) input end_ 0 0 output.

(** ** The interface to C

    A pointer is NULL or the memory from it on; the caller promises that the
    memory is as long as it says. *)

Definition isize_max : Z := 2 ^ 63 - 1.

Definition ffi_bytes (pointer : option (list Z)) (length : Z) : option (list Z) :=
  match pointer with
  | None => None
  | Some memory => if isize_max <? length then None else Some (take (Z.to_nat length) memory)
  end.

(** The memory at [output] and [table] as it is left, and the result. *)
Definition tunix_lz4_compress (source : option (list Z)) (length : Z) (output : option (list Z)) (capacity : Z)
  (table : option (list Z)) : option (list Z) * option (list Z) * outcome unit Z :=
  match ffi_bytes source length, ffi_bytes output capacity, output, table with
  | Some s, Some o, Some memory, Some t =>
      let '(o, e, r) := compress s o (take (Z.to_nat TABLE_ENTRIES) t) in
      (Some (o ++ drop (Z.to_nat capacity) memory), Some (e ++ drop (Z.to_nat TABLE_ENTRIES) t),
       match r with Ok n => Ok n | Err _ => Ok 0 | Unfinished => Unfinished end)
  | _, _, _, _ => (output, table, Ok 0)
  end.

Definition tunix_lz4_decompress (input : option (list Z)) (length : Z) (output : option (list Z)) (size : Z)
  : option (list Z) * outcome unit Z :=
  match ffi_bytes input length, ffi_bytes output size, output with
  | Some i, Some o, Some memory =>
      let '(o, r) := decompress i o in
      (Some (o ++ drop (Z.to_nat size) memory),
       match r with Ok _ => Ok 0 | Err _ => Ok (-1) | Unfinished => Unfinished end)
  | _, _, _ => (output, Ok (-1))
  end.
