(* ===== verification/Lz4Format.v ===== *)
(** * The LZ4 block format, and the decompressor

    What a block of LZ4 is: sequences of literals followed by a match into what
    precedes it, and a last run of literals, with their encoding and their
    meaning.  The decompressor accepts exactly the encodings of blocks that
    fill its output. *)

From S2P Require Import Prelude RustStd Lz4.

(** ** The format *)

Record seq := Seq { lits : list Z; off : Z; mlen : Z }.

(** A length of fifteen or more continues in bytes of 255 and one less than 255. *)
Definition length_bytes (n : Z) : list Z := replicate (Z.to_nat (n / 255)) 255 ++ [n mod 255].
Definition encode_length (n : Z) : list Z := if 15 <=? n then length_bytes (n - 15) else [].

Definition encode_seq (s : seq) : list Z :=
  [16 * Z.min (len (lits s)) 15 + Z.min (mlen s - 4) 15] ++ encode_length (len (lits s)) ++ lits s ++
  le_bytes 2 (off s) ++ encode_length (mlen s - 4).

(** The low half of the last token means nothing. *)
Definition encode_last (low : Z) (last : list Z) : list Z :=
  [16 * Z.min (len last) 15 + low] ++ encode_length (len last) ++ last.

Definition encode (ss : list seq) : list Z := concat (map encode_seq ss).

(** A match repeats what stands [off] bytes before, also what it itself has
    just written. *)
Fixpoint copy_match (l : list Z) (off : Z) (n : nat) : list Z :=
  match n with
  | O => l
  | S n =>
      let r := copy_match l off n in
      r ++ [r !!! (length r - Z.to_nat off)%nat]
  end.

Definition expand_seq (l : list Z) (s : seq) : list Z := copy_match (l ++ lits s) (off s) (Z.to_nat (mlen s)).
Definition expand (ss : list seq) : list Z := fold_left expand_seq ss [].

(** The rules of the format for a block of [end_] bytes: a match is at least
    four bytes long, begins twelve bytes before the end or earlier and stops
    five bytes before it or earlier. *)
Definition seq_valid (end_ out : Z) (s : seq) : Prop :=
  let start := out + len (lits s) in
  Forall byte (lits s) /\ 1 <= off s <= start /\ off s < 2 ^ 16 /\ start <= end_ - 12 /\
  4 <= mlen s /\ start + mlen s <= end_ - 5.

Definition seq_end (out : Z) (s : seq) : Z := out + len (lits s) + mlen s.

Fixpoint seqs_valid (end_ out : Z) (ss : list seq) : Prop :=
  match ss with
  | [] => True
  | s :: ss => seq_valid end_ out s /\ seqs_valid end_ (seq_end out s) ss
  end.

(** The bytes [input] are a block that means [output]. *)
Definition block_is (low : Z) (input output : list Z) : Prop :=
  exists ss last,
    input = encode ss ++ encode_last low last /\ Forall byte last /\
    seqs_valid (len output) 0 ss /\ output = expand ss ++ last.

Definition block_of (input output : list Z) : Prop := exists low, 0 <= low < 16 /\ block_is low input output.

(** ** Copies of earlier output *)

Lemma length_copy_match l o n : length (copy_match l o n) = (length l + n)%nat.
Proof. induction n as [|n IH]; cbn; [lia|]. rewrite length_app, IH. cbn. lia. Qed.

Lemma copy_match_add l o a b : copy_match l o (a + b) = copy_match (copy_match l o a) o b.
Proof.
  induction b as [|b IH]; [by rewrite Nat.add_0_r|].
  rewrite Nat.add_succ_r. cbn. by rewrite IH.
Qed.

(** A match no longer than its distance is a slice. *)
Lemma copy_match_slice l o n :
  1 <= o <= len l -> Z.of_nat n <= o -> copy_match l o n = l ++ slice l (len l - o) (Z.of_nat n).
Proof.
  unfold len. intros Ho. induction n as [|n IH]; intros Hn; cbn [copy_match].
  - unfold slice. by rewrite app_nil_r.
  - rewrite IH by lia. rewrite <- app_assoc. f_equal.
    rewrite lookup_total_app_l by (rewrite length_app; unfold slice; rewrite length_take, length_drop; lia).
    unfold slice. rewrite !Nat2Z.id. erewrite (take_S_r _ n); [done|].
    rewrite lookup_drop, length_app, length_take, length_drop.
    replace (length l + (n `min` (length l - Z.to_nat (Z.of_nat (length l) - o))) - Z.to_nat o)%nat
      with (Z.to_nat (Z.of_nat (length l) - o) + n)%nat by lia.
    apply list_lookup_lookup_total_lt. lia.
Qed.

(** A list that repeats itself at a distance is such a copy of its beginning. *)
Lemma copy_match_take l o b n :
  1 <= o <= Z.of_nat b -> (b + n <= length l)%nat ->
  (forall i, (b <= i < b + n)%nat -> l !! i = l !! (i - Z.to_nat o)%nat) ->
  copy_match (take b l) o n = take (b + n) l.
Proof.
  intros Ho. induction n as [|n IH]; intros Hn He; cbn [copy_match]; [by rewrite Nat.add_0_r|].
  rewrite IH by (lia || (intros; apply He; lia)). rewrite Nat.add_succ_r.
  rewrite (take_S_r l (b + n) (l !!! (b + n - Z.to_nat o)%nat)).
  - rewrite length_take. replace ((b + n) `min` length l)%nat with (b + n)%nat by lia.
    rewrite !list_lookup_total_alt, lookup_take_lt by lia. done.
  - rewrite He by lia. apply list_lookup_lookup_total_lt. lia.
Qed.

(** ** Lengths *)

Lemma length_bytes_step n : 255 <= n -> length_bytes n = 255 :: length_bytes (n - 255).
Proof.
  intros. unfold length_bytes.
  replace (n / 255) with ((n - 255) / 255 + 1) by dlia.
  replace (n mod 255) with ((n - 255) mod 255) by dlia.
  rewrite Z2Nat.inj_add, Nat.add_1_r by dlia. done.
Qed.

Lemma length_bytes_small n : 0 <= n < 255 -> length_bytes n = [n].
Proof. intros. unfold length_bytes. by rewrite Z.div_small, Z.mod_small. Qed.

Lemma len_length_bytes n : 0 <= n -> len (length_bytes n) = n / 255 + 1.
Proof. intros. unfold len, length_bytes. rewrite length_app, length_replicate. cbn [length]. dlia. Qed.

(** The bytes of a length the loop reads. *)
Lemma read_length_loop_sound {S} fuel input i n (s : S) :
  0 <= i <= len input -> len input - i < Z.of_nat fuel -> Forall byte input ->
  post (read_length_loop fuel input i n s)
    (fun s' '(v, j) => s' = s /\ n <= v < 2 ^ 64 /\ i < j <= len input /\
       drop (Z.to_nat i) input = length_bytes (v - n) ++ drop (Z.to_nat j) input)
    (fun s' => s' = s).
Proof.
  revert i n. induction fuel as [|fuel IH]; intros i n Hi Hf Hb; cbn [read_length_loop]; [lia|].
  apply post_or; [|done]. intros b (Hlt & Hd)%get_drop; [|lia].
  assert (byte b) as Hbb.
  { assert (Forall byte (drop (Z.to_nat i) input)) as Hx by (by apply Forall_drop). rewrite Hd in Hx. by inv Hx. }
  unfold byte in Hbb. apply post_or; [|done]. intros j [-> _]%checked_add_some.
  apply post_or; [|done]. intros m [-> Hm]%checked_add_some.
  destruct (Z.eqb_spec b 255) as [->|Hne].
  - eapply post_mono; [apply (IH (i + 1) (n + 255)); try done; lia| |done].
    intros s' [v j] (-> & Hv & Hj & E). repeat split; try lia.
    rewrite Hd, E, (length_bytes_step (v - n)) by lia. by replace (v - n - 255) with (v - (n + 255)) by lia.
  - cbn. repeat split; try lia. rewrite Hd, length_bytes_small by lia. by replace (n + b - n) with b by lia.
Qed.

Lemma read_length_loop_complete {S} fuel input i n e k (s : S) :
  0 <= i <= len input -> len input < 2 ^ 63 -> (Z.to_nat (e / 255) < fuel)%nat -> 0 <= n -> 0 <= e -> n + e < 2 ^ 64 ->
  drop (Z.to_nat i) input = length_bytes e ++ k ->
  read_length_loop fuel input i n s = (s, Ok (n + e, i + len (length_bytes e))).
Proof.
  revert i n e. induction fuel as [|fuel IH]; intros i n e Hi Hl Hf Hn He Ho Hd; cbn [read_length_loop]; [lia|].
  assert (Z.of_nat (length (drop (Z.to_nat i) input)) = len input - i) as El
    by (unfold len in *; rewrite length_drop; lia).
  destruct (Z.lt_ge_cases e 255).
  - rewrite length_bytes_small in * by lia. cbn [app] in Hd.
    rewrite bind_ok_or, (get_at _ _ _ _ Hd). rewrite Hd in El. cbn [length] in El.
    rewrite bind_ok_or, checked_add_in, bind_ok_or, checked_add_in by lia.
    rewrite (proj2 (Z.eqb_neq e 255)) by lia. unfold done, len. done.
  - rewrite length_bytes_step in * by lia. cbn [app] in Hd.
    rewrite bind_ok_or, (get_at _ _ _ _ Hd). pose proof El as El'. rewrite Hd in El'. cbn [length] in El'.
    rewrite bind_ok_or, checked_add_in, bind_ok_or, checked_add_in by lia.
    rewrite Z.eqb_refl. rewrite (IH (i + 1) (n + 255) (e - 255)); try (done || lia || dlia).
    + unfold len. cbn [length]. do 3 f_equal; lia.
    + eapply (drop_at _ [255]); [lia|exact Hd|done].
Qed.

(** The two uses: a half byte, continued when it is fifteen. *)
Definition read_run {S} (input : list Z) (i half : Z) : rust S Error (Z * Z) :=
  if half =? RUN_MASK then read_length input i half else done (half, i).

Lemma read_run_sound {S} input i half (s : S) :
  0 <= i <= len input -> Forall byte input -> 0 <= half < 16 ->
  post (read_run input i half s)
    (fun s' '(v, j) => s' = s /\ 0 <= v < 2 ^ 64 /\ i <= j <= len input /\ half = Z.min v 15 /\
       drop (Z.to_nat i) input = encode_length v ++ drop (Z.to_nat j) input)
    (fun s' => s' = s).
Proof.
  intros Hi Hb Hh. unfold read_run, RUN_MASK, encode_length. destruct (Z.eqb_spec half 15) as [->|].
  - eapply post_mono; [apply read_length_loop_sound; try done; unfold len; lia| |done].
    intros s' [v j] (-> & Hv & Hj & E). rewrite (proj2 (Z.leb_le 15 v)) by lia. repeat split; (done || lia).
  - cbn. rewrite (proj2 (Z.leb_gt 15 half)) by lia. repeat split; (done || lia).
Qed.

Lemma read_run_complete {S} input i v k (s : S) :
  0 <= i <= len input -> len input < 2 ^ 63 -> 0 <= v < 2 ^ 64 ->
  drop (Z.to_nat i) input = encode_length v ++ k ->
  read_run input i (Z.min v 15) s = (s, Ok (v, i + len (encode_length v))).
Proof.
  intros Hi Hl Hv Hd. unfold read_run, RUN_MASK, encode_length in *. destruct (Z.leb_spec 15 v).
  - rewrite Z.min_r by lia. cbn [Z.eqb Pos.eqb]. unfold read_length.
    assert (len (drop (Z.to_nat i) input) <= len input) as El by (unfold len; rewrite length_drop; lia).
    rewrite Hd, len_app, len_length_bytes in El by lia. pose proof (len_nonneg k).
    rewrite (read_length_loop_complete _ _ _ _ (v - 15) k); try (done || lia).
    + do 3 f_equal. lia.
    + unfold len in *. lia.
  - rewrite Z.min_l by lia. rewrite (proj2 (Z.eqb_neq v 15)) by lia. unfold done, len. cbn. by rewrite Z.add_0_r.
Qed.

(** ** Copies in the output *)

Lemma len_splice {A} (l : list A) i m : 0 <= i -> i + len m <= len l -> len (splice l i m) = len l.
Proof. unfold len. intros. by rewrite length_splice by lia. Qed.

Lemma slice_take {A} (l : list A) i n k :
  0 <= i -> 0 <= n -> i + n <= Z.of_nat k -> slice (take k l) i n = slice l i n.
Proof.
  intros. unfold slice. rewrite skipn_firstn_comm, take_take. f_equal. lia.
Qed.

Lemma copy_within_ok output i from step :
  0 <= from -> 0 <= step -> from + step <= i -> i + step <= len output -> len output < 2 ^ 63 ->
  copy_within i from step output = (splice output i (slice output from step), Ok tt).
Proof.
  intros Hf Hs Hi Ho Hl. unfold copy_within. erewrite bind_ok by reflexivity.
  rewrite bind_ok_or, (proj2 (Z.leb_le i (len output))) by lia.
  unfold saturating_add, UINT64_MAX. rewrite Z.min_l by lia.
  assert (len (take (Z.to_nat i) output) = i) as Ht by (unfold len in *; rewrite length_take; lia).
  assert (len (drop (Z.to_nat i) output) = len output - i) as Hd by (unfold len in *; rewrite length_drop; lia).
  rewrite bind_ok_or, get_range_in by lia. replace (from + step - from) with step by lia.
  rewrite slice_take by lia.
  assert (len (slice output from step) = step) as Hx by (apply length_slice; unfold len in *; lia).
  rewrite bind_ok_or, copy_range_in by lia. unfold put. f_equal.
  unfold splice. cbn [app take]. by rewrite take_0, drop_drop.
Qed.

(** The bytes up to [i], and the next [step] of a match [o] back. *)
Lemma match_step output i o step :
  1 <= o <= i -> 0 <= step <= o -> i + step <= len output ->
  take (Z.to_nat (i + step)) (splice output i (slice output (i - o) step)) =
  copy_match (take (Z.to_nat i) output) o (Z.to_nat step).
Proof.
  intros Ho Hs Hi.
  assert (len (slice output (i - o) step) = step) as Hx by (apply length_slice; unfold len in *; lia).
  assert (len (take (Z.to_nat i) output) = i) as Ht by (unfold len in *; rewrite length_take; lia).
  rewrite copy_match_slice by lia. rewrite Z2Nat.id by lia. rewrite Ht, slice_take by lia.
  rewrite <- Hx at 1. apply take_splice; lia.
Qed.

Lemma overlap_loop_ok fuel match_end o i output :
  1 <= o <= i -> i <= match_end <= len output -> len output < 2 ^ 63 -> match_end - i < Z.of_nat fuel ->
  exists output', overlap_loop fuel match_end o i (i - o) output = (output', Ok tt) /\ len output' = len output /\
    take (Z.to_nat match_end) output' = copy_match (take (Z.to_nat i) output) o (Z.to_nat (match_end - i)).
Proof.
  revert i output. induction fuel as [|fuel IH]; intros i output Ho Hi Hl Hf; cbn [overlap_loop]; [lia|].
  destruct (Z.ltb_spec i match_end) as [Hlt|].
  - unfold saturating_sub. rewrite Z.max_r by lia. set (step := Z.min o (match_end - i)).
    assert (0 < step <= o /\ step <= match_end - i) as Hs by lia.
    erewrite bind_ok by (apply copy_within_ok; lia).
    unfold saturating_add, UINT64_MAX. rewrite !Z.min_l by lia.
    assert (len (slice output (i - o) step) = step) as Hx by (apply length_slice; unfold len in *; lia).
    assert (len (splice output i (slice output (i - o) step)) = len output) as Hn by (apply len_splice; lia).
    destruct (IH (i + step) (splice output i (slice output (i - o) step))) as (o' & E & El & Et); [lia..|].
    exists o'. replace (i - o + step) with (i + step - o) by lia. rewrite E. split; [done|]. split; [lia|].
    rewrite Et, match_step by lia. rewrite <- copy_match_add. f_equal. lia.
  - exists output. assert (match_end = i) as -> by lia. rewrite Z.sub_diag. done.
Qed.

(** Both ways to copy a match. *)
Lemma match_copied output out o matched :
  1 <= o <= out -> 0 <= matched -> out + matched <= len output -> len output < 2 ^ 63 ->
  exists output',
    (if matched <=? o then copy_within out (out - o) matched
     else overlap_loop (S (Z.to_nat matched)) (out + matched) o out (out - o)) output = (output', Ok tt) /\
    len output' = len output /\
    take (Z.to_nat (out + matched)) output' = copy_match (take (Z.to_nat out) output) o (Z.to_nat matched).
Proof.
  intros Ho Hm He Hl. destruct (Z.leb_spec matched o).
  - rewrite copy_within_ok by lia. eexists. split; [done|].
    assert (len (slice output (out - o) matched) = matched) as Hx by (apply length_slice; unfold len in *; lia).
    rewrite len_splice by lia. split; [done|]. apply match_step; lia.
  - destruct (overlap_loop_ok (S (Z.to_nat matched)) (out + matched) o out output) as (o' & -> & El & Et); [lia..|].
    exists o'. rewrite Et. replace (out + matched - out) with matched by lia. done.
Qed.

(** ** One turn *)

Lemma token_split t : byte t ->
  0 <= Z.shiftr t 4 < 16 /\ 0 <= Z.land t 15 < 16 /\ t = 16 * Z.shiftr t 4 + Z.land t 15.
Proof.
  unfold byte. intros. change 15 with (2 ^ 4 - 1). rewrite land_low, Z.shiftr_div_pow2 by lia. dlia.
Qed.

Lemma token_join high low : 0 <= high < 16 -> 0 <= low < 16 ->
  Z.shiftr (16 * high + low) 4 = high /\ Z.land (16 * high + low) 15 = low.
Proof.
  intros. change 15 with (2 ^ 4 - 1). rewrite land_low, Z.shiftr_div_pow2 by lia. dlia.
Qed.

Lemma forall_at (l : list Z) i x k : Forall byte l -> drop (Z.to_nat i) l = x :: k -> byte x.
Proof. intros H E. assert (Forall byte (drop (Z.to_nat i) l)) as Hx by (by apply Forall_drop). rewrite E in Hx. by inv Hx. Qed.

Lemma le_bytes_slice input i : Forall byte input -> 0 <= i -> i + 2 <= len input ->
  le_bytes 2 (le_join (slice input i 2)) = slice input i 2 /\ 0 <= le_join (slice input i 2) < 2 ^ 16.
Proof.
  intros Hb Hi Hl. assert (length (slice input i 2) = 2%nat) as E
    by (pose proof (length_slice input i 2); unfold len in *; lia).
  pose proof (slice_bytes input i 2 Hb) as Hs. split.
  - rewrite <- E at 1. by apply le_bytes_join.
  - pose proof (le_join_bound _ Hs) as Hj. by rewrite E in Hj.
Qed.

(** The match the code reads at [i], when [out] bytes are out. *)
Lemma decompress_match_sound input end_ token i out output :
  0 <= i <= len input -> len input < 2 ^ 63 -> Forall byte input ->
  0 <= out <= end_ -> len output = end_ -> end_ < 2 ^ 63 -> 0 <= Z.land token 15 < 16 ->
  post (decompress_match input end_ token i out output)
    (fun o '(j, out') => exists offset m,
       1 <= offset <= out /\ offset < 2 ^ 16 /\ out <= end_ - 12 /\ 0 <= m /\ out + (m + 4) <= end_ - 5 /\
       Z.land token 15 = Z.min m 15 /\
       drop (Z.to_nat i) input = le_bytes 2 offset ++ encode_length m ++ drop (Z.to_nat j) input /\
       i < j <= len input /\ out' = out + (m + 4) /\ len o = end_ /\
       take (Z.to_nat out') o = copy_match (take (Z.to_nat out) output) offset (Z.to_nat (m + 4)))
    (fun o => len o = end_).
Proof.
  intros Hi Hl Hb Ho Hn He Hw. unfold decompress_match.
  destruct (_ || _) eqn:Eg; [done|]. apply orb_false_iff in Eg as [Eg1%Z.ltb_ge Eg2%Z.ltb_ge].
  apply post_or; [|done]. intros ? [-> _]%checked_add_some.
  apply post_or; [|done]. intros ob (Hb1 & Hb2 & Eb & Hbl)%get_range_some; [|lia].
  replace (i + 2 - i) with 2 in * by lia.
  pose proof (le_bytes_slice input i Hb ltac:(lia) ltac:(lia)) as [Eob Hob]. rewrite <- Eb in Eob, Hob.
  destruct (_ || _) eqn:Ez; [done|]. apply orb_false_iff in Ez as [Ez1%Z.eqb_neq Ez2%Z.ltb_ge].
  eapply post_bind; [eapply post_mono; [apply (read_run_sound input (i + 2) (Z.land token 15)); (done || lia)|exact (fun _ _ H => H)|by intros ? ->]|].
  intros ? [m k] (-> & Hm & Hk & Em & Erm). cbn beta iota. unfold MIN_MATCH.
  apply post_or; [|done]. intros ? [-> _]%checked_add_some.
  apply post_or; [|done]. intros ? [-> _]%checked_add_some.
  destruct (Z.ltb_spec (saturating_sub end_ LAST_LITERALS) (out + (m + 4))) as [|Hme]; [done|].
  unfold saturating_sub, LAST_LITERALS, MF_LIMIT in *.
  apply post_or; [|done]. intros ? [-> _]%checked_sub_some.
  destruct (match_copied output out (le_join ob) (m + 4)) as (o2 & E2 & Hl2 & Et2); [lia..|].
  erewrite bind_ok by exact E2. unfold done, post. exists (le_join ob), m. rewrite Eob.
  repeat split; try (done || lia). by rewrite (drop_slice input i 2), Erm, <- Eb by lia.
Qed.

Definition turn_ok (input : list Z) (end_ i out : Z) (output o : list Z) (next : option (Z * Z)) : Prop :=
  len o = end_ /\
  match next with
  | None => exists low last, 0 <= low < 16 /\ Forall byte last /\ drop (Z.to_nat i) input = encode_last low last /\
      out + len last = end_ /\ o = take (Z.to_nat out) output ++ last
  | Some (j, out') => exists s, seq_valid end_ out s /\ drop (Z.to_nat i) input = encode_seq s ++ drop (Z.to_nat j) input /\
      out' = seq_end out s /\ take (Z.to_nat out') o = expand_seq (take (Z.to_nat out) output) s /\ i < j <= len input
  end.

Lemma decompress_turn_sound input end_ i out output :
  0 <= i <= len input -> len input < 2 ^ 63 -> Forall byte input ->
  0 <= out <= end_ -> len output = end_ -> end_ < 2 ^ 63 ->
  post (decompress_turn input end_ i out output) (turn_ok input end_ i out output) (fun o => len o = end_).
Proof.
  intros Hi Hl Hb Ho Hn He. unfold decompress_turn.
  apply post_or; [|done]. intros t (Hlt & Hd)%get_drop; [|lia].
  pose proof (token_split t (forall_at _ _ _ _ Hb Hd)) as (Hh & Hw & Et).
  apply post_or; [|done]. intros ? [-> _]%checked_add_some.
  eapply post_bind; [eapply post_mono; [apply (read_run_sound input (i + 1) (Z.shiftr t 4)); (done || lia)|exact (fun _ _ H => H)|by intros ? ->]|].
  intros ? [n j] (-> & Hv & Hj & Eh & Er). cbn beta iota.
  apply post_or; [|done]. intros ? [-> _]%checked_add_some.
  apply post_or; [|done]. intros ? [-> _]%checked_add_some.
  apply post_or; [|done]. intros src (Hs1 & Hs2 & Es & Hsl)%get_range_some; [|lia].
  erewrite bind_ok by reflexivity. apply post_or; [|done].
  intros o1 (Ho1 & ->)%copy_range_some; [|lia..]. erewrite bind_ok by reflexivity. cbn zeta.
  assert (take (Z.to_nat (out + n)) (splice output out src) = take (Z.to_nat out) output ++ src) as Et1
    by (replace n with (len src) by lia; apply take_splice; lia).
  assert (len (splice output out src) = end_) as Hn1 by (rewrite len_splice; lia).
  assert (Forall byte src) as Hsb by (subst src; by apply slice_bytes).
  assert (drop (Z.to_nat i) input = [16 * Z.min (len src) 15 + Z.land t 15] ++ encode_length (len src) ++ src ++
            drop (Z.to_nat (j + n)) input) as Ed.
  { rewrite Hd, Er. replace (len src) with n by lia. rewrite <- Eh, <- Et. cbn [app]. do 2 f_equal.
    rewrite (drop_slice input j n) by lia. subst src. by replace (j + n - j) with n by lia. }
  destruct (Z.eqb_spec (j + n) (len input)) as [Ee|].
  - destruct (Z.eqb_spec (out + n) end_) as [Eo|]; [|done]. cbn. split; [done|]. exists (Z.land t 15), src.
    split; [done|]. split; [done|]. split.
    { rewrite Ed, Ee. unfold len. rewrite Nat2Z.id, drop_all, app_nil_r. done. }
    split; [lia|]. rewrite <- Et1, Eo, <- Hn1. unfold len. by rewrite Nat2Z.id, firstn_all.
  - eapply post_bind; [apply decompress_match_sound; (done || lia)|].
    intros o [k out'] (offset & m & Hof & Ho16 & Hs & Hm & Hme & Ew & Em & Hk & -> & Hlo & Eo). unfold done, post, turn_ok. split; [done|].
    exists (Seq src offset (m + 4)). unfold seq_valid, seq_end, expand_seq, encode_seq. cbn [lits off mlen].
    replace (m + 4 - 4) with m by lia. rewrite Eo, Et1, <- Ew, Hsl. replace (j + n - j) with n in * by lia.
    split; [repeat split; (done || lia)|]. split.
    { rewrite Ed, Em, Hsl. cbn [app]. f_equal. by rewrite <- !app_assoc. }
    split; [lia|]. split; [done|lia].
Qed.

Lemma len_encode_length n : 0 <= len (encode_length n).
Proof. apply len_nonneg. Qed.

Lemma decompress_match_complete input end_ token i out output offset m k :
  0 <= i <= len input -> len input < 2 ^ 63 -> len output = end_ -> end_ < 2 ^ 63 ->
  1 <= offset <= out -> offset < 2 ^ 16 -> out <= end_ - 12 -> 0 <= m -> out + (m + 4) <= end_ - 5 ->
  Z.land token 15 = Z.min m 15 ->
  drop (Z.to_nat i) input = le_bytes 2 offset ++ encode_length m ++ k -> i <= len input - 8 ->
  exists o, decompress_match input end_ token i out output = (o, Ok (i + 2 + len (encode_length m), out + (m + 4))) /\
    len o = end_ /\ take (Z.to_nat (out + (m + 4))) o = copy_match (take (Z.to_nat out) output) offset (Z.to_nat (m + 4)).
Proof.
  intros Hi Hl Hn He Ho Ho16 Hs Hm Hme Hw Hd Hi8. unfold decompress_match.
  unfold saturating_sub, saturating_add, LAST_LITERALS, MF_LIMIT, UINT64_MAX, MIN_MATCH.
  rewrite (proj2 (Z.ltb_ge _ _)), (proj2 (Z.ltb_ge _ _)) by lia. cbn [orb].
  rewrite bind_ok_or, checked_add_in by lia. rewrite bind_ok_or, get_range_in by lia.
  assert (slice input i (i + 2 - i) = le_bytes 2 offset) as ->
    by (eapply slice_at; [exact Hd|unfold len; rewrite length_le_bytes; lia]).
  rewrite le_join_bytes. change (2 ^ (8 * Z.of_nat 2)) with (2 ^ 16). rewrite Z.mod_small by lia.
  rewrite (proj2 (Z.eqb_neq offset 0)), (proj2 (Z.ltb_ge _ _)) by lia. cbn [orb].
  assert (drop (Z.to_nat (i + 2)) input = encode_length m ++ k) as Hd2
    by (eapply drop_at; [lia|exact Hd|unfold len; rewrite length_le_bytes; lia]).
  rewrite Hw. erewrite bind_ok by (eapply (read_run_complete input (i + 2)); [lia..|exact Hd2]). cbn iota beta.
  rewrite bind_ok_or, checked_add_in, bind_ok_or, checked_add_in by lia.
  rewrite (proj2 (Z.ltb_ge _ _)) by lia. rewrite bind_ok_or, checked_sub_in by lia.
  destruct (match_copied output out offset (m + 4)) as (o & E & Hlo & Et); [lia..|].
  exists o. erewrite bind_ok by exact E. unfold done. repeat split; (done || lia).
Qed.

(** The literals at the beginning of a turn. *)
Lemma decompress_turn_literals input end_ i out output src low k :
  0 <= i <= len input -> len input < 2 ^ 63 -> 0 <= out -> len output = end_ -> end_ < 2 ^ 63 ->
  0 <= low < 16 -> out + len src <= end_ ->
  drop (Z.to_nat i) input = [16 * Z.min (len src) 15 + low] ++ encode_length (len src) ++ src ++ k ->
  let j := i + 1 + len (encode_length (len src)) + len src in
  let token := 16 * Z.min (len src) 15 + low in
  decompress_turn input end_ i out output =
    (if j =? len input
     then if out + len src =? end_ then done None else leave OutputSize
     else next <- decompress_match input end_ token j (out + len src);; done (Some next)) (splice output out src) /\
  drop (Z.to_nat j) input = k /\ j <= len input.
Proof.
  intros Hi Hl Ho Hn He Hlow Hs Hd. cbn zeta. pose proof (len_nonneg src). pose proof (len_nonneg k).
  pose proof (len_encode_length (len src)).
  assert (len input = i + (1 + (len (encode_length (len src)) + (len src + len k)))) as Hlen
    by (erewrite (drop_len _ _ i) by (done || exact Hd); rewrite !len_app; unfold len at 2; done).
  assert (drop (Z.to_nat (i + 1)) input = encode_length (len src) ++ src ++ k) as Hd1
    by (eapply drop_at; [lia|exact Hd|done]).
  assert (drop (Z.to_nat (i + 1 + len (encode_length (len src)))) input = src ++ k) as Hd2
    by (eapply drop_at; [lia|exact Hd1|done]).
  split; [|split; [by eapply drop_at; [lia|exact Hd2|]|lia]].
  destruct (token_join (Z.min (len src) 15) low) as [Eh El]; [lia..|].
  unfold decompress_turn. rewrite bind_ok_or, (get_at _ _ _ _ Hd). rewrite bind_ok_or, checked_add_in by lia.
  rewrite Eh. erewrite bind_ok by (eapply (read_run_complete input (i + 1)); [lia..|exact Hd1]). cbn iota beta.
  rewrite bind_ok_or, checked_add_in, bind_ok_or, checked_add_in by lia.
  rewrite bind_ok_or, get_range_in by lia. erewrite slice_at by (exact Hd2 || lia).
  erewrite bind_ok by reflexivity. rewrite bind_ok_or, copy_range_in by lia.
  erewrite bind_ok by reflexivity. done.
Qed.

Lemma decompress_turn_last input end_ i out output low last :
  0 <= i <= len input -> len input < 2 ^ 63 -> 0 <= out -> len output = end_ -> end_ < 2 ^ 63 ->
  0 <= low < 16 -> out + len last = end_ -> drop (Z.to_nat i) input = encode_last low last ->
  decompress_turn input end_ i out output = (take (Z.to_nat out) output ++ last, Ok None).
Proof.
  intros Hi Hl Ho Hn He Hlow Hs Hd.
  destruct (decompress_turn_literals input end_ i out output last low []) as (-> & Hk & Hj); try (done || lia).
  { rewrite Hd. unfold encode_last. by rewrite app_nil_r. }
  pose proof (len_nonneg last). pose proof (len_encode_length (len last)).
  apply drop_len in Hk; [|lia]. change (len (@nil Z)) with 0 in Hk. rewrite Z.add_0_r in Hk.
  rewrite <- Hk, Z.eqb_refl, (proj2 (Z.eqb_eq _ _) Hs). unfold done. f_equal.
  rewrite <- (firstn_all (splice output out last)), <- take_splice by lia. f_equal.
  rewrite length_splice; unfold len in *; lia.
Qed.

Lemma decompress_turn_seq input end_ i out output s k :
  0 <= i <= len input -> len input < 2 ^ 63 -> 0 <= out -> len output = end_ -> end_ < 2 ^ 63 ->
  seq_valid end_ out s -> drop (Z.to_nat i) input = encode_seq s ++ k -> 6 <= len k ->
  exists o, decompress_turn input end_ i out output = (o, Ok (Some (i + len (encode_seq s), seq_end out s))) /\
    len o = end_ /\ take (Z.to_nat (seq_end out s)) o = expand_seq (take (Z.to_nat out) output) s.
Proof.
  intros Hi Hl Ho Hn He (Hb & Hof & H16 & Hst & Hm & Hend) Hd Hk.
  set (tail := le_bytes 2 (off s) ++ encode_length (mlen s - 4) ++ k).
  destruct (decompress_turn_literals input end_ i out output (lits s) (Z.min (mlen s - 4) 15) tail)
    as (-> & Hd2 & Hj); try (done || lia).
  { rewrite Hd. unfold encode_seq, tail. by rewrite <- !app_assoc. }
  pose proof (len_nonneg (lits s)). pose proof (len_encode_length (len (lits s))). pose proof (len_encode_length (mlen s - 4)).
  assert (len tail = 2 + len (encode_length (mlen s - 4)) + len k) as Ht
    by (unfold tail; rewrite !len_app; unfold len at 1; rewrite length_le_bytes; lia).
  pose proof Hd2 as Hlen. apply drop_len in Hlen; [|lia].
  rewrite (proj2 (Z.eqb_neq _ _)) by lia.
  destruct (decompress_match_complete input end_ (16 * Z.min (len (lits s)) 15 + Z.min (mlen s - 4) 15)
    (i + 1 + len (encode_length (len (lits s))) + len (lits s)) (out + len (lits s)) (splice output out (lits s))
    (off s) (mlen s - 4) k) as (o & Eo & Hlo & Et); try (done || lia).
  { rewrite len_splice; lia. }
  { apply token_join; lia. }
  exists o. erewrite bind_ok by exact Eo. unfold done, seq_end, expand_seq.
  replace (mlen s - 4 + 4) with (mlen s) in Et |- * by lia. rewrite take_splice in Et by lia.
  split; [|done]. do 4 f_equal. unfold encode_seq. rewrite !len_app. unfold len. rewrite length_le_bytes. cbn [length]. lia.
Qed.

(** ** The whole input *)

Definition seqs_end (out : Z) (ss : list seq) : Z := fold_left seq_end ss out.

Lemma seq_end_more end_ out s : seq_valid end_ out s -> out < seq_end out s <= end_ - 5.
Proof. intros (_ & ? & _ & ? & ? & ?). unfold seq_end. pose proof (len_nonneg (lits s)). lia. Qed.

Lemma seqs_end_more end_ out ss : seqs_valid end_ out ss -> out <= seqs_end out ss.
Proof.
  revert out. induction ss as [|s ss IH]; intros out H; cbn; [lia|]. destruct H as [Hs H].
  pose proof (seq_end_more _ _ _ Hs). specialize (IH _ H). unfold seqs_end in IH. lia.
Qed.

Lemma len_expand_from end_ out ss l :
  seqs_valid end_ out ss -> len l = out -> len (fold_left expand_seq ss l) = seqs_end out ss.
Proof.
  revert out l. induction ss as [|s ss IH]; intros out l H Hl; cbn; [done|]. destruct H as [Hs H].
  apply IH; [done|]. destruct Hs as (_ & _ & _ & _ & ? & _). unfold expand_seq, seq_end, len in *.
  rewrite length_copy_match, length_app. lia.
Qed.

(** After a match there are at least six bytes more. *)
Lemma tail_long end_ out ss low last :
  seqs_valid end_ out ss -> out <= end_ - 5 -> seqs_end out ss + len last = end_ ->
  6 <= len (encode ss ++ encode_last low last).
Proof.
  revert out. induction ss as [|s ss IH]; intros out H Ho He; cbn [seqs_valid] in H.
  - unfold seqs_end in He. cbn [fold_left] in He. change (encode [] ++ encode_last low last) with (encode_last low last).
    unfold encode_last. rewrite !len_app. pose proof (len_encode_length (len last)).
    unfold len at 1. cbn [length]. lia.
  - destruct H as [Hs H]. specialize (IH _ H ltac:(pose proof (seq_end_more _ _ _ Hs); lia) He).
    change (encode (s :: ss)) with (encode_seq s ++ encode ss). rewrite <- app_assoc, len_app.
    pose proof (len_nonneg (encode_seq s)). lia.
Qed.

Lemma decompress_loop_sound fuel input end_ i out output :
  0 <= i <= len input -> len input < 2 ^ 63 -> Forall byte input ->
  0 <= out <= end_ -> len output = end_ -> end_ < 2 ^ 63 -> len input - i < Z.of_nat fuel ->
  post (decompress_loop fuel input end_ i out output)
    (fun o _ => exists ss low last, drop (Z.to_nat i) input = encode ss ++ encode_last low last /\ 0 <= low < 16 /\
       Forall byte last /\ seqs_valid end_ out ss /\ seqs_end out ss + len last = end_ /\
       o = fold_left expand_seq ss (take (Z.to_nat out) output) ++ last)
    (fun o => len o = end_).
Proof.
  revert i out output. induction fuel as [|fuel IH]; intros i out output Hi Hl Hb Ho Hn He Hf; cbn [decompress_loop]; [lia|].
  eapply post_bind; [by apply decompress_turn_sound|]. intros o [[j out']|] (Hlo & Hr).
  - destruct Hr as (s & Hs & Ed & -> & Et & Hj). pose proof (seq_end_more _ _ _ Hs).
    eapply post_mono; [apply IH; (done || lia)| |done].
    intros o' _ (ss & low & last & Ed' & Hlow & Hlast & Hv & Hend & ->). exists (s :: ss), low, last.
    rewrite Ed, Ed', Et. unfold encode. cbn [map concat]. rewrite <- app_assoc. done.
  - destruct Hr as (low & last & Hlow & Hlast & Ed & Hend & ->). by exists [], low, last.
Qed.

Lemma decompress_loop_complete fuel input end_ i out output ss low last :
  0 <= i <= len input -> len input < 2 ^ 63 -> 0 <= out -> len output = end_ -> end_ < 2 ^ 63 ->
  (length ss < fuel)%nat -> drop (Z.to_nat i) input = encode ss ++ encode_last low last -> 0 <= low < 16 ->
  seqs_valid end_ out ss -> seqs_end out ss + len last = end_ ->
  decompress_loop fuel input end_ i out output = (fold_left expand_seq ss (take (Z.to_nat out) output) ++ last, Ok tt).
Proof.
  revert i out output ss. induction fuel as [|fuel IH]; intros i out output ss Hi Hl Ho Hn He Hf Hd Hlow Hv Hend; [lia|].
  cbn [decompress_loop]. destruct ss as [|s ss].
  - erewrite bind_ok by (eapply decompress_turn_last; (exact Hd || exact Hend || done || lia)). done.
  - destruct Hv as [Hs Hv]. pose proof (seq_end_more _ _ _ Hs).
    change (encode (s :: ss)) with (encode_seq s ++ encode ss) in Hd. rewrite <- app_assoc in Hd.
    destruct (decompress_turn_seq input end_ i out output s (encode ss ++ encode_last low last))
      as (o & Eo & Hlo & Et); try (done || lia).
    { eapply tail_long; [exact Hv|lia|done]. }
    pose proof Hd as Hlen. apply drop_len in Hlen; [|lia]. rewrite len_app in Hlen.
    pose proof (len_nonneg (encode_seq s)). pose proof (len_nonneg (encode ss ++ encode_last low last)).
    erewrite bind_ok by exact Eo. cbn iota beta. cbn [length] in Hf.
    rewrite (IH _ _ _ ss); try (done || lia).
    + cbn [fold_left]. by rewrite Et.
    + eapply drop_at; [lia|exact Hd|done].
Qed.

Lemma decompress_sound input output :
  Forall byte input -> len input < 2 ^ 63 -> len output < 2 ^ 63 -> 0 < len output ->
  post (decompress input output) (fun o _ => block_of input o /\ len o = len output) (fun o => len o = len output).
Proof.
  intros Hb Hi Ho Hp. unfold decompress. pose proof (len_nonneg input).
  destruct (Z.eqb_spec (len input) 0); [done|]. rewrite (proj2 (Z.eqb_neq (len output) 0)) by lia.
  eapply post_mono; [apply (decompress_loop_sound (S (length input))); try (done || lia); unfold len; lia| |done].
  intros o _ (ss & low & last & Ed & Hlow & Hlast & Hv & Hend & ->). change (Z.to_nat 0) with 0%nat in *.
  rewrite drop_0 in Ed. rewrite take_0. fold (expand ss).
  assert (len (expand ss ++ last) = len output) as El.
  { rewrite len_app, <- Hend. f_equal. by eapply len_expand_from. }
  split; [|exact El]. exists low. split; [done|]. exists ss, last. by rewrite El.
Qed.

Lemma decompress_complete input o output :
  len input < 2 ^ 63 -> len output < 2 ^ 63 -> 0 < len output -> len o = len output -> block_of input o ->
  decompress input output = (o, Ok tt).
Proof.
  intros Hi Hl Hp Hlo (low & Hlow & ss & last & -> & Hlast & Hv & Ho).
  set (input := encode ss ++ encode_last low last) in *. rewrite Hlo in Hv. unfold decompress.
  assert (seqs_end 0 ss + len last = len output) as Hend.
  { rewrite <- Hlo, Ho, len_app. f_equal. symmetry. by eapply len_expand_from. }
  pose proof (seqs_end_more _ _ _ Hv).
  assert (Z.of_nat (length ss) < len input) as Hfuel.
  { unfold input. clear. induction ss as [|s ss IH].
    - change (encode [] ++ encode_last low last) with (encode_last low last). unfold encode_last, len. cbn. lia.
    - change (encode (s :: ss)) with (encode_seq s ++ encode ss). rewrite <- app_assoc, len_app.
      assert (1 <= len (encode_seq s)) by (unfold encode_seq, len; cbn; lia). cbn [length]. lia. }
  rewrite (proj2 (Z.eqb_neq (len input) 0)), (proj2 (Z.eqb_neq (len output) 0)) by lia.
  rewrite (decompress_loop_complete _ _ _ _ _ _ ss low last); try (done || lia); [|unfold len in *; lia].
  by rewrite Ho.
Qed.
