(* ===== verification/Lz4Compress.v ===== *)
(** * The LZ4 compressor

    The writer puts out exactly the encoding of a sequence or runs out of room;
    the matches the search finds repeat earlier bytes, whatever the hash table
    holds; every turn moves forward; and the output never exceeds [bound]. *)

From S2P Require Import Prelude RustStd Lz4 Lz4Format.

(** ** The writer *)

Definition in_room (w : Writer) : Prop := 0 <= at_ w <= len (buffer w) /\ len (buffer w) < 2 ^ 63.

(** [m] appends [data], or there is no room for it. *)
Definition emits (m : rust Writer unit unit) (data : list Z) : Prop :=
  forall w, in_room w ->
    post (m w)
      (fun w' _ => w' = MkWriter (splice (buffer w) (at_ w) data) (at_ w + len data) /\
         at_ w + len data <= len (buffer w))
      (fun w' => len (buffer w') = len (buffer w) /\ len (buffer w) < at_ w + len data).

Lemma splice_splice {A} (l : list A) i m n :
  0 <= i -> i + len m + len n <= len l -> splice (splice l i m) (i + len m) n = splice l i (m ++ n).
Proof.
  intros Hi Hl. unfold splice at 1. rewrite take_splice by (pose proof (len_nonneg n); lia).
  unfold splice. rewrite <- !app_assoc. do 3 f_equal. unfold len in *.
  rewrite drop_app_ge by (rewrite length_take; lia). rewrite length_take.
  rewrite drop_app_ge by lia. rewrite drop_drop, length_app. f_equal. lia.
Qed.

Lemma splice_nil {A} (l : list A) i : 0 <= i <= len l -> splice l i [] = l.
Proof. intros. unfold splice. cbn [app length]. rewrite Nat.add_0_r. apply take_drop. Qed.

Lemma emits_nil : emits (done tt) [].
Proof.
  intros w [Hw Hl]. cbn. rewrite splice_nil by done. unfold len at 1 2. cbn [length]. rewrite Z.add_0_r.
  destruct w. split; [done|lia].
Qed.

Lemma emits_seq m1 m2 d1 d2 : emits m1 d1 -> emits m2 d2 -> emits (bind m1 (fun _ => m2)) (d1 ++ d2).
Proof.
  intros H1 H2 w Hw. rewrite len_app. pose proof (len_nonneg d2). pose proof (len_nonneg d1).
  pose proof Hw as [Ha Hl]. eapply post_bind.
  - eapply post_mono; [exact (H1 w Hw)|exact (fun _ _ H => H)|]. cbn. intros w' [? ?]. split; lia.
  - intros w' _ [-> Hr]. cbn in Hr.
    assert (len (splice (buffer w) (at_ w) d1) = len (buffer w)) as El by (apply len_splice; lia).
    eapply post_mono; [apply H2; split; cbn; lia| |].
    + cbn. intros w' _ [-> Hr']. rewrite El in Hr'. rewrite splice_splice by lia. split; [f_equal; lia|lia].
    + cbn. rewrite El. intros w' [? ?]. split; lia.
Qed.

Lemma emits_some {A} (o : option A) a m d : o = Some a -> emits (m a) d -> emits (bind (some o) m) d.
Proof. intros -> H w Hw. unfold some. rewrite bind_ok_or. by apply H. Qed.

Lemma emits_byte b : emits (writer_byte b) [b].
Proof.
  intros w [Hw Hl]. unfold writer_byte, some. erewrite bind_ok by reflexivity. rewrite bind_ok_or.
  unfold get. destruct (buffer w !! Z.to_nat (at_ w)) as [x|] eqn:E.
  - apply lookup_lt_Some in E as Hlt. unfold len in *. erewrite bind_ok by reflexivity.
    rewrite bind_ok_or, checked_add_in by lia. cbn. split; [|lia]. f_equal.
    unfold splice. rewrite insert_take_drop by lia. cbn [app length]. do 3 f_equal. lia.
  - apply lookup_ge_None in E. cbn. unfold len in *. cbn [length]. lia.
Qed.

Lemma emits_bytes data : len data < 2 ^ 63 -> emits (writer_bytes data) data.
Proof.
  intros Hd w [Hw Hl]. pose proof (len_nonneg data). unfold writer_bytes, some. erewrite bind_ok by reflexivity.
  rewrite bind_ok_or, checked_add_in by lia. apply post_or.
  - intros b (Hb & ->)%copy_range_some; [|lia..]. cbn. split; [done|lia].
  - intros En. split; [done|]. destruct (Z.lt_ge_cases (len (buffer w)) (at_ w + len data)); [done|].
    rewrite copy_range_in in En by lia. done.
Qed.

Lemma emits_length_loop fuel n :
  0 <= n -> (Z.to_nat (n / 255) < fuel)%nat -> emits (writer_length_loop fuel n) (length_bytes n).
Proof.
  revert n. induction fuel as [|fuel IH]; intros n Hn Hf; cbn [writer_length_loop]; [lia|].
  destruct (Z.leb_spec 255 n).
  - rewrite length_bytes_step by lia. apply (emits_seq _ _ [255]); [apply emits_byte|].
    eapply emits_some; [by apply checked_sub_in|]. apply IH; dlia.
  - rewrite length_bytes_small by lia. eapply emits_some; [|apply emits_byte].
    unfold u8_try_from. by rewrite (proj2 (Z.ltb_lt _ _)) by lia.
Qed.

(** A length field, as [sequence] and [last] write it. *)
Lemma emits_run n : 0 <= n ->
  emits (if RUN_MASK <=? n then bind (some (checked_sub n RUN_MASK)) (fun rest => writer_length rest) else done tt)
    (encode_length n).
Proof.
  intros Hn. unfold RUN_MASK, encode_length. destruct (Z.leb_spec 15 n); [|apply emits_nil].
  eapply emits_some; [by apply checked_sub_in|]. apply emits_length_loop; [lia|].
  assert ((n - 15) / 255 <= n - 15) by dlia. lia.
Qed.

Lemma token_lor high low : 0 <= high < 16 -> 0 <= low < 16 -> Z.lor (u8 (Z.shiftl high 4)) low = 16 * high + low.
Proof.
  intros. rewrite Z.lor_comm, u8_small by (rewrite Z.shiftl_mul_pow2; lia). rewrite lor_shifted_add by lia. lia.
Qed.

Lemma emits_last literals : len literals < 2 ^ 63 -> emits (writer_last literals) (encode_last 0 literals).
Proof.
  intros Hl. unfold writer_last, encode_last, RUN_MASK. pose proof (len_nonneg literals).
  eapply emits_some; [unfold u8_try_from; by rewrite (proj2 (Z.ltb_lt _ _)) by lia|].
  replace (u8 (Z.shiftl (Z.min (len literals) 15) 4)) with (16 * Z.min (len literals) 15 + 0)
    by (rewrite <- token_lor, Z.lor_0_r by lia; done).
  apply emits_seq; [apply emits_byte|]. apply emits_seq; [by apply emits_run|by apply emits_bytes].
Qed.

Lemma emits_sequence literals offset found :
  len literals < 2 ^ 63 -> 0 <= offset < 2 ^ 16 -> 4 <= found ->
  emits (writer_sequence literals offset found) (encode_seq (Seq literals offset found)).
Proof.
  intros Hl Ho Hf. unfold writer_sequence, encode_seq, RUN_MASK, MIN_MATCH. cbn [lits off mlen].
  pose proof (len_nonneg literals).
  eapply emits_some; [apply checked_sub_in; lia|].
  eapply emits_some; [unfold u8_try_from; by rewrite (proj2 (Z.ltb_lt _ _)) by lia|].
  eapply emits_some; [unfold u8_try_from; by rewrite (proj2 (Z.ltb_lt _ _)) by lia|].
  rewrite token_lor by lia. apply emits_seq; [apply emits_byte|]. apply emits_seq; [by apply emits_run|].
  apply emits_seq; [by apply emits_bytes|].
  eapply emits_some; [unfold u16_try_from; by rewrite (proj2 (Z.ltb_lt _ _)) by lia|].
  apply emits_seq; [apply emits_bytes; unfold len; by rewrite length_le_bytes|apply emits_run; lia].
Qed.

(** ** The search *)

(** The bytes from [b] to [e] stand also [d] bytes earlier. *)
Definition repeats (source : list Z) (b e d : Z) : Prop :=
  forall i, b <= i < e -> get source i = get source (i - d).

Lemma read_u32_some data i v : 0 <= i -> read_u32 data i = Some v -> i + 4 <= len data /\ v = le_join (slice data i 4).
Proof.
  unfold read_u32. intros Hi. destruct (checked_add i 4) as [e|] eqn:E; [|done].
  apply checked_add_some in E as [-> _]. destruct (get_range data i (i + 4)) as [r|] eqn:Er; [|done].
  apply get_range_some in Er as (_ & ? & -> & _); [|done]. intros [= <-]. split; [done|]. f_equal. f_equal. lia.
Qed.

Lemma read_u32_in data i : 0 <= i -> i + 4 <= len data -> len data < 2 ^ 63 -> read_u32 data i = Some (le_join (slice data i 4)).
Proof.
  intros. unfold read_u32. rewrite checked_add_in, get_range_in by lia. by replace (i + 4 - i) with 4 by lia.
Qed.

Lemma le_join_inj l k : length l = length k -> Forall byte l -> Forall byte k -> le_join l = le_join k -> l = k.
Proof.
  intros El Hl Hk E. rewrite <- (le_bytes_join l Hl), <- (le_bytes_join k Hk). by rewrite El, E.
Qed.

(** Equal words are equal bytes. *)
Lemma words_repeat source c p v :
  Forall byte source -> 0 <= c -> 0 <= p -> read_u32 source c = Some v -> read_u32 source p = Some v ->
  repeats source p (p + 4) (p - c).
Proof.
  intros Hb Hc Hp (Lc & Ec)%read_u32_some (Lp & Ep)%read_u32_some i Hi; [|done..].
  assert (slice source c 4 = slice source p 4) as E.
  { apply le_join_inj; [|by apply slice_bytes..|by rewrite <- Ec].
    pose proof (length_slice source c 4). pose proof (length_slice source p 4). unfold len in *. lia. }
  unfold get. transitivity (slice source p 4 !! Z.to_nat (i - p)).
  - rewrite lookup_slice by lia. f_equal. lia.
  - rewrite <- E, lookup_slice by lia. f_equal. lia.
Qed.

Lemma extend_back_ok fuel source anchor b o d :
  0 <= anchor <= b -> 0 <= o -> d = b - o -> b < Z.of_nat fuel ->
  exists b' o', extend_back fuel source anchor b o = Some (b', o') /\ anchor <= b' <= b /\ 0 <= o' /\ d = b' - o' /\
    repeats source b' b d.
Proof.
  revert b o. induction fuel as [|fuel IH]; intros b o Hb Ho Hd Hf; cbn [extend_back]; [lia|].
  assert (exists b' o', Some (b, o) = Some (b', o') /\ anchor <= b' <= b /\ 0 <= o' /\ d = b' - o' /\
    repeats source b' b d) as Hstop by (exists b, o; repeat split; try (done || lia); intros i; lia).
  destruct (Z.ltb_spec anchor b), (Z.ltb_spec 0 o); cbn [andb]; try exact Hstop.
  rewrite !checked_sub_in by lia. case_decide as Eg; [|exact Hstop].
  destruct (IH (b - 1) (o - 1)) as (b' & o' & E & Hb' & Ho' & Hd' & Hr); [lia..|].
  exists b', o'. rewrite E. repeat split; try (done || lia). intros i Hi.
  destruct (decide (i = b - 1)) as [->|]; [|apply Hr; lia]. rewrite Eg. f_equal. lia.
Qed.

Lemma get_lt (l : list Z) i : 0 <= i < len l -> get l i = Some (l !!! Z.to_nat i).
Proof. intros. unfold get. apply list_lookup_lookup_total_lt. unfold len in *. lia. Qed.

Lemma common_length_loop_ok fuel source first second limit n :
  0 <= first < second -> limit <= len source -> len source < 2 ^ 63 -> 0 <= n -> second + n <= limit ->
  limit - (second + n) < Z.of_nat fuel -> repeats source second (second + n) (second - first) ->
  exists m, common_length_loop fuel source first second limit n = Some m /\ n <= m /\ second + m <= limit /\
    repeats source second (second + m) (second - first) /\
    (second + m < limit -> get source (second + m) <> get source (first + m)).
Proof.
  revert n. induction fuel as [|fuel IH]; intros n Hs Hl Hb Hn Hle Hf Hr; cbn [common_length_loop]; [lia|].
  rewrite !checked_add_in by lia.
  assert (second + n < limit -> get source (second + n) <> get source (first + n) ->
    exists m, Some n = Some m /\ n <= m /\ second + m <= limit /\ repeats source second (second + m) (second - first) /\
      (second + m < limit -> get source (second + m) <> get source (first + m))) as Hstop
    by (intros; exists n; repeat split; (done || lia)).
  destruct (Z.leb_spec limit (second + n)); [exists n; repeat split; (done || lia)|].
  rewrite (get_lt source (first + n)), (get_lt source (second + n)) in * by lia.
  destruct (Z.eqb_spec (source !!! Z.to_nat (first + n)) (source !!! Z.to_nat (second + n))) as [E|]; [|apply Hstop; congruence].
  unfold saturating_add, UINT64_MAX. rewrite Z.min_l by lia.
  destruct (IH (n + 1)) as (m & Em & ? & ? & ? & ?); [lia..| |exists m; repeat split; (done || lia)].
  intros i Hi. destruct (decide (i = second + n)) as [->|]; [|apply Hr; lia].
  rewrite !get_lt by lia. rewrite <- E. do 2 f_equal. lia.
Qed.

(** The match around an equal word: it reaches beyond [position] and repeats
    what stands a fixed distance before. *)
Lemma search_ok source limit anchor position candidate v :
  Forall byte source -> len source <= MAX_INPUT -> limit = len source - 5 -> 0 <= anchor <= position ->
  position <= len source - 12 -> 0 <= candidate < position ->
  read_u32 source candidate = Some v -> read_u32 source position = Some v ->
  exists b o n, extend_back (S (Z.to_nat position)) source anchor position candidate = Some (b, o) /\
    common_length source (o + 4) (b + 4) limit = Some n /\
    anchor <= b <= position /\ 0 <= o < b /\ 0 <= n /\ position + 4 <= b + (4 + n) <= limit /\
    repeats source b (b + (4 + n)) (b - o).
Proof.
  unfold MAX_INPUT. intros Hb Hl -> Ha Hp Hc Ec Ep.
  pose proof (words_repeat source candidate position v Hb ltac:(lia) ltac:(lia) Ec Ep) as Hw.
  destruct (extend_back_ok (S (Z.to_nat position)) source anchor position candidate (position - candidate))
    as (b & o & Eb & Hb1 & Ho & Hd & Hr); [lia..|].
  rewrite Hd in Hw, Hr.
  assert (repeats source b (position + 4) (b - o)) as Hr4.
  { intros i Hi. destruct (Z.lt_ge_cases i position); [apply Hr; lia|apply Hw; lia]. }
  destruct (common_length_loop_ok (S (Z.to_nat (len source - 5))) source (o + 4) (b + 4) (len source - 5) 0)
    as (n & En & ? & Hn & Hrn & Hmax); [lia..|intros i; lia|].
  exists b, o, n. replace (b + 4 - (o + 4)) with (b - o) in Hrn by lia.
  assert (position + 4 <= b + (4 + n)) as Hlong.
  { destruct (Z.lt_ge_cases (b + 4 + n) (position + 4)); [|lia]. destruct Hmax; [lia|].
    rewrite (Hr4 (b + 4 + n)) by lia. f_equal. lia. }
  repeat split; try (done || lia). intros i Hi.
  destruct (Z.lt_ge_cases i (b + 4)); [apply Hr4; lia|apply Hrn; lia].
Qed.

(** ** Sizes *)

Lemma len_encode_length_bound n : 0 <= n -> 255 * len (encode_length n) <= n + 240.
Proof.
  intros. unfold encode_length. destruct (Z.leb_spec 15 n); [|unfold len; cbn [length]; lia].
  rewrite len_length_bytes by lia. dlia.
Qed.

Lemma len_encode_length_small n : n < 15 -> len (encode_length n) = 0.
Proof. intros. unfold encode_length. by rewrite (proj2 (Z.leb_gt _ _)). Qed.

Lemma len_le_bytes n v : len (le_bytes n v) = Z.of_nat n.
Proof. unfold len. by rewrite length_le_bytes. Qed.

Lemma len_one (b : Z) : len [b] = 1.
Proof. done. Qed.

(** A sequence takes at most 256 bytes for 255 bytes of the source. *)
Lemma len_encode_seq s : 4 <= mlen s -> 255 * len (encode_seq s) <= 256 * (len (lits s) + mlen s).
Proof.
  intros Hm. unfold encode_seq. rewrite !len_app. pose proof (len_nonneg (lits s)).
  rewrite len_le_bytes, len_one.
  pose proof (len_encode_length_bound (len (lits s)) ltac:(lia)).
  destruct (Z.lt_ge_cases (mlen s - 4) 15).
  - rewrite (len_encode_length_small (mlen s - 4)) by done. lia.
  - pose proof (len_encode_length_bound (mlen s - 4) ltac:(lia)). lia.
Qed.

Lemma len_encode_last low last : 255 * len (encode_last low last) <= 256 * len last + 495.
Proof.
  unfold encode_last. rewrite !len_app. pose proof (len_nonneg last). unfold len at 1. cbn [length].
  pose proof (len_encode_length_bound (len last) ltac:(lia)). lia.
Qed.

Lemma bound_small n : 0 <= n <= MAX_INPUT -> bound n = n + n / 255 + 16.
Proof.
  unfold MAX_INPUT, bound, saturating_add, UINT64_MAX. intros.
  assert (0 <= n / 255 <= n) by dlia. rewrite !Z.min_l; lia.
Qed.

Lemma within_bound n size : 0 <= n <= MAX_INPUT -> 255 * size <= 256 * n + 4080 -> size <= bound n.
Proof. intros Hn Hs. rewrite bound_small by done. dlia. Qed.

(** ** The loop *)

Lemma seqs_valid_app end_ out ss s :
  seqs_valid end_ out (ss ++ [s]) <-> seqs_valid end_ out ss /\ seq_valid end_ (seqs_end out ss) s.
Proof.
  revert out. induction ss as [|t ss IH]; intros out; cbn [app seqs_valid].
  - cbn. tauto.
  - rewrite IH. unfold seqs_end. cbn [fold_left]. tauto.
Qed.

Lemma encode_app ss s : encode (ss ++ [s]) = encode ss ++ encode_seq s.
Proof. unfold encode. rewrite map_app, concat_app. cbn. by rewrite app_nil_r. Qed.

(** The entries the search uses are 16-bit numbers. *)
Definition table_ok (table : list Z) : Prop :=
  TABLE_ENTRIES <= len table /\ Forall (fun e => 0 <= e < 2 ^ 16) (take (Z.to_nat TABLE_ENTRIES) table).

(** The sequences [ss] stand in the output for the source up to [anchor]. *)
Record progress (source output : list Z) (size : nat) (ss : list seq) (anchor : Z) (s : work) : Prop := {
  p_buffer : buffer s.1 = splice output 0 (encode ss);
  p_at : at_ s.1 = len (encode ss);
  p_room : len (encode ss) <= len output;
  p_size : 255 * len (encode ss) <= 256 * anchor;
  p_valid : seqs_valid (len source) 0 ss;
  p_end : seqs_end 0 ss = anchor;
  p_expand : expand ss = take (Z.to_nat anchor) source;
  p_anchor : 0 <= anchor <= len source - 5;
  p_table : table_ok s.2;
  p_table_size : length s.2 = size }.

Lemma match_expands source anchor b d found :
  0 <= anchor <= b -> 1 <= d <= b -> 0 <= found -> b + found <= len source -> repeats source b (b + found) d ->
  expand_seq (take (Z.to_nat anchor) source) (Seq (slice source anchor (b - anchor)) d found) =
  take (Z.to_nat (b + found)) source.
Proof.
  intros Ha Hd Hf Hl Hr. unfold expand_seq, len in *. cbn [lits off mlen].
  assert (take (Z.to_nat anchor) source ++ slice source anchor (b - anchor) = take (Z.to_nat b) source) as ->.
  { unfold slice. rewrite take_take_drop. f_equal. lia. }
  rewrite copy_match_take; [f_equal; lia|lia|lia|]. intros i Hi.
  pose proof (Hr (Z.of_nat i) ltac:(lia)) as E. unfold get in E. rewrite Nat2Z.id in E. rewrite E. f_equal. lia.
Qed.

(** There was less room than [bound] asks for. *)
Definition no_room (source output : list Z) (size : nat) (s : work) : Prop :=
  len (buffer s.1) = len output /\ length s.2 = size /\ len output < bound (len source).

Section compressing.
Context (source output : list Z) (size : nat).
Context (Hbytes : Forall byte source) (Hlen : 12 < len source <= MAX_INPUT) (Hout : len output < 2 ^ 63).

Notation prog := (progress source output size).
Notation short := (no_room source output size).

Lemma set_entry_progress ss anchor s slot v :
  prog ss anchor s -> 0 <= v < 2 ^ 16 -> prog ss anchor (s.1, <[Z.to_nat slot := v]> s.2).
Proof.
  intros [] Hv. split; try done; cbn.
  - destruct p_table0. split; [unfold len in *; by rewrite length_insert|].
    destruct (decide (Z.to_nat slot < Z.to_nat TABLE_ENTRIES)%nat).
    + rewrite take_insert_lt by done. by apply Forall_insert.
    + by rewrite take_insert_ge by lia.
  - by rewrite length_insert.
Qed.

Lemma hash_bound v : 0 <= hash v < TABLE_ENTRIES.
Proof.
  unfold hash, TABLE_ENTRIES. rewrite Z.land_comm. change 4096 with (2 ^ 12). apply land_bound; lia.
Qed.

Lemma table_entry t v : table_ok t -> exists e, get t (hash v) = Some e /\ 0 <= e < 2 ^ 16.
Proof.
  intros [Ht Hf]. pose proof (hash_bound v). exists (t !!! Z.to_nat (hash v)).
  assert (t !! Z.to_nat (hash v) = Some (t !!! Z.to_nat (hash v))) as E
    by (apply list_lookup_lookup_total_lt; unfold len in *; lia).
  split; [exact E|]. apply (Forall_lookup_1 _ _ (Z.to_nat (hash v)) _ Hf). by rewrite lookup_take_lt by lia.
Qed.

(** A sequence written for a match of the source. *)
Lemma sequence_progress ss anchor b o found s :
  prog ss anchor s -> anchor <= b <= len source - 12 -> 0 <= o < b -> 4 <= found -> b + found <= len source - 5 ->
  repeats source b (b + found) (b - o) ->
  post (writing (writer_sequence (slice source anchor (b - anchor)) (b - o) found) s)
    (fun s' _ => exists ss', prog ss' (b + found) s') short.
Proof.
  intros [] Hb Ho Hf He Hr. unfold MAX_INPUT in *. unfold writing. destruct s as [w t]. cbn [fst snd] in *.
  assert (len (slice source anchor (b - anchor)) = b - anchor) as El by (apply length_slice; unfold len in *; lia).
  set (q := Seq (slice source anchor (b - anchor)) (b - o) found).
  assert (len (splice output 0 (encode ss)) = len output) as Es by (apply len_splice; lia).
  pose proof (len_encode_seq q ltac:(cbn; lia)) as Hq. cbn [lits mlen q] in Hq. rewrite El in Hq.
  pose proof (len_nonneg (encode ss)).
  pose proof (emits_sequence (slice source anchor (b - anchor)) (b - o) found ltac:(lia) ltac:(lia) ltac:(lia) w) as Hem.
  fold q in Hem. specialize (Hem ltac:(unfold in_room; rewrite p_at0, p_buffer0; lia)).
  destruct (writer_sequence _ _ _ w) as [w' [[]|[]|]]; cbn [post buffer at_] in Hem |- *; [| |done].
  - destruct Hem as [-> Hroom]. rewrite p_at0, p_buffer0, Es in Hroom. exists (ss ++ [q]).
    assert (expand_seq (take (Z.to_nat anchor) source) q = take (Z.to_nat (b + found)) source) as Ex
      by (apply match_expands; (done || lia)).
    split; cbn [fst snd buffer at_]; rewrite ?p_at0, ?p_buffer0, ?encode_app, ?len_app; try done; try lia.
    + rewrite <- (Z.add_0_l (len (encode ss))) at 1. apply splice_splice; lia.
    + apply seqs_valid_app. split; [done|]. rewrite p_end0. unfold seq_valid, q. cbn [lits off mlen]. rewrite El.
      split; [by apply slice_bytes|].
      lia.
    + unfold seqs_end in *. rewrite fold_left_app. cbn. rewrite p_end0. unfold seq_end, q. cbn. lia.
    + unfold expand in *. rewrite fold_left_app. cbn. by rewrite p_expand0.
  - destruct Hem as [Hw Hno]. rewrite p_at0, p_buffer0, Es in *. unfold no_room. cbn. repeat split; try done.
    apply Z.lt_le_trans with (len (encode ss) + len (encode_seq q)); [lia|]. apply within_bound; unfold MAX_INPUT; lia.
Qed.

Lemma enter_back_progress ss anchor position s :
  prog ss anchor s -> 2 <= position <= len source ->
  post (enter_back source (len source - 12) position s) (fun s' _ => prog ss anchor s') short.
Proof.
  intros Hp Hb. unfold MAX_INPUT in Hlen. unfold enter_back. rewrite checked_sub_in by lia.
  destruct (Z.leb_spec (position - 2) (len source - 12)); [|done].
  destruct (read_u32 source (position - 2)) as [v|]; [|done].
  erewrite bind_ok by reflexivity. destruct (table_entry s.2 v (p_table _ _ _ _ _ _ Hp)) as (e & -> & _).
  unfold some. rewrite bind_ok_or. unfold u16_try_from. rewrite (proj2 (Z.ltb_lt _ _)) by lia.
  apply set_entry_progress; [done|lia].
Qed.

Definition turned (position : Z) (s : work) (next : Z * Z * Z) : Prop :=
  let '(a, p, m) := next in
  (exists ss, prog ss a s) /\ a <= p /\ position < p /\ 0 <= m < 2 ^ 32.

Lemma take_match_ok ss anchor position candidate v s :
  prog ss anchor s -> anchor <= position <= len source - 12 -> 0 <= candidate < position ->
  read_u32 source candidate = Some v -> read_u32 source position = Some v ->
  post (take_match source (len source - 5) (len source - 12) anchor position candidate s) (turned position) short.
Proof.
  intros Hp Ha Hc Ec Ep. pose proof (p_anchor _ _ _ _ _ _ Hp) as Hanchor. unfold MAX_INPUT in Hlen.
  destruct (search_ok source (len source - 5) anchor position candidate v)
    as (b & o & n & Eb & En & Hb & Ho & Hn & Hf & Hr); unfold MAX_INPUT; try (done || lia).
  unfold take_match. erewrite bind_ok by (unfold looped; rewrite Eb; reflexivity). unfold some, MIN_MATCH.
  rewrite bind_ok_or, checked_add_in, bind_ok_or, checked_add_in by lia.
  erewrite bind_ok by (unfold looped; rewrite En; reflexivity).
  unfold saturating_add, UINT64_MAX. rewrite Z.min_l by lia.
  rewrite bind_ok_or, get_range_in, bind_ok_or, checked_sub_in by lia.
  eapply post_bind; [apply (sequence_progress ss); (done || lia)|]. intros s1 _ [ss' Hp'].
  rewrite bind_ok_or, checked_add_in by lia.
  eapply post_bind; [apply (enter_back_progress ss' (b + (4 + n))); (done || lia)|].
  intros s2 [] Hp2. cbn. split; [by exists ss'|]. lia.
Qed.

Lemma compress_turn_ok ss anchor position misses s :
  prog ss anchor s -> anchor <= position <= len source - 12 -> 0 <= misses < 2 ^ 32 ->
  post (compress_turn source (len source - 5) (len source - 12) anchor position misses s) (turned position) short.
Proof.
  intros Hp Ha Hm. pose proof (p_anchor _ _ _ _ _ _ Hp). unfold MAX_INPUT in Hlen. unfold compress_turn, some.
  rewrite bind_ok_or. destruct (read_u32 source position) as [v|] eqn:Ev; [|by rewrite read_u32_in in Ev by lia].
  erewrite bind_ok by reflexivity. rewrite bind_ok_or.
  destruct (table_entry s.2 v (p_table _ _ _ _ _ _ Hp)) as (c & -> & Hc).
  rewrite bind_ok_or. unfold u16_try_from at 1. rewrite (proj2 (Z.ltb_lt _ _)) by lia.
  erewrite bind_ok by reflexivity.
  pose proof (set_entry_progress ss anchor s (hash v) position Hp ltac:(lia)) as Hp1. cbn zeta.
  destruct (_ && _) eqn:E.
  - apply andb_true_iff in E as [[E1%Z.ltb_lt _]%andb_true_iff E2%bool_decide_eq_true].
    eapply take_match_ok; (done || lia).
  - unfold UINT32_MAX, saturating_add, UINT64_MAX, SKIP_TRIGGER.
    assert (0 <= Z.shiftr (Z.min (misses + 1) (2 ^ 32 - 1)) 6 < 2 ^ 32) by (rewrite Z.shiftr_div_pow2 by lia; dlia).
    rewrite Z.min_l by lia. rewrite bind_ok_or, checked_add_in by lia. cbn. split; [by exists ss|]. lia.
Qed.

Lemma compress_loop_ok fuel ss anchor position misses s :
  prog ss anchor s -> anchor <= position -> 0 <= misses < 2 ^ 32 -> len source - position < Z.of_nat fuel -> 0 < Z.of_nat fuel ->
  post (compress_loop fuel source (len source - 5) (len source - 12) anchor position misses s)
    (fun s' a => exists ss', prog ss' a s') short.
Proof.
  revert ss anchor position misses s. induction fuel as [|fuel IH]; intros ss anchor position misses s Hp Ha Hm Hf Hf0; [lia|].
  cbn [compress_loop]. destruct (Z.leb_spec position (len source - 12)); [|by exists ss].
  eapply post_bind; [by apply (compress_turn_ok ss)|].
  intros s' [[a p] m] ((ss' & Hp') & ? & ? & ?). eapply IH; try done; lia.
Qed.
End compressing.

(** ** The whole source *)

(** The code of the block stands at the beginning of the output, which is
    otherwise as it was; or there was less room than [bound]. *)
Definition compressed (source output : list Z) (size : nat) (s : work) (n : Z) : Prop :=
  exists data, n = len data /\ n <= len output /\ n <= bound (len source) /\ 0 < n /\ block_is 0 data source /\
    Forall byte data /\ buffer s.1 = splice output 0 data /\ length s.2 = size.

Lemma encode_length_bytes n : Forall byte (encode_length n).
Proof.
  unfold encode_length, length_bytes. destruct (15 <=? n); [|constructor]. apply Forall_app. split.
  - by apply Forall_replicate.
  - apply Forall_singleton. unfold byte. dlia.
Qed.

Lemma encode_last_bytes low last : 0 <= low < 16 -> Forall byte last -> Forall byte (encode_last low last).
Proof.
  intros. pose proof (len_nonneg last). unfold encode_last. rewrite !Forall_app. split; [|split; [apply encode_length_bytes|done]].
  apply Forall_singleton. unfold byte. lia.
Qed.

Lemma encode_bytes end_ out ss : 0 <= out -> seqs_valid end_ out ss -> Forall byte (encode ss).
Proof.
  revert out. induction ss as [|s ss IH]; intros out Ho H; [constructor|]. destruct H as [Hs H].
  pose proof (seq_end_more _ _ _ Hs) as He. destruct Hs as (Hb & _ & _ & _ & Hm & _). pose proof (len_nonneg (lits s)).
  change (encode (s :: ss)) with (encode_seq s ++ encode ss). apply Forall_app. split; [|by apply (IH (seq_end out s)); [lia|]].
  unfold encode_seq. rewrite !Forall_app. repeat split; try (apply encode_length_bytes || apply le_bytes_byte || done).
  apply Forall_singleton. unfold byte. lia.
Qed.

Lemma last_written source output ss last w t :
  w = MkWriter (splice output 0 (encode ss)) (len (encode ss)) -> len (encode ss) <= len output ->
  len output < 2 ^ 63 -> Forall byte source -> len source <= MAX_INPUT ->
  255 * len (encode ss) <= 256 * (len source - len last) -> seqs_valid (len source) 0 ss -> source = expand ss ++ last ->
  post ((writing (writer_last last);;; s <- got;; done (at_ s.1)) (w, t))
    (compressed source output (length t)) (no_room source output (length t)).
Proof.
  intros -> Hr Ho Hb Hl Hs Hv Hx. set (data := encode ss ++ encode_last 0 last).
  assert (Forall byte last) as Hlb by (rewrite Hx, Forall_app in Hb; tauto).
  assert (len (splice output 0 (encode ss)) = len output) as Es by (apply len_splice; lia).
  pose proof (len_nonneg last). pose proof (len_nonneg (encode ss)). pose proof (len_encode_last 0 last) as Hlast.
  assert (len last <= len source) by (rewrite Hx, len_app; pose proof (len_nonneg (expand ss)); lia).
  assert (len data = len (encode ss) + len (encode_last 0 last)) as Hd by (unfold data; apply len_app).
  assert (1 <= len (encode_last 0 last)) by (unfold encode_last; rewrite len_app, len_one; pose proof (len_nonneg (encode_length (len last) ++ last)); lia).
  pose proof (within_bound (len source) (len data) ltac:(lia) ltac:(lia)) as Hbound.
  pose proof (emits_last last ltac:(unfold MAX_INPUT in *; lia) (MkWriter (splice output 0 (encode ss)) (len (encode ss)))) as Hem.
  specialize (Hem ltac:(unfold in_room; cbn [buffer at_]; lia)). unfold writing, bind at 1. cbn [fst snd].
  destruct (writer_last last _) as [w' [[]|[]|]]; cbn [post buffer at_] in Hem; [| |done].
  - destruct Hem as [-> Hroom]. unfold bind, got, done, post, compressed. cbn [fst snd at_ buffer]. exists data.
    split; [lia|]. split; [lia|]. split; [lia|]. split; [lia|].
    split; [|split; [|split; [|done]]].
    + by exists ss, last.
    + apply Forall_app. split; [by apply (encode_bytes (len source) 0)|by apply encode_last_bytes].
    + rewrite <- (Z.add_0_l (len (encode ss))) at 1. apply splice_splice; lia.
  - destruct Hem as [Hw Hno]. cbn. unfold no_room. cbn. repeat split; lia.
Qed.

Lemma clear_table_ok table :
  TABLE_ENTRIES <= len table -> table_ok (clear_table table) /\ length (clear_table table) = length table.
Proof.
  intros Ht. unfold len, TABLE_ENTRIES in *.
  assert (length (clear_table table) = length table) as El
    by (unfold clear_table, TABLE_ENTRIES; rewrite length_app, length_replicate, length_drop; lia).
  split; [|done]. split; [unfold len, TABLE_ENTRIES; lia|]. unfold clear_table, TABLE_ENTRIES.
  rewrite take_app_le by (rewrite length_replicate; lia). by apply Forall_take, Forall_replicate.
Qed.

Lemma compress_body_ok source output table :
  Forall byte source -> len source <= MAX_INPUT -> len output < 2 ^ 63 ->
  TABLE_ENTRIES <= len table ->
  post (compress_body source (MkWriter output 0, table))
    (compressed source output (length table)) (no_room source output (length table)).
Proof.
  intros Hb Hl Ho Ht. pose proof (len_nonneg source). pose proof (len_nonneg output). unfold compress_body, MF_LIMIT.
  assert (MkWriter output 0 = MkWriter (splice output 0 (encode [])) (len (encode []))) as Ew
    by (unfold encode; cbn [map concat]; rewrite splice_nil by lia; done).
  destruct (Z.leb_spec (len source) 12).
  - apply (last_written source output []); try (done || (change (len (encode [])) with 0; lia)).
  - erewrite bind_ok by reflexivity. erewrite bind_ok by reflexivity. unfold some. cbn [fst snd].
    rewrite bind_ok_or, checked_sub_in, bind_ok_or, checked_sub_in by (unfold LAST_LITERALS; lia).
    destruct (clear_table_ok table Ht) as [Htab Hsize]. unfold MAX_INPUT in *. eapply post_bind.
    + apply (compress_loop_ok source output (length table) Hb) with (ss := []); unfold MAX_INPUT; try (done || lia).
      * rewrite Ew. by split; cbn [fst snd]; try (done || lia).
      * unfold len. lia.
    + intros [w t] anchor [ss []]. cbn [fst snd] in *. rewrite bind_ok_or, get_range_in by lia.
      assert (expand ss ++ slice source anchor (len source - anchor) = source) as Hx.
      { rewrite p_expand0. unfold slice. rewrite take_take_drop, take_ge; [done|]. unfold len. lia. }
      rewrite <- p_table_size0. apply (last_written source output ss); unfold MAX_INPUT; try (done || lia).
      * destruct w. cbn in *. congruence.
      * assert (len (slice source anchor (len source - anchor)) = len source - anchor) as ->
          by (apply length_slice; unfold len in *; lia). lia.
Qed.

Lemma compress_ok source output table :
  Forall byte source -> len source <= MAX_INPUT -> len output < 2 ^ 63 ->
  TABLE_ENTRIES <= len table ->
  let '(o, t, r) := compress source output table in
  post ((MkWriter o 0, t), r) (compressed source output (length table)) (no_room source output (length table)).
Proof.
  intros Hb Hl Ho Ht. unfold compress.
  rewrite (proj2 (Z.ltb_ge _ _) Hl), (proj2 (Z.ltb_ge _ _) Ht). cbn [orb].
  pose proof (compress_body_ok source output table Hb Hl Ho Ht) as Hc.
  destruct (compress_body _ _) as [[w t] [n|e|]]; cbn in Hc |- *; done.
Qed.
