(* ===== verification/Lz4Spec.v ===== *)
(** * What the LZ4 functions promise to their callers

    The decompressor decides the format exactly, whatever bytes it is given;
    what the compressor puts out decompresses to what it was given, and a
    buffer of [bound] bytes is always enough. *)

From S2P Require Import Prelude RustStd Lz4 Lz4Format Lz4Compress.

(** C8. [decompress] always returns, whatever the input: it writes only within
    its output, and it succeeds with the output [o] exactly when the input is
    the code of a block that means [o] and fills the output.  For an empty
    output only the one-byte input 0 is accepted. *)
Theorem lz4_decompress_exact input output :
  Forall byte input -> len input < 2 ^ 63 -> len output < 2 ^ 63 ->
  (exists o r, decompress input output = (o, r) /\ r <> Unfinished /\ len o = len output) /\
  (0 < len output -> forall o, decompress input output = (o, Ok tt) <-> block_of input o /\ len o = len output) /\
  (output = [] -> decompress input output = ([], if decide (input = [0]) then Ok tt else Err Malformed)).
Proof.
  intros Hb Hi Ho. destruct (decide (output = [])) as [->|Hne].
  - assert (decompress input [] = ([], if decide (input = [0]) then Ok tt else Err Malformed)) as E.
    { unfold decompress. destruct input as [|b input]; [by case_decide|].
      by rewrite (proj2 (Z.eqb_neq (len (b :: input)) 0)) by (unfold len; cbn; lia). }
    rewrite E. split; [eexists [], _; split; [done|]; by case_decide|]. split; [done|]. done.
  - assert (0 < len output) as Hp by (destruct output; [done|unfold len; cbn; lia]).
    pose proof (decompress_sound input output Hb Hi Ho Hp) as Hs. split; [|split; [|done]].
    + destruct (decompress input output) as [o [[]|e|]]; cbn in Hs; [| |done]; eexists o, _; by (repeat split; try apply Hs).
    + intros _ o. split; [intros E; by rewrite E in Hs|]. intros [Hbl Hlo]. by apply decompress_complete.
Qed.

Lemma lz4_decompress_exact_witness :
  decompress [31; 7; 1; 0; 0; 80; 7; 7; 7; 7; 7] (replicate 25 0) = (replicate 25 7, Ok tt) /\
  block_of [31; 7; 1; 0; 0; 80; 7; 7; 7; 7; 7] (replicate 25 7).
Proof.
  assert (decompress [31; 7; 1; 0; 0; 80; 7; 7; 7; 7; 7] (replicate 25 0) = (replicate 25 7, Ok tt)) as E
    by (vm_compute; reflexivity).
  split; [exact E|].
  destruct (lz4_decompress_exact [31; 7; 1; 0; 0; 80; 7; 7; 7; 7; 7] (replicate 25 0)) as (_ & H & _);
    [repeat constructor; lia|reflexivity|reflexivity|]. apply (proj1 (H ltac:(reflexivity) _) E).
Defined.

(** ** Through the interface *)

Lemma take_splice_0 {A} (l m : list A) : len m <= len l -> take (length m) (splice l 0 m) = m.
Proof.
  intros Hl. pose proof (take_splice l 0 m ltac:(lia) ltac:(lia)) as E. unfold len in E.
  by rewrite Z.add_0_l, Nat2Z.id in E.
Qed.

Lemma drop_splice_0 {A} (l m : list A) : drop (length m) (splice l 0 m) = drop (length m) l.
Proof. unfold splice. cbn [Z.to_nat take app]. rewrite take_0. cbn [app]. by rewrite drop_app_length. Qed.

(** What is left of the block of no bytes. *)
Lemma empty_block low data : block_is low data [] -> data = [low].
Proof.
  intros (ss & last & -> & _ & Hv & E). symmetry in E. apply app_eq_nil in E as [_ ->].
  destruct ss as [|s ss].
  - reflexivity.
  - destruct Hv as [(_ & ? & _ & ? & _) _]. pose proof (len_nonneg (lits s)). change (len (@nil Z)) with 0 in *. lia.
Qed.

Lemma decompress_block data source target :
  len data < 2 ^ 63 -> len source < 2 ^ 63 -> len target = len source -> block_is 0 data source ->
  decompress data target = (source, Ok tt).
Proof.
  intros Hd Hs Ht Hb. destruct (decide (source = [])) as [->|Hne].
  - apply empty_block in Hb as ->. assert (target = []) as -> by (destruct target; [done|unfold len in Ht; cbn in Ht; lia]).
    done.
  - assert (0 < len source) by (destruct source; [done|unfold len; cbn; lia]).
    apply decompress_complete; try (done || lia). exists 0. split; [lia|done].
Qed.

(** What one call of each function does, for the callers in the kernel. *)
Lemma lz4_calls source output capacity table :
  Forall byte source -> len source <= MAX_INPUT -> 0 <= capacity <= len output -> capacity < 2 ^ 63 ->
  TABLE_ENTRIES <= len table ->
  exists output' table' n,
    tunix_lz4_compress (Some source) (len source) (Some output) capacity (Some table) = (Some output', Some table', Ok n) /\
    0 <= n <= capacity /\ len output' = len output /\ length table' = length table /\
    (bound (len source) <= capacity -> 0 < n <= bound (len source)) /\
    drop (Z.to_nat capacity) output' = drop (Z.to_nat capacity) output /\
    Forall byte (take (Z.to_nat n) output') /\
    (0 < n -> forall blob target,
       take (Z.to_nat n) blob = take (Z.to_nat n) output' -> len source <= len target ->
       tunix_lz4_decompress (Some blob) n (Some target) (len source) =
         (Some (source ++ drop (length source) target), Ok 0)).
Proof.
  unfold MAX_INPUT. intros Hb Hl Hc Hc63 Ht. pose proof (len_nonneg source).
  set (o := take (Z.to_nat capacity) output). set (t := take (Z.to_nat TABLE_ENTRIES) table).
  assert (len o = capacity) as Ho by (unfold o, len in *; rewrite length_take; lia).
  assert (len t = TABLE_ENTRIES) as Htl by (unfold t, len, TABLE_ENTRIES in *; rewrite length_take; lia).
  pose proof (compress_ok source o t Hb ltac:(unfold MAX_INPUT; lia) ltac:(lia) ltac:(lia)) as Hr.
  unfold tunix_lz4_compress, ffi_bytes, isize_max. rewrite !(proj2 (Z.ltb_ge _ _)) by lia.
  rewrite (take_ge source) by (unfold len; lia). fold o t.
  destruct (compress source o t) as [[o' t'] [n|[]|]]; cbn [post] in Hr; [| |done].
  - destruct Hr as (data & -> & Hn & Hbound & Hpos & Hblock & Hdb & Eo & Et). cbn [fst snd buffer] in Eo, Et. subst o'.
    assert (length (splice o 0 data) = Z.to_nat capacity) as Els by (rewrite length_splice; unfold len in *; lia).
    assert (take (Z.to_nat (len data)) (splice o 0 data ++ drop (Z.to_nat capacity) output) = data) as Etk.
    { unfold len in *. rewrite Nat2Z.id, take_app_le, take_splice_0 by (unfold len; lia). done. }
    eexists _, _, _. split; [reflexivity|]. split; [lia|].
    split; [unfold len in *; rewrite length_app, length_drop; lia|].
    split; [unfold len, TABLE_ENTRIES in *; rewrite length_app, length_drop; lia|]. split; [done|].
    split; [by rewrite drop_app_length' by done|]. split; [by rewrite Etk|].
    intros _ blob target Ebl Htarget. rewrite Etk in Ebl. unfold tunix_lz4_decompress, ffi_bytes, isize_max.
    rewrite !(proj2 (Z.ltb_ge _ _)) by lia. rewrite Ebl, (decompress_block data source).
    + unfold len. by rewrite Nat2Z.id.
    + lia.
    + lia.
    + unfold len in *. rewrite length_take. lia.
    + done.
  - destruct Hr as (Hlo & Hlt & Hsmall). cbn [fst snd buffer] in Hlo, Hlt.
    eexists _, _, 0. split; [reflexivity|]. split; [lia|].
    split; [unfold len in *; rewrite length_app, length_drop; lia|].
    split; [unfold len, TABLE_ENTRIES in *; rewrite length_app, length_drop; lia|]. split; [lia|].
    split; [rewrite drop_app_length' by (unfold len in *; lia); done|]. split; [constructor|lia].
Qed.

(** C5. The two functions the kernel calls: [tunix_lz4_compress] returns, for
    every source of at most 65535 bytes, whatever the output buffer and the
    table hold; it writes nothing beyond the capacity; with a capacity of
    [bound] it succeeds; and when it succeeds, with a size within the capacity
    and [bound], [tunix_lz4_decompress] of that many bytes, wherever they have
    been copied to, gives back exactly the source, over any buffer. *)
Theorem lz4_roundtrip source output capacity table :
  Forall byte source -> len source <= MAX_INPUT -> 0 <= capacity <= len output -> capacity < 2 ^ 63 ->
  TABLE_ENTRIES <= len table ->
  exists output' table' n,
    tunix_lz4_compress (Some source) (len source) (Some output) capacity (Some table) = (Some output', Some table', Ok n) /\
    0 <= n <= capacity /\ drop (Z.to_nat capacity) output' = drop (Z.to_nat capacity) output /\
    (bound (len source) <= capacity -> 0 < n <= bound (len source)) /\
    (0 < n -> forall blob target,
       take (Z.to_nat n) blob = take (Z.to_nat n) output' -> len source <= len target ->
       tunix_lz4_decompress (Some blob) n (Some target) (len source) =
         (Some (source ++ drop (length source) target), Ok 0)).
Proof.
  intros Hb Hl Hc Hc63 Ht. destruct (lz4_calls source output capacity table Hb Hl Hc Hc63 Ht)
    as (o & t & n & E & Hn & _ & _ & Hbd & Hd & _ & Hr). by exists o, t, n.
Qed.

Lemma lz4_roundtrip_witness :
  exists output' table' n,
    tunix_lz4_compress (Some [1; 2; 3; 1; 2; 3]) 6 (Some (replicate 30 9)) 25 (Some (replicate 4096 7)) =
      (Some output', Some table', Ok n) /\
    0 < n /\
    tunix_lz4_decompress (Some output') n (Some (replicate 8 0)) 6 = (Some [1; 2; 3; 1; 2; 3; 0; 0], Ok 0).
Proof.
  destruct (lz4_roundtrip [1; 2; 3; 1; 2; 3] (replicate 30 9) 25 (replicate 4096 7))
    as (o & t & n & E & Hn & _ & Hb & Hr).
  - repeat constructor; lia.
  - unfold len, MAX_INPUT. cbn. lia.
  - unfold len. rewrite length_replicate. lia.
  - lia.
  - unfold len, TABLE_ENTRIES. rewrite length_replicate. lia.
  - exists o, t, n. split; [exact E|].
    assert (bound (len [1; 2; 3; 1; 2; 3]) = 22) as Eb by reflexivity. rewrite Eb in Hb.
    split; [lia|]. assert (6 <= len (replicate 8 0)) as H8 by (unfold len; cbn; lia).
    exact (Hr ltac:(lia) o (replicate 8 0) eq_refl H8).
Defined.
