(* ===== verification/Zram.v ===== *)
(** * The compressed memory disk (kernel/drivers/storage/zram.c)

    A disk whose pages are kept in memory: as a repeated word, as LZ4 code, or
    as they are.  The state has the static variables of the file, and the
    memory that the slots point to: [blobs] maps the address of each allocation
    to its bytes.  [mallocs] is the answer of kmalloc, by the number of the
    question and the addresses in use. *)

From S2P Require Import Prelude Block RustStd Lz4.

Definition ZRAM_PAGE : Z := 4096.
Definition ZRAM_SECTORS : Z := 8.
Definition ZRAM_HUGE : Z := 3072.
Definition ZRAM_MAJOR : Z := 252.
Definition ZRAM_HEADER : Z := 48.

Inductive zram_kind := ZRAM_EMPTY | ZRAM_SAME | ZRAM_PACKED | ZRAM_RAW.

#[global] Instance zram_kind_eq_dec : EqDecision zram_kind.
Proof. solve_decision. Defined.

Record zram_slot := Slot { s_value : Z; s_size : Z; s_kind : zram_kind }.

Record zram := Zram {
  slots : option (list zram_slot);
  page_count : Z;
  disk_bytes : Z;
  published : Z;
  stored_pages : Z;
  compressed_bytes : Z;
  memory_used : Z;
  memory_used_max : Z;
  memory_limit : Z;
  same_pages : Z;
  huge_pages : Z;
  huge_pages_since : Z;
  failed_reads : Z;
  failed_writes : Z;
  invalid_io : Z;
  freed_notices : Z;
  hash_table : list Z;
  packed : list Z;
  scratch : list Z;
  blobs : gmap Z (list Z);
  questions : nat }.

(** ** Assignments *)

Definition set_slots (v : option (list zram_slot)) (z : zram) : zram :=
  Zram v (page_count z) (disk_bytes z) (published z) (stored_pages z) (compressed_bytes z) (memory_used z)
    (memory_used_max z) (memory_limit z) (same_pages z) (huge_pages z) (huge_pages_since z) (failed_reads z)
    (failed_writes z) (invalid_io z) (freed_notices z) (hash_table z) (packed z) (scratch z) (blobs z) (questions z).

(** [page_count], [disk_bytes] and what block_set_sectors was last told. *)
Definition set_geometry (pages bytes told : Z) (z : zram) : zram :=
  Zram (slots z) pages bytes told (stored_pages z) (compressed_bytes z) (memory_used z)
    (memory_used_max z) (memory_limit z) (same_pages z) (huge_pages z) (huge_pages_since z) (failed_reads z)
    (failed_writes z) (invalid_io z) (freed_notices z) (hash_table z) (packed z) (scratch z) (blobs z) (questions z).

Definition set_pages (stored bytes used same huge : Z) (z : zram) : zram :=
  Zram (slots z) (page_count z) (disk_bytes z) (published z) stored bytes used
    (memory_used_max z) (memory_limit z) same huge (huge_pages_since z) (failed_reads z)
    (failed_writes z) (invalid_io z) (freed_notices z) (hash_table z) (packed z) (scratch z) (blobs z) (questions z).

Definition set_limits (maximum limit since : Z) (z : zram) : zram :=
  Zram (slots z) (page_count z) (disk_bytes z) (published z) (stored_pages z) (compressed_bytes z) (memory_used z)
    maximum limit (same_pages z) (huge_pages z) since (failed_reads z)
    (failed_writes z) (invalid_io z) (freed_notices z) (hash_table z) (packed z) (scratch z) (blobs z) (questions z).

Definition set_io (reads writes invalid freed : Z) (z : zram) : zram :=
  Zram (slots z) (page_count z) (disk_bytes z) (published z) (stored_pages z) (compressed_bytes z) (memory_used z)
    (memory_used_max z) (memory_limit z) (same_pages z) (huge_pages z) (huge_pages_since z) reads
    writes invalid freed (hash_table z) (packed z) (scratch z) (blobs z) (questions z).

Definition set_buffers (table code page : list Z) (z : zram) : zram :=
  Zram (slots z) (page_count z) (disk_bytes z) (published z) (stored_pages z) (compressed_bytes z) (memory_used z)
    (memory_used_max z) (memory_limit z) (same_pages z) (huge_pages z) (huge_pages_since z) (failed_reads z)
    (failed_writes z) (invalid_io z) (freed_notices z) table code page (blobs z) (questions z).

Definition set_blobs (m : gmap Z (list Z)) (n : nat) (z : zram) : zram :=
  Zram (slots z) (page_count z) (disk_bytes z) (published z) (stored_pages z) (compressed_bytes z) (memory_used z)
    (memory_used_max z) (memory_limit z) (same_pages z) (huge_pages z) (huge_pages_since z) (failed_reads z)
    (failed_writes z) (invalid_io z) (freed_notices z) (hash_table z) (packed z) (scratch z) m n.

(** ** Slots *)

Section zram.
Context (mallocs : nat -> gset Z -> Z).

(** [&slots[page]], and a store through it. *)
Definition slot_at (z : zram) (page : Z) : res zram_slot :=
  match slots z with
  | Some table => rd table page
  | None => Fault
  end.

Definition put_slot (page : Z) (s : zram_slot) (z : zram) : res zram :=
  match slots z with
  | Some table => table ← wr table page s; Ret (set_slots (Some table) z)
  | None => Fault
  end.

(** [kfree] of a blob: freeing anything else is undefined. *)
Definition free_blob (address : Z) (z : zram) : res zram :=
  match blobs z !! address with
  | Some _ => Ret (set_blobs (delete address (blobs z)) (questions z) z)
  | None => Fault
  end.

(** [blob = kmalloc(size)] and [memcpy(blob, source, size)]; [None] is NULL. *)
Definition new_blob (source : list Z) (z : zram) : option (Z * zram) :=
  let address := mallocs (questions z) (dom (blobs z)) in
  if address =? 0 then None
  else Some (address, set_blobs (<[address := source]> (blobs z)) (S (questions z)) z).

Definition asked_once (z : zram) : zram := set_blobs (blobs z) (S (questions z)) z.

(** The bytes a pointer of a slot leads to. *)
Definition blob_at (address : Z) (z : zram) : res (list Z) :=
  match blobs z !! address with
  | Some b => Ret b
  | None => Fault
  end.

Definition charge (size : Z) : Z := u32 (size + ZRAM_HEADER).

Definition holds_blob (s : zram_slot) : bool :=
  match s_kind s with ZRAM_PACKED | ZRAM_RAW => true | _ => false end.

Definition slot_clear (page : Z) (z : zram) : res zram :=
  slot ← slot_at z page;
  z ← (if holds_blob slot then
         z ← free_blob (s_value slot) z;
         Ret (set_pages (stored_pages z) (u64 (compressed_bytes z - s_size slot))
                (u64 (memory_used z - charge (s_size slot))) (same_pages z)
                (if decide (s_kind slot = ZRAM_RAW) then u64 (huge_pages z - 1) else huge_pages z) z)
       else Ret z);
  let z := if decide (s_kind slot = ZRAM_SAME)
           then set_pages (stored_pages z) (compressed_bytes z) (memory_used z) (u64 (same_pages z - 1)) (huge_pages z) z
           else z in
  let z := if decide (s_kind slot = ZRAM_EMPTY) then z
           else set_pages (u64 (stored_pages z - 1)) (compressed_bytes z) (memory_used z) (same_pages z) (huge_pages z) z in
  put_slot page (Slot 0 0 ZRAM_EMPTY) z.

(** [words[index]] of a page. *)
Definition word_at (page : list Z) (index : Z) : res Z :=
  bytes ← copy_out page (8 * index) 8; Ret (le_join bytes).

Fixpoint same_filled_loop (fuel : nat) (page : list Z) (first index : Z) : res bool :=
  match fuel with
  | O => Ret true
  | S fuel =>
      w ← word_at page index;
      if negb (w =? first) then Ret false else same_filled_loop fuel page first (index + 1)
  end.

(** The pattern, when every word of the page is the first one. *)
Definition same_filled (page : list Z) : res (option Z) :=
  first ← word_at page 0;
  same ← same_filled_loop (Z.to_nat (ZRAM_PAGE / 8) - 1) page first 1;
  Ret (if same : bool then Some first else None).

(** The code of a page: kind, size, and the bytes to keep. *)
Definition pack_page (data : list Z) (z : zram) : res (zram_kind * Z * list Z * zram) :=
  match tunix_lz4_compress (Some data) ZRAM_PAGE (Some (packed z)) (len (packed z)) (Some (hash_table z)) with
  | (Some code, Some table, Ok size) =>
      let z := set_buffers table code (scratch z) z in
      if (size =? 0) || (ZRAM_HUGE <? size) then
        bytes ← copy_out data 0 ZRAM_PAGE; Ret (ZRAM_RAW, ZRAM_PAGE, bytes, z)
      else
        bytes ← copy_out code 0 size; Ret (ZRAM_PACKED, size, bytes, z)
  | _ => Fault
  end.

Definition slot_store (page : Z) (data : list Z) (z : zram) : res (Z * zram) :=
  slot ← slot_at z page;
  pattern ← same_filled data;
  match pattern with
  | Some pattern =>
      z ← slot_clear page z;
      z ← put_slot page (Slot pattern 0 ZRAM_SAME) z;
      Ret (0, set_pages (u64 (stored_pages z + 1)) (compressed_bytes z) (memory_used z) (u64 (same_pages z + 1)) (huge_pages z) z)
  | None =>
      '(kind, size, source, z) ← pack_page data z;
      let old_charge := if holds_blob slot then charge (s_size slot) else 0 in
      if negb (memory_limit z =? 0) &&
         (memory_limit z <? u64 (u64 (memory_used z - old_charge) + charge (u32 size)))
      then Ret (- ENOSPC, z)
      else
        match new_blob source z with
        | None => Ret (- ENOMEM, asked_once z)
        | Some (blob, z) =>
            z ← slot_clear page z;
            z ← put_slot page (Slot blob (u32 size) kind) z;
            let used := u64 (memory_used z + charge (u32 size)) in
            let z := set_pages (u64 (stored_pages z + 1)) (u64 (compressed_bytes z + size)) used (same_pages z)
                       (if decide (kind = ZRAM_RAW) then u64 (huge_pages z + 1) else huge_pages z) z in
            Ret (0, set_limits (Z.max used (memory_used_max z)) (memory_limit z)
                      (if decide (kind = ZRAM_RAW) then u64 (huge_pages_since z + 1) else huge_pages_since z) z)
        end
  end.

(** What is in [out] afterwards, and the status. *)
Definition slot_load (page : Z) (out : list Z) (z : zram) : res (Z * list Z) :=
  slot ← slot_at z page;
  match s_kind slot with
  | ZRAM_EMPTY => out ← copy_in out 0 (replicate (Z.to_nat ZRAM_PAGE) 0); Ret (0, out)
  | ZRAM_SAME =>
      out ← for_range 0 (ZRAM_PAGE / 8) 1 (fun index out => copy_in out (8 * index) (le_bytes 8 (s_value slot))) out;
      Ret (0, out)
  | ZRAM_RAW =>
      blob ← blob_at (s_value slot) z;
      bytes ← copy_out blob 0 ZRAM_PAGE;
      out ← copy_in out 0 bytes;
      Ret (0, out)
  | ZRAM_PACKED =>
      blob ← blob_at (s_value slot) z;
      match tunix_lz4_decompress (Some blob) (s_size slot) (Some out) ZRAM_PAGE with
      | (Some out, Ok status) => Ret (if status =? 0 then 0 else - EIO, out)
      | _ => Fault
      end
  end.

(** ** Requests *)

Definition range_valid (z : zram) (lba count : Z) : bool :=
  match slots z with
  | None => false
  | Some _ =>
      negb (count =? 0) && (lba <? u64 (page_count z * ZRAM_SECTORS)) &&
      (count <=? u64 (u64 (page_count z * ZRAM_SECTORS) - lba))
  end.

(** [while (count)]: [at_] is the offset of [out] in the destination. *)
Fixpoint zram_read_loop (fuel : nat) (lba count at_ : Z) (dest : list Z) (z : zram) : res (Z * list Z * zram) :=
  match fuel with
  | O => if count =? 0 then Ret (0, dest, z) else Fault
  | S fuel =>
      if count =? 0 then Ret (0, dest, z)
      else
        let page := lba / ZRAM_SECTORS in
        let within := lba mod ZRAM_SECTORS in
        let take := if count <? ZRAM_SECTORS - within then count else ZRAM_SECTORS - within in
        if (within =? 0) && (take =? ZRAM_SECTORS) then
          out ← copy_out dest at_ ZRAM_PAGE;
          '(status, out) ← slot_load page out z;
          dest ← copy_in dest at_ out;
          if negb (status =? 0) then
            Ret (-1, dest, set_io (u64 (failed_reads z + 1)) (failed_writes z) (invalid_io z) (freed_notices z) z)
          else zram_read_loop fuel (u64 (lba + take)) (u32 (count - take)) (at_ + take * BLOCK_SECTOR_SIZE) dest z
        else
          '(status, page_) ← slot_load page (scratch z) z;
          let z := set_buffers (hash_table z) (packed z) page_ z in
          if negb (status =? 0) then
            Ret (-1, dest, set_io (u64 (failed_reads z + 1)) (failed_writes z) (invalid_io z) (freed_notices z) z)
          else
            bytes ← copy_out (scratch z) (within * BLOCK_SECTOR_SIZE) (take * BLOCK_SECTOR_SIZE);
            dest ← copy_in dest at_ bytes;
            zram_read_loop fuel (u64 (lba + take)) (u32 (count - take)) (at_ + take * BLOCK_SECTOR_SIZE) dest z
  end.

(** The status and the destination; every turn reads at least one sector. *)
Definition zram_read (lba count : Z) (dest : list Z) (z : zram) : res (Z * list Z * zram) :=
  if negb (range_valid z lba count) then
    Ret (-1, dest, set_io (failed_reads z) (failed_writes z) (u64 (invalid_io z + 1)) (freed_notices z) z)
  else zram_read_loop (Z.to_nat count) lba count 0 dest z.

Definition failed_write (z : zram) : zram :=
  set_io (failed_reads z) (u64 (failed_writes z + 1)) (invalid_io z) (freed_notices z) z.

Fixpoint zram_write_loop (fuel : nat) (lba count at_ : Z) (source : list Z) (z : zram) : res (Z * zram) :=
  match fuel with
  | O => if count =? 0 then Ret (0, z) else Fault
  | S fuel =>
      if count =? 0 then Ret (0, z)
      else
        let page := lba / ZRAM_SECTORS in
        let within := lba mod ZRAM_SECTORS in
        let take := if count <? ZRAM_SECTORS - within then count else ZRAM_SECTORS - within in
        if negb (within =? 0) || negb (take =? ZRAM_SECTORS) then
          '(status, page_) ← slot_load page (scratch z) z;
          let z := set_buffers (hash_table z) (packed z) page_ z in
          if negb (status =? 0) then Ret (-1, failed_write z)
          else
            bytes ← copy_out source at_ (take * BLOCK_SECTOR_SIZE);
            page_ ← copy_in (scratch z) (within * BLOCK_SECTOR_SIZE) bytes;
            let z := set_buffers (hash_table z) (packed z) page_ z in
            '(status, z) ← slot_store page (scratch z) z;
            if negb (status =? 0) then Ret (-1, failed_write z)
            else zram_write_loop fuel (u64 (lba + take)) (u32 (count - take)) (at_ + take * BLOCK_SECTOR_SIZE) source z
        else
          whole ← copy_out source at_ ZRAM_PAGE;
          '(status, z) ← slot_store page whole z;
          if negb (status =? 0) then Ret (-1, failed_write z)
          else zram_write_loop fuel (u64 (lba + take)) (u32 (count - take)) (at_ + take * BLOCK_SECTOR_SIZE) source z
  end.

Definition zram_write (lba count : Z) (source : list Z) (z : zram) : res (Z * zram) :=
  if negb (range_valid z lba count) then
    Ret (-1, set_io (failed_reads z) (failed_writes z) (u64 (invalid_io z + 1)) (freed_notices z) z)
  else zram_write_loop (Z.to_nat count) lba count 0 source z.

Definition zram_discard (lba count : Z) (z : zram) : res (Z * zram) :=
  if negb (range_valid z lba count) then Ret (-1, z)
  else
    let first := u64 (lba + ZRAM_SECTORS - 1) / ZRAM_SECTORS in
    let end_ := u64 (lba + count) / ZRAM_SECTORS in
    z ← for_range first end_ 1 (fun page z =>
          slot ← slot_at z page;
          let z := if decide (s_kind slot = ZRAM_EMPTY) then z
                   else set_io (failed_reads z) (failed_writes z) (invalid_io z) (u64 (freed_notices z + 1)) z in
          slot_clear page z) z;
    Ret (0, z).

Definition zram_flush (z : zram) : Z * zram := (0, z).
End zram.
