(* ===== verification/ZramAttr.v ===== *)
(** * The attributes of the compressed disk (kernel/drivers/storage/zram.c)

    What the files under /sys/devices/virtual/block/zram0 read as, and what
    writing them does.  [usable] is pmm_usable_page_count(), [device_index] the
    index the disk was registered under and [in_use] the answer of
    swap_block_in_use. *)

From S2P Require Import Prelude Block RustStd Lz4 Zram.

Definition chars (s : string) : list Z := map (fun a => Z.of_N (Ascii.N_of_ascii a)) (String.list_ascii_of_string s).

(** ** Text *)

Definition text_reply (text : list Z) (offset size : Z) : Z * list Z :=
  let length := len text in
  if length <=? offset then (0, [])
  else
    let size := if length - offset <? size then length - offset else size in
    (size, slice text offset size).

(** [while (... && at + 1 < room) out[at++] = ...]: [out] up to [at]. *)
Fixpoint put_chars (out : list Z) (room : Z) (l : list Z) : list Z :=
  match l with
  | [] => out
  | c :: l => if len out + 1 <? room then put_chars (out ++ [c]) room l else out
  end.

(** The digits, the last one first; the array has room for 24. *)
Fixpoint digits (fuel : nat) (value : Z) : list Z :=
  match fuel with
  | O => []
  | S fuel => (48 + value mod 10) :: (if value / 10 =? 0 then [] else digits fuel (value / 10))
  end.

Definition put_number (out : list Z) (room value : Z) : list Z := put_chars out room (rev (digits 24 value)).
Definition put_text (out : list Z) (room : Z) (text : list Z) : list Z := put_chars out room text.

(** The values of a line, separated by blanks. *)
Fixpoint put_values (out : list Z) (room : Z) (first : bool) (values : list Z) : list Z :=
  match values with
  | [] => out
  | v :: values =>
      let out := if first then out else put_text out room (chars " ") in
      put_values (put_number out room v) room false values
  end.

(** [while (at < size && ...) at++]: the rest of the text. *)
Fixpoint skip (p : Z -> bool) (text : list Z) : list Z :=
  match text with
  | c :: rest => if p c then skip p rest else text
  | [] => []
  end.

Definition is_digit (c : Z) : bool := (48 <=? c) && (c <=? 57).

Fixpoint parse_digits (text : list Z) (value : Z) : option (Z * list Z) :=
  match text with
  | c :: rest =>
      if is_digit c then
        if (UINT64_MAX - 9) / 10 <? value then None else parse_digits rest (u64 (value * 10 + (c - 48)))
      else Some (value, text)
  | [] => Some (value, [])
  end.

(** The suffix: k, m, g or t. *)
Definition size_shift (c : Z) : Z :=
  if (c =? 107) || (c =? 75) then 10
  else if (c =? 109) || (c =? 77) then 20
  else if (c =? 103) || (c =? 71) then 30
  else if (c =? 116) || (c =? 84) then 40
  else 0.

Definition parse_size (input : list Z) : option Z :=
  let text := skip (fun c => (c =? 32) || (c =? 9)) input in
  match text with
  | c :: _ =>
      if negb (is_digit c) then None
      else
        match parse_digits text 0 with
        | None => None
        | Some (value, rest) =>
            let shift := match rest with c :: _ => size_shift c | [] => 0 end in
            let rest := if shift =? 0 then rest else tail rest in
            match skip (fun c => (c =? 10) || (c =? 32)) rest with
            | _ :: _ => None
            | [] =>
                if negb (shift =? 0) && (Z.shiftr UINT64_MAX shift <? value) then None
                else Some (u64 (Z.shiftl value shift))
            end
        end
  | [] => None
  end.

(** ** Attributes *)

Inductive zram_attribute :=
  | ATTR_DISKSIZE | ATTR_INITSTATE | ATTR_RESET | ATTR_ALGORITHM | ATTR_STREAMS | ATTR_LIMIT | ATTR_USED_MAX
  | ATTR_MM_STAT | ATTR_IO_STAT | ATTR_COMPACT | ATTR_DEV | ATTR_SIZE | ATTR_UEVENT.

(** The line of an attribute that can be read, in the buffer of 256. *)
Definition attribute_line (z : zram) (a : zram_attribute) : option (list Z) :=
  let number v := Some (put_number [] 256 v) in
  match a with
  | ATTR_DISKSIZE => number (disk_bytes z)
  | ATTR_INITSTATE => number (match slots z with Some _ => 1 | None => 0 end)
  | ATTR_ALGORITHM => Some (put_text [] 256 (chars "[lz4]"))
  | ATTR_STREAMS => number 1
  | ATTR_LIMIT => number (memory_limit z)
  | ATTR_USED_MAX => number (memory_used_max z)
  | ATTR_MM_STAT =>
      Some (put_values [] 256 true
        [u64 (stored_pages z * ZRAM_PAGE); compressed_bytes z; memory_used z; memory_limit z; memory_used_max z;
         same_pages z; 0; huge_pages z; huge_pages_since z])
  | ATTR_IO_STAT => Some (put_values [] 256 true [failed_reads z; failed_writes z; invalid_io z; freed_notices z])
  | ATTR_DEV => Some (put_text (put_number [] 256 ZRAM_MAJOR) 256 (chars ":0"))
  | ATTR_SIZE => number (u64 (page_count z * ZRAM_SECTORS))
  | ATTR_UEVENT =>
      Some (put_text [] 256 (chars "MAJOR=252" ++ [10] ++ chars "MINOR=0" ++ [10] ++ chars "DEVNAME=zram0" ++ [10] ++ chars "DEVTYPE=disk"))
  | ATTR_RESET | ATTR_COMPACT => None
  end.

(** The result, and the bytes written to the output. *)
Definition attribute_read (z : zram) (a : zram_attribute) (offset size : Z) : Z * list Z :=
  match attribute_line z a with
  | None => (- EINVAL, [])
  | Some text => text_reply (put_text text 256 [10]) offset size
  end.

Section attributes.
Context (mallocs : nat -> gset Z -> Z) (usable device_index : Z) (in_use : nat -> bool).

(** What the block layer is told. *)
Definition publish_size (z : zram) : zram :=
  set_geometry (page_count z) (disk_bytes z) (u64 (page_count z * ZRAM_SECTORS)) z.

Definition device_busy (z : zram) : bool * zram :=
  if device_index <? 0 then (false, z) else (in_use (questions z), asked_once z).

Definition release_all (z : zram) : res zram :=
  z ← match slots z with
      | Some _ => for_range 0 (page_count z) 1 (fun page z => slot_clear page z) z
      | None => Ret z
      end;
  let z := set_slots None z in
  let z := set_geometry 0 0 (published z) z in
  Ret (set_limits (memory_used z) (memory_limit z) 0 z).

(** [ATTR_DISKSIZE] of [attribute_write], for the value read. *)
Definition write_disksize (value size : Z) (z : zram) : Z * zram :=
  let pages := value / ZRAM_PAGE in
  if pages =? 0 then (- EINVAL, z)
  else if u64 (usable * 4) <? pages then (- ENOMEM, z)
  else if mallocs (questions z) (dom (blobs z)) =? 0 then (- ENOMEM, asked_once z)
  else
    let z := asked_once z in
    match slots z with
    | Some _ => (- EBUSY, z)
    | None =>
        let z := set_slots (Some (replicate (Z.to_nat pages) (Slot 0 0 ZRAM_EMPTY))) z in
        let z := set_geometry pages (u64 (pages * ZRAM_PAGE)) (published z) z in
        (size, publish_size z)
    end.

(** [while (length && ...) length--] *)
Definition trim_end (text : list Z) : list Z := rev (skip (fun c => (c =? 10) || (c =? 32)) (rev text)).

Definition attribute_write (a : zram_attribute) (input : list Z) (z : zram) : res (Z * zram) :=
  let size := len input in
  match a with
  | ATTR_DISKSIZE =>
      match parse_size input with
      | None => Ret (- EINVAL, z)
      | Some value => Ret (write_disksize value size z)
      end
  | ATTR_RESET =>
      match parse_size input with
      | None => Ret (- EINVAL, z)
      | Some value =>
          if value =? 0 then Ret (- EINVAL, z)
          else
            let '(busy, z) := device_busy z in
            if busy then Ret (- EBUSY, z)
            else z ← release_all z; Ret (size, publish_size z)
      end
  | ATTR_ALGORITHM =>
      if decide (trim_end input = chars "lz4") then
        Ret (match slots z with Some _ => - EBUSY | None => size end, z)
      else Ret (- EINVAL, z)
  | ATTR_STREAMS => Ret (size, z)
  | ATTR_LIMIT =>
      match parse_size input with
      | None => Ret (- EINVAL, z)
      | Some value => Ret (size, set_limits (memory_used_max z) value (huge_pages_since z) z)
      end
  | ATTR_USED_MAX =>
      match parse_size input with
      | None => Ret (- EINVAL, z)
      | Some value =>
          if negb (value =? 0) then Ret (- EINVAL, z)
          else Ret (size, set_limits (memory_used z) (memory_limit z) (huge_pages_since z) z)
      end
  | ATTR_COMPACT => Ret (size, z)
  | _ => Ret (- EINVAL, z)
  end.
End attributes.
