(* ===== verification/ZramOk.v ===== *)
(** * Slots of the compressed disk: invariant and page operations

    A disk in order holds an array of bytes: every slot stands for its page,
    the blobs are exactly those the slots point to, each once, and the
    counters are the sums over the slots. *)

From S2P Require Import Prelude Block RustStd Lz4 Lz4Format Lz4Compress Lz4Spec Zram.

(** ** Sums over the slots *)

Fixpoint sum_by (f : zram_slot -> Z) (l : list zram_slot) : Z :=
  match l with
  | [] => 0
  | s :: l => f s + sum_by f l
  end.

Lemma sum_by_insert f l i s s' :
  l !! i = Some s -> sum_by f (<[i := s']> l) = sum_by f l - f s + f s'.
Proof.
  revert i. induction l as [|t l IH]; intros [|i] E; try done; cbn in E.
  - inv E. change (<[0%nat := s']> (s :: l)) with (s' :: l). cbn [sum_by]. lia.
  - change (<[S i := s']> (t :: l)) with (t :: <[i := s']> l). cbn [sum_by]. rewrite (IH i) by done. lia.
Qed.

Lemma sum_by_bound f l hi : 0 <= hi -> (forall s, s ∈ l -> 0 <= f s <= hi) -> 0 <= sum_by f l <= hi * len l.
Proof.
  intros Hh. induction l as [|t l IH]; intros H; [unfold len; cbn; lia|].
  destruct IH; [intros; apply H; by right|]. pose proof (H t ltac:(by left)).
  unfold len in *. cbn [sum_by length]. lia.
Qed.

Lemma sum_by_lookup f l i s : (forall s, s ∈ l -> 0 <= f s) -> l !! i = Some s -> f s <= sum_by f l.
Proof.
  revert i. induction l as [|t l IH]; intros [|i] H E; try done; cbn in *.
  - inv E. assert (0 <= sum_by f l); [|lia]. clear -H. induction l as [|u l IH]; cbn; [lia|].
    pose proof (H u ltac:(right; left)). assert (0 <= sum_by f l); [|lia]. apply IH. intros x Hx.
    apply H. apply elem_of_cons in Hx as [->|Hx]; [by left|by right; right].
  - pose proof (H t ltac:(by left)). specialize (IH i). assert (f s <= sum_by f l); [|lia]. apply IH; [|done].
    intros. apply H. by right.
Qed.

Definition one_if (b : bool) : Z := if b then 1 else 0.
Definition is_kind (k : zram_kind) (s : zram_slot) : bool := bool_decide (s_kind s = k).
Definition f_stored (s : zram_slot) : Z := one_if (negb (is_kind ZRAM_EMPTY s)).
Definition f_same (s : zram_slot) : Z := one_if (is_kind ZRAM_SAME s).
Definition f_huge (s : zram_slot) : Z := one_if (is_kind ZRAM_RAW s).
Definition f_bytes (s : zram_slot) : Z := if holds_blob s then s_size s else 0.
Definition f_used (s : zram_slot) : Z := if holds_blob s then s_size s + ZRAM_HEADER else 0.

(** ** The invariant *)

Definition zeros : list Z := replicate (Z.to_nat ZRAM_PAGE) 0.
Definition repeated (v : Z) : list Z := concat (replicate (Z.to_nat (ZRAM_PAGE / 8)) (le_bytes 8 v)).

(** The slot stands for the page. *)
Definition stands_for (m : gmap Z (list Z)) (s : zram_slot) (page : list Z) : Prop :=
  match s_kind s with
  | ZRAM_EMPTY => page = zeros
  | ZRAM_SAME => page = repeated (s_value s) /\ 0 <= s_value s < 2 ^ 64
  | ZRAM_RAW => s_size s = ZRAM_PAGE /\ m !! s_value s = Some page
  | ZRAM_PACKED =>
      0 < s_size s <= ZRAM_HUGE /\
      exists blob, m !! s_value s = Some blob /\ len blob = s_size s /\
        forall target, ZRAM_PAGE <= len target ->
          tunix_lz4_decompress (Some blob) (s_size s) (Some target) ZRAM_PAGE =
            (Some (page ++ drop (Z.to_nat ZRAM_PAGE) target), Ok 0)
  end.

Definition page_of (disk : list Z) (i : nat) : list Z := slice disk (ZRAM_PAGE * Z.of_nat i) ZRAM_PAGE.

Record slots_ok (t : list zram_slot) (m : gmap Z (list Z)) (disk : list Z) : Prop := {
  so_len : len disk = ZRAM_PAGE * len t;
  so_bytes : Forall byte disk;
  so_stands : forall i s, t !! i = Some s -> stands_for m s (page_of disk i);
  so_apart : forall i j s s', t !! i = Some s -> t !! j = Some s' -> holds_blob s = true -> holds_blob s' = true ->
    s_value s = s_value s' -> i = j;
  so_owned : forall a, is_Some (m !! a) -> exists i s, t !! i = Some s /\ holds_blob s = true /\ s_value s = a }.

Definition the_slots (z : zram) : list zram_slot := default [] (slots z).

Record zram_ok (z : zram) (disk : list Z) : Prop := {
  z_slots : slots_ok (the_slots z) (blobs z) disk;
  z_count : page_count z = len (the_slots z);
  z_some : is_Some (slots z) <-> 0 < page_count z;
  z_pages : page_count z <= 2 ^ 42;
  z_bytes : disk_bytes z = page_count z * ZRAM_PAGE;
  z_stored : stored_pages z = sum_by f_stored (the_slots z);
  z_same : same_pages z = sum_by f_same (the_slots z);
  z_huge : huge_pages z = sum_by f_huge (the_slots z);
  z_compressed : compressed_bytes z = sum_by f_bytes (the_slots z);
  z_used : memory_used z = sum_by f_used (the_slots z);
  z_max : memory_used z <= memory_used_max z;
  z_table : len (hash_table z) = TABLE_ENTRIES;
  z_packed : len (packed z) = bound ZRAM_PAGE;
  z_scratch : len (scratch z) = ZRAM_PAGE }.

(** ** Pages of a disk *)

Lemma len_zeros : len zeros = ZRAM_PAGE.
Proof. unfold len, zeros. rewrite length_replicate. reflexivity. Qed.

Lemma length_concat_replicate {A} n (l : list A) : length (concat (replicate n l)) = (n * length l)%nat.
Proof. induction n as [|n IH]; cbn; [done|]. rewrite length_app, IH. lia. Qed.

Lemma len_repeated v : len (repeated v) = ZRAM_PAGE.
Proof. unfold len, repeated. rewrite length_concat_replicate, length_le_bytes. reflexivity. Qed.

Lemma slice_splice_same {A} (l : list A) i m : 0 <= i -> i + len m <= len l -> slice (splice l i m) i (len m) = m.
Proof.
  intros Hi Hl. apply (slice_at _ m (drop (Z.to_nat i + length m) l)); [|done].
  unfold splice, len in *. rewrite drop_app_length'; [done|]. rewrite length_take. lia.
Qed.

Lemma slice_splice_other {A} (l : list A) i m j n :
  0 <= i -> i + len m <= len l -> 0 <= j -> 0 <= n -> j + n <= i \/ i + len m <= j ->
  slice (splice l i m) j n = slice l j n.
Proof.
  intros Hi Hl Hj Hn Hd. apply list_eq. intros k. destruct (decide (k < Z.to_nat n)%nat) as [Hk|Hk].
  - rewrite !lookup_slice by lia. unfold len in *. rewrite lookup_splice by lia. rewrite decide_False by lia. done.
  - unfold slice. rewrite !lookup_take_ge by lia. done.
Qed.

Lemma page_of_same disk i p : len p = ZRAM_PAGE -> ZRAM_PAGE * Z.of_nat i + ZRAM_PAGE <= len disk ->
  page_of (splice disk (ZRAM_PAGE * Z.of_nat i) p) i = p.
Proof.
  intros Hp Hl. unfold page_of. transitivity (slice (splice disk (ZRAM_PAGE * Z.of_nat i) p) (ZRAM_PAGE * Z.of_nat i) (len p)).
  - by rewrite Hp.
  - apply slice_splice_same; unfold ZRAM_PAGE in *; lia.
Qed.

Lemma page_of_other disk i j p : len p = ZRAM_PAGE -> ZRAM_PAGE * Z.of_nat i + ZRAM_PAGE <= len disk -> i <> j ->
  page_of (splice disk (ZRAM_PAGE * Z.of_nat i) p) j = page_of disk j.
Proof. intros Hp Hl Hne. apply slice_splice_other; unfold ZRAM_PAGE in *; lia. Qed.

Lemma splice_bytes l i m : Forall byte l -> Forall byte m -> Forall byte (splice l i m).
Proof. intros. unfold splice. rewrite !Forall_app. repeat split; [by apply Forall_take|done|by apply Forall_drop]. Qed.

(** ** Replacing a slot *)

Definition without (m : gmap Z (list Z)) (s : zram_slot) : gmap Z (list Z) :=
  if holds_blob s then delete (s_value s) m else m.
Definition with_ (m : gmap Z (list Z)) (s : zram_slot) (blob : list Z) : gmap Z (list Z) :=
  if holds_blob s then <[s_value s := blob]> m else m.

Lemma stands_for_lookup m m' s p :
  (holds_blob s = true -> m' !! s_value s = m !! s_value s) -> stands_for m s p -> stands_for m' s p.
Proof. unfold stands_for, holds_blob. destruct (s_kind s); try done; intros E; by rewrite E. Qed.

Lemma stands_for_blob m s p : stands_for m s p -> holds_blob s = true -> is_Some (m !! s_value s).
Proof. unfold stands_for, holds_blob. destruct (s_kind s); try done; naive_solver. Qed.

Section replacing.
Context (t : list zram_slot) (m : gmap Z (list Z)) (disk : list Z) (i : nat) (s s' : zram_slot) (blob : list Z).
Context (Hok : slots_ok t m disk) (Hi : t !! i = Some s) (Hfresh : holds_blob s' = true -> m !! s_value s' = None).

(** The other slots keep their blobs, and the new one shares none of them. *)
Lemma other_apart j u : t !! j = Some u -> holds_blob u = true -> holds_blob s' = true -> s_value u <> s_value s'.
Proof using Hok Hfresh.
  intros Hj Hu Hs E. destruct (stands_for_blob _ _ _ (so_stands _ _ _ Hok j u Hj) Hu) as [b Hb].
  rewrite E, Hfresh in Hb; done.
Qed.

Lemma other_keeps j u : t !! j = Some u -> j <> i -> holds_blob u = true ->
  with_ (without m s) s' blob !! s_value u = m !! s_value u.
Proof using Hok Hi Hfresh.
  intros Hj Hne Hu. pose proof (other_apart j u Hj Hu) as Hapart.
  assert (without m s !! s_value u = m !! s_value u) as E.
  { unfold without. destruct (holds_blob s) eqn:E; [|done]. apply lookup_delete_ne. intros Ev.
    apply Hne. symmetry. by eapply (so_apart _ _ _ Hok). }
  unfold with_. destruct (holds_blob s') eqn:E'; [|done]. rewrite lookup_insert_ne; [done|].
  intros Ev. by apply Hapart.
Qed.

Lemma replaced_apart j k u v :
  <[i := s']> t !! j = Some u -> <[i := s']> t !! k = Some v -> holds_blob u = true -> holds_blob v = true ->
  s_value u = s_value v -> j = k.
Proof using Hok Hi Hfresh.
  pose proof (lookup_lt_Some _ _ _ Hi) as Hlt. pose proof other_apart as Hapart. intros Hj Hk Hu Hv Ev.
  destruct (decide (j = i)) as [->|Hji], (decide (k = i)) as [->|Hki]; try done.
  - rewrite list_lookup_insert_eq in Hj by done. rewrite list_lookup_insert_ne in Hk by done. inv Hj.
    by destruct (Hapart k v Hk Hv Hu).
  - rewrite list_lookup_insert_eq in Hk by done. rewrite list_lookup_insert_ne in Hj by done. inv Hk.
    by destruct (Hapart j u Hj Hu Hv).
  - rewrite list_lookup_insert_ne in Hj, Hk by done. by eapply (so_apart _ _ _ Hok).
Qed.

Lemma replaced_owned a : is_Some (with_ (without m s) s' blob !! a) ->
  exists j u, <[i := s']> t !! j = Some u /\ holds_blob u = true /\ s_value u = a.
Proof using Hok Hi Hfresh.
  pose proof (lookup_lt_Some _ _ _ Hi) as Hlt. intros Ha.
  destruct (decide (holds_blob s' = true /\ s_value s' = a)) as [[E <-]|Hne].
  { exists i, s'. by rewrite list_lookup_insert_eq. }
  assert (is_Some (without m s !! a)) as Hw.
  { unfold with_ in Ha. destruct (holds_blob s'); [|done]. rewrite lookup_insert_ne in Ha by naive_solver. done. }
  assert (is_Some (m !! a)) as Hm.
  { unfold without in Hw. destruct (holds_blob s); [|done]. destruct Hw as [x Hx]. by apply lookup_delete_Some in Hx as [_ Hx]. }
  destruct (so_owned _ _ _ Hok a Hm) as (j & u & Hj & Hu & Ev). exists j, u. split; [|done].
  rewrite list_lookup_insert_ne; [done|]. intros <-. rewrite Hi in Hj. inv Hj.
  unfold without in Hw. rewrite Hu, lookup_delete_eq in Hw. by destruct Hw.
Qed.

Lemma replace_ok p :
  len p = ZRAM_PAGE -> Forall byte p -> stands_for (with_ (without m s) s' blob) s' p ->
  slots_ok (<[i := s']> t) (with_ (without m s) s' blob) (splice disk (ZRAM_PAGE * Z.of_nat i) p).
Proof using Hok Hi Hfresh.
  intros Hp Hpb Hs'. pose proof (lookup_lt_Some _ _ _ Hi) as Hlt. pose proof other_keeps as Hkeep. pose proof (so_len _ _ _ Hok) as Hlen.
  assert (ZRAM_PAGE * Z.of_nat i + ZRAM_PAGE <= len disk) as Hin by (unfold ZRAM_PAGE, len in *; lia).
  split.
  - rewrite len_splice by (rewrite ?Hp; unfold ZRAM_PAGE in *; lia). unfold len in *. by rewrite length_insert.
  - apply splice_bytes; [apply (so_bytes _ _ _ Hok)|done].
  - intros j u Hj. destruct (decide (j = i)) as [->|Hne].
    + rewrite list_lookup_insert_eq in Hj by done. inv Hj. by rewrite page_of_same.
    + rewrite list_lookup_insert_ne in Hj by done. rewrite page_of_other by done.
      eapply stands_for_lookup; [by apply (Hkeep j)|by apply (so_stands _ _ _ Hok)].
  - apply replaced_apart.
  - apply replaced_owned.
Qed.
End replacing.

(** ** Counters *)

Record counted (z : zram) (t : list zram_slot) : Prop := {
  c_stored : stored_pages z = sum_by f_stored t;
  c_same : same_pages z = sum_by f_same t;
  c_huge : huge_pages z = sum_by f_huge t;
  c_compressed : compressed_bytes z = sum_by f_bytes t;
  c_used : memory_used z = sum_by f_used t }.

Definition sized (s : zram_slot) : Prop := holds_blob s = true -> 0 < s_size s <= ZRAM_PAGE.

Definition few (t : list zram_slot) : Prop := len t <= 2 ^ 42 /\ Forall sized t.

Lemma f_bounds s : sized s ->
  0 <= f_stored s <= 1 /\ 0 <= f_same s <= 1 /\ 0 <= f_huge s <= 1 /\ 0 <= f_bytes s <= 4096 /\ 0 <= f_used s <= 4144.
Proof.
  unfold sized, f_stored, f_same, f_huge, f_bytes, f_used, one_if, ZRAM_PAGE, ZRAM_HEADER. intros H.
  destruct (holds_blob s); [specialize (H eq_refl)|]; repeat case_match; lia.
Qed.

Lemma few_sum f t hi i s :
  few t -> 0 <= hi <= 4144 -> (forall s, sized s -> 0 <= f s <= hi) -> t !! i = Some s ->
  0 <= f s /\ f s <= sum_by f t /\ sum_by f t < 2 ^ 60.
Proof.
  intros [Hn Hs] Hh Hf Hi. rewrite Forall_forall in Hs.
  assert (forall s, s ∈ t -> 0 <= f s <= hi) as Hb by (intros x Hx; apply Hf, Hs; by apply list_elem_of_In).
  pose proof (sum_by_bound f t hi ltac:(lia) Hb). pose proof (len_nonneg t).
  split; [apply (Hb s); by eapply list_elem_of_lookup_2|].
  split; [|nia]. eapply sum_by_lookup; [|done]. intros x Hx. by apply Hb.
Qed.

(** The counters a slot takes part in, before it is replaced. *)
Lemma few_sums t i s : few t -> t !! i = Some s ->
  (0 <= f_stored s /\ f_stored s <= sum_by f_stored t /\ sum_by f_stored t < 2 ^ 60) /\
  (0 <= f_same s /\ f_same s <= sum_by f_same t /\ sum_by f_same t < 2 ^ 60) /\
  (0 <= f_huge s /\ f_huge s <= sum_by f_huge t /\ sum_by f_huge t < 2 ^ 60) /\
  (0 <= f_bytes s /\ f_bytes s <= sum_by f_bytes t /\ sum_by f_bytes t < 2 ^ 60) /\
  (0 <= f_used s /\ f_used s <= sum_by f_used t /\ sum_by f_used t < 2 ^ 60).
Proof.
  intros Ht Hi. split; [|split; [|split; [|split]]].
  - apply (few_sum f_stored t 1 i); [done|lia| |done]. intros x Hx. by apply f_bounds.
  - apply (few_sum f_same t 1 i); [done|lia| |done]. intros x Hx. by apply f_bounds.
  - apply (few_sum f_huge t 1 i); [done|lia| |done]. intros x Hx. by apply f_bounds.
  - apply (few_sum f_bytes t 4096 i); [done|lia| |done]. intros x Hx. by apply f_bounds.
  - apply (few_sum f_used t 4144 i); [done|lia| |done]. intros x Hx. by apply f_bounds.
Qed.

Lemma few_insert t i s : few t -> sized s -> few (<[i := s]> t).
Proof. intros [Hn Hs] H. split; [unfold len in *; by rewrite length_insert|by apply Forall_insert]. Qed.

(** The state with the slots [t], the blobs [m] and the counters of [t]. *)
Definition recount (z : zram) (t : list zram_slot) (m : gmap Z (list Z)) : zram :=
  set_slots (Some t) (set_blobs m (questions z)
    (set_pages (sum_by f_stored t) (sum_by f_bytes t) (sum_by f_used t) (sum_by f_same t) (sum_by f_huge t) z)).

Definition empty_slot : zram_slot := Slot 0 0 ZRAM_EMPTY.

Lemma slot_at_eq z t page s : slots z = Some t -> 0 <= page -> t !! Z.to_nat page = Some s -> slot_at z page = Ret s.
Proof. intros Es Hp Hs. unfold slot_at. rewrite Es. by apply rd_lookup. Qed.

Lemma put_slot_eq z t page s s' : slots z = Some t -> 0 <= page -> t !! Z.to_nat page = Some s' ->
  put_slot page s z = Ret (set_slots (Some (<[Z.to_nat page := s]> t)) z).
Proof.
  intros Es Hp Hs. apply lookup_lt_Some in Hs. unfold put_slot. rewrite Es, wr_in by lia. done.
Qed.

(** What a slot adds to the counters, by its kind. *)
Lemma f_values v n k :
  f_stored (Slot v n k) = match k with ZRAM_EMPTY => 0 | _ => 1 end /\
  f_same (Slot v n k) = match k with ZRAM_SAME => 1 | _ => 0 end /\
  f_huge (Slot v n k) = match k with ZRAM_RAW => 1 | _ => 0 end /\
  f_bytes (Slot v n k) = match k with ZRAM_PACKED | ZRAM_RAW => n | _ => 0 end /\
  f_used (Slot v n k) = match k with ZRAM_PACKED | ZRAM_RAW => n + 48 | _ => 0 end.
Proof. by destruct k. Qed.

Lemma slot_clear_eq z t page s :
  slots z = Some t -> 0 <= page -> t !! Z.to_nat page = Some s -> counted z t -> few t ->
  (holds_blob s = true -> is_Some (blobs z !! s_value s)) ->
  slot_clear page z = Ret (recount z (<[Z.to_nat page := empty_slot]> t) (without (blobs z) s)).
Proof.
  intros Es Hp Hs [C1 C2 C3 C4 C5] Hf Hb. pose proof (few_sums t _ s Hf Hs) as (F1 & F2 & F3 & F4 & F5).
  assert (sized s) as Hsz by (destruct Hf as [_ Hf]; by apply (Forall_lookup_1 _ _ _ _ Hf Hs)).
  unfold slot_clear. rewrite (slot_at_eq z t page s) by done. rewrite bind_ret. unfold recount.
  rewrite !(sum_by_insert _ t _ s empty_slot Hs).
  destruct s as [v n k]. pose proof (f_values v n k) as (V1 & V2 & V3 & V4 & V5).
  pose proof (f_values 0 0 ZRAM_EMPTY) as (W1 & W2 & W3 & W4 & W5). unfold empty_slot.
  rewrite V1, V2, V3, V4, V5 in *. rewrite W1, W2, W3, W4, W5.
  unfold sized, holds_blob, without, ZRAM_PAGE, charge, ZRAM_HEADER, free_blob in *. cbn [s_kind s_value s_size] in *.
  destruct k; [| |specialize (Hsz eq_refl); destruct (Hb eq_refl) as [b ->]..].
  all: rewrite ?bind_ret; cbv zeta; repeat first [rewrite decide_True by done | rewrite decide_False by done].
  all: destruct z; cbn in *; subst.
  all: erewrite put_slot_eq by (reflexivity || exact Hp || exact Hs); unfold set_slots; cbn; words.
  all: do 2 f_equal; lia.
Qed.

(** ** Loading *)

Lemma slice_all {A} (l : list A) n : n = len l -> slice l 0 n = l.
Proof. intros ->. unfold slice, len. rewrite drop_0, Nat2Z.id. apply firstn_all. Qed.

Lemma concat_replicate_S {A} n (l : list A) : concat (replicate (S n) l) = concat (replicate n l) ++ l.
Proof. induction n as [|n IH]; [cbn; by rewrite app_nil_r|]. cbn in *. rewrite IH at 1. by rewrite app_assoc. Qed.

Lemma fill_words v out : len out = ZRAM_PAGE ->
  returns (for_range 0 (ZRAM_PAGE / 8) 1 (fun index out => copy_in out (8 * index) (le_bytes 8 v)) out)
    (fun out' => out' = repeated v).
Proof.
  intros Hl. unfold ZRAM_PAGE in Hl. eapply returns_mono.
  - apply (for_range_rule (fun i o => len o = 4096 /\ take (Z.to_nat (8 * i)) o = concat (replicate (Z.to_nat i) (le_bytes 8 v)))).
    + done.
    + done.
    + change (ZRAM_PAGE / 8) with 512. intros i o Hi [Ho Et].
      assert (len (le_bytes 8 v) = 8) as E8 by (unfold len; by rewrite length_le_bytes).
      rewrite copy_in_in by (unfold len in *; lia). cbn [returns]. rewrite len_splice by lia. split; [done|].
      replace (8 * (i + 1)) with (8 * i + len (le_bytes 8 v)) by lia. rewrite take_splice by lia. rewrite Et.
      replace (Z.to_nat (i + 1)) with (S (Z.to_nat i)) by lia. by rewrite concat_replicate_S.
  - intros o [Ho Et]. change (ZRAM_PAGE / 8) with 512 in Et. rewrite take_ge in Et by (unfold len in Ho; lia). exact Et.
Qed.

Lemma slot_load_ok z t page s p out :
  slots z = Some t -> 0 <= page -> t !! Z.to_nat page = Some s -> stands_for (blobs z) s p ->
  len p = ZRAM_PAGE -> len out = ZRAM_PAGE -> slot_load page out z = Ret (0, p).
Proof.
  intros Es Hp Hs Hst Hlp Hlo. unfold slot_load. rewrite (slot_at_eq z t page s) by done. rewrite bind_ret.
  unfold stands_for, blob_at in *. destruct (s_kind s).
  - rewrite Hst, copy_in_in by (fold zeros; pose proof len_zeros; unfold len in *; lia).
    rewrite bind_ret. fold zeros. rewrite splice_all; [done|]. by rewrite len_zeros.
  - destruct Hst as [-> Hv]. destruct (proj1 (returns_exists _ _) (fill_words (s_value s) out Hlo)) as (o & -> & ->). done.
  - destruct Hst as (Hn & blob & -> & Hbl & Hd). rewrite bind_ret, Hd by lia.
    rewrite drop_ge, app_nil_r by (unfold len, ZRAM_PAGE in *; lia). done.
  - destruct Hst as [Hn ->]. rewrite bind_ret, copy_out_in by (unfold len, ZRAM_PAGE in *; lia).
    rewrite bind_ret, slice_all, copy_in_in by (unfold len, ZRAM_PAGE in *; lia). rewrite bind_ret, splice_all by lia. done.
Qed.

(** ** Pages of one word *)

Lemma word_at_eq p i : 0 <= i -> 8 * i + 8 <= len p -> word_at p i = Ret (le_join (slice p (8 * i) 8)).
Proof. intros Hi Hl. unfold word_at. rewrite copy_out_in by (unfold len in *; lia). done. Qed.

Lemma same_filled_loop_ok fuel p w i :
  1 <= i -> 8 * (i + Z.of_nat fuel) <= len p ->
  exists b, same_filled_loop fuel p w i = Ret b /\
    (b = true -> forall j, i <= j < i + Z.of_nat fuel -> le_join (slice p (8 * j) 8) = w).
Proof.
  revert i. induction fuel as [|fuel IH]; intros i Hi Hl; cbn [same_filled_loop].
  - exists true. split; [done|]. intros _ j. lia.
  - rewrite word_at_eq, bind_ret by lia. case_cmp; cbn [negb]; [|by exists false].
    destruct (IH (i + 1)) as (b & -> & Hb); [lia..|]. exists b. split; [done|]. intros Eb j Hj.
    destruct (decide (j = i)) as [->|]; [done|]. apply Hb; [done|lia].
Qed.

Lemma words_repeated n p w :
  Forall byte p -> length p = (8 * n)%nat ->
  (forall j, 0 <= j < Z.of_nat n -> le_join (slice p (8 * j) 8) = w) -> p = concat (replicate n (le_bytes 8 w)).
Proof.
  revert p. induction n as [|n IH]; intros p Hb Hl Hw.
  - destruct p; [done|]. cbn in Hl. lia.
  - cbn [replicate concat]. rewrite <- (take_drop 8 p) at 1. f_equal.
    + specialize (Hw 0 ltac:(lia)). change (slice p (8 * 0) 8) with (take 8 p) in Hw. rewrite <- Hw.
      assert (length (take 8 p) = 8%nat) as E by (rewrite length_take; lia). rewrite <- E at 2.
      symmetry. apply le_bytes_join. by apply Forall_take.
    + apply IH; [by apply Forall_drop|rewrite length_drop; lia|]. intros j Hj. rewrite <- (Hw (j + 1)) by lia.
      unfold slice. rewrite drop_drop. do 3 f_equal. lia.
Qed.

Lemma same_filled_ok p : Forall byte p -> len p = ZRAM_PAGE ->
  exists o, same_filled p = Ret o /\ forall w, o = Some w -> p = repeated w /\ 0 <= w < 2 ^ 64.
Proof.
  intros Hb Hl. unfold ZRAM_PAGE in Hl. unfold same_filled. rewrite word_at_eq, bind_ret by lia.
  set (w := le_join (slice p (8 * 0) 8)).
  destruct (same_filled_loop_ok (Z.to_nat (ZRAM_PAGE / 8) - 1) p w 1) as (b & E & Hw); [lia|change (ZRAM_PAGE / 8) with 512; lia|].
  rewrite E, bind_ret. destruct b; [|by exists None]. exists (Some w). split; [done|]. intros ? [= <-]. split.
  - apply words_repeated; [done|unfold len in Hl; change (ZRAM_PAGE / 8) with 512; lia|]. intros j Hj.
    destruct (decide (j = 0)) as [->|]; [done|]. apply Hw; [done|]. lia.
  - pose proof (slice_bytes p (8 * 0) 8 Hb) as Hs. pose proof (le_join_bound _ Hs) as Hj.
    pose proof (length_slice p (8 * 0) 8). replace (length (slice p (8 * 0) 8)) with 8%nat in Hj by (unfold len in *; lia). done.
Qed.

(** ** Storing *)

Lemma bound_page : bound ZRAM_PAGE = 4128.
Proof. reflexivity. Qed.

Lemma pack_page_ok data z :
  Forall byte data -> len data = ZRAM_PAGE -> len (packed z) = bound ZRAM_PAGE -> len (hash_table z) = TABLE_ENTRIES ->
  exists kind size source code table,
    pack_page data z = Ret (kind, size, source, set_buffers table code (scratch z) z) /\
    len code = bound ZRAM_PAGE /\ len table = TABLE_ENTRIES /\ (kind = ZRAM_PACKED \/ kind = ZRAM_RAW) /\
    0 < size <= ZRAM_PAGE /\
    forall m a, m !! a = Some source -> stands_for m (Slot a size kind) data.
Proof.
  intros Hb Hl Hp Ht. rewrite bound_page in Hp. pose proof (len_nonneg (packed z)).
  destruct (lz4_calls data (packed z) (len (packed z)) (hash_table z))
    as (code & table & n & Ec & Hn & Hlc & Hlt & _ & _ & _ & Hd); unfold MAX_INPUT, TABLE_ENTRIES, ZRAM_PAGE in *; try (done || lia).
  unfold pack_page, ZRAM_PAGE. rewrite Hl in Ec. rewrite Ec.
  assert (len table = 4096) as Hlt' by (unfold len in *; lia).
  unfold ZRAM_HUGE. destruct (Z.eqb_spec n 0), (Z.ltb_spec 3072 n); cbn [orb]; try lia.
  1,2: rewrite copy_out_in by (unfold len in *; lia); rewrite bind_ret, slice_all by lia;
    exists ZRAM_RAW, 4096, data, code, table; change (bound 4096) with 4128; repeat split; try (done || lia || by right).
  rewrite copy_out_in by (unfold len in *; lia). rewrite bind_ret.
  exists ZRAM_PACKED, n, (slice code 0 n), code, table. change (bound 4096) with 4128.
  split; [done|]. split; [lia|]. split; [done|]. split; [by left|]. split; [lia|]. intros m a Ha.
  split; [cbn [s_size]; unfold ZRAM_HUGE; lia|]. eexists. split; [done|]. cbn [s_size]. split; [apply length_slice; unfold len in *; lia|].
  intros target Htg. unfold ZRAM_PAGE. rewrite <- Hl. rewrite (Hd ltac:(lia)).
  - unfold len. by rewrite Nat2Z.id.
  - unfold slice. change (Z.to_nat 0) with 0%nat. rewrite drop_0. by rewrite take_take, Nat.min_id.
  - unfold ZRAM_PAGE in *. lia.
Qed.

(** A cleared slot filled again: with a word, and with a blob. *)
Section refilling.
Context (z : zram) (t : list zram_slot) (m : gmap Z (list Z)) (i : nat) (s : zram_slot).
Context (Hs : t !! i = Some s) (Hf : few t).

Let refilled (s' : zram_slot) : zram :=
  set_slots (Some (<[i := s']> (<[i := empty_slot]> t))) (recount z (<[i := empty_slot]> t) m).

Lemma cleared_sums :
  (0 <= sum_by f_stored (<[i := empty_slot]> t) < 2 ^ 60) /\ (0 <= sum_by f_same (<[i := empty_slot]> t) < 2 ^ 60) /\
  (0 <= sum_by f_huge (<[i := empty_slot]> t) < 2 ^ 60) /\ (0 <= sum_by f_bytes (<[i := empty_slot]> t) < 2 ^ 60) /\
  (0 <= sum_by f_used (<[i := empty_slot]> t) < 2 ^ 60).
Proof using Hs Hf.
  pose proof (few_sums t i s Hf Hs) as (F1 & F2 & F3 & F4 & F5).
  pose proof (f_values 0 0 ZRAM_EMPTY) as (W1 & W2 & W3 & W4 & W5). fold empty_slot in W1, W2, W3, W4, W5.
  rewrite !(sum_by_insert _ t _ s _ Hs). lia.
Qed.

Lemma refilled_sum f s' : f empty_slot = 0 -> sum_by f (<[i := s']> t) = sum_by f (<[i := empty_slot]> t) + f s'.
Proof using Hs. intros E. rewrite !(sum_by_insert _ t _ s _ Hs), E. lia. Qed.

Lemma refill_same w : let z' := refilled (Slot w 0 ZRAM_SAME) in
  set_pages (u64 (stored_pages z' + 1)) (compressed_bytes z') (memory_used z') (u64 (same_pages z' + 1)) (huge_pages z') z' =
  recount z (<[i := Slot w 0 ZRAM_SAME]> t) m.
Proof using Hs Hf.
  pose proof cleared_sums as (F1 & F2 & F3 & F4 & F5). pose proof (f_values w 0 ZRAM_SAME) as (V1 & V2 & V3 & V4 & V5).
  cbn zeta. unfold refilled. rewrite list_insert_insert_eq. unfold recount. destruct z. cbn.
  rewrite !(refilled_sum _ (Slot w 0 ZRAM_SAME) eq_refl). rewrite V1, V2, V3, V4, V5. words.
  unfold set_slots, set_pages, set_blobs. cbn. f_equal; lia.
Qed.

Lemma refill_blob a size kind : kind = ZRAM_PACKED \/ kind = ZRAM_RAW -> 0 < size <= ZRAM_PAGE ->
  let z' := refilled (Slot a (u32 size) kind) in
  set_pages (u64 (stored_pages z' + 1)) (u64 (compressed_bytes z' + size)) (u64 (memory_used z' + charge (u32 size)))
    (same_pages z') (if decide (kind = ZRAM_RAW) then u64 (huge_pages z' + 1) else huge_pages z') z' =
  recount z (<[i := Slot a size kind]> t) m.
Proof using Hs Hf.
  unfold ZRAM_PAGE. intros Hk Hn. pose proof cleared_sums as (F1 & F2 & F3 & F4 & F5).
  pose proof (f_values a size kind) as (V1 & V2 & V3 & V4 & V5).
  unfold charge, ZRAM_HEADER. rewrite (u32_small size) by lia. rewrite (u32_small (size + 48)) by lia.
  cbn zeta. unfold refilled. rewrite list_insert_insert_eq. unfold recount. destruct z. cbn.
  rewrite !(refilled_sum _ (Slot a size kind) eq_refl). rewrite V1, V2, V3, V4, V5.
  destruct Hk as [-> | ->]; [rewrite decide_False by done|rewrite decide_True by done]; words;
    unfold set_slots, set_pages, set_blobs; cbn; f_equal; lia.
Qed.
End refilling.

Lemma few_of t m disk : slots_ok t m disk -> len t <= 2 ^ 42 -> few t.
Proof.
  intros Hok Hn. split; [done|]. apply Forall_lookup_2. intros i s Hi Hh.
  pose proof (so_stands _ _ _ Hok i s Hi) as Hst. unfold stands_for, holds_blob, ZRAM_HUGE, ZRAM_PAGE in *.
  destruct (s_kind s); try done; lia.
Qed.

Lemma slot_blob t m disk i s : slots_ok t m disk -> t !! i = Some s -> holds_blob s = true -> is_Some (m !! s_value s).
Proof. intros Hok Hi. eapply stands_for_blob, (so_stands _ _ _ Hok i s Hi). Qed.

Lemma zram_counted z disk t : zram_ok z disk -> slots z = Some t -> counted z t.
Proof. intros [] E. unfold the_slots in *. rewrite E in *. by split. Qed.

Lemma zram_table z disk t : zram_ok z disk -> slots z = Some t ->
  slots_ok t (blobs z) disk /\ page_count z = len t /\ few t.
Proof.
  intros [] E. unfold the_slots in *. rewrite E in *. cbn in *. split; [done|]. split; [done|].
  eapply few_of; [done|]. lia.
Qed.

(** The state after a slot has been replaced. *)
Lemma recount_ok z disk t t' m' disk' maximum limit since :
  zram_ok z disk -> slots z = Some t -> len t' = len t -> slots_ok t' m' disk' -> sum_by f_used t' <= maximum ->
  zram_ok (set_limits maximum limit since (recount z t' m')) disk'.
Proof.
  intros [] E El Hok Hm. unfold the_slots in *. rewrite E in *. cbn in *.
  split; unfold the_slots; cbn; rewrite ?El; try done. split; [|done]. intros _. apply z_some0. done.
Qed.

Section storing.
Context (mallocs : nat -> gset Z -> Z) (mallocs_fresh : forall n used, mallocs n used ∉ used).

(** A page has been stored, or nothing has changed but the buffers; the
    memory used does not pass the limit. *)
Definition stored (z : zram) (disk : list Z) (page : Z) (data : list Z) (r : Z * zram) : Prop :=
  let '(status, z') := r in
  zram_ok z' (if status =? 0 then splice disk (ZRAM_PAGE * page) data else disk) /\
  page_count z' = page_count z /\ memory_limit z' = memory_limit z /\ scratch z' = scratch z /\
  (memory_limit z <> 0 -> memory_used z' <= Z.max (memory_used z) (memory_limit z)) /\
  (status = 0 \/ (status = - ENOSPC /\ memory_limit z <> 0) \/ (status = - ENOMEM /\ mallocs (questions z) (dom (blobs z)) = 0)).

Lemma store_same_ok z disk t page s data w :
  zram_ok z disk -> slots z = Some t -> 0 <= page -> t !! Z.to_nat page = Some s ->
  data = repeated w -> 0 <= w < 2 ^ 64 ->
  same_filled data = Ret (Some w) -> returns (slot_store mallocs page data z) (stored z disk page data).
Proof.
  intros Hok Es Hp Hs Hd Hw Hf. destruct (zram_table z disk t Hok Es) as (Hso & Hpc & Hfew).
  pose proof (zram_counted z disk t Hok Es) as Hc. pose proof (lookup_lt_Some _ _ _ Hs) as Hlt.
  unfold slot_store. rewrite (slot_at_eq z t page s), bind_ret, Hf, bind_ret by done.
  rewrite (slot_clear_eq z t page s) by (done || by eapply slot_blob).
  rewrite bind_ret.
  erewrite put_slot_eq by (reflexivity || exact Hp || by apply list_lookup_insert_eq). rewrite bind_ret.
  rewrite (refill_same z t (without (blobs z) s) (Z.to_nat page) s Hs Hfew w). set (new := Slot w 0 ZRAM_SAME).
  pose proof (few_sums t _ s Hfew Hs) as (_ & _ & _ & _ & F5). pose proof (f_values w 0 ZRAM_SAME) as (_ & _ & _ & _ & V5).
  assert (sum_by f_used (<[Z.to_nat page := new]> t) <= memory_used z) as Hu.
  { rewrite (c_used _ _ Hc), (sum_by_insert _ t _ s _ Hs). unfold new. lia. }
  cbn [returns stored]. split; [|cbn; repeat split; try (done || lia || by left)].
  rewrite Z.eqb_refl. pose proof (z_max _ _ Hok).
  change (recount z (<[Z.to_nat page := new]> t) (without (blobs z) s)) with
    (set_limits (memory_used_max z) (memory_limit z) (huge_pages_since z) (recount z (<[Z.to_nat page := new]> t) (without (blobs z) s))).
  eapply recount_ok; [exact Hok|exact Es|unfold len; by rewrite length_insert| |lia].
  replace (ZRAM_PAGE * page) with (ZRAM_PAGE * Z.of_nat (Z.to_nat page)) by (rewrite Z2Nat.id by lia; done).
  change (without (blobs z) s) with (with_ (without (blobs z) s) new []).
  apply replace_ok; try done; subst data.
  - apply len_repeated.
  - apply Forall_concat, Forall_replicate, le_bytes_byte.
Qed.

(** A failure leaves the slots alone. *)
Lemma unstored z disk page data status z' :
  zram_ok z' disk -> status <> 0 -> page_count z' = page_count z -> memory_limit z' = memory_limit z ->
  scratch z' = scratch z -> memory_used z' = memory_used z ->
  (status = 0 \/ (status = - ENOSPC /\ memory_limit z <> 0) \/ (status = - ENOMEM /\ mallocs (questions z) (dom (blobs z)) = 0)) ->
  stored z disk page data (status, z').
Proof.
  intros Hok Hs E1 E2 E3 E4 Hr. unfold stored. rewrite (proj2 (Z.eqb_neq _ _) Hs), E4. do 4 (split; [done|]). split; [lia|done].
Qed.

Lemma buffers_ok z disk code table page : zram_ok z disk ->
  len code = bound ZRAM_PAGE -> len table = TABLE_ENTRIES -> len page = ZRAM_PAGE ->
  zram_ok (set_buffers table code page z) disk.
Proof. intros [] ? ? ?. by split. Qed.

Lemma questions_ok z disk n : zram_ok z disk -> zram_ok (set_blobs (blobs z) n z) disk.
Proof. intros []. by split. Qed.

Definition keep_blob (a size : Z) (kind : zram_kind) (page : Z) (z : zram) : res (Z * zram) :=
  z ← slot_clear page z;
  z ← put_slot page (Slot a (u32 size) kind) z;
  let used := u64 (memory_used z + charge (u32 size)) in
  let z := set_pages (u64 (stored_pages z + 1)) (u64 (compressed_bytes z + size)) used (same_pages z)
             (if decide (kind = ZRAM_RAW) then u64 (huge_pages z + 1) else huge_pages z) z in
  Ret (0, set_limits (Z.max used (memory_used_max z)) (memory_limit z)
            (if decide (kind = ZRAM_RAW) then u64 (huge_pages_since z + 1) else huge_pages_since z) z).

(** The new blob takes the place of what the slot had. *)
Lemma keep_blob_ok z disk t page s a size kind source data :
  zram_ok z disk -> slots z = Some t -> 0 <= page -> t !! Z.to_nat page = Some s -> blobs z !! a = None ->
  kind = ZRAM_PACKED \/ kind = ZRAM_RAW -> 0 < size <= ZRAM_PAGE -> len data = ZRAM_PAGE -> Forall byte data ->
  (forall m, m !! a = Some source -> stands_for m (Slot a size kind) data) ->
  exists z', keep_blob a size kind page (set_blobs (<[a := source]> (blobs z)) (S (questions z)) z) = Ret (0, z') /\
    zram_ok z' (splice disk (ZRAM_PAGE * page) data) /\ page_count z' = page_count z /\
    memory_limit z' = memory_limit z /\ scratch z' = scratch z /\
    memory_used z' = memory_used z - f_used s + (size + 48).
Proof.
  intros Hok Es Hp Hs Ha Hk Hn Hl Hb Hst. destruct (zram_table z disk t Hok Es) as (Hso & Hpc & Hfew).
  destruct (zram_counted z disk t Hok Es) as [C1 C2 C3 C4 C5]. pose proof (lookup_lt_Some _ _ _ Hs) as Hlt.
  set (z1 := set_blobs (<[a := source]> (blobs z)) (S (questions z)) z).
  assert (holds_blob s = true -> s_value s <> a) as Hsa
    by (intros Hh <-; destruct (slot_blob _ _ _ _ _ Hso Hs Hh) as [x Hx]; congruence).
  unfold keep_blob. rewrite (slot_clear_eq z1 t page s).
  2-6: (done || by split).
  2: { intros Hh. unfold z1. cbn. rewrite lookup_insert_ne by (intros E; by apply (Hsa Hh)). by eapply slot_blob. }
  rewrite bind_ret. erewrite put_slot_eq by (reflexivity || exact Hp || by apply list_lookup_insert_eq). rewrite bind_ret.
  cbv zeta. rewrite (refill_blob z1 t (without (blobs z1) s) (Z.to_nat page) s Hs Hfew a size kind Hk Hn).
  set (t' := <[Z.to_nat page := Slot a size kind]> t).
  assert (without (blobs z1) s = with_ (without (blobs z) s) (Slot a size kind) source) as Em.
  { unfold z1, without, with_, holds_blob at 2. cbn [blobs set_blobs s_kind s_value].
    destruct Hk as [-> | ->]; destruct (holds_blob s); (done || (rewrite delete_insert_ne by (intros E; by apply Hsa); done)). }
  pose proof (cleared_sums t (Z.to_nat page) s Hs Hfew) as (_ & _ & _ & _ & F5).
  pose proof (f_values a size kind) as (_ & _ & _ & _ & V5). pose proof (refilled_sum t (Z.to_nat page) s Hs f_used (Slot a size kind) eq_refl) as Er.
  fold t' in Er. rewrite V5 in Er.
  replace (match kind with ZRAM_PACKED | ZRAM_RAW => size + 48 | _ => 0 end) with (size + 48) in Er by (by destruct Hk as [-> | ->]).
  assert (u64 (sum_by f_used (<[Z.to_nat page := empty_slot]> t) + charge (u32 size)) = sum_by f_used t') as Eu.
  { unfold charge, ZRAM_HEADER, ZRAM_PAGE in *. rewrite (u32_small size) by lia. rewrite (u32_small (size + 48)) by lia.
    rewrite u64_small by lia. lia. }
  eexists. split; [reflexivity|]. split.
  - rewrite Em. change (recount z1) with (recount (set_blobs (blobs z) (S (questions z)) z)).
    eapply recount_ok; [by apply questions_ok|exact Es|unfold len, t'; by rewrite length_insert| |cbn; lia].
    replace (ZRAM_PAGE * page) with (ZRAM_PAGE * Z.of_nat (Z.to_nat page)) by (rewrite Z2Nat.id by lia; done).
    apply replace_ok; try done. apply Hst. unfold with_, holds_blob. cbn [s_kind s_value].
    destruct Hk as [-> | ->]; apply lookup_insert_eq.
  - cbn. repeat split. unfold t'. rewrite (sum_by_insert _ t _ s _ Hs), V5, C5. by destruct Hk as [-> | ->].
Qed.

Lemma slot_store_ok z disk t page data :
  zram_ok z disk -> slots z = Some t -> 0 <= page < len t -> len data = ZRAM_PAGE -> Forall byte data ->
  returns (slot_store mallocs page data z) (stored z disk page data).
Proof using mallocs_fresh.
  intros Hok Es Hp Hl Hb. destruct (zram_table z disk t Hok Es) as (Hso & Hpc & Hfew).
  destruct (t !! Z.to_nat page) as [s|] eqn:Hs; [|apply lookup_ge_None in Hs; unfold len in *; lia].
  destruct (same_filled_ok data Hb Hl) as ([w|] & Ef & Hw).
  { destruct (Hw w eq_refl) as [Hd Hw64]. by eapply store_same_ok; [..|exact Hd|exact Hw64|]; try lia. }
  destruct (pack_page_ok data z Hb Hl (z_packed _ _ Hok) (z_table _ _ Hok))
    as (kind & size & source & code & table & Ep & Hlc & Hlt & Hk & Hn & Hst).
  unfold slot_store. rewrite (slot_at_eq z t page s), bind_ret, Ef, bind_ret, Ep, bind_ret by (done || lia).
  set (z1 := set_buffers table code (scratch z) z). cbv zeta.
  assert (zram_ok z1 disk) as Hok1 by (apply buffers_ok; try done; apply (z_scratch _ _ Hok)).
  destruct (few_sums t _ s Hfew Hs) as (_ & _ & _ & _ & F5). pose proof (zram_counted z disk t Hok Es) as Hc.
  rewrite <- (c_used _ _ Hc) in F5.
  assert ((if holds_blob s then charge (s_size s) else 0) = f_used s) as Eo.
  { unfold f_used, charge, ZRAM_HEADER. destruct (holds_blob s) eqn:Eh; [|done]. apply u32_small.
    destruct Hfew as [_ Hsz]. pose proof (Forall_lookup_1 _ _ _ _ Hsz Hs Eh) as Hx. unfold ZRAM_PAGE in Hx. lia. }
  rewrite Eo. assert (charge (u32 size) = size + 48) as Ec.
  { unfold charge, ZRAM_HEADER, ZRAM_PAGE in *. rewrite (u32_small size) by lia. apply u32_small. lia. }
  change (memory_used z1) with (memory_used z). change (memory_limit z1) with (memory_limit z). unfold ZRAM_PAGE in Hn.
  assert (u64 (u64 (memory_used z - f_used s) + charge (u32 size)) = memory_used z - f_used s + (size + 48)) as ->
    by (rewrite Ec, (u64_small (memory_used z - f_used s)), u64_small; lia).
  destruct (negb (memory_limit z =? 0) && _) eqn:Elim.
  - apply andb_true_iff in Elim as [El%negb_true_iff%Z.eqb_neq _]. apply (unstored z disk page data); try done. right. by left.
  - unfold new_blob. change (questions z1) with (questions z). change (blobs z1) with (blobs z).
    destruct (Z.eqb_spec (mallocs (questions z) (dom (blobs z))) 0) as [E0|Hne].
    + apply (unstored z disk page data); try done; [by apply questions_ok|]. right. by right.
    + set (a := mallocs (questions z) (dom (blobs z))) in *.
      destruct (keep_blob_ok z1 disk t page s a size kind source data) as (z' & E & Hok' & E1 & E2 & E3 & E4); try (done || lia).
      { apply not_elem_of_dom. apply mallocs_fresh. }
      { intros m. apply Hst. }
      change (returns (keep_blob a size kind page (set_blobs (<[a := source]> (blobs z1)) (S (questions z1)) z1)) (stored z disk page data)).
      rewrite E. cbn [returns stored]. rewrite Z.eqb_refl. do 4 (split; [done|]). split; [|by left]. intros Hlim.
      rewrite E4. apply andb_false_iff in Elim as [?%negb_false_iff%Z.eqb_eq|?%Z.ltb_ge]; [done|].
      change (memory_used z1) with (memory_used z). lia.
Qed.
End storing.

Lemma slot_clear_ok z disk t page :
  zram_ok z disk -> slots z = Some t -> 0 <= page < len t ->
  exists m, slot_clear page z = Ret (recount z (<[Z.to_nat page := empty_slot]> t) m) /\
    zram_ok (recount z (<[Z.to_nat page := empty_slot]> t) m) (splice disk (ZRAM_PAGE * page) zeros) /\
    sum_by f_used (<[Z.to_nat page := empty_slot]> t) <= memory_used z.
Proof.
  intros Hok Es Hp. destruct (zram_table z disk t Hok Es) as (Hso & Hpc & Hfew).
  destruct (t !! Z.to_nat page) as [s|] eqn:Hs; [|apply lookup_ge_None in Hs; unfold len in *; lia].
  pose proof (zram_counted z disk t Hok Es) as Hc. pose proof (few_sums t _ s Hfew Hs) as (_ & _ & _ & _ & F5).
  assert (sum_by f_used (<[Z.to_nat page := empty_slot]> t) <= memory_used z) as Hu.
  { rewrite (c_used _ _ Hc), (sum_by_insert _ t _ s _ Hs). change (f_used empty_slot) with 0. lia. }
  exists (without (blobs z) s). split; [apply slot_clear_eq; try (done || lia); by eapply slot_blob|]. split; [|done].
  change (recount z (<[Z.to_nat page := empty_slot]> t) (without (blobs z) s)) with
    (set_limits (memory_used_max z) (memory_limit z) (huge_pages_since z)
       (recount z (<[Z.to_nat page := empty_slot]> t) (with_ (without (blobs z) s) empty_slot []))).
  pose proof (z_max _ _ Hok). eapply recount_ok; [exact Hok|exact Es|unfold len; by rewrite length_insert| |lia].
  replace (ZRAM_PAGE * page) with (ZRAM_PAGE * Z.of_nat (Z.to_nat page)) by (rewrite Z2Nat.id by lia; done).
  apply replace_ok; try done. by apply Forall_replicate.
Qed.
