(* ===== verification/ZramSpec.v ===== *)
(** * What the compressed disk promises

    Whatever the allocator answers, the disk behaves as an array of bytes:
    reads never fail, a write that fails has written its first pages and
    nothing else, a discard zeroes the whole pages it covers, and the counters
    and the memory stay exact.  The disk is a driver of the block layer. *)

From S2P Require Import Prelude Block RustStd Lz4 Lz4Format Lz4Compress Lz4Spec Zram ZramAttr ZramOk.

(** ** Slices of slices *)

Lemma slice_add {A} (l : list A) i a b : 0 <= i -> 0 <= a -> 0 <= b -> slice l i (a + b) = slice l i a ++ slice l (i + a) b.
Proof.
  intros. unfold slice. rewrite !Z2Nat.inj_add by lia. rewrite <- drop_drop. symmetry. apply take_take_drop.
Qed.

Lemma slice_slice {A} (l : list A) i n j k : 0 <= i -> 0 <= j -> 0 <= k -> j + k <= n -> slice (slice l i n) j k = slice l (i + j) k.
Proof.
  intros. unfold slice. rewrite skipn_firstn_comm, take_take, drop_drop. f_equal; [lia|f_equal; lia].
Qed.

(** A change inside a page is a change of the disk. *)
Lemma splice_inner {A} (l m : list A) i n j :
  0 <= i -> 0 <= j -> j + len m <= n -> i + n <= len l -> splice l i (splice (slice l i n) j m) = splice l (i + j) m.
Proof.
  intros Hi Hj Hm Hl. unfold len in *. assert (Z.of_nat (length (slice l i n)) = n) as En by (apply length_slice; lia).
  apply list_eq. intros k. rewrite !lookup_splice by (rewrite ?length_splice; lia). rewrite length_splice by lia.
  repeat case_decide; try lia; rewrite ?lookup_slice by lia; (done || (f_equal; lia)).
Qed.

(** ** Requests *)

Section requests.
Context (mallocs : nat -> gset Z -> Z) (mallocs_fresh : forall n used, mallocs n used ∉ used).

Definition touches_buffers (z z' : zram) : Prop :=
  exists page, z' = set_buffers (hash_table z) (packed z) page z /\ len page = ZRAM_PAGE.

Lemma page_slot z disk t page : zram_ok z disk -> slots z = Some t -> 0 <= page < len t ->
  exists s, t !! Z.to_nat page = Some s /\ stands_for (blobs z) s (slice disk (ZRAM_PAGE * page) ZRAM_PAGE) /\
    len (slice disk (ZRAM_PAGE * page) ZRAM_PAGE) = ZRAM_PAGE /\ ZRAM_PAGE * page + ZRAM_PAGE <= len disk.
Proof.
  intros Hok Es Hp. destruct (zram_table z disk t Hok Es) as (Hso & Hpc & Hfew).
  destruct (t !! Z.to_nat page) as [s|] eqn:Hs; [|apply lookup_ge_None in Hs; unfold len in *; lia].
  exists s. split; [done|]. pose proof (so_stands _ _ _ Hso _ _ Hs) as Hst. pose proof (so_len _ _ _ Hso) as Hl.
  unfold page_of in Hst. rewrite Z2Nat.id in Hst by lia. split; [done|].
  unfold ZRAM_PAGE in *. split; [apply length_slice; unfold len in *; lia|lia].
Qed.

Lemma scratch_ok z disk page : zram_ok z disk -> len page = ZRAM_PAGE ->
  zram_ok (set_buffers (hash_table z) (packed z) page z) disk.
Proof. intros Hok Hp. apply buffers_ok; [done|apply (z_packed _ _ Hok)|apply (z_table _ _ Hok)|done]. Qed.

Lemma touches_scratch z z' page : len page = ZRAM_PAGE ->
  touches_buffers (set_buffers (hash_table z) (packed z) page z) z' -> touches_buffers z z'.
Proof. intros Hp (page' & -> & Hp'). by exists page'. Qed.

Lemma touches_self z disk : zram_ok z disk -> touches_buffers z z.
Proof. intros Hok. exists (scratch z). split; [by destruct z|apply (z_scratch _ _ Hok)]. Qed.

(** The part of a request that lies in its first page. *)
Definition first_part (lba count : Z) : Z := if count <? 8 - lba mod 8 then count else 8 - lba mod 8.

Lemma first_page lba count n : 0 <= lba -> 0 < count -> lba + count <= 8 * n ->
  0 <= lba / 8 < n /\ 0 <= lba mod 8 < 8 /\ 512 * lba = 4096 * (lba / 8) + 512 * (lba mod 8) /\
  0 < first_part lba count <= count /\ lba mod 8 + first_part lba count <= 8.
Proof. intros. unfold first_part. case_cmp; dlia. Qed.

(** What is read of the first page, followed by what is read of the rest. *)
Lemma read_join (disk dest : list Z) lba count tk at_ :
  0 <= lba -> 0 < tk <= count -> 512 * (lba + count) <= len disk -> 0 <= at_ -> at_ + 512 * count <= len dest ->
  splice (splice dest at_ (slice disk (512 * lba) (512 * tk))) (at_ + tk * 512)
    (slice disk (512 * (lba + tk)) (512 * (count - tk))) = splice dest at_ (slice disk (512 * lba) (512 * count)).
Proof.
  intros Hl Ht Hd Ha Hb.
  assert (len (slice disk (512 * lba) (512 * tk)) = 512 * tk) as E1 by (apply length_slice; unfold len in *; lia).
  assert (len (slice disk (512 * (lba + tk)) (512 * (count - tk))) = 512 * (count - tk)) as E2 by (apply length_slice; unfold len in *; lia).
  replace (tk * 512) with (len (slice disk (512 * lba) (512 * tk))) by lia. rewrite splice_splice by lia.
  f_equal. replace (512 * count) with (512 * tk + 512 * (count - tk)) by lia. rewrite slice_add by lia. do 2 f_equal. lia.
Qed.

Lemma page_part (disk : list Z) lba tk : 0 <= lba -> 0 <= tk -> lba mod 8 + tk <= 8 ->
  slice (slice disk (4096 * (lba / 8)) 4096) (512 * (lba mod 8)) (512 * tk) = slice disk (512 * lba) (512 * tk).
Proof. intros. rewrite slice_slice by dlia. f_equal. dlia. Qed.

Lemma zram_read_loop_ok fuel z disk t lba count at_ dest :
  zram_ok z disk -> slots z = Some t -> 0 <= lba -> 0 <= count <= Z.of_nat fuel -> count < 2 ^ 32 -> lba + count <= 8 * len t ->
  0 <= at_ -> at_ + 512 * count <= len dest ->
  exists z', zram_read_loop fuel lba count at_ dest z =
      Ret (0, splice dest at_ (slice disk (512 * lba) (512 * count)), z') /\ touches_buffers z z'.
Proof.
  revert z lba count at_ dest. induction fuel as [|fuel IH]; intros z lba count at_ dest Hok Es Hlba Hf H32 Hr Ha Hd; cbn [zram_read_loop].
  all: assert (count = 0 -> exists z', Ret (0, dest, z) = Ret (0, splice dest at_ (slice disk (512 * lba) (512 * count)), z') /\ touches_buffers z z') as Hstop
    by (intros ->; exists z; change (slice disk (512 * lba) (512 * 0)) with (@nil Z); rewrite splice_nil by lia; split; [done|by eapply touches_self]).
  all: destruct (Z.eqb_spec count 0) as [->|Hne]; [by apply Hstop|]; clear Hstop.
  { lia. }
  destruct (zram_table z disk t Hok Es) as (Hso & Hpc & [Ht42 _]).
  pose proof (so_len _ _ _ Hso) as Hsl. unfold ZRAM_SECTORS, ZRAM_PAGE in *.
  destruct (first_page lba count (len t)) as (Hp & Hw & Elba & Htk & Hin); [lia..|]. fold (first_part lba count).
  set (tk := first_part lba count) in *.
  destruct (page_slot z disk t (lba / 8) Hok Es Hp) as (s & Hs & Hst & Hlp & Hend). unfold ZRAM_PAGE in *.
  pose proof (page_part disk lba tk Hlba ltac:(lia) Hin) as Ep. pose proof (read_join disk dest lba count tk at_) as Ej.
  set (p := slice disk (4096 * (lba / 8)) 4096) in *.
  assert (len (slice disk (512 * lba) (512 * tk)) = 512 * tk) as Els by (apply length_slice; unfold len in *; lia).
  unfold BLOCK_SECTOR_SIZE. rewrite (u64_small (lba + tk)), (u32_small (count - tk)) by lia.
  rewrite <- Ej by lia. destruct ((lba mod 8 =? 0) && (tk =? 8)) eqn:Ewhole.
  - apply andb_true_iff in Ewhole as [E0%Z.eqb_eq E8%Z.eqb_eq].
    rewrite copy_out_in by (unfold len in *; lia). rewrite bind_ret.
    assert (len (slice dest at_ 4096) = 4096) as Ho by (apply length_slice; unfold len in *; lia).
    rewrite (slot_load_ok z t (lba / 8) s p) by (done || lia). rewrite bind_ret.
    assert (p = slice disk (512 * lba) (512 * tk)) as -> by (unfold p; f_equal; lia).
    rewrite copy_in_in by (unfold len in *; lia). rewrite bind_ret. change (0 =? 0) with true. cbn [negb].
    apply (IH z); try (done || lia). rewrite len_splice by lia. lia.
  - rewrite (slot_load_ok z t (lba / 8) s p) by (done || lia || apply (z_scratch _ _ Hok)). rewrite bind_ret.
    change (0 =? 0) with true. cbn [negb scratch set_buffers]. rewrite copy_out_in by (unfold len in *; lia). rewrite bind_ret.
    rewrite (Z.mul_comm 512 (lba mod 8)), (Z.mul_comm 512 tk) in Ep at 1. rewrite Ep.
    rewrite copy_in_in by (unfold len in *; lia). rewrite bind_ret.
    destruct (IH (set_buffers (hash_table z) (packed z) p z) (lba + tk) (count - tk) (at_ + tk * 512)
      (splice dest at_ (slice disk (512 * lba) (512 * tk)))) as (z' & E & Hz'); try (done || lia).
    + by apply scratch_ok.
    + rewrite len_splice by lia. lia.
    + exists z'. split; [exact E|]. by eapply touches_scratch.
Qed.

Lemma io_ok z disk a b c d : zram_ok z disk -> zram_ok (set_io a b c d z) disk.
Proof. intros []. by split. Qed.

(** The size of the disk and the limit stay, and the limit is kept. *)
Definition within_limit (z z' : zram) : Prop :=
  page_count z' = page_count z /\ memory_limit z' = memory_limit z /\
  (memory_limit z <> 0 -> memory_used z' <= Z.max (memory_used z) (memory_limit z)).

Lemma within_limit_trans z1 z2 z3 : within_limit z1 z2 -> within_limit z2 z3 -> within_limit z1 z3.
Proof.
  intros (E1 & E2 & H1) (E3 & E4 & H2). split; [congruence|]. split; [congruence|]. intros Hl.
  specialize (H1 Hl). rewrite E2 in H2. specialize (H2 Hl). lia.
Qed.

(** Why a write may stop. *)
Definition refusal (z : zram) : Prop := memory_limit z <> 0 \/ exists n used, mallocs n used = 0.

(** The first [n] sectors of a write of [count] have been written. *)
Definition written (z : zram) (disk : list Z) (lba count at_ : Z) (source : list Z) (r : Z * zram) : Prop :=
  exists n, 0 <= n <= count /\ zram_ok r.2 (splice disk (512 * lba) (slice source at_ (512 * n))) /\
    within_limit z r.2 /\ (r.1 = 0 /\ n = count \/ r.1 = -1 /\ n < count /\ refusal z).

Lemma written_none z disk lba count at_ source : zram_ok z disk -> 0 <= lba -> 512 * lba <= len disk -> count = 0 ->
  written z disk lba count at_ source (0, z).
Proof.
  intros Hok Hl Hd ->. exists 0. split; [lia|]. change (slice source at_ (512 * 0)) with (@nil Z).
  rewrite splice_nil by lia. split; [done|]. split; [|by left]. split; [done|]. split; [done|]. intros _. apply Z.le_max_l.
Qed.

(** One page stored, then the rest. *)
Lemma written_next z z1 disk lba count at_ source tk r :
  0 <= lba -> 0 < tk <= count -> 512 * (lba + count) <= len disk -> 0 <= at_ -> at_ + 512 * count <= len source ->
  within_limit z z1 ->
  written z1 (splice disk (512 * lba) (slice source at_ (512 * tk))) (lba + tk) (count - tk) (at_ + tk * 512) source r ->
  written z disk lba count at_ source r.
Proof.
  intros Hl Ht Hd Ha Hs Hz (n & Hn & Hok & Hw & Hr). exists (tk + n).
  assert (len (slice source at_ (512 * tk)) = 512 * tk) as E1 by (apply length_slice; unfold len in *; lia).
  assert (len (slice source (at_ + tk * 512) (512 * n)) = 512 * n) as E2 by (apply length_slice; unfold len in *; lia).
  split; [lia|]. replace (512 * (tk + n)) with (512 * tk + 512 * n) by lia. rewrite slice_add by lia.
  rewrite <- splice_splice by (replace (at_ + 512 * tk) with (at_ + tk * 512) by lia; lia). rewrite E1.
  replace (512 * lba + 512 * tk) with (512 * (lba + tk)) by lia. replace (at_ + 512 * tk) with (at_ + tk * 512) by lia.
  split; [done|]. split; [by eapply within_limit_trans|]. destruct Hz as (_ & El & _).
  destruct Hr as [[-> ->]|(-> & ? & Href)]; [left; lia|right]. unfold refusal in *. rewrite El in Href. repeat split; (done || lia).
Qed.

Lemma store_step fuel z disk t lba count at_ source data tk :
  (forall z lba count at_, zram_ok z (splice disk (512 * (lba - tk)) (slice source (at_ - tk * 512) (512 * tk))) ->
     page_count z = len t -> 0 <= lba -> 0 <= count <= Z.of_nat fuel -> count < 2 ^ 32 -> lba + count <= 8 * len t ->
     0 <= at_ -> at_ + 512 * count <= len source ->
     returns (zram_write_loop mallocs fuel lba count at_ source z)
       (written z (splice disk (512 * (lba - tk)) (slice source (at_ - tk * 512) (512 * tk))) lba count at_ source)) ->
  zram_ok z disk -> slots z = Some t -> 0 <= lba -> 0 < tk <= count -> count <= Z.of_nat (S fuel) -> count < 2 ^ 32 ->
  lba + count <= 8 * len t -> 0 <= at_ -> at_ + 512 * count <= len source -> len data = ZRAM_PAGE -> Forall byte data ->
  0 <= lba / 8 < len t -> splice disk (ZRAM_PAGE * (lba / 8)) data = splice disk (512 * lba) (slice source at_ (512 * tk)) ->
  returns ('(status, z) ← slot_store mallocs (lba / 8) data z;
           if negb (status =? 0) then Ret (-1, failed_write z)
           else zram_write_loop mallocs fuel (lba + tk) (count - tk) (at_ + tk * 512) source z)
    (written z disk lba count at_ source).
Proof using mallocs_fresh.
  intros IH Hok Es Hl Ht Hf H32 Hr Ha Hs Hld Hbd Hp Ej. destruct (zram_table z disk t Hok Es) as (Hso & Hpc & _).
  pose proof (so_len _ _ _ Hso) as Hsl. unfold ZRAM_PAGE in Hsl.
  eapply returns_bind; [by eapply slot_store_ok|]. intros [status z1] (Hok1 & E1 & E2 & _ & Hu & Hst). cbn beta iota.
  assert (within_limit z z1) as Hw by done. destruct (Z.eqb_spec status 0) as [->|Hne]; cbn [negb].
  - rewrite Ej in Hok1. eapply returns_mono; [apply (IH z1 (lba + tk) (count - tk) (at_ + tk * 512)); try lia|].
    + replace (lba + tk - tk) with lba by lia. by replace (at_ + tk * 512 - tk * 512) with at_ by lia.
    + intros r. replace (lba + tk - tk) with lba by lia. replace (at_ + tk * 512 - tk * 512) with at_ by lia.
      apply written_next; (done || lia).
  - cbn. exists 0. split; [lia|]. change (slice source at_ (512 * 0)) with (@nil Z).
    rewrite splice_nil by lia. split; [by apply io_ok|]. split; [done|]. right. split; [done|]. split; [lia|].
    destruct Hst as [?|[[_ ?]|[_ ?]]]; [done|by left|right; eauto].
Qed.

Lemma zram_slots z disk : zram_ok z disk -> 0 < page_count z -> exists t, slots z = Some t /\ page_count z = len t.
Proof.
  intros Hok Hp. destruct (proj2 (z_some _ _ Hok) Hp) as [t Et]. exists t. split; [done|].
  by destruct (zram_table z disk t Hok Et) as (_ & ? & _).
Qed.

Lemma zram_write_loop_ok fuel z disk lba count at_ source :
  Forall byte source -> zram_ok z disk -> 0 <= lba -> 0 <= count <= Z.of_nat fuel -> count < 2 ^ 32 ->
  lba + count <= 8 * page_count z -> 0 <= at_ -> at_ + 512 * count <= len source ->
  returns (zram_write_loop mallocs fuel lba count at_ source z) (written z disk lba count at_ source).
Proof using mallocs_fresh.
  intros Hb. revert z disk lba count at_. induction fuel as [|fuel IH]; intros z disk lba count at_ Hok Hlba Hf H32 Hr Ha Hd.
  all: pose proof (so_len _ _ _ (z_slots _ _ Hok)) as Hsl; rewrite <- (z_count _ _ Hok) in Hsl; unfold ZRAM_PAGE in Hsl.
  all: cbn [zram_write_loop]; destruct (Z.eqb_spec count 0) as [->|Hne]; [by apply written_none; (done || lia)|].
  { lia. }
  destruct (zram_slots z disk Hok ltac:(lia)) as (t & Es & Hpc). pose proof (z_pages _ _ Hok) as H42.
  unfold ZRAM_SECTORS, BLOCK_SECTOR_SIZE.
  destruct (first_page lba count (len t)) as (Hp & Hw & Elba & Htk & Hin); [lia..|]. fold (first_part lba count).
  set (tk := first_part lba count) in *.
  destruct (page_slot z disk t (lba / 8) Hok Es Hp) as (s & Hs & Hst & Hlp & Hend). unfold ZRAM_PAGE in *.
  set (p := slice disk (4096 * (lba / 8)) 4096) in *.
  assert (len (slice source at_ (512 * tk)) = 512 * tk) as Els by (apply length_slice; unfold len in *; lia).
  rewrite (u64_small (lba + tk)), (u32_small (count - tk)) by lia.
  assert (forall z' data, zram_ok z' disk -> slots z' = Some t -> len data = 4096 -> Forall byte data ->
    splice disk (4096 * (lba / 8)) data = splice disk (512 * lba) (slice source at_ (512 * tk)) ->
    returns ('(status, z) ← slot_store mallocs (lba / 8) data z';
           if negb (status =? 0) then Ret (-1, failed_write z)
           else zram_write_loop mallocs fuel (lba + tk) (count - tk) (at_ + tk * 512) source z)
      (written z' disk lba count at_ source)) as Hstep.
  { intros z' data Hok' Es' Hld Hbd Ej. eapply (store_step fuel z' disk t lba count at_ source data tk); try (done || lia).
    intros z2 lba2 count2 at2 Hok2 Hpc2 ? ? ? ? ? ?. apply IH; try (done || lia). }
  destruct (negb (lba mod 8 =? 0) || negb (tk =? 8)) eqn:Epart.
  - rewrite (slot_load_ok z t (lba / 8) s p) by (done || lia || apply (z_scratch _ _ Hok)). rewrite bind_ret.
    change (0 =? 0) with true. cbn [negb scratch set_buffers hash_table packed].
    rewrite copy_out_in by (unfold len in *; lia). rewrite bind_ret, (Z.mul_comm tk 512).
    rewrite copy_in_in by (unfold len in *; lia). rewrite bind_ret, (Z.mul_comm 512 tk).
    assert (len (splice p (lba mod 8 * 512) (slice source at_ (tk * 512))) = 4096) as Hlq
      by (rewrite len_splice; rewrite ?(Z.mul_comm tk 512); lia).
    refine (Hstep (set_buffers _ _ (splice p (lba mod 8 * 512) (slice source at_ (tk * 512))) (set_buffers _ _ p z)) _ _ _ _ _ _); try done.
    + apply (scratch_ok (set_buffers (hash_table z) (packed z) p z)); [|done]. by apply scratch_ok.
    + apply splice_bytes; apply slice_bytes; [|done]. by apply (so_bytes _ _ _ (z_slots _ _ Hok)).
    + unfold p. rewrite (Z.mul_comm tk 512), splice_inner by lia. f_equal. lia.
  - apply orb_false_iff in Epart as [E0%negb_false_iff%Z.eqb_eq E8%negb_false_iff%Z.eqb_eq].
    rewrite copy_out_in by (unfold len in *; lia). rewrite bind_ret.
    apply Hstep; try done; [apply length_slice; unfold len in *; lia|by apply slice_bytes|]. f_equal; [lia|f_equal; lia].
Qed.

Lemma range_valid_spec z disk lba count : zram_ok z disk -> 0 <= lba < 2 ^ 64 -> 0 <= count < 2 ^ 32 ->
  range_valid z lba count = true <-> 0 < count /\ lba + count <= 8 * page_count z.
Proof.
  intros Hok Hl Hc. pose proof (z_pages _ _ Hok) as Hp. pose proof (z_some _ _ Hok) as Hsome. unfold range_valid, ZRAM_SECTORS.
  destruct (slots z) as [t|] eqn:Es.
  - destruct (zram_table z disk t Hok Es) as (_ & Epc & _). pose proof (len_nonneg t).
    rewrite (u64_small (page_count z * 8)) by lia. destruct (Z.ltb_spec lba (page_count z * 8)).
    + rewrite u64_small by lia. rewrite !andb_true_iff, negb_true_iff, Z.eqb_neq, Z.leb_le. lia.
    + rewrite andb_false_r. cbn. split; [done|lia].
  - split; [done|]. intros [? ?]. destruct (proj2 Hsome) as [x Hx]; [lia|done].
Qed.

Lemma zram_read_ok z disk lba count dest :
  zram_ok z disk -> 0 <= lba < 2 ^ 64 -> 0 <= count < 2 ^ 32 -> 512 * count <= len dest ->
  exists status data z', zram_read lba count dest z = Ret (status, data, z') /\ zram_ok z' disk /\ page_count z' = page_count z /\
    if decide (0 < count /\ lba + count <= 8 * page_count z)
    then status = 0 /\ data = splice dest 0 (slice disk (512 * lba) (512 * count))
    else status = -1 /\ data = dest.
Proof.
  intros Hok Hl Hc Hd. pose proof (range_valid_spec z disk lba count Hok Hl Hc) as Hr. unfold zram_read. case_decide as Hin.
  - rewrite (proj2 Hr) by done. cbn [negb]. destruct (zram_slots z disk Hok ltac:(lia)) as (t & Es & Hpc).
    destruct (zram_read_loop_ok (Z.to_nat count) z disk t lba count 0 dest) as (z' & -> & page & -> & Hp); try (done || lia).
    eexists _, _, _. split; [done|]. split; [by apply scratch_ok|]. done.
  - destruct (range_valid z lba count); [by destruct Hin; apply Hr|]. cbn [negb].
    eexists _, _, _. split; [done|]. split; [by apply io_ok|]. done.
Qed.

Lemma zram_write_ok z disk lba count source :
  zram_ok z disk -> 0 <= lba < 2 ^ 64 -> 0 <= count < 2 ^ 32 -> Forall byte source -> 512 * count <= len source ->
  returns (zram_write mallocs lba count source z)
    (fun r => if decide (0 < count /\ lba + count <= 8 * page_count z) then written z disk lba count 0 source r
              else r.1 = -1 /\ zram_ok r.2 disk /\ within_limit z r.2).
Proof using mallocs_fresh.
  intros Hok Hl Hc Hb Hd. pose proof (range_valid_spec z disk lba count Hok Hl Hc) as Hr. unfold zram_write. case_decide as Hin.
  - rewrite (proj2 Hr) by done. cbn [negb]. apply zram_write_loop_ok; (done || lia).
  - destruct (range_valid z lba count); [by destruct Hin; apply Hr|]. cbn. split; [done|]. split; [by apply io_ok|].
    split; [done|]. split; [done|]. intros _. apply Z.le_max_l.
Qed.

(** ** Discarding *)

(** The whole pages of a request, from [first_whole] up to [last_whole]. *)
Definition first_whole (lba : Z) : Z := (lba + 7) / 8.
Definition last_whole (lba count : Z) : Z := (lba + count) / 8.

Definition zeroed (disk : list Z) (first n : Z) : list Z := splice disk (4096 * first) (replicate (Z.to_nat (4096 * n)) 0).

Lemma zeroed_next disk first n : 0 <= first -> 0 <= n -> 4096 * (first + n + 1) <= len disk ->
  splice (zeroed disk first n) (ZRAM_PAGE * (first + n)) zeros = zeroed disk first (n + 1).
Proof.
  intros Hf Hn Hd. unfold zeroed, zeros, ZRAM_PAGE.
  assert (len (replicate (Z.to_nat (4096 * n)) 0) = 4096 * n) as E1 by (unfold len; rewrite length_replicate; lia).
  assert (len (replicate (Z.to_nat 4096) 0) = 4096) as E2 by (unfold len; rewrite length_replicate; lia).
  replace (4096 * (first + n)) with (4096 * first + len (replicate (Z.to_nat (4096 * n)) 0)) by lia.
  rewrite splice_splice by lia. rewrite <- replicate_add. do 2 f_equal. lia.
Qed.

Lemma len_zeroed disk first n : 0 <= first -> 0 <= n -> 4096 * (first + n) <= len disk -> len (zeroed disk first n) = len disk.
Proof. intros. apply len_splice; [lia|]. unfold len in *. rewrite length_replicate. lia. Qed.

Definition cleared_to (z : zram) (disk : list Z) (first i : Z) (z' : zram) : Prop :=
  zram_ok z' (zeroed disk first (i - first)) /\ within_limit z z'.

(** The body of the loop, for one page. *)
Lemma clear_one z disk first i z1 : 0 <= first <= i -> i < page_count z -> cleared_to z disk first i z1 ->
  4096 * page_count z = len disk ->
  exists z2, slot_clear i z1 = Ret z2 /\ cleared_to z disk first (i + 1) z2 /\
    forall t, slots z1 = Some t -> slots z2 = Some (<[Z.to_nat i := empty_slot]> t).
Proof.
  intros Hf Hi [Hok (E1 & E2 & Hu)] Hd. destruct (zram_slots z1 _ Hok ltac:(lia)) as (t & Es & Hpc).
  destruct (slot_clear_ok z1 _ t i Hok Es ltac:(lia)) as (m & -> & Hok2 & Hu2). eexists. split; [done|]. split.
  - split.
    + replace (ZRAM_PAGE * i) with (ZRAM_PAGE * (first + (i - first))) in Hok2 by (unfold ZRAM_PAGE; lia).
      rewrite zeroed_next in Hok2 by lia. by replace (i - first + 1) with (i + 1 - first) in Hok2 by lia.
    + split; [done|]. split; [done|]. intros Hl. specialize (Hu Hl). cbn [memory_used recount set_slots set_blobs set_pages]. lia.
  - intros t' E. rewrite Es in E. by inv E.
Qed.

Lemma cleared_start z disk first : zram_ok z disk -> 0 <= first -> 4096 * first <= len disk -> cleared_to z disk first first z.
Proof.
  intros Hok Hf Hd. split; [|split; [done|split; [done|intros _; apply Z.le_max_l]]].
  unfold zeroed. rewrite Z.sub_diag. cbn [Z.to_nat replicate Z.mul]. change (Z.to_nat (4096 * 0)) with 0%nat. cbn [replicate].
  rewrite splice_nil by lia. done.
Qed.

Lemma zram_discard_ok z disk lba count :
  zram_ok z disk -> 0 <= lba < 2 ^ 64 -> 0 <= count < 2 ^ 32 ->
  returns (zram_discard lba count z)
    (fun r => within_limit z r.2 /\
       if decide (0 < count /\ lba + count <= 8 * page_count z)
       then r.1 = 0 /\ zram_ok r.2 (zeroed disk (first_whole lba) (Z.max 0 (last_whole lba count - first_whole lba)))
       else r.1 = -1 /\ zram_ok r.2 disk).
Proof.
  intros Hok Hl Hc. pose proof (range_valid_spec z disk lba count Hok Hl Hc) as Hr. unfold zram_discard. case_decide as Hin.
  - rewrite (proj2 Hr) by done. cbn [negb]. pose proof (z_pages _ _ Hok). unfold ZRAM_SECTORS.
    replace (lba + 8 - 1) with (lba + 7) by lia. rewrite (u64_small (lba + 7)), (u64_small (lba + count)) by lia.
    fold (first_whole lba) (last_whole lba count).
    pose proof (so_len _ _ _ (z_slots _ _ Hok)) as Hsl. rewrite <- (z_count _ _ Hok) in Hsl. unfold ZRAM_PAGE in Hsl.
    assert (0 <= first_whole lba <= page_count z /\ last_whole lba count <= page_count z) as Hfl by (unfold first_whole, last_whole; dlia).
    pose proof (cleared_start z disk (first_whole lba) Hok ltac:(lia) ltac:(lia)) as Hstart.
    destruct (Z.le_gt_cases (first_whole lba) (last_whole lba count)) as [Hle|Hgt].
    + eapply returns_bind; [apply (for_range_rule (cleared_to z disk (first_whole lba))); [done|done|]|].
      * intros i z1 Hi Hz1. pose proof Hz1 as [Hok1 (E1 & _)].
        destruct (zram_slots z1 _ Hok1 ltac:(lia)) as (t & Es & Hpc).
        destruct (page_slot z1 _ t i Hok1 Es ltac:(lia)) as (s & Hs & _). rewrite (slot_at_eq z1 t i s) by (done || lia).
        rewrite bind_ret. destruct (clear_one z disk (first_whole lba) i
          (if decide (s_kind s = ZRAM_EMPTY) then z1 else set_io (failed_reads z1) (failed_writes z1) (invalid_io z1) (u64 (freed_notices z1 + 1)) z1))
          as (z2 & -> & Hz2 & _); try (done || lia). destruct Hz1 as [? ?]. case_decide; split; try done. by apply io_ok.
      * intros z1 [Hok1 Hw]. cbn. rewrite Z.max_r by lia. done.
    + unfold for_range. replace (Z.to_nat _) with 0%nat by (rewrite Z.div_1_r; lia). cbn [for_steps]. rewrite bind_ret. cbn.
      destruct Hstart as [Hok0 Hw0]. rewrite Z.sub_diag in Hok0. rewrite Z.max_l by lia. done.
  - destruct (range_valid z lba count); [by destruct Hin; apply Hr|]. cbn. split; [|done].
    split; [done|]. split; [done|]. intros _. apply Z.le_max_l.
Qed.

(** ** Attributes *)

Lemma sum_by_empty f t : f empty_slot = 0 -> (forall s, s ∈ t -> s = empty_slot) -> sum_by f t = 0.
Proof.
  intros Hf. induction t as [|s t IH]; intros H; [done|]. cbn. rewrite IH by (intros; apply H; by right).
  rewrite (H s) by left. lia.
Qed.

(** All slots empty: no memory is used. *)
Lemma all_empty z disk t : zram_ok z disk -> slots z = Some t -> (forall s, s ∈ t -> s = empty_slot) ->
  stored_pages z = 0 /\ same_pages z = 0 /\ huge_pages z = 0 /\ compressed_bytes z = 0 /\ memory_used z = 0 /\ blobs z = ∅.
Proof.
  intros Hok Es He. destruct (zram_counted z disk t Hok Es) as [-> -> -> -> ->].
  destruct (zram_table z disk t Hok Es) as (Hso & _). rewrite !sum_by_empty by done. repeat split.
  apply map_empty. intros a. destruct (blobs z !! a) as [b|] eqn:Ea; [|done].
  destruct (so_owned _ _ _ Hso a) as (i & s & Hi & Hh & _); [by rewrite Ea|].
  rewrite (He s) in Hh by (by eapply list_elem_of_lookup_2). done.
Qed.

(** A disk with no slots. *)
Lemma no_slots_ok z disk told maximum since : zram_ok z disk -> stored_pages z = 0 -> same_pages z = 0 -> huge_pages z = 0 ->
  compressed_bytes z = 0 -> memory_used z = 0 -> blobs z = ∅ -> 0 <= maximum ->
  zram_ok (set_limits maximum (memory_limit z) since (set_geometry 0 0 told (set_slots None z))) [].
Proof.
  intros [] E1 E2 E3 E4 E5 E6 Hm. split; cbn; try (done || lia).
  rewrite E6. split; try done. intros a [x Hx]. by rewrite lookup_empty in Hx.
Qed.

Lemma zram_release_ok z disk : zram_ok z disk -> returns (release_all z) (fun z' => zram_ok z' [] /\ memory_used z' = 0).
Proof.
  intros Hok. unfold release_all.
  pose proof (so_len _ _ _ (z_slots _ _ Hok)) as Hsl. rewrite <- (z_count _ _ Hok) in Hsl. unfold ZRAM_PAGE in Hsl.
  assert (forall z1, zram_ok z1 disk \/ zram_ok z1 (zeroed disk 0 (page_count z - 0)) -> stored_pages z1 = 0 -> same_pages z1 = 0 ->
    huge_pages z1 = 0 -> compressed_bytes z1 = 0 -> memory_used z1 = 0 -> blobs z1 = ∅ ->
    returns (Ret (set_limits (memory_used z1) (memory_limit z1) 0 (set_geometry 0 0 (published z1) (set_slots None z1))))
      (fun z' => zram_ok z' [] /\ memory_used z' = 0)) as Hend.
  { intros z1 Hok1 E1 E2 E3 E4 E5 E6. cbn [returns]. split; [|done].
    destruct Hok1 as [Hok1|Hok1]; (eapply no_slots_ok; [exact Hok1|..]; (done || lia)). }
  destruct (slots z) as [t|] eqn:Es.
  - destruct (zram_table z disk t Hok Es) as (_ & Hpc & _). pose proof (len_nonneg t).
    eapply returns_bind; [apply (for_range_rule (fun i z1 => cleared_to z disk 0 i z1 /\
      exists t1, slots z1 = Some t1 /\ forall j s, 0 <= j < i -> t1 !! Z.to_nat j = Some s -> s = empty_slot)); [lia| |]|].
    + split; [apply cleared_start; (done || lia)|]. exists t. split; [done|]. lia.
    + intros i z1 Hi [Hz1 (t1 & Es1 & He)].
      destruct (clear_one z disk 0 i z1) as (z2 & -> & Hz2 & Es2); try (done || lia). split; [done|].
      exists (<[Z.to_nat i := empty_slot]> t1). split; [by apply Es2|]. intros j s Hj Hs.
      destruct (decide (j = i)) as [->|]; [|rewrite list_lookup_insert_ne in Hs by lia; apply (He j); [lia|done]].
      apply list_lookup_insert_Some in Hs as [(_ & <- & _)|[? _]]; done.
    + intros z1 [[Hok1 (E1 & _)] (t1 & Es1 & He)]. destruct (zram_table z1 _ t1 Hok1 Es1) as (_ & Hpc1 & _).
      destruct (all_empty z1 _ t1 Hok1 Es1) as (? & ? & ? & ? & ? & ?).
      * intros s (j & Hj)%list_elem_of_lookup. apply (He (Z.of_nat j)); [|by rewrite Nat2Z.id].
        apply lookup_lt_Some in Hj. unfold len in *. lia.
      * apply (Hend z1); try done. by right.
  - rewrite bind_ret. pose proof Hok as [Zs]. unfold the_slots in *. rewrite Es in *. cbn in *. apply (Hend z); try done; [by left|].
    apply map_empty. intros a. destruct (blobs z !! a) as [b|] eqn:Ea; [|done].
    destruct (so_owned _ _ _ Zs a) as (i & s & Hi & _); [by rewrite Ea|]. done.
Qed.

Context (usable device_index : Z) (in_use : nat -> bool) (usable_bound : 0 <= usable <= 2 ^ 40).

Lemma limits_ok z disk maximum limit since : zram_ok z disk -> memory_used z <= maximum ->
  zram_ok (set_limits maximum limit since z) disk.
Proof. intros [] ?. by split. Qed.

Lemma publish_size_ok z disk : zram_ok z disk -> zram_ok (publish_size z) disk.
Proof. intros []. by split. Qed.

(** What a write to an attribute does to the bytes of the disk. *)
Definition attribute_effect (a : zram_attribute) (input disk disk' : list Z) (status : Z) : Prop :=
  match a with
  | ATTR_DISKSIZE =>
      if status <? 0 then disk' = disk
      else exists value, parse_size input = Some value /\ disk = [] /\
        disk' = replicate (Z.to_nat (ZRAM_PAGE * (value / ZRAM_PAGE))) 0 /\ 0 < value / ZRAM_PAGE <= usable * 4
  | ATTR_RESET => if status <? 0 then disk' = disk else disk' = []
  | _ => disk' = disk
  end.

Lemma fresh_slots_ok n : slots_ok (replicate n empty_slot) ∅ (replicate (Z.to_nat ZRAM_PAGE * n) 0).
Proof.
  split.
  - unfold len, ZRAM_PAGE. rewrite !length_replicate. lia.
  - by apply Forall_replicate.
  - intros i s [-> Hi]%lookup_replicate. cbn. unfold page_of, slice, ZRAM_PAGE. rewrite drop_replicate, take_replicate.
    unfold zeros, ZRAM_PAGE. f_equal. lia.
  - intros i j s s' [-> _]%lookup_replicate _ Hh. done.
  - intros a [x Hx]. by rewrite lookup_empty in Hx.
Qed.

Lemma no_slots z disk : zram_ok z disk -> slots z = None ->
  disk = [] /\ blobs z = ∅ /\ stored_pages z = 0 /\ same_pages z = 0 /\ huge_pages z = 0 /\ compressed_bytes z = 0 /\ memory_used z = 0.
Proof.
  intros [Hso] Es. unfold the_slots in *. rewrite Es in *. cbn in *. split.
  - pose proof (so_len _ _ _ Hso) as Hl. destruct disk; [done|]. unfold len in Hl. cbn in Hl. lia.
  - split; [|done]. apply map_empty. intros a. destruct (blobs z !! a) as [b|] eqn:Ea; [|done].
    destruct (so_owned _ _ _ Hso a) as (i & s & Hi & _); [by rewrite Ea|]. done.
Qed.

Lemma write_disksize_ok z disk value size input :
  zram_ok z disk -> 0 <= value < 2 ^ 64 -> 0 <= size -> parse_size input = Some value ->
  exists disk', zram_ok (write_disksize mallocs usable value size z).2 disk' /\
    attribute_effect ATTR_DISKSIZE input disk disk' (write_disksize mallocs usable value size z).1.
Proof using usable_bound.
  intros Hok Hv Hs Ep. unfold write_disksize, attribute_effect, ZRAM_PAGE.
  destruct (Z.eqb_spec (value / 4096) 0); [by exists disk|]. rewrite u64_small by lia.
  destruct (Z.ltb_spec (usable * 4) (value / 4096)); [by exists disk|].
  destruct (_ =? 0); [exists disk; split; [by apply questions_ok|done]|].
  change (slots (asked_once z)) with (slots z). destruct (slots z) as [t|] eqn:Es.
  { exists disk. split; [by apply questions_ok|done]. }
  destruct (no_slots z disk Hok Es) as (-> & E1 & E2 & E3 & E4 & E5 & E6).
  assert (0 < value / 4096) as Hpos by dlia. cbn [fst snd]. rewrite (proj2 (Z.ltb_ge size 0)) by lia.
  exists (replicate (Z.to_nat (4096 * (value / 4096))) 0). split; [|by exists value].
  pose proof (fresh_slots_ok (Z.to_nat (value / 4096))) as Hf.
  replace (Z.to_nat ZRAM_PAGE * Z.to_nat (value / 4096))%nat with (Z.to_nat (4096 * (value / 4096))) in Hf by (unfold ZRAM_PAGE; lia).
  assert (forall f, f empty_slot = 0 -> sum_by f (replicate (Z.to_nat (value / 4096)) empty_slot) = 0) as Hsum
    by (intros f Ef; apply sum_by_empty; [done|]; intros s Hin; by apply elem_of_replicate in Hin as [-> _]).
  destruct Hok. split; unfold the_slots; cbn; rewrite ?E1, ?E2, ?E3, ?E4, ?E5, ?E6, ?Hsum; try done.
  - unfold len. rewrite length_replicate. lia.
  - lia.
  - unfold ZRAM_PAGE. apply u64_small. lia.
  - lia.
Qed.

Lemma parse_digits_range text v r rest : parse_digits text v = Some (r, rest) -> 0 <= v < 2 ^ 64 -> 0 <= r < 2 ^ 64.
Proof.
  revert v. induction text as [|c text IH]; intros v E Hv; cbn in E; [by inv E|].
  destruct (is_digit c); [|by inv E]. destruct (_ <? v); [done|]. eapply IH; [exact E|]. apply u64_bound.
Qed.

Lemma parse_size_range input v : parse_size input = Some v -> 0 <= v < 2 ^ 64.
Proof.
  unfold parse_size. intros E. repeat case_match; try done. all: injection E as <-; apply u64_bound.
Qed.

(** Whatever is written to an attribute, the disk stays in order. *)
Lemma attribute_write_ok a input z disk :
  zram_ok z disk ->
  returns (attribute_write mallocs usable device_index in_use a input z)
    (fun r => exists disk', zram_ok r.2 disk' /\ attribute_effect a input disk disk' r.1).
Proof using usable_bound.
  intros Hok. pose proof (len_nonneg input) as Hl. pose proof (z_max _ _ Hok) as Hm. unfold attribute_write, device_busy.
  destruct a; cbn [returns]; try (exists disk; split; done).
  - destruct (parse_size input) as [v|] eqn:Ep; [|by exists disk]. cbn [returns].
    apply write_disksize_ok; try done. by eapply parse_size_range.
  - destruct (parse_size input) as [v|] eqn:Ep; [|by exists disk]. destruct (v =? 0); [by exists disk|].
    assert (forall z1, zram_ok z1 disk -> returns (z ← release_all z1; Ret (len input, publish_size z))
      (fun r => exists disk', zram_ok r.2 disk' /\ attribute_effect ATTR_RESET input disk disk' r.1)) as Hrel.
    { intros z1 Hok1. eapply returns_bind; [by eapply zram_release_ok|]. intros z2 [Hok2 _]. exists [].
      split; [by apply publish_size_ok|]. cbn. by rewrite (proj2 (Z.ltb_ge (len input) 0)). }
    destruct (device_index <? 0); [by apply Hrel|]. destruct (in_use (questions z)); [|by apply Hrel, questions_ok].
    exists disk. split; [by apply questions_ok|done].
  - case_decide; exists disk; done.
  - destruct (parse_size input); exists disk; split; try done. by apply limits_ok.
  - destruct (parse_size input) as [v|]; [|by exists disk]. destruct (negb (v =? 0)); exists disk; split; try done. by apply limits_ok.
Qed.

(** ** Any sequence of operations *)

Inductive zram_op :=
  | ZRead (lba count : Z) (dest : list Z)
  | ZWrite (lba count : Z) (source : list Z)
  | ZDiscard (lba count : Z)
  | ZFlush
  | ZAttribute (a : zram_attribute) (input : list Z).

(** The types of the arguments, and buffers as long as the request. *)
Definition zram_args (op : zram_op) : Prop :=
  match op with
  | ZRead lba count dest => 0 <= lba < 2 ^ 64 /\ 0 <= count < 2 ^ 32 /\ 512 * count <= len dest
  | ZWrite lba count source => 0 <= lba < 2 ^ 64 /\ 0 <= count < 2 ^ 32 /\ 512 * count <= len source /\ Forall byte source
  | ZDiscard lba count => 0 <= lba < 2 ^ 64 /\ 0 <= count < 2 ^ 32
  | _ => True
  end.

(** The status, the bytes the caller has then, and the new state. *)
Definition run_zram (op : zram_op) (z : zram) : res (Z * list Z * zram) :=
  match op with
  | ZRead lba count dest => zram_read lba count dest z
  | ZWrite lba count source => '(status, z) ← zram_write mallocs lba count source z; Ret (status, [], z)
  | ZDiscard lba count => '(status, z) ← zram_discard lba count z; Ret (status, [], z)
  | ZFlush => let '(status, z) := zram_flush z in Ret (status, [], z)
  | ZAttribute a input => '(status, z) ← attribute_write mallocs usable device_index in_use a input z; Ret (status, [], z)
  end.

(** An array of bytes under the same operations. *)
Definition in_disk (disk : list Z) (lba count : Z) : Prop := 0 < count /\ 512 * (lba + count) <= len disk.

Definition disk_step (op : zram_op) (disk : list Z) (status : Z) (data disk' : list Z) : Prop :=
  match op with
  | ZRead lba count dest =>
      disk' = disk /\
      if decide (in_disk disk lba count) then status = 0 /\ data = splice dest 0 (slice disk (512 * lba) (512 * count))
      else status = -1 /\ data = dest
  | ZWrite lba count source =>
      if decide (in_disk disk lba count) then
        exists n, disk' = splice disk (512 * lba) (slice source 0 (512 * n)) /\
          (status = 0 /\ n = count \/ status = -1 /\ 0 <= n < count)
      else status = -1 /\ disk' = disk
  | ZDiscard lba count =>
      if decide (in_disk disk lba count) then
        status = 0 /\ disk' = zeroed disk (first_whole lba) (Z.max 0 (last_whole lba count - first_whole lba))
      else status = -1 /\ disk' = disk
  | ZFlush => status = 0 /\ disk' = disk
  | ZAttribute a input => attribute_effect a input disk disk' status
  end.

Lemma in_disk_pages z disk lba count : zram_ok z disk ->
  in_disk disk lba count <-> 0 < count /\ lba + count <= 8 * page_count z.
Proof.
  intros Hok. pose proof (so_len _ _ _ (z_slots _ _ Hok)) as Hl. rewrite <- (z_count _ _ Hok) in Hl.
  unfold in_disk, ZRAM_PAGE in *. lia.
Qed.

Lemma decide_iff {A} (P Q : Prop) `{Decision P, Decision Q} (x y : A) : (P <-> Q) -> (if decide P then x else y) = if decide Q then x else y.
Proof. intros E. repeat case_decide; tauto. Qed.

Lemma run_zram_ok op z disk : zram_args op -> zram_ok z disk ->
  returns (run_zram op z) (fun '(status, data, z') => exists disk', disk_step op disk status data disk' /\ zram_ok z' disk').
Proof using mallocs_fresh usable_bound.
  intros Ha Hok. pose proof (fun lba count => in_disk_pages z disk lba count Hok) as Hin. destruct op; cbn [run_zram disk_step zram_args] in *.
  - destruct Ha as (? & ? & ?). destruct (zram_read_ok z disk lba count dest) as (st & data & z' & -> & Hok' & _ & Hr); try done.
    exists disk. split; [|done]. split; [done|]. by rewrite (decide_iff _ _ _ _ (Hin lba count)).
  - destruct Ha as (? & ? & ? & ?). eapply returns_bind; [by apply (zram_write_ok z disk lba count source)|].
    intros [st z'] Hr. cbn. rewrite <- (decide_iff _ _ _ _ (Hin lba count)) in Hr. case_decide.
    + destruct Hr as (n & Hn & Hok' & _ & Hst). eexists. split; [|exact Hok']. exists n. split; [done|]. cbn in Hst. lia.
    + destruct Hr as (E & Hok' & _). by exists disk.
  - destruct Ha as (? & ?). eapply returns_bind; [by apply (zram_discard_ok z disk lba count)|].
    intros [st z'] [_ Hr]. cbn. rewrite <- (decide_iff _ _ _ _ (Hin lba count)) in Hr. case_decide; destruct Hr as [E Hok']; by eexists.
  - by exists disk.
  - eapply returns_bind; [by apply (attribute_write_ok a input z disk)|]. intros [st z'] (disk' & Hok' & He). by exists disk'.
Qed.

Fixpoint run_all (ops : list zram_op) (z : zram) : res (list (Z * list Z) * zram) :=
  match ops with
  | [] => Ret ([], z)
  | op :: ops =>
      '(status, data, z) ← run_zram op z;
      '(answers, z) ← run_all ops z;
      Ret ((status, data) :: answers, z)
  end.

Fixpoint disk_steps (ops : list zram_op) (disk : list Z) (answers : list (Z * list Z)) (disk' : list Z) : Prop :=
  match ops, answers with
  | [], [] => disk' = disk
  | op :: ops, (status, data) :: answers =>
      exists disk1, disk_step op disk status data disk1 /\ disk_steps ops disk1 answers disk'
  | _, _ => False
  end.

Lemma run_all_ok ops z disk : Forall zram_args ops -> zram_ok z disk ->
  returns (run_all ops z) (fun '(answers, z') => exists disk', disk_steps ops disk answers disk' /\ zram_ok z' disk').
Proof using mallocs_fresh usable_bound.
  intros Ha. revert z disk. induction Ha as [|op ops Hop _ IH]; intros z disk Hok; [by exists disk|]. cbn [run_all].
  eapply returns_bind; [by apply (run_zram_ok op z disk)|]. intros [[st data] z1] (disk1 & Hs & Hok1).
  eapply returns_bind; [by apply (IH z1 disk1)|]. intros [answers z2] (disk2 & Hss & Hok2). exists disk2. split; [|done]. by exists disk1.
Qed.
End requests.

(** The static variables as the kernel starts. *)
Definition zram_boot : zram :=
  Zram None 0 0 0 0 0 0 0 0 0 0 0 0 0 0 0 (replicate (Z.to_nat TABLE_ENTRIES) 0) (replicate (Z.to_nat (bound ZRAM_PAGE)) 0)
    (replicate (Z.to_nat ZRAM_PAGE) 0) ∅ 0.

Lemma zram_boot_ok : zram_ok zram_boot [].
Proof.
  split; try done; [|split; [by intros [? ?]|cbn; lia]].
  split; try done. intros a [x Hx]. cbn in Hx. by rewrite lookup_empty in Hx.
Qed.

(** C6. The compressed disk refines an array of bytes.  From boot on, for every
    sequence of reads, writes, discards, flushes and writes to its attributes,
    and whatever kmalloc answers, every operation returns: a read inside the
    disk always succeeds with its bytes, a write stores all of its sectors or,
    when memory is refused, the first of them and no other byte, a discard
    zeroes exactly the whole pages it covers, disksize makes a disk of zeros
    and reset none.  At the end every slot stands for its page, no blob is
    leaked or shared, and the counters are the sums over the slots. *)
Theorem zram_refines_disk mallocs usable device_index in_use ops :
  (forall n used, mallocs n used ∉ used) -> 0 <= usable <= 2 ^ 40 -> Forall zram_args ops ->
  returns (run_all mallocs usable device_index in_use ops zram_boot)
    (fun '(answers, z) => exists disk, disk_steps usable ops [] answers disk /\ zram_ok z disk).
Proof.
  intros Hm Hu Ha. apply run_all_ok; try done. apply zram_boot_ok.
Qed.

Lemma zram_refines_disk_witness :
  returns (run_all (fun _ used => fresh ({[0]} ∪ used)) 1000 (-1) (fun _ => false)
             [ZAttribute ATTR_DISKSIZE (chars "8k"); ZWrite 1 2 (replicate 1024 7); ZRead 0 4 (replicate 2048 1)] zram_boot)
    (fun '(answers, z) => exists disk,
       disk_steps 1000 [ZAttribute ATTR_DISKSIZE (chars "8k"); ZWrite 1 2 (replicate 1024 7); ZRead 0 4 (replicate 2048 1)]
         [] answers disk /\ zram_ok z disk).
Proof.
  apply (zram_refines_disk (fun _ used => fresh ({[0]} ∪ used)) 1000 (-1) (fun _ => false)).
  - intros _ used H. apply (is_fresh ({[0]} ∪ used)). apply elem_of_union_r. exact H.
  - lia.
  - constructor; [exact I|]. constructor.
    { repeat split; try lia; [unfold len; rewrite length_replicate; lia|]. apply Forall_replicate. unfold byte. lia. }
    constructor; [|constructor]. repeat split; try lia. unfold len. rewrite length_replicate. lia.
Defined.

(** ** Numbers in attributes *)

Lemma put_chars_fits out room l : len out + len l < room -> put_chars out room l = out ++ l.
Proof.
  revert out. induction l as [|c l IH]; intros out H; cbn [put_chars]; [by rewrite app_nil_r|].
  change (c :: l) with ([c] ++ l) in H. rewrite len_app, len_one in H. pose proof (len_nonneg l).
  rewrite (proj2 (Z.ltb_lt _ _)) by lia. rewrite IH by (rewrite len_app, len_one; lia). by rewrite <- app_assoc.
Qed.

Lemma digits_ok fuel v : 0 <= v -> Forall (fun c => is_digit c = true) (digits fuel v) /\ (length (digits fuel v) <= fuel)%nat.
Proof.
  revert v. induction fuel as [|fuel IH]; intros v Hv; cbn [digits]; [split; [constructor|done]|].
  assert (is_digit (48 + v mod 10) = true) as Hd by (unfold is_digit; rewrite andb_true_iff, !Z.leb_le; dlia).
  destruct (v / 10 =? 0); [split; [by repeat constructor|cbn; lia]|].
  destruct (IH (v / 10)) as [IH1 IH2]; [dlia|]. split; [by constructor|cbn; lia].
Qed.

(** The digits of a number are read as the number. *)
Lemma parse_digits_digits fuel v rest :
  0 <= v < 10 ^ Z.of_nat (S fuel) -> v < 18446744073709551610 ->
  parse_digits (rev (digits (S fuel) v) ++ rest) 0 = parse_digits rest v.
Proof.
  revert v rest. induction fuel as [|fuel IH]; intros v rest Hv Hb.
  all: change (digits (S ?n) v) with ((48 + v mod 10) :: (if v / 10 =? 0 then [] else digits n (v / 10))).
  all: assert (is_digit (48 + v mod 10) = true) as Hd by (unfold is_digit; rewrite andb_true_iff, !Z.leb_le; dlia).
  all: destruct (Z.eqb_spec (v / 10) 0) as [E0|Hne]; cbn [rev app].
  1,3: cbn [parse_digits]; rewrite Hd; change (_ <? 0) with false; cbn iota; f_equal; rewrite u64_small; dlia.
  - exfalso. apply Hne. change (10 ^ Z.of_nat 1) with 10 in Hv. dlia.
  - rewrite <- app_assoc, IH.
    + cbn [app parse_digits]. rewrite Hd. change ((UINT64_MAX - 9) / 10) with 1844674407370955160.
      rewrite (proj2 (Z.ltb_ge _ _)) by dlia. f_equal. rewrite u64_small; dlia.
    + rewrite (Nat2Z.inj_succ (S fuel)), Z.pow_succ_r in Hv by lia. dlia.
    + dlia.
Qed.

Lemma skip_none p c l : p c = false -> skip p (c :: l) = c :: l.
Proof. intros E. cbn. by rewrite E. Qed.

(** A number and a newline are parsed as the number. *)
Lemma parse_number v : 0 <= v < 18446744073709551610 -> parse_size (rev (digits 24 v) ++ [10]) = Some v.
Proof.
  intros Hv. destruct (digits_ok 24 v) as [Hd _]; [lia|]. apply Forall_rev in Hd.
  pose proof (parse_digits_digits 23 v [10]) as Hp. change (10 ^ Z.of_nat 24) with 1000000000000000000000000 in Hp.
  specialize (Hp ltac:(lia) ltac:(lia)). destruct (rev (digits 24 v)) as [|c l] eqn:E.
  { apply (f_equal length) in E. rewrite length_rev in E. discriminate E. }
  inversion Hd as [|? ? Hc _]; subst. unfold parse_size. cbn [app] in *.
  assert (48 <= c <= 57) as Hr by (unfold is_digit in Hc; rewrite andb_true_iff, !Z.leb_le in Hc; lia).
  rewrite skip_none by (rewrite orb_false_iff, !Z.eqb_neq; lia). rewrite Hc. cbn [negb]. rewrite Hp. cbn.
  by rewrite Z.shiftl_0_r, u64_small by lia.
Qed.

(** What a numeric attribute reads as is what writing it accepts: the text
    of disksize, mem_limit and mem_used_max, read in one piece, is parsed as
    the number it stands for. *)
Theorem zram_attribute_roundtrip z a v size :
  (a = ATTR_DISKSIZE /\ v = disk_bytes z) \/ (a = ATTR_LIMIT /\ v = memory_limit z) \/ (a = ATTR_USED_MAX /\ v = memory_used_max z) ->
  0 <= v < 18446744073709551610 -> 32 <= size ->
  exists text, attribute_read z a 0 size = (len text, text) /\ parse_size text = Some v.
Proof.
  intros Ha Hv Hs. exists (rev (digits 24 v) ++ [10]). split; [|by apply parse_number].
  destruct (digits_ok 24 v) as [_ Hl]; [lia|].
  assert (len (rev (digits 24 v)) <= 24) as Hlen by (unfold len; rewrite length_rev; lia).
  assert (attribute_line z a = Some (rev (digits 24 v))) as E.
  { assert (put_number [] 256 v = rev (digits 24 v)) as En by (unfold put_number; rewrite put_chars_fits; [done|change (len (@nil Z)) with 0; lia]).
    destruct Ha as [[-> ->]|[[-> ->]|[-> ->]]]; cbn [attribute_line]; by rewrite En. }
  unfold attribute_read. rewrite E. unfold put_text. rewrite put_chars_fits by (rewrite len_one; lia).
  set (text := rev (digits 24 v) ++ [10]).
  assert (0 < len text <= 25) as Ht by (unfold text; rewrite len_app, len_one; pose proof (len_nonneg (rev (digits 24 v))); lia).
  unfold text_reply. rewrite (proj2 (Z.leb_gt (len text) 0)) by lia. rewrite Z.sub_0_r.
  rewrite (proj2 (Z.ltb_lt (len text) size)) by lia. by rewrite slice_all.
Qed.

Lemma zram_attribute_roundtrip_witness :
  exists text, attribute_read zram_boot ATTR_LIMIT 0 64 = (len text, text) /\ parse_size text = Some 0.
Proof. apply (zram_attribute_roundtrip zram_boot ATTR_LIMIT 0 64); [right; left; split; reflexivity|lia|lia]. Defined.
