(* ===== verification/ZramDriver.v ===== *)
(** * The compressed disk under the block layer

    The functions zram_init registers, as a driver of the block layer: they
    keep what [Driver] asks of one, so what the block layer guarantees holds of
    the compressed disk.  On it a write that succeeded is always read back. *)

From S2P Require Import Prelude Block BlockIo BlockSpec RustStd Lz4 Lz4Format Zram ZramAttr ZramOk ZramSpec.

(** ** The bytes of the disk *)

(** The byte [k], as reading its page gives it. *)
Definition content (z : zram) (k : Z) : Z :=
  match slot_load (k / ZRAM_PAGE) (replicate (Z.to_nat ZRAM_PAGE) 0) z with
  | Ret (_, page) => page !!! Z.to_nat (k mod ZRAM_PAGE)
  | _ => 0
  end.

Lemma content_disk z disk k : zram_ok z disk -> content z k = if decide (0 <= k < len disk) then disk !!! Z.to_nat k else 0.
Proof.
  intros Hok. pose proof (so_len _ _ _ (z_slots _ _ Hok)) as Hl. rewrite <- (z_count _ _ Hok) in Hl.
  unfold content, ZRAM_PAGE in *. case_decide as Hk.
  - destruct (zram_slots z disk Hok ltac:(dlia)) as (t & Es & Hpc).
    assert (0 <= k / 4096 < len t) as Hp by dlia.
    destruct (page_slot z disk t (k / 4096) Hok Es Hp) as (s & Hs & Hst & Hlp & _).
    rewrite (slot_load_ok z t (k / 4096) s (slice disk (ZRAM_PAGE * (k / 4096)) ZRAM_PAGE)) by (done || lia).
    rewrite !list_lookup_total_alt, lookup_slice by (unfold ZRAM_PAGE; dlia). do 2 f_equal. unfold ZRAM_PAGE. dlia.
  - unfold slot_load, slot_at. destruct (slots z) as [t|] eqn:Es; [|done].
    destruct (zram_table z disk t Hok Es) as (_ & Hpc & _). unfold rd. case_decide as H0; [|done].
    destruct (t !! Z.to_nat (k / 4096)) as [s|] eqn:Hs; [|done].
    apply lookup_lt_Some in Hs. unfold len in *. assert (0 <= k < 4096 * Z.of_nat (length t)) by dlia. lia.
Qed.

Lemma content_byte z disk k : zram_ok z disk -> 0 <= content z k < 256.
Proof.
  intros Hok. rewrite (content_disk z disk) by done. case_decide as Hk; [|lia].
  pose proof (so_bytes _ _ _ (z_slots _ _ Hok)) as Hb. rewrite Forall_lookup in Hb.
  apply (Hb (Z.to_nat k)). apply list_lookup_lookup_total_lt. unfold len in Hk. lia.
Qed.

Lemma bytes_at_content z disk at_ n : zram_ok z disk -> 0 <= at_ -> 0 <= n -> at_ + n <= len disk ->
  bytes_at (content z) at_ n = slice disk at_ n.
Proof.
  intros Hok Ha Hn Hd. apply list_eq. intros i. destruct (decide (i < Z.to_nat n)%nat) as [Hi|Hi].
  - rewrite lookup_bytes_at, lookup_slice by lia. rewrite (content_disk z disk), decide_True by (done || lia).
    symmetry. replace (Z.to_nat at_ + i)%nat with (Z.to_nat (at_ + Z.of_nat i)) by lia.
    apply list_lookup_lookup_total_lt. unfold len in *. lia.
  - rewrite !lookup_ge_None_2; [done| |]; [unfold slice; rewrite length_take; lia|rewrite length_bytes_at by lia; lia].
Qed.

Lemma content_splice z z' disk at_ l k : zram_ok z disk -> zram_ok z' (splice disk at_ l) -> 0 <= at_ -> at_ + len l <= len disk ->
  content z' k = if decide (at_ <= k < at_ + len l) then l !!! Z.to_nat (k - at_) else content z k.
Proof.
  intros Hok Hok' Ha Hl. rewrite (content_disk z' _ k Hok'), (content_disk z _ k Hok), len_splice by lia.
  pose proof (len_nonneg l). case_decide as Hk; [|by rewrite decide_False by lia].
  rewrite list_lookup_total_alt. unfold len in *. rewrite lookup_splice by lia. repeat case_decide; try lia.
  - rewrite list_lookup_total_alt. do 2 f_equal. lia.
  - by rewrite list_lookup_total_alt.
Qed.

(** ** The driver *)

Section driver.
Context (mallocs : nat -> gset Z -> Z) (mallocs_fresh : forall n used, mallocs n used ∉ used).

(** A disk in order. *)
Record zdisk := ZDisk { zd : zram; zd_ok : exists disk, zram_ok zd disk }.

(** A computation that returns, with what its result satisfies. *)
Definition result {A} {P : A -> Prop} (r : res A) : returns r P -> {a : A | r = Ret a /\ P a} :=
  match r with
  | Ret a => fun H => exist _ a (conj eq_refl H)
  | _ => fun H => False_rect _ H
  end.

Lemma read_stays (d : zdisk) lba count : 0 <= lba < 2 ^ 64 /\ 0 <= count < 2 ^ 32 ->
  returns (zram_read lba count (replicate (Z.to_nat (512 * count)) 0) (zd d)) (fun r => exists disk, zram_ok r.2 disk).
Proof.
  destruct d as [z [disk Hok]]. cbn [zd]. intros [Hl Hc].
  destruct (zram_read_ok z disk lba count (replicate (Z.to_nat (512 * count)) 0)) as (st & data & z' & -> & Hok' & _); try done.
  - unfold len. rewrite length_replicate. lia.
  - by exists disk.
Qed.

Definition sendable (lba count : Z) (data : list Z) : Prop :=
  0 <= lba < 2 ^ 64 /\ 0 <= count < 2 ^ 32 /\ 512 * count <= len data /\ Forall byte data.

#[local] Instance byte_dec b : Decision (byte b).
Proof. unfold byte. apply _. Defined.
#[local] Instance sendable_dec lba count data : Decision (sendable lba count data).
Proof. unfold sendable. apply _. Defined.

Lemma write_stays (d : zdisk) lba count data : sendable lba count data ->
  returns (zram_write mallocs lba count data (zd d)) (fun r => exists disk, zram_ok r.2 disk).
Proof using mallocs_fresh.
  destruct d as [z [disk Hok]]. cbn [zd]. intros (Hl & Hc & Hd & Hb).
  eapply returns_mono; [by apply (zram_write_ok mallocs mallocs_fresh z disk lba count data)|]. intros r Hr. case_decide.
  - destruct Hr as (n & _ & Hok' & _). by eexists.
  - destruct Hr as (_ & Hok' & _). by eexists.
Qed.

Lemma discard_stays (d : zdisk) lba count : 0 <= lba < 2 ^ 64 /\ 0 <= count < 2 ^ 32 ->
  returns (zram_discard lba count (zd d)) (fun r => exists disk, zram_ok r.2 disk).
Proof.
  destruct d as [z [disk Hok]]. cbn [zd]. intros [Hl Hc].
  eapply returns_mono; [by apply (zram_discard_ok z disk lba count)|]. intros r [_ Hr]. case_decide; destruct Hr as [_ ?]; by eexists.
Qed.

(** What the block layer calls; there is one unit. *)
#[global] Instance zram_ops : DriverOps zdisk := {|
  drv_read d u lba count :=
    match decide (u = 0%nat), decide (0 <= lba < 2 ^ 64 /\ 0 <= count < 2 ^ 32) with
    | left _, left H =>
        let 'exist _ (status, data, z) p := result _ (read_stays d lba count H) in (status, data, ZDisk z (proj2 p))
    | _, _ => (-1, [], d)
    end;
  drv_write d u lba count data :=
    match decide (u = 0%nat), decide (sendable lba count data) with
    | left _, left H =>
        let 'exist _ (status, z) p := result _ (write_stays d lba count data H) in (status, ZDisk z (proj2 p))
    | _, _ => (-1, d)
    end;
  drv_flush d u := (0, d);
  drv_discard d u lba count :=
    match decide (u = 0%nat), decide (0 <= lba < 2 ^ 64 /\ 0 <= count < 2 ^ 32) with
    | left _, left H =>
        let 'exist _ (status, z) p := result _ (discard_stays d lba count H) in (status, ZDisk z (proj2 p))
    | _, _ => (-1, d)
    end |}.

(** A call is refused, or is a call of the function of the disk. *)
Lemma zram_drv_read d u lba count status data d' : drv_read d u lba count = (status, data, d') ->
  status = -1 /\ d' = d \/
  u = 0%nat /\ (0 <= lba < 2 ^ 64 /\ 0 <= count < 2 ^ 32) /\
  zram_read lba count (replicate (Z.to_nat (512 * count)) 0) (zd d) = Ret (status, data, zd d').
Proof.
  cbn [drv_read zram_ops]. destruct (decide (u = 0%nat)) as [Hu|]; [|intros E; inv E; by left].
  destruct (decide (0 <= lba < 2 ^ 64 /\ 0 <= count < 2 ^ 32)) as [H|]; [|intros E; inv E; by left].
  destruct (result _ _) as [[[st dt] z] [E p]]. intros [= <- <- <-]. by right.
Qed.

Lemma zram_drv_write d u lba count data status d' : drv_write d u lba count data = (status, d') ->
  status = -1 /\ d' = d \/ u = 0%nat /\ sendable lba count data /\ zram_write mallocs lba count data (zd d) = Ret (status, zd d').
Proof.
  cbn [drv_write zram_ops]. destruct (decide (u = 0%nat)) as [Hu|]; [|intros E; inv E; by left].
  destruct (decide (sendable lba count data)) as [H|]; [|intros E; inv E; by left].
  destruct (result _ _) as [[st z] [E p]]. intros [= <- <-]. by right.
Qed.

Lemma zram_drv_discard d u lba count status d' : drv_discard d u lba count = (status, d') ->
  status = -1 /\ d' = d \/
  u = 0%nat /\ (0 <= lba < 2 ^ 64 /\ 0 <= count < 2 ^ 32) /\ zram_discard lba count (zd d) = Ret (status, zd d').
Proof.
  cbn [drv_discard zram_ops]. destruct (decide (u = 0%nat)) as [Hu|]; [|intros E; inv E; by left].
  destruct (decide (0 <= lba < 2 ^ 64 /\ 0 <= count < 2 ^ 32)) as [H|]; [|intros E; inv E; by left].
  destruct (result _ _) as [[st z] [E p]]. intros [= <- <-]. by right.
Qed.

(** What the calls do to the bytes. *)
Lemma read_content z disk lba count status data z' :
  zram_ok z disk -> 0 <= lba < 2 ^ 64 /\ 0 <= count < 2 ^ 32 ->
  zram_read lba count (replicate (Z.to_nat (512 * count)) 0) z = Ret (status, data, z') ->
  (forall k, content z' k = content z k) /\
  (status = 0 -> data = bytes_at (content z) (512 * lba) (512 * count)) /\
  (in_disk disk lba count -> status = 0).
Proof.
  intros Hok [Hl Hc] E. assert (len (replicate (Z.to_nat (512 * count)) 0) = 512 * count) as Hlen
    by (unfold len; rewrite length_replicate; lia).
  destruct (zram_read_ok z disk lba count (replicate (Z.to_nat (512 * count)) 0)) as (st & dt & z1 & E1 & Hok' & _ & Hr); [done|done|done|lia|].
  rewrite E in E1. injection E1 as <- <- <-. split; [|split].
  - intros k. by rewrite (content_disk z' disk k Hok'), (content_disk z disk k Hok).
  - intros ->. case_decide as Hin; [|by destruct Hr]. destruct Hr as [_ ->].
    pose proof (proj2 (in_disk_pages z disk lba count Hok) Hin) as [_ Hd].
    rewrite (bytes_at_content z disk) by (done || lia). apply splice_all.
    rewrite Hlen. apply length_slice; unfold len in *; lia.
  - intros Hin%(in_disk_pages z disk lba count Hok). rewrite decide_True in Hr by done. by destruct Hr.
Qed.

Lemma write_content z disk lba count data status z' :
  zram_ok z disk -> sendable lba count data -> zram_write mallocs lba count data z = Ret (status, z') ->
  (forall k, ~ in_sectors lba count k -> content z' k = content z k) /\
  (status = 0 -> (forall k, in_sectors lba count k -> content z' k = data !!! Z.to_nat (k - 512 * lba)) /\ in_disk disk lba count /\
     exists disk', zram_ok z' disk' /\ len disk' = len disk).
Proof using mallocs_fresh.
  intros Hok (Hl & Hc & Hd & Hb) E. pose proof (zram_write_ok mallocs mallocs_fresh z disk lba count data Hok Hl Hc Hb Hd) as Hr.
  rewrite E in Hr. cbn in Hr. pose proof (in_disk_pages z disk lba count Hok) as Hip. case_decide as Hin.
  - destruct Hr as (n & Hn & Hok' & _ & Hst). cbn [fst snd] in *. apply Hip in Hin as Hind. pose proof Hind as [_ Hdisk].
    assert (len (slice data 0 (512 * n)) = 512 * n) as En by (apply length_slice; unfold len in *; lia).
    pose proof (fun k => content_splice z z' disk (512 * lba) (slice data 0 (512 * n)) k Hok Hok' ltac:(lia) ltac:(lia)) as Hcs.
    unfold in_sectors, BLOCK_SECTOR_SIZE. split.
    + intros k Hk. rewrite Hcs, En. rewrite decide_False by lia. done.
    + intros ->. assert (n = count) as -> by lia. split; [|split; [done|]].
      * intros k Hk. rewrite Hcs, En, decide_True by lia. rewrite !list_lookup_total_alt, lookup_slice by lia. done.
      * eexists. split; [exact Hok'|]. apply len_splice; lia.
  - destruct Hr as (-> & Hok' & _). split; [|done]. intros k _. by rewrite (content_disk z' disk k Hok'), (content_disk z disk k Hok).
Qed.

Lemma discard_content z disk lba count status z' :
  zram_ok z disk -> 0 <= lba < 2 ^ 64 /\ 0 <= count < 2 ^ 32 -> zram_discard lba count z = Ret (status, z') ->
  forall k, ~ in_sectors lba count k -> content z' k = content z k.
Proof.
  intros Hok [Hl Hc] E k Hk. pose proof (zram_discard_ok z disk lba count Hok Hl Hc) as Hr.
  rewrite E in Hr. cbn in Hr. destruct Hr as [_ Hr]. case_decide as Hin.
  - apply (in_disk_pages z disk lba count Hok) in Hin as [H0 Hdisk]. destruct Hr as [_ Hok']. unfold zeroed in Hok'.
    set (n := Z.max 0 (last_whole lba count - first_whole lba)) in *.
    assert (len (replicate (Z.to_nat (4096 * n)) 0) = 4096 * n) as En by (unfold len; rewrite length_replicate; lia).
    assert (512 * lba <= 4096 * first_whole lba /\ (0 < n -> 4096 * (first_whole lba + n) <= 512 * (lba + count)) /\
      (n = 0 -> 4096 * first_whole lba <= len disk)) as (H1 & H2 & H3).
    { pose proof (so_len _ _ _ (z_slots _ _ Hok)) as Hsl. unfold n, first_whole, last_whole, ZRAM_PAGE in *. dlia. }
    rewrite (content_splice z z' disk _ _ k Hok Hok') by (unfold first_whole in *; dlia). rewrite En.
    unfold in_sectors, BLOCK_SECTOR_SIZE in Hk. rewrite decide_False; [done|]. lia.
  - destruct Hr as [_ Hok']. by rewrite (content_disk z' disk k Hok'), (content_disk z disk k Hok).
Qed.

(** The promises of a driver. *)
#[global] Program Instance zram_driver : Driver zdisk := {|
  medium d u k := if decide (u = 0%nat) then content (zd d) k else 0;
  capacity u := 2 ^ 54 |}.
Next Obligation. lia. Qed.
Next Obligation. intros [z [disk Hok]] u k. cbn [zd]. case_decide; [by eapply content_byte|lia]. Qed.
Next Obligation.
  intros [z [disk Hok]] u lba count status data d' v k _ _ _ [[_ ->]|(_ & Hr & E)]%zram_drv_read; [done|]. cbn [zd] in *.
  case_decide; [|done]. by apply (read_content z disk lba count status data).
Qed.
Next Obligation.
  intros [z [disk Hok]] u lba count data d' _ _ _ [[? _]|(-> & Hr & E)]%zram_drv_read; [done|]. cbn [zd] in *.
  rewrite (proj1 (proj2 (read_content z disk lba count 0 data (zd d') Hok Hr E)) eq_refl). done.
Qed.
Next Obligation.
  intros [z [disk Hok]] u lba count data status d' v k _ _ _ [[_ ->]|(-> & Hs & E)]%zram_drv_write Hv; [done|]. cbn [zd] in *.
  case_decide; [|done]. subst v. apply (write_content z disk lba count data status (zd d') Hok Hs E). by destruct Hv.
Qed.
Next Obligation.
  intros [z [disk Hok]] u lba count data d' k _ _ _ [[? _]|(-> & Hs & E)]%zram_drv_write Hk; [done|]. cbn [zd] in *.
  by apply (proj2 (write_content z disk lba count data 0 (zd d') Hok Hs E) eq_refl).
Qed.
Next Obligation. intros d u status d' v k E. by injection E as <- <-. Qed.
Next Obligation.
  intros [z [disk Hok]] u lba count status d' v k _ _ _ [[_ ->]|(-> & Hr & E)]%zram_drv_discard Hv; [done|]. cbn [zd] in *.
  case_decide; [|done]. subst v. apply (discard_content z disk lba count status (zd d') Hok Hr E). by destruct Hv.
Qed.

(** ** Through the block layer *)

Lemma zram_drv_read_in d disk lba count : zram_ok (zd d) disk -> in_disk disk lba count -> 0 <= lba < 2 ^ 64 -> 0 <= count < 2 ^ 32 ->
  exists data d', drv_read d 0 lba count = (0, data, d').
Proof.
  intros Hok Hin Hl Hc. cbn [drv_read zram_ops]. rewrite (decide_True_pi eq_refl).
  destruct (decide (0 <= lba < 2 ^ 64 /\ 0 <= count < 2 ^ 32)) as [H|H]; [|by destruct H].
  destruct (result _ _) as [[[st dt] z] [E p]].
  pose proof (proj2 (proj2 (read_content (zd d) disk lba count st dt z Hok H E)) Hin) as ->. by eexists _, _.
Qed.

Lemma zram_drv_write_in d lba count data d' : drv_write d 0 lba count data = (0, d') ->
  exists disk, zram_ok (zd d') disk /\ in_disk disk lba count /\ 0 <= lba < 2 ^ 64 /\ 0 <= count < 2 ^ 32.
Proof using mallocs_fresh.
  intros [[? _]|(_ & Hs & E)]%zram_drv_write; [done|]. destruct d as [z [disk Hok]]. cbn [zd] in *.
  destruct (proj2 (write_content z disk lba count data 0 (zd d') Hok Hs E) eq_refl) as (_ & [Hc Hd] & disk' & Hok' & El).
  exists disk'. split; [done|]. split; [split; [done|lia]|]. destruct Hs as (? & ? & _). done.
Qed.

Lemma bytes_at_eq f at_ data n : n = len data -> (forall k, at_ <= k < at_ + n -> f k = data !!! Z.to_nat (k - at_)) ->
  bytes_at f at_ n = data.
Proof.
  intros -> Hf. apply list_eq. intros i. destruct (decide (i < length data)%nat) as [Hi|Hi].
  - rewrite lookup_bytes_at by (unfold len; lia). rewrite Hf by (unfold len; lia).
    replace (Z.to_nat (at_ + Z.of_nat i - at_)) with i by lia. symmetry. by apply list_lookup_lookup_total_lt.
  - rewrite !lookup_ge_None_2; [done|lia|]. rewrite length_bytes_at; unfold len; lia.
Qed.

(** What a write stored, a read returns. *)
Lemma zram_stored d lba count data d' : 0 < count -> lba + count <= 2 ^ 54 -> len data = 512 * count ->
  drv_write d 0 lba count data = (0, d') -> exists d'', drv_read d' 0 lba count = (0, data, d'').
Proof using mallocs_fresh.
  intros Hc Hcap Hlen Ew. destruct (zram_drv_write_in d lba count data d' Ew) as (disk & Hok & Hin & Hl & Hc32).
  destruct (zram_drv_read_in d' disk lba count Hok Hin Hl Hc32) as (data' & d'' & Er). exists d''. rewrite Er. f_equal. f_equal.
  assert (lba + count <= capacity (D := zdisk) 0) as Hcap' by exact Hcap.
  rewrite (drv_read_data d' 0 lba count data' d'' (proj1 Hl) Hc Hcap' Er).
  apply bytes_at_eq; [by rewrite Hlen|]. intros k Hk.
  apply (drv_write_data d 0 lba count data d' k (proj1 Hl) Hc Hcap' Ew). unfold in_sectors. lia.
Qed.

(** C9. Block layer, compressed disk, LZ4 and the allocator together: on a
    device or partition of the compressed disk, sectors whose write succeeded
    are read back: the read succeeds and its bytes are those written. *)
Theorem zram_write_read_back clock (st : block_state zdisk) n d base lba count data :
  devices st !! n = Some d -> located st d 0 base -> can_read d = true -> can_write d = true ->
  0 <= lba -> 0 <= count -> lba + count < 2 ^ 64 -> len data = 512 * count ->
  returns (block_device_write clock st (Some n) lba count (Some data)) (fun '(status, st') =>
    status = 0 ->
    returns (block_device_read clock st' (Some n) lba count true) (fun '(status', data', _) =>
      status' = 0 /\ data' = data)).
Proof using mallocs_fresh.
  intros Hd Hl Hcr Hcw Hlba Hc H64 Hlen. destruct (located_range _ _ _ _ Hl) as (Hb & Hs & Hcap).
  unfold block_device_write, deref. rewrite Hd, bind_ret, Hcw. cbn [negb orb].
  destruct (Z.eqb_spec count 0); [done|]. rewrite u64_small by lia. destruct (Z.ltb_spec (sectors d) (lba + count)); [done|].
  unfold time_uptime_ns. rewrite (call_write_at _ d 0 base) by (try (done || lia); by apply (located_same st)).
  cbn [hw set_asked]. destruct (drv_write (hw st) 0 (base + lba) count data) as [status h] eqn:Ew. rewrite bind_ret. cbn [returns].
  intros ->. destruct (zram_stored (hw st) (base + lba) count data h) as (h' & Er); [lia|cbn in Hcap; lia|done|done|].
  unfold block_device_read, deref. cbn [devices set_stats set_asked set_hw]. rewrite Hd, bind_ret, Hcr.
  destruct (Z.eqb_spec count 0); [done|]. cbn [negb orb]. rewrite u64_small by lia. rewrite (proj2 (Z.ltb_ge _ _)) by lia.
  unfold device_read_counted, time_uptime_ns. rewrite (call_read_at _ d 0 base) by (try lia; by apply (located_same st)).
  cbn [hw set_stats set_asked set_hw]. rewrite Er. done.
Qed.
End driver.

(** A disk of two pages, alone in the registry. *)
Definition two_pages : zram := (write_disksize (fun _ used => fresh ({[0]} ∪ used)) 1000 8192 5 zram_boot).2.

Lemma two_pages_ok : exists disk, zram_ok two_pages disk.
Proof.
  destruct (write_disksize_ok (fun _ used => fresh ({[0]} ∪ used)) 1000 ltac:(lia) zram_boot [] 8192 5 (chars "8192"))
    as (disk & Hok & _); try done. apply zram_boot_ok. by exists disk.
Qed.

Definition zram_device : device :=
  Device (replicate 16 0) (chars "zram0") (-1) 16 ZRAM_MAJOR 0 true true true true (DriverContext 0).

Lemma fresh_address n (used : gset Z) : (fun (_ : nat) used => fresh ({[0]} ∪ used)) n used ∉ used.
Proof. intros H. apply (is_fresh ({[0]} ∪ used)). apply elem_of_union_r. exact H. Qed.

Definition zram_registry : block_state zdisk :=
  BlockState [zram_device] 16 1 0 (-1) (Stats 0 0 0 0 0 0 0) 0 (ZDisk two_pages two_pages_ok).

Lemma zram_write_read_back_witness :
  returns (@block_device_write zdisk (zram_ops _ fresh_address) (fun _ => 0) zram_registry (Some 0%nat) 1 2 (Some (replicate 1024 7)))
    (fun '(status, st') =>
      status = 0 ->
      returns (@block_device_read zdisk (zram_ops _ fresh_address) (fun _ => 0) st' (Some 0%nat) 1 2 true)
        (fun '(status', data', _) => status' = 0 /\ data' = replicate 1024 7)).
Proof.
  apply (zram_write_read_back _ fresh_address (fun _ => 0) zram_registry 0 zram_device 0 1 2 (replicate 1024 7)).
  - reflexivity.
  - apply at_driver; [reflexivity|reflexivity|cbn; lia].
  - reflexivity.
  - reflexivity.
  - lia.
  - lia.
  - lia.
  - unfold len. rewrite length_replicate. lia.
Defined.
