(* ===== verification/Elf.v ===== *)
(** * Planning an ELF image (kernel/rust/elf/src/lib.rs and ffi.rs)

    Before the kernel maps a program it plans it: the headers are parsed and
    checked, every loadable segment is placed, and the result is handed to
    core/elf.c as it is.  The functions are the Rust code's, with every check
    in its order and every checked addition. *)

From S2P Require Import Prelude RustStd.

Definition HEADER_SIZE : Z := 64.
Definition PROGRAM_SIZE : Z := 56.
Definition PAGE_SIZE : Z := 4096.
Definition LOWEST_ADDRESS : Z := 65536.
Definition MAX_HEADER_SPAN : Z := 65536.
Definition MAX_INTERP_SIZE : Z := 4096.
Definition ET_EXEC : Z := 2.
Definition ET_DYN : Z := 3.
Definition PT_LOAD : Z := 1.
Definition PT_INTERP : Z := 3.
Definition PF_X : Z := 1.
Definition PF_W : Z := 2.

Inductive elf_error :=
  | ElfTruncated | ElfIdent | ElfKind | ElfMachine | ElfLayout | ElfProgram | ElfInterp | ElfRange | ElfEntry | ElfPhdr.

Record Header := MkHeader { h_kind : Z; h_entry : Z; h_phoff : Z; h_phnum : Z }.

Record Program := MkProgram {
  p_kind : Z; p_flags : Z; p_offset : Z; p_vaddr : Z; p_filesz : Z; p_memsz : Z; p_align : Z }.

Record Plan := MkPlan {
  plan_kind : Z; plan_phnum : Z; load_count : Z; load_bias : Z; entry : Z; phdr : Z; image_start : Z; image_end : Z;
  interp_offset : Z; interp_size : Z }.

Record Segment := MkSegment {
  address : Z; file_offset : Z; file_size : Z; memory_size : Z; page_start : Z; page_end : Z; writable : bool; executable : bool }.

Record Target := MkTarget { machine : Z; user_limit : Z }.

(** ** Reading fields *)

Definition field (bytes : list Z) (at_ n : Z) : option (list Z) :=
  match checked_add at_ n with
  | Some end_ => get_range bytes at_ end_
  | None => None
  end.

Definition read_le (bytes : list Z) (at_ n : Z) : option Z := le_join <$> field bytes at_ n.

Definition page_down (value : Z) : Z := Z.land value (u64 (Z.lnot (PAGE_SIZE - 1))).
Definition page_up (value : Z) : option Z :=
  match checked_add value (PAGE_SIZE - 1) with
  | Some v => Some (page_down v)
  | None => None
  end.

Definition table_size (phnum : Z) : Z := Z.min (phnum * 56) UINT64_MAX.

Definition parse_header (bytes : list Z) (file_size machine : Z) : outcome elf_error Header :=
  if (file_size <? 64) || (len bytes <? HEADER_SIZE) then Err ElfTruncated
  else
    ident <-? or_err (field bytes 0 16) ElfTruncated;;
    if negb (bool_decide (take 4 ident = [127; 69; 76; 70])) then Err ElfIdent
    else if negb (bool_decide (slice ident 4 3 = [2; 1; 1])) then Err ElfIdent
    else
      kind <-? or_err (read_le bytes 16 2) ElfTruncated;;
      if negb (kind =? ET_EXEC) && negb (kind =? ET_DYN) then Err ElfKind
      else
        m <-? or_err (read_le bytes 18 2) ElfTruncated;;
        if negb (m =? machine) then Err ElfMachine
        else
          version <-? or_err (read_le bytes 20 4) ElfTruncated;;
          if negb (version =? 1) then Err ElfIdent
          else
            entry <-? or_err (read_le bytes 24 8) ElfTruncated;;
            phoff <-? or_err (read_le bytes 32 8) ElfTruncated;;
            ehsize <-? or_err (read_le bytes 52 2) ElfTruncated;;
            phentsize <-? or_err (read_le bytes 54 2) ElfTruncated;;
            phnum <-? or_err (read_le bytes 56 2) ElfTruncated;;
            if negb (ehsize =? HEADER_SIZE) || negb (phentsize =? PROGRAM_SIZE) || (phnum =? 0) then Err ElfLayout
            else
              room <-? or_err (checked_sub file_size phoff) ElfLayout;;
              if room <? table_size phnum then Err ElfLayout
              else Ok (MkHeader kind entry phoff phnum).

Definition header_span (bytes : list Z) (file_size machine : Z) : outcome elf_error Z :=
  header <-? parse_header bytes file_size machine;;
  span <-? or_err (checked_add (h_phoff header) (table_size (h_phnum header))) ElfLayout;;
  if (file_size <? span) || (MAX_HEADER_SPAN <? span) then Err ElfLayout else Ok span.

Definition program (bytes : list Z) (header : Header) (index : Z) : option Program :=
  match checked_add (h_phoff header) (index * PROGRAM_SIZE) with
  | None => None
  | Some at_ =>
      match field bytes at_ PROGRAM_SIZE with
      | None => None
      | Some e =>
          kind ← read_le e 0 4; flags ← read_le e 4 4; offset ← read_le e 8 8; vaddr ← read_le e 16 8;
          filesz ← read_le e 32 8; memsz ← read_le e 40 8; align ← read_le e 48 8;
          Some (MkProgram kind flags offset vaddr filesz memsz align)
      end
  end.

(** ** Checking and placing programs *)

Definition within_file (offset size file_size : Z) : bool :=
  match checked_sub file_size offset with
  | Some room => size <=? room
  | None => false
  end.

Definition is_power_of_two (a : Z) : bool := negb (a =? 0) && (Z.land a (a - 1) =? 0).

Definition check_program (p : Program) (file_size : Z) : outcome elf_error unit :=
  if p_memsz p <? p_filesz p then Err ElfProgram
  else if negb (p_filesz p =? 0) && negb (within_file (p_offset p) (p_filesz p) file_size) then Err ElfProgram
  else if (1 <? p_align p) && negb (is_power_of_two (p_align p)) then Err ElfProgram
  else if negb (Z.land (p_vaddr p) (PAGE_SIZE - 1) =? Z.land (p_offset p) (PAGE_SIZE - 1)) then Err ElfProgram
  else
    end_ <-? or_err (checked_add (p_vaddr p) (p_memsz p)) ElfProgram;;
    _ <-? or_err (page_up end_) ElfRange;;
    Ok tt.

Definition segment (p : Program) (load_bias : Z) (target : Target) : outcome elf_error Segment :=
  address <-? or_err (checked_add (p_vaddr p) load_bias) ElfRange;;
  end_ <-? or_err (checked_add address (p_memsz p)) ElfRange;;
  if (address <? LOWEST_ADDRESS) || (user_limit target <=? address) then Err ElfRange
  else if saturating_sub (user_limit target) address <? p_memsz p then Err ElfRange
  else
    top <-? or_err (page_up end_) ElfRange;;
    Ok (MkSegment address (p_offset p) (p_filesz p) (p_memsz p) (page_down address) top
          (negb (Z.land (p_flags p) PF_W =? 0)) (negb (Z.land (p_flags p) PF_X =? 0))).

(** ** The plan *)

(** What the first loop over the programs collects: [lowest], [highest],
    [load_count] and [interp]. *)
Record survey := Survey { lowest : Z; highest : Z; loads : Z; interp : option (Z * Z) }.

Definition survey_program (p : Program) (file_size : Z) (s : survey) : outcome elf_error survey :=
  if p_kind p =? PT_INTERP then
    if (p_filesz p <? 2) || (MAX_INTERP_SIZE <? p_filesz p) || negb (within_file (p_offset p) (p_filesz p) file_size)
    then Err ElfInterp
    else
      match interp s with
      | Some _ => Err ElfInterp
      | None => Ok (Survey (lowest s) (highest s) (loads s) (Some (p_offset p, p_filesz p)))
      end
  else if negb (p_kind p =? PT_LOAD) then Ok s
  else
    _ <-? check_program p file_size;;
    count <-? or_err (if loads s + 1 <? 2 ^ 16 then Some (loads s + 1) else None) ElfProgram;;
    end_ <-? or_err (match checked_add (p_vaddr p) (p_memsz p) with Some e => page_up e | None => None end) ElfRange;;
    Ok (Survey (Z.min (lowest s) (page_down (p_vaddr p))) (Z.max (highest s) end_) count (interp s)).

(** [for index in 0..header.phnum], from [index] on. *)
Fixpoint survey_loop (n : nat) (bytes : list Z) (header : Header) (file_size index : Z) (s : survey) : outcome elf_error survey :=
  match n with
  | O => Ok s
  | S n =>
      p <-? or_err (program bytes header index) ElfTruncated;;
      s <-? survey_program p file_size s;;
      survey_loop n bytes header file_size (index + 1) s
  end.

(** The second loop: [entry_mapped] and [phdr]. *)
Definition place_program (p : Program) (header : Header) (load_bias entry : Z) (target : Target) (s : bool * Z)
  : outcome elf_error (bool * Z) :=
  if negb (p_kind p =? PT_LOAD) then Ok s
  else
    placed <-? segment p load_bias target;;
    let mapped := s.1 || ((page_start placed <=? entry) && (entry <? page_end placed)) in
    if s.2 =? 0 then
      match checked_sub (h_phoff header) (p_offset p) with
      | Some relative =>
          if (relative <=? p_filesz p) && (table_size (h_phnum header) <=? saturating_sub (p_filesz p) relative)
          then phdr <-? or_err (checked_add (address placed) relative) ElfRange;; Ok (mapped, phdr)
          else Ok (mapped, s.2)
      | None => Ok (mapped, s.2)
      end
    else Ok (mapped, s.2).

Fixpoint place_loop (n : nat) (bytes : list Z) (header : Header) (load_bias entry : Z) (target : Target) (index : Z) (s : bool * Z)
  : outcome elf_error (bool * Z) :=
  match n with
  | O => Ok s
  | S n =>
      p <-? or_err (program bytes header index) ElfTruncated;;
      s <-? place_program p header load_bias entry target s;;
      place_loop n bytes header load_bias entry target (index + 1) s
  end.

Record Image := MkImage { i_bytes : list Z; i_header : Header; i_plan : Plan; i_target : Target }.

Definition plan (bytes : list Z) (file_size preferred_base : Z) (target : Target) : outcome elf_error Image :=
  header <-? parse_header bytes file_size (machine target);;
  span <-? header_span bytes file_size (machine target);;
  if len bytes <? span then Err ElfTruncated
  else
    s <-? survey_loop (Z.to_nat (h_phnum header)) bytes header file_size 0 (Survey UINT64_MAX 0 0 None);;
    if (loads s =? 0) || (lowest s =? UINT64_MAX) || (highest s <=? lowest s) then Err ElfProgram
    else if negb (Z.land preferred_base (PAGE_SIZE - 1) =? 0) then Err ElfRange
    else
      load_bias <-? (if h_kind header =? ET_EXEC
                     then if lowest s <? LOWEST_ADDRESS then Err ElfRange else Ok 0
                     else or_err (checked_sub preferred_base (lowest s)) ElfRange);;
      image_end <-? or_err (checked_add (highest s) load_bias) ElfRange;;
      if user_limit target <? image_end then Err ElfRange
      else
        image_start <-? or_err (checked_add (lowest s) load_bias) ElfRange;;
        entry <-? or_err (checked_add (h_entry header) load_bias) ElfEntry;;
        placed <-? place_loop (Z.to_nat (h_phnum header)) bytes header load_bias entry target 0 (false, 0);;
        let '(entry_mapped, phdr) := placed in
        if (entry <? LOWEST_ADDRESS) || (user_limit target <=? entry) || negb entry_mapped then Err ElfEntry
        else if (match interp s with Some _ => true | None => false end) && (phdr =? 0) then Err ElfPhdr
        else
          let '(interp_offset, interp_size) := default (0, 0) (interp s) in
          Ok (MkImage bytes header
                (MkPlan (h_kind header) (h_phnum header) (loads s) load_bias entry phdr image_start image_end
                   interp_offset interp_size) target).

(** The segments, in the order of the programs. *)
Definition segments (image : Image) : list Segment :=
  omap (fun index =>
      match program (i_bytes image) (i_header image) index with
      | Some p =>
          if p_kind p =? PT_LOAD then
            match segment p (load_bias (i_plan image)) (i_target image) with
            | Ok s => Some s
            | _ => None
            end
          else None
      | None => None
      end)
    (seqZ 0 (h_phnum (i_header image))).

Definition interp_path_valid (path : list Z) : bool :=
  match rev path with
  | 0 :: text =>
      let text := rev text in
      match text with
      | c :: _ => (c =? 47) && forallb (fun b => negb (b =? 0)) text
      | [] => false
      end
  | _ => false
  end.

(** ** The interface to C

    A pointer is NULL or the memory from it on. *)

Definition ffi_slice (pointer : option (list Z)) (length : Z) : list Z :=
  match pointer with
  | None => []
  | Some memory => if (length =? 0) || (2 ^ 63 - 1 <? length) then [] else take (Z.to_nat length) memory
  end.

Definition tunix_elf_header_span (header : option (list Z)) (length file_size machine : Z) : Z :=
  match header_span (ffi_slice header length) file_size machine with
  | Ok span => if span <? 2 ^ 63 then span else -1
  | _ => -1
  end.

(** [for segment in image.segments()]: the array as it is left, how many were
    written, and whether the loop returned early. *)
Fixpoint write_segments (ss : list Segment) (written capacity : Z) (out : list Segment) : list Segment * Z * bool :=
  match ss with
  | [] => (out, written, true)
  | s :: ss =>
      if capacity <=? written then (out, written, false)
      else write_segments ss (saturating_add written 1) capacity (<[Z.to_nat written := s]> out)
  end.

(** The plan, the array of segments, and the result; [out] is not NULL. *)
Definition tunix_elf_plan (headers : option (list Z)) (length file_size machine preferred_base user_limit : Z)
  (out : Plan) (array : option (list Segment)) (capacity : Z) : Plan * option (list Segment) * Z :=
  match plan (ffi_slice headers length) file_size preferred_base (MkTarget machine user_limit) with
  | Ok image =>
      match array with
      | None => (i_plan image, None, 0)
      | Some a =>
          if capacity <? load_count (i_plan image) then (i_plan image, Some a, 0)
          else
            let '(a, written, ended) := write_segments (segments image) 0 capacity a in
            (i_plan image, Some a, if ended && (written =? load_count (i_plan image)) then 0 else -1)
      end
  | _ => (out, array, -1)
  end.

Definition tunix_elf_interp_valid (path : option (list Z)) (length : Z) : Z :=
  if interp_path_valid (ffi_slice path length) then 1 else 0.
