(* ===== verification/ElfSpec.v ===== *)
(** * What the plan of an ELF image promises

    A plan that is accepted is safe to carry out: its segments lie in user
    space, inside the image, aligned with the file and within it; the entry
    point and the program headers it announces are mapped; and asking for the
    segments gives all of them. *)

From S2P Require Import Prelude RustStd Elf.

(** ** Outcomes *)

Lemma and_then_ok {E A B} (m : outcome E A) (f : A -> outcome E B) b :
  and_then m f = Ok b -> exists a, m = Ok a /\ f a = Ok b.
Proof. destruct m; [|done..]. intros H. by exists a. Qed.

Lemma or_err_ok {E A} (o : option A) (e : E) a : or_err o e = Ok a -> o = Some a.
Proof. destruct o; [|done]. by intros [= ->]. Qed.

(** [take_ok H x E]: the code went on after its next [?], with the value [x]. *)
Ltac take_ok H x E :=
  apply and_then_ok in H as (x & E & H); try apply or_err_ok in E.

(** [pass_ok H E]: the code went past its next check. *)
Ltac pass_ok H E :=
  match type of H with (if ?b then Err _ else _) = _ => destruct b eqn:E; [discriminate H|] end.

(** ** Pages *)

Lemma page_down_eq v : 0 <= v < 2 ^ 64 -> page_down v = v - v mod 4096.
Proof. intros. unfold page_down, PAGE_SIZE. change 4096 with (2 ^ 12). rewrite land_high by lia. done. Qed.

Lemma page_up_eq v e : 0 <= v -> page_up v = Some e -> v <= e < 2 ^ 64 /\ e mod 4096 = 0 /\ e < v + 4096.
Proof.
  unfold page_up, PAGE_SIZE. intros Hv. destruct (checked_add v (4096 - 1)) as [w|] eqn:E; [|done].
  apply checked_add_some in E as [-> Hw]. intros [= <-]. rewrite page_down_eq by lia. dlia.
Qed.

Lemma page_offset v : Z.land v (PAGE_SIZE - 1) = v mod 4096.
Proof. unfold PAGE_SIZE. change 4096 with (2 ^ 12). by rewrite land_low. Qed.

(** ** Programs *)

Definition is_load (p : Program) : bool := p_kind p =? PT_LOAD.

(** The fields of a program are numbers of their width. *)
Definition program_words (p : Program) : Prop :=
  0 <= p_offset p < 2 ^ 64 /\ 0 <= p_vaddr p < 2 ^ 64 /\ 0 <= p_filesz p < 2 ^ 64 /\ 0 <= p_memsz p < 2 ^ 64.

Lemma read_le_range l i n v : Forall byte l -> 0 <= i -> 0 <= n -> read_le l i n = Some v -> 0 <= v < 2 ^ (8 * n).
Proof.
  unfold read_le, field. intros Hb Hi Hn. destruct (checked_add i n) as [e|] eqn:E; [|done].
  apply checked_add_some in E as [-> _]. destruct (get_range l i (i + n)) as [r|] eqn:Er; [|done].
  apply get_range_some in Er as (_ & _ & -> & Hl); [|done]. intros [= <-].
  pose proof (le_join_bound _ (slice_bytes l i (i + n - i) Hb)) as Hj. unfold len in Hl.
  replace (Z.of_nat (length _)) with n in Hj by lia. done.
Qed.

Lemma program_range bytes header index p :
  Forall byte bytes -> 0 <= h_phoff header -> 0 <= index -> program bytes header index = Some p -> program_words p.
Proof.
  intros Hb Hh Hi. unfold program. destruct (checked_add _ _) as [i|] eqn:Ei; [|done]. apply checked_add_some in Ei as [-> _].
  unfold field at 1. destruct (checked_add _ _) as [e|] eqn:Ee; [|done]. apply checked_add_some in Ee as [-> _].
  destruct (get_range _ _ _) as [r|] eqn:Er; [|done]. unfold PROGRAM_SIZE in *.
  apply get_range_some in Er as (_ & _ & -> & _); [|lia]. intros E. repeat (apply bind_Some in E as (? & ? & E)).
  injection E as <-. pose proof (slice_bytes bytes (h_phoff header + index * 56) (h_phoff header + index * 56 + 56 - (h_phoff header + index * 56)) Hb).
  unfold program_words. cbn. repeat split; try (by eapply (read_le_range _ _ 8); [..|eassumption]; (done || lia)).
Qed.

(** What [check_program] lets pass. *)
Lemma check_program_ok p fs : program_words p -> check_program p fs = Ok tt ->
  p_filesz p <= p_memsz p /\ (p_filesz p = 0 \/ p_offset p + p_filesz p <= fs) /\
  p_vaddr p mod 4096 = p_offset p mod 4096 /\ exists e, page_up (p_vaddr p + p_memsz p) = Some e.
Proof.
  unfold check_program. intros (Ho & Hv & Hf & Hm) E. destruct (Z.ltb_spec (p_memsz p) (p_filesz p)); [done|].
  destruct (negb (p_filesz p =? 0) && _) eqn:Ef; [done|]. destruct ((1 <? _) && _); [done|].
  rewrite !page_offset in E. destruct (Z.eqb_spec (p_vaddr p mod 4096) (p_offset p mod 4096)); [|done]. cbn [negb] in E.
  take_ok E w Ew. apply checked_add_some in Ew as [-> _]. take_ok E hi Et. split; [done|]. split; [|split; [done|by exists hi]].
  apply andb_false_iff in Ef as [Ef|Ef].
  - apply negb_false_iff, Z.eqb_eq in Ef. by left.
  - apply negb_false_iff in Ef. unfold within_file in Ef. destruct (checked_sub fs (p_offset p)) as [room|] eqn:Er; [|done].
    apply checked_sub_some in Er as [-> ?]. apply Z.leb_le in Ef. right. lia.
Qed.

(** ** The first loop *)

Section planning.
Context (bytes : list Z) (header : Header) (fs : Z).
Context (Hbytes : Forall byte bytes) (Hphoff : 0 <= h_phoff header).

(** The programs from [index] on. *)
Definition programs_at (index : Z) (ps : list Program) : Prop :=
  forall i p, ps !! i = Some p -> program bytes header (index + Z.of_nat i) = Some p.

Definition load_fits (s : survey) (p : Program) : Prop :=
  program_words p /\
  (is_load p = true -> check_program p fs = Ok tt /\ lowest s <= p_vaddr p - p_vaddr p mod 4096 /\
     forall e, page_up (p_vaddr p + p_memsz p) = Some e -> e <= highest s).

Record surveyed (ps : list Program) (s : survey) : Prop := {
  sv_count : loads s = len (filter (fun p => is_load p = true) ps);
  sv_fits : Forall (load_fits s) ps;
  sv_lowest : lowest s = UINT64_MAX \/ exists p, p ∈ ps /\ is_load p = true /\ lowest s = p_vaddr p - p_vaddr p mod 4096;
  sv_interp : forall o n, interp s = Some (o, n) -> 2 <= n <= 4096 /\ 0 <= o /\ o + n <= fs }.

Lemma load_fits_mono s s' p : lowest s' <= lowest s -> highest s <= highest s' -> load_fits s p -> load_fits s' p.
Proof.
  intros Hl Hh [Hw Hf]. split; [done|]. intros Hp. destruct (Hf Hp) as (Hc & Hlo & He). split; [done|]. split; [lia|].
  intros e E. specialize (He e E). lia.
Qed.

Lemma within_file_ok o n : within_file o n fs = true -> o + n <= fs.
Proof.
  unfold within_file. destruct (checked_sub fs o) as [r|] eqn:E; [|done]. apply checked_sub_some in E as [-> ?]. intros ?%Z.leb_le. lia.
Qed.

Lemma survey_program_ok ps p s s' :
  program_words p -> surveyed ps s -> survey_program p fs s = Ok s' -> surveyed (ps ++ [p]) s'.
Proof.
  intros Hw [Hc Hf Hlo Hi] E. unfold survey_program in E.
  assert (is_load p = false -> lowest s' = lowest s -> highest s' = highest s -> loads s' = loads s ->
    (forall o n, interp s' = Some (o, n) -> 2 <= n <= 4096 /\ 0 <= o /\ o + n <= fs) -> surveyed (ps ++ [p]) s') as Hskip.
  { intros Hl E1 E2 E3 Hi'. split; [|apply Forall_app; split| |done].
    - rewrite E3, Hc, list.filter_app. unfold len. rewrite length_app. cbn. rewrite decide_False by congruence. cbn. lia.
    - eapply Forall_impl; [|exact Hf]. intros q. apply load_fits_mono; lia.
    - apply Forall_singleton. split; [done|]. rewrite Hl. done.
    - rewrite E1. destruct Hlo as [?|(q & Hq & ?)]; [by left|right]. exists q. split; [apply elem_of_app; by left|done]. }
  destruct (Z.eqb_spec (p_kind p) PT_INTERP) as [Ek|Ek].
  - destruct (_ || _) eqn:Eg; [done|]. rewrite !orb_false_iff, negb_false_iff, !Z.ltb_ge in Eg. destruct Eg as [[? ?] Ein%within_file_ok].
    destruct (interp s) eqn:Ei; [done|]. injection E as <-. apply Hskip; try done; [by unfold is_load; rewrite Ek|].
    cbn. intros o n [= <- <-]. unfold MAX_INTERP_SIZE in *. destruct Hw as (? & _). lia.
  - destruct (Z.eqb_spec (p_kind p) PT_LOAD) as [El|El]; cbn [negb] in E.
    2: { injection E as <-. apply Hskip; try done. unfold is_load. by apply Z.eqb_neq. }
    assert (is_load p = true) as Hl by (unfold is_load; by apply Z.eqb_eq).
    take_ok E u Eu. destruct u. take_ok E count Ec. destruct (loads s + 1 <? 2 ^ 16); [|done]. injection Ec as <-.
    take_ok E hi Et. injection E as <-. destruct (checked_add _ _) as [e|] eqn:Ee; [|done]. apply checked_add_some in Ee as [-> _].
    rewrite page_down_eq by (destruct Hw as (_ & ? & _); done). split; cbn.
    + rewrite Hc, list.filter_app. unfold len. rewrite length_app. cbn. rewrite decide_True by done. cbn. lia.
    + apply Forall_app. split; [eapply Forall_impl; [|exact Hf]; intros q; apply load_fits_mono; cbn; lia|].
      apply Forall_singleton. split; [done|]. intros _. split; [done|]. cbn. split; [lia|]. intros e' E'. rewrite Et in E'. inv E'. lia.
    + destruct (Z.min_spec (lowest s) (p_vaddr p - p_vaddr p mod 4096)) as [[_ ->]|[_ ->]].
      * destruct Hlo as [?|(q & Hq & ?)]; [by left|right]. exists q. split; [apply elem_of_app; by left|done].
      * right. exists p. split; [apply elem_of_app; right; by left|done].
    + done.
Qed.

Lemma survey_loop_ok n index ps s s' :
  0 <= index -> surveyed ps s -> survey_loop n bytes header fs index s = Ok s' ->
  exists qs, length qs = n /\ programs_at index qs /\ surveyed (ps ++ qs) s'.
Proof using Hbytes Hphoff.
  revert index ps s. induction n as [|n IH]; intros index ps s Hi Hs E; cbn [survey_loop] in E.
  - injection E as <-. exists []. split; [done|]. split; [intros i p; by rewrite lookup_nil|]. by rewrite app_nil_r.
  - take_ok E p Ep. take_ok E s1 E1.
    pose proof (program_range bytes header index p Hbytes Hphoff Hi Ep) as Hw.
    destruct (IH (index + 1) (ps ++ [p]) s1) as (qs & Hl & Hq & Hsv); [lia|by eapply survey_program_ok|done|].
    exists (p :: qs). split; [cbn; lia|]. split.
    + intros [|i] q Hq'; cbn in Hq'.
      * inv Hq'. by rewrite Z.add_0_r.
      * apply Hq in Hq'. rewrite <- Hq'. f_equal. lia.
    + by rewrite <- app_assoc in Hsv.
Qed.

(** ** The second loop *)

Lemma segment_ok p bias target g : program_words p -> 0 <= bias -> segment p bias target = Ok g ->
  address g = p_vaddr p + bias /\ file_offset g = p_offset p /\ file_size g = p_filesz p /\ memory_size g = p_memsz p /\
  LOWEST_ADDRESS <= address g < user_limit target /\ address g + memory_size g <= user_limit target /\
  page_start g = address g - address g mod 4096 /\ page_up (address g + memory_size g) = Some (page_end g).
Proof.
  intros (Ho & Hv & Hf & Hm) Hb E. unfold segment in E. take_ok E a Ea. apply checked_add_some in Ea as [-> Ha].
  take_ok E e Ee. apply checked_add_some in Ee as [-> He].
  destruct (_ || _) eqn:Eg; [done|]. apply orb_false_iff in Eg as [Eg1%Z.ltb_ge Eg2%Z.leb_gt].
  destruct (Z.ltb_spec (saturating_sub (user_limit target) (p_vaddr p + bias)) (p_memsz p)) as [|Hs]; [done|].
  take_ok E hi Et. injection E as <-. unfold saturating_sub in Hs.
  cbn [address file_offset file_size memory_size page_start page_end]. rewrite page_down_eq by lia. repeat split; (done || lia).
Qed.

Definition maps_entry (e : Z) (g : Segment) : Prop := page_start g <= e < page_end g.

(** The program headers lie in the part of the segment that comes from the file. *)
Definition maps_headers (ph : Z) (g : Segment) : Prop :=
  file_offset g <= h_phoff header /\ h_phoff header + table_size (h_phnum header) <= file_offset g + file_size g /\
  ph = address g + (h_phoff header - file_offset g).

Record placed (bias e : Z) (target : Target) (ps : list Program) (s : bool * Z) : Prop := {
  pl_all : forall p, p ∈ ps -> is_load p = true -> exists g, segment p bias target = Ok g;
  pl_entry : s.1 = true -> exists p g, p ∈ ps /\ is_load p = true /\ segment p bias target = Ok g /\ maps_entry e g;
  pl_headers : s.2 <> 0 -> exists p g, p ∈ ps /\ is_load p = true /\ segment p bias target = Ok g /\ maps_headers s.2 g }.

Lemma place_program_ok bias e target ps p s s' :
  program_words p -> 0 <= bias -> placed bias e target ps s -> place_program p header bias e target s = Ok s' ->
  placed bias e target (ps ++ [p]) s'.
Proof.
  intros Hw Hb [Ha He Hh] E. unfold place_program in E. fold (is_load p) in E.
  assert (forall p0, p0 ∈ ps -> p0 ∈ ps ++ [p]) as Hin by (intros; apply elem_of_app; by left).
  destruct (is_load p) eqn:El; cbn [negb] in E.
  2: { injection E as <-. split.
       - intros q [Hq|Hq%list_elem_of_singleton]%elem_of_app Hl; [by apply Ha|congruence].
       - intros Hs. destruct (He Hs) as (q & g & ? & ?). exists q, g. eauto.
       - intros Hs. destruct (Hh Hs) as (q & g & ? & ?). exists q, g. eauto. }
  take_ok E g Eg. pose proof (segment_ok p bias target g Hw Hb Eg) as (Ea & Eo & Ef & _).
  assert (p ∈ ps ++ [p]) as Hp by (apply elem_of_app; right; by left).
  set (mapped := s.1 || ((page_start g <=? e) && (e <? page_end g))) in E.
  assert (forall ph, (ph <> 0 -> ph = s.2 \/ maps_headers ph g) -> placed bias e target (ps ++ [p]) (mapped, ph)) as Hres.
  { intros ph Hph. split; cbn.
    - intros q [Hq|Hq%list_elem_of_singleton]%elem_of_app Hl; [by apply Ha|]. subst q. by exists g.
    - intros [Hs|[H1%Z.leb_le H2%Z.ltb_lt]%andb_true_iff]%orb_true_iff; [|exists p, g; by split_and!].
      destruct (He Hs) as (q & g' & ? & ?). exists q, g'. eauto.
    - intros Hne. destruct (Hph Hne) as [->|Hm]; [|exists p, g; by split_and!].
      destruct (Hh Hne) as (q & g' & ? & ?). exists q, g'. eauto. }
  destruct (Z.eqb_spec s.2 0) as [E0|_]; [|injection E as <-; apply Hres; by left].
  destruct (checked_sub (h_phoff header) (p_offset p)) as [rel|] eqn:Er; [|injection E as <-; apply Hres; by left].
  apply checked_sub_some in Er as [-> Hrel]. match type of E with (if ?b then _ else _) = _ => destruct b eqn:Ec end; [|injection E as <-; apply Hres; by left].
  apply andb_true_iff in Ec as [Ec1%Z.leb_le Ec2%Z.leb_le]. take_ok E ph Eph. injection E as <-.
  apply checked_add_some in Eph as [-> _]. apply Hres. intros _. right. unfold maps_headers, saturating_sub in *. lia.
Qed.

Lemma place_loop_ok bias e target n index ps qs s s' :
  0 <= bias -> 0 <= index -> programs_at index qs -> length qs = n -> placed bias e target ps s ->
  place_loop n bytes header bias e target index s = Ok s' -> placed bias e target (ps ++ qs) s'.
Proof using Hbytes Hphoff.
  revert index ps qs s. induction n as [|n IH]; intros index ps qs s Hb Hi Hq Hl Hs E; cbn [place_loop] in E.
  - injection E as <-. destruct qs; [|done]. by rewrite app_nil_r.
  - destruct qs as [|q qs]; [done|]. pose proof (Hq 0%nat q eq_refl) as Ep. rewrite Z.add_0_r in Ep. rewrite Ep in E.
    take_ok E p' Ep'. injection Ep' as <-. take_ok E s1 E1.
    pose proof (program_range bytes header index q Hbytes Hphoff Hi Ep) as Hw.
    change (ps ++ q :: qs) with (ps ++ [q] ++ qs). rewrite app_assoc. eapply (IH (index + 1)); try done; [lia| |by injection Hl|].
    + intros i p Hp. specialize (Hq (S i) p Hp). rewrite <- Hq. f_equal. lia.
    + by eapply place_program_ok.
Qed.
End planning.

(** ** The header and the segments *)

Lemma parse_header_ok bytes fs m h : Forall byte bytes -> parse_header bytes fs m = Ok h ->
  0 <= h_phoff h < 2 ^ 64 /\ 0 <= h_entry h < 2 ^ 64 /\ 0 < h_phnum h < 2 ^ 16 /\ (h_kind h = ET_EXEC \/ h_kind h = ET_DYN) /\
  h_phoff h + table_size (h_phnum h) <= fs.
Proof.
  intros Hb E. unfold parse_header in E. pass_ok E E0. take_ok E ident Ei.
  pass_ok E E1. pass_ok E E2. take_ok E kind Ek. pass_ok E Ekk. take_ok E mm Em. pass_ok E E3. take_ok E version Ev. pass_ok E E4.
  take_ok E en Ee. take_ok E phoff Ep. take_ok E ehsize Eh. take_ok E phentsize Es. take_ok E phnum En.
  pass_ok E Eg. apply orb_false_iff in Eg as [_ Eg%Z.eqb_neq]. take_ok E room Er.
  apply checked_sub_some in Er as [-> Hr]. pass_ok E Et. apply Z.ltb_ge in Et. injection E as <-. cbn.
  pose proof (read_le_range bytes 24 8 en Hb ltac:(lia) ltac:(lia) Ee). pose proof (read_le_range bytes 32 8 phoff Hb ltac:(lia) ltac:(lia) Ep).
  pose proof (read_le_range bytes 56 2 phnum Hb ltac:(lia) ltac:(lia) En). split; [done|]. split; [done|]. split; [lia|]. split; [|lia].
  apply andb_false_iff in Ekk as [Ek1%negb_false_iff%Z.eqb_eq|Ek1%negb_false_iff%Z.eqb_eq]; [by left|by right].
Qed.

Definition segment_of (bias : Z) (target : Target) (p : Program) : option Segment :=
  if is_load p then match segment p bias target with Ok s => Some s | _ => None end else None.

Lemma segments_programs image ps : programs_at (i_bytes image) (i_header image) 0 ps -> len ps = h_phnum (i_header image) ->
  segments image = omap (segment_of (load_bias (i_plan image)) (i_target image)) ps.
Proof.
  unfold segments. generalize 0 as index. intros index Hp <-. revert index Hp. induction ps as [|p ps IH]; intros index Hp; [done|].
  unfold len. cbn [length]. rewrite seqZ_cons by lia. cbn [omap list_omap].
  pose proof (Hp 0%nat p eq_refl) as E. rewrite Z.add_0_r in E. rewrite E. fold (is_load p).
  replace (Z.pred (Z.of_nat (S (length ps)))) with (len ps) by (unfold len; lia). rewrite IH.
  - unfold segment_of at 2. done.
  - intros i q Hq. specialize (Hp (S i) q Hq). rewrite <- Hp. f_equal. lia.
Qed.

Lemma segments_count bias target ps :
  (forall p, p ∈ ps -> is_load p = true -> exists g, segment p bias target = Ok g) ->
  len (omap (segment_of bias target) ps) = len (filter (fun p => is_load p = true) ps).
Proof.
  induction ps as [|p ps IH]; intros H; [done|]. cbn [omap list_omap].
  specialize (IH (fun q Hq => H q (list_elem_of_further _ _ _ Hq))). unfold segment_of at 1. destruct (is_load p) eqn:El.
  - destruct (H p ltac:(by left) El) as [g ->]. rewrite filter_cons_True by done. unfold len in *. cbn [length]. lia.
  - rewrite filter_cons_False by congruence. done.
Qed.

Lemma page_up_shift v bias e e' : 0 <= v -> 0 <= bias -> bias mod 4096 = 0 ->
  page_up v = Some e -> page_up (v + bias) = Some e' -> e' = e + bias.
Proof.
  intros Hv Hb Hm E E'. apply page_up_eq in E as (? & ? & ?); [|done]. apply page_up_eq in E' as (? & ? & ?); [|lia]. dlia.
Qed.

(** ** What a plan promises *)

Definition segment_safe (fs : Z) (p : Plan) (g : Segment) : Prop :=
  LOWEST_ADDRESS <= image_start p /\ image_start p <= page_start g <= address g /\
  address g + memory_size g <= page_end g <= image_end p /\
  page_start g mod 4096 = 0 /\ page_end g mod 4096 = 0 /\ address g mod 4096 = file_offset g mod 4096 /\
  file_size g <= memory_size g /\ (file_size g = 0 \/ file_offset g + file_size g <= fs).

(** A placed program is a safe segment. *)
Lemma placed_safe fs s p bias target g plan_ :
  load_fits fs s p -> is_load p = true -> 0 <= bias -> bias mod 4096 = 0 -> segment p bias target = Ok g ->
  LOWEST_ADDRESS <= image_start plan_ -> image_start plan_ = lowest s + bias -> image_end plan_ = highest s + bias ->
  segment_safe fs plan_ g.
Proof.
  intros [Hw Hf] Hl Hb Hbm Eg Hlow Es Ee. destruct (Hf Hl) as (Hc & Hlo & Hhi).
  destruct (check_program_ok p fs Hw Hc) as (Hfm & Hfile & Hal & e & Epu).
  destruct (segment_ok p bias target g Hw Hb Eg) as (Ea & Eo & Ef & Em & Hr & _ & Eps & Epe). specialize (Hhi e Epu).
  destruct Hw as (? & ? & ? & ?). unfold LOWEST_ADDRESS in *.
  assert (page_end g = e + bias) as Ege.
  { eapply (page_up_shift (p_vaddr p + p_memsz p) bias); [lia|done|done|done|]. rewrite <- Epe. f_equal. lia. }
  apply page_up_eq in Epe as (? & ? & ?); [|lia].
  assert (address g mod 4096 = p_vaddr p mod 4096) as Eam by (rewrite Ea; dlia).
  assert (page_start g mod 4096 = 0) by (rewrite Eps; dlia). pose proof (Z.mod_pos_bound (p_vaddr p) 4096 ltac:(lia)).
  unfold segment_safe, LOWEST_ADDRESS. rewrite Eam, Eo, Ef, Em in *. repeat split; (done || lia).
Qed.

(** What a run of [plan] that ends well has found, over the programs [ps] and
    the result [s] of the first loop. *)
Record planned (fs base : Z) (image : Image) (ps : list Program) (s : survey) : Prop := {
  pn_phnum : h_phnum (i_header image) < 2 ^ 16;
  pn_header : h_kind (i_header image) = ET_EXEC \/ h_kind (i_header image) = ET_DYN;
  pn_programs : programs_at (i_bytes image) (i_header image) 0 ps;
  pn_length : len ps = h_phnum (i_header image);
  pn_surveyed : surveyed fs ps s;
  pn_lowest : lowest s <> UINT64_MAX;
  pn_loads : load_count (i_plan image) = loads s /\ loads s <> 0;
  pn_bias : 0 <= load_bias (i_plan image) /\
    (h_kind (i_header image) = ET_EXEC -> load_bias (i_plan image) = 0) /\
    (h_kind (i_header image) = ET_DYN -> load_bias (i_plan image) = base - lowest s /\ base mod 4096 = 0);
  pn_start : image_start (i_plan image) = lowest s + load_bias (i_plan image);
  pn_end : image_end (i_plan image) = highest s + load_bias (i_plan image) /\ image_end (i_plan image) <= user_limit (i_target image);
  pn_placed : placed (i_header image) (load_bias (i_plan image)) (entry (i_plan image)) (i_target image) ps (true, phdr (i_plan image));
  pn_entry : LOWEST_ADDRESS <= entry (i_plan image) < user_limit (i_target image);
  pn_interp : interp s = None /\ interp_size (i_plan image) = 0 \/
    interp s = Some (interp_offset (i_plan image), interp_size (i_plan image)) /\ phdr (i_plan image) <> 0 }.

Lemma surveyed_start fs : surveyed fs [] (Survey UINT64_MAX 0 0 None).
Proof. by split; [|constructor|left|]. Qed.

Lemma placed_start header bias e target : placed header bias e target [] (false, 0).
Proof. split; [intros p Hp; by apply not_elem_of_nil in Hp|done|done]. Qed.

Lemma plan_bias header base s bias :
  (if h_kind header =? ET_EXEC then if lowest s <? LOWEST_ADDRESS then Err ElfRange else Ok 0
   else or_err (checked_sub base (lowest s)) ElfRange) = Ok bias ->
  Z.land base (PAGE_SIZE - 1) = 0 ->
  0 <= bias /\ (h_kind header = ET_EXEC -> bias = 0) /\ (h_kind header = ET_DYN -> bias = base - lowest s /\ base mod 4096 = 0).
Proof.
  intros E Hm. rewrite page_offset in Hm. destruct (Z.eqb_spec (h_kind header) ET_EXEC) as [->|Hn].
  - pass_ok E El. injection E as <-. done.
  - apply or_err_ok, checked_sub_some in E as [-> ?]. split; [lia|]. done.
Qed.

Lemma plan_ok bytes fs base target image : Forall byte bytes -> plan bytes fs base target = Ok image ->
  i_bytes image = bytes /\ i_target image = target /\ exists ps s, planned fs base image ps s.
Proof.
  intros Hb E. unfold plan in E. take_ok E header Eh. destruct (parse_header_ok _ _ _ _ Hb Eh) as (Ho & _ & Hn & Hk & _).
  take_ok E span Es. pass_ok E E0. take_ok E s Ev. pass_ok E E1.
  apply orb_false_iff in E1 as [[El%Z.eqb_neq Elo%Z.eqb_neq]%orb_false_iff _]. pass_ok E E2. apply negb_false_iff, Z.eqb_eq in E2.
  take_ok E bias Eb. pose proof (plan_bias header base s bias Eb E2) as Hbias. take_ok E iend Eie. apply checked_add_some in Eie as [-> _].
  pass_ok E E3. apply Z.ltb_ge in E3. take_ok E start Est. apply checked_add_some in Est as [-> _].
  take_ok E en Een. apply checked_add_some in Een as [-> _]. take_ok E pl Ep. destruct pl as [mapped ph].
  pass_ok E E4. rewrite !orb_false_iff, negb_false_iff, Z.ltb_ge, Z.leb_gt in E4. destruct E4 as [[E4 E5] ->]. pass_ok E E6.
  destruct (survey_loop_ok bytes header fs Hb (proj1 Ho) _ 0 [] _ _ ltac:(lia) (surveyed_start fs) Ev) as (ps & Hl & Hps & Hs).
  pose proof (place_loop_ok bytes header Hb (proj1 Ho) bias _ target _ 0 [] ps _ _ (proj1 Hbias) ltac:(lia) Hps Hl
    (placed_start header bias _ target) Ep) as Hp. cbn [app] in Hs, Hp.
  destruct (default (0, 0) (interp s)) as [io isz] eqn:Ed. injection E as <-. split; [done|]. split; [done|]. exists ps, s.
  split; try done; cbn.
  - lia.
  - unfold len. lia.
  - destruct (interp s) as [[o n]|]; cbn in Ed, E6; injection Ed as <- <-; [right|by left]. split; [done|]. by apply Z.eqb_neq.
Qed.

(** The header of the image is the one that was parsed. *)
Lemma plan_header bytes fs base target image : plan bytes fs base target = Ok image ->
  parse_header bytes fs (machine target) = Ok (i_header image).
Proof.
  unfold plan. intros E. take_ok E header Eh. rewrite Eh. take_ok E span Es. pass_ok E E0. take_ok E s Ev. pass_ok E E1. pass_ok E E2.
  take_ok E bias Eb. take_ok E hi Ei. pass_ok E E3. take_ok E start Est. take_ok E en Een. take_ok E pl Ep. destruct pl as [mapped ph].
  pass_ok E E4. pass_ok E E5. destruct (default _ _). by injection E as <-.
Qed.

(** The image starts at the page of the lowest segment, which is a user page,
    and moved by whole pages. *)
Lemma planned_start fs base image ps s : planned fs base image ps s ->
  load_bias (i_plan image) mod 4096 = 0 /\ LOWEST_ADDRESS <= image_start (i_plan image).
Proof.
  intros [_ Hk _ _ Hs Hlo _ (Hb & Hx & Hd) Est _ Hp _ _]. destruct (sv_lowest _ _ _ Hs) as [|(p & Hin & Hl & Elo)]; [done|].
  assert (load_bias (i_plan image) mod 4096 = 0) as Hm.
  { destruct Hk as [Hk|Hk]; [by rewrite (Hx Hk)|]. destruct (Hd Hk) as [-> ?]. rewrite Elo. dlia. }
  split; [done|]. destruct (pl_all _ _ _ _ _ _ Hp p Hin Hl) as [g Eg].
  assert (program_words p) as Hw by (by eapply list.Forall_forall in Hin; [|exact (sv_fits _ _ _ Hs)]; destruct Hin).
  destruct (segment_ok p _ _ g Hw Hb Eg) as (Ea & _ & _ & _ & Hr & _). rewrite Est, Elo. unfold LOWEST_ADDRESS in *. dlia.
Qed.

Lemma planned_segments fs base image ps s : planned fs base image ps s ->
  len (segments image) = load_count (i_plan image) /\ Forall (segment_safe fs (i_plan image)) (segments image).
Proof.
  intros Hn. destruct (planned_start _ _ _ _ _ Hn) as [Hm Hlow]. destruct Hn as [_ _ Hps Hl Hs _ [-> _] (Hb & _) Est [Een _] Hp _ _].
  rewrite (segments_programs image ps Hps Hl). split.
  - rewrite segments_count by (exact (pl_all _ _ _ _ _ _ Hp)). by rewrite (sv_count _ _ _ Hs).
  - apply list.Forall_forall. intros g (p & Hin & Eg)%list_elem_of_omap. unfold segment_of in Eg. destruct (is_load p) eqn:El; [|done].
    destruct (segment p _ _) as [g'| |] eqn:Es; [|done..]. injection Eg as ->.
    eapply (placed_safe fs s p); try done. by eapply list.Forall_forall in Hin; [|exact (sv_fits _ _ _ Hs)].
Qed.

Lemma planned_has fs base image ps s (P : Segment -> Prop) : planned fs base image ps s ->
  (exists p g, p ∈ ps /\ is_load p = true /\ segment p (load_bias (i_plan image)) (i_target image) = Ok g /\ P g) ->
  Exists P (segments image).
Proof.
  intros [_ _ Hps Hl _ _ _ _ _ _ _ _ _] (p & g & Hin & El & Eg & Hg). apply list.Exists_exists. exists g. split; [|done].
  rewrite (segments_programs image ps Hps Hl). apply list_elem_of_omap. exists p. split; [done|]. unfold segment_of. by rewrite El, Eg.
Qed.

(** C11. A plan the loader accepts is safe to carry out: it has as many segments
    as it announces and at least one; each of them is at or above the lowest user
    address, inside the image and so below the limit of user space, rounded to
    whole pages, congruent with its place in the file and inside the file; a
    fixed image is not moved and a position independent one starts at the
    preferred base; the entry point is a user address in a mapped page; program
    headers that are announced are in the file part of a segment; and an
    interpreter path is inside the file and short, and comes with program
    headers. *)
Theorem elf_plan_safe bytes fs base target image :
  Forall byte bytes -> plan bytes fs base target = Ok image ->
  let p := i_plan image in
  len (segments image) = load_count p /\ segments image <> [] /\
  Forall (segment_safe fs p) (segments image) /\ image_end p <= user_limit target /\
  (h_kind (i_header image) = ET_EXEC -> load_bias p = 0) /\
  (h_kind (i_header image) = ET_DYN -> image_start p = base) /\
  LOWEST_ADDRESS <= entry p < user_limit target /\ Exists (maps_entry (entry p)) (segments image) /\
  (phdr p = 0 \/ Exists (maps_headers (i_header image) (phdr p)) (segments image)) /\
  (interp_size p = 0 \/ 2 <= interp_size p <= 4096 /\ interp_offset p + interp_size p <= fs /\ phdr p <> 0).
Proof.
  intros Hb E. cbv zeta. destruct (plan_ok _ _ _ _ _ Hb E) as (_ & Et & ps & s & Hn). destruct (planned_segments _ _ _ _ _ Hn) as [Hl Hsafe].
  pose proof (planned_has _ _ _ _ _ (maps_entry (entry (i_plan image))) Hn) as He.
  pose proof (planned_has _ _ _ _ _ (maps_headers (i_header image) (phdr (i_plan image))) Hn) as Hh.
  destruct Hn as [_ _ _ _ Hs _ [El Hnz] (_ & Hx & Hd) Est [_ Hend] Hp Hent Hi]. rewrite Et in *.
  split; [done|]. split; [intros Hnil; rewrite Hnil in Hl; unfold len in Hl; cbn in Hl; lia|]. split; [done|]. split; [done|]. split; [done|].
  split; [intros Hk; destruct (Hd Hk); lia|]. split; [done|]. split; [apply He, (pl_entry _ _ _ _ _ _ Hp); done|].
  split.
  - destruct (Z.eq_dec (phdr (i_plan image)) 0); [by left|right]. apply Hh, (pl_headers _ _ _ _ _ _ Hp). done.
  - destruct Hi as [[_ ?]|[Ei ?]]; [by left|right]. destruct (sv_interp _ _ _ Hs _ _ Ei) as (? & ? & ?). done.
Qed.

(** A position independent program of one page: the header and one program
    header, loaded where they are. *)
Definition small_elf : list Z :=
  [127; 69; 76; 70; 2; 1; 1; 0; 0; 0; 0; 0; 0; 0; 0; 0] ++ le_bytes 2 3 ++ le_bytes 2 62 ++ le_bytes 4 1 ++
  le_bytes 8 100 ++ le_bytes 8 64 ++ le_bytes 8 0 ++ le_bytes 4 0 ++ le_bytes 2 64 ++ le_bytes 2 56 ++ le_bytes 2 1 ++
  le_bytes 6 0 ++
  le_bytes 4 1 ++ le_bytes 4 5 ++ le_bytes 8 0 ++ le_bytes 8 0 ++ le_bytes 8 0 ++ le_bytes 8 120 ++ le_bytes 8 120 ++ le_bytes 8 4096.

Definition small_plan : Plan := MkPlan 3 1 1 65536 65636 65600 65536 69632 0 0.

Lemma small_bytes : Forall byte small_elf.
Proof.
  apply Forall_forall. intros x Hx. assert (forallb (fun b => (0 <=? b) && (b <? 256)) small_elf = true) as H by reflexivity.
  rewrite forallb_forall in H. specialize (H x Hx). unfold byte. lia.
Qed.

Lemma elf_plan_safe_witness :
  Forall byte small_elf /\
  exists image, plan small_elf 120 65536 (MkTarget 62 (2 ^ 47)) = Ok image /\ i_plan image = small_plan /\
    Forall (segment_safe 120 small_plan) (segments image) /\ Exists (maps_entry 65636) (segments image).
Proof.
  split; [exact small_bytes|]. eexists. split; [vm_compute; reflexivity|]. split; [reflexivity|].
  pose proof (elf_plan_safe small_elf 120 65536 (MkTarget 62 (2 ^ 47)) _ small_bytes eq_refl) as (_ & _ & Hs & _ & _ & _ & _ & He & _).
  split; [exact Hs|exact He].
Defined.
