(* ===== verification/ElfImage.v ===== *)
(** * Reading the plan of a file (kernel/core/elf.c)

    The kernel reads the headers of a file and asks for its plan twice: once for
    the number of segments, once for the segments.  What it reads is a prefix of
    the file; here it is shown that the prefix is enough. *)

From S2P Require Import Prelude RustStd Elf ElfSpec.

Definition EM_X86_64 : Z := 62.
Definition ELF_HEADER_SIZE : Z := 64.
Definition USER_ADDRESS_LIMIT : Z := 140737488355328.
Definition VFS_PATH_MAX : Z := 4096.

(** A file: its length, and what [vfs_read] answers for an offset and a length,
    with the bytes it put into the buffer. *)
Record vfs_file := VfsFile { f_length : Z; f_read : Z -> Z -> Z * list Z }.

Record loaded_elf := LoadedElf { l_plan : Plan; l_segments : option (list Segment) }.

Definition release_image (loaded : loaded_elf) : loaded_elf := LoadedElf (l_plan loaded) None.

Section allocator.
(** [kmalloc] for the headers, and for an array of so many segments with what
    the memory held before. *)
Context (kmalloc_bytes : Z -> bool) (kmalloc_segments : Z -> option (list Segment)).

Definition read_headers (file : vfs_file) : option (list Z * Z) :=
  if f_length file <? ELF_HEADER_SIZE then None
  else
    let '(got, probe) := f_read file 0 ELF_HEADER_SIZE in
    if negb (got =? ELF_HEADER_SIZE) then None
    else
      let span := tunix_elf_header_span (Some probe) ELF_HEADER_SIZE (f_length file) EM_X86_64 in
      if span <? ELF_HEADER_SIZE then None
      else if negb (kmalloc_bytes span) then None
      else
        let '(got, headers) := f_read file 0 span in
        if negb (got =? span) then None else Some (headers, span).

Definition plan_image (file : vfs_file) (preferred_base : Z) (loaded : loaded_elf) : loaded_elf * Z :=
  match read_headers file with
  | None => (loaded, -1)
  | Some (headers, length) =>
      let '(p, _, status) :=
        tunix_elf_plan (Some headers) length (f_length file) EM_X86_64 preferred_base USER_ADDRESS_LIMIT (l_plan loaded) None 0 in
      let loaded := LoadedElf p (l_segments loaded) in
      let '(loaded, status) :=
        if status =? 0 then
          match kmalloc_segments (load_count p) with
          | None => (LoadedElf p None, -1)
          | Some array =>
              let '(p', array', status') :=
                tunix_elf_plan (Some headers) length (f_length file) EM_X86_64 preferred_base USER_ADDRESS_LIMIT p (Some array)
                  (load_count p) in
              (LoadedElf p' array', if negb (status' =? 0) then -1 else status)
          end
        else (loaded, status) in
      (if negb (status =? 0) then release_image loaded else loaded, status)
  end.
End allocator.

(** The path of the interpreter, when there is one: -1, 0 or 1, and the path. *)
Definition interpreter_path (file : vfs_file) (p : Plan) (path : list Z) : Z * list Z :=
  if interp_size p =? 0 then (0, <[0%nat := 0]> path)
  else if VFS_PATH_MAX <? interp_size p then (-1, path)
  else
    let '(got, bytes) := f_read file (interp_offset p) (interp_size p) in
    let path := splice path 0 bytes in
    if negb (got =? interp_size p) then (-1, path)
    else (if negb (tunix_elf_interp_valid (Some path) (interp_size p) =? 0) then 1 else -1, path).

(** ** Reading from a prefix *)

Section prefix.
Context (b t : list Z).

Lemma get_range_prefix i j : 0 <= i -> j <= len b -> get_range (b ++ t) i j = get_range b i j.
Proof.
  intros Hi Hj. unfold get_range. rewrite len_app. pose proof (len_nonneg t).
  rewrite (proj2 (Z.leb_le j (len b + len t))), (proj2 (Z.leb_le j (len b))) by lia.
  destruct (Z.leb_spec i j); [|done]. cbn [andb]. f_equal. unfold slice, len in *.
  rewrite drop_app_le, take_app_le by (rewrite ?length_drop; lia). done.
Qed.

Lemma field_prefix i n : 0 <= i -> i + n <= len b -> field (b ++ t) i n = field b i n.
Proof.
  intros Hi Hn. unfold field. destruct (checked_add i n) as [e|] eqn:E; [|done]. apply checked_add_some in E as [-> _].
  by apply get_range_prefix.
Qed.

Lemma read_le_prefix i n : 0 <= i -> i + n <= len b -> read_le (b ++ t) i n = read_le b i n.
Proof. intros. unfold read_le. by rewrite field_prefix. Qed.

Lemma parse_header_prefix fs m : 64 <= len b -> parse_header (b ++ t) fs m = parse_header b fs m.
Proof.
  intros Hb. unfold parse_header. rewrite len_app. pose proof (len_nonneg t). unfold HEADER_SIZE.
  rewrite (proj2 (Z.ltb_ge (len b + len t) 64)), (proj2 (Z.ltb_ge (len b) 64)) by lia.
  by rewrite field_prefix, !read_le_prefix by lia.
Qed.

Lemma header_span_prefix fs m : 64 <= len b -> header_span (b ++ t) fs m = header_span b fs m.
Proof. intros. unfold header_span. by rewrite parse_header_prefix. Qed.

Lemma program_prefix header index :
  0 <= h_phoff header -> 0 <= index < h_phnum header -> h_phoff header + h_phnum header * 56 <= len b ->
  program (b ++ t) header index = program b header index.
Proof.
  intros Ho Hi Hl. unfold program. destruct (checked_add _ _) as [at_|] eqn:E; [|done]. apply checked_add_some in E as [-> _].
  rewrite field_prefix by (unfold PROGRAM_SIZE; lia). done.
Qed.

Lemma survey_loop_prefix n header fs index s :
  0 <= h_phoff header -> h_phoff header + h_phnum header * 56 <= len b -> 0 <= index -> index + Z.of_nat n <= h_phnum header ->
  survey_loop n (b ++ t) header fs index s = survey_loop n b header fs index s.
Proof.
  intros Ho Hl. revert index s. induction n as [|n IH]; intros index s Hi Hn; [done|]. cbn [survey_loop].
  rewrite program_prefix by lia. destruct (or_err _ _); [|done..]. cbn [and_then]. destruct (survey_program _ _ _); [|done..].
  cbn [and_then]. apply IH; lia.
Qed.

Lemma place_loop_prefix n header bias e target index s :
  0 <= h_phoff header -> h_phoff header + h_phnum header * 56 <= len b -> 0 <= index -> index + Z.of_nat n <= h_phnum header ->
  place_loop n (b ++ t) header bias e target index s = place_loop n b header bias e target index s.
Proof.
  intros Ho Hl. revert index s. induction n as [|n IH]; intros index s Hi Hn; [done|]. cbn [place_loop].
  rewrite program_prefix by lia. destruct (or_err _ _); [|done..]. cbn [and_then]. destruct (place_program _ _ _ _ _ _); [|done..].
  cbn [and_then]. apply IH; lia.
Qed.
End prefix.

(** The same image, read from a longer piece of the file. *)
Definition read_from (bytes : list Z) (m : outcome elf_error Image) : outcome elf_error Image :=
  match m with
  | Ok image => Ok (MkImage bytes (i_header image) (i_plan image) (i_target image))
  | Err e => Err e
  | Unfinished => Unfinished
  end.

Lemma header_span_ok b fs m span : Forall byte b -> header_span b fs m = Ok span ->
  exists header, parse_header b fs m = Ok header /\ 64 <= len b /\ 0 <= h_phoff header /\
    0 <= h_phnum header /\ span = h_phoff header + h_phnum header * 56 /\ span <= fs /\ 0 <= span <= 65536.
Proof.
  intros Hb E. unfold header_span in E. take_ok E header Eh. exists header. split; [done|].
  destruct (parse_header_ok _ _ _ _ Hb Eh) as (Ho & _ & Hn & _).
  assert (table_size (h_phnum header) = h_phnum header * 56) as Et by (unfold table_size, UINT64_MAX; lia).
  take_ok E e Ee. apply checked_add_some in Ee as [-> _]. pass_ok E Eg. injection E as <-. unfold MAX_HEADER_SPAN in Eg.
  apply orb_false_iff in Eg as [?%Z.ltb_ge ?%Z.ltb_ge]. unfold parse_header in Eh. pass_ok Eh El.
  apply orb_false_iff in El as [_ ?%Z.ltb_ge]. unfold HEADER_SIZE in *. rewrite Et in *. lia.
Qed.

(** The bytes that [header_span] asks for are enough for the plan. *)
Lemma plan_prefix b t fs base target span : Forall byte b -> header_span b fs (machine target) = Ok span -> span <= len b ->
  plan (b ++ t) fs base target = read_from (b ++ t) (plan b fs base target).
Proof.
  intros Hb Hs Hl. destruct (header_span_ok _ _ _ _ Hb Hs) as (header & Eh & H64 & Ho & Hn & Esp & _).
  unfold plan. rewrite parse_header_prefix, header_span_prefix, Eh, Hs by done. cbn [and_then].
  rewrite len_app. pose proof (len_nonneg t). rewrite (proj2 (Z.ltb_ge (len b + len t) span)), (proj2 (Z.ltb_ge (len b) span)) by lia.
  rewrite survey_loop_prefix by lia. destruct (survey_loop _ _ _ _ _ _) as [s| |]; [|done..]. cbn [and_then].
  destruct (_ || _); [done|]. destruct (negb _); [done|].
  match goal with |- and_then ?m _ = _ => destruct m as [bias| |]; [|done..] end. cbn [and_then].
  destruct (or_err (checked_add (highest s) bias) _) as [hi| |]; [|done..]. cbn [and_then]. destruct (_ <? _); [done|].
  destruct (or_err (checked_add (lowest s) bias) _) as [lo| |]; [|done..]. cbn [and_then].
  destruct (or_err (checked_add (h_entry header) bias) _) as [en| |]; [|done..]. cbn [and_then].
  rewrite place_loop_prefix by lia. destruct (place_loop _ _ _ _ _ _ _ _) as [[mapped ph]| |]; [|done..]. cbn [and_then].
  destruct (_ || _); [done|]. destruct (_ && _); [done|]. by destruct (default _ _).
Qed.

Lemma segments_prefix b t image :
  0 <= h_phoff (i_header image) -> h_phoff (i_header image) + h_phnum (i_header image) * 56 <= len b -> i_bytes image = b ->
  segments (MkImage (b ++ t) (i_header image) (i_plan image) (i_target image)) = segments image.
Proof.
  intros Ho Hl Hb. unfold segments. cbn. rewrite Hb.
  assert (forall index, index ∈ seqZ 0 (h_phnum (i_header image)) -> program (b ++ t) (i_header image) index = program b (i_header image) index) as Hp.
  { intros index Hi%elem_of_seqZ. apply program_prefix; lia. }
  induction (seqZ 0 (h_phnum (i_header image))) as [|i rest IH]; [done|]. cbn [omap list_omap]. rewrite Hp by (by left).
  rewrite IH; [done|]. intros index Hin. apply Hp. by right.
Qed.

(** ** Writing the segments *)

Lemma write_segments_ok ss written capacity out :
  0 <= written -> written + len ss <= capacity -> capacity <= len out -> capacity < 2 ^ 64 ->
  write_segments ss written capacity out = (splice out written ss, written + len ss, true).
Proof.
  revert written out. induction ss as [|s ss IH]; intros written out Hw Hs Hc Hm.
  - cbn. unfold splice, len. cbn. rewrite Z.add_0_r. replace (Z.to_nat written + 0)%nat with (Z.to_nat written) by lia.
    by rewrite take_drop.
  - cbn [write_segments]. unfold len in *. cbn [length] in *. rewrite (proj2 (Z.leb_gt capacity written)) by lia.
    unfold saturating_add, UINT64_MAX. rewrite Z.min_l by lia.
    rewrite IH; [|lia|lia|rewrite length_insert; lia|lia].
    replace (written + 1 + Z.of_nat (length ss)) with (written + Z.of_nat (S (length ss))) by lia. do 2 f_equal.
    unfold splice. replace (Z.to_nat (written + 1)) with (S (Z.to_nat written)) by lia.
    rewrite (take_S_r _ _ s) by (apply list_lookup_insert_eq; lia).
    rewrite take_insert_ge, drop_insert_lt by lia. rewrite <- app_assoc. cbn. f_equal. f_equal. f_equal. f_equal. lia.
Qed.

Definition tunix_target : Target := MkTarget EM_X86_64 USER_ADDRESS_LIMIT.

(** A file that can be read: a read inside it gives all the bytes asked for. *)
Definition readable (file : vfs_file) (content : list Z) : Prop :=
  Forall byte content /\ f_length file = len content /\
  forall o n, 0 <= o -> 0 <= n -> o + n <= len content -> f_read file o n = (n, slice content o n).

Lemma content_prefix (content : list Z) n : content = slice content 0 n ++ drop (Z.to_nat n) content.
Proof. unfold slice. cbn. by rewrite take_drop. Qed.

Lemma ffi_slice_all l n : len l = n -> 0 < n < 2 ^ 63 -> ffi_slice (Some l) n = l.
Proof.
  intros Hl Hn. cbn. rewrite (proj2 (Z.eqb_neq n 0)), (proj2 (Z.ltb_ge (2 ^ 63 - 1) n)) by lia. apply take_ge. unfold len in Hl. lia.
Qed.

Lemma len_prefix (content : list Z) n : 0 <= n <= len content -> len (slice content 0 n) = n.
Proof. intros. unfold len in *. rewrite length_slice by lia. lia. Qed.

(** What [read_headers] reads. *)
Lemma read_headers_eq kb file content : readable file content -> 
  read_headers kb file =
    match header_span content (f_length file) EM_X86_64 with
    | Ok span => if (span <? 64) || negb (kb span) then None else Some (slice content 0 span, span)
    | _ => None
    end.
Proof.
  intros (Hb & Hl & Hr). unfold read_headers, ELF_HEADER_SIZE. destruct (Z.ltb_spec (f_length file) 64) as [Hs|Hs].
  { unfold header_span, parse_header. by rewrite (proj2 (Z.ltb_lt (f_length file) 64)). }
  rewrite Hr by lia. cbn [negb Z.eqb]. unfold tunix_elf_header_span.
  rewrite ffi_slice_all by (try apply len_prefix; lia).
  assert (header_span content (f_length file) EM_X86_64 = header_span (slice content 0 64) (f_length file) EM_X86_64) as ->.
  { rewrite (content_prefix content 64) at 1. apply header_span_prefix. rewrite len_prefix; lia. }
  destruct (header_span (slice content 0 64) _ _) as [span| |] eqn:E; [|done..].
  destruct (header_span_ok _ _ _ _ (slice_bytes content 0 64 Hb) E) as (_ & _ & _ & _ & _ & _ & Hfs & Hsp).
  rewrite (proj2 (Z.ltb_lt span (2 ^ 63))) by lia. destruct (span <? 64); [done|]. cbn [orb]. destruct (kb span); [|done]. cbn [negb].
  rewrite Hr by lia. by rewrite Z.eqb_refl.
Qed.

(** The two calls of [tunix_elf_plan]. *)
Lemma elf_plan_first headers fs base p : 0 < len headers < 2 ^ 63 ->
  tunix_elf_plan (Some headers) (len headers) fs EM_X86_64 base USER_ADDRESS_LIMIT p None 0 =
    match plan headers fs base tunix_target with
    | Ok image => (i_plan image, None, 0)
    | _ => (p, None, -1)
    end.
Proof. intros H. unfold tunix_elf_plan. rewrite ffi_slice_all by (done || lia). done. Qed.

Lemma elf_plan_second headers fs base p array image : Forall byte headers -> 0 < len headers < 2 ^ 63 ->
  plan headers fs base tunix_target = Ok image -> len array = load_count (i_plan image) ->
  tunix_elf_plan (Some headers) (len headers) fs EM_X86_64 base USER_ADDRESS_LIMIT p (Some array) (load_count (i_plan image)) =
    (i_plan image, Some (segments image), 0).
Proof.
  intros Hb H E Ha. unfold tunix_elf_plan. rewrite ffi_slice_all by (done || lia). fold tunix_target. rewrite E, Z.ltb_irrefl.
  destruct (plan_ok _ _ _ _ _ Hb E) as (_ & _ & ps & s & Hn). destruct (planned_segments _ _ _ _ _ Hn) as [Hl _].
  assert (load_count (i_plan image) < 2 ^ 64).
  { destruct (pn_loads _ _ _ _ _ Hn) as [-> _]. rewrite (sv_count _ _ _ (pn_surveyed _ _ _ _ _ Hn)).
    pose proof (pn_length _ _ _ _ _ Hn). pose proof (length_filter (fun p => is_load p = true) ps). pose proof (pn_phnum _ _ _ _ _ Hn).
    unfold len in *. lia. }
  rewrite write_segments_ok by lia. rewrite Hl, Z.add_0_l, Z.eqb_refl. cbn [andb].
  by rewrite splice_all by lia.
Qed.


