(* ===== verification/VmmSpaces.v ===== *)
(** * The table of address spaces (kernel/mm/vmm.c, space_known to space_remove)

    The kernel finds the record of an address space by the address of its root
    table, in a hash table with linear probing: a slot is NULL or a pointer to a
    [struct vmm_space].  Deleting closes the gap by moving back the entries that
    would no longer be found.  The records live in [objects], indexed by their
    address, so that reading one that was freed is a fault. *)

From S2P Require Import Prelude Pmm.

Definition VMM_USAGE_ANON : Z := 0.
Definition VMM_USAGE_FILE : Z := 1.
Definition VMM_USAGE_SHMEM : Z := 2.
Definition VMM_USAGE_SWAP : Z := 3.
Definition VMM_USAGE_KINDS : Z := 4.

Record vmm_space := VmmSpace { cr3 : Z; pages : list Z }.

Definition objects : Type := gmap Z vmm_space.

(** [space_slots], [space_capacity], [space_count], [last_space], and where the
    slots are: in [boot_space_slots], or in pages from the page allocator. *)
Record registry := Registry {
  slots : list (option Z); capacity : Z; count : Z; last_space : option Z; slots_physical : option Z }.

Definition registry_boot : registry := Registry (replicate 512 None) 512 0 None None.

Definition space_home (cr3 capacity : Z) : Z :=
  Z.land (Z.shiftr (u64 (Z.shiftr cr3 12 * 0x9E3779B97F4A7C15)) 32) (capacity - 1).

Definition read_space (o : objects) (p : Z) : res vmm_space :=
  match o !! p with
  | Some space => Ret space
  | None => Fault
  end.

Fixpoint known_loop (fuel : nat) (o : objects) (slots : list (option Z)) (capacity key at_ : Z) : res (option Z) :=
  match fuel with
  | O => Fault
  | S fuel =>
      slot ← rd slots at_;
      match slot with
      | None => Ret None
      | Some p =>
          space ← read_space o p;
          if cr3 space =? key then Ret (Some p)
          else known_loop fuel o slots capacity key (Z.land (at_ + 1) (capacity - 1))
      end
  end.

(** Each loop over the slots stops at an empty one, at the latest after a turn
    around the table. *)
Definition space_known (o : objects) (r : registry) (key : Z) : res (option Z) :=
  known_loop (length (slots r)) o (slots r) (capacity r) key (space_home key (capacity r)).

Fixpoint place_slot (fuel : nat) (slots : list (option Z)) (capacity at_ : Z) : res Z :=
  match fuel with
  | O => Fault
  | S fuel =>
      slot ← rd slots at_;
      match slot with
      | None => Ret at_
      | Some _ => place_slot fuel slots capacity (Z.land (at_ + 1) (capacity - 1))
      end
  end.

Definition space_place (o : objects) (slots : list (option Z)) (capacity p : Z) : res (list (option Z)) :=
  space ← read_space o p;
  at_ ← place_slot (length slots) slots capacity (space_home (cr3 space) capacity);
  wr slots at_ (Some p).

(** The loop of [space_add] that fills a larger table. *)
Definition rehash (o : objects) (old : list (option Z)) (old_capacity capacity : Z) (new : list (option Z)) : res (list (option Z)) :=
  for_range 0 old_capacity 1 (fun index new =>
    slot ← rd old index;
    match slot with
    | None => Ret new
    | Some p => space_place o new capacity p
    end) new.

(** The slots of [space_remove] from the hole on. *)
Fixpoint close_gap (fuel : nat) (o : objects) (slots : list (option Z)) (capacity at_ next : Z) : res (list (option Z)) :=
  match fuel with
  | O => Fault
  | S fuel =>
      slot ← rd slots next;
      match slot with
      | None => Ret slots
      | Some p =>
          space ← read_space o p;
          let home := space_home (cr3 space) capacity in
          let mask := capacity - 1 in
          if Z.land (u64 (next - at_)) mask <=? Z.land (u64 (next - home)) mask then
            slots ← wr slots at_ (Some p);
            slots ← wr slots next None;
            close_gap fuel o slots capacity next (Z.land (next + 1) mask)
          else close_gap fuel o slots capacity at_ (Z.land (next + 1) mask)
      end
  end.

Fixpoint find_loop (fuel : nat) (o : objects) (slots : list (option Z)) (capacity key at_ : Z) : res (option Z) :=
  match fuel with
  | O => Fault
  | S fuel =>
      slot ← rd slots at_;
      match slot with
      | None => Ret None
      | Some p =>
          space ← read_space o p;
          if negb (cr3 space =? key) then find_loop fuel o slots capacity key (Z.land (at_ + 1) (capacity - 1))
          else Ret (Some at_)
      end
  end.

Definition space_remove (o : objects) (r : registry) (key : Z) : res registry :=
  if key =? 0 then Ret r
  else
    let mask := capacity r - 1 in
    found ← find_loop (length (slots r)) o (slots r) (capacity r) key (space_home key (capacity r));
    match found with
    | None => Ret r
    | Some at_ =>
        slot ← rd (slots r) at_;
        let last := if bool_decide (last_space r = slot) then None else last_space r in
        emptied ← wr (slots r) at_ None;
        closed ← close_gap (length (slots r)) o emptied (capacity r) at_ (Z.land (at_ + 1) mask);
        Ret (Registry closed (capacity r) (u64 (count r - 1)) last (slots_physical r))
    end.

Definition physical_direct_range_valid (physical length : Z) (frames : pmm) : bool :=
  if length =? 0 then physical <? DIRECT_MAP_BYTES
  else if (DIRECT_MAP_BYTES <=? physical) || (DIRECT_MAP_BYTES - physical <? length) then false
  else negb (pmm_physical_range_managed physical length frames =? 0).

(** The pages of [capacity] slots. *)
Definition slot_pages (capacity : Z) : Z := u64 (capacity * 8) / 4096.

(** A larger table: its slots are empty pages from the page allocator. *)
Definition space_grow (o : objects) (r : registry) (frames : pmm) : res (option registry * pmm) :=
  let capacity' := u64 (capacity r * 2) in
  '(physical, frames) ← pmm_alloc_pages (slot_pages capacity') 4096 frames;
  if physical =? 0 then Ret (None, frames)
  else if negb (physical_direct_range_valid physical 1 frames) then Panic "VMM: invalid physical address"
  else
    new ← rehash o (slots r) (capacity r) capacity' (replicate (Z.to_nat capacity') None);
    frames ← match slots_physical r with
             | None => Ret frames
             | Some old =>
                 if pmm_physical_range_managed old 1 frames =? 0 then Panic "VMM: direct-map pointer outside managed RAM"
                 else pmm_free_pages old (slot_pages (capacity r)) frames
             end;
    Ret (Some (Registry new capacity' (count r) (last_space r) (Some physical)), frames).

Definition space_add (o : objects) (r : registry) (frames : pmm) (space : option Z) : res (Z * registry * pmm) :=
  match space with
  | None => Ret (-1, r, frames)
  | Some p =>
      record ← read_space o p;
      if cr3 record =? 0 then Ret (-1, r, frames)
      else
        known ← space_known o r (cr3 record);
        match known with
        | Some _ => Ret (-1, r, frames)
        | None =>
            '(grown, frames) ← (if capacity r <? u64 ((count r + 1) * 2) then space_grow o r frames else Ret (Some r, frames));
            match grown with
            | None => Ret (-1, r, frames)
            | Some r =>
                placed ← space_place o (slots r) (capacity r) p;
                Ret (0, Registry placed (capacity r) (u64 (count r + 1)) (last_space r) (slots_physical r), frames)
            end
        end
  end.

(** The record of an address space; [last_space] remembers the last answer. *)
Definition address_space_registered (o : objects) (r : registry) (mask key : Z) : res (option Z * registry) :=
  let physical := Z.land key mask in
  if physical =? 0 then Ret (None, r)
  else
    hit ← match last_space r with
          | None => Ret None
          | Some p => space ← read_space o p; Ret (if cr3 space =? physical then Some p else None)
          end;
    match hit with
    | Some p => Ret (Some p, r)
    | None =>
        known ← space_known o r physical;
        Ret (known, match known with
                    | Some p => Registry (slots r) (capacity r) (count r) (Some p) (slots_physical r)
                    | None => r
                    end)
    end.

(** ** Distances around the table *)

Definition dist (n a b : Z) : Z := if a <=? b then b - a else b - a + n.

Ltac around := unfold dist in *; repeat case_match; rewrite ?Z.leb_le, ?Z.leb_gt in *; lia.

Definition succ (n i : Z) : Z := if i + 1 =? n then 0 else i + 1.

Lemma land_mask k a : 0 <= k -> Z.land a (2 ^ k - 1) = a mod 2 ^ k.
Proof. intros. by apply land_low. Qed.

Lemma land_succ n k i : n = 2 ^ k -> 0 <= k -> 0 <= i < n -> Z.land (i + 1) (n - 1) = succ n i.
Proof.
  intros -> Hk Hi. rewrite land_mask by done. unfold succ. destruct (Z.eqb_spec (i + 1) (2 ^ k)) as [->|].
  - by rewrite Z.mod_same by lia.
  - rewrite Z.mod_small; lia.
Qed.

Lemma land_dist n k a b : n = 2 ^ k -> 0 <= k <= 64 -> 0 <= a < n -> 0 <= b < n -> Z.land (u64 (b - a)) (n - 1) = dist n a b.
Proof.
  intros -> Hk Ha Hb. rewrite land_mask by lia. unfold u64. rewrite <- Znumtheory.Zmod_div_mod; [|lia|lia|by apply pow2_divide].
  unfold dist. destruct (Z.leb_spec a b); [by apply Z.mod_small; lia|].
  rewrite <- (Z_mod_plus_full _ 1), Z.mul_1_l. apply Z.mod_small. lia.
Qed.

Lemma space_home_range key n k : n = 2 ^ k -> 0 <= k -> 0 <= space_home key n < n.
Proof. intros -> Hk. unfold space_home. rewrite land_mask by done. apply Z.mod_pos_bound. lia. Qed.

(** ** Probing *)

(** The first slot from [i] on, around the table, where [stop] holds. *)
Fixpoint first_stop (fuel : nat) (stop : Z -> bool) (n i : Z) : option Z :=
  match fuel with
  | O => None
  | S fuel => if stop i then Some i else first_stop fuel stop n (succ n i)
  end.

Lemma first_stop_from fuel stop n start i e :
  0 <= start < n -> 0 <= i < n -> dist n start i + Z.of_nat fuel = n ->
  (forall j, 0 <= j < n -> dist n start j < dist n start i -> stop j = false) ->
  0 <= e < n -> stop e = true ->
  exists j, first_stop fuel stop n i = Some j /\ 0 <= j < n /\ stop j = true /\
    forall j', 0 <= j' < n -> dist n start j' < dist n start j -> stop j' = false.
Proof.
  intros Hs. revert i. induction fuel as [|fuel IH]; intros i Hi Hf Hb He Hse.
  - exfalso. assert (dist n start e < dist n start i) by around. by rewrite Hb in Hse.
  - cbn [first_stop]. destruct (stop i) eqn:Ei; [by exists i|].
    assert (dist n start e < dist n start i \/ e = i \/ dist n start i < dist n start e) as [Hlt|[->|Hlt]] by around.
    + by rewrite Hb in Hse.
    + congruence.
    + assert (dist n start (succ n i) = dist n start i + 1) as Hd
        by (unfold succ; destruct (Z.eqb_spec (i + 1) n); around).
      apply IH; [unfold succ; case_match; lia|lia| |done|done].
      intros j Hj Hlj. rewrite Hd in Hlj. destruct (Z.eq_dec j i) as [->|]; [done|]. apply Hb; [done|]. around.
Qed.

Lemma first_stop_ok stop n start e : 0 <= start < n -> 0 <= e < n -> stop e = true ->
  exists j, first_stop (Z.to_nat n) stop n start = Some j /\ 0 <= j < n /\ stop j = true /\
    forall j', 0 <= j' < n -> dist n start j' < dist n start j -> stop j' = false.
Proof. intros Hs He Hse. apply (first_stop_from _ _ _ _ _ e); try done; [around|]. intros j Hj Hlt. around. Qed.

(** ** The table *)

(** The entry of a slot; the entries of all of them. *)
Definition slot_at (ss : list (option Z)) (i : Z) : option Z := mjoin (ss !! Z.to_nat i).
Definition entries (ss : list (option Z)) : list Z := omap id ss.

Definition key_of (o : objects) (p : Z) : Z := match o !! p with Some space => cr3 space | None => 0 end.

Lemma rd_slot ss n i : Z.of_nat (length ss) = n -> 0 <= i < n -> rd ss i = Ret (slot_at ss i).
Proof.
  intros Hl Hi. destruct (lookup_lt_is_Some_2 ss (Z.to_nat i)) as [x Hx]; [lia|].
  unfold slot_at. rewrite Hx. by apply rd_lookup; [lia|].
Qed.

Lemma slot_at_insert ss n i j x : Z.of_nat (length ss) = n -> 0 <= i < n -> 0 <= j ->
  slot_at (<[Z.to_nat i := x]> ss) j = if decide (i = j) then x else slot_at ss j.
Proof.
  intros Hl Hi Hj. unfold slot_at. case_decide as E; [subst j; rewrite list_lookup_insert_eq by lia; by destruct x|].
  rewrite list_lookup_insert_ne by lia. done.
Qed.

Lemma entries_insert ss i p : ss !! i = Some None -> entries (<[i := Some p]> ss) ≡ₚ p :: entries ss.
Proof.
  intros Hi. apply lookup_lt_Some in Hi as Hl. unfold entries. rewrite insert_take_drop by done.
  rewrite <- (take_drop_middle ss i None Hi) at 3. rewrite !list.omap_app. cbn. by rewrite Permutation_middle.
Qed.

Lemma entries_clear ss i p : ss !! i = Some (Some p) -> entries ss ≡ₚ p :: entries (<[i := None]> ss).
Proof.
  intros Hi. apply lookup_lt_Some in Hi as Hl. rewrite <- entries_insert with (i := i) by (by apply list_lookup_insert_eq).
  rewrite list_insert_insert_eq. by rewrite list_insert_id.
Qed.

Lemma entries_room ss n : Z.of_nat (length ss) = n -> Z.of_nat (length (entries ss)) < n -> exists e, 0 <= e < n /\ slot_at ss e = None.
Proof.
  intros Hl Hc. assert (exists i, ss !! i = Some None) as [i Hi].
  { assert (length (entries ss) < length ss)%nat as H by lia. clear Hl Hc. revert H. unfold entries.
    induction ss as [|[p|] ss IH]; cbn; intros H; [lia| |by exists 0%nat]. destruct IH as [i Hi]; [lia|]. by exists (S i). }
  apply lookup_lt_Some in Hi as Hlt. exists (Z.of_nat i). split; [lia|]. unfold slot_at. by rewrite Nat2Z.id, Hi.
Qed.

Lemma slot_at_entry ss i p : slot_at ss i = Some p -> p ∈ entries ss.
Proof.
  unfold slot_at. intros H. destruct (ss !! Z.to_nat i) as [x|] eqn:E; [|done]. cbn in H. subst x.
  apply list_elem_of_omap. exists (Some p). split; [by apply list_elem_of_lookup_2 in E|done].
Qed.

Lemma entry_slot_at ss n p : Z.of_nat (length ss) = n -> p ∈ entries ss -> exists i, 0 <= i < n /\ slot_at ss i = Some p.
Proof.
  intros Hl (x & Hx & E)%list_elem_of_omap. cbn in E. subst x. apply list_elem_of_lookup in Hx as [i Hi].
  apply lookup_lt_Some in Hi as Hlt. exists (Z.of_nat i). split; [lia|]. unfold slot_at. by rewrite Nat2Z.id, Hi.
Qed.

Definition home_of (o : objects) (n p : Z) : Z := space_home (key_of o p) n.

(** The invariant of the slots: no two entries have the same key, and between
    the home of an entry and its slot there is no empty slot but, while one is
    being closed, the [hole]. *)
Record table_ok (o : objects) (n : Z) (hole : option Z) (ss : list (option Z)) : Prop := {
  tb_size : Z.of_nat (length ss) = n;
  tb_live : forall p, p ∈ entries ss -> is_Some (o !! p);
  tb_keys : NoDup (key_of o <$> entries ss);
  tb_path : forall i p j, 0 <= i < n -> slot_at ss i = Some p -> 0 <= j < n ->
    dist n (home_of o n p) j < dist n (home_of o n p) i -> slot_at ss j <> None \/ hole = Some j }.

Section table.
Context (o : objects) (n k : Z) (Hn : n = 2 ^ k) (Hk : 1 <= k <= 62).

Lemma read_key ss p : table_ok o n ss p -> forall q, q ∈ entries p -> exists space, read_space o q = Ret space /\ cr3 space = key_of o q.
Proof. intros H q Hq. destruct (tb_live _ _ _ _ H q Hq) as [x Hx]. exists x. unfold read_space, key_of. by rewrite Hx. Qed.

Lemma home_range p : 0 <= home_of o n p < n.
Proof. eapply space_home_range; [done|lia]. Qed.

Lemma succ_range i : 0 <= i < n -> 0 <= succ n i < n.
Proof. unfold succ. case_match; lia. Qed.

(** The loops over the slots, as searches. *)
Definition key_stop (ss : list (option Z)) (key : Z) (j : Z) : bool :=
  match slot_at ss j with
  | None => true
  | Some p => key_of o p =? key
  end.

Lemma known_loop_eq hole ss key fuel i : table_ok o n hole ss -> 0 <= i < n ->
  known_loop fuel o ss n key i =
    match first_stop fuel (key_stop ss key) n i with
    | Some j => Ret (slot_at ss j)
    | None => Fault
    end.
Proof.
  intros Ht. revert i. induction fuel as [|fuel IH]; intros i Hi; [done|]. cbn [known_loop first_stop].
  rewrite (rd_slot ss n) by (apply Ht || done). rewrite bind_ret. unfold key_stop at 1. destruct (slot_at ss i) as [p|] eqn:E; [|by rewrite E].
  destruct (read_key _ _ Ht p (slot_at_entry _ _ _ E)) as (space & Es & Ek). rewrite Es, bind_ret, Ek.
  destruct (key_of o p =? key); [by rewrite E|]. rewrite (land_succ n k) by (done || lia). by apply IH, succ_range.
Qed.

Lemma find_loop_eq hole ss key fuel i : table_ok o n hole ss -> 0 <= i < n ->
  find_loop fuel o ss n key i =
    match first_stop fuel (key_stop ss key) n i with
    | Some j => Ret (match slot_at ss j with Some _ => Some j | None => None end)
    | None => Fault
    end.
Proof.
  intros Ht. revert i. induction fuel as [|fuel IH]; intros i Hi; [done|]. cbn [find_loop first_stop].
  rewrite (rd_slot ss n) by (apply Ht || done). rewrite bind_ret. unfold key_stop at 1. destruct (slot_at ss i) as [p|] eqn:E; [|by rewrite E].
  destruct (read_key _ _ Ht p (slot_at_entry _ _ _ E)) as (space & Es & Ek). rewrite Es, bind_ret, Ek.
  destruct (key_of o p =? key); [by rewrite E|]. cbn [negb]. rewrite (land_succ n k) by (done || lia). by apply IH, succ_range.
Qed.

Lemma place_slot_eq ss fuel i : Z.of_nat (length ss) = n -> 0 <= i < n ->
  place_slot fuel ss n i =
    match first_stop fuel (fun j => bool_decide (slot_at ss j = None)) n i with
    | Some j => Ret j
    | None => Fault
    end.
Proof.
  intros Hl. revert i. induction fuel as [|fuel IH]; intros i Hi; [done|]. cbn [place_slot first_stop].
  rewrite (rd_slot ss n) by done. rewrite bind_ret. destruct (slot_at ss i) as [p|]; cbn; [|done].
  rewrite (land_succ n k) by (done || lia). by apply IH, succ_range.
Qed.

Definition room (ss : list (option Z)) : Prop := Z.of_nat (length (entries ss)) < n.

(** Where the search for a key ends. *)
Lemma key_search ss key : table_ok o n None ss -> room ss ->
  exists j, first_stop (length ss) (key_stop ss key) n (space_home key n) = Some j /\ 0 <= j < n /\
    match slot_at ss j with
    | Some p => key_of o p = key
    | None => forall p, p ∈ entries ss -> key_of o p <> key
    end.
Proof.
  intros Ht Hr. pose proof (tb_size _ _ _ _ Ht) as Hl. destruct (entries_room ss n Hl Hr) as (e & He & Ee).
  pose proof (space_home_range key n k Hn ltac:(lia)) as Hh.
  destruct (first_stop_ok (key_stop ss key) n (space_home key n) e Hh He) as (j & Ej & Hj & Hs & Hb); [unfold key_stop; by rewrite Ee|].
  replace (length ss) with (Z.to_nat n) by lia. exists j. split; [done|]. split; [done|].
  unfold key_stop in Hs. destruct (slot_at ss j) as [p|] eqn:E; [by apply Z.eqb_eq|].
  intros p Hp Hkey. destruct (entry_slot_at ss n p Hl Hp) as (i & Hi & Ei).
  assert (home_of o n p = space_home key n) as Hho by (unfold home_of; by rewrite Hkey).
  assert (dist n (space_home key n) i < dist n (space_home key n) j \/ i = j \/ dist n (space_home key n) j < dist n (space_home key n) i)
    as [Hlt|[->|Hlt]] by around.
  - apply Hb in Hlt; [|done]. unfold key_stop in Hlt. rewrite Ei, Hkey, Z.eqb_refl in Hlt. done.
  - congruence.
  - rewrite <- Hho in Hlt. by destruct (tb_path _ _ _ _ Ht i p j Hi Ei Hj Hlt).
Qed.

(** An entry put into the first free slot from its home on. *)
Lemma place_ok ss p : table_ok o n None ss -> room ss -> is_Some (o !! p) -> key_of o p ∉ (key_of o <$> entries ss) ->
  returns (space_place o ss n p) (fun ss' => table_ok o n None ss' /\ entries ss' ≡ₚ p :: entries ss).
Proof.
  intros Ht Hr Hp Hkey. pose proof (tb_size _ _ _ _ Ht) as Hl. unfold space_place.
  assert (exists space, read_space o p = Ret space /\ cr3 space = key_of o p) as (space & Es & Ek).
  { destruct Hp as [x Hx]. exists x. unfold read_space, key_of. by rewrite Hx. }
  rewrite Es, bind_ret, Ek. fold (home_of o n p). pose proof (home_range p) as Hh. rewrite place_slot_eq by done.
  destruct (entries_room ss n Hl Hr) as (e & He & Ee).
  destruct (first_stop_ok (fun j => bool_decide (slot_at ss j = None)) n (home_of o n p) e Hh He) as (j & Ej & Hj & Hs & Hb); [by apply bool_decide_eq_true|].
  replace (length ss) with (Z.to_nat n) by lia. rewrite Ej, bind_ret. apply bool_decide_eq_true in Hs. rewrite wr_in by lia. cbn [returns].
  assert (ss !! Z.to_nat j = Some None) as Hnone.
  { destruct (lookup_lt_is_Some_2 ss (Z.to_nat j)) as [x Hx]; [lia|]. unfold slot_at in Hs. rewrite Hx in Hs. cbn in Hs. by subst x. }
  pose proof (entries_insert ss (Z.to_nat j) p Hnone) as Hperm. split; [|done]. split.
  - rewrite length_insert. done.
  - intros q Hq. rewrite Hperm in Hq. apply elem_of_cons in Hq as [->|Hq]; [done|]. by apply (tb_live _ _ _ _ Ht).
  - rewrite Hperm. cbn. apply list.NoDup_cons. split; [done|apply Ht].
  - intros i q m Hi Ei Hm Hlt. rewrite (slot_at_insert ss n) in Ei by (done || lia). rewrite (slot_at_insert ss n) by (done || lia).
    left. destruct (decide (j = m)) as [|Ejm]; [done|]. destruct (decide (j = i)) as [Eji|Eji].
    + injection Ei as <-. subst i. apply Hb in Hlt; [|done]. by apply bool_decide_eq_false in Hlt.
    + by destruct (tb_path _ _ _ _ Ht i q m Hi Ei Hm Hlt).
Qed.

(** A slot emptied. *)
Lemma clear_ok ss i p : table_ok o n None ss -> 0 <= i < n -> slot_at ss i = Some p ->
  let ss' := <[Z.to_nat i := None]> ss in
  table_ok o n (Some i) ss' /\ entries ss ≡ₚ p :: entries ss' /\ slot_at ss' i = None /\
  forall j, 0 <= j < n -> j <> i -> slot_at ss' j = slot_at ss j.
Proof.
  intros Ht Hi Ei. pose proof (tb_size _ _ _ _ Ht) as Hl. cbv zeta.
  assert (ss !! Z.to_nat i = Some (Some p)) as Hlook.
  { destruct (lookup_lt_is_Some_2 ss (Z.to_nat i)) as [x Hx]; [lia|]. unfold slot_at in Ei. rewrite Hx in Ei. cbn in Ei. by subst x. }
  pose proof (entries_clear ss _ p Hlook) as Hperm.
  assert (forall j, 0 <= j < n -> slot_at (<[Z.to_nat i := None]> ss) j = if decide (i = j) then None else slot_at ss j) as Hsl.
  { intros j Hj. apply (slot_at_insert ss n); (done || lia). }
  split; [|split; [done|split]].
  - split.
    + by rewrite length_insert.
    + intros q Hq. apply (tb_live _ _ _ _ Ht). rewrite Hperm. by right.
    + pose proof (tb_keys _ _ _ _ Ht) as Hnd. rewrite Hperm in Hnd. cbn in Hnd. by apply list.NoDup_cons in Hnd as [_ ?].
    + intros j q m Hj Ej Hm Hlt. rewrite Hsl in Ej |- * by done. destruct (decide (i = j)); [done|].
      destruct (decide (i = m)) as [->|]; [by right|]. by destruct (tb_path _ _ _ _ Ht j q m Hj Ej Hm Hlt); [left|].
  - rewrite Hsl by done. by rewrite decide_True.
  - intros j Hj Hne. rewrite Hsl by done. by rewrite decide_False.
Qed.

Lemma other_hole ss i : Z.of_nat (length ss) = n -> 0 <= i < n -> slot_at ss i <> None -> Z.of_nat (length (entries ss)) < n ->
  exists e, 0 <= e < n /\ slot_at ss e = None /\ e <> i.
Proof. intros Hl Hi Hs Hr. destruct (entries_room ss n Hl Hr) as (e & He & Ee). exists e. split; [done|]. split; [done|]. congruence. Qed.

(** The entry of slot [next] moved into the hole. *)
Lemma move_ok ss at_ next p : table_ok o n (Some at_) ss -> 0 <= at_ < n -> 0 <= next < n -> next <> at_ ->
  slot_at ss at_ = None -> slot_at ss next = Some p -> dist n at_ next <= dist n (home_of o n p) next ->
  let ss' := <[Z.to_nat next := None]> (<[Z.to_nat at_ := Some p]> ss) in
  table_ok o n (Some next) ss' /\ entries ss' ≡ₚ entries ss.
Proof.
  intros Ht Ha Hx Hne Ea Ex Hd. pose proof (tb_size _ _ _ _ Ht) as Hl. pose proof (home_range p) as Hh.
  assert (forall i v, 0 <= i < n -> slot_at ss i = v -> ss !! Z.to_nat i = Some v) as Hlook.
  { intros i v Hi Hv. destruct (lookup_lt_is_Some_2 ss (Z.to_nat i)) as [x Hxx]; [lia|]. unfold slot_at in Hv. rewrite Hxx in Hv. cbn in Hv. by subst x. }
  cbv zeta. set (mid := <[Z.to_nat at_ := Some p]> ss). assert (Z.of_nat (length mid) = n) as Hlm by (unfold mid; rewrite length_insert; lia).
  assert (entries (<[Z.to_nat next := None]> mid) ≡ₚ entries ss) as Hperm.
  { apply (Permutation_cons_inv (a := p)). rewrite <- entries_clear by (unfold mid; rewrite list_lookup_insert_ne by lia; by apply Hlook).
    apply entries_insert. by apply Hlook. }
  assert (forall j, 0 <= j -> slot_at (<[Z.to_nat next := None]> mid) j =
    if decide (next = j) then None else if decide (at_ = j) then Some p else slot_at ss j) as Hsl.
  { intros j Hj. rewrite (slot_at_insert mid n) by done. case_decide; [done|]. unfold mid. by rewrite (slot_at_insert ss n). }
  split; [|done]. split.
  - by rewrite length_insert.
  - intros q Hq. rewrite Hperm in Hq. by apply (tb_live _ _ _ _ Ht).
  - rewrite Hperm. apply Ht.
  - intros i q j Hi Ei Hj Hlt. rewrite Hsl in Ei by lia. rewrite Hsl by lia. destruct (decide (next = i)); [done|].
    destruct (decide (next = j)) as [->|]; [by right|left]. destruct (decide (at_ = j)); [done|]. destruct (decide (at_ = i)) as [->|].
    + injection Ei as <-. destruct (tb_path _ _ _ _ Ht next p j Hx Ex Hj) as [|[= ->]]; [around|done|done].
    + by destruct (tb_path _ _ _ _ Ht i q j Hi Ei Hj Hlt) as [|[= ->]].
Qed.

Lemma gap_ok fuel ss at_ next e : table_ok o n (Some at_) ss -> 0 <= at_ < n -> 0 <= next < n -> next <> at_ ->
  slot_at ss at_ = None -> 0 <= e < n -> slot_at ss e = None -> e <> at_ ->
  dist n at_ next <= dist n at_ e -> dist n next e < Z.of_nat fuel ->
  (forall j p, 0 <= j < n -> 0 < dist n at_ j < dist n at_ next -> slot_at ss j = Some p ->
     dist n (home_of o n p) j <= dist n (home_of o n p) at_) ->
  returns (close_gap fuel o ss n at_ next) (fun ss' => table_ok o n None ss' /\ entries ss' ≡ₚ entries ss).
Proof.
  revert ss at_ next. induction fuel as [|fuel IH]; intros ss at_ next Ht Ha Hx Hne Ea He Ee Hea Hde Hf Hdone; [around|].
  pose proof (tb_size _ _ _ _ Ht) as Hl. cbn [close_gap]. rewrite (rd_slot ss n), bind_ret by done. destruct (slot_at ss next) as [p|] eqn:Ex.
  - destruct (read_key _ _ Ht p (slot_at_entry _ _ _ Ex)) as (space & Es & Ek). rewrite Es, bind_ret, Ek. fold (home_of o n p).
    pose proof (home_range p) as Hh. rewrite !(land_dist n k) by (done || lia). rewrite (land_succ n k) by (done || lia).
    assert (next <> e) as Hnx by congruence.
    assert (dist n (succ n next) e < Z.of_nat fuel) as Hf' by (unfold succ; destruct (Z.eqb_spec (next + 1) n); around).
    destruct (Z.leb_spec (dist n at_ next) (dist n (home_of o n p) next)) as [Hle|Hgt].
    + rewrite wr_in, bind_ret, wr_in, bind_ret by (rewrite ?length_insert; lia).
      destruct (move_ok ss at_ next p Ht Ha Hx Hne Ea Ex Hle) as [Ht' Hperm]. cbv zeta in Ht', Hperm.
      assert (forall j, 0 <= j < n -> slot_at (<[Z.to_nat next := None]> (<[Z.to_nat at_ := Some p]> ss)) j =
        if decide (next = j) then None else if decide (at_ = j) then Some p else slot_at ss j) as Hsl.
      { intros j Hj. rewrite (slot_at_insert _ n) by (rewrite ?length_insert; lia). case_decide; [done|]. by rewrite (slot_at_insert ss n) by lia. }
      eapply returns_mono; [apply (IH _ next (succ n next)); try done|].
      * by apply succ_range.
      * unfold succ. destruct (Z.eqb_spec (next + 1) n); lia.
      * rewrite Hsl by done. by rewrite decide_True.
      * rewrite Hsl by done. rewrite !decide_False by done. done.
      * unfold succ. destruct (Z.eqb_spec (next + 1) n); around.
      * intros j q Hj Hd. unfold succ in Hd. destruct (Z.eqb_spec (next + 1) n); around.
      * intros ss' [Hok Hp']. split; [done|]. by rewrite Hp'.
    + apply (IH ss at_ (succ n next)); try done.
      * by apply succ_range.
      * unfold succ. destruct (Z.eqb_spec (next + 1) n); around.
      * unfold succ. destruct (Z.eqb_spec (next + 1) n); around.
      * intros j q Hj Hd Eq. destruct (Z.eq_dec j next) as [->|]; [|apply (Hdone j q Hj); [|done]].
        -- rewrite Ex in Eq. injection Eq as <-. around.
        -- unfold succ in Hd. destruct (Z.eqb_spec (next + 1) n); around.
  - cbn [returns]. split; [|done]. destruct Ht as [Hl' Hlive Hkeys Hpath]. split; try done. intros i p j Hi Ei Hj Hlt.
    destruct (Hpath i p j Hi Ei Hj Hlt) as [|[= <-]]; [by left|]. exfalso. pose proof (home_range p) as Hh.
    assert (i <> next) by congruence. assert (i <> at_) by congruence.
    destruct (Z.lt_ge_cases (dist n at_ i) (dist n at_ next)) as [Hlt'|Hge].
    + specialize (Hdone i p Hi ltac:(around) Ei). lia.
    + destruct (Hpath i p next Hi Ei Hx) as [|[= Heq]]; [around|congruence|lia].
Qed.
End table.

(** ** The registry as a finite map *)

Definition size_ok (n : Z) : Prop := exists k, 9 <= k <= 43 /\ n = 2 ^ k.

Lemma size_bound n : size_ok n -> 512 <= n <= 2 ^ 43.
Proof. intros (k & Hk & ->). change 512 with (2 ^ 9). split; apply Z.pow_le_mono_r; lia. Qed.

(** [M] gives the record of each registered root. *)
Record registry_ok (o : objects) (r : registry) (M : gmap Z Z) : Prop := {
  rg_size : size_ok (capacity r);
  rg_table : table_ok o (capacity r) None (slots r);
  rg_count : count r = Z.of_nat (length (entries (slots r)));
  rg_room : count r * 2 <= capacity r;
  rg_map : forall key p, M !! key = Some p <-> p ∈ entries (slots r) /\ key_of o p = key;
  rg_zero : M !! 0 = None;
  rg_last : forall p, last_space r = Some p -> p ∈ entries (slots r) }.

(** The pages of a table that is not the boot array. *)
Definition in_run (r : registry) (q : Z) : Prop :=
  match slots_physical r with
  | None => False
  | Some ph => ph / PMM_PAGE_SIZE <= q < ph / PMM_PAGE_SIZE + slot_pages (capacity r)
  end.

#[global] Instance in_run_dec r q : Decision (in_run r q).
Proof. unfold in_run. destruct (slots_physical r); apply _. Defined.

(** They are in use. *)
Definition run_held (r : registry) (frames : pmm) : Prop :=
  match slots_physical r with
  | None => True
  | Some ph => 0 < ph / PMM_PAGE_SIZE /\ ph = ph / PMM_PAGE_SIZE * PMM_PAGE_SIZE /\
      ph / PMM_PAGE_SIZE + slot_pages (capacity r) <= total_pages frames
  end /\ forall q, in_run r q -> page_state frames q <> None.

Section registry.
Context (o : objects).

Lemma registry_room r M : registry_ok o r M -> room (capacity r) (slots r).
Proof.
  intros H. destruct (rg_size _ _ _ H) as (k & Hk & Hn). unfold room. pose proof (rg_count _ _ _ H). pose proof (rg_room _ _ _ H).
  pose proof (Z.pow_pos_nonneg 2 k). lia.
Qed.

Lemma known_ok r M key : registry_ok o r M -> space_known o r key = Ret (M !! key).
Proof.
  intros H. destruct (rg_size _ _ _ H) as (k & Hk & Hn). pose proof (rg_table _ _ _ H) as Ht. unfold space_known.
  rewrite (known_loop_eq o _ k Hn ltac:(lia) None) by (done || apply (space_home_range _ _ k Hn); lia).
  destruct (key_search o _ k Hn ltac:(lia) (slots r) key Ht (registry_room _ _ H)) as (j & -> & Hj & Hs).
  destruct (slot_at (slots r) j) as [p|] eqn:E.
  - f_equal. symmetry. apply (rg_map _ _ _ H). split; [by eapply slot_at_entry|done].
  - destruct (M !! key) as [p|] eqn:Em; [|done]. apply (rg_map _ _ _ H) in Em as [Hp Hkey]. by destruct (Hs p Hp).
Qed.

Lemma same_map r r' M : slots r' = slots r -> capacity r' = capacity r -> count r' = count r ->
  (forall p, last_space r' = Some p -> p ∈ entries (slots r)) -> registry_ok o r M -> registry_ok o r' M.
Proof. intros Es Ec En Hl [H1 H2 H3 H4 H5 H6 H7]. split; rewrite ?Es, ?Ec, ?En; done. Qed.

Lemma registered_ok r M mask key : registry_ok o r M ->
  returns (address_space_registered o r mask key) (fun '(found, r') =>
    found = M !! Z.land key mask /\ registry_ok o r' M /\ slots r' = slots r /\ capacity r' = capacity r /\ slots_physical r' = slots_physical r).
Proof.
  intros H. unfold address_space_registered. destruct (Z.eqb_spec (Z.land key mask) 0) as [->|Hnz].
  { cbn. rewrite (rg_zero _ _ _ H). done. }
  assert (exists hit, (match last_space r with
      | None => Ret None
      | Some p => space ← read_space o p; Ret (if cr3 space =? Z.land key mask then Some p else None)
      end) = Ret hit /\ (hit = None \/ hit = M !! Z.land key mask)) as (hit & -> & Hhit).
  { destruct (last_space r) as [p|] eqn:El; [|exists None; auto]. pose proof (rg_last _ _ _ H p El) as Hp.
    destruct (read_key o _ _ _ (rg_table _ _ _ H) p Hp) as (space & -> & Hkey). rewrite bind_ret, Hkey.
    eexists. split; [done|]. destruct (Z.eqb_spec (key_of o p) (Z.land key mask)) as [E|]; [|by left]. right. symmetry. by apply (rg_map _ _ _ H). }
  rewrite bind_ret. destruct hit as [p|].
  { cbn. destruct Hhit as [|Hhit]; [done|]. done. }
  rewrite (known_ok r M) by done. rewrite bind_ret. cbn [returns]. split; [done|].
  destruct (M !! Z.land key mask) as [p|] eqn:Em; [|done]. split; [|done]. eapply same_map; [..|exact H]; try done. cbn.
  intros q [= <-]. by apply (rg_map _ _ _ H) in Em as [? _].
Qed.

Lemma nodup_perm_keys (l l' : list Z) : l ≡ₚ l' -> NoDup (key_of o <$> l) -> NoDup (key_of o <$> l').
Proof. intros E. by rewrite E. Qed.

Lemma remove_ok r M key : registry_ok o r M ->
  returns (space_remove o r key) (fun r' => registry_ok o r' (delete key M) /\ (forall p, M !! key = Some p -> p ∉ entries (slots r')) /\
    capacity r' = capacity r /\ slots_physical r' = slots_physical r).
Proof.
  intros H. destruct (rg_size _ _ _ H) as (k & Hk & Hn). pose proof (rg_table _ _ _ H) as Ht. pose proof (tb_size _ _ _ _ Ht) as Hl.
  unfold space_remove. destruct (Z.eqb_spec key 0) as [->|Hnz].
  { cbn. rewrite (rg_zero _ _ _ H). rewrite delete_id by apply (rg_zero _ _ _ H). done. }
  rewrite (find_loop_eq o _ k Hn ltac:(lia) None) by (done || apply (space_home_range _ _ k Hn); lia).
  destruct (key_search o _ k Hn ltac:(lia) (slots r) key Ht (registry_room _ _ H)) as (j & Ej & Hj & Hs). rewrite Ej, bind_ret.
  destruct (slot_at (slots r) j) as [p|] eqn:E.
  2: { assert (M !! key = None) as Em. { destruct (M !! key) eqn:Em; [|done]. apply (rg_map _ _ _ H) in Em as [Hp Hkey]. by destruct (Hs z). }
       cbn. by rewrite Em, delete_id. }
  rewrite (rd_slot _ (capacity r)), E, bind_ret, wr_in, bind_ret by (done || lia).
  pose proof (slot_at_entry _ _ _ E) as Hp. assert (M !! key = Some p) as Em by (by apply (rg_map _ _ _ H)).
  destruct (clear_ok o (capacity r) k Hn ltac:(lia) (slots r) j p Ht Hj E) as (Hcl & Hperm & Hnone & Hrest).
  pose proof (rg_count _ _ _ H) as Hc. pose proof (rg_room _ _ _ H) as Hroom. pose proof (Permutation_length Hperm) as Hlen. cbn in Hlen.
  pose proof (size_bound _ (rg_size _ _ _ H)) as Hsz.
  destruct (other_hole (capacity r) (slots r) j Hl Hj) as (e & He & Ee & Hne); [congruence|lia|].
  rewrite (land_succ _ k) by (done || lia).
  eapply returns_bind; [apply (gap_ok o _ k Hn ltac:(lia) _ _ j (succ (capacity r) j) e); try done|].
  - apply (succ_range _ k ltac:(lia)); done.
  - unfold succ. destruct (Z.eqb_spec (j + 1) (capacity r)); lia.
  - by rewrite Hrest.
  - unfold succ. destruct (Z.eqb_spec (j + 1) (capacity r)); around.
  - unfold succ. destruct (Z.eqb_spec (j + 1) (capacity r)); around.
  - intros i q Hi Hd. unfold succ in Hd. destruct (Z.eqb_spec (j + 1) (capacity r)); around.
  - intros ss' [Ht' Hp']. cbn [returns slots capacity slots_physical].
    pose proof (tb_keys _ _ _ _ Ht) as Hnd. rewrite Hperm in Hnd. cbn in Hnd. apply list.NoDup_cons in Hnd as [Hfresh Hnd].
    assert (p ∉ entries ss') as Hpn. { rewrite Hp'. intros Hin. apply Hfresh. apply list_elem_of_fmap. by exists p. }
    split; [|split; [intros q Hq; rewrite Em in Hq; by injection Hq as <-|done]]. pose proof (Permutation_length Hp').
    split; cbn [slots capacity count last_space]; try done.
    + apply H.
    + rewrite u64_small by lia. lia.
    + rewrite u64_small by lia. lia.
    + intros key' q. rewrite lookup_delete_Some, (rg_map _ _ _ H), Hp', Hperm, elem_of_cons. split.
      * intros (Hne' & [->|Hq] & Hkq); [congruence|done].
      * intros [Hq Hkq]. split; [|by auto]. intros ->. apply Hfresh. apply list_elem_of_fmap. exists q. split; [congruence|done].
    + rewrite lookup_delete_ne by done. apply H.
    + intros q. case_bool_decide as Elast; [done|]. intros Hq. apply (rg_last _ _ _ H) in Hq as Hin. rewrite Hperm in Hin.
      apply elem_of_cons in Hin as [->|Hin]; [congruence|]. by rewrite Hp'.
Qed.

Lemma entries_take_S (ss : list (option Z)) i x : ss !! i = Some x ->
  entries (take (S i) ss) = entries (take i ss) ++ (match x with Some p => [p] | None => [] end).
Proof. intros H. rewrite (take_S_r _ _ _ H). unfold entries. rewrite list.omap_app. by destruct x. Qed.

Lemma entries_empty n : entries (replicate n None) = [].
Proof. induction n; [done|]. by cbn. Qed.

Lemma empty_table n : 0 <= n -> table_ok o n None (replicate (Z.to_nat n) None).
Proof.
  intros Hn. split.
  - rewrite length_replicate. lia.
  - intros p. rewrite entries_empty. intros Hp. by apply not_elem_of_nil in Hp.
  - rewrite entries_empty. constructor.
  - intros i p j Hi E. unfold slot_at in E. destruct (replicate _ _ !! _) as [x|] eqn:Ex; [|done]. apply lookup_replicate in Ex as [-> _]. done.
Qed.

Lemma rehash_ok ss n n' k : table_ok o n None ss -> 0 <= n -> n' = 2 ^ k -> 1 <= k <= 62 -> Z.of_nat (length (entries ss)) < n' ->
  returns (rehash o ss n n' (replicate (Z.to_nat n') None)) (fun new => table_ok o n' None new /\ entries new ≡ₚ entries ss).
Proof.
  intros Ht Hn Hn' Hk Hroom. pose proof (tb_size _ _ _ _ Ht) as Hl. unfold rehash.
  eapply returns_mono; [apply (for_range_rule (fun i new => table_ok o n' None new /\ entries new ≡ₚ entries (take (Z.to_nat i) ss))); [done|..]|].
  - split; [apply empty_table; rewrite Hn'; lia|]. by rewrite entries_empty.
  - intros i new Hi [Hnew Hperm]. rewrite (rd_slot ss n), bind_ret by done.
    destruct (lookup_lt_is_Some_2 ss (Z.to_nat i)) as [x Hx]; [lia|]. unfold slot_at. rewrite Hx. cbn [mjoin option_join].
    replace (Z.to_nat (i + 1)) with (S (Z.to_nat i)) by lia. rewrite (entries_take_S _ _ _ Hx). destruct x as [p|]; [|cbn [returns]; by rewrite app_nil_r].
    assert (entries ss = entries (take (Z.to_nat i) ss) ++ p :: entries (drop (S (Z.to_nat i)) ss)) as Es.
    { rewrite <- (take_drop_middle ss _ _ Hx) at 1. unfold entries. by rewrite list.omap_app. }
    eapply returns_mono; [apply (place_ok o n' k Hn' Hk new p Hnew)|].
    + unfold room. rewrite Hperm. rewrite Es, length_app in Hroom. lia.
    + apply (tb_live _ _ _ _ Ht). rewrite Es. apply elem_of_app. right. by left.
    + rewrite Hperm. pose proof (tb_keys _ _ _ _ Ht) as Hnd. rewrite Es, fmap_app in Hnd. apply list.NoDup_app in Hnd as (_ & Hd & _).
      intros Hin. apply (Hd _ Hin). by left.
    + intros new' [Hnew' Hp']. split; [done|]. rewrite Hp', Hperm. by rewrite Permutation_cons_append.
  - intros new [Hnew Hperm]. split; [done|]. rewrite Hperm, firstn_all2 by lia. done.
Qed.

(** The pages of a table of twice the size, and those of the old one. *)
Definition grown_pages (r r' : registry) (frames frames' : pmm) : Prop :=
  (forall q, in_run r' q -> page_state frames q = None) /\
  forall q, 0 <= q < total_pages frames ->
    page_state frames' q = if decide (in_run r' q) then Some 1
                           else if decide (in_run r q) then drop_ref (page_state frames q) else page_state frames q.

Lemma slot_pages_eq n : size_ok n -> slot_pages n = n / 512 /\ 1 <= slot_pages n <= 2 ^ 34.
Proof.
  intros H. pose proof (size_bound n H). unfold slot_pages. rewrite u64_small by lia.
  replace (n * 8) with (8 * n) by lia. change 4096 with (8 * 512). rewrite Z.div_mul_cancel_l by lia.
  split; [done|]. split; [apply (Z.div_le_mono 512 n 512); lia|]. apply Z.div_le_upper_bound; lia.
Qed.

Lemma page_managed frames p : pmm_inv frames -> 0 <= p < total_pages frames ->
  pmm_physical_range_managed (p * PMM_PAGE_SIZE) 1 frames <> 0.
Proof.
  intros Hi Hp. pose proof (shape_total _ (inv_shape _ Hi)) as Ht. rewrite max_pages in Ht.
  unfold pmm_physical_range_managed, pmm_managed_limit, PMM_PAGE_SIZE. cbn [Z.eqb]. rewrite !u64_small by lia.
  rewrite (proj2 (Z.leb_gt _ _)), (proj2 (Z.ltb_ge _ _)) by lia. done.
Qed.

Lemma grow_run r frames first cap' new frames1 :
  size_ok (capacity r) -> size_ok cap' -> run_held r frames -> pmm_inv frames -> 0 < first ->
  free_run frames first (slot_pages cap') (total_pages frames) -> pmm_inv frames1 -> total_pages frames1 = total_pages frames ->
  (forall q, 0 <= q < total_pages frames ->
    page_state frames1 q = if decide (first <= q < first + slot_pages cap') then Some 1 else page_state frames q) ->
  let r' := Registry new cap' (count r) (last_space r) (Some (first * PMM_PAGE_SIZE)) in
  returns (match slots_physical r with
           | None => Ret frames1
           | Some old =>
               if pmm_physical_range_managed old 1 frames1 =? 0 then Panic "VMM: direct-map pointer outside managed RAM"
               else pmm_free_pages old (slot_pages (capacity r)) frames1
           end) (fun frames2 => pmm_inv frames2 /\ total_pages frames2 = total_pages frames /\ run_held r' frames2 /\ grown_pages r r' frames frames2).
Proof.
  intros Hsz Hsz' [Hrun Hheld] Hi Hf [Hfr Hnone] Hi1 Ht1 Hq1 r'. pose proof (slot_pages_eq _ Hsz) as [_ Hsp]. pose proof (slot_pages_eq _ Hsz') as [_ Hsp'].
  assert (first * PMM_PAGE_SIZE / PMM_PAGE_SIZE = first) as Ediv by (apply Z.div_mul; done).
  assert (forall q, in_run r' q <-> first <= q < first + slot_pages cap') as Hr' by (intros q; unfold in_run, r'; cbn [slots_physical capacity]; by rewrite Ediv).
  assert (forall q, in_run r q -> ~ in_run r' q) as Hdisj by (intros q Hq Hq'; apply (Hheld q Hq), Hnone, Hr'; done).
  assert (forall frames2, total_pages frames2 = total_pages frames ->
    (forall q, 0 <= q < total_pages frames -> page_state frames2 q =
       if decide (in_run r q) then drop_ref (page_state frames1 q) else page_state frames1 q) ->
    run_held r' frames2 /\ grown_pages r r' frames frames2) as Hdone.
  { intros f2 Ht2 Hq2.
    assert (grown_pages r r' frames f2) as Hg.
    { split; [intros q Hq; by apply Hnone, Hr'|]. intros q Hq. rewrite Hq2 by done. rewrite Hq1 by done. rewrite (decide_ext _ _ _ _ (Hr' q)).
      repeat case_decide; try done. exfalso. by apply (Hdisj q), Hr'. }
    split; [|done]. unfold run_held. cbn [slots_physical r' capacity]. rewrite Ediv. split; [rewrite Ht2; done|].
    intros q Hq. rewrite (proj2 Hg) by (apply Hr' in Hq; lia). by rewrite decide_True. }
  destruct (slots_physical r) as [old|] eqn:Eold.
  - destruct Hrun as (Hold & Eo & Hend).
    assert (forall q, in_run r q <-> old / PMM_PAGE_SIZE <= q < old / PMM_PAGE_SIZE + slot_pages (capacity r)) as Er by (intros q; unfold in_run; by rewrite Eold).
    rewrite Eo. rewrite (proj2 (Z.eqb_neq _ _)) by (apply page_managed; [done|lia]).
    eapply returns_mono; [apply free_pages_ok; [done|done|lia|lia|]|].
    + intros q Hq. rewrite Hq1 by lia. rewrite decide_False; [apply Hheld; by apply Er|]. intros H. by apply (Hdisj q); [apply Er|apply Hr'].
    + intros f2 (Hi2 & Ht2 & Hq2). split; [done|]. split; [congruence|]. apply Hdone; [congruence|]. intros q Hq. rewrite Hq2 by lia.
      by rewrite (decide_ext _ _ _ _ (Er q)).
  - cbn [returns]. split; [done|]. split; [done|]. apply Hdone; [done|]. intros q Hq. rewrite decide_False; [done|]. unfold in_run. rewrite Eold. tauto.
Qed.

(** There is no run of pages for a larger table. *)
Definition no_run (r : registry) (frames : pmm) : Prop :=
  forall first, 1 <= first -> ~ free_run frames first (slot_pages (capacity r * 2)) (total_pages frames).

Lemma grow_ok r M frames : registry_ok o r M -> pmm_inv frames -> run_held r frames ->
  returns (space_grow o r frames) (fun '(grown, frames') => pmm_inv frames' /\ total_pages frames' = total_pages frames /\
    match grown with
    | None => frames' = frames /\ no_run r frames
    | Some r' => registry_ok o r' M /\ capacity r' = 2 * capacity r /\ count r' = count r /\ run_held r' frames' /\ grown_pages r r' frames frames'
    end).
Proof.
  intros H Hi Hheld. destruct (rg_size _ _ _ H) as (k & Hk & Hn). pose proof (size_bound _ (rg_size _ _ _ H)) as Hsz.
  pose proof (rg_count _ _ _ H) as Hc. pose proof (rg_room _ _ _ H) as Hroom. unfold space_grow. rewrite u64_small by lia.
  assert (0 <= slot_pages (capacity r * 2) < 2 ^ 64) as Hspr.
  { unfold slot_pages. pose proof (u64_bound (capacity r * 2 * 8)). split; [apply Z.div_pos; lia|]. apply Z.div_lt_upper_bound; lia. }
  eapply returns_bind; [apply alloc_pages_post_ok; [done|done|lia|lia]|].
  intros [physical frames1] (Hi1 & Ht1 & [(-> & -> & Hwhy)|(first & Hf & -> & _ & _ & [Hfr Hnone] & Hq1)]).
  { rewrite Z.eqb_refl. cbn. split; [done|]. split; [done|]. split; [done|]. intros first Hf.
    destruct Hwhy as [Hz|[Hal|Hall]]; [|by vm_compute in Hal|].
    - exfalso. unfold slot_pages in Hz. rewrite u64_small in Hz by lia. assert (1 <= capacity r * 2 * 8 / 4096); [|lia].
      apply (Z.div_le_mono 4096 _ 4096); lia.
    - specialize (Hall first). change (run_stride 4096) with 1 in Hall. rewrite Z.mod_1_r in Hall. unfold run_limit in Hall.
      rewrite Z.eqb_refl, Z.min_id in Hall. by apply Hall. }
  rewrite (proj2 (Z.eqb_neq _ _)) by (unfold PMM_PAGE_SIZE; lia).
  assert (size_ok (capacity r * 2)) as Hsz'.
  { exists (k + 1). rewrite Hn, Z.pow_add_r by lia. split; [|lia]. split; [lia|]. destruct (Z.eq_dec k 43) as [->|]; [|lia]. exfalso.
    pose proof (shape_total _ (inv_shape _ Hi)) as Htot. rewrite max_pages in Htot. rewrite Hn in Hfr.
    change (slot_pages (2 ^ 43 * 2)) with (2 ^ 35) in Hfr. lia. }
  pose proof (slot_pages_eq _ Hsz') as [_ Hsp']. pose proof (shape_total _ (inv_shape _ Hi)) as Htot. rewrite max_pages in Htot.
  assert (physical_direct_range_valid (first * PMM_PAGE_SIZE) 1 frames1 = true) as ->.
  { unfold physical_direct_range_valid. cbn [Z.eqb]. change DIRECT_MAP_BYTES with (1000 * 2 ^ 24 * 4096). unfold PMM_PAGE_SIZE.
    rewrite (proj2 (Z.leb_gt _ _)), (proj2 (Z.ltb_ge _ _)) by lia. cbn [orb].
    rewrite (proj2 (Z.eqb_neq _ _)); [done|]. apply page_managed; [done|lia]. }
  cbn [negb]. eapply returns_bind; [apply (rehash_ok _ _ _ (k + 1) (rg_table _ _ _ H)); [lia|rewrite Hn, Z.pow_add_r by lia; lia|lia|lia]|].
  intros new [Hnew Hperm]. eapply returns_bind; [apply (grow_run r frames first (capacity r * 2) new frames1); try done; by apply (rg_size _ _ _ H)|].
  intros frames2 (Hi2 & Ht2 & Hh2 & Hg). cbn [returns]. split; [done|]. split; [done|]. pose proof (Permutation_length Hperm).
  split; [|cbn; split; [lia|done]]. split; cbn [slots capacity count last_space]; try done.
  - lia.
  - lia.
  - intros key p. rewrite Hperm. apply H.
  - apply H.
  - intros p Hp. rewrite Hperm. by apply (rg_last _ _ _ H).
Qed.

(** What adding a record may do to the pages: nothing, or move to a larger table. *)
Definition pages_moved (r r' : registry) (frames frames' : pmm) : Prop :=
  (slots_physical r' = slots_physical r /\ capacity r' = capacity r /\ frames' = frames) \/ grown_pages r r' frames frames'.

Lemma insert_ok r M p : registry_ok o r M -> (count r + 1) * 2 <= capacity r -> is_Some (o !! p) -> key_of o p <> 0 -> M !! key_of o p = None ->
  returns (space_place o (slots r) (capacity r) p) (fun placed =>
    registry_ok o (Registry placed (capacity r) (u64 (count r + 1)) (last_space r) (slots_physical r)) (<[key_of o p := p]> M)).
Proof.
  intros H Hroom Hp Hkey Hm. destruct (rg_size _ _ _ H) as (k & Hk & Hn). pose proof (size_bound _ (rg_size _ _ _ H)) as Hsz.
  pose proof (rg_count _ _ _ H) as Hc.
  eapply returns_mono; [apply (place_ok o _ k Hn ltac:(lia) (slots r) p (rg_table _ _ _ H) (registry_room _ _ H) Hp)|].
  - intros (q & Eq & Hq)%list_elem_of_fmap. assert (M !! key_of o p = Some q) as Hc'; [|congruence]. apply (rg_map _ _ _ H). done.
  - intros placed [Ht Hperm]. pose proof (Permutation_length Hperm) as Hlen. cbn in Hlen.
    split; cbn [slots capacity count last_space]; rewrite ?u64_small by lia; try done.
    + apply H.
    + lia.
    + intros key q. rewrite lookup_insert_Some, (rg_map _ _ _ H), Hperm, elem_of_cons. split.
      * intros [[<- <-]|(Hne & Hq & Hkq)]; [by auto|by auto].
      * intros [[->|Hq] Hkq]; [by left|]. right. split; [|done]. intros <-.
        assert (M !! key_of o p = Some q) as Hc'; [|congruence]. by apply (rg_map _ _ _ H).
    + rewrite lookup_insert_ne by done. apply H.
    + intros q Hq. rewrite Hperm. right. by apply (rg_last _ _ _ H).
Qed.

Lemma add_ok r M frames p : registry_ok o r M -> pmm_inv frames -> run_held r frames -> is_Some (o !! p) ->
  returns (space_add o r frames (Some p)) (fun '(status, r', frames') => pmm_inv frames' /\ total_pages frames' = total_pages frames /\
    run_held r' frames' /\
    ((status = -1 /\ r' = r /\ frames' = frames /\
      (key_of o p = 0 \/ M !! key_of o p <> None \/ no_run r frames)) \/
     (status = 0 /\ key_of o p <> 0 /\ M !! key_of o p = None /\ registry_ok o r' (<[key_of o p := p]> M) /\ pages_moved r r' frames frames'))).
Proof.
  intros H Hi Hheld Hp. unfold space_add.
  assert (exists space, read_space o p = Ret space /\ cr3 space = key_of o p) as (space & Es & Ek).
  { destruct Hp as [x Hx]. exists x. unfold read_space, key_of. by rewrite Hx. }
  rewrite Es, bind_ret, Ek. destruct (Z.eqb_spec (key_of o p) 0) as [|Hnz]; [cbn; auto 10|].
  rewrite (known_ok r M) by done. rewrite bind_ret. destruct (M !! key_of o p) as [q|] eqn:Em; [assert (Some q <> None) by done; cbn; auto 10|].
  pose proof (size_bound _ (rg_size _ _ _ H)) as Hsz. pose proof (rg_count _ _ _ H) as Hc. pose proof (rg_room _ _ _ H) as Hroom.
  rewrite (u64_small ((count r + 1) * 2)) by lia. destruct (Z.ltb_spec (capacity r) ((count r + 1) * 2)) as [Hfull|Hfits].
  - eapply returns_bind; [by apply (grow_ok r M)|]. intros [grown frames'] (Hi' & Ht' & Hg). destruct grown as [r'|]; [|destruct Hg as [-> Hno]; cbn; auto 10].
    destruct Hg as (Hr' & Ecap & Ecnt & Hh' & Hpages). eapply returns_bind; [apply (insert_ok r' M); [done|lia|done..]|].
    intros placed Hok. cbn [returns]. split; [done|]. split; [done|]. split; [done|]. right. split; [done|]. split; [done|]. split; [done|].
    split; [done|]. right. exact Hpages.
  - rewrite bind_ret. eapply returns_bind; [apply (insert_ok r M); [done|lia|done..]|]. intros placed Hok. cbn [returns]. split; [done|]. split; [done|].
    split; [exact Hheld|]. right. split; [done|]. split; [done|]. split; [done|]. split; [done|]. by left.
Qed.
End registry.

(** ** Sequences of operations *)

Record space_state := SpaceState { sp_objects : objects; sp_registry : registry; sp_frames : pmm; sp_questions : nat }.

Inductive space_op :=
  | SpaceRegister (key : Z)
  | SpaceUnregister (key : Z)
  | SpaceFind (key : Z).

Inductive space_answer :=
  | SpaceStatus (status : Z)
  | SpaceFound (record : option Z).

Section sequences.
(** The address mask, and what kmalloc answers: NULL, or an address where there
    is no record. *)
Context (mask : Z) (kmalloc : nat -> objects -> option Z).
Context (Hfresh : forall n o p, kmalloc n o = Some p -> o !! p = None).

(** A new root is given a record, which is freed when it cannot be registered;
    an old one is looked up, taken out of the table and its record freed. *)
Definition space_step (op : space_op) (s : space_state) : res (space_answer * space_state) :=
  let o := sp_objects s in
  match op with
  | SpaceRegister key =>
      let n := S (sp_questions s) in
      match kmalloc (sp_questions s) o with
      | None => Ret (SpaceStatus (-1), SpaceState o (sp_registry s) (sp_frames s) n)
      | Some p =>
          let o' := <[p := VmmSpace key (replicate 4 0)]> o in
          '(status, r, frames) ← space_add o' (sp_registry s) (sp_frames s) (Some p);
          Ret (SpaceStatus status, SpaceState (if status =? 0 then o' else o) r frames n)
      end
  | SpaceUnregister key =>
      '(found, r) ← address_space_registered o (sp_registry s) mask key;
      match found with
      | None => Ret (SpaceFound None, SpaceState o r (sp_frames s) (sp_questions s))
      | Some p =>
          r ← space_remove o r (Z.land key mask);
          Ret (SpaceFound found, SpaceState (delete p o) r (sp_frames s) (sp_questions s))
      end
  | SpaceFind key =>
      '(found, r) ← address_space_registered o (sp_registry s) mask key;
      Ret (SpaceFound found, SpaceState o r (sp_frames s) (sp_questions s))
  end.

Fixpoint space_run (ops : list space_op) (s : space_state) : res (list space_answer * space_state) :=
  match ops with
  | [] => Ret ([], s)
  | op :: ops => '(a, s) ← space_step op s; '(l, s) ← space_run ops s; Ret (a :: l, s)
  end.

(** The same over a finite map from roots to records. *)
Definition space_spec (op : space_op) (M : gmap Z Z) (a : space_answer) (M' : gmap Z Z) : Prop :=
  match op with
  | SpaceRegister key =>
      (a = SpaceStatus (-1) /\ M' = M) \/
      (a = SpaceStatus 0 /\ key <> 0 /\ M !! key = None /\ exists p, (forall k, M !! k <> Some p) /\ M' = <[key := p]> M)
  | SpaceUnregister key => a = SpaceFound (M !! Z.land key mask) /\ M' = delete (Z.land key mask) M
  | SpaceFind key => a = SpaceFound (M !! Z.land key mask) /\ M' = M
  end.

Fixpoint space_spec_run (ops : list space_op) (M : gmap Z Z) (answers : list space_answer) (M' : gmap Z Z) : Prop :=
  match ops, answers with
  | [], [] => M' = M
  | op :: ops, a :: answers => exists M1, space_spec op M a M1 /\ space_spec_run ops M1 answers M'
  | _, _ => False
  end.

Definition space_ok (s : space_state) (M : gmap Z Z) : Prop :=
  registry_ok (sp_objects s) (sp_registry s) M /\ pmm_inv (sp_frames s) /\ run_held (sp_registry s) (sp_frames s).

(** Records that are not in the table may come and go. *)
Lemma registry_ok_objects o o' r M : (forall p, p ∈ entries (slots r) -> o' !! p = o !! p) -> registry_ok o r M -> registry_ok o' r M.
Proof.
  intros He [H1 [Hl Hlive Hkeys Hpath] H3 H4 H5 H6 H7].
  assert (forall p, p ∈ entries (slots r) -> key_of o' p = key_of o p) as Hkey by (intros p Hp; unfold key_of; by rewrite He).
  split; try done.
  - split; try done.
    + intros p Hp. rewrite He by done. by apply Hlive.
    + rewrite (list_fmap_ext (key_of o') (key_of o)); [done|]. intros i p Hp. apply Hkey. by eapply list_elem_of_lookup_2.
    + intros i p j Hi Ei Hj. unfold home_of. rewrite Hkey by (by eapply slot_at_entry). by apply Hpath.
  - intros key p. rewrite H5. split; intros [Hp <-]; (split; [done|]); by rewrite Hkey.
Qed.

Lemma space_step_ok op s M : space_ok s M ->
  returns (space_step op s) (fun '(a, s') => exists M', space_spec op M a M' /\ space_ok s' M').
Proof.
  intros (Hr & Hi & Hh). destruct op as [key|key|key]; cbn [space_step].
  - destruct (kmalloc (sp_questions s) (sp_objects s)) as [p|] eqn:Ek; [|cbn; exists M; split; [by left|done]].
    apply Hfresh in Ek. set (o' := <[p := VmmSpace key (replicate 4 0)]> (sp_objects s)).
    assert (p ∉ entries (slots (sp_registry s))) as Hnew.
    { intros Hp. apply (tb_live _ _ _ _ (rg_table _ _ _ Hr)) in Hp as [x Hx]. congruence. }
    assert (registry_ok o' (sp_registry s) M) as Hr'.
    { eapply registry_ok_objects; [|exact Hr]. intros q Hq. apply lookup_insert_ne. intros ->. done. }
    assert (o' !! p = Some (VmmSpace key (replicate 4 0))) as Ho' by apply lookup_insert_eq.
    assert (key_of o' p = key) as Hkey by (unfold key_of; by rewrite Ho').
    eapply returns_bind; [apply (add_ok o' (sp_registry s) M (sp_frames s) p Hr' Hi Hh); by eexists|].
    intros [[status r'] frames'] (Hi' & _ & Hh' & [(-> & -> & -> & _)|(-> & Hnz & Hm & Hok & _)]); rewrite ?Hkey in *; cbn [returns].
    + exists M. split; [by left|done].
    + exists (<[key := p]> M). split; [|done]. right. split; [done|]. split; [done|]. split; [done|]. exists p. split; [|done].
      intros k Hk. apply (rg_map _ _ _ Hr) in Hk as [Hp _]. done.
  - eapply returns_bind; [by apply (registered_ok _ _ M)|]. intros [found r'] (-> & Hr' & Es & Ec & Ep).
    assert (run_held r' (sp_frames s)) as Hh' by (unfold run_held, in_run in *; by rewrite Ep, Ec).
    destruct (M !! Z.land key mask) as [p|] eqn:Em.
    + eapply returns_bind; [by apply (remove_ok _ _ M)|]. intros r2 (Hr2 & Hgone & Ec2 & Ep2). cbn [returns].
      eexists. split; [split; [by rewrite Em|done]|]. split; [|split; [done|]]; cbn [sp_objects sp_registry sp_frames].
      * eapply registry_ok_objects; [|exact Hr2]. intros q Hq. apply lookup_delete_ne. intros ->. by apply (Hgone q).
      * unfold run_held, in_run in *. by rewrite Ep2, Ec2.
    + cbn [returns]. exists M. split; [split; [by rewrite Em|by rewrite delete_id]|done].
  - eapply returns_bind; [by apply (registered_ok _ _ M)|]. intros [found r'] (-> & Hr' & Es & Ec & Ep). cbn [returns].
    exists M. split; [done|]. split; [done|]. split; [done|]. unfold run_held, in_run in *. cbn [sp_registry sp_frames]. by rewrite Ep, Ec.
Qed.

Lemma registry_boot_ok : registry_ok ∅ registry_boot ∅.
Proof.
  split; cbn [slots capacity count last_space registry_boot].
  - by exists 9.
  - apply (empty_table ∅ 512). done.
  - by rewrite entries_empty.
  - done.
  - intros key p. rewrite entries_empty, lookup_empty. split; [done|]. intros [H _]. by apply not_elem_of_nil in H.
  - done.
  - done.
Qed.

(** C12. The table of address spaces is a finite map: from boot on, every sequence
    of registering, unregistering and looking up returns, and its answers are
    those of a map from roots to records, however often the table grows and
    wherever its entries collide; no record that was freed is ever read, also
    through the remembered last answer. *)
Theorem space_table_refines_map frames ops :
  pmm_inv frames ->
  returns (space_run ops (SpaceState ∅ registry_boot frames 0)) (fun '(answers, s) =>
    exists M, space_spec_run ops ∅ answers M /\ space_ok s M).
Proof.
  intros Hi. assert (forall s M, space_ok s M ->
    returns (space_run ops s) (fun '(answers, s') => exists M', space_spec_run ops M answers M' /\ space_ok s' M')) as H.
  { induction ops as [|op ops IH]; intros s M Hs; cbn [space_run]; [by exists M|].
    eapply returns_bind; [by apply (space_step_ok op s M)|]. intros [a s1] (M1 & Hsp & Hok).
    eapply returns_bind; [by apply (IH s1 M1)|]. intros [l s2] (M2 & Hrun & Hok2). cbn [returns]. exists M2. split; [|done]. by exists M1. }
  apply H. split; [apply registry_boot_ok|]. split; [done|]. by split.
Qed.
End sequences.

Definition demo_kmalloc (n : nat) (o : objects) : option Z :=
  match o !! Z.of_nat n with
  | None => Some (Z.of_nat n)
  | Some _ => None
  end.

Lemma space_table_refines_map_witness :
  pmm_inv demo_pmm /\
  (forall n o p, demo_kmalloc n o = Some p -> o !! p = None) /\
  returns (space_run (2 ^ 52 - 4096) demo_kmalloc [SpaceRegister 4096; SpaceRegister 8192; SpaceUnregister 4096; SpaceFind 8195; SpaceFind 4096]
    (SpaceState ∅ registry_boot demo_pmm 0)) (fun '(answers, _) =>
      exists M, space_spec_run (2 ^ 52 - 4096) [SpaceRegister 4096; SpaceRegister 8192; SpaceUnregister 4096; SpaceFind 8195; SpaceFind 4096] ∅ answers M).
Proof.
  assert (pmm_inv demo_pmm) as Hi by (apply pmm_invb_sound; reflexivity).
  assert (forall n o p, demo_kmalloc n o = Some p -> o !! p = None) as Hf.
  { intros n o p. unfold demo_kmalloc. destruct (o !! Z.of_nat n) eqn:E; [done|]. by intros [= <-]. }
  split; [exact Hi|]. split; [exact Hf|].
  eapply returns_mono; [apply (space_table_refines_map (2 ^ 52 - 4096) demo_kmalloc Hf demo_pmm _ Hi)|].
  intros [answers s] (M & HM & _). exists M. exact HM.
Defined.

Example space_run_demo :
  returns (space_run (2 ^ 52 - 4096) demo_kmalloc [SpaceRegister 4096; SpaceRegister 8192; SpaceUnregister 4096; SpaceFind 8195; SpaceFind 4096]
    (SpaceState ∅ registry_boot demo_pmm 0)) (fun '(answers, _) =>
      answers = [SpaceStatus 0; SpaceStatus 0; SpaceFound (Some 0); SpaceFound (Some 1); SpaceFound None]).
Proof. vm_compute. reflexivity. Qed.
