(* ===== verification/Pte.v ===== *)
(** * Page table entries (kernel/include/tunix/vmm_arch.h)

    The two architectures encode an entry differently; mm/vmm.c uses them through
    the same inline functions.  Here these are the class [Pte], with an instance
    for each architecture, and [PteLaws] states what vmm.c relies on. *)

From S2P Require Import Prelude.

Definition PAGE_PRESENT : Z := Z.shiftl 1 0.
Definition PAGE_WRITE : Z := Z.shiftl 1 1.
Definition PAGE_USER : Z := Z.shiftl 1 2.
Definition PAGE_WRITE_THROUGH : Z := Z.shiftl 1 3.
Definition PAGE_UNCACHED : Z := Z.shiftl 1 4.
Definition PAGE_HUGE : Z := Z.shiftl 1 7.
Definition PAGE_WRITE_COMBINING : Z := Z.shiftl 1 7.
Definition PAGE_DEVICE : Z := Z.shiftl 1 9.
Definition PAGE_COW : Z := Z.shiftl 1 10.
Definition PAGE_SHARED : Z := Z.shiftl 1 11.
Definition PAGE_FILEBACKED : Z := Z.shiftl 1 52.
Definition PAGE_NX : Z := Z.shiftl 1 63.

(** [flags & bit], as a condition; [~bits] in 64 bits. *)
Definition has (flags bit : Z) : bool := negb (Z.land flags bit =? 0).
Definition without (flags bits : Z) : Z := Z.land flags (u64 (Z.lnot bits)).

Class Pte := {
  ADDRESS_MASK : Z;
  pte_present : Z -> bool;
  pte_huge : Z -> bool;
  pte_address : Z -> Z;
  pte_flags : Z -> Z;
  pte_upper_flags : Z -> Z;
  pte_leaf_flags : Z -> Z;
  pte_page : Z -> Z -> Z;
  pte_block : Z -> Z -> Z;
  pte_table : Z -> Z -> Z;
  pte_retarget : Z -> Z -> Z;
  pte_table_grant_user : Z -> Z -> Z;
  pte_young : Z -> bool;
  pte_mkold : Z -> Z;
  pte_mkyoung : Z -> Z }.

(** ** x86-64 *)

Definition X86_PTE_ADDRESS_MASK : Z := 0x000FFFFFFFFFF000.
Definition X86_PTE_ACCESSED : Z := Z.shiftl 1 5.
Definition x86_pte_present (entry : Z) : bool := has entry PAGE_PRESENT.
Definition x86_pte_huge (entry : Z) : bool := has entry PAGE_HUGE.
Definition x86_pte_address (entry : Z) : Z := Z.land entry X86_PTE_ADDRESS_MASK.
Definition x86_pte_flags (entry : Z) : Z := without entry X86_PTE_ADDRESS_MASK.
Definition x86_pte_upper_flags (entry : Z) : Z := entry.
Definition x86_pte_leaf_flags (entry : Z) : Z := entry.
Definition x86_pte_page (physical flags : Z) : Z := Z.lor physical flags.
Definition x86_pte_block (physical flags : Z) : Z := Z.lor (Z.lor physical flags) PAGE_HUGE.
Definition x86_pte_table (physical flags : Z) : Z := Z.lor physical flags.
Definition x86_pte_retarget (entry physical : Z) : Z := Z.lor physical (without entry X86_PTE_ADDRESS_MASK).
Definition x86_pte_table_grant_user (entry leaf_flags : Z) : Z :=
  if has leaf_flags PAGE_USER && negb (has entry PAGE_USER) then Z.lor entry PAGE_USER else entry.
Definition x86_pte_young (entry : Z) : bool := has entry X86_PTE_ACCESSED.
Definition x86_pte_mkold (entry : Z) : Z := without entry X86_PTE_ACCESSED.
Definition x86_pte_mkyoung (entry : Z) : Z := Z.lor entry X86_PTE_ACCESSED.

(** ** AArch64 *)

Definition ARM_PTE_ADDRESS_MASK : Z := 0x0000FFFFFFFFF000.
Definition ARM_PTE_VALID : Z := Z.shiftl 1 0.
Definition ARM_PTE_NOT_BLOCK : Z := Z.shiftl 1 1.
Definition ARM_PTE_ATTR_DEVICE : Z := Z.shiftl 1 2.
Definition ARM_PTE_ATTR_NONCACHED : Z := Z.shiftl 2 2.
Definition ARM_PTE_ATTR_MASK : Z := Z.shiftl 7 2.
Definition ARM_PTE_AP_USER : Z := Z.shiftl 1 6.
Definition ARM_PTE_AP_READONLY : Z := Z.shiftl 1 7.
Definition ARM_PTE_SH_INNER : Z := Z.shiftl 3 8.
Definition ARM_PTE_AF : Z := Z.shiftl 1 10.
Definition ARM_PTE_NG : Z := Z.shiftl 1 11.
Definition ARM_PTE_PXN : Z := Z.shiftl 1 53.
Definition ARM_PTE_UXN : Z := Z.shiftl 1 54.
Definition ARM_PTE_SW_COW : Z := Z.shiftl 1 55.
Definition ARM_PTE_SW_SHARED : Z := Z.shiftl 1 56.
Definition ARM_PTE_SW_FILEBACKED : Z := Z.shiftl 1 57.
Definition ARM_PTE_SW_DEVICE : Z := Z.shiftl 1 58.

Definition arm_pte_present (entry : Z) : bool := has entry ARM_PTE_VALID.
Definition arm_pte_huge (entry : Z) : bool := Z.land entry (Z.lor ARM_PTE_VALID ARM_PTE_NOT_BLOCK) =? ARM_PTE_VALID.
Definition arm_pte_address (entry : Z) : Z := Z.land entry ARM_PTE_ADDRESS_MASK.

(** [if (c) x |= bit] *)
Definition set_if (c : bool) (bit x : Z) : Z := if c then Z.lor x bit else x.

Definition arm_pte_flags (entry : Z) : Z :=
  if negb (has entry ARM_PTE_VALID) then 0
  else
    let flags := PAGE_PRESENT in
    let flags := set_if (negb (has entry ARM_PTE_NOT_BLOCK)) PAGE_HUGE flags in
    let flags := set_if (negb (has entry ARM_PTE_AP_READONLY)) PAGE_WRITE flags in
    let flags := if has entry ARM_PTE_AP_USER then set_if (has entry ARM_PTE_UXN) PAGE_NX (Z.lor flags PAGE_USER)
                 else set_if (has entry ARM_PTE_PXN) PAGE_NX flags in
    let flags := set_if (Z.land entry ARM_PTE_ATTR_MASK =? ARM_PTE_ATTR_DEVICE) PAGE_UNCACHED flags in
    let flags := set_if (has entry ARM_PTE_SW_COW) PAGE_COW flags in
    let flags := set_if (has entry ARM_PTE_SW_SHARED) PAGE_SHARED flags in
    let flags := set_if (has entry ARM_PTE_SW_FILEBACKED) PAGE_FILEBACKED flags in
    set_if (has entry ARM_PTE_SW_DEVICE) PAGE_DEVICE flags.

Definition arm_pte_upper_flags (entry : Z) : Z :=
  if arm_pte_huge entry then arm_pte_flags entry
  else if negb (has entry ARM_PTE_VALID) then 0
  else Z.lor (Z.lor PAGE_PRESENT PAGE_WRITE) PAGE_USER.

Definition arm_pte_leaf_flags (entry : Z) : Z := arm_pte_flags entry.

Definition arm_pte_encode (physical flags : Z) (block : bool) : Z :=
  let entry := Z.lor (Z.lor (Z.lor (Z.land physical ARM_PTE_ADDRESS_MASK) ARM_PTE_VALID) ARM_PTE_AF) ARM_PTE_SH_INNER in
  let entry := set_if (negb block) ARM_PTE_NOT_BLOCK entry in
  let entry := if negb block && has flags PAGE_WRITE_COMBINING then Z.lor entry ARM_PTE_ATTR_NONCACHED
               else set_if (has flags (Z.lor PAGE_UNCACHED PAGE_WRITE_THROUGH)) ARM_PTE_ATTR_DEVICE entry in
  let entry := set_if (negb (has flags PAGE_WRITE)) ARM_PTE_AP_READONLY entry in
  let entry := if has flags PAGE_USER then set_if (has flags PAGE_NX) ARM_PTE_UXN (Z.lor entry (Z.lor (Z.lor ARM_PTE_AP_USER ARM_PTE_NG) ARM_PTE_PXN))
               else set_if (has flags PAGE_NX) ARM_PTE_PXN (Z.lor entry ARM_PTE_UXN) in
  let entry := set_if (has flags PAGE_COW) ARM_PTE_SW_COW entry in
  let entry := set_if (has flags PAGE_SHARED) ARM_PTE_SW_SHARED entry in
  let entry := set_if (has flags PAGE_FILEBACKED) ARM_PTE_SW_FILEBACKED entry in
  set_if (has flags PAGE_DEVICE) ARM_PTE_SW_DEVICE entry.

Definition arm_pte_page (physical flags : Z) : Z := arm_pte_encode physical flags false.
Definition arm_pte_block (physical flags : Z) : Z := arm_pte_encode physical flags true.
Definition arm_pte_table (physical flags : Z) : Z :=
  Z.lor (Z.lor (Z.land physical ARM_PTE_ADDRESS_MASK) ARM_PTE_VALID) ARM_PTE_NOT_BLOCK.
Definition arm_pte_retarget (entry physical : Z) : Z := Z.lor physical (without entry ARM_PTE_ADDRESS_MASK).
Definition arm_pte_table_grant_user (entry leaf_flags : Z) : Z := entry.
Definition arm_pte_young (entry : Z) : bool := has entry ARM_PTE_AF.
Definition arm_pte_mkold (entry : Z) : Z := without entry ARM_PTE_AF.
Definition arm_pte_mkyoung (entry : Z) : Z := Z.lor entry ARM_PTE_AF.

Definition x86_64 : Pte := {|
  ADDRESS_MASK := X86_PTE_ADDRESS_MASK; pte_present := x86_pte_present; pte_huge := x86_pte_huge; pte_address := x86_pte_address;
  pte_flags := x86_pte_flags; pte_upper_flags := x86_pte_upper_flags; pte_leaf_flags := x86_pte_leaf_flags; pte_page := x86_pte_page;
  pte_block := x86_pte_block; pte_table := x86_pte_table; pte_retarget := x86_pte_retarget;
  pte_table_grant_user := x86_pte_table_grant_user; pte_young := x86_pte_young; pte_mkold := x86_pte_mkold; pte_mkyoung := x86_pte_mkyoung |}.

Definition aarch64 : Pte := {|
  ADDRESS_MASK := ARM_PTE_ADDRESS_MASK; pte_present := arm_pte_present; pte_huge := arm_pte_huge; pte_address := arm_pte_address;
  pte_flags := arm_pte_flags; pte_upper_flags := arm_pte_upper_flags; pte_leaf_flags := arm_pte_leaf_flags; pte_page := arm_pte_page;
  pte_block := arm_pte_block; pte_table := arm_pte_table; pte_retarget := arm_pte_retarget;
  pte_table_grant_user := arm_pte_table_grant_user; pte_young := arm_pte_young; pte_mkold := arm_pte_mkold; pte_mkyoung := arm_pte_mkyoung |}.

(** ** What mm/vmm.c relies on *)

(** The bits of the flags that both architectures keep. *)
Definition kept : list Z := [0; 1; 2; 9; 10; 11; 52; 63].

Definition word64 (e : Z) : Prop := 0 <= e < 2 ^ 64.

Section interface.
Context {P : Pte}.

Definition frame_address (p : Z) : Prop := 0 <= p /\ Z.land p ADDRESS_MASK = p.
Definition flags_word (f : Z) : Prop := word64 f /\ Z.land f ADDRESS_MASK = 0 /\ Z.testbit f 0 = true.

(** An entry that leads to a table. *)
Definition leads_to (e p : Z) : Prop :=
  word64 e /\ pte_present e = true /\ pte_huge e = false /\ pte_address e = p /\
  Z.testbit (pte_upper_flags e) 1 = true /\ Z.testbit (pte_upper_flags e) 63 = false.

(** The same page with the same flags. *)
Definition same_page (e e' : Z) : Prop :=
  word64 e' /\ pte_present e' = true /\ pte_address e' = pte_address e /\
  forall k, k ∈ kept -> Z.testbit (pte_flags e') k = Z.testbit (pte_flags e) k.
End interface.

Class PteLaws (P : Pte) : Prop := {
  law_mask : exists w, 48 <= w <= 52 /\ ADDRESS_MASK = 2 ^ w - 2 ^ 12;
  law_address e : pte_address e = Z.land e ADDRESS_MASK;
  law_present e : pte_present e = Z.testbit e 0;
  law_flags e : word64 e -> pte_present e = true -> flags_word (pte_flags e);
  law_page p f : frame_address p -> flags_word f ->
    word64 (pte_page p f) /\ pte_present (pte_page p f) = true /\ pte_address (pte_page p f) = p /\
    forall k, k ∈ kept -> Z.testbit (pte_flags (pte_page p f)) k = Z.testbit f k;
  law_leaf e : word64 e -> pte_present e = true -> forall k, k ∈ kept -> Z.testbit (pte_leaf_flags e) k = Z.testbit (pte_flags e) k;
  law_table p user : frame_address p ->
    let f := if user : bool then Z.lor (Z.lor PAGE_PRESENT PAGE_WRITE) PAGE_USER else Z.lor PAGE_PRESENT PAGE_WRITE in
    leads_to (pte_table p f) p /\ (user = true -> Z.testbit (pte_upper_flags (pte_table p f)) 2 = true);
  law_grant e p f : leads_to e p -> leads_to (pte_table_grant_user e f) p /\
    Z.testbit (pte_upper_flags (pte_table_grant_user e f)) 2 = Z.testbit (pte_upper_flags e) 2 || Z.testbit f 2;
  law_retarget e p p' : leads_to e p -> frame_address p' -> leads_to (pte_retarget e p') p' /\
    Z.testbit (pte_upper_flags (pte_retarget e p')) 2 = Z.testbit (pte_upper_flags e) 2;
  law_retarget_page e p' : word64 e -> pte_present e = true -> frame_address p' ->
    word64 (pte_retarget e p') /\ pte_present (pte_retarget e p') = true /\ pte_address (pte_retarget e p') = p' /\
    forall k, k ∈ kept -> Z.testbit (pte_flags (pte_retarget e p')) k = Z.testbit (pte_flags e) k;
  law_mkold e : word64 e -> pte_present e = true -> same_page e (pte_mkold e);
  law_mkyoung e : word64 e -> pte_present e = true -> same_page e (pte_mkyoung e) }.

(** ** Bits *)

Lemma has_bit f k : 0 <= k -> has f (Z.shiftl 1 k) = Z.testbit f k.
Proof.
  intros Hk. unfold has. rewrite Z.shiftl_1_l. destruct (Z.testbit f k) eqn:E.
  - rewrite (proj2 (Z.eqb_neq _ _)); [done|]. intros H. apply (f_equal (fun x => Z.testbit x k)) in H.
    rewrite Z.land_spec, E, Z.pow2_bits_true, Z.bits_0 in H by lia. done.
  - rewrite (proj2 (Z.eqb_eq _ _)); [done|]. apply Z.bits_inj'. intros j Hj. rewrite Z.land_spec, Z.bits_0.
    destruct (Z.eq_dec j k) as [->|]; [by rewrite E|]. rewrite Z.pow2_bits_false by lia. apply andb_false_r.
Qed.

Lemma has_lor f a b : has f (Z.lor a b) = has f a || has f b.
Proof.
  unfold has. rewrite Z.land_lor_distr_r. destruct (Z.eqb_spec (Z.land f a) 0) as [->|Ha]; [by rewrite Z.lor_0_l|].
  cbn. rewrite (proj2 (Z.eqb_neq _ _)); [done|]. intros H%Z.lor_eq_0_iff. tauto.
Qed.

Lemma testbit_u64 z k : 0 <= k < 64 -> Z.testbit (u64 z) k = Z.testbit z k.
Proof. intros. unfold u64. apply Z.mod_pow2_bits_low. lia. Qed.

Lemma testbit_without f b k : 0 <= k < 64 -> Z.testbit (without f b) k = Z.testbit f k && negb (Z.testbit b k).
Proof. intros. unfold without. rewrite Z.land_spec, testbit_u64, Z.lnot_spec by lia. done. Qed.

Lemma word_without f b : word64 f -> word64 (without f b).
Proof. intros H. unfold without, word64. apply (land_bound 64); [lia|done]. Qed.

Lemma word_lor a b : word64 a -> word64 b -> word64 (Z.lor a b).
Proof. apply (lor_bound 64). lia. Qed.

Lemma word_bit k : 0 <= k < 64 -> word64 (Z.shiftl 1 k).
Proof. intros. unfold word64. rewrite Z.shiftl_1_l. split; [lia|]. apply Z.pow_lt_mono_r; lia. Qed.

Lemma testbit_set_if c b x k : Z.testbit (set_if c b x) k = Z.testbit x k || (c && Z.testbit b k).
Proof. destruct c; cbn [set_if]; [apply Z.lor_spec|by rewrite orb_false_r]. Qed.

Lemma testbit_if (c : bool) x y k : Z.testbit (if c then x else y) k = if c then Z.testbit x k else Z.testbit y k.
Proof. by destruct c. Qed.

Lemma word_set_if c b x : word64 b -> word64 x -> word64 (set_if c b x).
Proof. intros. destruct c; [by apply word_lor|done]. Qed.

(** The bits of an address mask. *)
Lemma mask_bits w k : 12 <= w -> 0 <= k -> Z.testbit (2 ^ w - 2 ^ 12) k = (12 <=? k) && (k <? w).
Proof.
  intros Hw Hk. replace (2 ^ w - 2 ^ 12) with (Z.shiftl (Z.ones (w - 12)) 12).
  - rewrite Z.shiftl_spec by lia. destruct (Z.leb_spec 12 k); [|rewrite Z.testbit_neg_r by lia; done]. cbn.
    rewrite Z.testbit_ones by lia. rewrite (proj2 (Z.leb_le 0 (k - 12))) by lia. cbn.
    destruct (Z.ltb_spec (k - 12) (w - 12)), (Z.ltb_spec k w); (done || lia).
  - rewrite Z.shiftl_mul_pow2, Z.ones_equiv by lia. rewrite <- Z.sub_1_r, Z.mul_sub_distr_r, <- Z.pow_add_r by lia.
    replace (w - 12 + 12) with w by lia. lia.
Qed.

Lemma land_bits_eq a b : 0 <= b -> (forall k, 0 <= k -> Z.testbit b k = true -> Z.testbit a k = true) -> Z.land a b = b.
Proof.
  intros Hb H. apply Z.bits_inj'. intros k Hk. rewrite Z.land_spec. destruct (Z.testbit b k) eqn:E; [|apply andb_false_r]. by rewrite (H k Hk E).
Qed.

Lemma land3 e : Z.land e 3 = Z.b2z (Z.testbit e 0) + 2 * Z.b2z (Z.testbit e 1).
Proof.
  change 3 with (Z.ones 2). rewrite Z.land_ones by lia. change (2 ^ 2) with (2 * 2).
  rewrite Z.rem_mul_r by lia. rewrite <- Z.bit0_mod, <- Z.bit0_mod. rewrite <- Z.div2_div, Z.div2_spec, Z.shiftr_spec by lia. done.
Qed.

(** [bits]: the bits of an expression, as a boolean of the bits of its parts. *)
Ltac const_bits :=
  repeat match goal with
  | |- context [Z.testbit ?c ?k] =>
      let v := eval vm_compute in (Z.testbit c k) in
      lazymatch v with true => idtac | false => idtac end;
      change (Z.testbit c k) with v
  end.

Ltac bits :=
  repeat (rewrite ?testbit_set_if, ?testbit_if, ?Z.lor_spec, ?Z.land_spec, ?has_lor, ?has_bit, ?testbit_without by lia);
  const_bits; rewrite ?andb_false_r, ?andb_true_r, ?orb_false_r, ?orb_true_r; cbn [andb orb negb].

Ltac each_kept H :=
  unfold kept in H; repeat (apply elem_of_cons in H as [->|H]; [|]); [..|by apply not_elem_of_nil in H].

(** ** The laws, for x86-64 *)

Definition x86_mask : X86_PTE_ADDRESS_MASK = 2 ^ 52 - 2 ^ 12 := eq_refl.

Lemma frame_bits (P : Pte) w p k : ADDRESS_MASK = 2 ^ w - 2 ^ 12 -> 12 <= w -> frame_address p -> 0 <= k -> (12 <=? k) && (k <? w) = false ->
  Z.testbit p k = false.
Proof. intros Hm Hw [Hp E] Hk Hout. rewrite <- E, Z.land_spec, Hm, mask_bits, Hout by lia. apply andb_false_r. Qed.

Lemma flag_bits (P : Pte) w f k : ADDRESS_MASK = 2 ^ w - 2 ^ 12 -> 12 <= w -> Z.land f ADDRESS_MASK = 0 -> 12 <= k < w -> Z.testbit f k = false.
Proof.
  intros Hm Hw E Hk. apply (f_equal (fun x => Z.testbit x k)) in E. rewrite Z.land_spec, Hm, mask_bits, Z.bits_0 in E by lia.
  rewrite (proj2 (Z.leb_le 12 k)), (proj2 (Z.ltb_lt k w)) in E by lia. by rewrite andb_true_r in E.
Qed.

Lemma frame_word (P : Pte) w p : ADDRESS_MASK = 2 ^ w - 2 ^ 12 -> 12 <= w <= 63 -> frame_address p -> word64 p.
Proof.
  intros Hm Hw [Hp E]. split; [done|]. rewrite <- E. apply (Z.lt_le_trans _ (2 ^ w)); [|apply Z.pow_le_mono_r; lia].
  rewrite Z.land_comm. apply (land_bound w); [lia|]. rewrite Hm. pose proof (Z.pow_le_mono_r 2 12 w ltac:(lia) ltac:(lia)). lia.
Qed.

(** An address and flags put together, and taken apart. *)
Lemma join_address (P : Pte) w p f : ADDRESS_MASK = 2 ^ w - 2 ^ 12 -> 12 <= w <= 63 -> frame_address p -> Z.land f ADDRESS_MASK = 0 ->
  Z.land (Z.lor p f) ADDRESS_MASK = p.
Proof. intros Hm Hw [Hp E] Hf. by rewrite Z.land_lor_distr_l, E, Hf, Z.lor_0_r. Qed.

Lemma without_mask (P : Pte) e : word64 e -> Z.land (without e ADDRESS_MASK) ADDRESS_MASK = 0.
Proof.
  intros He. apply Z.bits_inj'. intros k Hk. rewrite Z.land_spec, Z.bits_0. destruct (Z.lt_ge_cases k 64).
  - rewrite testbit_without by lia. by destruct (Z.testbit e k), (Z.testbit ADDRESS_MASK k).
  - rewrite (testbit_above 64) by (by apply word_without || lia). done.
Qed.

Lemma kept_range k : k ∈ kept -> 0 <= k < 64 /\ (k < 12 \/ 52 <= k).
Proof. intros H. each_kept H; lia. Qed.

Lemma mask_kept w k : 48 <= w <= 52 -> k ∈ kept -> Z.testbit (2 ^ w - 2 ^ 12) k = false.
Proof. intros Hw Hk. apply kept_range in Hk. rewrite mask_bits by lia. destruct (Z.leb_spec 12 k), (Z.ltb_spec k w); (done || lia). Qed.

Lemma frame_kept (P : Pte) w p k : ADDRESS_MASK = 2 ^ w - 2 ^ 12 -> 48 <= w <= 52 -> frame_address p -> k ∈ kept -> Z.testbit p k = false.
Proof.
  intros Hm Hw Hp Hk. pose proof (mask_kept w k Hw Hk) as H. apply kept_range in Hk. rewrite mask_bits in H by lia. apply (frame_bits P w); (done || lia).
Qed.

Lemma x86_present e : pte_present (Pte := x86_64) e = Z.testbit e 0.
Proof. by apply (has_bit e 0). Qed.

Lemma x86_huge e : pte_huge (Pte := x86_64) e = Z.testbit e 7.
Proof. by apply (has_bit e 7). Qed.

Lemma x86_flag e k : k ∈ kept -> Z.testbit (pte_flags (Pte := x86_64) e) k = Z.testbit e k.
Proof.
  intros Hk. cbn. unfold x86_pte_flags. pose proof (kept_range k Hk). rewrite testbit_without by lia.
  rewrite x86_mask, (mask_kept 52) by (done || lia). apply andb_true_r.
Qed.

Lemma x86_frame p : frame_address (P := x86_64) p -> word64 p.
Proof. by apply (frame_word x86_64 52). Qed.

Lemma x86_low p k : frame_address (P := x86_64) p -> 0 <= k -> k < 12 \/ 52 <= k -> Z.testbit p k = false.
Proof. intros Hp Hk H. apply (frame_bits x86_64 52); try done. destruct (Z.leb_spec 12 k), (Z.ltb_spec k 52); (done || lia). Qed.

(** Membership in a list of numbers, by computation. *)
Ltac listed := apply (bool_decide_unpack _); exact I.

(** The functions of an architecture, in place of the interface. *)
Ltac arch :=
  cbn [pte_page pte_table pte_retarget pte_table_grant_user pte_upper_flags pte_leaf_flags pte_address pte_flags pte_mkold pte_mkyoung
       ADDRESS_MASK x86_64 aarch64] in *.

#[global] Instance x86_64_laws : PteLaws x86_64.
Proof.
  split.
  - exists 52. split; [lia|done].
  - done.
  - apply x86_present.
  - intros e He Hp. rewrite x86_present in Hp. split; [by apply word_without|]. split; [by apply (without_mask x86_64)|].
    rewrite x86_flag by (by left). done.
  - intros p f Hp (Hf & Hfm & Hf0). split; [by apply word_lor; [apply x86_frame|]|]. rewrite x86_present. arch. unfold x86_pte_page.
    split; [by rewrite Z.lor_spec, Hf0, orb_true_r|]. split; [by apply (join_address x86_64 52)|].
    intros k Hk. rewrite (x86_flag _ k Hk), Z.lor_spec. pose proof (kept_range k Hk). by rewrite x86_low by (done || lia).
  - intros e He Hp k Hk. by rewrite x86_flag.
  - intros p user Hp f. pose proof (x86_frame p Hp).
    assert (Z.land f X86_PTE_ADDRESS_MASK = 0) as Hfm by (unfold f; by destruct user).
    split; [|intros ->; arch; unfold x86_pte_table, x86_pte_upper_flags, f; by rewrite !Z.lor_spec, orb_true_r].
    split; [apply word_lor; [done|unfold f, word64; destruct user; vm_compute; intuition discriminate]|]. rewrite x86_present, x86_huge. arch.
    unfold x86_pte_table, x86_pte_upper_flags. split_and!; [..|by apply (join_address x86_64 52 p f)| |];
      rewrite Z.lor_spec, x86_low by (done || lia); unfold f; by destruct user.
  - intros e p f (He & Hp & Hh & Ha & Hw & Hx). arch. unfold x86_pte_table_grant_user, x86_pte_upper_flags in *.
    rewrite !(has_bit _ 2) by lia. unfold leads_to. rewrite x86_present, x86_huge in *. arch. unfold x86_pte_upper_flags, x86_pte_address in *.
    destruct (Z.testbit f 2 && negb (Z.testbit e 2)) eqn:E.
    + split; [|by rewrite Z.lor_spec; destruct (Z.testbit f 2); rewrite ?orb_true_r].
      rewrite !Z.lor_spec, Z.land_lor_distr_l. rewrite Ha. change (Z.land PAGE_USER X86_PTE_ADDRESS_MASK) with 0. rewrite Z.lor_0_r.
      split; [by apply word_lor; [|apply word_bit]|]. rewrite Hp, Hh, Hw, Hx. done.
    + split; [done|]. by destruct (Z.testbit f 2), (Z.testbit e 2).
  - intros e p p' (He & Hp & Hh & Ha & Hw & Hx) Hp'. pose proof (x86_frame p' Hp') as Hwp. unfold leads_to. rewrite x86_present, x86_huge in *. arch.
    unfold x86_pte_retarget, x86_pte_upper_flags, x86_pte_address in *.
    split; [|rewrite Z.lor_spec, x86_low, testbit_without by (done || lia); by rewrite andb_true_r].
    split; [by apply word_lor, word_without|]. split_and!; [..|apply (join_address x86_64 52); [done|lia|done|by apply (without_mask x86_64)]| |];
      rewrite Z.lor_spec, x86_low, testbit_without by (done || lia); by rewrite ?Hp, ?Hh, ?Hw, ?Hx.
  - intros e p' He Hp Hp'. pose proof (x86_frame p' Hp') as Hwp. rewrite x86_present in *. arch. unfold x86_pte_retarget.
    split; [by apply word_lor, word_without|]. split; [rewrite Z.lor_spec, testbit_without by lia; by rewrite Hp, orb_true_r|].
    split; [apply (join_address x86_64 52); [done|lia|done|by apply (without_mask x86_64)]|].
    intros k Hk. pose proof (kept_range k Hk). rewrite (x86_flag _ k Hk), (x86_flag _ k Hk), Z.lor_spec, x86_low, testbit_without by (done || lia).
    rewrite x86_mask, (mask_kept 52) by (done || lia). apply andb_true_r.
  - intros e He Hp. unfold same_page. rewrite x86_present in *. arch. unfold x86_pte_mkold, x86_pte_address. split; [by apply word_without|].
    split; [rewrite testbit_without by lia; by rewrite Hp|]. split.
    + unfold without. rewrite <- Z.land_assoc. f_equal.
    + intros k Hk. rewrite (x86_flag _ k Hk), (x86_flag _ k Hk). pose proof (kept_range k Hk). rewrite testbit_without by lia.
      replace (Z.testbit X86_PTE_ACCESSED k) with false; [by rewrite andb_true_r|]. each_kept Hk; done.
  - intros e He Hp. unfold same_page. rewrite x86_present in *. arch. unfold x86_pte_mkyoung, x86_pte_address. split; [by apply word_lor, word_bit|].
    split; [by rewrite Z.lor_spec, Hp|]. split; [by rewrite Z.land_lor_distr_l, Z.lor_0_r|].
    intros k Hk. rewrite (x86_flag _ k Hk), (x86_flag _ k Hk), Z.lor_spec.
    replace (Z.testbit X86_PTE_ACCESSED k) with false; [by rewrite orb_false_r|]. each_kept Hk; done.
Qed.

(** ** The laws, for AArch64 *)

Lemma arm_present e : pte_present (Pte := aarch64) e = Z.testbit e 0.
Proof. by apply (has_bit e 0). Qed.

Lemma arm_huge e : pte_huge (Pte := aarch64) e = Z.testbit e 0 && negb (Z.testbit e 1).
Proof.
  change (pte_huge e) with (arm_pte_huge e). unfold arm_pte_huge. change (Z.lor ARM_PTE_VALID ARM_PTE_NOT_BLOCK) with 3. rewrite land3. by destruct (Z.testbit e 0), (Z.testbit e 1).
Qed.

(** The bits of the flags of an entry. *)
Definition arm_flag (e k : Z) : bool :=
  if k =? 0 then true else if k =? 1 then negb (Z.testbit e 7) else if k =? 2 then Z.testbit e 6
  else if k =? 9 then Z.testbit e 58 else if k =? 10 then Z.testbit e 55 else if k =? 11 then Z.testbit e 56
  else if k =? 52 then Z.testbit e 57 else if Z.testbit e 6 then Z.testbit e 54 else Z.testbit e 53.

Lemma arm_flags_bit e k : Z.testbit e 0 = true -> k ∈ kept -> Z.testbit (pte_flags (Pte := aarch64) e) k = arm_flag e k.
Proof.
  intros H0 Hk. arch. unfold arm_pte_flags. unfold ARM_PTE_VALID. rewrite (has_bit e 0), H0 by lia. cbn [negb].
  unfold ARM_PTE_NOT_BLOCK, ARM_PTE_AP_READONLY, ARM_PTE_AP_USER, ARM_PTE_UXN, ARM_PTE_PXN, ARM_PTE_SW_COW, ARM_PTE_SW_SHARED,
    ARM_PTE_SW_FILEBACKED, ARM_PTE_SW_DEVICE. rewrite !has_bit by lia.
  each_kept Hk; bits; unfold arm_flag; cbn [Z.eqb Pos.eqb]; by destruct (Z.testbit e 6).
Qed.

Definition arm_page_bit (f k : Z) : bool :=
  if (k =? 0) || (k =? 1) then true else if k =? 6 then Z.testbit f 2 else if k =? 7 then negb (Z.testbit f 1)
  else if k =? 53 then Z.testbit f 2 || Z.testbit f 63 else if k =? 54 then negb (Z.testbit f 2) || Z.testbit f 63
  else if k =? 55 then Z.testbit f 10 else if k =? 56 then Z.testbit f 11 else if k =? 57 then Z.testbit f 52 else Z.testbit f 9.

Lemma arm_encode_bit p f k : k ∈ [0; 1; 6; 7; 53; 54; 55; 56; 57; 58] -> Z.testbit (arm_pte_page p f) k = arm_page_bit f k.
Proof.
  intros Hk. unfold arm_pte_page, arm_pte_encode.
  unfold PAGE_WRITE_COMBINING, PAGE_UNCACHED, PAGE_WRITE_THROUGH, PAGE_WRITE, PAGE_USER, PAGE_NX, PAGE_COW, PAGE_SHARED, PAGE_FILEBACKED, PAGE_DEVICE.
  rewrite has_lor, !has_bit by lia. cbn [negb andb].
  repeat (apply elem_of_cons in Hk as [->|Hk]; [bits; unfold arm_page_bit; cbn [Z.eqb Pos.eqb orb]; by destruct (Z.testbit f 2), (Z.testbit f 63), (Z.testbit f 7)|]).
  by apply not_elem_of_nil in Hk.
Qed.

Lemma set_if_mask c b x : Z.land b ARM_PTE_ADDRESS_MASK = 0 -> Z.land (set_if c b x) ARM_PTE_ADDRESS_MASK = Z.land x ARM_PTE_ADDRESS_MASK.
Proof. intros E. destruct c; cbn [set_if]; [|done]. by rewrite Z.land_lor_distr_l, E, Z.lor_0_r. Qed.

Lemma lor_mask b x : Z.land b ARM_PTE_ADDRESS_MASK = 0 -> Z.land (Z.lor x b) ARM_PTE_ADDRESS_MASK = Z.land x ARM_PTE_ADDRESS_MASK.
Proof. intros E. by rewrite Z.land_lor_distr_l, E, Z.lor_0_r. Qed.

Lemma arm_encode_address p f : Z.land (arm_pte_page p f) ARM_PTE_ADDRESS_MASK = Z.land p ARM_PTE_ADDRESS_MASK.
Proof.
  unfold arm_pte_page, arm_pte_encode. cbn [negb andb]. rewrite !set_if_mask by done.
  destruct (has f PAGE_USER); rewrite ?set_if_mask, ?lor_mask, ?set_if_mask by done;
    destruct (has f PAGE_WRITE_COMBINING); rewrite ?set_if_mask, ?lor_mask, ?set_if_mask, ?lor_mask by done; by rewrite <- Z.land_assoc.
Qed.

Lemma arm_encode_word p f : word64 p -> word64 (arm_pte_page p f).
Proof.
  intros Hp. unfold arm_pte_page, arm_pte_encode. cbn [negb andb].
  assert (word64 (Z.land p ARM_PTE_ADDRESS_MASK)) by (apply (land_bound 64); [lia|done]).
  repeat first [apply word_set_if | apply word_lor | case_match]; try done; vm_compute; intuition discriminate.
Qed.

Lemma arm_frame p : frame_address (P := aarch64) p -> word64 p.
Proof. by apply (frame_word aarch64 48). Qed.

Lemma arm_low p k : frame_address (P := aarch64) p -> 0 <= k -> k < 12 \/ 48 <= k -> Z.testbit p k = false.
Proof. intros Hp Hk H. apply (frame_bits aarch64 48); try done. destruct (Z.leb_spec 12 k), (Z.ltb_spec k 48); (done || lia). Qed.

(** The flags of a table that is valid and no block. *)
Lemma arm_upper e : Z.testbit e 0 = true -> pte_huge (Pte := aarch64) e = false ->
  pte_upper_flags (Pte := aarch64) e = Z.lor (Z.lor PAGE_PRESENT PAGE_WRITE) PAGE_USER.
Proof.
  intros H0 Hh. change (arm_pte_huge e = false) in Hh. arch. unfold arm_pte_upper_flags. rewrite Hh. unfold ARM_PTE_VALID. by rewrite (has_bit e 0), H0.
Qed.

Lemma arm_leads_to e p : word64 e -> Z.testbit e 0 = true -> Z.testbit e 1 = true -> pte_address (Pte := aarch64) e = p ->
  leads_to (P := aarch64) e p /\ Z.testbit (pte_upper_flags (Pte := aarch64) e) 2 = true.
Proof.
  intros He H0 H1 Ha. assert (pte_huge (Pte := aarch64) e = false) as Hh by (rewrite arm_huge, H0, H1; done).
  unfold leads_to. rewrite arm_present, (arm_upper e H0 Hh). done.
Qed.

Lemma arm_leads_inv e p : leads_to (P := aarch64) e p -> word64 e /\ Z.testbit e 0 = true /\ Z.testbit e 1 = true /\ pte_address (Pte := aarch64) e = p.
Proof.
  intros (He & Hp & Hh & Ha & _). rewrite arm_present in Hp. rewrite arm_huge, Hp in Hh. split; [done|]. split; [done|]. split; [|done].
  by destruct (Z.testbit e 1).
Qed.

(** Entries that agree on the bits of the flags have the same flags. *)
Lemma arm_same_flags e e' : Z.testbit e 0 = true -> Z.testbit e' 0 = true ->
  (forall k, k ∈ [6; 7; 53; 54; 55; 56; 57; 58] -> Z.testbit e' k = Z.testbit e k) ->
  forall k, k ∈ kept -> Z.testbit (pte_flags (Pte := aarch64) e') k = Z.testbit (pte_flags (Pte := aarch64) e) k.
Proof.
  intros H0 H0' H k Hk. rewrite !arm_flags_bit by done. unfold arm_flag. rewrite !H by listed. done.
Qed.

Lemma arm_flags_word e : word64 (pte_flags (Pte := aarch64) e) /\ Z.land (pte_flags (Pte := aarch64) e) ARM_PTE_ADDRESS_MASK = 0.
Proof.
  arch. unfold arm_pte_flags. destruct (negb _); [done|]. split.
  - repeat first [apply word_set_if | apply word_lor | case_match]; vm_compute; intuition discriminate.
  - rewrite !set_if_mask by done. destruct (has e ARM_PTE_AP_USER); rewrite ?set_if_mask, ?lor_mask, ?set_if_mask by done; done.
Qed.

#[global] Instance aarch64_laws : PteLaws aarch64.
Proof.
  split.
  - exists 48. split; [lia|done].
  - done.
  - apply arm_present.
  - intros e He Hp. rewrite arm_present in Hp. destruct (arm_flags_word e) as [? ?]. split; [done|]. split; [done|]. by rewrite arm_flags_bit by (done || by left).
  - intros p f Hp (Hf & Hfm & Hf0). pose proof (arm_frame p Hp) as Hw. rewrite arm_present. arch.
    assert (Z.testbit (arm_pte_page p f) 0 = true) as H0 by (rewrite arm_encode_bit by listed; done).
    split; [by apply arm_encode_word|]. split; [done|]. split; [unfold arm_pte_address; rewrite arm_encode_address; by destruct Hp|].
    intros k Hk. change (arm_pte_flags (arm_pte_page p f)) with (pte_flags (Pte := aarch64) (arm_pte_page p f)).
    rewrite (arm_flags_bit (arm_pte_page p f) k) by done. unfold arm_flag. rewrite !arm_encode_bit by listed. unfold arm_page_bit. cbn [Z.eqb Pos.eqb orb].
    each_kept Hk; cbn [Z.eqb Pos.eqb]; rewrite ?negb_involutive; try done. by destruct (Z.testbit f 2).
  - done.
  - intros p user Hp f. destruct Hp as [Hp Ep]. destruct (arm_leads_to (pte_table (Pte := aarch64) p f) p) as [H1 H2]; [..|split; [done|]; done].
    + arch. unfold arm_pte_table. rewrite Ep. by apply word_lor; [apply word_lor; [apply arm_frame|apply word_bit]|apply word_bit].
    + arch. unfold arm_pte_table. bits. done.
    + arch. unfold arm_pte_table. bits. done.
    + arch. unfold arm_pte_table, arm_pte_address. by rewrite !lor_mask, <- Z.land_assoc by done.
  - intros e p f H. split; [done|]. destruct (arm_leads_inv e p H) as (He & H0 & H1 & Ha). destruct (arm_leads_to e p He H0 H1 Ha) as [_ E]. rewrite E. exact E.
  - intros e p p' H Hp'. destruct (arm_leads_inv e p H) as (He & H0 & H1 & Ha). destruct (arm_leads_to e p He H0 H1 Ha) as [_ ->].
    apply arm_leads_to.
    + by apply word_lor; [apply arm_frame|apply word_without].
    + arch. unfold arm_pte_retarget. by rewrite Z.lor_spec, testbit_without, H0, orb_true_r by lia.
    + arch. unfold arm_pte_retarget. by rewrite Z.lor_spec, testbit_without, H1, orb_true_r by lia.
    + arch. apply (join_address aarch64 48); [done|lia|done|by apply (without_mask aarch64)].
  - intros e p' He Hp Hp'. rewrite arm_present in *. pose proof (arm_frame p' Hp') as Hw. arch. unfold arm_pte_retarget.
    assert (forall k, k ∈ [0; 6; 7; 53; 54; 55; 56; 57; 58] -> Z.testbit (Z.lor p' (without e ARM_PTE_ADDRESS_MASK)) k = Z.testbit e k) as Hb.
    { intros k Hk. rewrite Z.lor_spec. repeat (apply elem_of_cons in Hk as [->|Hk];
        [rewrite arm_low, testbit_without by (done || lia); by rewrite andb_true_r|]). by apply not_elem_of_nil in Hk. }
    split; [by apply word_lor, word_without|]. split; [rewrite Hb by listed; done|].
    split; [apply (join_address aarch64 48); [done|lia|done|by apply (without_mask aarch64)]|].
    apply (arm_same_flags e); [done|rewrite Hb by listed; done|]. intros k Hk. apply Hb. by right.
  - intros e He Hp. unfold same_page. rewrite arm_present in *. arch. unfold arm_pte_mkold, arm_pte_address. split; [by apply word_without|].
    split; [by rewrite testbit_without, Hp by lia|]. split; [unfold without; by rewrite <- Z.land_assoc|].
    apply (arm_same_flags e); [done|by rewrite testbit_without, Hp by lia|]. intros k Hk.
    repeat (apply elem_of_cons in Hk as [->|Hk]; [rewrite testbit_without by lia; by rewrite andb_true_r|]). by apply not_elem_of_nil in Hk.
  - intros e He Hp. unfold same_page. rewrite arm_present in *. arch. unfold arm_pte_mkyoung, arm_pte_address. split; [by apply word_lor, word_bit|].
    split; [by rewrite Z.lor_spec, Hp|]. split; [by apply lor_mask|].
    apply (arm_same_flags e); [done|by rewrite Z.lor_spec, Hp|]. intros k Hk.
    repeat (apply elem_of_cons in Hk as [->|Hk]; [rewrite Z.lor_spec; by rewrite orb_false_r|]). by apply not_elem_of_nil in Hk.
Qed.


